(* ===== verification/_CoqProject ===== *)
-Q . S2P
Prelude.v
APInt.v
LLVM.v
AnalysisState.v
RangeDomain.v
RangeTransfer.v
Dataflow.v
PTA.v
Graph.v
DataDep.v
ControlDep.v
CallGraph.v
ValueRange.v
Taint.v
MemSafe.v
CompatType.v
Uriah.v
DataGuard.v
OutOfWindow.v
WindowEnds.v
Pipeline.v
PassRuns.v
SafeStack.v
SafeStackCode.v
SafeStackShape.v
SafeStackExec.v
SafeStackFrame.v
SafeStackUses.v
SafeStackMoves.v
Machine.v
Slh.v
SlhSteps.v
SlhMarkers.v
SlhFenced.v
SlhGep.v
SlhHarden.v
SlhStack.v
SlhCfg.v
SlhEdges.v
SlhChecked.v
SlhTrace.v
SlhPoison.v
SlhEntry.v
SlhIndirect.v
SlhCond.v
SlhCondWalk.v
SlhCondFacts.v
