(* ===== verification/Prelude.v ===== *)
(** * A verification library for MSV's memory-safety passes

    MSV (Unified-Memory-Safety-Validation) is a set of LLVM passes that find the
    pointers of a program that need run-time protection, and a patched LLVM back end
    that applies the protection.  The parts and how they work together:

    - [OutOfWindowPass] (OutOfWindow.cpp) computes the instructions that cannot run
      inside a speculation window after a branch.
    - [UnifiedMemSafePass] (UnifiedMemSafe.cpp) walks the module and classifies every
      pointer as Safe, Seq (indexed) or Dyn (cast) in an [AnalysisState] (Utils.hpp,
      Utils.cpp), propagating classes and sizes.
    - [Uriah] (Uriah.cpp) splits the unsafe heap pointers by class and extends them by
      alias edges of the program dependence graph; [DataGuard] (DataGuard.cpp) splits the
      unsafe stack pointers.
    - The sequential pointers go to [valueRangeAnalysis] (ValueRange.cpp): a forward
      dataflow analysis (DataflowAnalysis.h) over integer ranges decides which GEPs may
      leave their object; those are filtered (out of window, protection mode), fenced
      with marker instructions, and the objects they may touch are tagged using SVF's
      points-to sets (PTAWrapper.cpp).
    - The dynamic casts go to [CompatibleType] (CompatibleType.cpp), which drops the
      compatible ones.
    - [TaintPass] (Taint.cpp), a later pass, erases the fences of the GEPs whose address
      reaches no branch.
    - The back end's speculative load hardening (X86SpeculativeLoadHardening.cpp) reads
      the marker instructions: it hardens the address computed between two markers and
      the accesses behind them, and erases the markers.
    - The back end's safe stack (SafeStack.cpp) moves the stack objects that carry the
      tag of the value-range analysis to a separate stack.

    ** Files and what they model

    - Prelude.v: tactics, hint databases, lemmas on lists, finite sets, closures and
      marking searches ([flood]).
    - APInt.v: LLVM's fixed-width integers (width and unsigned value in Z, wrap-around
      written out), the operations the passes use.
    - LLVM.v: what the passes read of LLVM: types, values, instruction classes, and a
      record [IRModule] of accessors.  LLVM is a parameter; [dominated], that chains of
      operands end, is what the functions that follow such chains ask of it.
    - AnalysisState.v: Utils.hpp, Utils.cpp.  One definition per method of
      [AnalysisState]; pointers into the variable map are references ([VarRef]) read at
      their use; [st_step] is the relation of single state changes.
    - RangeDomain.v: struct [RangeValue] and [RangeMeet] of ValueRange.cpp.
    - RangeTransfer.v: class [RangeTransfer] and its helpers.
    - Dataflow.v: DataflowAnalysis.h, generic in the class [AbstractDomain]; the range
      analysis is the instance [RangeAnalysis].  The classes [GoodDomain] and
      [SoundDomain] say what an abstract value must promise to the engine.
    - PTA.v: PTAWrapper.cpp over a record [SVF] of points-to results.
    - Graph.v: the program dependence graph (PDGNode.cpp, PDGEdge.hh, Graph.cpp): nodes at
      addresses, their edge views, the searches, the nodes [build] makes of instructions.
      The class [SetOrder] is the order in which a set of pointers or a hash set is walked.
    - DataDep.v: DataDependencyGraph.cpp, the edges it adds to that graph.
    - ControlDep.v: ControlDependencyGraph.cpp, over LLVM's post-dominator tree (class
      [TreeLaws]).
    - CallGraph.v: PDGCallGraph.cpp: construction, reachability, one path, the closure.
    - ValueRange.v: [valueRangeAnalysis] and [tagOperationsForProtections].
    - Taint.v: Taint.cpp.  The two propagations are instances of [flood].
    - MemSafe.v: [UnifiedMemSafePass] up to the reports; it reads the alias edges of the
      graph.
    - CompatType.v, DataGuard.v, Uriah.v, OutOfWindow.v: the files of those names
      (DataGuard.v also has the marker clean-up at the end of [runOnModule]).
    - WindowEnds.v: why the exploration of OutOfWindow.v ends.
    - Pipeline.v: [UnifiedMemSafePass::runOnModule], which composes the classification,
      the two reports and the clean-up, and the module with the marker calls inserted
      ([withFences]).
    - PassRuns.v: what runs of the whole pass guarantee.
    - Machine.v: what the back end reads of a machine basic block: instructions, operands,
      registers and the target's accessors (a record [TargetInfo]).
    - Slh.v: the back end's pass over one block ([hardenBlock]) and all it calls, as state
      passing over the block, the fresh registers and the pass's maps.
    - SlhSteps.v: the class [StepInv], what a single change of the block preserves, and
      the automation ([keep]) that lifts it to every operation of Slh.v.
    - SlhMarkers.v: the first walk (markers), the erasure, and the whole pass as steps.
    - SlhFenced.v: which inserted instruction checks a value, through the second walk.
    - SlhGep.v: exact effect of hardening a value and a stand-alone address computation.
    - SlhHarden.v: the theorems on the pass, and the blocks that show its gaps.
    - SlhStack.v: execution of the code that carries the predicate state through calls.
    - SlhCfg.v: the control flow of that pass, over a whole machine function: the checks
      on the edges, on indirect branches, the fences on edges, the unfolding of loading
      calls, and [runOnMachineFunction], which runs them and [hardenBlock] of Slh.v in
      each block.  A failed assertion, a fatal error and a dereferenced null are values.
    - SlhEdges.v: weakest preconditions for it, the target's promises (class
      [TargetLaws]), what every change of a function keeps ([structured]), and the exact
      effect of splitting an edge and of a sequence of cmovs.
    - SlhChecked.v, SlhTrace.v: one checked edge, and the loops that check them all.
    - SlhPoison.v: the edges of a function as its terminators are tried, execution of the
      checks, the theorem that every edge is checked, and two functions with a gap.
    - SlhEntry.v: fences on edges, PHIs with one entry per predecessor, unfolding.
    - SlhIndirect.v: the checks in the blocks indirect branches enter.
    - SlhCond.v: branch conditions and variable-timing instructions (-sbh, -sbhAll,
      -vtInstr): the opcode tables, [hardenBranch], [hardenVariantTimingInstr].
    - SlhCondWalk.v: the two walks of Slh.v with every option ([hardenBlockAll]).
    - SlhCondFacts.v: the theorems on them, and blocks that show their gaps.
    - SafeStack.v: the safe stack's analysis of the uses of an object
      ([IsSafeStackAlloca]) and [findInsts], over the class [ScalarEvolution].
    - SafeStackCode.v: the instructions the safe stack creates and every function that
      inserts or rewrites code, up to [run] and [runOnFunction].
    - SafeStackShape.v: what an instruction of the rewritten code can be, and closed forms
      of the loops that insert code.
    - SafeStackExec.v: execution of the rewritten code along a path of blocks; the stack
      pointer at the returns.
    - SafeStackFrame.v: the addresses of the moved objects and the layout's contract.
    - SafeStackUses.v: which register a rewritten use reads.
    - SafeStackMoves.v: what that register holds, on every path and at phi nodes.

    ** What the theorems show

    - Classification: an unsafe pointer never becomes safe ([unsafe_never_safe], by
      induction on sequences of state changes); every handler is such a sequence; the
      run ends ([classification_completes]) and leaves every indexed pointer and every
      reinterpreting cast unsafe ([indexed_pointers_unsafe],
      [reinterpreted_pointers_unsafe]); stores carry classes ([store_propagates_unsafe]).
    - Ranges: union is the least upper bound, intersection is exact, branch ranges and
      interval arithmetic are sound, bounds are never null, GEP ranges stay inside the
      base object; and where they are not what they should be: [meet_forgets_every_range],
      [branch_range_drops_negative], [udiv_range_inverted], [store_replaces_lower_bound].
    - Engine: the block loop, the recursion through calls and the outer loop end
      ([computeForwardDataflow_terminates]); merges at block entry lose no value,
      given the branch constraint ([entry_state_sound]); no null bound is stored ([analysis_keeps_bounds]).
    - Report: the index values the computed ranges allow at an unreported array access are
      in bounds ([unreported_array_gep_in_bounds]), reported GEPs are fenced, exactly the
      accesses to unsafe objects are tagged ([protected_accesses_tagged]), the GEPs are
      partitioned.
    - The whole pass: it returns ([pass_completes]); what either range analysis reports is
      fenced in the module it leaves ([reported_geps_fenced_at_exit]), and at an array
      access it leaves without a fence every index value the computed ranges allow is
      inside the array ([unfenced_array_accesses_in_bounds]; as listed above, the ranges
      can miss values the program takes); with -diff-only a fence can be lost
      ([diff_mode_loses_fence]).
    - Graph: the redundant views of the edges implement one set of edges
      ([addNeighbor_refines]); typed reachability is exact ([canReach_exact]) while the
      search over several types finds only direct neighbours
      ([findNodesReachedByEdges_one_step]); the alias edges are exactly the intended ones
      ([alias_edges_exact]); the control edges are those of the textbook definition but
      for loops ([control_edges_exact], [loop_branch_not_self_dependent]); the call graph
      is exact and its searches find a chain of calls when there is one
      ([call_graph_exact], [call_chains_found]).
    - Casts, stack and heap reports, window: what is dropped and why, the split by class,
      the alias roots ([queryAliasing_common_root]), completeness of the heap report
      ([unsafe_heap_pointers_reported], [nonaliased_allocations_exact]), the casts of
      allocations ([allocation_casts_kept]), the recursion test, the distance test and the
      explored window.
    - Taint: the sources, the charged GEPs and, given these, the reached set
      ([taint_exact]); exactly the untainted GEPs lose their fences
      ([tainted_geps_keep_fences]), and when the clean-up dereferences null
      ([cleanup_fails_exactly]).
    - Load hardening: a load behind a marker pair that depends on no earlier access of its
      block is checked, when no load of the block is checked after loading
      ([fenced_access_checked]), a stand-alone address is checked for all its readers
      ([standalone_uses_checked]), exactly the markers are erased ([markers_erased]), an
      unmatched marker makes the pass erase null ([unmatched_marker_erases_null]).
      Blocks with a load the first walk selects for checking after the load (the default
      option) are outside the first theorem.  The state they use: every edge out of a
      branch is checked ([edges_checked]), a check testing the condition of its own branch
      only ([second_branch_unchecked], [indirect_entry_poisoned]); given the updater's
      contract ([UpdaterLaws]), every block an
      indirect branch can enter compares the target with its own address and poisons the
      state when they differ ([indirect_targets_checked]); with -lfence the entered blocks
      are fenced ([edges_fenced]); after unfolding only far calls and jumps load
      ([loading_calls_unfolded]).  Across calls the state survives in the stack pointer
      ([state_roundtrip]) and a wrong return poisons it ([call_checked]).  The
      walks with every option are those of Slh.v when the options are off ([options_off]);
      a comparison of registers is checked operand by operand
      ([condition_operands_checked]); the loop over the operands of a variable-timing
      instruction ends but for one case, in which it never does
      ([variable_timing_ends], [division_loops_forever]).
    - Safe stack: the analysis of uses ends and is sound for the accesses it accepts
      ([safe_alloca_in_bounds]); with -dg-safe exactly the tagged allocas move
      ([unsafe_objects_moved]), every use of a moved one, phi nodes included,
      reads its new address ([tagged_alloca_relocated]), the objects of a frame are
      aligned, disjoint and between the stack pointer and its entry value
      ([frame_intact]), and returns restore the pointer ([return_restores_pointer]).

    ** Bounds and fuel

    - The block loop has [loopFuel] iterations: each block once and 101 requeues of each
      (the code's own threshold).  Nested analyses have depth at most the number of
      (call site, function) pairs ([universe]); the outer loop one iteration per entry
      point.  All three are proved to be enough.
    - The walk over the variable map has one iteration per value of the program; [dfs]
      and the block search have fuel for a closed set of functions or blocks.  Proved.
    - A search of the graph has one iteration per edge, or one per node; a marking search
      ([flood], taint) one per value of a closed set; the alias extension of the heap
      report one per registered pointer.  Proved enough.
    - The loop up the post-dominator tree has fuel above the depth of its start, the search
      for a path one nested call per node; both proved enough.
    - Chains of operands ([getRootValue], [resolveConstantIndex], [propagateFreedSize]) have
      no bound in the code and no fuel here: they are followed by recursion on the relation
      from an operand to its user, which is assumed well-founded ([dominated], an argument
      of these functions and of the pass).  SSA form gives that for code that can be
      reached; in an unreachable block LLVM lets an instruction use itself, and the code
      does not end there.
    - The sinking of a check in the back end moves past at most as many instructions as
      the chain of single uses is long; its fuel is an argument of no effect on the
      theorems.
    - [explore] needs one nested step per (instruction, step) pair and round of its loop:
      [exploreFuel] is proved enough, and that the queue of functions empties
      ([window_analysis_ends]).
    - The search over the uses of an object has one iteration per value of a set closed
      under the followed uses.  Proved enough.

    ** What is not modelled

    SVF (a vendored copy under program-dependence-graph/SVF) and LLVM, which are
    parameters; debug output, timing and statistics; the parameter trees and
    debug-information types of the graph; the KSplit analyses and the superseded NesCheck
    pass of the graph library, which the memory-safety passes do not call.  Of the load
    hardening: LLVM's SSA updater, its instruction tables and its unfolding of memory
    operands, which are parameters; [runOnMachineFunction] runs the walks of Slh.v, without
    the options of SlhCond.v; that composition is modelled without a theorem.  Of the safe stack: debug values, stack coloring (off
    by default), the failure branch of the guard check, the inlining of the pointer's
    address.  An iterator the compatible-type walk has
    invalidated is a failure of that walk ([walk_uses_erased_entry]; the report then has no
    casts, and the rest of the pass is modelled as if it went on); other dangling
    references and invalidated iterators are not modelled, and where the source risks one
    the file's comment says how the model goes on.

    Left: a theorem on the composition [runOnMachineFunction]; a comparison with memory, where the model shows a defect but
    the checked part is not stated. *)
From stdpp Require Import base gmap sets list strings fin_sets relations sorting.
From Stdlib Require Import ZArith Lia.

(** ** Notations of the development *)
Declare Scope msv_scope.
Delimit Scope msv_scope with msv.

(** ** Hint databases *)
Create HintDb msv discriminated.
Create Rewrite HintDb msv_rw.

(** ** Tactics *)

(** Case analysis on every [match]/[if] scrutinee of the goal, keeping equations. *)
Ltac split_matches :=
  repeat (case_match; simplify_eq/=; try done).

(** Turn the boolean tests of the model into propositions in the whole context. *)
Ltac bool_prop :=
  repeat match goal with
  | H : (_ && _)%bool = true |- _ => apply andb_true_iff in H; destruct H
  | H : (_ || _)%bool = false |- _ => apply orb_false_iff in H; destruct H
  | H : negb _ = true |- _ => apply negb_true_iff in H
  | H : negb _ = false |- _ => apply negb_false_iff in H
  | H : (_ <? _)%Z = true |- _ => apply Z.ltb_lt in H
  | H : (_ <? _)%Z = false |- _ => apply Z.ltb_ge in H
  | H : (_ <=? _)%Z = true |- _ => apply Z.leb_le in H
  | H : (_ <=? _)%Z = false |- _ => apply Z.leb_gt in H
  | H : (_ =? _)%Z = true |- _ => apply Z.eqb_eq in H
  | H : (_ =? _)%Z = false |- _ => apply Z.eqb_neq in H
  | H : bool_decide _ = true |- _ => apply bool_decide_eq_true in H
  | H : bool_decide _ = false |- _ => apply bool_decide_eq_false in H
  end.

(** ** Reachability in a graph given by a successor function *)
Section Reach.
Context {A : Type} `{Countable A}.
Variable succ : A -> list A.

Definition edge (x y : A) : Prop := y ∈ succ x.

(** [closed_under_succ S]: no edge leaves [S]. *)
Definition closed_under_succ (S : gset A) : Prop :=
  forall x y, x ∈ S -> y ∈ succ x -> y ∈ S.

Lemma closed_reach (S : gset A) x y :
  closed_under_succ S -> x ∈ S -> rtc edge x y -> y ∈ S.
Proof. intros Hc Hx Hr. induction Hr; eauto. Qed.

(** The invariant of a work-list search from [src]: what is visited or waiting is
    reachable, and the successors of what is visited are visited or waiting. *)
Record search_inv (src : A) (visited : gset A) (queue : list A) : Prop := {
  si_src : src ∈ visited \/ src ∈ queue;
  si_visited : forall x, x ∈ visited -> rtc edge src x;
  si_queue : forall x, x ∈ queue -> rtc edge src x;
  si_closed : forall x y, x ∈ visited -> edge x y -> y ∈ visited \/ y ∈ queue }.

Lemma search_inv_init src : search_inv src ∅ [src].
Proof. split; set_solver. Qed.

Lemma search_inv_skip src visited x queue :
  x ∈ visited -> search_inv src visited (x :: queue) -> search_inv src visited queue.
Proof. intros Hx [Hs Hv Hq Hc]. split; [set_solver..|]. intros a b Ha Hb. specialize (Hc a b Ha Hb). set_solver. Qed.

Lemma search_inv_visit src visited x queue queue' :
  (forall y, y ∈ queue' <-> y ∈ queue \/ edge x y) ->
  search_inv src visited (x :: queue) -> search_inv src ({[x]} ∪ visited) queue'.
Proof.
  intros Hq' [Hs Hv Hq Hc]. assert (rtc edge src x) as Hx by (apply Hq; left). split.
  - destruct Hs as [|[->|]%elem_of_cons]; [left; set_solver..|right; apply Hq'; by left].
  - intros y [->%elem_of_singleton|]%elem_of_union; auto.
  - intros y [Hy|Hy]%Hq'; [apply Hq; by right|by eapply rtc_r].
  - intros a b [->%elem_of_singleton|Ha]%elem_of_union Hab; [right; apply Hq'; by right|].
    destruct (Hc a b Ha Hab) as [|[->|]%elem_of_cons]; [left; set_solver..|right; apply Hq'; by left].
Qed.

Lemma search_inv_done src visited x :
  search_inv src visited [] -> x ∈ visited <-> rtc edge src x.
Proof.
  intros [Hs Hv _ Hc]. split; [auto|]. intros Hr.
  refine (closed_reach visited src x _ _ Hr).
  - intros a b Ha Hb. destruct (Hc a b Ha Hb) as [|Hn]; [done|by apply elem_of_nil in Hn].
  - destruct Hs as [|Hn]; [done|by apply elem_of_nil in Hn].
Qed.

(** What a search has left: the waiting nodes and the edges of the nodes of [W] not
    visited yet. *)
Definition search_measure (W visited : gset A) (queue : list A) : nat :=
  length queue + sum_list_with (fun x => length (succ x)) (elements (W ∖ visited)).

Lemma search_measure_visit W visited x queue queue' :
  x ∉ visited -> (x ∉ W -> succ x = []) -> length queue' = length queue + length (succ x) ->
  search_measure W ({[x]} ∪ visited) queue' < search_measure W visited (x :: queue).
Proof.
  intros Hv Hout Hl. unfold search_measure. simpl. destruct (decide (x ∈ W)) as [Hw|Hw].
  - assert (W ∖ visited = {[x]} ∪ W ∖ ({[x]} ∪ visited)) as -> by (apply set_eq; intros y; destruct (decide (y = x)); set_solver).
    rewrite elements_disj_union by set_solver. rewrite elements_singleton. simpl. lia.
  - rewrite (Hout Hw) in Hl. simpl in Hl.
    assert (W ∖ ({[x]} ∪ visited) = W ∖ visited) as -> by (apply set_eq; set_solver). lia.
Qed.

End Reach.

Lemma tc_mono {B} (R S : relation B) x y : (forall a b, R a b -> S a b) -> tc R x y -> tc S x y.
Proof. intros HRS. induction 1; eauto using tc_once, tc_l. Qed.

(** ** Lists and finite sets *)
Lemma Forall_elem {A} (P : A -> Prop) (l : list A) : (forall x, x ∈ l -> P x) -> Forall P l.
Proof. induction l as [|x l IH]; intros HP; constructor; [|apply IH; intros y Hy]; apply HP; set_solver. Qed.

(** ** Neighbours in a list without repetitions *)
Section Adjacent.
Context {A : Type} `{EqDecision A}.
Implicit Types (l : list A) (x y p : A).

(** The element before and after [x]. *)
Fixpoint prevIn (l : list A) (x : A) (before : option A) : option A :=
  match l with
  | [] => None
  | y :: l' => if decide (y = x) then before else prevIn l' x (Some y)
  end.

Fixpoint nextIn (l : list A) (x : A) : option A :=
  match l with
  | [] => None
  | y :: l' => if decide (y = x) then head l' else nextIn l' x
  end.

(** [p] comes right before [x]. *)
Definition adjacent (l : list A) p x : Prop := exists a b, l = a ++ p :: x :: b.

Lemma adjacent_elem l p x : adjacent l p x -> p ∈ l /\ x ∈ l.
Proof. intros (a & b & ->). set_solver. Qed.

Lemma nextIn_adjacent l x y : NoDup l -> nextIn l x = Some y <-> adjacent l x y.
Proof.
  induction l as [|z l IH]; intros Hd; simpl.
  { split; [done|]. intros (a & b & H). by destruct a. }
  apply NoDup_cons in Hd as [Hz Hd]. destruct (decide (z = x)) as [->|Hne].
  - split.
    + destruct l as [|w l]; [done|]. intros [= ->]. by exists [], l.
    + intros (a & b & H). destruct a as [|w a]; injection H as; subst; [done|]. set_solver.
  - rewrite IH by done. split; intros (a & b & H).
    + exists (z :: a), b. by rewrite H.
    + destruct a as [|w a]; injection H as; subst; [done|]. by exists a, b.
Qed.

Lemma prevIn_adjacent l x y before :
  NoDup l -> prevIn l x before = Some y <-> (before = Some y /\ head l = Some x) \/ adjacent l y x.
Proof.
  revert before. induction l as [|z l IH]; intros before Hd; simpl.
  { split; [done|]. intros [[_ ?]|(a & b & H)]; [done|by destruct a]. }
  apply NoDup_cons in Hd as [Hz Hd]. destruct (decide (z = x)) as [->|Hne].
  - split; [auto|]. intros [[? _]|(a & b & H)]; [done|].
    destruct a as [|w a]; injection H as; subst; set_solver.
  - rewrite IH by done. split.
    + intros [[[= ->] Hh]|(a & b & ->)]; right; [|by exists (z :: a), b].
      destruct l as [|w l]; [done|]. injection Hh as ->. by exists [], l.
    + intros [[_ [= ?]]|(a & b & H)]; [done|]. destruct a as [|w a]; injection H as; subst; [by left|].
      right. by exists a, b.
Qed.
End Adjacent.

(** The keys of a map, as a range-for over the map lists them. *)
Lemma elem_of_keys `{Countable K} {A} (m : gmap K A) k : k ∈ (map_to_list m).*1 <-> is_Some (m !! k).
Proof.
  rewrite list_elem_of_fmap. split.
  - intros ([k' x] & -> & Hk%elem_of_map_to_list). by exists x.
  - intros [x Hx]. exists (k, x). by rewrite elem_of_map_to_list.
Qed.

Lemma elem_of_keys_dom `{Countable K} {A} (m : gmap K A) k : k ∈ (map_to_list m).*1 <-> k ∈ dom m.
Proof. by rewrite elem_of_keys, elem_of_dom. Qed.

Lemma size_difference_insert `{Countable A} (U X : gset A) (x : A) :
  x ∈ U -> x ∉ X -> size (U ∖ ({[x]} ∪ X)) < size (U ∖ X).
Proof.
  intros Hu Hx. apply subset_size. split; [set_solver|].
  intros Hsub. assert (x ∈ U ∖ X) as Hin by set_solver.
  apply Hsub in Hin. set_solver.
Qed.

Lemma size_difference_mono `{Countable A} (U X Y : gset A) :
  X ⊆ Y -> size (U ∖ Y) <= size (U ∖ X).
Proof. intros Hs. apply subseteq_size. set_solver. Qed.

Lemma Forall_elem_of {A} (P : A -> Prop) (l : list A) x : Forall P l -> x ∈ l -> P x.
Proof. intros Hl Hx. revert Hl. induction Hx; inversion 1; auto. Qed.

(** ** Enumerations of sets

    A set of pointers is walked by address and a hash set by hash: the program does not
    choose the order.  [SetOrder] is any enumeration of the elements. *)
Class SetOrder (A : Type) `{Countable A} := {
  order : gset A -> list A;
  order_perm : forall X, order X ≡ₚ elements X }.

Lemma elem_of_order `{SetOrder A} (X : gset A) x : x ∈ order X <-> x ∈ X.
Proof. rewrite order_perm. apply elem_of_elements. Qed.

Lemma length_order `{SetOrder A} (X : gset A) : length (order X) = size X.
Proof. by rewrite order_perm. Qed.

(** The order of [elements], for runs on concrete graphs. *)
Definition elementsOrder (A : Type) `{Countable A} : SetOrder A := {| order := elements; order_perm := fun _ => reflexivity _ |}.

(** ** Marking searches

    A queue of values to process; what a value leads to is marked and queued once.  The
    start values need not be marked.  The result carries the values processed, in order. *)
Section Flood.
Context {A : Type} `{Countable A}.
Variable flows : A -> list A.

(** Mark and queue a value unless it is marked. *)
Definition mark (x : A) (s : gset A * list A) : gset A * list A :=
  if decide (x ∈ s.1) then s else ({[x]} ∪ s.1, s.2 ++ [x]).

Definition markAll (l : list A) (s : gset A * list A) : gset A * list A :=
  fold_left (fun s x => mark x s) l s.

Fixpoint flood (fuel : nat) (s : gset A * list A) : option (gset A * list A) :=
  match fuel with
  | O => None
  | S k =>
    match s.2 with
    | [] => Some (s.1, [])
    | x :: queue =>
      '(marked, processed) ← flood k (markAll (flows x) (s.1, queue));
      Some (marked, x :: processed)
    end
  end.

Lemma markAll_spec l s :
  (forall x, x ∈ (markAll l s).1 <-> x ∈ s.1 \/ x ∈ l) /\
  (forall x, x ∈ (markAll l s).2 <-> x ∈ s.2 \/ (x ∈ l /\ x ∉ s.1)) /\
  length (markAll l s).2 + size s.1 = length s.2 + size (markAll l s).1.
Proof using Type.
  clear flows. unfold markAll. revert s. induction l as [|y l IH]; intros s; simpl; [split_and!; set_solver|].
  destruct (IH (mark y s)) as (H1 & H2 & H3). unfold mark in *.
  destruct (decide (y ∈ s.1)) as [Hy|Hy]; simpl in *.
  - split_and!; [intros x; rewrite H1; set_solver|intros x; rewrite H2; set_solver|done].
  - split_and!.
    + intros x. rewrite H1. set_solver.
    + intros x. rewrite H2. destruct (decide (x = y)); set_solver.
    + rewrite length_app in H3. simpl in H3. rewrite size_union, size_singleton in H3 by set_solver. lia.
Qed.

Context (marked0 : gset A) (queue0 : list A).

(** A step to a value that was not marked at the start. *)
Definition fresh_step (x y : A) : Prop := y ∈ flows x /\ y ∉ marked0.

Record flood_inv (s : gset A * list A) (done : list A) : Prop := {
  fi_old : marked0 ⊆ s.1;
  fi_new : forall x, x ∈ s.1 -> x ∈ marked0 \/ exists y, y ∈ queue0 /\ tc fresh_step y x;
  fi_cover : forall x, x ∈ s.2 \/ x ∈ done <-> x ∈ queue0 \/ (x ∈ s.1 /\ x ∉ marked0);
  fi_closed : forall x y, x ∈ done -> y ∈ flows x -> y ∈ s.1 }.

Lemma flood_inv_init : flood_inv (marked0, queue0) [].
Proof. split; set_solver. Qed.

Lemma flood_inv_step marked x queue done :
  flood_inv (marked, x :: queue) done -> flood_inv (markAll (flows x) (marked, queue)) (done ++ [x]).
Proof.
  intros [Ho Hn Hc Hcl]. destruct (markAll_spec (flows x) (marked, queue)) as (H1 & H2 & _). simpl in *. split.
  - intros y Hy. apply H1. left. by apply Ho.
  - intros y [Hy|Hy]%H1; [by apply Hn|]. destruct (decide (y ∈ marked0)) as [|Hy0]; [by left|right].
    destruct (proj1 (Hc x)) as [Hx|[Hx Hx0]]; [left; left|exists x; split; [done|by apply tc_once]|].
    destruct (Hn x Hx) as [|(z & Hz & Hzx)]; [done|]. exists z. split; [done|]. by eapply tc_r.
  - intros y. rewrite H2, elem_of_app, list_elem_of_singleton. split.
    + intros [[Hy|[Hy Hym]]|[Hy| ->]].
      * destruct (proj1 (Hc y)) as [|[? ?]]; [left; by right|by left|right; split; [apply H1; by left|done]].
      * right. split; [apply H1; by right|]. intros Hy0. by apply Hym, Ho.
      * destruct (proj1 (Hc y)) as [|[? ?]]; [by right|by left|right; split; [apply H1; by left|done]].
      * destruct (proj1 (Hc x)) as [|[? ?]]; [left; left|by left|right; split; [apply H1; by left|done]].
    + intros [Hy|[[Hy|Hy]%H1 Hy0]].
      * destruct (proj2 (Hc y)) as [[->|?]%elem_of_cons|?]; [by left|right; by right|left; by left|right; by left].
      * destruct (proj2 (Hc y)) as [[->|?]%elem_of_cons|?]; [by right|right; by right|left; by left|right; by left].
      * destruct (decide (y ∈ marked)) as [Hm|]; [|left; by right].
        destruct (proj2 (Hc y)) as [[->|?]%elem_of_cons|?]; [by right|right; by right|left; by left|right; by left].
  - intros a y [Ha|Ha]%elem_of_app Hy; apply H1; [left; by eapply Hcl|].
    apply list_elem_of_singleton in Ha as ->. by right.
Qed.

Lemma flood_loop fuel s done (U : gset A) :
  flood_inv s done -> (forall x, x ∈ U -> Forall (.∈ U) (flows x)) -> Forall (.∈ U) s.2 ->
  length s.2 + size (U ∖ s.1) < fuel ->
  exists marked processed, flood fuel s = Some (marked, processed) /\ flood_inv (marked, []) (done ++ processed).
Proof.
  revert s done. induction fuel as [|k IH]; intros [marked queue] done Hi HU Hq Hf; simpl in *; [lia|].
  destruct queue as [|x queue]; [exists marked, []; by rewrite app_nil_r|].
  apply Forall_cons in Hq as [Hx Hq]. destruct (markAll_spec (flows x) (marked, queue)) as (H1 & H2 & H3).
  destruct (IH (markAll (flows x) (marked, queue)) (done ++ [x])) as (m & p & Hr & Hi').
  - by apply flood_inv_step.
  - done.
  - apply Forall_elem. intros y [Hy|[Hy _]]%H2; [by eapply (Forall_elem_of (.∈ U))|].
    eapply (Forall_elem_of (.∈ U)); [by apply HU|done].
  - simpl in H3. assert (marked ⊆ (markAll (flows x) (marked, queue)).1) as Hsub by (intros y Hy; apply H1; by left).
    assert ((markAll (flows x) (marked, queue)).1 ∖ marked ⊆ U) as HsU.
    { intros y [[Hy|Hy]%H1 Hny]%elem_of_difference; [done|].
      eapply (Forall_elem_of (.∈ U)); [by apply HU|done]. }
    set (m' := (markAll (flows x) (marked, queue)).1) in *.
    assert (size (U ∖ marked) = size (m' ∖ marked) + size (U ∖ m')) as HU'.
    { rewrite <- size_union by set_solver. f_equal. apply set_eq. intros y.
      destruct (decide (y ∈ m')); set_solver. }
    assert (size m' = size marked + size (m' ∖ marked)) as Hm'.
    { rewrite <- size_union by set_solver. f_equal. apply set_eq. intros y. destruct (decide (y ∈ marked)); set_solver. }
    cbn [length] in Hf. lia.
  - rewrite Hr. exists m, (x :: p). split; [done|]. by rewrite <- app_assoc in Hi'.
Qed.

(** The search ends and marks exactly what the start values lead to; it processes the
    start values and everything it marked. *)
Lemma flood_spec fuel (U : gset A) :
  (forall x, x ∈ U -> Forall (.∈ U) (flows x)) -> Forall (.∈ U) queue0 ->
  length queue0 + size (U ∖ marked0) < fuel ->
  exists marked processed, flood fuel (marked0, queue0) = Some (marked, processed) /\
    (forall x, x ∈ marked <-> x ∈ marked0 \/ exists y, y ∈ queue0 /\ tc fresh_step y x) /\
    (forall x, x ∈ processed <-> x ∈ queue0 \/ (x ∈ marked /\ x ∉ marked0)) /\
    (forall x y, x ∈ processed -> y ∈ flows x -> y ∈ marked).
Proof.
  intros HU Hq Hf. destruct (flood_loop fuel (marked0, queue0) [] U flood_inv_init HU Hq Hf) as (m & p & Hr & [Ho Hn Hc Hcl]).
  exists m, p. simpl in *. split_and!; [done| |intros x; rewrite <- Hc; set_solver|done].
  intros x. split; [apply Hn|]. intros [Hx|(y & Hy & Hyx)]; [by apply Ho|].
  assert (y ∈ p) as Hp by (destruct (proj2 (Hc y)) as [Hn'|]; [by left|by apply elem_of_nil in Hn'|done]).
  clear Hy. induction Hyx as [y x [Hyx _]|y z x [Hyz Hz] _ IHz]; [by eapply Hcl|].
  apply IHz. destruct (proj2 (Hc z)) as [Hn'|]; [right; split; [by eapply Hcl|done]|by apply elem_of_nil in Hn'|done].
Qed.

End Flood.

#[export] Hint Resolve closed_reach : msv.
