(* ===== verification/APInt.v ===== *)
(** * Fixed-width integers

    [llvm::APInt] is the machine-integer type the value-range analysis computes
    with: a bit width and that many bits.  A value is kept as its unsigned
    reading, wrap-around is written out with [mod 2^w], and the signed reading
    is two's complement.  Binary operations have LLVM's precondition of equal
    widths; on different widths the functions below give what the
    assertion-free build of the repository's [build.sh] computes: the width of
    the left operand is used for both. *)
From stdpp Require Import base countable numbers.
From Stdlib Require Import ZArith Lia.
From S2P Require Import Prelude.
Local Open Scope Z_scope.

Record apint := APInt { bw : Z; uv : Z }.

#[export] Instance apint_eq_dec : EqDecision apint.
Proof. solve_decision. Defined.

#[export] Instance apint_countable : Countable apint.
Proof.
  apply (inj_countable' (fun a => (bw a, uv a)) (fun p => APInt p.1 p.2)).
  by intros [].
Defined.

(** [APInt(w, z)]: the low [w] bits of [z]. *)
Definition mk (w z : Z) : apint := APInt w (z mod 2 ^ w).

(** Well-formed: a positive width and a value that fits. *)
Definition wf (a : apint) : Prop := 0 < bw a /\ 0 <= uv a < 2 ^ bw a.

(** Two's-complement reading of the bits [u] at width [w]. *)
Definition to_signed (w u : Z) : Z := if u <? 2 ^ (w - 1) then u else u - 2 ^ w.

Definition signed (a : apint) : Z := to_signed (bw a) (uv a).

(** getMaxValue, getMinValue, getSignedMaxValue, getSignedMinValue *)
Definition getMaxValue (w : Z) : apint := APInt w (2 ^ w - 1).
Definition getMinValue (w : Z) : apint := APInt w 0.
Definition getSignedMaxValue (w : Z) : apint := APInt w (2 ^ (w - 1) - 1).
Definition getSignedMinValue (w : Z) : apint := APInt w (2 ^ (w - 1)).

(** Comparisons *)
Definition eqb (a b : apint) : bool := uv a =? uv b.
Definition slt (a b : apint) : bool := signed a <? to_signed (bw a) (uv b).
Definition sgt (a b : apint) : bool := to_signed (bw a) (uv b) <? signed a.
Definition slt_z (a : apint) (z : Z) : bool := signed a <? z.
Definition isNegative (a : apint) : bool := 2 ^ (bw a - 1) <=? uv a.
Definition isStrictlyPositive (a : apint) : bool := negb (isNegative a) && negb (uv a =? 0).
Definition isZero (a : apint) : bool := uv a =? 0.
(** [ConstantInt::uge(n)] for a [uint64_t] argument. *)
Definition uge (a : apint) (n : Z) : bool := n <=? uv a.
Definition isPowerOf2 (a : apint) : bool :=
  (0 <? uv a) && (uv a =? 2 ^ Z.log2 (uv a)).

(** Arithmetic, modulo [2^w] *)
Definition add (a b : apint) : apint := mk (bw a) (uv a + uv b).
Definition sub (a b : apint) : apint := mk (bw a) (uv a - uv b).
Definition mul (a b : apint) : apint := mk (bw a) (uv a * uv b).
Definition add_z (a : apint) (z : Z) : apint := mk (bw a) (uv a + z).
Definition flipAllBits (a : apint) : apint := APInt (bw a) (2 ^ bw a - 1 - uv a).
Definition neg_ (a : apint) : apint := mk (bw a) (- uv a).
Definition abs_ (a : apint) : apint := if isNegative a then neg_ a else a.

(** [sextOrTrunc(w)], [getSExtValue()], [getZExtValue()], [getLimitedValue()] *)
Definition sextOrTrunc (w : Z) (a : apint) : apint := mk w (signed a).
Definition getSExtValue (a : apint) : Z := signed a.
Definition getZExtValue (a : apint) : Z := uv a.
Definition getLimitedValue (a : apint) : Z := Z.min (uv a) (2 ^ 64 - 1).

(** Signed range of a width. *)
Definition smin (w : Z) : Z := - 2 ^ (w - 1).
Definition smax (w : Z) : Z := 2 ^ (w - 1) - 1.
Definition fits_signed (w z : Z) : bool := (smin w <=? z) && (z <=? smax w).

(** The [_ov] operations return the wrapped result and an overflow flag. *)
Definition sadd_ov (a b : apint) : apint * bool :=
  (mk (bw a) (signed a + signed b), negb (fits_signed (bw a) (signed a + signed b))).
Definition ssub_ov (a b : apint) : apint * bool :=
  (mk (bw a) (signed a - signed b), negb (fits_signed (bw a) (signed a - signed b))).
Definition smul_ov (a b : apint) : apint * bool :=
  (mk (bw a) (signed a * signed b), negb (fits_signed (bw a) (signed a * signed b))).
Definition sdiv_ov (a b : apint) : apint * bool :=
  (mk (bw a) (Z.quot (signed a) (signed b)),
   negb (fits_signed (bw a) (Z.quot (signed a) (signed b)))).
Definition udiv (a b : apint) : apint := mk (bw a) (uv a / uv b).

(** ** Facts *)

Lemma pow2_half w : 0 < w -> 2 ^ w = 2 * 2 ^ (w - 1).
Proof. intros. rewrite <- Z.pow_succ_r by lia. f_equal. lia. Qed.

Lemma pow2_pos w : 0 <= w -> 0 < 2 ^ w.
Proof. intros. apply Z.pow_pos_nonneg; lia. Qed.

(** Facts [2^w = 2*2^(w-1)] and [0 < 2^(w-1)], then linear arithmetic. *)
Ltac pow2 w :=
  let H := fresh "Hpow" in let H' := fresh "Hpos" in
  pose proof (pow2_half w ltac:(lia)) as H;
  pose proof (pow2_pos (w - 1) ltac:(lia)) as H'.

Lemma mk_wf w z : 0 < w -> wf (mk w z).
Proof.
  intros. split; simpl; [done|].
  apply Z.mod_pos_bound, pow2_pos. lia.
Qed.

Lemma signed_range a : wf a -> smin (bw a) <= signed a <= smax (bw a).
Proof.
  intros [Hw Hu]. unfold signed, to_signed, smin, smax. pow2 (bw a).
  destruct (Z.ltb_spec (uv a) (2 ^ (bw a - 1))); lia.
Qed.

Lemma fits_signed_spec w z : fits_signed w z = true <-> smin w <= z <= smax w.
Proof. unfold fits_signed. rewrite andb_true_iff, !Z.leb_le. done. Qed.

(** Wrapping a value of the signed range does not change its signed reading. *)
Lemma signed_mk w z : 0 < w -> smin w <= z <= smax w -> signed (mk w z) = z.
Proof.
  intros Hw Hz. unfold signed, to_signed, mk, smin, smax in *; simpl. pow2 w.
  destruct (Z.le_gt_cases 0 z) as [Hp|Hn].
  - rewrite Z.mod_small by lia.
    destruct (Z.ltb_spec z (2 ^ (w - 1))); lia.
  - assert (z mod 2 ^ w = z + 2 ^ w) as ->.
    { symmetry. apply (Z.mod_unique_pos _ _ (-1)); lia. }
    destruct (Z.ltb_spec (z + 2 ^ w) (2 ^ (w - 1))); lia.
Qed.

Lemma signed_eq_uv a : wf a -> isNegative a = false -> signed a = uv a.
Proof.
  intros [Hw Hu] Hn. unfold isNegative in Hn. apply Z.leb_gt in Hn.
  unfold signed, to_signed. destruct (Z.ltb_spec (uv a) (2 ^ (bw a - 1))); lia.
Qed.

Lemma isNegative_spec a : wf a -> isNegative a = true <-> signed a < 0.
Proof.
  intros [Hw Hu]. unfold isNegative, signed, to_signed. rewrite Z.leb_le. pow2 (bw a).
  destruct (Z.ltb_spec (uv a) (2 ^ (bw a - 1))); lia.
Qed.

Lemma smin_mono w w' : 0 < w <= w' -> smin w' <= smin w /\ smax w <= smax w'.
Proof.
  intros. unfold smin, smax.
  assert (2 ^ (w - 1) <= 2 ^ (w' - 1)) by (apply Z.pow_le_mono_r; lia). lia.
Qed.

(** Sign extension keeps the signed reading. *)
Lemma signed_sextOrTrunc w a :
  wf a -> bw a <= w -> signed (sextOrTrunc w a) = signed a.
Proof.
  intros Hwf Hle. unfold sextOrTrunc. pose proof (signed_range a Hwf).
  destruct Hwf as [Hw _]. pose proof (smin_mono (bw a) w ltac:(lia)).
  apply signed_mk; lia.
Qed.

Lemma slt_spec a b : bw a = bw b -> slt a b = true <-> signed a < signed b.
Proof. intros Hw. unfold slt. rewrite Hw, Z.ltb_lt. done. Qed.

Lemma sgt_spec a b : bw a = bw b -> sgt a b = true <-> signed b < signed a.
Proof. intros Hw. unfold sgt. rewrite Hw, Z.ltb_lt. done. Qed.

Lemma slt_spec_false a b : bw a = bw b -> slt a b = false <-> signed b <= signed a.
Proof. intros Hw. unfold slt. rewrite Hw, Z.ltb_ge. done. Qed.

Lemma sgt_spec_false a b : bw a = bw b -> sgt a b = false <-> signed a <= signed b.
Proof. intros Hw. unfold sgt. rewrite Hw, Z.ltb_ge. done. Qed.

Lemma signed_inj a b : wf a -> wf b -> bw a = bw b -> signed a = signed b -> a = b.
Proof.
  destruct a as [w u], b as [w' u']. intros [Hw Hu] [Hw' Hu'] Heq; simpl in *; subst w'.
  unfold signed, to_signed; simpl. intros Hs. f_equal. pow2 w.
  destruct (Z.ltb_spec u (2 ^ (w - 1))), (Z.ltb_spec u' (2 ^ (w - 1))); lia.
Qed.

#[export] Hint Resolve mk_wf : msv.

(** Increment and decrement, away from the wrap-around point. *)
Lemma uv_add_z_1 a : wf a -> uv a < 2 ^ bw a - 1 -> uv (add_z a 1) = uv a + 1.
Proof. intros [Hw Hu] H. unfold add_z, mk; simpl. apply Z.mod_small. lia. Qed.

Lemma uv_add_z_m1 a : wf a -> 0 < uv a -> uv (add_z a (-1)) = uv a - 1.
Proof. intros [Hw Hu] H. unfold add_z, mk; simpl. rewrite Z.mod_small; lia. Qed.

Lemma signed_mod w u : 0 < w -> 0 <= u < 2 ^ w -> to_signed w u mod 2 ^ w = u.
Proof.
  intros Hw Hu. unfold to_signed. destruct (Z.ltb_spec u (2 ^ (w - 1))).
  - by apply Z.mod_small.
  - replace (u - 2 ^ w) with (u + (-1) * 2 ^ w) by lia.
    rewrite Z.mod_add by (pose proof (pow2_pos w); lia). by apply Z.mod_small.
Qed.

Lemma add_z_signed a z : wf a -> add_z a z = mk (bw a) (signed a + z).
Proof.
  intros [Hw Hu]. unfold add_z, mk. f_equal. unfold signed.
  rewrite <- (signed_mod (bw a) (uv a)) at 1 by done. by rewrite Zplus_mod_idemp_l.
Qed.

Lemma signed_add_z a z :
  wf a -> smin (bw a) <= signed a + z <= smax (bw a) -> signed (add_z a z) = signed a + z.
Proof. intros Hwf Hz. rewrite add_z_signed by done. apply signed_mk; [apply Hwf|done]. Qed.

Lemma signed_getSignedMaxValue w : 0 < w -> signed (getSignedMaxValue w) = smax w.
Proof.
  intros Hw. unfold signed, to_signed, getSignedMaxValue, smax; simpl. pow2 w.
  destruct (Z.ltb_spec (2 ^ (w - 1) - 1) (2 ^ (w - 1))); lia.
Qed.

Lemma signed_getSignedMinValue w : 0 < w -> signed (getSignedMinValue w) = smin w.
Proof.
  intros Hw. unfold signed, to_signed, getSignedMinValue, smin; simpl. pow2 w.
  destruct (Z.ltb_spec (2 ^ (w - 1)) (2 ^ (w - 1))); lia.
Qed.

Lemma signed_getMinValue w : 0 < w -> signed (getMinValue w) = 0.
Proof.
  intros Hw. unfold signed, to_signed, getMinValue; simpl. pow2 w.
  destruct (Z.ltb_spec 0 (2 ^ (w - 1))); lia.
Qed.

Lemma extremes_wf w : 0 < w ->
  wf (getMaxValue w) /\ wf (getMinValue w) /\ wf (getSignedMaxValue w) /\ wf (getSignedMinValue w).
Proof.
  intros Hw. unfold wf, getMaxValue, getMinValue, getSignedMaxValue, getSignedMinValue; simpl.
  pow2 w. split_and!; lia.
Qed.
