(* ===== verification/LLVM.v ===== *)
(** * The LLVM interface the passes read

    MSV is a set of LLVM passes; LLVM itself is not part of the repository.
    What the passes see of it is a parameter of every definition: a record
    [IRModule] of the accessors the code calls (getType, users, getParent,
    stripPointerCasts, ...), and an inductive type of the instruction classes
    the code dispatches on with [dyn_cast].  Nothing is assumed of the accessors
    here; a theorem that relies on a documented fact states it as a hypothesis.
    A [ConstantInt] is determined by its value (LLVM uniques constants); every
    other [Value*] is an address. *)
From stdpp Require Import base countable gmap list strings.
From Stdlib Require Import ZArith Lia Wf_nat Wellfounded.
From S2P Require Import Prelude APInt.

(** [s.find(sub) != npos], [s.contains(sub)] *)
Definition contains (s sub : string) : bool :=
  match String.index 0 sub s with Some _ => true | None => false end.

(** Types; PointerType carries its element type (LLVM 14). *)
Inductive ty :=
| TVoid
| TInt (w : Z)
| TPtr (elt : ty)
| TArray (n : Z) (elt : ty)
| TVector (n : Z) (elt : ty)
| TStruct (id : positive)
| TFunction (id : positive)
| TOther (id : positive).

#[export] Instance ty_eq_dec : EqDecision ty.
Proof. solve_decision. Defined.

Definition isPointerTy (t : ty) : bool := match t with TPtr _ => true | _ => false end.
Definition isIntegerTy (t : ty) : bool := match t with TInt _ => true | _ => false end.
Definition isArrayTy (t : ty) : bool := match t with TArray _ _ => true | _ => false end.
Definition isVectorTy (t : ty) : bool := match t with TVector _ _ => true | _ => false end.

(** [Value*] *)
Inductive value :=
| VConstInt (c : apint)
| VRef (p : positive).

#[export] Instance value_eq_dec : EqDecision value.
Proof. solve_decision. Defined.

#[export] Instance value_countable : Countable value.
Proof.
  apply (inj_countable'
    (fun v => match v with VConstInt c => inl c | VRef p => inr p end)
    (fun s => match s with inl c => VConstInt c | inr p => VRef p end)).
  by intros [].
Defined.

#[export] Instance value_inhabited : Inhabited value := populate (VRef 1).

Inductive castop :=
| Trunc | ZExt | SExt | FPToUI | FPToSI | UIToFP | SIToFP | FPTrunc | FPExt
| PtrToInt | IntToPtr | BitCast | AddrSpaceCast.

Inductive binop :=
| BAdd | BSub | BMul | BUDiv | BSDiv | BURem | BSRem | BShl | BLShr | BAShr
| BAnd | BOr | BXor | BFAdd | BFSub | BFMul | BFDiv | BFRem.

Inductive predicate :=
| ICMP_EQ | ICMP_NE | ICMP_UGT | ICMP_UGE | ICMP_ULT | ICMP_ULE
| ICMP_SGT | ICMP_SGE | ICMP_SLT | ICMP_SLE.

#[export] Instance castop_eq_dec : EqDecision castop.
Proof. solve_decision. Defined.
#[export] Instance binop_eq_dec : EqDecision binop.
Proof. solve_decision. Defined.
#[export] Instance predicate_eq_dec : EqDecision predicate.
Proof. solve_decision. Defined.

(** [GetElementPtrInst::hasAllZeroIndices] *)
Definition hasAllZeroIndices (idxs : list value) : bool :=
  forallb (fun ix => match ix with VConstInt c => isZero c | _ => false end) idxs.

(** Instruction classes *)
Inductive inst :=
| IAlloca (allocTy : ty) (arraySize : value)
| ILoad (ptr : value)
| IStore (val ptr : value)
| IGEP (srcElt resElt : ty) (base : value) (idxs : list value)
| ICast (op : castop) (src : value)
| ICall (callee : value) (cargs : list value)
| IInvoke (callee : value) (cargs : list value) (normalDest unwindDest : value)
| ICallBr (callee : value) (cargs : list value) (succs : list value)
| IPhi (incoming : list value)
| IBinary (op : binop) (a b : value)
| IICmp (p : predicate) (a b : value)
| IFCmp (a b : value)
| IRet (v : option value)
| IBr (cond : option value) (succs : list value)
| ISwitch (cond dflt : value) (cases : list value)
| IOther (ops : list value) (succs : list value).

(** What a [Value*] is. *)
Inductive kind :=
| KConstantInt (c : apint)
| KConstantPointerNull
| KGlobalVariable
| KFunction
| KConstantExpr (gep : option (value * list value))
| KConstantOther
| KInlineAsm (asm : string)
| KArgument
| KBasicBlock
| KInst (i : inst)
| KOther.

(** The accessors of LLVM's IR classes. *)
Record IRModule := {
  m_kind : positive -> kind;
  m_type : positive -> ty;
  getName : value -> string;
  users : value -> list value;
  functions : list value;
  globals : list value;
  blocks : value -> list value;
  insts : value -> list value;
  fargs : value -> list value;
  getParent : value -> value;
  getBBParent : value -> value;
  isDeclaration : value -> bool;
  getCalledFunction : value -> option value;
  predecessors : value -> list value;
  stripPointerCasts : value -> value;
  getFunctionNamed : string -> option value;
}.

Section Accessors.
Variable M : IRModule.

Definition kindOf (v : value) : kind :=
  match v with VConstInt c => KConstantInt c | VRef p => m_kind M p end.

Definition getType (v : value) : ty :=
  match v with VConstInt c => TInt (bw c) | VRef p => m_type M p end.

Definition asInst (v : value) : option inst :=
  match kindOf v with KInst i => Some i | _ => None end.

Definition isInstruction (v : value) : bool :=
  match kindOf v with KInst _ => true | _ => false end.

Definition isConstant_ (v : value) : bool :=
  match kindOf v with
  | KConstantInt _ | KConstantPointerNull | KGlobalVariable | KFunction
  | KConstantExpr _ | KConstantOther => true
  | _ => false
  end.

Definition isGlobalVariable (v : value) : bool :=
  match kindOf v with KGlobalVariable => true | _ => false end.
Definition isAllocaInst (v : value) : bool :=
  match kindOf v with KInst (IAlloca _ _) => true | _ => false end.
Definition isGEPInst (v : value) : bool :=
  match kindOf v with KInst (IGEP _ _ _ _) => true | _ => false end.
Definition isCastInst (v : value) : bool :=
  match kindOf v with KInst (ICast _ _) => true | _ => false end.
Definition isInvokeInst (v : value) : bool :=
  match kindOf v with KInst (IInvoke _ _ _ _) => true | _ => false end.
Definition isArgument (v : value) : bool :=
  match kindOf v with KArgument => true | _ => false end.
Definition isCallInst (v : value) : bool :=
  match kindOf v with KInst (ICall _ _) => true | _ => false end.
Definition isCallBase (v : value) : bool :=
  match kindOf v with
  | KInst (ICall _ _) | KInst (IInvoke _ _ _ _) | KInst (ICallBr _ _ _) => true
  | _ => false
  end.

(** [CallBase::args()] and [getCalledOperand()] *)
Definition callArgs (v : value) : list value :=
  match kindOf v with
  | KInst (ICall _ l) | KInst (IInvoke _ l _ _) | KInst (ICallBr _ l _) => l
  | _ => []
  end.
Definition calledOperand (v : value) : option value :=
  match kindOf v with
  | KInst (ICall c _) | KInst (IInvoke c _ _ _) | KInst (ICallBr c _ _) => Some c
  | _ => None
  end.

(** Operand lists, in LLVM's operand order. *)
Definition operandsOf (i : inst) : list value :=
  match i with
  | IAlloca _ n => [n]
  | ILoad p => [p]
  | IStore v p => [v; p]
  | IGEP _ _ b l => b :: l
  | ICast _ s => [s]
  | ICall c l => l ++ [c]
  | IInvoke c l n u => l ++ [n; u; c]
  | ICallBr c l s => l ++ s ++ [c]
  | IPhi l => l
  | IBinary _ a b | IICmp _ a b | IFCmp a b => [a; b]
  | IRet v => match v with Some x => [x] | None => [] end
  | IBr c s => match c with Some x => [x] | None => [] end ++ s
  | ISwitch c d l => c :: d :: l
  | IOther l s => l ++ s
  end.

Definition operands (v : value) : list value :=
  match kindOf v with KInst i => operandsOf i | _ => [] end.

(** Successor blocks of a terminator, and of a block. *)
Definition instSuccessors (i : inst) : list value :=
  match i with
  | IInvoke _ _ n u => [n; u]
  | ICallBr _ _ s => s
  | IBr _ s => s
  | ISwitch _ d l => d :: l
  | IOther _ s => s
  | _ => []
  end.

Definition getTerminator (bb : value) : value := default bb (last (insts M bb)).

Definition successors (bb : value) : list value :=
  match kindOf (getTerminator bb) with KInst i => instSuccessors i | _ => [] end.

(** All instructions of a function, in layout order ([inst_begin]..[inst_end]). *)
Definition instructions (f : value) : list value :=
  mjoin (insts M <$> blocks M f).

(** [Instruction::getPrevNode], [getNextNode]: neighbours in the parent block. *)
Definition getPrevNode (i : value) : option value := prevIn (insts M (getParent M i)) i None.
Definition getNextNode (i : value) : option value := nextIn (insts M (getParent M i)) i.

Definition getFunction (i : value) : value := getBBParent M (getParent M i).

End Accessors.

(** *** Chains of operands *)

(** Step by step from a value to an operand of it.  An operand of an instruction other than
    a PHI is computed before the instruction, so that in LLVM's SSA form (of the code that
    can be reached) no chain of such steps goes on forever. *)
Definition operandOf (M : IRModule) (y x : value) : Prop :=
  y ∈ operands M x /\ forall l, kindOf M x <> KInst (IPhi l).
Definition dominated (M : IRModule) : Prop := well_founded (operandOf M).

Lemma dominated_by M (rank : value -> nat) :
  (forall x y, operandOf M y x -> (rank y < rank x)%nat) -> dominated M.
Proof. intros Hr. eapply wf_incl, (well_founded_ltof _ rank). intros y x. apply Hr. Qed.

(** It is enough that the instructions are numbered in the order of their definitions. *)
Lemma dominated_refs M :
  (forall p i q, m_kind M p = KInst i -> (forall l, i <> IPhi l) -> VRef q ∈ operandsOf i ->
     isInstruction M (VRef q) = true -> (q < p)%positive) -> dominated M.
Proof.
  intros H. apply (dominated_by M (fun v => match v with
    | VRef p => if isInstruction M v then Pos.to_nat p else 0 | VConstInt _ => 0 end)).
  intros [c|p] y [Hy Hp]; unfold operands in Hy; simpl in Hy; [by apply elem_of_nil in Hy|].
  destruct (m_kind M p) as [| | | | | | | | |i|] eqn:E; try by apply elem_of_nil in Hy.
  assert (isInstruction M (VRef p) = true) as -> by (unfold isInstruction; simpl; by rewrite E).
  destruct y as [c|q]; [lia|]. destruct (isInstruction M (VRef q)) eqn:Eq; [|lia].
  assert (q < p)%positive; [|lia]. apply (H p i q); [done| |done..]. intros l ->. by apply (Hp l); simpl; rewrite E.
Qed.

Section Chains.
Variable M : IRModule.
Variable DOM : dominated M.
Variable next : value -> option value.
Hypothesis Hnext : forall x y, next x = Some y -> operandOf M y x.

Definition chainStep (x : value) (rest : forall y, next x = Some y -> list value) : list value :=
  match next x as o return next x = o -> list value with
  | Some y => fun E => y :: rest y E
  | None => fun _ => []
  end eq_refl.

Fixpoint chainFrom (x : value) (a : Acc (operandOf M) x) {struct a} : list value :=
  chainStep x (fun y E => chainFrom y (Acc_inv a (Hnext x y E))).

(** The values [next] leads to from [x], in order; there is no bound on their number. *)
Definition chainGuard (x : value) : Acc (operandOf M) x := Acc_intro_generator 20 DOM x.
Definition operandChain (x : value) : list value := chainFrom x (chainGuard x).

Lemma chainStep_spec x rest :
  (next x = None /\ chainStep x rest = []) \/ exists y E, next x = Some y /\ chainStep x rest = y :: rest y E.
Proof.
  unfold chainStep.
  assert (forall o (E : next x = o), (o = None /\ match o as o return next x = o -> list value with
      | Some y => fun E => y :: rest y E | None => fun _ => [] end E = []) \/
    exists y E', o = Some y /\ match o as o return next x = o -> list value with
      | Some y => fun E => y :: rest y E | None => fun _ => [] end E = y :: rest y E') as H.
  { intros [y|] E; [right; by exists y, E|by left]. }
  exact (H _ eq_refl).
Qed.

Lemma chainFrom_unfold x a : chainFrom x a = chainStep x (fun y E => chainFrom y (Acc_inv a (Hnext x y E))).
Proof. by destruct a. Qed.

Lemma chainFrom_irrelevant x (a b : Acc (operandOf M) x) : chainFrom x a = chainFrom x b.
Proof.
  revert a b. induction (DOM x) as [x _ IH]. intros a b. rewrite !chainFrom_unfold.
  destruct (chainStep_spec x (fun y E => chainFrom y (Acc_inv a (Hnext x y E)))) as [[Hn ->]|(y & E & Hn & ->)];
    destruct (chainStep_spec x (fun y E => chainFrom y (Acc_inv b (Hnext x y E)))) as [[Hn' ->]|(y' & E' & Hn' & ->)];
    simplify_eq; [done|]. f_equal. apply IH. by apply Hnext.
Qed.

Lemma chain_step x : operandChain x = match next x with Some y => y :: operandChain y | None => [] end.
Proof.
  unfold operandChain at 1. rewrite chainFrom_unfold.
  destruct (chainStep_spec x (fun y E => chainFrom y (Acc_inv (chainGuard x) (Hnext x y E))))
    as [[Hn ->]|(y & E & Hn & ->)]; [by rewrite Hn|]. rewrite Hn. apply (f_equal (cons y)), chainFrom_irrelevant.
Qed.

Lemma chain_ind (Q : value -> list value -> Prop) :
  (forall x, next x = None -> Q x []) -> (forall x y, next x = Some y -> Q y (operandChain y) -> Q x (y :: operandChain y)) ->
  forall x, Q x (operandChain x).
Proof.
  intros H0 HS x. induction (DOM x) as [x _ IH]. rewrite chain_step. destruct (next x) as [y|] eqn:E; [|by apply H0].
  apply HS; [done|]. apply IH. by apply Hnext.
Qed.

(** Where the chain ends. *)
Definition chainEnd (x : value) : value := default x (last (operandChain x)).

Lemma chainEnd_step x : chainEnd x = match next x with Some y => chainEnd y | None => x end.
Proof.
  unfold chainEnd. rewrite (chain_step x). destruct (next x) as [y|]; [|done]. rewrite last_cons. by destruct (last (operandChain y)).
Qed.
End Chains.

#[global] Opaque chainGuard.

(** For the modules of examples: goes through their instructions. *)
Ltac dominated_refs :=
  apply dominated_refs; intros p i q Hp Hphi Hq Hi; simpl in Hp; repeat case_match; simplify_eq/=;
  repeat first [apply elem_of_cons in Hq as [Hq|Hq] | by apply elem_of_nil in Hq]; simplify_eq/=; first [done | lia].

(** *** Neighbours in a block *)

(** LLVM keeps an instruction once, in its parent's list. *)
Definition blocks_ok (M : IRModule) : Prop :=
  forall bb, NoDup (insts M bb) /\ forall i, i ∈ insts M bb -> getParent M i = bb.

Lemma getNextNode_adjacent M x y :
  blocks_ok M -> getNextNode M x = Some y <-> adjacent (insts M (getParent M x)) x y.
Proof. intros Hok. apply nextIn_adjacent, Hok. Qed.

Lemma getPrevNode_adjacent M x y :
  blocks_ok M -> getPrevNode M x = Some y <-> adjacent (insts M (getParent M x)) y x.
Proof.
  intros Hok. unfold getPrevNode. rewrite prevIn_adjacent by apply Hok.
  split; [by intros [[? _]|?]|by right].
Qed.

(** Two neighbours have the same parent, and each is the other's neighbour. *)
Lemma getPrevNode_next M x y :
  blocks_ok M -> x ∈ insts M (getParent M x) -> getPrevNode M x = Some y <-> getNextNode M y = Some x /\ y ∈ insts M (getParent M y).
Proof.
  intros Hok Hx. rewrite getPrevNode_adjacent, getNextNode_adjacent by done. split.
  - intros Ha. pose proof (adjacent_elem _ _ _ Ha) as [Hy _]. apply (proj2 (Hok _)) in Hy as Hp. by rewrite Hp.
  - intros [Ha _]. pose proof (adjacent_elem _ _ _ Ha) as [_ Hx']. apply (proj2 (Hok _)) in Hx' as Hp. by rewrite Hp.
Qed.

(** [DataLayout] and the other LLVM analyses the passes query. *)
Record DataLayout := {
  getTypeAllocSize : ty -> Z;
  getTypeStoreSize : ty -> Z;
  getElementOffset : ty -> Z -> Z;
  structNumElements : positive -> Z;
}.

(** A module that has the given values and types and no functions; for examples. *)
Definition simpleModule (k : positive -> kind) (t : positive -> ty) : IRModule := {|
  m_kind := k; m_type := t; getName := fun _ => ""%string; users := fun _ => [];
  functions := []; globals := []; blocks := fun _ => []; insts := fun _ => [];
  fargs := fun _ => []; getParent := fun v => v; getBBParent := fun v => v;
  isDeclaration := fun _ => false; getCalledFunction := fun _ => None;
  predecessors := fun _ => []; stripPointerCasts := fun v => v;
  getFunctionNamed := fun _ => None |}.
