(* ===== verification/AnalysisState.v ===== *)
(** * Pointer classification state ([Utils.hpp], [Utils.cpp])

    The CCured-style classification every later pass reads: a map from pointer
    variables to a class (Safe, Seq, Dyn), a size and bookkeeping flags.  The
    source hands out pointers into the map ([GetPointerVariableInfo],
    [SetSizeForPointerVariable]); they are modelled as references ([VarRef])
    that are read when they are used, so later writes are seen through them.
    [st_step] is the relation of single state changes; the passes are sequences
    of them, and the invariants are proved once, by induction on such sequences. *)
From stdpp Require Import base gmap sets strings relations fin_maps.
From Stdlib Require Import ZArith Lia.
From S2P Require Import Prelude APInt LLVM.

(** ** Data *)

Inductive VariableStates := Unknown | Safe | Seq | Dyn.

#[export] Instance VariableStates_eq_dec : EqDecision VariableStates.
Proof. solve_decision. Defined.

(** The enumerators' values: the code compares classifications with [<]. *)
Definition rank (c : VariableStates) : Z :=
  match c with Unknown => -1 | Safe => 0 | Seq => 1 | Dyn => 2 end.

Definition PtrTypeToString (c : VariableStates) : string :=
  match c with Safe => "SAFE" | Seq => "SEQ" | Dyn => "DYN" | Unknown => "UNKNOWN" end.

Record VariableInfo := VI {
  classification : VariableStates;
  vsize : option value;
  hasMetadataTableEntry : bool;
  hasExplicitSizeVariable : bool;
  instantiatedExplicitSizeVariable : bool;
  explicitSizeVariable : option value;
  isGlobal : bool;
  didClassificationChange : bool;
  dependentFunctions : gset string;
}.

(** The entry [Variables[k]] creates: value-initialised, so zero. *)
Definition zeroInfo : VariableInfo := VI Safe None false false false None false false ∅.

Record AnalysisState := AS {
  Variables : gmap value VariableInfo;
  numFunctions : Z;
  sizetype : Z;
  _safeptrscount : Z;
  _seqptrscount : Z;
  _dynptrscount : Z;
  _hasmetadatatableentrycount : Z;
}.

Definition initState : AnalysisState := AS ∅ 0 0 0 0 0 0.

(** ** Field updates *)
Definition set_class (c : VariableStates) (i : VariableInfo) : VariableInfo :=
  VI c (vsize i) (hasMetadataTableEntry i) (hasExplicitSizeVariable i)
     (instantiatedExplicitSizeVariable i) (explicitSizeVariable i) (isGlobal i)
     (didClassificationChange i) (dependentFunctions i).
Definition set_size (s : option value) (i : VariableInfo) : VariableInfo :=
  VI (classification i) s (hasMetadataTableEntry i) (hasExplicitSizeVariable i)
     (instantiatedExplicitSizeVariable i) (explicitSizeVariable i) (isGlobal i)
     (didClassificationChange i) (dependentFunctions i).
Definition set_meta (i : VariableInfo) : VariableInfo :=
  VI (classification i) (vsize i) true (hasExplicitSizeVariable i)
     (instantiatedExplicitSizeVariable i) (explicitSizeVariable i) (isGlobal i)
     (didClassificationChange i) (dependentFunctions i).
Definition set_explicit (e : option value) (i : VariableInfo) : VariableInfo :=
  VI (classification i) (vsize i) (hasMetadataTableEntry i)
     (match e with Some _ => true | None => false end)
     (instantiatedExplicitSizeVariable i) e (isGlobal i)
     (didClassificationChange i) (dependentFunctions i).
Definition set_instantiated (b : bool) (i : VariableInfo) : VariableInfo :=
  VI (classification i) (vsize i) (hasMetadataTableEntry i) (hasExplicitSizeVariable i)
     b (explicitSizeVariable i) (isGlobal i)
     (didClassificationChange i) (dependentFunctions i).
Definition set_global (i : VariableInfo) : VariableInfo :=
  VI (classification i) (vsize i) (hasMetadataTableEntry i) (hasExplicitSizeVariable i)
     (instantiatedExplicitSizeVariable i) (explicitSizeVariable i) true
     (didClassificationChange i) (dependentFunctions i).
Definition set_changed (b : bool) (i : VariableInfo) : VariableInfo :=
  VI (classification i) (vsize i) (hasMetadataTableEntry i) (hasExplicitSizeVariable i)
     (instantiatedExplicitSizeVariable i) (explicitSizeVariable i) (isGlobal i)
     b (dependentFunctions i).
Definition add_dependent (f : string) (i : VariableInfo) : VariableInfo :=
  VI (classification i) (vsize i) (hasMetadataTableEntry i) (hasExplicitSizeVariable i)
     (instantiatedExplicitSizeVariable i) (explicitSizeVariable i) (isGlobal i)
     (didClassificationChange i) ({[f]} ∪ dependentFunctions i).

Definition with_vars (m : gmap value VariableInfo) (s : AnalysisState) : AnalysisState :=
  AS m (numFunctions s) (sizetype s) (_safeptrscount s) (_seqptrscount s)
     (_dynptrscount s) (_hasmetadatatableentrycount s).

(** [Variables[k]] as an lvalue: the entry is created when it is missing. *)
Definition upd (k : value) (f : VariableInfo -> VariableInfo) (s : AnalysisState) : AnalysisState :=
  with_vars (<[k := f (default zeroInfo (Variables s !! k))]> (Variables s)) s.

(** [ConstantInt::get(sizetype, n)] *)
Definition sizeConst (s : AnalysisState) (n : Z) : value := VConstInt (mk (sizetype s) n).

(** ** Operations *)

Definition SetSizeType (w : Z) (s : AnalysisState) : AnalysisState :=
  AS (Variables s) (numFunctions s) w (_safeptrscount s) (_seqptrscount s)
     (_dynptrscount s) (_hasmetadatatableentrycount s).

Definition RegisterFunction (s : AnalysisState) : AnalysisState :=
  AS (Variables s) (numFunctions s + 1) (sizetype s) (_safeptrscount s) (_seqptrscount s)
     (_dynptrscount s) (_hasmetadatatableentrycount s).

Definition RegisterVariable (d : value) (s : AnalysisState) : AnalysisState :=
  match Variables s !! d with
  | Some _ => s
  | None => upd d (fun i => set_size (Some (sizeConst s 0)) (set_class Safe i)) s
  end.

(** The entry after a request to classify it as [t]. *)
Definition reclassify (t : VariableStates) (i : VariableInfo) : VariableInfo :=
  if (rank (classification i) <? rank t)%Z
  then (if isGlobal i then set_changed true (set_class t i) else set_class t i)
  else if bool_decide (classification i = Dyn) && bool_decide (t = Seq)
  then (if isGlobal i then set_changed true (set_class t i) else set_class t i)
  else i.

Definition ClassifyPointerVariable (d : value) (t : VariableStates) (s : AnalysisState) : AnalysisState :=
  upd d (reclassify t) (RegisterVariable d s).

Definition SetSizeForPointerVariable (d : value) (size : option value) (s : AnalysisState) : AnalysisState :=
  let s := RegisterVariable d s in
  upd d (set_size (match size with None => Some (sizeConst s 0) | Some v => Some v end)) s.

Definition SetExplicitSizeVariableForPointerVariable (d : value) (e : option value) (s : AnalysisState) : AnalysisState :=
  upd d (set_explicit e) (RegisterVariable d s).

Definition SetInstantiatedExplicitSizeVariable (d : value) (b : bool) (s : AnalysisState) : AnalysisState :=
  upd d (set_instantiated b) (RegisterVariable d s).

Definition SetHasMetadataTableEntry (d : value) (s : AnalysisState) : AnalysisState :=
  upd d set_meta (RegisterVariable d s).

(** A [VariableInfo*]: a freshly allocated record, or an entry of the map. *)
Inductive VarRef := TempInfo (i : VariableInfo) | EntryRef (k : value).

(** Reading through the pointer. *)
Definition deref (s : AnalysisState) (r : VarRef) : VariableInfo :=
  match r with TempInfo i => i | EntryRef k => default zeroInfo (Variables s !! k) end.

Section GetInfo.
Variable M : IRModule.
(** The indeterminate members of a default-initialised [new VariableInfo]. *)
Variable uninit : VariableInfo.

Definition nullInfo (s : AnalysisState) : VariableInfo :=
  VI Unknown (Some (sizeConst s 0)) (hasMetadataTableEntry uninit)
     (hasExplicitSizeVariable uninit) (instantiatedExplicitSizeVariable uninit)
     (explicitSizeVariable uninit) false false ∅.

Definition GetPointerVariableInfo (d : value) (s : AnalysisState) : option VarRef :=
  match kindOf M d with
  | KConstantPointerNull => Some (TempInfo (nullInfo s))
  | _ => match Variables s !! d with Some _ => Some (EntryRef d) | None => None end
  end.
End GetInfo.

(** The counting loop of [GetVariablesStateAsString] (the string itself is output). *)
Definition countClass (c : VariableStates) (m : gmap value VariableInfo) : Z :=
  Z.of_nat (length (filter (fun kv => classification kv.2 = c) (map_to_list m))).
Definition countMeta (m : gmap value VariableInfo) : Z :=
  Z.of_nat (length (filter (fun kv => hasMetadataTableEntry kv.2 = true) (map_to_list m))).

Definition GetVariablesStateAsString (s : AnalysisState) : AnalysisState :=
  AS (Variables s) (numFunctions s) (sizetype s) (countClass Safe (Variables s))
     (countClass Seq (Variables s)) (countClass Dyn (Variables s)) (countMeta (Variables s)).

Definition GetSafePointerCount (s : AnalysisState) : Z := _safeptrscount s.
Definition GetSeqPointerCount (s : AnalysisState) : Z := _seqptrscount s.
Definition GetDynPointerCount (s : AnalysisState) : Z := _dynptrscount s.
Definition GetHasMetadataTableEntryCount (s : AnalysisState) : Z := _hasmetadatatableentrycount s.

(** ** Single state changes

    Everything the passes do to the state is one of these. *)
Inductive st_step : AnalysisState -> AnalysisState -> Prop :=
| step_sizetype w s : st_step s (SetSizeType w s)
| step_function s : st_step s (RegisterFunction s)
| step_register d s : st_step s (RegisterVariable d s)
| step_classify d t s : st_step s (ClassifyPointerVariable d t s)
| step_size d sz s : st_step s (SetSizeForPointerVariable d sz s)
| step_explicit d e s : st_step s (SetExplicitSizeVariableForPointerVariable d e s)
| step_instantiated d b s : st_step s (SetInstantiatedExplicitSizeVariable d b s)
| step_meta d s : st_step s (SetHasMetadataTableEntry d s)
| step_counts s : st_step s (GetVariablesStateAsString s)
| step_dependent d f s : st_step s (upd d (add_dependent f) s)
| step_global d s : st_step s (upd d set_global s)
| step_reset d s : is_Some (Variables s !! d) -> st_step s (upd d (set_changed false) s).

Definition st_steps : AnalysisState -> AnalysisState -> Prop := rtc st_step.

(** The class of a variable, if it is registered. *)
Definition class_of (s : AnalysisState) (d : value) : option VariableStates :=
  classification <$> Variables s !! d.

(** ** Invariants *)

(** Registered pointers carry one of the three CCured classes. *)
Definition classes_known (s : AnalysisState) : Prop :=
  forall d i, Variables s !! d = Some i -> classification i <> Unknown.

Definition unsafe_class (c : VariableStates) : Prop := c = Seq \/ c = Dyn.

(** ** Lemmas *)

Lemma lookup_upd k f s : Variables (upd k f s) !! k = Some (f (default zeroInfo (Variables s !! k))).
Proof. apply lookup_insert_eq. Qed.

Lemma lookup_upd_ne k k' f s : k <> k' -> Variables (upd k f s) !! k' = Variables s !! k'.
Proof. intros. by apply lookup_insert_ne. Qed.

Lemma class_of_upd k f s k' :
  class_of (upd k f s) k' =
  if decide (k = k') then Some (classification (f (default zeroInfo (Variables s !! k))))
  else class_of s k'.
Proof.
  unfold class_of. case_decide as Hk.
  - subst. by rewrite lookup_upd.
  - by rewrite lookup_upd_ne.
Qed.

Lemma class_of_register d s k :
  class_of (RegisterVariable d s) k =
  if decide (d = k) then Some (default Safe (class_of s k)) else class_of s k.
Proof.
  unfold RegisterVariable, class_of. destruct (Variables s !! d) eqn:Hd.
  - case_decide; subst; by rewrite ?Hd.
  - fold (class_of (upd d (λ i, set_size (Some (sizeConst s 0)) (set_class Safe i)) s) k).
    rewrite class_of_upd. case_decide; subst; by rewrite ?Hd.
Qed.

(** Class after the request [t] on a variable of class [c]. *)
Definition reclass (t c : VariableStates) : VariableStates :=
  if (rank c <? rank t)%Z then t
  else if bool_decide (c = Dyn) && bool_decide (t = Seq) then t else c.

Lemma classification_reclassify t i :
  classification (reclassify t i) = reclass t (classification i).
Proof. unfold reclassify, reclass. repeat case_match; done. Qed.

Lemma class_of_update_registered d f s k :
  (forall i, classification (f i) = classification i) ->
  class_of (upd d f (RegisterVariable d s)) k =
  if decide (d = k) then Some (default Safe (class_of s k)) else class_of s k.
Proof.
  intros Hf. rewrite class_of_upd. case_decide as Hk; [subst|].
  - rewrite Hf. pose proof (class_of_register k s k) as Hr.
    unfold class_of at 1 in Hr. rewrite decide_True in Hr by done.
    destruct (Variables (RegisterVariable k s) !! k); simplify_eq/=; congruence.
  - rewrite class_of_register. by rewrite decide_False.
Qed.

Lemma class_of_classify d t s k :
  class_of (ClassifyPointerVariable d t s) k =
  if decide (d = k) then Some (reclass t (default Safe (class_of s k))) else class_of s k.
Proof.
  unfold ClassifyPointerVariable. rewrite class_of_upd. case_decide as Hk; [subst|].
  - rewrite classification_reclassify. pose proof (class_of_register k s k) as Hr.
    unfold class_of at 1 in Hr. rewrite decide_True in Hr by done.
    destruct (Variables (RegisterVariable k s) !! k); simplify_eq/=; congruence.
  - rewrite class_of_register. by rewrite decide_False.
Qed.

Lemma class_of_set_size d sz s k :
  class_of (SetSizeForPointerVariable d sz s) k =
  if decide (d = k) then Some (default Safe (class_of s k)) else class_of s k.
Proof. apply class_of_update_registered. done. Qed.

Lemma class_of_set_instantiated d b s k :
  class_of (SetInstantiatedExplicitSizeVariable d b s) k =
  if decide (d = k) then Some (default Safe (class_of s k)) else class_of s k.
Proof. apply class_of_update_registered. done. Qed.

(** How one state change moves the class of one variable. *)
Lemma class_of_step s s' k :
  st_step s s' ->
  class_of s' k = class_of s k \/
  class_of s' k = Some (default Safe (class_of s k)) \/
  (exists t, class_of s' k = Some (reclass t (default Safe (class_of s k)))).
Proof.
  assert (Hpure : forall d f, (forall i, classification (f i) = classification i) ->
    class_of (upd d f s) k = class_of s k \/
    class_of (upd d f s) k = Some (default Safe (class_of s k))).
  { intros d f Hf. rewrite class_of_upd. case_decide as Hk; [subst; right|by left].
    rewrite Hf. unfold class_of. by destruct (Variables s !! k). }
  destruct 1; try (left; reflexivity);
    rewrite ?class_of_register, ?class_of_classify, ?class_of_set_size,
      ?class_of_set_instantiated;
    try (case_decide; by eauto).
  - unfold SetExplicitSizeVariableForPointerVariable.
    rewrite class_of_update_registered by done. case_decide; eauto.
  - unfold SetHasMetadataTableEntry.
    rewrite class_of_update_registered by done. case_decide; eauto.
  - destruct (Hpure d (add_dependent f)) as [?|?]; eauto.
  - destruct (Hpure d set_global) as [?|?]; eauto.
  - destruct (Hpure d (set_changed false)) as [?|?]; eauto.
Qed.

Lemma reclass_known t c : c <> Unknown -> reclass t c <> Unknown.
Proof. destruct t, c; naive_solver. Qed.

Lemma reclass_unsafe t c : unsafe_class c -> unsafe_class (reclass t c).
Proof. intros [-> | ->]; destruct t; vm_compute; auto. Qed.

Lemma classes_known_class_of s :
  classes_known s <-> forall d c, class_of s d = Some c -> c <> Unknown.
Proof.
  unfold classes_known, class_of. split.
  - intros Hk d c Hc. destruct (Variables s !! d) eqn:E; simplify_eq/=. eauto.
  - intros Hk d i Hi. apply (Hk d). by rewrite Hi.
Qed.

Lemma classes_known_steps s s' : st_steps s s' -> classes_known s -> classes_known s'.
Proof.
  induction 1 as [|s s1 s2 Hs _ IH]; [done|]. intros Hk. apply IH.
  rewrite classes_known_class_of in Hk |- *. intros d c Hc.
  destruct (class_of_step s s1 d Hs) as [He|[He|[t He]]]; rewrite He in Hc.
  - eauto.
  - destruct (class_of s d) eqn:E; simplify_eq/=; [eauto|done].
  - simplify_eq. apply reclass_known. destruct (class_of s d) eqn:E; simpl; [eauto|done].
Qed.

Lemma unsafe_steps s s' d c :
  st_steps s s' -> class_of s d = Some c -> unsafe_class c ->
  exists c', class_of s' d = Some c' /\ unsafe_class c'.
Proof.
  intros Hst. revert c. induction Hst as [|s s1 s2 Hs _ IH]; [by eauto|]. intros c Hc Hu.
  destruct (class_of_step s s1 d Hs) as [He|[He|[t He]]]; rewrite Hc in He; simpl in He.
  - by eapply IH.
  - by eapply IH.
  - eapply IH; [done|]. by apply reclass_unsafe.
Qed.

Lemma registered_steps s s' d :
  st_steps s s' -> is_Some (class_of s d) -> is_Some (class_of s' d).
Proof.
  induction 1 as [|s s1 s2 Hs _ IH]; [done|]. intros [c Hc]. apply IH.
  destruct (class_of_step s s1 d Hs) as [He|[He|[t He]]]; rewrite He; eauto.
Qed.

#[export] Hint Constructors st_step : msv.

Lemma st_steps_one s s' : st_step s s' -> st_steps s s'.
Proof. apply rtc_once. Qed.

Lemma st_steps_trans s1 s2 s3 : st_steps s1 s2 -> st_steps s2 s3 -> st_steps s1 s3.
Proof. intros H1 H2. unfold st_steps in *. by etrans. Qed.

Lemma st_steps_refl s : st_steps s s.
Proof. apply rtc_refl. Qed.

#[export] Hint Resolve st_steps_one st_steps_refl : msv.

Lemma length_filter_sum (l : list (value * VariableInfo)) :
  (forall kv, kv ∈ l -> classification kv.2 <> Unknown) ->
  length (filter (fun kv => classification kv.2 = Safe) l) +
  length (filter (fun kv => classification kv.2 = Seq) l) +
  length (filter (fun kv => classification kv.2 = Dyn) l) = length l.
Proof.
  induction l as [|[k i] l IH]; [done|]. intros Hk. rewrite !filter_cons.
  assert (classification i <> Unknown) by (apply (Hk (k, i)); left).
  specialize (IH ltac:(intros kv ?; apply Hk; by right)).
  destruct (classification i) eqn:E; simpl; rewrite ?E; repeat case_decide; simpl; try done; lia.
Qed.

(** ** Properties *)

(** A request to classify a pointer registers it, moves its class exactly by
    the table (upgrade to a higher class; [Dyn] is lowered to [Seq] by a [Seq]
    request; anything else is ignored), raises [didClassificationChange] exactly
    when a global's class changed, keeps its size, and leaves every other
    variable untouched. *)
Theorem ClassifyPointerVariable_spec d t s i k :
  Variables s !! d = Some i ->
  Variables (ClassifyPointerVariable d t s) !! d =
    Some (VI (reclass t (classification i)) (vsize i) (hasMetadataTableEntry i)
             (hasExplicitSizeVariable i) (instantiatedExplicitSizeVariable i)
             (explicitSizeVariable i) (isGlobal i)
             (didClassificationChange i ||
                (isGlobal i && bool_decide (reclass t (classification i) <> classification i)))
             (dependentFunctions i)) /\
  (k <> d -> Variables (ClassifyPointerVariable d t s) !! k = Variables s !! k).
Proof.
  intros Hd. unfold ClassifyPointerVariable, RegisterVariable. rewrite Hd.
  rewrite lookup_upd, Hd; simpl. split; [|intros; by apply lookup_upd_ne].
  f_equal. unfold reclassify, reclass.
  destruct i as [c sz m h in_ e g ch dep]; destruct c, t, g; simpl; repeat case_match; try done;
    by rewrite ?orb_true_r, ?orb_false_r.
Qed.

Lemma ClassifyPointerVariable_spec_witness :
  let s := SetSizeForPointerVariable (VRef 7) None (SetSizeType 64 initState) in
  Variables s !! VRef 7 = Some (VI Safe (Some (VConstInt (APInt 64 0))) false false false None false false ∅) /\
  class_of (ClassifyPointerVariable (VRef 7) Seq s) (VRef 7) = Some Seq.
Proof.
  intros s.
  assert (Hs : Variables s !! VRef 7 =
    Some (VI Safe (Some (VConstInt (APInt 64 0))) false false false None false false ∅))
    by (vm_compute; reflexivity).
  split; [exact Hs|]. unfold class_of.
  rewrite (proj1 (ClassifyPointerVariable_spec (VRef 7) Seq s _ (VRef 8) Hs)).
  reflexivity.
Defined.

(** C13: once a pointer is classified unsafe (Seq or Dyn), no sequence of state
    changes of the analysis makes it Safe or forgets it. *)
Theorem unsafe_never_safe s s' d c :
  st_steps s s' -> class_of s d = Some c -> unsafe_class c ->
  exists c', class_of s' d = Some c' /\ unsafe_class c'.
Proof. apply unsafe_steps. Qed.

Lemma unsafe_never_safe_witness :
  let s := ClassifyPointerVariable (VRef 7) Dyn initState in
  exists c', class_of (ClassifyPointerVariable (VRef 7) Seq s) (VRef 7) = Some c' /\ unsafe_class c'.
Proof.
  intros s. apply (unsafe_never_safe s _ (VRef 7) Dyn).
  - apply st_steps_one. constructor.
  - vm_compute. reflexivity.
  - by right.
Defined.

(** The three counters the statistics report add up to the number of
    registered pointers in every state the analysis reaches from the empty one. *)
Theorem pointer_counts_partition s :
  st_steps initState s ->
  (GetSafePointerCount (GetVariablesStateAsString s) +
   GetSeqPointerCount (GetVariablesStateAsString s) +
   GetDynPointerCount (GetVariablesStateAsString s) = Z.of_nat (size (Variables s)))%Z.
Proof.
  intros Hs. assert (classes_known s) as Hk by (eapply classes_known_steps; [done|]; done).
  unfold GetSafePointerCount, GetSeqPointerCount, GetDynPointerCount; simpl.
  unfold countClass. rewrite <- length_map_to_list.
  rewrite <- (length_filter_sum (map_to_list (Variables s))); [lia|].
  intros [k i] Hin%elem_of_map_to_list. eauto.
Qed.

Lemma pointer_counts_partition_witness :
  let s := ClassifyPointerVariable (VRef 3) Seq (RegisterVariable (VRef 2) initState) in
  size (Variables s) = 2 /\
  (GetSafePointerCount (GetVariablesStateAsString s) +
   GetSeqPointerCount (GetVariablesStateAsString s) +
   GetDynPointerCount (GetVariablesStateAsString s) = 2)%Z.
Proof.
  intros s. split; [vm_compute; reflexivity|].
  rewrite (pointer_counts_partition s); [vm_compute; reflexivity|].
  eapply st_steps_trans; apply st_steps_one; constructor.
Defined.
