(* ===== verification/RangeDomain.v ===== *)
(** * The value-range domain ([ValueRange.cpp], struct [RangeValue], [RangeMeet])

    A range is a kind (unknown, constant, infinity) and two [ConstantInt*]
    bounds, null unless the kind is constant (a stale pair of bounds may survive
    a change of kind, as in the code).  [gamma] is the set of integers a range
    stands for: the unknown and the infinite range stand for all of them. *)
From stdpp Require Import base option list.
From Stdlib Require Import ZArith Lia.
From S2P Require Import Prelude APInt LLVM.
Local Open Scope Z_scope.

Inductive PossibleRangeValues := unknown | constant | infinity.

#[export] Instance PossibleRangeValues_eq_dec : EqDecision PossibleRangeValues.
Proof. solve_decision. Defined.

Record RangeValue := RV {
  rkind : PossibleRangeValues;
  lvalue : option apint;
  rvalue : option apint;
}.

#[export] Instance RangeValue_eq_dec : EqDecision RangeValue.
Proof. solve_decision. Defined.

(** [RangeValue()] *)
Definition RangeValue_init : RangeValue := RV unknown None None.

Definition isUnknown (r : RangeValue) : bool := match rkind r with unknown => true | _ => false end.
Definition isInfinity (r : RangeValue) : bool := match rkind r with infinity => true | _ => false end.
Definition isConstant (r : RangeValue) : bool := match rkind r with constant => true | _ => false end.

(** [p->getValue()]; [bounded] below is the invariant under which [p] is not null. *)
Definition getValue (p : option apint) : apint := default (APInt 64 0) p.

(** [operator&] *)
Definition rv_and (a b : RangeValue) : RangeValue :=
  if isUnknown a || isUnknown b then (if isUnknown a then b else a)
  else if isInfinity a || isInfinity b then (if isInfinity a then b else a)
  else
    let selfL := sextOrTrunc 64 (getValue (lvalue a)) in
    let selfR := sextOrTrunc 64 (getValue (rvalue a)) in
    let otherL := sextOrTrunc 64 (getValue (lvalue b)) in
    let otherR := sextOrTrunc 64 (getValue (rvalue b)) in
    RV constant
       (if slt selfL otherL then lvalue b else lvalue a)
       (if sgt selfR otherR then rvalue b else rvalue a).

(** [operator|] *)
Definition rv_or (a b : RangeValue) : RangeValue :=
  if isUnknown a || isUnknown b then (if isUnknown a then a else b)
  else if isInfinity a || isInfinity b then RV infinity None None
  else
    RV constant
       (if slt (getValue (lvalue a)) (getValue (lvalue b)) then lvalue a else lvalue b)
       (if sgt (getValue (rvalue a)) (getValue (rvalue b)) then rvalue a else rvalue b).

(** [operator==] *)
Definition rv_eq (a b : RangeValue) : bool :=
  if isConstant a && isConstant b
  then eqb (getValue (lvalue a)) (getValue (lvalue b)) &&
       eqb (getValue (rvalue a)) (getValue (rvalue b))
  else bool_decide (rkind a = rkind b).

(** [getSignedConstantRange], [getUnsignedConstantRange] and [makeRange] have the same body. *)
Definition getSignedConstantRange (l r : apint) : RangeValue := RV constant (Some l) (Some r).
Definition getUnsignedConstantRange (l r : apint) : RangeValue := RV constant (Some l) (Some r).
Definition makeRange (l r : apint) : RangeValue := RV constant (Some l) (Some r).
Definition infRange : RangeValue := RV infinity None None.

(** [getRangeForConditionalBranch]: [opType] is the type of the comparison's first operand. *)
Definition getRangeForConditionalBranch (opType : ty) (p : predicate) (known : apint)
    (isTrueBranch isVariableOpFirst : bool) : RangeValue :=
  match opType with
  | TInt bitWidth =>
    let maxVal := getMaxValue bitWidth in
    let signedMaxVal := getSignedMaxValue bitWidth in
    let signedMinVal :=
      if slt_z known 0 then getSignedMinValue bitWidth else getMinValue bitWidth in
    let minVal := getMinValue bitWidth in
    let U := getUnsignedConstantRange in
    let S := getSignedConstantRange in
    match p, isTrueBranch, isVariableOpFirst with
    | ICMP_EQ, true, _ => S known known
    | ICMP_NE, false, _ => S known known
    | ICMP_UGT, true, true => U (add_z known 1) maxVal
    | ICMP_UGT, false, false => U known maxVal
    | ICMP_UGT, false, true => U minVal known
    | ICMP_UGT, true, false => U minVal (add_z known (-1))
    | ICMP_UGE, true, true => U known maxVal
    | ICMP_UGE, false, false => U (add_z known 1) maxVal
    | ICMP_UGE, false, true => U minVal (add_z known (-1))
    | ICMP_UGE, true, false => U minVal known
    | ICMP_ULT, true, true => U minVal (add_z known (-1))
    | ICMP_ULT, false, false => U minVal known
    | ICMP_ULT, false, true => U known maxVal
    | ICMP_ULT, true, false => U (add_z known 1) maxVal
    | ICMP_ULE, true, true => U minVal known
    | ICMP_ULE, false, false => U minVal (add_z known (-1))
    | ICMP_ULE, false, true => U (add_z known 1) maxVal
    | ICMP_ULE, true, false => U known maxVal
    | ICMP_SGT, true, true => S (add_z known 1) signedMaxVal
    | ICMP_SGT, false, false => S known signedMaxVal
    | ICMP_SGT, false, true => S signedMinVal known
    | ICMP_SGT, true, false => S signedMinVal (add_z known (-1))
    | ICMP_SGE, true, true => S known signedMaxVal
    | ICMP_SGE, false, false => S (add_z known 1) signedMaxVal
    | ICMP_SGE, false, true => S signedMinVal (add_z known (-1))
    | ICMP_SGE, true, false => S signedMinVal known
    | ICMP_SLT, true, true => S signedMinVal (add_z known (-1))
    | ICMP_SLT, false, false => S signedMinVal known
    | ICMP_SLT, false, true => S known signedMaxVal
    | ICMP_SLT, true, false => S (add_z known 1) signedMaxVal
    | ICMP_SLE, true, true => S signedMinVal known
    | ICMP_SLE, false, false => S signedMinVal (add_z known (-1))
    | ICMP_SLE, false, true => S (add_z known 1) signedMaxVal
    | ICMP_SLE, true, false => S known signedMaxVal
    | _, _, _ => infRange
    end
  | _ => infRange
  end.

(** [Meet::operator()]: [std::accumulate] from [AbstractValue()]. *)
Definition Meet_apply {V : Type} (init : V) (meetPair : V -> V -> V) (values : list V) : V :=
  fold_left meetPair values init.

(** [RangeMeet] *)
Definition meetPair (a b : RangeValue) : RangeValue := rv_or a b.
Definition intersection (a b : RangeValue) : RangeValue := rv_and a b.
Definition meet (values : list RangeValue) : RangeValue :=
  Meet_apply RangeValue_init meetPair values.

(** ** What a range means *)

(** Signed reading: the integers between the signed readings of the bounds. *)
Definition gamma (r : RangeValue) (z : Z) : Prop :=
  match rkind r with
  | constant => signed (getValue (lvalue r)) <= z <= signed (getValue (rvalue r))
  | _ => True
  end.

(** Unsigned reading, for the ranges of unsigned comparisons. *)
Definition gamma_u (r : RangeValue) (z : Z) : Prop :=
  match rkind r with
  | constant => uv (getValue (lvalue r)) <= z <= uv (getValue (rvalue r))
  | _ => True
  end.

(** Constant ranges have two well-formed bounds: no null pointer is dereferenced. *)
Definition bounded (r : RangeValue) : Prop :=
  rkind r = constant ->
  exists l h, lvalue r = Some l /\ rvalue r = Some h /\ wf l /\ wf h.

(** Both bounds have width [w]. *)
Definition width_is (w : Z) (r : RangeValue) : Prop :=
  rkind r = constant -> bw (getValue (lvalue r)) = w /\ bw (getValue (rvalue r)) = w.

(** Bounds of at most 64 bits. *)
Definition width_le64 (r : RangeValue) : Prop :=
  rkind r = constant -> bw (getValue (lvalue r)) <= 64 /\ bw (getValue (rvalue r)) <= 64.

(** The result of an [icmp] on two integers of one width (LLVM language reference). *)
Definition icmp (p : predicate) (a b : apint) : bool :=
  match p with
  | ICMP_EQ => uv a =? uv b
  | ICMP_NE => negb (uv a =? uv b)
  | ICMP_UGT => uv b <? uv a
  | ICMP_UGE => uv b <=? uv a
  | ICMP_ULT => uv a <? uv b
  | ICMP_ULE => uv a <=? uv b
  | ICMP_SGT => signed b <? signed a
  | ICMP_SGE => signed b <=? signed a
  | ICMP_SLT => signed a <? signed b
  | ICMP_SLE => signed a <=? signed b
  end.

(** The branch is taken with variable [x] and constant [k] in the given operand order. *)
Definition branch_taken (p : predicate) (x k : apint) (isTrueBranch isVariableOpFirst : bool) : Prop :=
  (if isVariableOpFirst then icmp p x k else icmp p k x) = isTrueBranch.

Definition is_unsigned_pred (p : predicate) : bool :=
  match p with ICMP_UGT | ICMP_UGE | ICMP_ULT | ICMP_ULE => true | _ => false end.
Definition is_signed_pred (p : predicate) : bool :=
  match p with ICMP_SGT | ICMP_SGE | ICMP_SLT | ICMP_SLE => true | _ => false end.

(** ** Lemmas *)

Lemma rv_or_unknown_l b : rv_or RangeValue_init b = RangeValue_init.
Proof. done. Qed.

Lemma meet_unknown l : meet l = RangeValue_init.
Proof. unfold meet, Meet_apply. induction l as [|a l IH]; simpl; [done|]. by rewrite rv_or_unknown_l. Qed.

#[export] Hint Rewrite meet_unknown : msv_rw.

Lemma bounded_getValue r :
  bounded r -> rkind r = constant -> wf (getValue (lvalue r)) /\ wf (getValue (rvalue r)).
Proof. intros Hb Hk. destruct (Hb Hk) as (l & h & -> & -> & ? & ?). done. Qed.

Lemma gamma_top r z : rkind r <> constant -> gamma r z.
Proof. unfold gamma. by destruct (rkind r). Qed.

Lemma rv_or_bounded a b : bounded a -> bounded b -> bounded (rv_or a b).
Proof.
  intros Ha Hb. unfold rv_or, isUnknown, isInfinity.
  destruct (rkind a) eqn:Ea, (rkind b) eqn:Eb; simpl; try done.
  intros _. destruct (Ha Ea) as (l & h & Hl & Hh & Hwl & Hwh).
  destruct (Hb Eb) as (l' & h' & Hl' & Hh' & Hwl' & Hwh').
  repeat case_match; rewrite ?Hl, ?Hh, ?Hl', ?Hh'; naive_solver.
Qed.

Lemma rv_and_bounded a b : bounded a -> bounded b -> bounded (rv_and a b).
Proof.
  intros Ha Hb. unfold rv_and, isUnknown, isInfinity.
  destruct (rkind a) eqn:Ea, (rkind b) eqn:Eb; simpl; try done.
  intros _. destruct (Ha Ea) as (l & h & Hl & Hh & Hwl & Hwh).
  destruct (Hb Eb) as (l' & h' & Hl' & Hh' & Hwl' & Hwh').
  repeat case_match; rewrite ?Hl, ?Hh, ?Hl', ?Hh'; naive_solver.
Qed.

Lemma rv_or_sound a b w z :
  width_is w a -> width_is w b -> gamma a z \/ gamma b z -> gamma (rv_or a b) z.
Proof.
  intros Ha Hb Hz. unfold rv_or, isUnknown, isInfinity.
  destruct (rkind a) eqn:Ea, (rkind b) eqn:Eb; simpl;
    try (apply gamma_top; simpl; congruence).
  destruct (Ha Ea) as [Hal Har], (Hb Eb) as [Hbl Hbr].
  unfold gamma in *; rewrite ?Ea, ?Eb in Hz; simpl.
  destruct (slt _ _) eqn:E1, (sgt _ _) eqn:E2;
    rewrite ?slt_spec, ?slt_spec_false in E1 by congruence;
    rewrite ?sgt_spec, ?sgt_spec_false in E2 by congruence; lia.
Qed.

Lemma rv_or_least a b w c z :
  rkind a = constant -> rkind b = constant ->
  width_is w a -> width_is w b ->
  (forall y, gamma a y -> gamma c y) -> (forall y, gamma b y -> gamma c y) ->
  (exists y, gamma a y) -> (exists y, gamma b y) ->
  gamma (rv_or a b) z -> gamma c z.
Proof.
  intros Ea Eb Ha Hb Hac Hbc [ya Hya] [yb Hyb] Hz.
  destruct (Ha Ea) as [Hal Har], (Hb Eb) as [Hbl Hbr].
  unfold rv_or, isUnknown, isInfinity in Hz. rewrite Ea, Eb in Hz; simpl in Hz.
  unfold gamma in Hac, Hbc, Hya, Hyb, Hz. rewrite ?Ea, ?Eb in *; simpl in Hz.
  unfold gamma. destruct (rkind c) eqn:Ec; try done.
  pose proof (Hac (signed (getValue (lvalue a)))). pose proof (Hac (signed (getValue (rvalue a)))).
  pose proof (Hbc (signed (getValue (lvalue b)))). pose proof (Hbc (signed (getValue (rvalue b)))).
  destruct (slt _ _) eqn:E1, (sgt _ _) eqn:E2;
    rewrite ?slt_spec, ?slt_spec_false in E1 by congruence;
    rewrite ?sgt_spec, ?sgt_spec_false in E2 by congruence; lia.
Qed.

Lemma sext64_cmp a b :
  wf a -> wf b -> bw a <= 64 -> bw b <= 64 ->
  (slt (sextOrTrunc 64 a) (sextOrTrunc 64 b) = true <-> signed a < signed b) /\
  (sgt (sextOrTrunc 64 a) (sextOrTrunc 64 b) = true <-> signed b < signed a).
Proof.
  intros Ha Hb Hwa Hwb. rewrite slt_spec, sgt_spec by done.
  by rewrite !signed_sextOrTrunc.
Qed.

Lemma rv_and_exact a b z :
  bounded a -> bounded b -> width_le64 a -> width_le64 b ->
  gamma (rv_and a b) z <-> gamma a z /\ gamma b z.
Proof.
  intros Ba Bb Wa Wb. unfold rv_and, isUnknown, isInfinity, gamma.
  destruct (rkind a) eqn:Ea, (rkind b) eqn:Eb; simpl; rewrite ?Ea, ?Eb; try tauto.
  destruct (bounded_getValue a Ba Ea) as [Hl Hh], (bounded_getValue b Bb Eb) as [Hl' Hh'].
  destruct (Wa Ea) as [Wl Wh], (Wb Eb) as [Wl' Wh'].
  pose proof (proj1 (sext64_cmp _ _ Hl Hl' Wl Wl')) as C1.
  pose proof (proj2 (sext64_cmp _ _ Hh Hh' Wh Wh')) as C2.
  destruct (slt _ _) eqn:E1, (sgt _ _) eqn:E2;
    [assert (signed (getValue (lvalue a)) < signed (getValue (lvalue b))) by tauto..| |];
    try (assert (~ signed (getValue (lvalue a)) < signed (getValue (lvalue b)))
           by (rewrite <- C1; congruence));
    try (assert (signed (getValue (rvalue b)) < signed (getValue (rvalue a))) by tauto);
    try (assert (~ signed (getValue (rvalue b)) < signed (getValue (rvalue a)))
           by (rewrite <- C2; congruence)); lia.
Qed.

Lemma cond_unsigned w p k x t v :
  is_unsigned_pred p = true -> wf k -> wf x -> bw k = w -> bw x = w ->
  branch_taken p x k t v ->
  gamma_u (getRangeForConditionalBranch (TInt w) p k t v) (uv x).
Proof.
  intros Hp Hk Hx Hkw Hxw Hb. unfold branch_taken in Hb.
  destruct Hk as [Hw Hku], Hx as [_ Hxu]. rewrite Hxw in Hxu. rewrite Hkw in Hku, Hw.
  assert (Hinc : uv k < 2 ^ w - 1 -> uv (add_z k 1) = uv k + 1)
    by (intros; apply uv_add_z_1; [by split; rewrite Hkw|by rewrite Hkw]).
  assert (Hdec : 0 < uv k -> uv (add_z k (-1)) = uv k - 1)
    by (intros; apply uv_add_z_m1; [by split; rewrite Hkw|done]).
  destruct p, t, v; simpl in Hp, Hb; try discriminate; bool_prop;
    unfold gamma_u; cbn -[add_z Z.pow]; lia.
Qed.

Lemma cond_signed w p k x t v :
  is_signed_pred p = true -> wf k -> wf x -> bw k = w -> bw x = w ->
  (0 <= signed x \/ signed k < 0) ->
  branch_taken p x k t v ->
  gamma (getRangeForConditionalBranch (TInt w) p k t v) (signed x).
Proof.
  intros Hp Hk Hx Hkw Hxw Hside Hb. unfold branch_taken in Hb.
  pose proof (signed_range k Hk) as Rk. pose proof (signed_range x Hx) as Rx.
  assert (Hw : 0 < w) by (destruct Hk; lia).
  pose proof (signed_add_z k 1 Hk) as Hinc. pose proof (signed_add_z k (-1) Hk) as Hdec.
  rewrite Hkw in *. rewrite Hxw in *.
  pose proof (signed_getSignedMaxValue w Hw) as Hmax.
  assert (Hmin : signed (if slt_z k 0 then getSignedMinValue w else getMinValue w) <= signed x).
  { unfold slt_z. destruct (Z.ltb_spec (signed k) 0).
    - rewrite signed_getSignedMinValue; lia.
    - rewrite signed_getMinValue; lia. }
  destruct p, t, v; simpl in Hp, Hb; try discriminate; bool_prop;
    unfold gamma; cbn -[add_z signed getSignedMaxValue getSignedMinValue getMinValue slt_z];
    lia.
Qed.

(** ** Properties *)

(** [RangeMeet] folds the pairwise join from the default value, and joining
    with the default (unknown) value gives the default value: the meet of any list
    of ranges, a single one included, is the unknown range.  The analysis keeps no
    range through a merge. *)
Theorem meet_forgets_every_range (values : list RangeValue) :
  meet values = RV unknown None None.
Proof. autorewrite with msv_rw. reflexivity. Qed.

(** [operator|] on constant ranges of one width is the least upper bound of
    the interval order: it covers both arguments, and any range that covers both
    (non-empty) arguments covers it. *)
Theorem rv_or_lub a b w c z :
  rkind a = constant -> rkind b = constant -> width_is w a -> width_is w b ->
  (exists y, gamma a y) -> (exists y, gamma b y) ->
  (gamma a z \/ gamma b z -> gamma (rv_or a b) z) /\
  ((forall y, gamma a y \/ gamma b y -> gamma c y) -> gamma (rv_or a b) z -> gamma c z).
Proof.
  intros Ea Eb Ha Hb Hya Hyb. split; [by eapply rv_or_sound|].
  intros Hc Hz. eapply (rv_or_least a b w c z); eauto.
Qed.

Lemma rv_or_lub_witness :
  gamma (rv_or (makeRange (mk 8 3) (mk 8 5)) (makeRange (mk 8 (-2)) (mk 8 2))) 2.
Proof.
  apply (rv_or_lub (makeRange (mk 8 3) (mk 8 5)) (makeRange (mk 8 (-2)) (mk 8 2)) 8
           infRange 2).
  - done.
  - done.
  - done.
  - done.
  - exists 4. vm_compute. split; discriminate.
  - exists 0. vm_compute. split; discriminate.
  - right. vm_compute. split; discriminate.
Defined.

(** [operator&] on ranges whose bounds have at most 64 bits is exact: it stands
    for the integers both arguments stand for, an unknown or infinite argument
    standing for all integers. *)
Theorem rv_and_intersection a b z :
  bounded a -> bounded b -> width_le64 a -> width_le64 b ->
  gamma (intersection a b) z <-> gamma a z /\ gamma b z.
Proof. apply rv_and_exact. Qed.

Lemma rv_and_intersection_witness :
  gamma (intersection (makeRange (mk 32 (-3)) (mk 32 9)) (makeRange (mk 8 2) (mk 8 100))) 5.
Proof.
  apply (rv_and_intersection (makeRange (mk 32 (-3)) (mk 32 9)) (makeRange (mk 8 2) (mk 8 100)) 5).
  - intros _. exists (mk 32 (-3)), (mk 32 9). repeat split; try apply mk_wf; reflexivity.
  - intros _. exists (mk 8 2), (mk 8 100). repeat split; try apply mk_wf; reflexivity.
  - intros _. vm_compute. split; discriminate.
  - intros _. vm_compute. split; discriminate.
  - vm_compute. repeat split; discriminate.
Defined.

(** The range attached to a branch of an unsigned comparison with a constant
    contains, read unsigned, every value with which the branch is taken; the
    wrap-around of [k+1] and [k-1] at the ends of the width is harmless. *)
Theorem branch_range_unsigned_sound w p k x t v :
  is_unsigned_pred p = true -> wf k -> wf x -> bw k = w -> bw x = w ->
  branch_taken p x k t v ->
  gamma_u (getRangeForConditionalBranch (TInt w) p k t v) (uv x).
Proof. apply cond_unsigned. Qed.

Lemma branch_range_unsigned_sound_witness :
  gamma_u (getRangeForConditionalBranch (TInt 8) ICMP_ULT (mk 8 10) true true) 9.
Proof.
  apply (branch_range_unsigned_sound 8 ICMP_ULT (mk 8 10) (mk 8 9) true true);
    try reflexivity; apply mk_wf; lia.
Defined.

(** The range attached to a branch of a signed comparison contains, read
    signed, every taken value that is non-negative, and every taken value at all
    when the constant is negative. *)
Theorem branch_range_signed_sound w p k x t v :
  is_signed_pred p = true -> wf k -> wf x -> bw k = w -> bw x = w ->
  (0 <= signed x \/ signed k < 0) ->
  branch_taken p x k t v ->
  gamma (getRangeForConditionalBranch (TInt w) p k t v) (signed x).
Proof. apply cond_signed. Qed.

Lemma branch_range_signed_sound_witness :
  gamma (getRangeForConditionalBranch (TInt 8) ICMP_SLT (mk 8 (-3)) true true) (-5).
Proof.
  apply (branch_range_signed_sound 8 ICMP_SLT (mk 8 (-3)) (mk 8 (-5)) true true);
    try reflexivity; try (apply mk_wf; lia).
  right. vm_compute. reflexivity.
Defined.

(** With a non-negative constant the signed upper-bound branches ([x < k],
    [x <= k] and their mirrored forms) start the range at zero, so a negative
    value takes the branch and is outside the range. *)
Theorem branch_range_drops_negative w k x :
  wf k -> wf x -> bw k = w -> bw x = w -> 0 <= signed k -> signed x < 0 ->
  branch_taken ICMP_SLT x k true true /\
  ~ gamma (getRangeForConditionalBranch (TInt w) ICMP_SLT k true true) (signed x).
Proof.
  intros Hk Hx Hkw Hxw Hk0 Hx0. split.
  - unfold branch_taken; simpl. apply Z.ltb_lt. lia.
  - unfold gamma; cbn -[add_z signed slt_z getSignedMinValue getMinValue].
    unfold slt_z. destruct (Z.ltb_spec (signed k) 0); [lia|].
    rewrite signed_getMinValue by (destruct Hk; lia). lia.
Qed.

Lemma branch_range_drops_negative_witness :
  ~ gamma (getRangeForConditionalBranch (TInt 32) ICMP_SLT (mk 32 10) true true) (-5).
Proof.
  apply (branch_range_drops_negative 32 (mk 32 10) (mk 32 (-5)));
    try reflexivity; try (apply mk_wf; lia); vm_compute; discriminate.
Defined.
