(* ===== verification/RangeTransfer.v ===== *)
(** * The value-range transfer function ([ValueRange.cpp], class [RangeTransfer])

    The abstract state maps values to ranges ([llvm::DenseMap]); reading it with
    [state[v]] inserts the unknown range, so [getRangeFor] returns a new state.
    LLVM's constant folder is a parameter ([ConstFold]). *)
From stdpp Require Import base gmap fin_maps list strings.
From Stdlib Require Import ZArith Lia.
From S2P Require Import Prelude APInt LLVM RangeDomain.
Local Open Scope Z_scope.

Definition two64 : Z := 2 ^ 64.
(** [uint64_t] arithmetic *)
Definition u64 (z : Z) : Z := z mod two64.

(** [CastInst::castIsValid] and [ConstantFoldCastOperand] on a [ConstantInt]. *)
Record ConstFold := {
  castIsValid : castop -> apint -> ty -> bool;
  ConstantFoldCastOperand : castop -> apint -> ty -> value;
}.

Section Transfer.
Variable M : IRModule.
Variable DL : DataLayout.
Variable CF : ConstFold.

Definition isLocalAllocaPointer (ptr : value) : bool :=
  isAllocaInst M (stripPointerCasts M ptr).

(** [None]: not a malloc call; [Some n]: a malloc call of [n] bytes, 0 if not constant. *)
Definition isKnownMallocCall (v : value) : option Z :=
  let v := stripPointerCasts M v in
  if isCallBase M v then
    match getCalledFunction M v with
    | Some callee =>
      if String.eqb (getName M callee) "malloc" then
        match callArgs M v with
        | [] => None
        | VConstInt c :: _ => Some (getZExtValue c)
        | _ :: _ => Some 0
        end
      else None
    | None => None
    end
  else None.

(** [state[v]] as a read. *)
Definition at_ (v : value) (st : gmap value RangeValue) : RangeValue * gmap value RangeValue :=
  match st !! v with
  | Some r => (r, st)
  | None => (RangeValue_init, <[v := RangeValue_init]> st)
  end.

(** [state[v].kind = infinity] *)
Definition setInfinity (v : value) (st : gmap value RangeValue) : gmap value RangeValue :=
  let r := default RangeValue_init (st !! v) in
  <[v := RV infinity (lvalue r) (rvalue r)]> st.

Definition constRange (c : apint) : RangeValue := RV constant (Some c) (Some c).

Definition getRangeFor (v : value) (st : gmap value RangeValue) : RangeValue * gmap value RangeValue :=
  match v with
  | VConstInt c => (constRange c, st)
  | _ => at_ v st
  end.

Definition masking (v : value) : bool :=
  match v with
  | VConstInt c => isPowerOf2 (add_z c 1)
  | _ => false
  end.

(** Largest and smallest of the candidates by signed comparison, from the first one. *)
Definition maxCandidate (l : list apint) (d : apint) : apint :=
  fold_left (fun mx x => if sgt x mx then x else mx) l d.
Definition minCandidate (l : list apint) (d : apint) : apint :=
  fold_left (fun mn x => if slt x mn then x else mn) l d.

(** The range spanned by four overflow-checked candidates. *)
Definition candidateRange (c0 c1 c2 c3 : apint * bool) : RangeValue :=
  if c0.2 || c1.2 || c2.2 || c3.2 then infRange
  else let l := [c0.1; c1.1; c2.1; c3.1] in
       makeRange (minCandidate l c0.1) (maxCandidate l c0.1).

Definition evalAdd (l1 r1 l2 r2 : apint) : RangeValue :=
  let ll := sadd_ov l1 l2 in let rr := sadd_ov r1 r2 in
  if ll.2 || rr.2 then infRange else makeRange ll.1 rr.1.

Definition evalSub (l1 r1 l2 r2 : apint) : RangeValue :=
  let ll := ssub_ov l1 r2 in let rr := ssub_ov r1 l2 in
  if ll.2 || rr.2 then infRange else makeRange ll.1 rr.1.

Definition evalMul (l1 r1 l2 r2 : apint) : RangeValue :=
  candidateRange (smul_ov l1 l2) (smul_ov l1 r2) (smul_ov r1 l2) (smul_ov r1 r2).

Definition evalSDiv (l1 r1 l2 r2 : apint) : RangeValue :=
  if isNegative l2 && isStrictlyPositive r2 then
    let abs1 := abs_ l1 in let abs2 := abs_ r1 in
    let a := if sgt abs1 abs2 then abs1 else abs2 in
    makeRange (add_z (flipAllBits a) 1) a
  else if isZero l2 || isZero r2 then infRange
  else candidateRange (sdiv_ov l1 l2) (sdiv_ov l1 r2) (sdiv_ov r1 l2) (sdiv_ov r1 r2).

Definition evalUDiv (l1 r1 l2 r2 : apint) : RangeValue :=
  if isZero l2 || isZero r2 then infRange
  else makeRange (udiv r1 l2) (udiv l1 r2).

(** The arithmetic part of [evaluateBinOP], on two operand ranges. *)
Definition evalRanges (op : binop) (range1 range2 : RangeValue) : RangeValue :=
  if isConstant range1 && isConstant range2 then
    let l1 := sextOrTrunc 64 (getValue (lvalue range1)) in
    let r1 := sextOrTrunc 64 (getValue (rvalue range1)) in
    let l2 := sextOrTrunc 64 (getValue (lvalue range2)) in
    let r2 := sextOrTrunc 64 (getValue (rvalue range2)) in
    match op with
    | BAdd => evalAdd l1 r1 l2 r2
    | BSub => evalSub l1 r1 l2 r2
    | BMul => evalMul l1 r1 l2 r2
    | BSDiv => evalSDiv l1 r1 l2 r2
    | BUDiv => evalUDiv l1 r1 l2 r2
    | _ => infRange
    end
  else if isInfinity range1 || isInfinity range2 then RV infinity None None
  else RangeValue_init.

Definition evaluateBinOP (op : binop) (op1 op2 : value) (st : gmap value RangeValue)
    : RangeValue * gmap value RangeValue :=
  let '(range1, st) := getRangeFor op1 st in
  let '(range2, st) := getRangeFor op2 st in
  let mask1 := isConstant range1 && masking op1 in
  let mask2 := isConstant range2 && masking op2 in
  if bool_decide (op = BAnd) && (mask1 || mask2) then
    let mask := match (if mask1 then op1 else op2) with VConstInt c => c | _ => APInt 1 0 end in
    (makeRange (APInt 1 0) mask, st)
  else (evalRanges op range1 range2, st).

Definition evaluateCast (op : castop) (src : value) (destTy : ty) (st : gmap value RangeValue)
    : RangeValue * gmap value RangeValue :=
  let '(v, st) := getRangeFor src st in
  if isConstant v then
    let l := getValue (lvalue v) in
    let r := getValue (rvalue v) in
    if negb (castIsValid CF op l destTy) || negb (castIsValid CF op r destTy) then (infRange, st)
    else
      let x := ConstantFoldCastOperand CF op l destTy in
      let y := ConstantFoldCastOperand CF op r destTy in
      match x, y with
      | VConstInt cx, VConstInt cy => (RV constant (Some cx) (Some cy), st)
      | _, _ => (infRange, st)
      end
  else (RV (rkind v) None None, st).

(** [uint64_t allocSize = rvalue->getValue().sextOrTrunc(64).getZExtValue() + 1] *)
Definition allocSizeOf (r : RangeValue) : Z :=
  u64 (getZExtValue (sextOrTrunc 64 (getValue (rvalue r))) + 1).

Definition storeWidth (val : value) : Z :=
  match getType M val with TInt w => w | _ => 64 end.

(** The transfer object's mutable member and the abstract state. *)
Record tstate := TS { storeHappened : gmap value bool; ranges : gmap value RangeValue }.

Definition handleStore (val ptr : value) (t : tstate) : tstate :=
  let bitWidth := storeWidth val in
  if isLocalAllocaPointer ptr then
    let '(valRange, st) := getRangeFor val (ranges t) in
    let happened := match storeHappened t !! ptr with
                    | None => <[ptr := true]> (storeHappened t)
                    | Some _ => storeHappened t end in
    let st := <[ptr := valRange]> st in
    let st :=
      match isKnownMallocCall val with
      | Some sz =>
        if sz =? 0 then <[ptr := infRange]> st
        else <[ptr := makeRange (mk bitWidth 0) (mk bitWidth (u64 (sz - 1)))]> st
      | None =>
        match st !! val with
        | Some rv =>
          if isConstant rv
          then <[ptr := makeRange (mk bitWidth 0) (mk bitWidth (u64 (allocSizeOf rv - 1)))]> st
          else st
        | None => st
        end
      end in
    TS happened st
  else t.

Definition handleLoad (li ptr : value) (st : gmap value RangeValue) : gmap value RangeValue :=
  if isLocalAllocaPointer ptr then
    match st !! ptr with
    | Some r => <[li := r]> st
    | None => setInfinity li st
    end
  else setInfinity li st.

(** The index loop of [handleGEP]: [None] when an index forces the infinite range. *)
Fixpoint gepOffset (elemSize : Z) (idxs : list value) (st : gmap value RangeValue) (total : Z)
    : option Z * gmap value RangeValue :=
  match idxs with
  | [] => (Some total, st)
  | ix :: rest =>
    let '(r, st) := getRangeFor ix st in
    if isInfinity r || isUnknown r then (None, st)
    else
      let index := getSExtValue (sextOrTrunc 64 (getValue (lvalue r))) in
      if index <? 0 then (None, st)
      else gepOffset elemSize rest st (u64 (total + u64 (index * elemSize)))
  end.

Definition handleGEP (gep : value) (resElt : ty) (base : value) (idxs : list value)
    (st : gmap value RangeValue) : gmap value RangeValue :=
  let '(baseRange, st) := getRangeFor base st in
  if isInfinity baseRange || isUnknown baseRange then setInfinity gep st
  else
    let '(off, st) := gepOffset (getTypeAllocSize DL resElt) idxs st 0 in
    match off with
    | None => setInfinity gep st
    | Some computedOffset =>
      let allocSize := allocSizeOf baseRange in
      if computedOffset <? allocSize
      then <[gep := makeRange (mk 64 0) (mk 64 (u64 (allocSize - computedOffset - 1)))]> st
      else setInfinity gep st
    end.

(** [RangeTransfer::operator()] *)
Definition transfer (i : value) (t : tstate) : tstate :=
  match kindOf M i with
  | KInst (IStore val ptr) => handleStore val ptr t
  | KInst (ILoad ptr) => TS (storeHappened t) (handleLoad i ptr (ranges t))
  | KInst (IGEP _ resElt base idxs) => TS (storeHappened t) (handleGEP i resElt base idxs (ranges t))
  | KConstantInt c => TS (storeHappened t) (<[i := constRange c]> (ranges t))
  | KInst (IBinary op a b) =>
    let '(r, st) := evaluateBinOP op a b (ranges t) in TS (storeHappened t) (<[i := r]> st)
  | KInst (ICast op src) =>
    let st :=
      if bool_decide (op = BitCast) then
        match ranges t !! stripPointerCasts M src with
        | Some r =>
          if isConstant r
          then <[i := makeRange (mk 64 0) (mk 64 (u64 (allocSizeOf r - 1)))]> (ranges t)
          else ranges t
        | None => ranges t
        end
      else ranges t in
    let '(r, st) := evaluateCast op src (getType M i) st in
    TS (storeHappened t) (<[i := r]> st)
  | _ => TS (storeHappened t) (setInfinity i (ranges t))
  end.

End Transfer.

(** ** Interval arithmetic lemmas *)

Lemma maxCandidate_spec w l d :
  bw d = w -> Forall (fun x => bw x = w) l ->
  (forall x, x ∈ d :: l -> signed x <= signed (maxCandidate l d)) /\ maxCandidate l d ∈ d :: l.
Proof.
  revert d. induction l as [|a l IH]; intros d Hd Hl; simpl.
  - split; [|left]. intros x Hx. apply list_elem_of_singleton in Hx. subst. lia.
  - inversion_clear Hl as [|? ? Ha Hl'].
    destruct (sgt a d) eqn:E.
    + apply sgt_spec in E; [|congruence]. destruct (IH a Ha Hl') as [Hu Hin]. split.
      * intros x Hx. rewrite !elem_of_cons in Hx. destruct Hx as [->|Hx].
        -- specialize (Hu a ltac:(left)). lia.
        -- apply Hu. by apply elem_of_cons.
      * set_solver.
    + apply sgt_spec_false in E; [|congruence]. destruct (IH d Hd Hl') as [Hu Hin]. split.
      * intros x Hx. rewrite !elem_of_cons in Hx. destruct Hx as [->|[->|Hx]].
        -- apply Hu. left.
        -- specialize (Hu d ltac:(left)). lia.
        -- apply Hu. by right.
      * set_solver.
Qed.

Lemma minCandidate_spec w l d :
  bw d = w -> Forall (fun x => bw x = w) l ->
  (forall x, x ∈ d :: l -> signed (minCandidate l d) <= signed x) /\ minCandidate l d ∈ d :: l.
Proof.
  revert d. induction l as [|a l IH]; intros d Hd Hl; simpl.
  - split; [|left]. intros x Hx. apply list_elem_of_singleton in Hx. subst. lia.
  - inversion_clear Hl as [|? ? Ha Hl'].
    destruct (slt a d) eqn:E.
    + apply slt_spec in E; [|congruence]. destruct (IH a Ha Hl') as [Hu Hin]. split.
      * intros x Hx. rewrite !elem_of_cons in Hx. destruct Hx as [->|Hx].
        -- specialize (Hu a ltac:(left)). lia.
        -- apply Hu. by apply elem_of_cons.
      * set_solver.
    + apply slt_spec_false in E; [|congruence]. destruct (IH d Hd Hl') as [Hu Hin]. split.
      * intros x Hx. rewrite !elem_of_cons in Hx. destruct Hx as [->|[->|Hx]].
        -- apply Hu. left.
        -- specialize (Hu d ltac:(left)). lia.
        -- apply Hu. by right.
      * set_solver.
Qed.

(** Products of two intervals are bounded by the products of their ends. *)
Lemma mul_hull a b c d x y lo hi :
  a <= x <= b -> c <= y <= d ->
  lo <= a * c <= hi -> lo <= a * d <= hi -> lo <= b * c <= hi -> lo <= b * d <= hi ->
  lo <= x * y <= hi.
Proof.
  intros Hx Hy H1 H2 H3 H4.
  assert (lo <= a * y <= hi) by (destruct (Z.le_gt_cases 0 a); nia).
  assert (lo <= b * y <= hi) by (destruct (Z.le_gt_cases 0 b); nia).
  destruct (Z.le_gt_cases 0 y); nia.
Qed.

Lemma quot_hull_pos a b c d x y lo hi :
  a <= x <= b -> 0 < c -> c <= y <= d ->
  lo <= Z.quot a c <= hi -> lo <= Z.quot a d <= hi ->
  lo <= Z.quot b c <= hi -> lo <= Z.quot b d <= hi ->
  lo <= Z.quot x y <= hi.
Proof.
  intros Hx Hc Hy H1 H2 H3 H4.
  assert (Hq : forall z, lo <= Z.quot z c <= hi -> lo <= Z.quot z d <= hi -> lo <= Z.quot z y <= hi).
  { intros z Hzc Hzd. destruct (Z.le_gt_cases 0 z) as [Hz|Hz].
    - pose proof (Z.quot_le_compat_l z c y Hz ltac:(lia)).
      pose proof (Z.quot_le_compat_l z y d Hz ltac:(lia)). lia.
    - pose proof (Z.quot_le_compat_l (- z) c y ltac:(lia) ltac:(lia)).
      pose proof (Z.quot_le_compat_l (- z) y d ltac:(lia) ltac:(lia)).
      rewrite !Z.quot_opp_l in * by lia. lia. }
  pose proof (Hq a H1 H2). pose proof (Hq b H3 H4).
  pose proof (Z.quot_le_mono a x y ltac:(lia) ltac:(lia)).
  pose proof (Z.quot_le_mono x b y ltac:(lia) ltac:(lia)). lia.
Qed.

Lemma quot_hull a b c d x y lo hi :
  a <= x <= b -> c <= y <= d -> 0 < c \/ d < 0 ->
  lo <= Z.quot a c <= hi -> lo <= Z.quot a d <= hi ->
  lo <= Z.quot b c <= hi -> lo <= Z.quot b d <= hi ->
  lo <= Z.quot x y <= hi.
Proof.
  intros Hx Hy [Hc|Hd] H1 H2 H3 H4; [by eapply (quot_hull_pos a b c d)|].
  rewrite <- Z.quot_opp_opp by lia.
  apply (quot_hull_pos (- b) (- a) (- d) (- c)); try lia;
    rewrite Z.quot_opp_opp by lia; done.
Qed.

Lemma quot_abs_le x y : y <> 0 -> - Z.abs x <= Z.quot x y <= Z.abs x.
Proof.
  intros Hy. pose proof (Z.quot_abs x y Hy).
  pose proof (Z.quot_le_upper_bound (Z.abs x) (Z.abs y) (Z.abs x) ltac:(lia) ltac:(nia)). lia.
Qed.

Lemma gamma_makeRange l r z : gamma (makeRange l r) z <-> signed l <= z <= signed r.
Proof. done. Qed.

(** The candidate range covers what lies between its (unwrapped) candidates. *)
Lemma candidateRange_sound w z0 z1 z2 z3 z :
  0 < w ->
  (forall lo hi, lo <= z0 <= hi -> lo <= z1 <= hi -> lo <= z2 <= hi -> lo <= z3 <= hi ->
     lo <= z <= hi) ->
  gamma (candidateRange (mk w z0, negb (fits_signed w z0)) (mk w z1, negb (fits_signed w z1))
           (mk w z2, negb (fits_signed w z2)) (mk w z3, negb (fits_signed w z3))) z.
Proof.
  intros Hw Hz. unfold candidateRange; simpl.
  destruct (fits_signed w z0) eqn:F0, (fits_signed w z1) eqn:F1,
    (fits_signed w z2) eqn:F2, (fits_signed w z3) eqn:F3; simpl; try done.
  rewrite fits_signed_spec in F0, F1, F2, F3. apply gamma_makeRange.
  set (l := [mk w z0; mk w z1; mk w z2; mk w z3]).
  assert (Hl : Forall (fun x => bw x = w) l) by (repeat constructor).
  pose proof (proj1 (maxCandidate_spec w l (mk w z0) eq_refl Hl)) as Hmax.
  pose proof (proj1 (minCandidate_spec w l (mk w z0) eq_refl Hl)) as Hmin.
  assert (Hc : forall zi, smin w <= zi <= smax w -> mk w zi ∈ mk w z0 :: l ->
     signed (minCandidate l (mk w z0)) <= zi <= signed (maxCandidate l (mk w z0))).
  { intros zi Hf Hin. specialize (Hmax _ Hin). specialize (Hmin _ Hin).
    rewrite signed_mk in Hmax, Hmin by done. done. }
  apply Hz; apply Hc; unfold l; set_solver.
Qed.

(** Negation as the code writes it: flip all bits, add one. *)
Lemma signed_flip_inc a :
  wf a -> smin (bw a) < signed a -> signed (add_z (flipAllBits a) 1) = - signed a.
Proof.
  intros Hwf Hmin. pose proof (signed_range a Hwf) as Hr. destruct Hwf as [Hw Hu].
  assert (add_z (flipAllBits a) 1 = mk (bw a) (- signed a)) as ->.
  { unfold add_z, flipAllBits, mk; simpl. f_equal.
    replace (2 ^ bw a - 1 - uv a + 1) with (- uv a + 1 * 2 ^ bw a) by lia.
    rewrite Z.mod_add by (pose proof (pow2_pos (bw a)); lia).
    unfold signed, to_signed. destruct (uv a <? 2 ^ (bw a - 1)); [done|].
    replace (- (uv a - 2 ^ bw a)) with (- uv a + 1 * 2 ^ bw a) by lia.
    by rewrite Z.mod_add by (pose proof (pow2_pos (bw a)); lia). }
  apply signed_mk; [done|]. unfold smin, smax in *. lia.
Qed.

Lemma signed_abs_ a :
  wf a -> smin (bw a) < signed a ->
  wf (abs_ a) /\ bw (abs_ a) = bw a /\ signed (abs_ a) = Z.abs (signed a).
Proof.
  intros Hwf Hmin. pose proof (signed_range a Hwf) as Hr. unfold abs_.
  destruct (isNegative a) eqn:E.
  - apply (isNegative_spec a Hwf) in E. unfold neg_. split_and!; [apply mk_wf, Hwf|done|].
    assert (mk (bw a) (- uv a) = mk (bw a) (- signed a)) as ->.
    { unfold mk. f_equal. unfold signed, to_signed.
      destruct (uv a <? 2 ^ (bw a - 1)); [done|].
      replace (- (uv a - 2 ^ bw a)) with (- uv a + 1 * 2 ^ bw a) by lia.
      rewrite Z.mod_add; [done|]. pose proof (pow2_pos (bw a)). destruct Hwf. lia. }
    rewrite signed_mk; [lia|apply Hwf|unfold smin, smax in *; lia].
  - assert (~ signed a < 0) by (rewrite <- isNegative_spec by done; congruence).
    split_and!; [done..|lia].
Qed.

Lemma isZero_spec a : wf a -> isZero a = true <-> signed a = 0.
Proof.
  intros [Hw Hu]. unfold isZero, signed, to_signed. rewrite Z.eqb_eq. pow2 (bw a).
  destruct (Z.ltb_spec (uv a) (2 ^ (bw a - 1))); lia.
Qed.

Lemma isStrictlyPositive_spec a : wf a -> isStrictlyPositive a = true <-> 0 < signed a.
Proof.
  intros Hwf. unfold isStrictlyPositive. rewrite andb_true_iff, !negb_true_iff.
  rewrite <- !not_true_iff_false, isNegative_spec by done.
  change (uv a =? 0) with (isZero a). rewrite isZero_spec by done. lia.
Qed.

Section EvalSound.
Variables l1 r1 l2 r2 : apint.
Variable w : Z.
Hypothesis Hl1 : wf l1 /\ bw l1 = w.
Hypothesis Hr1 : wf r1 /\ bw r1 = w.
Hypothesis Hl2 : wf l2 /\ bw l2 = w.
Hypothesis Hr2 : wf r2 /\ bw r2 = w.
Variables x y : Z.
Hypothesis Hx : signed l1 <= x <= signed r1.
Hypothesis Hy : signed l2 <= y <= signed r2.

Lemma evalAdd_sound : gamma (evalAdd l1 r1 l2 r2) (x + y).
Proof.
  unfold evalAdd, sadd_ov; simpl. destruct Hl1 as [[? ?] ->], Hr1 as [[? ?] ->].
  destruct (fits_signed w (signed l1 + signed l2)) eqn:E1,
    (fits_signed w (signed r1 + signed r2)) eqn:E2; simpl; try done.
  rewrite fits_signed_spec in E1, E2. rewrite gamma_makeRange, !signed_mk by lia. lia.
Qed.

Lemma evalSub_sound : gamma (evalSub l1 r1 l2 r2) (x - y).
Proof.
  unfold evalSub, ssub_ov; simpl. destruct Hl1 as [[? ?] ->], Hr1 as [[? ?] ->].
  destruct (fits_signed w (signed l1 - signed r2)) eqn:E1,
    (fits_signed w (signed r1 - signed l2)) eqn:E2; simpl; try done.
  rewrite fits_signed_spec in E1, E2. rewrite gamma_makeRange, !signed_mk by lia. lia.
Qed.

Lemma evalMul_sound : gamma (evalMul l1 r1 l2 r2) (x * y).
Proof.
  unfold evalMul, smul_ov. destruct Hl1 as [[? ?] ->], Hr1 as [[? ?] ->].
  apply candidateRange_sound; [lia|]. intros lo hi ????.
  by eapply (mul_hull (signed l1) (signed r1) (signed l2) (signed r2)).
Qed.

Lemma evalSDiv_sound : y <> 0 -> smin w < signed l1 -> gamma (evalSDiv l1 r1 l2 r2) (Z.quot x y).
Proof.
  intros Hy0 Hmin. unfold evalSDiv.
  destruct Hl1 as [Wl1 Bl1], Hr1 as [Wr1 Br1], Hl2 as [Wl2 Bl2], Hr2 as [Wr2 Br2].
  destruct (isNegative l2 && isStrictlyPositive r2) eqn:E.
  - destruct (signed_abs_ l1 Wl1) as (Wa & Ba & Sa); [rewrite Bl1; lia|].
    destruct (signed_abs_ r1 Wr1) as (Wb & Bb & Sb); [rewrite Br1; lia|].
    set (a := if sgt (abs_ l1) (abs_ r1) then abs_ l1 else abs_ r1).
    assert (Ha : wf a /\ bw a = w /\ Z.abs (signed l1) <= signed a /\ Z.abs (signed r1) <= signed a).
    { unfold a. destruct (sgt _ _) eqn:Es;
        rewrite ?sgt_spec, ?sgt_spec_false in Es by congruence;
        split_and!; try done; try congruence; lia. }
    destruct Ha as (Waa & Baa & H1 & H2). rewrite gamma_makeRange.
    rewrite signed_flip_inc; [|done|]; pose proof (quot_abs_le x y Hy0).
    + lia.
    + rewrite Baa. unfold smin in *. assert (0 < 2 ^ (w - 1)); [|lia].
      apply pow2_pos. destruct Wl1. lia.
  - destruct (isZero l2 || isZero r2) eqn:Ez; [done|]. apply orb_false_iff in Ez as [Ez1 Ez2].
    assert (signed l2 <> 0) by (rewrite <- isZero_spec by done; congruence).
    assert (signed r2 <> 0) by (rewrite <- isZero_spec by done; congruence).
    assert (0 < signed l2 \/ signed r2 < 0).
    { apply andb_false_iff in E as [E|E].
      - assert (~ signed l2 < 0) by (rewrite <- isNegative_spec by done; congruence). lia.
      - assert (~ 0 < signed r2) by (rewrite <- isStrictlyPositive_spec by done; congruence). lia. }
    unfold sdiv_ov. rewrite Bl1, Br1. apply candidateRange_sound; [destruct Wl1; lia|].
    intros lo hi ????. by eapply (quot_hull (signed l1) (signed r1) (signed l2) (signed r2)).
Qed.
End EvalSound.

(** The integer result of the signed operations the transfer evaluates. *)
Definition binop_z (op : binop) (x y : Z) : option Z :=
  match op with
  | BAdd => Some (x + y)
  | BSub => Some (x - y)
  | BMul => Some (x * y)
  | BSDiv => if y =? 0 then None else Some (Z.quot x y)
  | _ => None
  end.

Lemma sext64_wf a : wf (sextOrTrunc 64 a) /\ bw (sextOrTrunc 64 a) = 64.
Proof. split; [apply mk_wf; lia|done]. Qed.

Lemma evalRanges_sound_lemma op a b x y z :
  bounded a -> bounded b -> width_le64 a -> width_le64 b ->
  (op = BSDiv -> rkind a = constant -> smin 64 < signed (getValue (lvalue a))) ->
  gamma a x -> gamma b y -> binop_z op x y = Some z -> gamma (evalRanges op a b) z.
Proof.
  intros Ba Bb Wa Wb Hdiv Hx Hy Hz. unfold evalRanges, isConstant, isInfinity.
  destruct (rkind a) eqn:Ea, (rkind b) eqn:Eb; simpl; try (by apply gamma_top).
  destruct (bounded_getValue a Ba Ea) as [Hl Hh], (bounded_getValue b Bb Eb) as [Hl' Hh'].
  destruct (Wa Ea) as [Wl Wh], (Wb Eb) as [Wl' Wh'].
  unfold gamma in Hx, Hy. rewrite Ea in Hx. rewrite Eb in Hy.
  set (l1 := sextOrTrunc 64 (getValue (lvalue a))). set (r1 := sextOrTrunc 64 (getValue (rvalue a))).
  set (l2 := sextOrTrunc 64 (getValue (lvalue b))). set (r2 := sextOrTrunc 64 (getValue (rvalue b))).
  assert (Hx' : signed l1 <= x <= signed r1) by (unfold l1, r1; rewrite !signed_sextOrTrunc; done).
  assert (Hy' : signed l2 <= y <= signed r2) by (unfold l2, r2; rewrite !signed_sextOrTrunc; done).
  pose proof (sext64_wf (getValue (lvalue a))) as W1. pose proof (sext64_wf (getValue (rvalue a))) as W2.
  pose proof (sext64_wf (getValue (lvalue b))) as W3. pose proof (sext64_wf (getValue (rvalue b))) as W4.
  destruct op; simpl in Hz; simplify_eq; try done.
  - by eapply evalAdd_sound.
  - by eapply evalSub_sound.
  - by eapply evalMul_sound.
  - destruct (Z.eqb_spec y 0); simplify_eq. eapply evalSDiv_sound; try done.
    unfold l1. rewrite signed_sextOrTrunc by done. by apply Hdiv.
Qed.

Lemma masking_value v :
  masking v = true -> exists c, v = VConstInt c /\ isPowerOf2 (add_z c 1) = true.
Proof. destruct v as [c|]; [|done]. simpl. eauto. Qed.

Lemma mask_shape c :
  wf c -> isPowerOf2 (add_z c 1) = true ->
  exists k, 0 <= k < bw c /\ uv c = 2 ^ k - 1.
Proof.
  intros [Hw Hu] Hp. unfold isPowerOf2 in Hp. apply andb_true_iff in Hp as [Hp1 Hp2].
  apply Z.ltb_lt in Hp1. apply Z.eqb_eq in Hp2. unfold add_z, mk in *; simpl in *.
  destruct (Z.eq_dec (uv c + 1) (2 ^ bw c)) as [He|Hne].
  { rewrite He, Z.mod_same in Hp1 by lia. lia. }
  rewrite Z.mod_small in Hp1, Hp2 by lia.
  set (k := Z.log2 (uv c + 1)) in *. exists k.
  assert (0 <= k) by apply Z.log2_nonneg. split; [|lia]. split; [done|].
  apply (Z.pow_lt_mono_r_iff 2); lia.
Qed.

(** [x & mask] for a mask of low ones, whatever [x]. *)
Lemma land_mask x c k : uv c = 2 ^ k - 1 -> 0 <= k -> 0 <= Z.land x (uv c) <= uv c.
Proof.
  intros Hc Hk. rewrite Hc. replace (2 ^ k - 1) with (Z.ones k) by (rewrite Z.ones_equiv; lia).
  rewrite Z.land_ones by done. rewrite Z.ones_equiv.
  pose proof (Z.mod_pos_bound x (2 ^ k) (pow2_pos k Hk)). lia.
Qed.

(** ** Invariant of the abstract state *)

Definition wf_value (v : value) : Prop := match v with VConstInt c => wf c | _ => True end.

Definition state_bounded (st : gmap value RangeValue) : Prop :=
  forall v r, st !! v = Some r -> bounded r.

Lemma bounded_init : bounded RangeValue_init.
Proof. by intros ?. Qed.

Lemma bounded_inf l r : bounded (RV infinity l r).
Proof. by intros ?. Qed.

Lemma bounded_makeRange l r : wf l -> wf r -> bounded (makeRange l r).
Proof. intros ?? _. by exists l, r. Qed.

Lemma bounded_constRange c : wf c -> bounded (constRange c).
Proof. intros ? _. by exists c, c. Qed.

Lemma state_bounded_insert v r st : bounded r -> state_bounded st -> state_bounded (<[v := r]> st).
Proof. intros Hr Hs k r'. rewrite lookup_insert. case_decide; naive_solver. Qed.

Lemma getRangeFor_bounded v st r st' :
  wf_value v -> state_bounded st -> getRangeFor v st = (r, st') -> bounded r /\ state_bounded st'.
Proof.
  intros Hv Hs. destruct v as [c|p]; simpl.
  - intros [= <- <-]. split; [by apply bounded_constRange|done].
  - unfold at_. destruct (st !! VRef p) eqn:E; intros [= <- <-].
    + split; [eauto|done].
    + split; [apply bounded_init|]. apply state_bounded_insert; [apply bounded_init|done].
Qed.

Lemma setInfinity_bounded v st : state_bounded st -> state_bounded (setInfinity v st).
Proof. intros. apply state_bounded_insert; [apply bounded_inf|done]. Qed.

Lemma candidateRange_bounded w z0 z1 z2 z3 b0 b1 b2 b3 :
  0 < w ->
  bounded (candidateRange (mk w z0, b0) (mk w z1, b1) (mk w z2, b2) (mk w z3, b3)).
Proof.
  intros Hw. unfold candidateRange. case_match; [apply bounded_inf|].
  set (l := [(mk w z0, b0).1; (mk w z1, b1).1; (mk w z2, b2).1; (mk w z3, b3).1]).
  assert (Hl : Forall (fun x => bw x = w) l) by (repeat constructor).
  assert (Hwf : forall x, x ∈ mk w z0 :: l -> wf x).
  { intros x. unfold l; simpl. rewrite !elem_of_cons, elem_of_nil.
    intros [->|[->|[->|[->|[->|[]]]]]]; by apply mk_wf. }
  apply bounded_makeRange; apply Hwf.
  - by apply (proj2 (minCandidate_spec w l (mk w z0) eq_refl Hl)).
  - by apply (proj2 (maxCandidate_spec w l (mk w z0) eq_refl Hl)).
Qed.

Lemma evalRanges_bounded op a b : bounded (evalRanges op a b).
Proof.
  assert (Hmk : forall z, wf (mk 64 z)) by (intros; apply mk_wf; lia).
  unfold evalRanges. case_match.
  - destruct op; try apply bounded_inf.
    + unfold evalAdd. case_match; [apply bounded_inf|]. by apply bounded_makeRange; apply Hmk.
    + unfold evalSub. case_match; [apply bounded_inf|]. by apply bounded_makeRange; apply Hmk.
    + by apply candidateRange_bounded.
    + unfold evalUDiv. case_match; [apply bounded_inf|]. by apply bounded_makeRange; apply Hmk.
    + unfold evalSDiv. case_match.
      * apply bounded_makeRange; [apply mk_wf|].
        -- repeat case_match; simpl; unfold abs_; case_match; simpl; lia.
        -- unfold abs_. repeat case_match; apply Hmk.
      * case_match; [apply bounded_inf|]. by apply candidateRange_bounded.
  - case_match; [apply bounded_inf|apply bounded_init].
Qed.

Section TransferInvariant.
Variable M : IRModule.
Variable DL : DataLayout.
Variable CF : ConstFold.

(** Constants of the module fit their width and are in their unique form, integer
    types have a positive width, and the constant folder returns such constants. *)
Definition wf_module : Prop :=
  (forall v, Forall wf_value (operands M v)) /\
  (forall v w, getType M v = TInt w -> wf_value v -> 0 < w) /\
  (forall op c t c', wf c -> ConstantFoldCastOperand CF op c t = VConstInt c' -> wf c') /\
  (forall p c, m_kind M p <> KConstantInt c).

Hypothesis Hwf : wf_module.

Lemma operands_wf i k x : kindOf M i = KInst k -> x ∈ operandsOf k -> wf_value x.
Proof.
  intros Hk Hx. destruct Hwf as [Ho _]. specialize (Ho i). unfold operands in Ho.
  rewrite Hk in Ho. rewrite Forall_forall in Ho. by apply Ho.
Qed.

Lemma storeWidth_pos v : wf_value v -> 0 < storeWidth M v.
Proof.
  intros Hv. unfold storeWidth. destruct (getType M v) eqn:E; try lia.
  destruct Hwf as (_ & Ht & _). eauto.
Qed.

Lemma evaluateBinOP_bounded op a b st r st' :
  wf_value a -> wf_value b -> state_bounded st ->
  evaluateBinOP op a b st = (r, st') -> bounded r /\ state_bounded st'.
Proof.
  intros Ha Hb Hs. unfold evaluateBinOP.
  destruct (getRangeFor a st) as [r1 st1] eqn:E1.
  destruct (getRangeFor_bounded _ _ _ _ Ha Hs E1) as [B1 S1].
  destruct (getRangeFor b st1) as [r2 st2] eqn:E2.
  destruct (getRangeFor_bounded _ _ _ _ Hb S1 E2) as [B2 S2].
  assert (W1 : wf (APInt 1 0)) by (split; simpl; lia).
  case_match; intros [= <- <-]; (split; [|done]).
  - apply bounded_makeRange; [done|].
    destruct (isConstant r1 && masking a); [destruct a|destruct b]; done.
  - apply evalRanges_bounded.
Qed.

Lemma evaluateCast_bounded op src t st r st' :
  wf_value src -> state_bounded st ->
  evaluateCast CF op src t st = (r, st') -> bounded r /\ state_bounded st'.
Proof.
  intros Hv Hs. unfold evaluateCast. destruct (getRangeFor src st) as [v st1] eqn:E1.
  destruct (getRangeFor_bounded _ _ _ _ Hv Hs E1) as [B1 S1].
  unfold isConstant. destruct (rkind v) eqn:Ek; try (intros [= <- <-]; by split).
  destruct (bounded_getValue v B1 Ek) as [Wl Wr]. destruct Hwf as (_ & _ & Hf & _).
  repeat case_match; intros [= <- <-]; (split; [|done]); try apply bounded_inf.
  intros _. eexists _, _. split_and!; eauto.
Qed.

Lemma handleStore_bounded val ptr t :
  wf_value val -> state_bounded (ranges t) -> state_bounded (ranges (handleStore M val ptr t)).
Proof.
  intros Hv Hs. unfold handleStore. case_match; [|done].
  destruct (getRangeFor val (ranges t)) as [r st] eqn:E1.
  destruct (getRangeFor_bounded _ _ _ _ Hv Hs E1) as [B1 S1].
  pose proof (storeWidth_pos val Hv) as Hw.
  assert (Hp : state_bounded (<[ptr := r]> st)) by (by apply state_bounded_insert).
  assert (Hm : forall z, state_bounded
     (<[ptr := makeRange (mk (storeWidth M val) 0) (mk (storeWidth M val) z)]> (<[ptr := r]> st))).
  { intros z. apply state_bounded_insert; [|done]. by apply bounded_makeRange; apply mk_wf. }
  simpl. repeat case_match; try done; try apply Hm.
  apply state_bounded_insert; [apply bounded_inf|done].
Qed.

Lemma handleLoad_bounded li ptr st : state_bounded st -> state_bounded (handleLoad M li ptr st).
Proof.
  intros Hs. unfold handleLoad. repeat case_match; try by apply setInfinity_bounded.
  apply state_bounded_insert; [eauto|done].
Qed.

Lemma gepOffset_bounded e idxs st total off st' :
  Forall wf_value idxs -> state_bounded st ->
  gepOffset e idxs st total = (off, st') -> state_bounded st'.
Proof.
  intros Hi. revert st total. induction Hi as [|ix rest Hix Hi IH]; intros st total Hs; simpl.
  - by intros [= <- <-].
  - destruct (getRangeFor ix st) as [r st1] eqn:E1.
    destruct (getRangeFor_bounded _ _ _ _ Hix Hs E1) as [_ S1].
    repeat case_match; try (by intros [= <- <-]); eauto.
Qed.

Lemma handleGEP_bounded gep t b idxs st :
  wf_value b -> Forall wf_value idxs -> state_bounded st ->
  state_bounded (handleGEP DL gep t b idxs st).
Proof.
  intros Hb Hi Hs. unfold handleGEP. destruct (getRangeFor b st) as [r st1] eqn:E1.
  destruct (getRangeFor_bounded _ _ _ _ Hb Hs E1) as [_ S1].
  case_match; [by apply setInfinity_bounded|].
  destruct (gepOffset _ _ _ _) as [off st2] eqn:E2.
  pose proof (gepOffset_bounded _ _ _ _ _ _ Hi S1 E2).
  repeat case_match; try by apply setInfinity_bounded.
  apply state_bounded_insert; [|done]. by apply bounded_makeRange; apply mk_wf.
Qed.

Lemma transfer_bounded i t :
  wf_value i -> state_bounded (ranges t) -> state_bounded (ranges (transfer M DL CF i t)).
Proof.
  intros Hi Hs. unfold transfer. destruct (kindOf M i) as [c| | | | | | | | | k|] eqn:Hk;
    try (by apply setInfinity_bounded).
  - apply state_bounded_insert; [|done]. destruct i as [c'|p]; simpl in Hk; simplify_eq.
    + by apply bounded_constRange.
    + destruct Hwf as (_ & _ & _ & Hu). by destruct (Hu p c).
  - assert (Ho : forall x, x ∈ operandsOf k -> wf_value x) by (intros; by eapply operands_wf).
    destruct k; simpl; try (by apply setInfinity_bounded).
    + apply handleLoad_bounded. done.
    + apply handleStore_bounded; [|done]. apply Ho. left.
    + apply handleGEP_bounded; [apply Ho; left| |done].
      rewrite Forall_forall. intros x Hx. apply Ho. by right.
    + match goal with |- context [evaluateCast CF ?op ?s ?t ?st] =>
        assert (Hst : state_bounded st);
          [|destruct (evaluateCast CF op s t st) as [r st1] eqn:E;
            destruct (evaluateCast_bounded op s t st r st1) as [B S]; try done] end.
      * repeat case_match; try done. apply state_bounded_insert; [|done].
        by apply bounded_makeRange; apply mk_wf.
      * apply Ho. left.
      * by apply state_bounded_insert.
    + destruct (evaluateBinOP _ _ _ _) as [r st] eqn:E.
      apply evaluateBinOP_bounded in E as [B S]; try done.
      * by apply state_bounded_insert.
      * apply Ho. left.
      * apply Ho. right. left.
Qed.
End TransferInvariant.

Lemma u64_small z : 0 <= z < two64 -> u64 z = z.
Proof. apply Z.mod_small. Qed.

Lemma u64_bound z : 0 <= u64 z < two64.
Proof. apply Z.mod_pos_bound. reflexivity. Qed.

Lemma sextOrTrunc_id a : wf a -> sextOrTrunc (bw a) a = a.
Proof.
  destruct a as [w u]. intros [Hw Hu]; simpl in *. unfold sextOrTrunc, mk, signed; simpl.
  f_equal. by apply signed_mod.
Qed.

(** Adding one to get a size and subtracting it again is the identity on 64-bit bounds. *)
Lemma allocSize_roundtrip r :
  wf (getValue (rvalue r)) -> bw (getValue (rvalue r)) = 64 ->
  mk 64 (u64 (allocSizeOf r - 1)) = getValue (rvalue r).
Proof.
  intros Hw Hb. unfold allocSizeOf. rewrite <- Hb at 2. rewrite sextOrTrunc_id by done.
  destruct (getValue (rvalue r)) as [w u]; simpl in Hb; subst w. destruct Hw as [_ Hu]; simpl in Hu.
  unfold mk, u64, two64, getZExtValue; simpl uv. f_equal.
  rewrite Zminus_mod_idemp_l, Zmod_mod. replace (u + 1 - 1) with u by lia. by apply Z.mod_small.
Qed.

Lemma gepOffset_u64 e idxs st total off st' :
  0 <= total < two64 -> gepOffset e idxs st total = (Some off, st') -> 0 <= off < two64.
Proof.
  revert st total. induction idxs as [|ix rest IH]; intros st total Ht; simpl.
  - by intros [= <- <-].
  - destruct (getRangeFor ix st) as [r st1]. repeat case_match; try done.
    apply IH, u64_bound.
Qed.

(** ** Properties *)

(** C14: interval arithmetic is sound for signed [add], [sub] and [mul], and for [sdiv] when
    the dividend's range is not a constant one that starts at the least 64-bit integer: if
    the operands lie in their ranges, of at most 64 bits, and the operation is defined on
    them, the exact integer result lies in the range the transfer computes; overflow of a
    bound gives the infinite range.  (For a dividend range from the least integer and a
    divisor range with -1 the transfer can miss quotients.) *)
Theorem evaluateBinOP_sound op a b st r1 st1 r2 st2 x y z :
  getRangeFor a st = (r1, st1) -> getRangeFor b st1 = (r2, st2) ->
  bounded r1 -> bounded r2 -> width_le64 r1 -> width_le64 r2 ->
  (op = BSDiv -> rkind r1 = constant -> smin 64 < signed (getValue (lvalue r1))) ->
  gamma r1 x -> gamma r2 y -> binop_z op x y = Some z ->
  gamma (evaluateBinOP op a b st).1 z.
Proof.
  intros E1 E2 B1 B2 W1 W2 Hd Hx Hy Hz. unfold evaluateBinOP. rewrite E1, E2.
  assert (bool_decide (op = BAnd) = false) as -> by (by destruct op).
  by apply (evalRanges_sound_lemma op r1 r2 x y z).
Qed.

Lemma evaluateBinOP_sound_witness :
  gamma (evaluateBinOP BMul (VRef 1) (VConstInt (mk 32 (-2)))
           {[ VRef 1 := makeRange (mk 32 (-3)) (mk 32 4) ]}).1 (-6).
Proof.
  set (st := {[ VRef 1 := makeRange (mk 32 (-3)) (mk 32 4) ]} : gmap value RangeValue).
  apply (evaluateBinOP_sound BMul (VRef 1) (VConstInt (mk 32 (-2))) st
    (makeRange (mk 32 (-3)) (mk 32 4)) st (constRange (mk 32 (-2))) st 3 (-2) (-6));
    try (vm_compute; reflexivity); try discriminate.
  - apply bounded_makeRange; apply mk_wf; lia.
  - apply bounded_constRange, mk_wf. lia.
  - intros _. vm_compute. split; discriminate.
  - intros _. vm_compute. split; discriminate.
  - vm_compute. split; discriminate.
  - vm_compute. split; discriminate.
Defined.

(** Masking with a constant [2^k - 1] gives the range [0, 2^k - 1] whatever is
    known of the other operand, and every masked value lies in it. *)
Theorem masked_value_in_range a c st x :
  wf c -> masking (VConstInt c) = true -> masking a = false ->
  (evaluateBinOP BAnd a (VConstInt c) st).1 = makeRange (APInt 1 0) c /\
  gamma (evaluateBinOP BAnd a (VConstInt c) st).1 (Z.land x (uv c)).
Proof.
  intros Hc Hm Ha. unfold evaluateBinOP. destruct (getRangeFor a st) as [r1 st1].
  cbn [getRangeFor]. rewrite Ha, Hm, andb_false_r; simpl. split; [done|].
  destruct (mask_shape c Hc Hm) as (k & Hk & Hv).
  rewrite gamma_makeRange. pose proof (land_mask x c k Hv ltac:(lia)).
  rewrite (signed_eq_uv c Hc); [change (signed (APInt 1 0)) with 0; lia|].
  unfold isNegative. apply Z.leb_gt. rewrite Hv.
  assert (2 ^ k <= 2 ^ (bw c - 1)) by (apply Z.pow_le_mono_r; lia). lia.
Qed.

Lemma masked_value_in_range_witness :
  gamma (evaluateBinOP BAnd (VRef 1) (VConstInt (mk 32 15)) ∅).1 (Z.land 1234 15).
Proof.
  apply (masked_value_in_range (VRef 1) (mk 32 15) ∅ 1234); [apply mk_wf; lia|reflexivity..].
Defined.

(** For unsigned division the two quotients are put in the wrong order: the
    lower bound is the largest quotient and the upper bound the smallest, so when
    they differ the computed range is empty and contains no quotient. *)
Theorem udiv_range_inverted a b st r1 st1 r2 st2 z :
  getRangeFor a st = (r1, st1) -> getRangeFor b st1 = (r2, st2) ->
  rkind r1 = constant -> rkind r2 = constant ->
  let l1 := sextOrTrunc 64 (getValue (lvalue r1)) in
  let h1 := sextOrTrunc 64 (getValue (rvalue r1)) in
  let l2 := sextOrTrunc 64 (getValue (lvalue r2)) in
  let h2 := sextOrTrunc 64 (getValue (rvalue r2)) in
  0 < uv l2 -> 0 < uv h2 -> uv h1 <= smax 64 -> uv l1 <= smax 64 ->
  uv l1 / uv h2 < uv h1 / uv l2 ->
  (evaluateBinOP BUDiv a b st).1 = makeRange (mk 64 (uv h1 / uv l2)) (mk 64 (uv l1 / uv h2)) /\
  ~ gamma (evaluateBinOP BUDiv a b st).1 z.
Proof.
  intros E1 E2 K1 K2 l1 h1 l2 h2 Hl2 Hh2 Hh1 Hl1 Hlt.
  assert (He : (evaluateBinOP BUDiv a b st).1 =
    makeRange (mk 64 (uv h1 / uv l2)) (mk 64 (uv l1 / uv h2))).
  { unfold evaluateBinOP. rewrite E1, E2. simpl. unfold evalRanges, isConstant.
    rewrite K1, K2; simpl. unfold evalUDiv, isZero. fold l1 h1 l2 h2.
    rewrite (proj2 (Z.eqb_neq (uv l2) 0)), (proj2 (Z.eqb_neq (uv h2) 0)) by lia. done. }
  split; [done|]. rewrite He, gamma_makeRange.
  destruct (sext64_wf (getValue (lvalue r1))) as [[_ Wl1] _].
  destruct (sext64_wf (getValue (rvalue r1))) as [[_ Wh1] _].
  fold l1 in Wl1. fold h1 in Wh1.
  assert (forall n d, 0 <= n -> n <= smax 64 -> 0 < d -> smin 64 <= n / d <= smax 64) as Hr.
  { intros n d Hn Hm Hd. pose proof (Z.div_pos n d Hn Hd).
    pose proof (Z.div_le_upper_bound n d n Hd ltac:(nia)). unfold smin. lia. }
  rewrite !signed_mk by (try apply Hr; lia). lia.
Qed.

Lemma udiv_range_inverted_witness :
  ~ gamma (evaluateBinOP BUDiv (VRef 1) (VConstInt (mk 32 2))
             {[ VRef 1 := makeRange (mk 32 10) (mk 32 20) ]}).1 7.
Proof.
  set (st := {[ VRef 1 := makeRange (mk 32 10) (mk 32 20) ]} : gmap value RangeValue).
  apply (udiv_range_inverted (VRef 1) (VConstInt (mk 32 2)) st
    (makeRange (mk 32 10) (mk 32 20)) st (constRange (mk 32 2)) st 7);
    vm_compute; (reflexivity || discriminate).
Defined.

(** Storing a value whose constant range [l, r] is recorded in the state to a
    local variable records the range [0, r] for the variable: the lower bound is
    replaced by zero, so the negative values of the stored range are lost. *)
Theorem store_replaces_lower_bound M val ptr t rv :
  isLocalAllocaPointer M ptr = true -> isKnownMallocCall M val = None ->
  val <> ptr -> (forall c, val <> VConstInt c) ->
  ranges t !! val = Some rv -> rkind rv = constant -> bounded rv ->
  getType M val = TInt 64 -> bw (getValue (rvalue rv)) = 64 ->
  ranges (handleStore M val ptr t) !! ptr = Some (makeRange (mk 64 0) (getValue (rvalue rv))) /\
  (forall z, z < 0 -> ~ gamma (makeRange (mk 64 0) (getValue (rvalue rv))) z).
Proof.
  intros Hp Hm Hne Hnc Hv Hk Hb Hty Hbw. split.
  - unfold handleStore. rewrite Hp, Hm.
    assert (getRangeFor val (ranges t) = (rv, ranges t)) as ->.
    { destruct val as [c|]; [by destruct (Hnc c)|]. simpl. unfold at_. by rewrite Hv. }
    simpl. rewrite lookup_insert_ne, Hv by done. unfold isConstant; rewrite Hk.
    rewrite lookup_insert_eq. unfold storeWidth; rewrite Hty. do 2 f_equal.
    destruct (bounded_getValue rv Hb Hk) as [_ Hw]. by apply allocSize_roundtrip.
  - intros z Hz. rewrite gamma_makeRange. vm_compute (signed (mk 64 0)). lia.
Qed.

Lemma store_replaces_lower_bound_witness :
  let M := simpleModule (fun p => match p with 2%positive => KInst (IAlloca (TInt 64) (VConstInt (mk 64 1)))
                                  | _ => KOther end) (fun _ => TInt 64) in
  let t := TS ∅ {[ VRef 1 := makeRange (mk 64 (-5)) (mk 64 3) ]} in
  ranges (handleStore M (VRef 1) (VRef 2) t) !! VRef 2 = Some (makeRange (mk 64 0) (mk 64 3)).
Proof.
  intros M t.
  apply (store_replaces_lower_bound M (VRef 1) (VRef 2) t (makeRange (mk 64 (-5)) (mk 64 3)));
    try (vm_compute; (reflexivity || discriminate)).
  apply bounded_makeRange; apply mk_wf; lia.
Defined.

(** The abstract state never holds a constant range with a missing or
    ill-formed bound, so no null bound is dereferenced: every instruction's
    transfer preserves this, in a module whose constants are well formed. *)
Theorem transfer_keeps_bounds M DL CF i t :
  wf_module M CF -> wf_value i -> state_bounded (ranges t) ->
  state_bounded (ranges (transfer M DL CF i t)).
Proof. intros. by apply transfer_bounded. Qed.

Lemma transfer_keeps_bounds_witness :
  let M := simpleModule (fun p => match p with 2%positive => KInst (IBinary BAdd (VRef 1) (VConstInt (mk 64 1)))
                                  | _ => KOther end) (fun _ => TInt 64) in
  let DL := Build_DataLayout (fun _ => 8) (fun _ => 8) (fun _ _ => 0) (fun _ => 0) in
  let CF := Build_ConstFold (fun _ _ _ => false) (fun _ _ _ => VRef 9) in
  state_bounded (ranges (transfer M DL CF (VRef 2) (TS ∅ {[ VRef 1 := makeRange (mk 64 0) (mk 64 3) ]}))).
Proof.
  intros M DL CF. apply (transfer_keeps_bounds M DL CF (VRef 2)).
  - split_and!.
    + intros [c|p]; [constructor|]. unfold operands; simpl.
      destruct p as [p|p|]; try constructor. destruct p; try constructor; simpl; try constructor.
      * apply mk_wf; lia.
      * constructor.
    + intros [c|p] w; simpl.
      * intros [= <-] [Hc _]. done.
      * intros [= <-] _. lia.
    + intros ? ? ? ? _. simpl. discriminate.
    + intros p c. simpl. repeat case_match; discriminate.
  - done.
  - intros v r. simpl. rewrite lookup_singleton. case_decide; [|discriminate].
    intros [= <-]. apply bounded_makeRange; apply mk_wf; lia.
Defined.

(** A GEP keeps the base pointer's size budget: when the transfer gives it a
    constant range, the byte offset of the indices plus the largest further offset
    plus one is exactly the base's size, so no further in-range offset leaves the base. *)
Theorem gep_stays_in_base DL gep resElt base idxs st b st1 off st2 h :
  getRangeFor base st = (b, st1) -> rkind b = constant ->
  gepOffset (getTypeAllocSize DL resElt) idxs st1 0 = (Some off, st2) ->
  handleGEP DL gep resElt base idxs st !! gep = Some h ->
  rkind h = constant ->
  lvalue h = Some (mk 64 0) /\ off + uv (getValue (rvalue h)) + 1 = allocSizeOf b.
Proof.
  intros E1 Hk E2. unfold handleGEP. rewrite E1. unfold isInfinity, isUnknown. rewrite Hk; simpl.
  rewrite E2. pose proof (gepOffset_u64 _ _ _ 0 _ _ ltac:(vm_compute; split; congruence) E2) as Ho.
  destruct (Z.ltb_spec off (allocSizeOf b)) as [Hlt|Hge].
  - rewrite lookup_insert_eq. intros [= <-] _. split; [done|].
    pose proof (u64_bound (getZExtValue (sextOrTrunc 64 (getValue (rvalue b))) + 1)) as Hb.
    change (u64 _) with (allocSizeOf b) in Hb.
    unfold makeRange; simpl. rewrite u64_small by lia. rewrite Z.mod_small; [lia|].
    unfold two64 in *. lia.
  - unfold setInfinity. rewrite lookup_insert_eq. by intros [= <-].
Qed.

Lemma gep_stays_in_base_witness :
  let DL := Build_DataLayout (fun _ => 4) (fun _ => 4) (fun _ _ => 0) (fun _ => 0) in
  let st := {[ VRef 1 := makeRange (mk 64 0) (mk 64 39) ]} : gmap value RangeValue in
  lvalue (makeRange (mk 64 0) (mk 64 27)) = Some (mk 64 0) /\ 12 + 27 + 1 = 40.
Proof.
  intros DL st.
  apply (gep_stays_in_base DL (VRef 2) (TInt 32) (VRef 1) [VConstInt (mk 64 3)] st
    (makeRange (mk 64 0) (mk 64 39)) st 12 st (makeRange (mk 64 0) (mk 64 27)));
    vm_compute; reflexivity.
Defined.
