(* ===== verification/Dataflow.v ===== *)
(** * The forward dataflow engine ([DataflowAnalysis.h])

    A context-sensitive worklist analysis, generic in the abstract value: the
    policy classes [Meet] and [Transfer] and the static members the engine calls
    are the class [AbstractDomain].  [allResults] is a shared store: the code's
    reference [results] into it is modelled by reading and writing the store at
    (context, function), so the writes of a nested call are seen.  Recursion
    through [analyzeCall] takes a depth argument, the block loop an iteration
    bound; both are shown to be enough. *)
From stdpp Require Import base gmap fin_maps sets list option.
From Stdlib Require Import ZArith Lia.
From S2P Require Import Prelude APInt LLVM RangeDomain RangeTransfer.

(** ** [WorkList] *)
Section WorkListDef.
Context {A : Type} `{Countable A}.

Record WorkList := WL { inList : gset A; work : list A }.

Definition wl_make (l : list A) : WorkList := WL (list_to_set l) l.
Definition wl_empty : WorkList := WL ∅ [].
Definition wl_isEmpty (w : WorkList) : bool := match work w with [] => true | _ => false end.
Definition wl_contains (x : A) (w : WorkList) : bool := bool_decide (x ∈ inList w).
Definition wl_add (x : A) (w : WorkList) : WorkList :=
  if decide (x ∈ inList w) then w else WL (inList w) (work w ++ [x]).
Definition wl_take (w : WorkList) : option (A * WorkList) :=
  match work w with
  | [] => None
  | x :: l => Some (x, WL (inList w ∖ {[x]}) l)
  end.
End WorkListDef.
Arguments WorkList A {_ _}.

(** What the engine asks of an abstract value. *)
Class AbstractDomain (V T : Type) := {
  d_init : V;
  d_meetPair : V -> V -> V;
  d_intersection : V -> V -> V;
  d_eqb : V -> V -> bool;
  d_transfer : value -> T * gmap value V -> T * gmap value V;
  d_condRange : ty -> predicate -> apint -> bool -> bool -> V;
}.

(** Contexts: the last [ContextSize] call sites, null for none. *)
Abbreviation Context := (list (option value)).
Abbreviation ContextFunction := (list (option value) * value)%type.

Section Engine.
Variable M : IRModule.
Context {V T : Type} `{D : AbstractDomain V T}.
(** [ReversePostOrderTraversal] of a function's blocks. *)
Variable rpo : value -> list value.
(** The command-line switch [-use-pc]. *)
Variable UsePC : bool.

Abbreviation State := (gmap value V).
Abbreviation FunctionResults := (gmap value (gmap value V)).

Definition dmeet (l : list V) : V := Meet_apply d_init d_meetPair l.

(** [operator==] on abstract states, for any equality of the mapped values. *)
Definition map_eqb {B : Type} (eqb : B -> B -> bool) (s1 s2 : gmap value B) : bool :=
  bool_decide (size s1 = size s2) &&
  forallb (fun kv => match s2 !! kv.1 with Some b => eqb b kv.2 | None => false end) (map_to_list s1).
Definition state_eqb : State -> State -> bool := map_eqb d_eqb.
Definition results_eqb : FunctionResults -> FunctionResults -> bool := map_eqb state_eqb.

(** [getIncomingState]: the key whose state holds before instruction [i]. *)
Definition incomingKey (i : value) : value :=
  let bb := getParent M i in
  if decide (head (insts M bb) = Some i) then bb else default bb (getPrevNode M i).
Definition getIncomingState (result : FunctionResults) (i : value) : State :=
  default ∅ (result !! incomingKey i).

(** [mergeInState]: keys of both are met; with [balanced], keys of one only become unknown. *)
Definition mergeInState (destination toMerge : State) (balanced : bool) : State :=
  merge (fun d t =>
    match d, t with
    | Some a, Some b => Some (dmeet [a; b])
    | Some a, None => Some (if balanced then d_init else a)
    | None, Some b => Some (if balanced then d_init else b)
    | None, None => None
    end) destination toMerge.

Fixpoint mergePreds (preds : list value) (i : nat) (state : State) (results : FunctionResults) : State :=
  match preds with
  | [] => state
  | p :: rest =>
    mergePreds rest (S i)
      (mergeInState state (default ∅ (results !! getTerminator M p)) (negb (Nat.eqb i 0))) results
  end.

Definition mergeStateFromPredecessors (mergedState : State) (bb : value) (results : FunctionResults) : State :=
  let mergedState := mergeInState mergedState (default ∅ (results !! bb)) false in
  mergeInState mergedState (mergePreds (predecessors M bb) 0 ∅ results) false.

(** [BasicBlock::getSinglePredecessor] *)
Definition getSinglePredecessor (bb : value) : option value :=
  match predecessors M bb with [p] => Some p | _ => None end.

(** The constant and the variable operand of a comparison, and whether the variable is first. *)
Definition splitOperands (op0 op1 : value) : option (value * value * bool) :=
  if isConstant_ M op0 && negb (isConstant_ M op1) then Some (op0, op1, false)
  else if isConstant_ M op1 && negb (isConstant_ M op0) then Some (op1, op0, true)
  else None.

Definition constrainValuesByCondition (state : State) (bb : value) : State :=
  match getSinglePredecessor bb with
  | Some pred =>
    match kindOf M (getTerminator M pred) with
    | KInst (IBr (Some cond) succs) =>
      match kindOf M cond with
      | KInst (IICmp p op0 op1) =>
        let isTrueBranch := bool_decide (head succs = Some bb) in
        match splitOperands op0 op1 with
        | Some (VConstInt c, variableOp, isVariableOpFirst) =>
          let r := d_condRange (getType M op0) p c isTrueBranch isVariableOpFirst in
          let state := <[variableOp := r]> state in
          match kindOf M variableOp with
          | KInst (ILoad ptr) =>
            if isAllocaInst M (stripPointerCasts M ptr) then <[ptr := r]> state else state
          | _ => state
          end
        | _ => state
        end
      | _ => state
      end
    | _ => state
    end
  | None => state
  end.

(** Intersect the merged entry state with the branch constraints. *)
Definition applyConstraints (state constrained : State) : State :=
  merge (fun s c =>
    match s, c with
    | Some a, Some b => Some (d_intersection a b)
    | Some a, None => Some a
    | None, Some b => Some b
    | None, None => None
    end) state constrained.

(** Engine state *)
Record Eng := ENG {
  allResults : gmap ContextFunction FunctionResults;
  contextWork : WorkList ContextFunction;
  callers : gmap ContextFunction (gset ContextFunction);
  active : gset ContextFunction;
  tst : T;
}.

Definition set_results (r : gmap ContextFunction FunctionResults) (e : Eng) : Eng :=
  ENG r (contextWork e) (callers e) (active e) (tst e).
Definition set_work (w : WorkList ContextFunction) (e : Eng) : Eng :=
  ENG (allResults e) w (callers e) (active e) (tst e).
Definition set_callers (c : gmap ContextFunction (gset ContextFunction)) (e : Eng) : Eng :=
  ENG (allResults e) (contextWork e) c (active e) (tst e).
Definition set_active (a : gset ContextFunction) (e : Eng) : Eng :=
  ENG (allResults e) (contextWork e) (callers e) a (tst e).
Definition set_tst (t : T) (e : Eng) : Eng :=
  ENG (allResults e) (contextWork e) (callers e) (active e) t.

Definition resultsAt (e : Eng) (cf : ContextFunction) : FunctionResults :=
  default ∅ (allResults e !! cf).
Definition stateAt (e : Eng) (cf : ContextFunction) (k : value) : State :=
  default ∅ (resultsAt e cf !! k).
Definition setState (cf : ContextFunction) (k : value) (s : State) (e : Eng) : Eng :=
  set_results (<[cf := <[k := s]> (resultsAt e cf)]> (allResults e)) e.

Definition isAnalyzableCall (cs : value) : bool :=
  isCallBase M cs &&
  match getCalledFunction M cs with
  | Some f => negb (isDeclaration M f)
  | None => false
  end.

Definition newContextOf (context : Context) (cs : value) : Context :=
  match context with [] => [] | _ :: rest => rest ++ [Some cs] end.

(** [state.find(v)], running the transfer on [v] when it is missing. *)
Definition findOrTransfer (v : value) (t : T) (state : State) : V * T * State :=
  match state !! v with
  | Some a => (a, t, state)
  | None => let '(t, state) := d_transfer v (t, state) in
            (default d_init (state !! v), t, state)
  end.

(** The argument loop of [analyzeCall]. *)
Fixpoint passArgs (formals actuals : list value) (t : T) (state summary : State) (needsUpdate : bool)
    : T * State * State * bool :=
  match formals, actuals with
  | f :: formals, a :: actuals =>
    let '(passed, t, state) := findOrTransfer a t state in
    let arg := default d_init (summary !! f) in
    let newState := dmeet [passed; arg] in
    passArgs formals actuals t state (<[f := newState]> summary)
      (needsUpdate || negb (d_eqb newState arg))
  | _, _ => (t, state, summary, needsUpdate)
  end.

(** [analyzeCall]; [rec] is [computeForwardDataflow(callee, newContext)]. *)
Definition analyzeCall (rec : value -> Context -> Eng -> option Eng)
    (cs : value) (callee : value) (state : State) (context : Context) (e : Eng) : option (State * Eng) :=
  let newContext := newContextOf context cs in
  let caller := getFunction M cs in
  let toCall := (newContext, callee) in
  let toUpdate := (context, caller) in
  let summaryState := stateAt e toCall callee in
  let '(t, state, summary, needsUpdate) :=
    passArgs (fargs M callee) (callArgs M cs) (tst e) state summaryState
      (bool_decide (size summaryState = 0)) in
  let e := setState toCall callee summary (set_tst t e) in
  e ← (if negb (bool_decide (toCall ∈ active e)) && needsUpdate
       then rec callee newContext e else Some e);
  let ret := default d_init (stateAt e toCall callee !! callee) in
  let e := setState toCall callee (<[callee := ret]> (stateAt e toCall callee)) e in
  Some (<[cs := ret]> state,
        set_callers (<[toCall := {[toUpdate]} ∪ default ∅ (callers e !! toCall)]> (callers e)) e).

(** [meetOverPHI] *)
Fixpoint meetOverPHI (incoming : list value) (phiValue : V) (t : T) (state : State) : V * T * State :=
  match incoming with
  | [] => (phiValue, t, state)
  | v :: rest =>
    let '(found, t, state) := findOrTransfer v t state in
    meetOverPHI rest (dmeet [phiValue; found]) t state
  end.

(** [applyTransfer] *)
Definition applyTransfer (i : value) (t : T) (state : State) : T * State :=
  match kindOf M i with
  | KInst (IPhi incoming) =>
    let '(r, t, state) := meetOverPHI incoming d_init t state in (t, <[i := r]> state)
  | _ => d_transfer i (t, state)
  end.

(** Copy what the next instruction reads into [results[i]]. *)
Definition saveForNext (st : State) (next : value) (old : State) : State :=
  let copy k acc := match st !! k with Some a => <[k := a]> acc | None => acc end in
  fold_left (fun acc op => copy op acc) (operands M next) (copy next old).

(** Propagation through the instructions of a block. *)
Fixpoint runInsts (rec : value -> Context -> Eng -> option Eng) (cf : ContextFunction) (bb : value)
    (l : list value) (state : State) (e : Eng) : option (State * Eng) :=
  match l with
  | [] => Some (state, e)
  | i :: rest =>
    '(state, e) ←
      (if isAnalyzableCall i
       then match getCalledFunction M i with
            | Some callee => analyzeCall rec i callee state cf.1 e
            | None => None
            end
       else let '(t, state) := applyTransfer i (tst e) state in Some (state, set_tst t e));
    let e :=
      if decide (i = getTerminator M bb) then setState cf i state e
      else match head rest with
           | Some next => setState cf i (saveForNext state next (stateAt e cf i)) e
           | None => e
           end in
    runInsts rec cf bb rest state e
  end.

(** Requeue the successors of a changed block, at most 101 times each. *)
Fixpoint addSuccessors (ss : list value) (blackmap : gmap value Z) (w : WorkList value)
    : gmap value Z * WorkList value :=
  match ss with
  | [] => (blackmap, w)
  | s :: rest =>
    let c := default 0%Z (blackmap !! s) in
    if (100 <? c)%Z then (<[s := c]> blackmap, w)
    else addSuccessors rest (<[s := (c + 1)%Z]> blackmap) (wl_add s w)
  end.

(** The entry state computed for a block. *)
Definition entryState (e : Eng) (cf : ContextFunction) (bb : value) : State :=
  let state := mergeStateFromPredecessors ∅ bb (resultsAt e cf) in
  let state := mergeInState state (stateAt e cf cf.2) false in
  if UsePC then applyConstraints state (constrainValuesByCondition ∅ bb) else state.

(** One iteration of the block loop on the taken block. *)
Definition processBlock (rec : value -> Context -> Eng -> option Eng) (cf : ContextFunction) (bb : value)
    (blackmap : gmap value Z) (w : WorkList value) (e : Eng)
    : option (gmap value Z * WorkList value * Eng) :=
  let oldExitState := stateAt e cf (getTerminator M bb) in
  let state := entryState e cf bb in
  let e := setState cf cf.2 (stateAt e cf cf.2) e in
  if state_eqb state (stateAt e cf bb) && negb (bool_decide (state = ∅)) then Some (blackmap, w, e)
  else
    let e := setState cf bb state e in
    '(state, e) ← runInsts rec cf bb (insts M bb) state e;
    if state_eqb state oldExitState then Some (blackmap, w, e)
    else
      let '(blackmap, w) := addSuccessors (successors M bb) blackmap w in
      let e :=
        match kindOf M (getTerminator M bb) with
        | KInst (IRet rv) =>
          let summary := stateAt e cf cf.2 in
          let old := default d_init (summary !! cf.2) in
          let v := match rv with Some x => default d_init (state !! x) | None => d_init end in
          setState cf cf.2 (<[cf.2 := dmeet [old; v]]> summary) e
        | _ => e
        end in
      Some (blackmap, w, e).

Fixpoint blockLoop (rec : value -> Context -> Eng -> option Eng) (fuel : nat) (cf : ContextFunction)
    (blackmap : gmap value Z) (w : WorkList value) (e : Eng) : option Eng :=
  match fuel with
  | O => None
  | S n =>
    match wl_take w with
    | None => Some e
    | Some (bb, w) =>
      '(blackmap, w, e) ← processBlock rec cf bb blackmap w e;
      blockLoop rec n cf blackmap w e
    end
  end.

(** Iterations the block loop can need: every block once, plus 101 requeues of each. *)
Definition loopFuel (f : value) : nat :=
  S (length (rpo f) + 101 * length (blocks M f)).

(** The first part of [computeForwardDataflow]: create the missing states. *)
Definition initResults (f : value) (r : FunctionResults) : FunctionResults :=
  match r !! f with
  | Some _ => r
  | None => fold_left (fun r k => match r !! k with Some _ => r | None => <[k := ∅]> r end)
              (blocks M f ++ instructions M f) r
  end.

(** [computeForwardDataflow(f, context)] *)
Fixpoint computeForwardDataflow (depth : nat) (f : value) (context : Context) (e : Eng) : option Eng :=
  match depth with
  | O => None
  | S n =>
    let cf := (context, f) in
    let e := set_active ({[cf]} ∪ active e) e in
    let e := set_results (<[cf := initResults f (resultsAt e cf)]> (allResults e)) e in
    let w := wl_make (rpo f) in
    let blackmap := list_to_map ((fun b => (b, 0%Z)) <$> rpo f) in
    e ← blockLoop (computeForwardDataflow n) (loopFuel f) cf blackmap w e;
    (* [oldResults] and [results] name the same entry of [allResults] *)
    let oldResults := resultsAt e cf in
    let results := resultsAt e cf in
    let e :=
      if results_eqb oldResults results then e
      else set_work (set_fold wl_add (contextWork e) (default ∅ (callers e !! cf))) e in
    Some (set_active (active e ∖ {[cf]}) e)
  end.

(** The constructor, and the outer loop over (context, function) pairs. *)
Definition initEngine (ctx0 : Context) (entryPoints : list value) (t : T) : Eng :=
  ENG ∅ (fold_left (fun w f => wl_add (ctx0, f) w) entryPoints wl_empty) ∅ ∅ t.

Fixpoint computeAll (fuel depth : nat) (e : Eng) : option Eng :=
  match fuel with
  | O => None
  | S n =>
    match wl_take (contextWork e) with
    | None => Some e
    | Some ((context, f), w) =>
      e ← computeForwardDataflow depth f context (set_work w e);
      computeAll n depth e
    end
  end.

End Engine.
Arguments Eng V T : clear implicits.

(** ** Lemmas: equality of states is reflexive *)
Lemma map_eqb_refl {B : Type} (eqb : B -> B -> bool) (s : gmap value B) :
  (forall b, eqb b b = true) -> map_eqb eqb s s = true.
Proof.
  intros Hr. unfold map_eqb. rewrite bool_decide_eq_true_2 by done. simpl.
  apply forallb_forall. intros [k b] Hin.
  apply list_elem_of_In, elem_of_map_to_list in Hin. simpl. by rewrite Hin.
Qed.

(** ** Termination of the block loop *)
Section LoopMeasure.
Variable M : IRModule.

(** How often the blocks of [bs] may still be requeued. *)
Definition budget (bm : gmap value Z) (bs : list value) : nat :=
  list_sum ((fun b => Z.to_nat (101 - default 0%Z (bm !! b))) <$> bs).

Lemma budget_cons bm b bs :
  budget bm (b :: bs) = Z.to_nat (101 - default 0%Z (bm !! b)) + budget bm bs.
Proof. done. Qed.

Lemma budget_insert_le bm bs s c :
  (default 0 (bm !! s) <= c)%Z -> budget (<[s := c]> bm) bs <= budget bm bs.
Proof.
  intros Hc. induction bs as [|b bs IH]; [done|]. rewrite !budget_cons.
  destruct (decide (b = s)) as [->|]; [rewrite lookup_insert_eq; cbn [from_option id]; lia|].
  rewrite lookup_insert_ne by done. lia.
Qed.

Lemma budget_insert_lt bm bs s :
  s ∈ bs -> (default 0 (bm !! s) <= 100)%Z ->
  budget (<[s := (default 0 (bm !! s) + 1)%Z]> bm) bs < budget bm bs.
Proof.
  intros Hs Hc. induction bs as [|b bs IH]; [set_solver|].
  assert (budget (<[s := (default 0 (bm !! s) + 1)%Z]> bm) bs <= budget bm bs) as Hle
    by (apply budget_insert_le, Z.le_succ_diag_r).
  rewrite !budget_cons.
  destruct (decide (b = s)) as [->|Hne].
  { rewrite lookup_insert_eq. revert Hle. generalize dependent (default 0%Z (bm !! s)).
    intros d Hd Hle. cbn [from_option id]. lia. }
  rewrite lookup_insert_ne by done.
  apply elem_of_cons in Hs as [->|Hs]; [done|]. specialize (IH Hs). lia.
Qed.

Lemma budget_le bm bs :
  (forall b c, bm !! b = Some c -> (0 <= c)%Z) -> budget bm bs <= 101 * length bs.
Proof.
  intros Hnn. induction bs as [|b bs IH]; [unfold budget; simpl; lia|]. rewrite budget_cons.
  enough (0 <= default 0 (bm !! b))%Z by (simpl; lia).
  destruct (bm !! b) eqn:E; cbn [from_option id]; [by eapply Hnn|lia].
Qed.

Lemma addSuccessors_budget bs ss bm w bm' w' :
  addSuccessors ss bm w = (bm', w') -> Forall (.∈ bs) ss -> Forall (.∈ bs) (work w) ->
  Forall (.∈ bs) (work w') /\ length (work w') + budget bm' bs <= length (work w) + budget bm bs.
Proof.
  revert bm w. induction ss as [|s ss IH]; intros bm w Hadd Hss Hw; simpl in Hadd; [by simplify_eq|].
  pose proof (Forall_inv Hss) as Hs. apply Forall_inv_tail in Hss. simpl in Hs.
  destruct (Z.ltb_spec 100 (default 0%Z (bm !! s))) as [Hlt|Hge].
  - simplify_eq. split; [done|].
    pose proof (budget_insert_le bm bs s _ (Z.le_refl (default 0%Z (bm !! s)))). lia.
  - pose proof (budget_insert_lt bm bs s Hs Hge) as Hlt.
    assert (Forall (.∈ bs) (work (wl_add s w)) /\ length (work (wl_add s w)) <= S (length (work w)))
      as [Hw' Hlen].
    { unfold wl_add. case_decide; simpl; [split; [done|lia]|].
      rewrite Forall_app, Forall_singleton, length_app. simpl. split; [done|lia]. }
    destruct (IH _ _ Hadd Hss Hw') as [? ?]. split; [done|lia].
Qed.

End LoopMeasure.

(** ** The nested analyses end *)
Section Termination.
Variable M : IRModule.
Context {V T : Type} `{D : AbstractDomain V T}.
Variable rpo : value -> list value.
Variable UsePC : bool.

(** [U] is closed under calls: it holds every (context, callee) a member can ask for. *)
Definition calls_closed (U : gset ContextFunction) : Prop :=
  forall ctx f bb i g, (ctx, f) ∈ U -> bb ∈ blocks M f -> i ∈ insts M bb ->
    isAnalyzableCall M i = true -> getCalledFunction M i = Some g -> (newContextOf ctx i, g) ∈ U.

(** The traversal order lists blocks of the function, and branches stay inside it. *)
Definition cfg_closed (f : value) : Prop :=
  (forall b, b ∈ rpo f -> b ∈ blocks M f) /\
  (forall b s, b ∈ blocks M f -> s ∈ successors M b -> s ∈ blocks M f).

(** Nothing is left active, and no context is queued. *)
Definition quiet (e e' : Eng V T) : Prop :=
  active e' = active e /\ contextWork e' = contextWork e.

Context (U : gset ContextFunction).
Hypothesis HU : calls_closed U.
Hypothesis Hcfg : forall ctx f, (ctx, f) ∈ U -> cfg_closed f.
Hypothesis Heqb : forall v : V, d_eqb v v = true.

Lemma results_eqb_refl r : results_eqb r r = true.
Proof. apply map_eqb_refl. intros s. by apply map_eqb_refl. Qed.

Lemma quiet_trans e1 e2 e3 : quiet e1 e2 -> quiet e2 e3 -> quiet e1 e3.
Proof. intros [??] [??]; split; congruence. Qed.

(** A nested analysis started while [A] is active returns and restores it. *)
Definition rec_ok (A : gset ContextFunction) (rec : value -> Context -> Eng V T -> option (Eng V T)) : Prop :=
  forall ctx f e, (ctx, f) ∈ U -> (ctx, f) ∉ A -> active e = A ->
    exists e', rec f ctx e = Some e' /\ quiet e e'.

Section Body.
Context (A : gset ContextFunction) (rec : value -> Context -> Eng V T -> option (Eng V T)).
Hypothesis Hrec : rec_ok A rec.

Lemma analyzeCall_ok i g st ctx e :
  (newContextOf ctx i, g) ∈ U -> active e = A ->
  exists st' e', analyzeCall M rec i g st ctx e = Some (st', e') /\ quiet e e'.
Proof.
  intros Hin HA. unfold analyzeCall.
  destruct (passArgs _ _ _ _ _ _) as [[[t st1] summary] upd].
  set (e1 := setState _ g summary _).
  assert (quiet e e1) as Hq1 by done.
  destruct (negb _ && upd) eqn:Hgo; simpl; [|by do 2 eexists].
  bool_prop. destruct (Hrec (newContextOf ctx i) g e1 Hin) as (e2 & -> & Hq2);
    [by rewrite <-HA | done |].
  simpl. do 2 eexists. split; [reflexivity|]. exact (quiet_trans _ _ _ Hq1 Hq2).
Qed.

Lemma runInsts_ok cf bb l st e :
  cf ∈ U -> bb ∈ blocks M cf.2 -> Forall (.∈ insts M bb) l -> active e = A ->
  exists st' e', runInsts M rec cf bb l st e = Some (st', e') /\ quiet e e'.
Proof.
  intros Hcf Hbb. revert st e. induction l as [|i l IH]; intros st e Hl HA; simpl.
  { by do 2 eexists. }
  pose proof (Forall_inv Hl) as Hi. apply Forall_inv_tail in Hl. simpl in Hi.
  assert (exists st1 e1,
    (if isAnalyzableCall M i
     then match getCalledFunction M i with
          | Some callee => analyzeCall M rec i callee st cf.1 e
          | None => None
          end
     else let '(t, state) := applyTransfer M i (tst e) st in Some (state, set_tst t e)) = Some (st1, e1)
    /\ quiet e e1) as (st1 & e1 & -> & Hq1).
  { destruct (isAnalyzableCall M i) eqn:Hcall.
    - destruct (getCalledFunction M i) as [g|] eqn:Hg.
      + apply analyzeCall_ok; [|done]. destruct cf as [ctx f]. by eapply HU.
      + exfalso. revert Hcall. unfold isAnalyzableCall. rewrite Hg, andb_false_r. done.
    - destruct (applyTransfer M i (tst e) st). by do 2 eexists. }
  simpl. set (e2 := if decide _ then _ else _).
  assert (quiet e1 e2) as Hq2 by (unfold e2; repeat case_match; done).
  pose proof (quiet_trans _ _ _ Hq1 Hq2) as Hq.
  destruct (IH st1 e2 Hl) as (st3 & e3 & -> & Hq3); [by rewrite (proj1 Hq)|].
  do 2 eexists. split; [done|]. by eapply quiet_trans.
Qed.

Lemma processBlock_ok cf bb bm w e :
  cf ∈ U -> bb ∈ blocks M cf.2 -> active e = A -> Forall (.∈ blocks M cf.2) (work w) ->
  exists bm' w' e', processBlock M UsePC rec cf bb bm w e = Some (bm', w', e') /\ quiet e e' /\
    Forall (.∈ blocks M cf.2) (work w') /\
    length (work w') + budget bm' (blocks M cf.2) <= length (work w) + budget bm (blocks M cf.2).
Proof.
  intros Hcf Hbb HA Hw. unfold processBlock.
  destruct (_ && _); [do 3 eexists; split; [reflexivity|done]|].
  edestruct (runInsts_ok cf bb (insts M bb)) as (st1 & e1 & -> & Hq1);
    [exact Hcf | exact Hbb | apply Forall_elem; auto | exact HA |]. simpl.
  destruct (state_eqb _ _); [do 3 eexists; split; [reflexivity|done]|].
  destruct (addSuccessors _ _ _) as [bm' w'] eqn:Hadd.
  destruct cf as [ctx f]. destruct (Hcfg _ _ Hcf) as [_ Hsucc].
  destruct (addSuccessors_budget (blocks M f) _ _ _ _ _ Hadd) as [Hw' Hm]; [|done|].
  { apply Forall_elem. eauto. }
  do 3 eexists. split; [reflexivity|]. split; [|done].
  eapply quiet_trans; [exact Hq1|]. repeat case_match; done.
Qed.

Lemma blockLoop_ok fuel cf bm w e :
  cf ∈ U -> active e = A -> Forall (.∈ blocks M cf.2) (work w) ->
  length (work w) + budget bm (blocks M cf.2) < fuel ->
  exists e', blockLoop M UsePC rec fuel cf bm w e = Some e' /\ quiet e e'.
Proof.
  intros Hcf. revert bm w e. induction fuel as [|n IH]; intros bm w e HA Hw Hf; [lia|]. simpl.
  unfold wl_take. destruct (work w) as [|bb l] eqn:Ew; [by eexists|].
  pose proof (Forall_inv Hw) as Hbb. apply Forall_inv_tail in Hw.
  edestruct (processBlock_ok cf bb bm (WL (inList w ∖ {[bb]}) l) e)
    as (bm' & w' & e1 & -> & Hq & Hw' & Hm); [done..|]. simpl in *.
  destruct (IH bm' w' e1) as (e2 & -> & Hq2); [by rewrite (proj1 Hq)|done|lia|].
  eexists. split; [done|]. by eapply quiet_trans.
Qed.

End Body.

Lemma budget_initial (l bs : list value) :
  budget (list_to_map ((fun b => (b, 0%Z)) <$> l)) bs <= 101 * length bs.
Proof.
  apply budget_le. intros b c Hb. apply elem_of_list_to_map_2 in Hb.
  apply list_elem_of_fmap in Hb as (? & ? & _). by simplify_eq.
Qed.

(** A nested analysis ends when the depth covers the inactive members of [U]. *)
Lemma computeForwardDataflow_ok depth A :
  size (U ∖ A) <= depth -> rec_ok A (computeForwardDataflow M rpo UsePC depth).
Proof.
  revert A. induction depth as [|n IH]; intros A Hsz ctx f e Hcf HnA HA.
  { assert ((ctx, f) ∈ U ∖ A) as Hin by set_solver.
    assert (size (U ∖ A) ≠ 0) by (apply size_non_empty_iff; set_solver). lia. }
  cbn [computeForwardDataflow]. pose proof (size_difference_insert U A (ctx, f) Hcf HnA) as Hdec.
  assert (rec_ok ({[(ctx, f)]} ∪ A) (computeForwardDataflow M rpo UsePC n)) as Hrec
    by (apply IH; lia).
  pose proof (budget_initial (rpo f) (blocks M f)) as Hb.
  destruct (Hcfg _ _ Hcf) as [Hrpo _].
  match goal with |- context [blockLoop _ _ _ _ _ ?bm ?w ?e] =>
    destruct (blockLoop_ok _ _ Hrec (loopFuel M rpo f) (ctx, f) bm w e) as (e1 & -> & Hq1) end.
  { done. }
  { simpl. by rewrite HA. }
  { apply Forall_elem. exact Hrpo. }
  { unfold loopFuel. simpl. lia. }
  cbn [mbind option_bind]. rewrite results_eqb_refl.
  eexists. split; [reflexivity|]. destruct Hq1 as [Ha1 Hw1]. simpl in *.
  split; simpl; [rewrite Ha1; set_solver | done].
Qed.

(** The outer loop takes each queued pair once. *)
Lemma computeAll_ok fuel depth e :
  active e = ∅ -> size U <= depth -> Forall (.∈ U) (work (contextWork e)) ->
  length (work (contextWork e)) < fuel ->
  exists e', computeAll M rpo UsePC fuel depth e = Some e' /\
    work (contextWork e') = [] /\ active e' = ∅.
Proof.
  revert e. induction fuel as [|n IH]; intros e HA Hd Hw Hf; [lia|]. simpl.
  unfold wl_take. destruct (work (contextWork e)) as [|[ctx f] l] eqn:Ew; [by eexists|].
  pose proof (Forall_inv Hw) as Hin. apply Forall_inv_tail in Hw.
  edestruct (computeForwardDataflow_ok depth ∅) as (e1 & -> & Ha1 & Hw1);
    [by rewrite difference_empty_L | exact Hin | set_solver | exact HA |].
  simpl in *. apply IH; rewrite ?Hw1; simpl; [by rewrite Ha1|done|done|lia].
Qed.

End Termination.

(** ** All (context, function) pairs of a module, for contexts of one call site *)
Section Universe.
Variable M : IRModule.
Variable rpo : value -> list value.

Definition allContexts : list Context :=
  [None] :: ((fun i => [Some i]) <$> (functions M ≫= instructions M)).

Definition universe : gset ContextFunction :=
  list_to_set (allContexts ≫= fun c => (fun f => (c, f)) <$> functions M).

(** Called functions are functions of the module and every function's blocks are closed. *)
Definition module_closed : Prop :=
  (forall i g, getCalledFunction M i = Some g -> g ∈ functions M) /\
  (forall f, f ∈ functions M -> cfg_closed M rpo f).

Lemma elem_of_universe c f : (c, f) ∈ universe <-> c ∈ allContexts /\ f ∈ functions M.
Proof.
  unfold universe. rewrite elem_of_list_to_set, list_elem_of_bind. split.
  - intros (c' & Hin & Hc). apply list_elem_of_fmap in Hin as (f' & Heq & Hf). by simplify_eq.
  - intros [Hc Hf]. exists c. split; [|done]. apply list_elem_of_fmap. by exists f.
Qed.

Lemma universe_closed : module_closed -> calls_closed M universe.
Proof.
  intros [Hcall _] ctx f bb i g HU Hbb Hi _ Hg.
  apply elem_of_universe in HU as [Hc Hf]. apply elem_of_universe. split; [|by eapply Hcall].
  assert (newContextOf ctx i = [Some i]) as ->.
  { unfold allContexts in Hc. apply elem_of_cons in Hc as [->|Hc]; [done|].
    by apply list_elem_of_fmap in Hc as (? & -> & _). }
  unfold allContexts. apply elem_of_cons. right. apply list_elem_of_fmap. exists i. split; [done|].
  apply list_elem_of_bind. exists f. split; [|done]. unfold instructions.
  apply list_elem_of_join. exists (insts M bb). split; [done|].
  apply list_elem_of_fmap. by exists bb.
Qed.

Lemma universe_cfg : module_closed -> forall ctx f, (ctx, f) ∈ universe -> cfg_closed M rpo f.
Proof. intros [_ Hcfg] ctx f [_ Hf]%elem_of_universe. by apply Hcfg. Qed.

End Universe.

(** ** Invariants of the stored states *)
Section Invariant.
Variable M : IRModule.
Context {V T : Type} `{D : AbstractDomain V T}.
Variable rpo : value -> list value.
Variable UsePC : bool.

(** [good] holds of the initial value and every operation of the domain keeps it. *)
Class GoodDomain (good : V -> Prop) := {
  good_init : good d_init;
  good_meetPair : forall a b, good a -> good b -> good (d_meetPair a b);
  good_inter : forall a b, good a -> good b -> good (d_intersection a b);
  good_transfer : forall i t (s : gmap value V),
    (isInstruction M i = true \/ exists j, isInstruction M j = true /\ i ∈ operands M j) ->
    map_Forall (fun _ => good) s -> map_Forall (fun _ => good) (d_transfer i (t, s)).2;
  good_cond : forall cmp op0 op1 p c b1 b2, kindOf M cmp = KInst (IICmp p op0 op1) ->
    VConstInt c ∈ [op0; op1] -> good (d_condRange (getType M op0) p c b1 b2);
}.

Context (good : V -> Prop) `{GD : GoodDomain good}.

Abbreviation good_state := (map_Forall (fun _ : value => good)).
Definition good_eng (e : Eng V T) : Prop :=
  forall cf r k s, allResults e !! cf = Some r -> r !! k = Some s -> good_state s.

(** An operand of an instruction, or an instruction. *)
Definition in_code (i : value) : Prop :=
  isInstruction M i = true \/ exists j, isInstruction M j = true /\ i ∈ operands M j.

Lemma init_good : good d_init.
Proof. apply good_init. Qed.

Lemma meetPair_good a b : good a -> good b -> good (d_meetPair a b).
Proof. apply good_meetPair. Qed.

Lemma inter_good a b : good a -> good b -> good (d_intersection a b).
Proof. apply good_inter. Qed.

Lemma dmeet_good l : Forall good l -> good (dmeet l).
Proof.
  unfold dmeet, Meet_apply. assert (good d_init) as Hi by apply init_good. revert Hi.
  generalize d_init. induction l as [|a l IH]; intros v Hv Hl; simpl; [done|].
  pose proof (Forall_inv Hl). apply Forall_inv_tail in Hl. apply IH; [|done]. by apply meetPair_good.
Qed.

Lemma dmeet2_good a b : good a -> good b -> good (dmeet [a; b]).
Proof. intros. apply dmeet_good. by repeat constructor. Qed.

Lemma default_good (s : gmap value V) k : good_state s -> good (default d_init (s !! k)).
Proof. intros Hs. destruct (s !! k) eqn:E; simpl; [by eapply Hs|apply init_good]. Qed.

Lemma mergeInState_good d t b : good_state d -> good_state t -> good_state (mergeInState d t b).
Proof.
  intros Hd Ht k v. unfold mergeInState. rewrite lookup_merge. unfold diag_None.
  destruct (d !! k) eqn:Ed, (t !! k) eqn:Et; intros [= <-]; try (destruct b);
    eauto using dmeet2_good, init_good.
Qed.

Lemma stateAt_good e cf k : good_eng e -> good_state (stateAt e cf k).
Proof.
  intros He. unfold stateAt, resultsAt. destruct (allResults e !! cf) as [r|] eqn:Er; simpl.
  - destruct (r !! k) eqn:Ek; simpl; [by eapply He|apply map_Forall_empty].
  - rewrite lookup_empty. apply map_Forall_empty.
Qed.

Lemma setState_good e cf k s : good_eng e -> good_state s -> good_eng (setState cf k s e).
Proof.
  intros He Hs cf' r k' s'. unfold setState, set_results. simpl. rewrite lookup_insert.
  case_decide as Hcf; [|by apply He]. intros [= <-]. rewrite lookup_insert.
  case_decide as Hk; [by intros [= <-]|]. unfold resultsAt.
  destruct (allResults e !! cf) eqn:Er; simpl; [by eapply He|]. by rewrite lookup_empty.
Qed.

Lemma results_good e cf k : good_eng e -> good_state (default ∅ (resultsAt e cf !! k)).
Proof. apply stateAt_good. Qed.

Lemma mergePreds_good e cf l i s : good_eng e -> good_state s -> good_state (mergePreds M l i s (resultsAt e cf)).
Proof.
  intros He. revert i s. induction l as [|p l IH]; intros i s Hs; simpl; [done|].
  apply IH, mergeInState_good; [done|]. by apply results_good.
Qed.

Lemma constrain_good bb : good_state (constrainValuesByCondition M ∅ bb).
Proof.
  unfold constrainValuesByCondition. pose proof (map_Forall_empty (fun _ : value => good)) as He.
  destruct (getSinglePredecessor M bb) as [p|]; [|done].
  destruct (kindOf M (getTerminator M p)) as [| | | | | | | | |[]|]; try done.
  destruct cond as [cond|]; [|done].
  destruct (kindOf M cond) as [| | | | | | | | |k|] eqn:Hk; try done.
  destruct k as [| | | | | | | | | |q op0 op1| | | | |]; try done.
  destruct (splitOperands M op0 op1) as [[[co var] vf]|] eqn:Hs; [|done].
  destruct co as [c|]; [|done].
  assert (VConstInt c ∈ [op0; op1]) as Hin.
  { unfold splitOperands in Hs. repeat case_match; simplify_eq; set_solver. }
  pose proof (good_cond cond op0 op1 q c (bool_decide (head succs = Some bb)) vf Hk Hin) as Hg.
  repeat case_match; repeat (apply map_Forall_insert_2; [done|]); done.
Qed.

Lemma applyConstraints_good s c : good_state s -> good_state c -> good_state (applyConstraints s c).
Proof.
  intros Hs Hc k v. unfold applyConstraints. rewrite lookup_merge. unfold diag_None.
  destruct (s !! k) eqn:Es, (c !! k) eqn:Ec; intros [= <-]; eauto using inter_good.
Qed.

Lemma entryState_good e cf bb : good_eng e -> good_state (entryState M UsePC e cf bb).
Proof.
  intros He. unfold entryState, mergeStateFromPredecessors.
  assert (good_state (mergeInState (mergeInState (mergeInState ∅ (default ∅ (resultsAt e cf !! bb)) false)
    (mergePreds M (predecessors M bb) 0 ∅ (resultsAt e cf)) false) (stateAt e cf cf.2) false)) as Hm.
  { apply mergeInState_good; [|by apply stateAt_good].
    apply mergeInState_good; [|by apply mergePreds_good].
    by apply mergeInState_good; [|apply results_good]. }
  destruct UsePC; [|done]. apply applyConstraints_good; [done|apply constrain_good].
Qed.

(** Every listed instruction is one. *)
Hypothesis Hinst : forall bb i, i ∈ insts M bb -> isInstruction M i = true.

Lemma findOrTransfer_good v t s r t' s' :
  in_code v -> good_state s -> findOrTransfer v t s = (r, t', s') -> good r /\ good_state s'.
Proof.
  intros Hv Hs. unfold findOrTransfer. destruct (s !! v) as [a|] eqn:E.
  - intros [= <- <- <-]. split; [by eapply Hs|done].
  - pose proof (good_transfer v t s Hv Hs) as Ht. destruct (d_transfer v (t, s)) as [t1 s1].
    intros [= <- <- <-]. split; [by apply default_good|done].
Qed.

Lemma passArgs_good fs l t s m nu t' s' m' nu' :
  Forall in_code l -> good_state s -> good_state m ->
  passArgs fs l t s m nu = (t', s', m', nu') -> good_state s' /\ good_state m'.
Proof.
  revert l t s m nu. induction fs as [|f fs IH]; intros [|a l] t s m nu Hl Hs Hm; simpl;
    try (intros [= <- <- <- <-]; done).
  pose proof (Forall_inv Hl) as Ha. apply Forall_inv_tail in Hl.
  destruct (findOrTransfer a t s) as [[r t1] s1] eqn:E.
  destruct (findOrTransfer_good _ _ _ _ _ _ Ha Hs E) as [Hr Hs1].
  apply IH; [done..|]. apply map_Forall_insert_2; [|done].
  by apply dmeet2_good, default_good.
Qed.

Lemma meetOverPHI_good l v t s v' t' s' :
  Forall in_code l -> good v -> good_state s ->
  meetOverPHI l v t s = (v', t', s') -> good v' /\ good_state s'.
Proof.
  revert v t s. induction l as [|a l IH]; intros v t s Hl Hv Hs; simpl; [intros [= <- <- <-]; done|].
  pose proof (Forall_inv Hl) as Ha. apply Forall_inv_tail in Hl.
  destruct (findOrTransfer a t s) as [[r t1] s1] eqn:E.
  destruct (findOrTransfer_good _ _ _ _ _ _ Ha Hs E) as [Hr Hs1].
  apply IH; [done| by apply dmeet2_good | done].
Qed.

Lemma applyTransfer_good i t s t' s' :
  isInstruction M i = true -> good_state s -> applyTransfer M i t s = (t', s') -> good_state s'.
Proof.
  intros Hi Hs. unfold applyTransfer.
  assert (forall t' s', d_transfer i (t, s) = (t', s') -> good_state s') as Ht.
  { intros t1 s1 E. pose proof (good_transfer i t s (or_introl Hi) Hs) as Ht. by rewrite E in Ht. }
  destruct (kindOf M i) as [| | | | | | | | |k|] eqn:Hk; try apply Ht.
  destruct k as [| | | | | | | |incoming| | | | | | |]; try apply Ht.
  destruct (meetOverPHI incoming d_init t s) as [[r t1] s1] eqn:E. intros [= <- <-].
  apply meetOverPHI_good in E as [? ?]; [by apply map_Forall_insert_2| |apply init_good|done].
  apply Forall_elem. intros x Hx. right. exists i. unfold operands. by rewrite Hk.
Qed.

Lemma saveForNext_good st next old :
  good_state st -> good_state old -> good_state (saveForNext M st next old).
Proof.
  intros Hst Hold. unfold saveForNext.
  assert (forall k (acc : gmap value V), good_state acc ->
    good_state (match st !! k with Some a => <[k := a]> acc | None => acc end : gmap value V)) as Hc.
  { intros k acc Hacc. destruct (st !! k) eqn:E; [|done]. apply map_Forall_insert_2; [by eapply Hst|done]. }
  specialize (Hc next old Hold) as H0. revert H0.
  generalize (match st !! next with Some a => <[next := a]> old | None => old end).
  induction (operands M next) as [|op l IH]; intros acc Hacc; simpl; [done|]. by apply IH, Hc.
Qed.

Lemma callArgs_operands i x : x ∈ callArgs M i -> x ∈ operands M i.
Proof.
  unfold callArgs, operands. destruct (kindOf M i) as [| | | | | | | | |[]|]; simpl; set_solver.
Qed.

Section GoodBody.
Context (rec : value -> Context -> Eng V T -> option (Eng V T)).
Hypothesis Hrec : forall f ctx e e', good_eng e -> rec f ctx e = Some e' -> good_eng e'.

Lemma analyzeCall_good i g st ctx e st' e' :
  isInstruction M i = true -> good_state st -> good_eng e ->
  analyzeCall M rec i g st ctx e = Some (st', e') -> good_state st' /\ good_eng e'.
Proof.
  intros Hi Hst He. unfold analyzeCall.
  destruct (passArgs _ _ _ _ _ _) as [[[t st1] summary] upd] eqn:Hp.
  apply passArgs_good in Hp as [Hst1 Hsum]; [| |done|by apply stateAt_good].
  2:{ apply Forall_elem. intros x Hx. right. exists i. split; [done|]. by apply callArgs_operands. }
  set (e1 := setState _ g summary _).
  assert (good_eng e1) as He1 by (by apply setState_good).
  assert (forall e2, (if negb (bool_decide ((newContextOf ctx i, g) ∈ active e1)) && upd
    then rec g (newContextOf ctx i) e1 else Some e1) = Some e2 -> good_eng e2) as Hn.
  { intros e2. destruct (_ && _); [by apply Hrec|]. by intros [= <-]. }
  destruct (if negb _ && upd then _ else _) as [e2|] eqn:E; [|done].
  specialize (Hn e2 eq_refl). simpl. intros [= <- <-].
  pose proof (stateAt_good e2 (newContextOf ctx i, g) g Hn) as Hs2.
  split; [apply map_Forall_insert_2; [by apply default_good|done]|].
  refine (setState_good e2 _ _ _ Hn _). apply map_Forall_insert_2; [by apply default_good|done].
Qed.

Lemma runInsts_good cf bb l st e st' e' :
  Forall (.∈ insts M bb) l -> good_state st -> good_eng e ->
  runInsts M rec cf bb l st e = Some (st', e') -> good_state st' /\ good_eng e'.
Proof.
  revert st e. induction l as [|i l IH]; intros st e Hl Hst He; simpl; [by intros [= <- <-]|].
  pose proof (Forall_inv Hl) as Hi. apply Forall_inv_tail in Hl. simpl in Hi. apply Hinst in Hi.
  destruct (if isAnalyzableCall M i then _ else _) as [[st1 e1]|] eqn:E; [|done]. simpl.
  assert (good_state st1 /\ good_eng e1) as [Hst1 He1].
  { destruct (isAnalyzableCall M i).
    - destruct (getCalledFunction M i); [|done]. by eapply analyzeCall_good.
    - destruct (applyTransfer M i (tst e) st) as [t s] eqn:Et. simplify_eq.
      split; [by eapply applyTransfer_good | exact He]. }
  apply IH; [done..|]. case_decide; [by apply setState_good|].
  destruct (head l); [|done]. apply setState_good; [done|].
  apply saveForNext_good; [done|]. by apply stateAt_good.
Qed.

Lemma processBlock_good cf bb bm w e bm' w' e' :
  good_eng e -> processBlock M UsePC rec cf bb bm w e = Some (bm', w', e') -> good_eng e'.
Proof.
  intros He. unfold processBlock.
  assert (good_eng (setState cf cf.2 (stateAt e cf cf.2) e)) as He1
    by (apply setState_good; [done|by apply stateAt_good]).
  destruct (_ && _); [by intros [= <- <- <-]|].
  destruct (runInsts _ _ _ _ _ _ _) as [[st1 e1]|] eqn:Er; [|done]. simpl.
  apply runInsts_good in Er as [Hst1 He2]; [|by apply Forall_elem|by apply entryState_good|
    apply setState_good; [done|by apply entryState_good]].
  destruct (state_eqb _ _); [by intros [= <- <- <-]|].
  destruct (addSuccessors _ _ _). intros [= <- <- <-].
  destruct (kindOf M (getTerminator M bb)) as [| | | | | | | | |[]|]; try done.
  apply setState_good; [done|]. pose proof (stateAt_good e1 cf cf.2 He2) as Hs2.
  apply map_Forall_insert_2; [|done].
  apply dmeet2_good; [by apply default_good|]. case_match; [by apply default_good|apply init_good].
Qed.

Lemma blockLoop_good fuel cf bm w e e' :
  good_eng e -> blockLoop M UsePC rec fuel cf bm w e = Some e' -> good_eng e'.
Proof.
  revert bm w e. induction fuel as [|n IH]; intros bm w e He; simpl; [done|].
  destruct (wl_take w) as [[bb w1]|]; [|by intros [= <-]].
  destruct (processBlock _ _ _ _ _ _ _ _) as [[[bm1 w2] e1]|] eqn:E; [|done]. simpl.
  apply IH. by eapply processBlock_good.
Qed.
End GoodBody.

Lemma initResults_good e cf f k s :
  good_eng e -> initResults M f (resultsAt e cf) !! k = Some s -> good_state s.
Proof.
  intros He. unfold initResults.
  assert (forall k s, resultsAt e cf !! k = Some s -> good_state s) as H0.
  { intros k' s' Hk. pose proof (stateAt_good e cf k' He) as Hg. unfold stateAt in Hg. by rewrite Hk in Hg. }
  destruct (resultsAt e cf !! f); [apply H0|].
  revert k s. generalize dependent (resultsAt e cf).
  induction (blocks M f ++ instructions M f) as [|x l IH]; intros r H0; simpl; [exact H0|].
  apply IH. intros k s. destruct (r !! x); [apply H0|]. rewrite lookup_insert.
  case_decide; [intros [= <-]; apply map_Forall_empty|apply H0].
Qed.

Lemma computeForwardDataflow_good depth f ctx e e' :
  good_eng e -> computeForwardDataflow M rpo UsePC depth f ctx e = Some e' -> good_eng e'.
Proof.
  revert f ctx e e'. induction depth as [|n IH]; intros f ctx e e' He; [done|].
  cbn [computeForwardDataflow].
  destruct (blockLoop _ _ _ _ _ _ _ _) as [e1|] eqn:E; [|done]. cbn [mbind option_bind].
  intros [= <-]. apply blockLoop_good in E; [|by eauto|].
  - destruct (results_eqb _ _); exact E.
  - intros cf r k s. simpl. rewrite lookup_insert. case_decide; [|by apply He].
    intros [= <-]. by apply initResults_good.
Qed.

Lemma computeAll_good fuel depth e e' :
  good_eng e -> computeAll M rpo UsePC fuel depth e = Some e' -> good_eng e'.
Proof.
  revert e. induction fuel as [|n IH]; intros e He; [done|]. simpl.
  destruct (wl_take _) as [[[ctx f] w]|]; [|by intros [= <-]].
  destruct (computeForwardDataflow _ _ _ _ _ _ _) as [e1|] eqn:E; [|done]. simpl.
  apply IH. eapply computeForwardDataflow_good; [|exact E]. exact He.
Qed.

End Invariant.

(** ** Soundness of the merge at block entry *)
Section Soundness.
Variable M : IRModule.
Context {V T : Type} `{D : AbstractDomain V T}.
Variable UsePC : bool.

(** [conc v z]: the abstract value [v] stands for the integer [z]. *)
Class SoundDomain (conc : V -> Z -> Prop) := {
  sd_init : forall z, conc d_init z;
  sd_meet : forall l a z, a ∈ l -> conc a z -> conc (dmeet l) z;
  sd_inter : forall a b z, conc a z -> conc b z -> conc (d_intersection a b) z;
}.

Context (conc : V -> Z -> Prop) `{SD : SoundDomain conc}.

(** The abstract state holds of the concrete valuation [rho]. *)
Definition approx (s : gmap value V) (rho : value -> Z) : Prop :=
  map_Forall (fun k v => conc v (rho k)) s.

Lemma meet2_sound_l a b z : conc a z -> conc (dmeet [a; b]) z.
Proof. apply sd_meet. left. Qed.

Lemma meet2_sound_r a b z : conc b z -> conc (dmeet [a; b]) z.
Proof. apply sd_meet. right; left. Qed.

(** A balanced merge covers both sides. *)
Lemma mergeInState_balanced_sound s1 s2 rho :
  approx s1 rho \/ approx s2 rho -> approx (mergeInState s1 s2 true) rho.
Proof.
  intros Hs k v. unfold mergeInState. rewrite lookup_merge. unfold diag_None.
  destruct (s1 !! k) eqn:E1, (s2 !! k) eqn:E2; intros [= <-]; try apply sd_init.
  destruct Hs as [Hs|Hs]; [by apply meet2_sound_l, Hs | by apply meet2_sound_r, Hs].
Qed.

Lemma mergeInState_empty s : mergeInState ∅ s false = s.
Proof.
  apply map_eq. intros k. unfold mergeInState. rewrite lookup_merge, lookup_empty. unfold diag_None.
  by destruct (s !! k).
Qed.

Lemma mergePreds_keep l i s r rho : approx s rho -> approx (mergePreds M l (S i) s r) rho.
Proof.
  revert i s. induction l as [|p l IH]; intros i s Hs; simpl; [done|].
  apply IH, mergeInState_balanced_sound. by left.
Qed.

Lemma mergePreds_later l p i s r rho :
  p ∈ l -> approx (default ∅ (r !! getTerminator M p)) rho -> approx (mergePreds M l (S i) s r) rho.
Proof.
  intros Hp Ha. revert i s. induction l as [|q l IH]; intros i s; [set_solver|]. simpl.
  apply elem_of_cons in Hp as [->|Hp].
  - apply mergePreds_keep, mergeInState_balanced_sound. by right.
  - by apply IH.
Qed.

(** The merged predecessor state covers the exit state of every predecessor. *)
Lemma mergePreds_sound l p r rho :
  p ∈ l -> approx (default ∅ (r !! getTerminator M p)) rho -> approx (mergePreds M l 0 ∅ r) rho.
Proof.
  intros Hp Ha. destruct l as [|q l]; [set_solver|]. simpl. rewrite mergeInState_empty.
  apply elem_of_cons in Hp as [->|Hp]; [by apply mergePreds_keep | by eapply mergePreds_later].
Qed.

(** An unbalanced merge is sound at the keys where one side is known to be. *)
Lemma mergeInState_at_sound s1 s2 k z :
  (exists v, s1 !! k = Some v /\ conc v z) \/ (exists v, s2 !! k = Some v /\ conc v z) ->
  exists v, mergeInState s1 s2 false !! k = Some v /\ conc v z.
Proof.
  intros Hs. unfold mergeInState. rewrite lookup_merge. unfold diag_None.
  destruct (s1 !! k) as [v1|] eqn:E1, (s2 !! k) as [v2|] eqn:E2;
    destruct Hs as [(v & [= <-] & Hv)|(v & [= <-] & Hv)];
    eexists; (split; [reflexivity|]); eauto using meet2_sound_l, meet2_sound_r.
Qed.

Lemma entryState_sound e cf bb p rho k r :
  p ∈ predecessors M bb -> approx (stateAt e cf (getTerminator M p)) rho ->
  (UsePC = true -> approx (constrainValuesByCondition M ∅ bb) rho) ->
  is_Some (mergePreds M (predecessors M bb) 0 ∅ (resultsAt e cf) !! k) ->
  entryState M UsePC e cf bb !! k = Some r -> conc r (rho k).
Proof.
  intros Hp Ha Hpc [v0 Hk]. unfold entryState, mergeStateFromPredecessors.
  pose proof (mergePreds_sound _ _ _ _ Hp Ha) as Hm.
  destruct (mergeInState_at_sound (mergeInState ∅ (default ∅ (resultsAt e cf !! bb)) false)
    (mergePreds M (predecessors M bb) 0 ∅ (resultsAt e cf)) k (rho k)) as (v1 & H1 & C1);
    [right; eauto|].
  destruct (mergeInState_at_sound _ (stateAt e cf cf.2) k (rho k)
    (or_introl (ex_intro _ v1 (conj H1 C1)))) as (v2 & H2 & C2).
  destruct UsePC; [|congruence].
  unfold applyConstraints. rewrite lookup_merge, H2. unfold diag_None. specialize (Hpc eq_refl).
  destruct (constrainValuesByCondition M ∅ bb !! k) eqn:Ec; intros [= <-]; [|done].
  apply sd_inter; [done|]. by apply Hpc.
Qed.

End Soundness.

(** ** The value-range instance: [ForwardDataflowAnalysis<RangeValue, RangeTransfer, RangeMeet>] *)
Section RangeInstance.
Variable M : IRModule.
Variable DL : DataLayout.
Variable CF : ConstFold.

#[export] Instance RangeAnalysis : AbstractDomain RangeValue (gmap value bool) := {|
  d_init := RangeValue_init;
  d_meetPair := meetPair;
  d_intersection := intersection;
  d_eqb := rv_eq;
  d_transfer := fun i p => let t := transfer M DL CF i (TS p.1 p.2) in (storeHappened t, ranges t);
  d_condRange := getRangeForConditionalBranch;
|}.

Lemma rv_eq_refl v : rv_eq v v = true.
Proof.
  unfold rv_eq, eqb. destruct (isConstant v); simpl; [by rewrite !Z.eqb_refl|].
  by apply bool_decide_eq_true_2.
Qed.

(** A range that stands for [z] and whose bounds may be read at 64 bits. *)
Definition range_conc (r : RangeValue) (z : Z) : Prop :=
  bounded r /\ width_le64 r /\ gamma r z.

Lemma rv_and_width a b : width_le64 a -> width_le64 b -> width_le64 (rv_and a b).
Proof.
  intros Wa Wb. unfold rv_and, isUnknown, isInfinity.
  destruct (rkind a) eqn:Ea, (rkind b) eqn:Eb; simpl; try done.
  destruct (Wa Ea), (Wb Eb). intros _; simpl. split; case_match; done.
Qed.

#[export] Instance RangeSound : SoundDomain range_conc.
Proof.
  split.
  - intros z. split_and!; [by intros ?| by intros ? | done].
  - intros l a z _ _. change (dmeet l) with (meet l). rewrite meet_unknown.
    split_and!; [by intros ?| by intros ? | done].
  - intros a b z (Ba & Wa & Ga) (Bb & Wb & Gb). split_and!.
    + by apply rv_and_bounded.
    + by apply rv_and_width.
    + by apply rv_and_exact.
Qed.

Lemma cond_range_bounded t p c b1 b2 :
  wf c -> (forall w, t = TInt w -> (0 < w)%Z) -> bounded (getRangeForConditionalBranch t p c b1 b2).
Proof.
  intros Hc Ht. destruct t; try (by intros ?). specialize (Ht _ eq_refl).
  destruct (extremes_wf _ Ht) as (? & ? & ? & ?). pose proof (proj1 Hc) as Hw.
  unfold getRangeForConditionalBranch, getUnsignedConstantRange, getSignedConstantRange, add_z.
  destruct p, b1, b2; (by intros ?) || (apply bounded_makeRange);
    repeat case_match; (by apply mk_wf) || done.
Qed.

Lemma RangeGood : wf_module M CF -> GoodDomain M bounded.
Proof.
  intros Hwf. split.
  - apply bounded_init.
  - apply rv_or_bounded.
  - apply rv_and_bounded.
  - intros i t s Hi Hs. simpl. intros k v. revert k v.
    apply (transfer_bounded M DL CF Hwf i (TS t s)); [|exact Hs].
    destruct Hi as [Hi|(j & _ & Hj)]; [by destruct i|].
    destruct Hwf as [Ho _]. specialize (Ho j). by eapply Forall_elem_of.
  - intros cmp op0 op1 p c b1 b2 Hk Hin. apply cond_range_bounded.
    + destruct Hwf as [Ho _]. specialize (Ho cmp). unfold operands in Ho. rewrite Hk in Ho. simpl in Ho.
      exact (Forall_elem_of _ _ (VConstInt c) Ho Hin).
    + intros w Hw. destruct Hwf as (Ho & Ht & _). apply (Ht op0 w Hw).
      specialize (Ho cmp). unfold operands in Ho. rewrite Hk in Ho. by apply Forall_inv in Ho.
Qed.
End RangeInstance.

(** ** Properties *)

(** A recursive function whose only block calls it and branches to itself; for examples. *)
Definition loopKind (p : positive) : kind :=
  match p with
  | 1%positive => KFunction
  | 2%positive => KBasicBlock
  | 3%positive => KInst (ICall (VRef 1) [])
  | 4%positive => KInst (IBr None [VRef 2])
  | _ => KOther
  end.
Definition loopModule : IRModule := {|
  m_kind := loopKind; m_type := fun _ => TVoid; getName := fun _ => String.EmptyString; users := fun _ => [];
  functions := [VRef 1]; globals := [];
  blocks := fun f => if decide (f = VRef 1) then [VRef 2] else [];
  insts := fun b => if decide (b = VRef 2) then [VRef 3; VRef 4] else [];
  fargs := fun _ => []; getParent := fun _ => VRef 2; getBBParent := fun _ => VRef 1;
  isDeclaration := fun _ => false;
  getCalledFunction := fun i => if decide (i = VRef 3) then Some (VRef 1) else None;
  predecessors := fun b => if decide (b = VRef 2) then [VRef 2] else [];
  stripPointerCasts := fun v => v; getFunctionNamed := fun _ => Some (VRef 1) |}.
Definition loopRpo (f : value) : list value := blocks loopModule f.
Definition loopDL : DataLayout := Build_DataLayout (fun _ => 8%Z) (fun _ => 8%Z) (fun _ _ => 0%Z) (fun _ => 0%Z).
Definition loopCF : ConstFold := Build_ConstFold (fun _ _ _ => false) (fun _ _ _ => VRef 9).

Lemma loopModule_closed : module_closed loopModule loopRpo.
Proof.
  split.
  - intros i g. simpl. case_decide; [|done]. intros [= <-]. by left.
  - intros f Hf. split; [done|]. intros b s Hb. simpl in *.
    case_decide; [|set_solver]. apply list_elem_of_singleton in Hb as ->.
    unfold successors. vm_compute. set_solver.
Qed.

Lemma loopModule_wf : wf_module loopModule loopCF.
Proof.
  split_and!.
  - intros [c|p]; [constructor|]. unfold operands. simpl. unfold loopKind.
    repeat case_match; simpl; try constructor; simpl; try constructor; simplify_eq; repeat constructor.
  - intros [c|p] w; simpl; [|done]. intros [= <-] [Hc _]. done.
  - done.
  - intros p c. simpl. unfold loopKind. repeat case_match; done.
Qed.

(** The constructor queues each entry point. *)
Lemma initEngine_work (M : IRModule) (l : list value) (w : WorkList ContextFunction) :
  Forall (.∈ functions M) l -> inList w = ∅ -> Forall (.∈ universe M) (work w) ->
  let w' := fold_left (fun w f => wl_add ([None] : Context, f) w) l w in
  Forall (.∈ universe M) (work w') /\ length (work w') = length (work w) + length l.
Proof.
  revert w. induction l as [|f l IH]; intros w Hl Hin Hw; simpl; [split; [done|lia]|].
    pose proof (Forall_inv Hl) as Hf. apply Forall_inv_tail in Hl. simpl in Hf.
    destruct (IH (wl_add ([None], f) w)) as [H1 H2]; [done|..].
    - unfold wl_add. case_decide; [done|]. exact Hin.
    - unfold wl_add. case_decide; [done|]. simpl. apply Forall_app. split; [done|].
      repeat constructor. apply elem_of_universe. split; [left|done].
    - split; [exact H1|]. rewrite H2. unfold wl_add. rewrite Hin.
      rewrite decide_False by set_solver. simpl. rewrite length_app. simpl. lia.
Qed.

Lemma computeAll_runs M {V T} `{D : AbstractDomain V T} rpo UsePC entryPoints (t : T) :
  module_closed M rpo -> (forall v : V, d_eqb v v = true) ->
  Forall (.∈ functions M) entryPoints ->
  exists e', computeAll M rpo UsePC (S (length entryPoints)) (size (universe M))
               (initEngine [None] entryPoints t) = Some e' /\
    work (contextWork e') = [] /\ active e' = ∅.
Proof.
  intros HM Heqb Hep.
  destruct (initEngine_work M entryPoints wl_empty Hep eq_refl (List.Forall_nil _)) as [Hw Hlen]; [].
  eapply computeAll_ok with (U := universe M); [exact (universe_closed M rpo HM)|exact (universe_cfg M rpo HM)|
    exact Heqb|done|done|exact Hw|]. simpl in *. unfold initEngine. simpl. rewrite Hlen. lia.
Qed.

(** C11: the whole analysis ends.  For a module whose calls and branches stay inside
    it, [computeForwardDataflow()] empties its worklist in one iteration per entry
    point (plus the final test), nested analyses never go deeper than the number of
    (call site, function) pairs, and no pair is left active. *)
Theorem computeForwardDataflow_terminates M {V T} `{D : AbstractDomain V T} rpo UsePC entryPoints (t : T) :
  module_closed M rpo -> (forall v : V, d_eqb v v = true) ->
  Forall (.∈ functions M) entryPoints ->
  exists e', computeAll M rpo UsePC (S (length entryPoints)) (size (universe M))
               (initEngine [None] entryPoints t) = Some e' /\
    work (contextWork e') = [] /\ active e' = ∅.
Proof.
  apply computeAll_runs.
Qed.

Lemma computeForwardDataflow_terminates_witness :
  exists e', computeAll (D := RangeAnalysis loopModule loopDL loopCF) loopModule loopRpo true 2
    (size (universe loopModule)) (initEngine [None] [VRef 1] ∅) = Some e' /\
    work (contextWork e') = [] /\ active e' = ∅.
Proof.
  apply (computeForwardDataflow_terminates (D := RangeAnalysis loopModule loopDL loopCF)
    loopModule loopRpo true [VRef 1] ∅); [exact loopModule_closed | exact rv_eq_refl |].
  repeat constructor.
Defined.

(** An analysis of one function, started on a pair that is not active, returns,
    restores the set of active pairs, and queues no caller for another visit: the
    comparison of [oldResults] with [results] compares an entry with itself. *)
Theorem nested_analysis_queues_nobody M {V T} `{D : AbstractDomain V T} rpo UsePC ctx f (e : Eng V T) :
  module_closed M rpo -> (forall v : V, d_eqb v v = true) ->
  (ctx, f) ∈ universe M -> (ctx, f) ∉ active e ->
  exists e', computeForwardDataflow M rpo UsePC (size (universe M ∖ active e)) f ctx e = Some e' /\
    active e' = active e /\ contextWork e' = contextWork e.
Proof.
  intros HM Heqb Hin Hna.
  exact (computeForwardDataflow_ok M rpo UsePC (universe M) (universe_closed M rpo HM)
    (universe_cfg M rpo HM) Heqb _ (active e) (le_n _) ctx f e Hin Hna eq_refl).
Qed.

Lemma nested_analysis_queues_nobody_witness :
  let e := initEngine (V := RangeValue) [None] [VRef 1; VRef 1] (∅ : gmap value bool) in
  exists e', computeForwardDataflow (D := RangeAnalysis loopModule loopDL loopCF) loopModule loopRpo false
      (size (universe loopModule ∖ active e)) (VRef 1) [None] e = Some e' /\
    active e' = active e /\ contextWork e' = contextWork e.
Proof.
  intros e. apply (nested_analysis_queues_nobody (D := RangeAnalysis loopModule loopDL loopCF)
    loopModule loopRpo false [None] (VRef 1) e);
    [exact loopModule_closed | exact rv_eq_refl | | ].
  - apply elem_of_universe. split; left.
  - apply not_elem_of_empty.
Defined.

(** C15: merging loses no value.  Let control come from a predecessor [p] whose exit state
    holds of the program's values; with [-use-pc], let the constraint the analysis reads off
    the branch conditions hold of them too, which is assumed and not proved here (the code
    gets it wrong for negative values, [branch_range_drops_negative]).  Then the state
    computed at the entry of the block holds of them, at every key that the merge of the
    predecessors' states has an entry for; keys that only the branch constraint adds are not
    covered. *)
Theorem entry_state_sound M {V T} `{D : AbstractDomain V T} UsePC (conc : V -> Z -> Prop)
    `{SD : !SoundDomain conc} (e : Eng V T) cf bb p rho k r :
  p ∈ predecessors M bb -> approx conc (stateAt e cf (getTerminator M p)) rho ->
  (UsePC = true -> approx conc (constrainValuesByCondition M ∅ bb) rho) ->
  is_Some (mergePreds M (predecessors M bb) 0 ∅ (resultsAt e cf) !! k) ->
  entryState M UsePC e cf bb !! k = Some r -> conc r (rho k).
Proof. intros. by eapply (entryState_sound M UsePC conc e cf bb p). Qed.

Lemma entry_state_sound_witness :
  let s := {[ VRef 5 := makeRange (mk 64 0) (mk 64 3) ]} : gmap value RangeValue in
  let cf := ([None], VRef 1) in
  let e := ENG {[ cf := {[ VRef 4 := s ]} ]} wl_empty ∅ ∅ (∅ : gmap value bool) in
  range_conc (default RangeValue_init (entryState (D := RangeAnalysis loopModule loopDL loopCF)
    loopModule true e cf (VRef 2) !! VRef 5)) 2.
Proof.
  intros s cf e.
  apply (entry_state_sound (D := RangeAnalysis loopModule loopDL loopCF) loopModule true range_conc
    e cf (VRef 2) (VRef 2) (fun _ => 2%Z) (VRef 5)).
  - left.
  - intros k v Hk. change (s !! k = Some v) in Hk.
    apply lookup_singleton_Some in Hk as [_ <-]. split_and!.
    + apply bounded_makeRange; apply mk_wf; lia.
    + intros _. simpl. lia.
    + vm_compute. split; discriminate.
  - intros _ k v. vm_compute. done.
  - vm_compute. eauto.
  - vm_compute. reflexivity.
Defined.

(** C39: the value-range analysis of a well-formed module runs to its end, and every
    range it has stored has non-null, well-formed bounds when it is constant. *)
Theorem analysis_keeps_bounds M DL CF rpo UsePC entryPoints :
  module_closed M rpo -> wf_module M CF ->
  (forall bb i, i ∈ insts M bb -> isInstruction M i = true) ->
  Forall (.∈ functions M) entryPoints ->
  exists e', computeAll (D := RangeAnalysis M DL CF) M rpo UsePC (S (length entryPoints))
               (size (universe M)) (initEngine [None] entryPoints ∅) = Some e' /\
    forall cf r k s, allResults e' !! cf = Some r -> r !! k = Some s -> state_bounded s.
Proof.
  intros HM Hwf Hinst Hep.
  destruct (computeAll_runs (D := RangeAnalysis M DL CF) M rpo UsePC entryPoints ∅ HM rv_eq_refl Hep)
    as (e' & He & _). exists e'. split; [exact He|].
  apply (computeAll_good M rpo UsePC bounded (GD := RangeGood M DL CF Hwf) Hinst _ _ _ _) in He; [|done].
  exact He.
Qed.

Lemma analysis_keeps_bounds_witness :
  exists e', computeAll (D := RangeAnalysis loopModule loopDL loopCF) loopModule loopRpo true 2
               (size (universe loopModule)) (initEngine [None] [VRef 1] ∅) = Some e' /\
    forall cf r k s, allResults e' !! cf = Some r -> r !! k = Some s -> state_bounded s.
Proof.
  apply (analysis_keeps_bounds loopModule loopDL loopCF loopRpo true [VRef 1]);
    [exact loopModule_closed | exact loopModule_wf | | repeat constructor].
  intros bb i. simpl. case_decide; [|set_solver].
  intros [->|Hi%list_elem_of_singleton]%elem_of_cons; [done|by subst].
Defined.
