(* ===== verification/PTA.v ===== *)
(** * Points-to queries ([program-dependence-graph/src/PTAWrapper.cpp])

    The points-to analysis itself is SVF's (vendored); its results are the
    record [SVF], an argument of every definition here.  [PTAWrapper] only
    queries it.  Node identifiers are integers; points-to sets are lists in
    iteration order. *)
From stdpp Require Import base gmap sets list option.
From Stdlib Require Import ZArith Lia.
From S2P Require Import Prelude LLVM.

(** What the wrapper reads of SVF: the Andersen points-to sets, the nodes of its
    program assignment graph and its types. *)
Record SVF := {
  svfType : Type;
  svf_getPts : value -> list Z;
  expandFIObjs : list Z -> list Z;
  getBaseObj : Z -> Z;
  gepBaseNode : Z -> option Z;
  isHeap : Z -> bool;
  isStack : Z -> bool;
  isGlobalObj : Z -> bool;
  isFIObjVar : Z -> bool;
  isDummyObjVar : Z -> bool;
  pagNodes : list Z;
  nodeLLVMValue : Z -> option value;
  valueNodeOf : value -> option Z;
  objType : Z -> option svfType;
  ptrElementType : svfType -> option svfType;
  arrayTypeSizes : svfType -> option (Z * Z);
  structByteSize : svfType -> option Z;
  svfType_eqb : svfType -> svfType -> bool;
}.

Section PTAWrapper.
Variable M : IRModule.
Variable P : SVF.

Definition getPts (v : value) : list Z := svf_getPts P v.
Definition getExpandedFIPts (v : value) : list Z := expandFIObjs P (getPts v).

Definition isHeapObject (id : Z) : bool := isHeap P id.
Definition isStackObject (id : Z) : bool := isStack P id.
Definition isGlobalObject (id : Z) : bool := isGlobalObj P id.

(** The common type of the pointed-to objects: [None] when two differ. *)
Fixpoint commonType (l : list Z) (finalType : option (svfType P)) : option (option (svfType P)) :=
  match l with
  | [] => Some finalType
  | id :: l =>
    match objType P id with
    | None => commonType l finalType
    | Some t =>
      match finalType with
      | None => commonType l (Some t)
      | Some f => if svfType_eqb P f t then commonType l finalType else None
      end
    end
  end.

(** [int] results are kept at 32 bits. *)
Definition to_int (z : Z) : Z := APInt.to_signed 32 (z mod 2 ^ 32).

Definition getSizeForValue (v : value) : Z :=
  match commonType (getExpandedFIPts v) None with
  | None => -1
  | Some None => -1
  | Some (Some t) =>
    let t := default t (ptrElementType P t) in
    match arrayTypeSizes P t with
    | Some (arraysize, totalsize) => to_int (to_int arraysize * to_int totalsize)
    | None => match structByteSize P t with Some n => to_int n | None => -1 end
    end
  end.

(** The set after the insertions, and how many of them were new. *)
Definition insertUnsafePts (v : value) (unsafeObjSet : gset Z) : gset Z * Z :=
  let s := list_to_set (getBaseObj P <$> getExpandedFIPts v) ∪ unsafeObjSet in
  (s, (Z.of_nat (size s) - Z.of_nat (size unsafeObjSet))%Z).

Definition getNumOfObjects : Z := Z.of_nat (length (filter (fun n => isFIObjVar P n = true) (pagNodes P))).

Definition getBaseObjectId (id : Z) : Z := getBaseObj P id.

Definition getAlloca (id : Z) : option value :=
  v ← nodeLLVMValue P id; if isAllocaInst M v then Some v else None.

Definition getMalloc (id : Z) : option value :=
  if isDummyObjVar P id then None
  else v ← nodeLLVMValue P id; if isCallBase M v then Some v else None.

Definition getGlobal (id : Z) : option value :=
  v ← nodeLLVMValue P id; if isGlobalVariable M v then Some v else None.

Definition getLLVMValue (id : Z) : option value := nodeLLVMValue P id.

Definition hasValueNode (v : value) : bool := bool_decide (is_Some (valueNodeOf P v)).
Definition getValueNode (v : value) : Z := default 0%Z (valueNodeOf P v).

(** The expanded set, closed under the base nodes of field objects. *)
Definition ptsWithBases (v : value) : list Z :=
  let pts := getExpandedFIPts v in pts ++ omap (gepBaseNode P) pts.

Definition isPointToUnsafeObjects (unsafeObjSet : gset Z) (v : value) : bool :=
  existsb (fun id => bool_decide (id ∈ unsafeObjSet)) (ptsWithBases v).

(** ** Facts *)

Lemma insertUnsafePts_spec v s id :
  id ∈ (insertUnsafePts v s).1 <-> id ∈ s \/ exists o, o ∈ getExpandedFIPts v /\ getBaseObj P o = id.
Proof.
  unfold insertUnsafePts. simpl. rewrite elem_of_union, elem_of_list_to_set, list_elem_of_fmap.
  split; [intros [(o & -> & Ho)|Hs] | intros [Hs|(o & Ho & <-)]]; eauto.
Qed.

Lemma insertUnsafePts_mono v s : s ⊆ (insertUnsafePts v s).1.
Proof. intros id Hid. apply insertUnsafePts_spec. by left. Qed.

Lemma insertUnsafePts_nonneg v s : (0 <= (insertUnsafePts v s).2)%Z.
Proof.
  pose proof (subseteq_size _ _ (insertUnsafePts_mono v s)) as Hle.
  unfold insertUnsafePts in *. simpl in *. lia.
Qed.

Lemma isPointToUnsafeObjects_spec s v :
  isPointToUnsafeObjects s v = true <-> exists id, id ∈ ptsWithBases v /\ id ∈ s.
Proof.
  unfold isPointToUnsafeObjects. rewrite existsb_exists. split.
  - intros (id & Hin%list_elem_of_In & Hd). bool_prop. eauto.
  - intros (id & Hin%list_elem_of_In & Hd). exists id. split; [done|]. by apply bool_decide_eq_true.
Qed.

End PTAWrapper.

(** SVF results for examples: value [VRef p] points to object [p]. *)
Definition idSVF : SVF := {|
  svfType := ty; svf_getPts := fun v => match v with VRef p => [Zpos p] | _ => [] end;
  expandFIObjs := fun l => l; getBaseObj := fun o => o; gepBaseNode := fun _ => None;
  isHeap := fun _ => false; isStack := fun _ => true; isGlobalObj := fun _ => false;
  isFIObjVar := fun _ => true; isDummyObjVar := fun _ => false; pagNodes := [];
  nodeLLVMValue := fun o => match o with Zpos p => Some (VRef p) | _ => None end;
  valueNodeOf := fun v => match v with VRef p => Some (Zpos p) | _ => None end;
  objType := fun _ => None; ptrElementType := fun _ => None; arrayTypeSizes := fun _ => None;
  structByteSize := fun _ => None; svfType_eqb := fun a b => bool_decide (a = b) |}.
