(* ===== verification/Graph.v ===== *)
(** * The program dependence graph ([PDGNode], [PDGEdge], [GenericGraph])

    Nodes live at addresses; a graph is the heap of its nodes, the map from LLVM
    values to nodes and the set of registered nodes.  A node keeps six redundant
    views of its edges (two edge sets, two neighbour sets, two arrays of
    neighbour sets indexed by the edge type); [represents] relates a heap to the
    plain set of edges all of them describe.  Sets of pointers and hash sets are
    walked in an order the program does not control: the class [SetOrder] (Prelude.v) is
    any enumeration of the elements.  A node's debug-information type is not
    modelled. *)
From stdpp Require Import base countable gmap sets list strings fin_sets infinite relations sorting.
From Stdlib Require Import ZArith Lia.
From S2P Require Import Prelude LLVM.

(** ** Edges and nodes *)
Inductive EdgeType :=
| CALL | IND_CALL | CONTROL | CONTROL_FLOW | DATA_DEF_USE | DATA_RAW | DATA_READ | DATA_ALIAS
| DATA_RET | PARAMETER_IN | PARAMETER_OUT | PARAMETER_FIELD | GLOBAL_DEP | VAL_DEP.

Module GraphNodeType.
Inductive t :=
| INST | FORMAL_IN | FORMAL_OUT | ACTUAL_IN | ACTUAL_OUT | RETURN | FUNC_ENTRY | GLOBAL_VAR
| CALL | GLOBAL_TYPE | FUNC.
End GraphNodeType.

#[export] Instance EdgeType_eq_dec : EqDecision EdgeType.
Proof. solve_decision. Defined.
#[export] Instance GraphNodeType_eq_dec : EqDecision GraphNodeType.t.
Proof. solve_decision. Defined.

(** [static_cast<int>(edge_type)] *)
Definition edgeTypeInt (t : EdgeType) : nat :=
  match t with
  | CALL => 0 | IND_CALL => 1 | CONTROL => 2 | CONTROL_FLOW => 3 | DATA_DEF_USE => 4
  | DATA_RAW => 5 | DATA_READ => 6 | DATA_ALIAS => 7 | DATA_RET => 8 | PARAMETER_IN => 9
  | PARAMETER_OUT => 10 | PARAMETER_FIELD => 11 | GLOBAL_DEP => 12 | VAL_DEP => 13
  end.

Definition allEdgeTypes : list EdgeType :=
  [CALL; IND_CALL; CONTROL; CONTROL_FLOW; DATA_DEF_USE; DATA_RAW; DATA_READ; DATA_ALIAS;
   DATA_RET; PARAMETER_IN; PARAMETER_OUT; PARAMETER_FIELD; GLOBAL_DEP; VAL_DEP].

#[export] Instance EdgeType_countable : Countable EdgeType.
Proof.
  apply (inj_countable edgeTypeInt (fun n => allEdgeTypes !! n)). by intros [].
Defined.

#[export] Instance edgeTypeInt_inj : Inj (=) (=) edgeTypeInt.
Proof. by intros [] []. Qed.

(** [Node*] *)
Abbreviation addr := positive (only parsing).

Record Edge := MkEdge { _source : addr; _dst : addr; _edge_type : EdgeType }.

#[export] Instance Edge_eq_dec : EqDecision Edge.
Proof. solve_decision. Defined.
#[export] Instance Edge_countable : Countable Edge.
Proof.
  apply (inj_countable' (fun e => (_source e, _dst e, _edge_type e)) (fun '(a, b, t) => MkEdge a b t)).
  by intros [].
Defined.

Record Node := MkNode {
  _val : option value;
  _func : option value;
  _is_visited : bool;
  _in_edge_set : gset Edge;
  _out_edge_set : gset Edge;
  _in_neighbors : gset addr;
  _out_neighbors : gset addr;
  _in_neighbors_with_edge_type : list (gset addr);
  _out_neighbors_with_edge_type : list (gset addr);
  _node_type : GraphNodeType.t;
}.

(** [_in_neighbors_with_edge_type[static_cast<int>(EdgeType::VAL_DEP)+1]] *)
Definition emptySets : list (gset addr) := replicate (edgeTypeInt VAL_DEP + 1) ∅.

(** The two constructors of [Node]. *)
Definition newNode (t : GraphNodeType.t) : Node :=
  MkNode None None false ∅ ∅ ∅ ∅ emptySets emptySets t.
Definition newValueNode (M : IRModule) (v : value) (t : GraphNodeType.t) : Node :=
  MkNode (Some v) (if isInstruction M v then Some (getFunction M v) else None)
    false ∅ ∅ ∅ ∅ emptySets emptySets t.

(** The set of an edge type in one of the two arrays. *)
Definition typed (l : list (gset addr)) (t : EdgeType) : gset addr := default ∅ (l !! edgeTypeInt t).
Definition addTyped (t : EdgeType) (n : addr) (l : list (gset addr)) : list (gset addr) :=
  <[edgeTypeInt t := {[n]} ∪ typed l t]> l.

(** The part of [addNeighbor] on the source, and the part on the neighbour. *)
Definition addOut (e : Edge) (nd : Node) : Node :=
  MkNode (_val nd) (_func nd) (_is_visited nd) (_in_edge_set nd) ({[e]} ∪ _out_edge_set nd)
    (_in_neighbors nd) ({[_dst e]} ∪ _out_neighbors nd)
    (_in_neighbors_with_edge_type nd)
    (addTyped (_edge_type e) (_dst e) (_out_neighbors_with_edge_type nd)) (_node_type nd).
Definition addIn (e : Edge) (nd : Node) : Node :=
  MkNode (_val nd) (_func nd) (_is_visited nd) ({[e]} ∪ _in_edge_set nd) (_out_edge_set nd)
    ({[_source e]} ∪ _in_neighbors nd) (_out_neighbors nd)
    (addTyped (_edge_type e) (_source e) (_in_neighbors_with_edge_type nd))
    (_out_neighbors_with_edge_type nd) (_node_type nd).

(** The nodes, at their addresses; [this] and [neighbor] may be the same node. *)
Abbreviation Heap := (gmap positive Node) (only parsing).

Definition addNeighbor (this neighbor : addr) (edge_type : EdgeType) (h : Heap) : Heap :=
  let e := MkEdge this neighbor edge_type in
  alter (addIn e) neighbor (alter (addOut e) this h).

Definition getInNeighbors (nd : Node) : gset addr := _in_neighbors nd.
Definition getOutNeighbors (nd : Node) : gset addr := _out_neighbors nd.
Definition getInNeighborsWithDepType (nd : Node) (t : EdgeType) : gset addr :=
  typed (_in_neighbors_with_edge_type nd) t.
Definition getOutNeighborsWithDepType (nd : Node) (t : EdgeType) : gset addr :=
  typed (_out_neighbors_with_edge_type nd) t.
Definition hasInNeighborWithEdgeType (this : addr) (nd : Node) (n : addr) (t : EdgeType) : bool :=
  bool_decide (MkEdge this n t ∈ _in_edge_set nd).
Definition hasOutNeighborWithEdgeType (this : addr) (nd : Node) (n : addr) (t : EdgeType) : bool :=
  bool_decide (MkEdge this n t ∈ _out_edge_set nd).

(** The set [getNeighborsWithDepType] fills. *)
Definition getNeighborsWithDepType (nd : Node) (edge_types : gset EdgeType) : gset addr :=
  set_map _source (filter (fun e => _edge_type e ∈ edge_types) (_in_edge_set nd)) ∪
  set_map _dst (filter (fun e => _edge_type e ∈ edge_types) (_out_edge_set nd)).

(** A [PARAMETER_IN] edge from a [FORMAL_IN] node. *)
Definition isFormalInEdge (h : Heap) (e : Edge) : bool :=
  bool_decide (_edge_type e = PARAMETER_IN) &&
  match h !! _source e with
  | Some src => bool_decide (_node_type src = GraphNodeType.FORMAL_IN)
  | None => false
  end.

(** The loops of [isAddrVarNode] and [getAbstractTreeNode] over the in-edges. *)
Definition isAddrVarNode {orderEdge : SetOrder Edge} (h : Heap) (nd : Node) : bool :=
  existsb (isFormalInEdge h) (order (_in_edge_set nd)).
Definition getAbstractTreeNode {orderEdge : SetOrder Edge} (h : Heap) (nd : Node) : option addr :=
  _source <$> find (isFormalInEdge h) (order (_in_edge_set nd)).

(** ** Graphs *)
Record GenericGraph := MkGraph {
  _val_node_map : gmap value addr;
  _node_set : gset addr;
  heap : Heap;
  _is_build : bool;
}.

Definition emptyGraph : GenericGraph := MkGraph ∅ ∅ ∅ false.

Definition hasNode (g : GenericGraph) (v : value) : bool := bool_decide (is_Some (_val_node_map g !! v)).
Definition getNode (g : GenericGraph) (v : value) : option addr :=
  if negb (hasNode g v) then None else _val_node_map g !! v.

(** [addNeighbor] on the nodes of a graph *)
Definition withHeap (f : Heap -> Heap) (g : GenericGraph) : GenericGraph :=
  MkGraph (_val_node_map g) (_node_set g) (f (heap g)) (_is_build g).

(** ** Nodes for instructions ([ProgramGraph::build]) *)

(** [pdgutils::getCalledFunc] *)
Definition getCalledFunc (M : IRModule) (ci : value) : option value :=
  match calledOperand M ci with
  | None => None
  | Some called_val =>
    match kindOf M (stripPointerCasts M called_val) with
    | KFunction => Some (stripPointerCasts M called_val)
    | _ => None
    end
  end.

(** [pdgutils::stripFuncNameVersionNumber] *)
Definition stripFuncNameVersionNumber (func_name : string) : string :=
  match String.index 0 "." func_name with
  | None => func_name
  | Some deli_pos => String.substring 0 deli_pos func_name
  end.

Definition KernelAllocators : list string :=
  ["kzalloc"; "kmalloc"; "kvzalloc"; "vzalloc"; "__kmalloc"; "alloc_netdev"; "alloc_netdev_mqs"]%string.
Definition KernelDeAllocators : list string := ["kfree"]%string.

(** The graph with the two sets [build] collects. *)
Record ProgramGraph := MkProgramGraph {
  graph : GenericGraph;
  _allocators : gset value;
  _deallocators : gset value;
}.

(** [_val_node_map.insert(...)] keeps an existing entry; [new Node] is at a fresh address. *)
Definition addInstNode (M : IRModule) (inst : value) (g : GenericGraph) : GenericGraph :=
  let n := fresh (dom (heap g)) in
  MkGraph (match _val_node_map g !! inst with
           | Some _ => _val_node_map g
           | None => <[inst := n]> (_val_node_map g) end)
    ({[n]} ∪ _node_set g) (<[n := newValueNode M inst GraphNodeType.INST]> (heap g)) (_is_build g).

Definition calledName (M : IRModule) (inst : value) : option string :=
  if isCallInst M inst
  then (fun f => stripFuncNameVersionNumber (getName M f)) <$> getCalledFunc M inst
  else None.

(** The body of the loop over the instructions of a function. *)
Definition buildInst (M : IRModule) (p : ProgramGraph) (inst : value) : ProgramGraph :=
  let g := addInstNode M inst (graph p) in
  let '(allocs, deallocs) :=
    match calledName M inst with
    | Some name =>
      (if decide (name ∈ KernelAllocators) then {[inst]} ∪ _allocators p else _allocators p,
       if decide (name ∈ KernelDeAllocators) then {[inst]} ∪ _deallocators p else _deallocators p)
    | None => (_allocators p, _deallocators p)
    end in
  let allocs :=
    match kindOf M inst with
    | KInst (IAlloca allocTy _) => if isArrayTy allocTy then {[inst]} ∪ allocs else allocs
    | _ => allocs
    end in
  MkProgramGraph g allocs deallocs.

Definition buildInsts (M : IRModule) (l : list value) (p : ProgramGraph) : ProgramGraph :=
  fold_left (buildInst M) l p.

Section Search.
Context {orderEdge : SetOrder Edge} {orderAddr : SetOrder addr} {orderType : SetOrder EdgeType}.
Variable h : Heap.

Definition outEdges (n : addr) : list Edge :=
  match h !! n with Some nd => order (_out_edge_set nd) | None => [] end.

(** The targets of the out-edges of [n] whose type is in [types], in order. *)
Definition targets (types : gset EdgeType) (n : addr) : list addr :=
  _dst <$> filter (fun e => _edge_type e ∈ types) (outEdges n).

(** [canReach] with edge types: the [while] loop, on a stack (its top first). *)
Fixpoint canReachLoop (fuel : nat) (dst : addr) (include_edge_types : gset EdgeType)
    (visited : gset addr) (node_queue : list addr) : option bool :=
  match fuel with
  | O => None
  | S k =>
    match node_queue with
    | [] => Some false
    | current_node :: node_queue =>
      if decide (current_node ∈ visited) then canReachLoop k dst include_edge_types visited node_queue
      else
        let visited := {[current_node]} ∪ visited in
        if decide (current_node = dst) then Some true
        else canReachLoop k dst include_edge_types visited
               (rev (targets include_edge_types current_node) ++ node_queue)
    end
  end.

Definition canReachTypes (fuel : nat) (src dst : addr) (include_edge_types : gset EdgeType) : option bool :=
  if decide (src = dst) then Some true else canReachLoop fuel dst include_edge_types ∅ [src].

Definition canReach (fuel : nat) (src dst : addr) : option bool :=
  b ← canReachTypes fuel src dst ∅;
  if (b : bool) then Some true else Some false.

(** [findNodesReachedByEdge]: the set at the end of the loop, on a queue. *)
Fixpoint reachedByEdgeLoop (fuel : nat) (edge_type : EdgeType) (visited ret : gset addr)
    (node_queue : list addr) : option (gset addr) :=
  match fuel with
  | O => None
  | S k =>
    match node_queue with
    | [] => Some ret
    | current_node :: node_queue =>
      if decide (current_node ∈ visited) then reachedByEdgeLoop k edge_type visited ret node_queue
      else reachedByEdgeLoop k edge_type ({[current_node]} ∪ visited) ({[current_node]} ∪ ret)
             (node_queue ++ targets {[edge_type]} current_node)
    end
  end.

Definition findNodesReachedByEdge (fuel : nat) (src : addr) (edge_type : EdgeType) : option (gset addr) :=
  reachedByEdgeLoop fuel edge_type ∅ ∅ [src].

(** [findNodesReachedByEdges]: the loop over the neighbours of one type. *)
Fixpoint insertNeighbors (neighbors : list addr) (ret : gset addr) (node_queue : list addr)
    : gset addr * list addr :=
  match neighbors with
  | [] => (ret, node_queue)
  | n :: rest =>
    if decide (n ∈ ret) then insertNeighbors rest ret node_queue
    else insertNeighbors rest ({[n]} ∪ ret) (node_queue ++ [n])
  end.

Definition neighborsOf (is_backward : bool) (src : addr) (t : EdgeType) : gset addr :=
  match h !! src with
  | Some nd => if is_backward then getInNeighborsWithDepType nd t else getOutNeighborsWithDepType nd t
  | None => ∅
  end.

Fixpoint insertTypes (types : list EdgeType) (is_backward : bool) (src : addr) (ret : gset addr)
    (node_queue : list addr) : gset addr * list addr :=
  match types with
  | [] => (ret, node_queue)
  | t :: rest =>
    let '(ret, node_queue) := insertNeighbors (order (neighborsOf is_backward src t)) ret node_queue in
    insertTypes rest is_backward src ret node_queue
  end.

Fixpoint reachedByEdgesLoop (fuel : nat) (src : addr) (edge_types : gset EdgeType) (is_backward : bool)
    (ret : gset addr) (node_queue : list addr) : option (gset addr) :=
  match fuel with
  | O => None
  | S k =>
    match node_queue with
    | [] => Some ret
    | current_node :: node_queue =>
      let '(ret, node_queue) := insertTypes (order edge_types) is_backward src ret node_queue in
      reachedByEdgesLoop k src edge_types is_backward ret node_queue
    end
  end.

Definition findNodesReachedByEdges (fuel : nat) (src : addr) (edge_types : gset EdgeType)
    (is_backward : bool) : option (gset addr) :=
  reachedByEdgesLoop fuel src edge_types is_backward ∅ [src].

End Search.

(** ** What the views of a node say *)
Section Views.

(** The views of node [n] show exactly the edges of [G] at [n]. *)
Record node_view (G : gset Edge) (n : addr) (nd : Node) : Prop := {
  nv_out : forall e, e ∈ _out_edge_set nd <-> e ∈ G /\ _source e = n;
  nv_in : forall e, e ∈ _in_edge_set nd <-> e ∈ G /\ _dst e = n;
  nv_out_nb : forall m, m ∈ _out_neighbors nd <-> exists t, MkEdge n m t ∈ G;
  nv_in_nb : forall m, m ∈ _in_neighbors nd <-> exists t, MkEdge m n t ∈ G;
  nv_out_len : length (_out_neighbors_with_edge_type nd) = 14;
  nv_in_len : length (_in_neighbors_with_edge_type nd) = 14;
  nv_out_typed : forall t m, m ∈ getOutNeighborsWithDepType nd t <-> MkEdge n m t ∈ G;
  nv_in_typed : forall t m, m ∈ getInNeighborsWithDepType nd t <-> MkEdge m n t ∈ G }.

(** The heap [h] implements the set of edges [G]. *)
Record represents (h : Heap) (G : gset Edge) : Prop := {
  rep_view : forall n nd, h !! n = Some nd -> node_view G n nd;
  rep_closed : forall e, e ∈ G -> _source e ∈ dom h /\ _dst e ∈ dom h }.

Lemma edgeTypeInt_bound t : edgeTypeInt t < 14.
Proof. destruct t; simpl; lia. Qed.

Lemma typed_addTyped l t t' n :
  length l = 14 -> typed (addTyped t n l) t' = if decide (t = t') then {[n]} ∪ typed l t' else typed l t'.
Proof.
  intros Hl. unfold typed at 1, addTyped. destruct (decide (t = t')) as [<-|Hne].
  - rewrite list_lookup_insert_eq; [done|]. rewrite Hl. apply edgeTypeInt_bound.
  - rewrite list_lookup_insert_ne; [done|]. by intros Heq%(inj edgeTypeInt).
Qed.

Lemma length_addTyped t n l : length (addTyped t n l) = length l.
Proof. apply length_insert. Qed.

Definition add_edge (e : Edge) (G : gset Edge) : gset Edge := {[e]} ∪ G.

(** The effect of [addNeighbor] on the node at [n]: one, both or none of its halves. *)
Lemma lookup_addNeighbor a b t h n :
  addNeighbor a b t h !! n =
    (fun nd => (if decide (b = n) then addIn (MkEdge a b t) else id)
                 ((if decide (a = n) then addOut (MkEdge a b t) else id) nd)) <$> h !! n.
Proof.
  unfold addNeighbor. destruct (decide (b = n)) as [<-|Hb]; destruct (decide (a = _)) as [<-|Ha];
    rewrite ?lookup_alter_eq, ?lookup_alter_ne by done; rewrite ?lookup_alter_eq, ?lookup_alter_ne by done;
    by destruct (h !! _).
Qed.

Lemma dom_addNeighbor a b t h : dom (addNeighbor a b t h) = dom h.
Proof. unfold addNeighbor. by rewrite !dom_alter_L. Qed.

Lemma node_view_ext G G' n nd :
  (forall e, _source e = n \/ _dst e = n -> e ∈ G <-> e ∈ G') -> node_view G n nd -> node_view G' n nd.
Proof.
  intros HG [? ? ? ? ? ? ? ?]. split; [..|done|done| |].
  - intros e. rewrite nv_out0. naive_solver.
  - intros e. rewrite nv_in0. naive_solver.
  - intros m. rewrite nv_out_nb0. apply exist_proper. intros t. apply HG. by left.
  - intros m. rewrite nv_in_nb0. apply exist_proper. intros t. apply HG. by right.
  - intros t m. rewrite nv_out_typed0. apply HG. by left.
  - intros t m. rewrite nv_in_typed0. apply HG. by right.
Qed.

(** What [addOut] and [addIn] do to the views that are theirs. *)
Definition out_view (G : gset Edge) (n : addr) (nd : Node) : Prop :=
  (forall e, e ∈ _out_edge_set nd <-> e ∈ G /\ _source e = n) /\
  (forall m, m ∈ _out_neighbors nd <-> exists t, MkEdge n m t ∈ G) /\
  length (_out_neighbors_with_edge_type nd) = 14 /\
  (forall t m, m ∈ getOutNeighborsWithDepType nd t <-> MkEdge n m t ∈ G).
Definition in_view (G : gset Edge) (n : addr) (nd : Node) : Prop :=
  (forall e, e ∈ _in_edge_set nd <-> e ∈ G /\ _dst e = n) /\
  (forall m, m ∈ _in_neighbors nd <-> exists t, MkEdge m n t ∈ G) /\
  length (_in_neighbors_with_edge_type nd) = 14 /\
  (forall t m, m ∈ getInNeighborsWithDepType nd t <-> MkEdge m n t ∈ G).

Lemma node_view_split G n nd : node_view G n nd <-> out_view G n nd /\ in_view G n nd.
Proof.
  split; [intros []; by split|].
  intros [(? & ? & ? & ?) (? & ? & ? & ?)]. by split.
Qed.

Lemma add_edge_elem e e' G : e' ∈ add_edge e G <-> e' = e \/ e' ∈ G.
Proof. unfold add_edge. set_solver. Qed.

Lemma addOut_view G a b t nd :
  out_view G a nd -> out_view (add_edge (MkEdge a b t) G) a (addOut (MkEdge a b t) nd).
Proof.
  intros (Ho & Hn & Hl & Ht). split_and!; simpl.
  - intros e. rewrite elem_of_union, elem_of_singleton, Ho, add_edge_elem. naive_solver.
  - intros m. setoid_rewrite add_edge_elem. rewrite elem_of_union, elem_of_singleton, Hn. naive_solver.
  - by rewrite length_addTyped.
  - intros t' m. unfold getOutNeighborsWithDepType in *. simpl. rewrite typed_addTyped by done.
    rewrite add_edge_elem. destruct (decide (t = t')) as [<-|];
      [rewrite elem_of_union, elem_of_singleton|]; rewrite Ht; naive_solver.
Qed.

Lemma addIn_view G a b t nd :
  in_view G b nd -> in_view (add_edge (MkEdge a b t) G) b (addIn (MkEdge a b t) nd).
Proof.
  intros (Ho & Hn & Hl & Ht). split_and!; simpl.
  - intros e. rewrite elem_of_union, elem_of_singleton, Ho, add_edge_elem. naive_solver.
  - intros m. setoid_rewrite add_edge_elem. rewrite elem_of_union, elem_of_singleton, Hn. naive_solver.
  - by rewrite length_addTyped.
  - intros t' m. unfold getInNeighborsWithDepType in *. simpl. rewrite typed_addTyped by done.
    rewrite add_edge_elem. destruct (decide (t = t')) as [<-|];
      [rewrite elem_of_union, elem_of_singleton|]; rewrite Ht; naive_solver.
Qed.

Lemma out_view_other G e n nd : _source e <> n -> out_view G n nd -> out_view (add_edge e G) n nd.
Proof.
  intros Hne (Ho & Hn & Hl & Ht). split_and!; [..|done|].
  - intros e'. rewrite Ho, add_edge_elem. naive_solver.
  - intros m. rewrite Hn. setoid_rewrite add_edge_elem. naive_solver.
  - intros t m. rewrite Ht, add_edge_elem. naive_solver.
Qed.

Lemma in_view_other G e n nd : _dst e <> n -> in_view G n nd -> in_view (add_edge e G) n nd.
Proof.
  intros Hne (Ho & Hn & Hl & Ht). split_and!; [..|done|].
  - intros e'. rewrite Ho, add_edge_elem. naive_solver.
  - intros m. rewrite Hn. setoid_rewrite add_edge_elem. naive_solver.
  - intros t m. rewrite Ht, add_edge_elem. naive_solver.
Qed.

(** [addIn] leaves the out-views alone, [addOut] the in-views. *)
Lemma out_view_addIn G n e nd : out_view G n (addIn e nd) <-> out_view G n nd.
Proof. done. Qed.
Lemma in_view_addOut G n e nd : in_view G n (addOut e nd) <-> in_view G n nd.
Proof. done. Qed.

Lemma addNeighbor_represents h G a b t :
  represents h G -> a ∈ dom h -> b ∈ dom h ->
  represents (addNeighbor a b t h) (add_edge (MkEdge a b t) G).
Proof.
  intros [Hv Hc] Ha Hb. split.
  - intros n nd. rewrite lookup_addNeighbor. destruct (h !! n) as [nd0|] eqn:Hn; [|done].
    simpl. intros [= <-]. apply Hv, node_view_split in Hn as [Ho Hi]. apply node_view_split.
    destruct (decide (a = n)) as [Hna|Hna], (decide (b = n)) as [Hnb|Hnb]; simpl; subst.
    + split; [apply out_view_addIn, addOut_view, Ho|apply addIn_view, in_view_addOut, Hi].
    + split; [by apply addOut_view|apply in_view_addOut; by apply in_view_other].
    + split; [apply out_view_addIn; by apply out_view_other|by apply addIn_view].
    + split; [by apply out_view_other|by apply in_view_other].
  - intros e [->|He]%add_edge_elem; rewrite dom_addNeighbor; [done|by apply Hc].
Qed.

(** A new node at a fresh address has no edges. *)
Lemma insert_represents h G n nd :
  represents h G -> n ∉ dom h -> node_view ∅ n nd -> represents (<[n := nd]> h) G.
Proof.
  intros [Hv Hc] Hn Hnd. split.
  - intros m nd'. rewrite lookup_insert_Some. intros [[Heq <-]|[_ Hm]]; [subst m|by apply Hv].
    apply (node_view_ext ∅); [|done]. intros e He. split; [set_solver|].
    intros [? ?]%Hc. destruct He; subst; set_solver.
  - intros e He. rewrite dom_insert. destruct (Hc e He). set_solver.
Qed.

Lemma newNode_view n t : node_view ∅ n (newNode t).
Proof.
  split; simpl; try set_solver; intros t'; unfold getOutNeighborsWithDepType, getInNeighborsWithDepType;
    simpl; destruct t'; set_solver.
Qed.

Lemma newValueNode_view M v n t : node_view ∅ n (newValueNode M v t).
Proof.
  split; simpl; try set_solver; intros t'; unfold getOutNeighborsWithDepType, getInNeighborsWithDepType;
    simpl; destruct t'; set_solver.
Qed.

Lemma empty_represents : represents ∅ ∅.
Proof. split; [intros n nd; by rewrite lookup_empty|set_solver]. Qed.

(** The queries, in terms of the edges. *)
Lemma hasOutNeighborWithEdgeType_spec G n nd m t :
  node_view G n nd -> hasOutNeighborWithEdgeType n nd m t = true <-> MkEdge n m t ∈ G.
Proof.
  intros Hv. unfold hasOutNeighborWithEdgeType. rewrite bool_decide_eq_true, (nv_out _ _ _ Hv). simpl. naive_solver.
Qed.

(** [hasInNeighborWithEdgeType] looks for an edge that leaves the node among those that
    enter it: only a self-loop is found. *)
Lemma hasInNeighborWithEdgeType_spec G n nd m t :
  node_view G n nd -> hasInNeighborWithEdgeType n nd m t = true <-> m = n /\ MkEdge n n t ∈ G.
Proof.
  intros Hv. unfold hasInNeighborWithEdgeType. rewrite bool_decide_eq_true, (nv_in _ _ _ Hv). simpl. naive_solver.
Qed.

Lemma getNeighborsWithDepType_spec G n nd types m :
  node_view G n nd ->
  m ∈ getNeighborsWithDepType nd types <-> exists t, t ∈ types /\ (MkEdge m n t ∈ G \/ MkEdge n m t ∈ G).
Proof.
  intros Hv. unfold getNeighborsWithDepType. rewrite elem_of_union, !elem_of_map.
  setoid_rewrite elem_of_filter. setoid_rewrite (nv_in _ _ _ Hv). setoid_rewrite (nv_out _ _ _ Hv). split.
  - intros [([a b t] & -> & Ht & He & <-)|([a b t] & -> & Ht & He & <-)]; exists t; auto.
  - intros (t & Ht & [He|He]); [left; by exists (MkEdge m n t)|right; by exists (MkEdge n m t)].
Qed.

Lemma getAbstractTreeNode_some {orderEdge : SetOrder Edge} h nd :
  isAddrVarNode h nd = true <-> is_Some (getAbstractTreeNode h nd).
Proof.
  unfold isAddrVarNode, getAbstractTreeNode. rewrite fmap_is_Some.
  induction (order (_in_edge_set nd)) as [|e l IH]; simpl; [split; [done|by intros []]|].
  destruct (isFormalInEdge h e); simpl; [split; eauto|done].
Qed.

End Views.

(** ** The searches *)
Section Searches.
Context {orderEdge : SetOrder Edge} {orderAddr : SetOrder addr} {orderType : SetOrder EdgeType}.
Variable h : Heap.
Variable G : gset Edge.
Hypothesis HG : represents h G.

(** One step along an edge of one of the given types. *)
Definition step (types : gset EdgeType) (a b : addr) : Prop := exists t, t ∈ types /\ MkEdge a b t ∈ G.

(** A bound on the iterations of a search: one per edge, and the start. *)
Definition edgeCount : nat := sum_list_with (fun n => length (outEdges h n)) (elements (dom h)).

Lemma targets_spec types a b : edge (targets h types) a b <-> step types a b.
Proof using HG.
  unfold edge, targets, outEdges, step. rewrite list_elem_of_fmap.
  setoid_rewrite list_elem_of_filter. split.
  - intros (e & -> & Ht & He). destruct (h !! a) as [nd|] eqn:Ha; [|set_solver].
    apply elem_of_order in He. apply (nv_out _ _ _ (rep_view _ _ HG _ _ Ha)) in He as [He Hs].
    exists (_edge_type e). split; [done|]. by destruct e; simpl in *; subst.
  - intros (t & Ht & He). exists (MkEdge a b t). split; [done|]. split; [done|].
    destruct (rep_closed _ _ HG _ He) as [[nd Ha]%elem_of_dom _]. simpl in Ha. rewrite Ha.
    apply elem_of_order, (nv_out _ _ _ (rep_view _ _ HG _ _ Ha)). done.
Qed.

Lemma rtc_targets types a b : rtc (edge (targets h types)) a b <-> rtc (step types) a b.
Proof using HG.
  split; apply rtc_subrel; intros x y; apply targets_spec.
Qed.

Lemma targets_outside types n : n ∉ dom h -> targets h types n = [].
Proof using Type. intros Hn%not_elem_of_dom. unfold targets, outEdges. by rewrite Hn. Qed.

Lemma search_bound types src : search_measure (targets h types) (dom h) ∅ [src] <= S edgeCount.
Proof using Type.
  unfold search_measure, edgeCount. rewrite difference_empty_L. simpl. apply le_n_S.
  induction (elements (dom h)) as [|n l IH]; simpl; [done|].
  unfold targets at 1. rewrite length_fmap. pose proof (length_filter (fun e => _edge_type e ∈ types) (outEdges h n)). lia.
Qed.

Lemma canReachLoop_spec fuel types src dst visited queue :
  search_inv (targets h types) src visited queue -> dst ∉ visited ->
  search_measure (targets h types) (dom h) visited queue < fuel ->
  exists b, canReachLoop h fuel dst types visited queue = Some b /\
    (b = true <-> rtc (step types) src dst).
Proof using HG.
  setoid_rewrite <- rtc_targets.
  revert visited queue. induction fuel as [|k IH]; intros visited queue Hi Hd Hf; [lia|].
  cbn [canReachLoop]. destruct queue as [|n queue].
  { exists false. split; [done|]. rewrite <- (search_inv_done _ _ _ _ Hi). naive_solver. }
  destruct (decide (n ∈ visited)) as [Hv|Hv].
  { apply IH; [by eapply search_inv_skip|done|]. unfold search_measure in *. simpl in Hf. lia. }
  destruct (decide (n = dst)) as [->|Hne].
  { exists true. split; [done|]. split; [|done]. intros _. eapply si_queue; [done|left]. }
  apply IH; [|set_solver|].
  - eapply search_inv_visit; [|done]. intros y. rewrite elem_of_app, list_elem_of_In, <- in_rev, <- list_elem_of_In.
    unfold edge. tauto.
  - eapply Nat.lt_le_trans; [apply (search_measure_visit _ _ _ _ queue)|apply Nat.lt_succ_r, Hf];
      [done|apply targets_outside|]. rewrite length_app, length_rev. lia.
Qed.

Lemma reachedByEdgeLoop_spec fuel t src visited queue :
  search_inv (targets h {[t]}) src visited queue ->
  search_measure (targets h {[t]}) (dom h) visited queue < fuel ->
  exists ret, reachedByEdgeLoop h fuel t visited visited queue = Some ret /\
    forall x, x ∈ ret <-> rtc (step {[t]}) src x.
Proof using HG.
  setoid_rewrite <- rtc_targets.
  revert visited queue. induction fuel as [|k IH]; intros visited queue Hi Hf; [lia|].
  cbn [reachedByEdgeLoop]. destruct queue as [|n queue].
  { exists visited. split; [done|]. intros x. by apply search_inv_done. }
  destruct (decide (n ∈ visited)) as [Hv|Hv].
  { apply IH; [by eapply search_inv_skip|]. unfold search_measure in *. simpl in Hf. lia. }
  apply IH.
  - eapply search_inv_visit; [|done]. intros y. by rewrite elem_of_app.
  - eapply Nat.lt_le_trans; [apply (search_measure_visit _ _ _ _ queue)|apply Nat.lt_succ_r, Hf];
      [done|apply targets_outside|]. by rewrite length_app.
Qed.

End Searches.

(** ** The search over several edge types *)
Section ManyTypes.
Context {orderAddr : SetOrder addr} {orderType : SetOrder EdgeType}.
Variable h : Heap.

Lemma insertNeighbors_spec l ret q r' q' :
  insertNeighbors l ret q = (r', q') ->
  (forall x, x ∈ r' <-> x ∈ ret \/ x ∈ l) /\ length q' + size ret = length q + size r'.
Proof.
  revert ret q. induction l as [|n l IH]; intros ret q; simpl; [intros; simplify_eq; set_solver|].
  destruct (decide (n ∈ ret)) as [Hn|Hn]; intros [Hr Hl]%IH; (split; [intros x; rewrite Hr; set_solver|]).
  - done.
  - rewrite length_app in Hl. simpl in Hl. rewrite size_union, size_singleton in Hl by set_solver. lia.
Qed.

(** The neighbours of [src] by an edge of one of the types. *)
Definition typedNeighbor (types : list EdgeType) (back : bool) (src x : addr) : Prop :=
  exists t, t ∈ types /\ x ∈ neighborsOf h back src t.

Lemma insertTypes_spec types back src ret q r' q' :
  insertTypes h types back src ret q = (r', q') ->
  (forall x, x ∈ r' <-> x ∈ ret \/ typedNeighbor types back src x) /\ length q' + size ret = length q + size r'.
Proof.
  revert ret q. induction types as [|t types IH]; intros ret q; cbn [insertTypes].
  { intros [= <- <-]. split; [|lia]. intros x. unfold typedNeighbor. set_solver. }
  destruct (insertNeighbors _ ret q) as [r1 q1] eqn:H1. apply insertNeighbors_spec in H1 as [Hr1 Hl1].
  intros [Hr Hl]%IH. split; [|lia]. intros x. rewrite Hr, Hr1, elem_of_order.
  unfold typedNeighbor. setoid_rewrite elem_of_cons. naive_solver.
Qed.

(** Once every neighbour of [src] is there, the loop only empties its queue. *)
Lemma reachedByEdgesLoop_drain fuel src types back ret q :
  (forall x, typedNeighbor (order types) back src x -> x ∈ ret) -> length q < fuel ->
  reachedByEdgesLoop h fuel src types back ret q = Some ret.
Proof.
  revert q. induction fuel as [|k IH]; intros q Hr Hq; [lia|]. cbn [reachedByEdgesLoop].
  destruct q as [|n q]; [done|].
  destruct (insertTypes h (order types) back src ret q) as [r1 q1] eqn:H1.
  apply insertTypes_spec in H1 as [Hr1 Hl1].
  assert (r1 = ret) as -> by (apply set_eq; intros x; rewrite Hr1; naive_solver).
  apply IH; [done|]. simpl in Hq. lia.
Qed.

Lemma findNodesReachedByEdges_loop fuel src types back :
  (forall x, typedNeighbor (order types) back src x -> x ∈ dom h) -> S (size (dom h)) < fuel ->
  exists ret, findNodesReachedByEdges h fuel src types back = Some ret /\
    forall x, x ∈ ret <-> typedNeighbor (order types) back src x.
Proof.
  intros Hd Hf. destruct fuel as [|k]; [lia|]. unfold findNodesReachedByEdges. cbn [reachedByEdgesLoop].
  destruct (insertTypes h (order types) back src ∅ []) as [r1 q1] eqn:H1.
  apply insertTypes_spec in H1 as [Hr1 Hl1].
  assert (size r1 <= size (dom h)) as Hs.
  { apply subseteq_size. intros x Hx%Hr1. set_solver. }
  rewrite size_empty in Hl1. simpl in Hl1. exists r1. split.
  - apply reachedByEdgesLoop_drain; [|lia]. intros x Hx. apply Hr1. by right.
  - intros x. rewrite Hr1. set_solver.
Qed.

End ManyTypes.

(** The neighbours of a represented heap are its edges. *)
Lemma neighborsOf_spec h G back src t x :
  represents h G ->
  x ∈ neighborsOf h back src t <-> (if back then MkEdge x src t else MkEdge src x t) ∈ G.
Proof.
  intros HG. unfold neighborsOf. destruct (h !! src) as [nd|] eqn:Hn.
  - pose proof (rep_view _ _ HG _ _ Hn) as Hv. destruct back; [apply Hv|apply Hv].
  - split; [set_solver|]. intros [Hs Hd]%(rep_closed _ _ HG).
    apply not_elem_of_dom in Hn. by destruct back.
Qed.

(** ** Sequences of edge additions *)
Definition addAll (l : list (addr * addr * EdgeType)) (h : Heap) : Heap :=
  fold_left (fun h '(a, b, t) => addNeighbor a b t h) l h.

Definition edgesOf (l : list (addr * addr * EdgeType)) : gset Edge :=
  list_to_set ((fun '(a, b, t) => MkEdge a b t) <$> l).

Lemma addAll_represents l h G :
  represents h G -> (forall a b t, (a, b, t) ∈ l -> a ∈ dom h /\ b ∈ dom h) ->
  represents (addAll l h) (edgesOf l ∪ G).
Proof.
  revert h G. induction l as [|[[a b] t] l IH]; intros h G HG Hd; simpl.
  { unfold edgesOf. simpl. by rewrite union_empty_l_L. }
  destruct (Hd a b t) as [Ha Hb]; [left|].
  assert (edgesOf ((a, b, t) :: l) ∪ G = edgesOf l ∪ add_edge (MkEdge a b t) G) as ->
    by (apply set_eq; unfold edgesOf, add_edge; set_solver).
  apply IH; [by apply addNeighbor_represents|].
  intros a' b' t' Hin. rewrite dom_addNeighbor. apply (Hd a' b' t'). by right.
Qed.

(** ** The nodes of a built graph *)

(** Every mapped value has a node, which carries the value. *)
Definition nodes_ok (g : GenericGraph) : Prop :=
  forall v a, _val_node_map g !! v = Some a -> exists nd, heap g !! a = Some nd /\ _val nd = Some v.

Lemma getNode_lookup g v : getNode g v = _val_node_map g !! v.
Proof.
  unfold getNode, hasNode. destruct (_val_node_map g !! v); [|by case_bool_decide].
  by rewrite bool_decide_eq_true_2.
Qed.

Lemma addInstNode_ok M i g G :
  represents (heap g) G -> nodes_ok g ->
  represents (heap (addInstNode M i g)) G /\ nodes_ok (addInstNode M i g) /\
  forall v, is_Some (getNode g v) \/ v = i -> is_Some (getNode (addInstNode M i g) v).
Proof.
  intros HG Hok. pose proof (is_fresh (dom (heap g))) as Hf. split_and!.
  - by apply insert_represents; [| |apply newValueNode_view].
  - intros v a. unfold addInstNode. simpl. intros Hv.
    assert (_val_node_map g !! v = Some a \/ (v = i /\ a = fresh (dom (heap g)))) as [Hold|[-> ->]].
    { destruct (_val_node_map g !! i); [by left|]. apply lookup_insert_Some in Hv as [[<- <-]|[_ Hv]]; auto. }
    + destruct (Hok v a Hold) as (nd & Ha & Hval). exists nd. rewrite lookup_insert_ne; [done|].
      intros <-. apply Hf. by apply elem_of_dom.
    + exists (newValueNode M i GraphNodeType.INST). by rewrite lookup_insert_eq.
  - intros v. rewrite !getNode_lookup. unfold addInstNode. simpl. destruct (_val_node_map g !! i) eqn:Hi.
    + intros [?| ->]; [done|by rewrite Hi].
    + rewrite lookup_insert_is_Some. destruct (decide (i = v)); naive_solver.
Qed.

(** After the loop every instruction has a node. *)
Lemma buildInsts_ok M l p G :
  represents (heap (graph p)) G -> nodes_ok (graph p) ->
  represents (heap (graph (buildInsts M l p))) G /\ nodes_ok (graph (buildInsts M l p)) /\
  forall v, is_Some (getNode (graph p) v) \/ v ∈ l -> is_Some (getNode (graph (buildInsts M l p)) v).
Proof.
  revert p. induction l as [|i l IH]; intros p HG Hok; [split_and!; set_solver|].
  destruct (addInstNode_ok M i (graph p) G HG Hok) as (H1 & H2 & H3).
  assert (graph (buildInst M p i) = addInstNode M i (graph p)) as Hb
    by (unfold buildInst; by destruct (match calledName M i with Some _ => _ | None => _ end)).
  destruct (IH (buildInst M p i)) as (H4 & H5 & H6); [by rewrite Hb..|].
  split_and!; [done..|]. intros v Hv. apply H6. rewrite Hb.
  destruct Hv as [?|[->|?]%elem_of_cons]; [left; apply H3; by left|left; apply H3; by right|by right].
Qed.

(** A heap with three nodes, for examples. *)
Definition threeNodes : Heap :=
  <[1%positive := newNode GraphNodeType.INST]>
    (<[2%positive := newNode GraphNodeType.INST]> {[3%positive := newNode GraphNodeType.INST]}).

Lemma threeNodes_represents : represents threeNodes ∅.
Proof.
  unfold threeNodes. rewrite <- insert_empty.
  repeat (apply insert_represents; [|set_solver|apply newNode_view]). apply empty_represents.
Qed.

(** A chain of two edges on them. *)
Definition chainList : list (addr * addr * EdgeType) := [(1, 2, DATA_ALIAS); (2, 3, DATA_ALIAS)]%positive.
Definition chain : Heap := addAll chainList threeNodes.
Definition chainEdges : gset Edge := edgesOf chainList ∪ ∅.

Lemma threeNodes_nodes (l : list (addr * addr * EdgeType)) :
  forallb (fun '(a, b, _) => bool_decide (a ∈ dom threeNodes /\ b ∈ dom threeNodes)) l = true ->
  forall a b t, (a, b, t) ∈ l -> a ∈ dom threeNodes /\ b ∈ dom threeNodes.
Proof.
  intros Hl a b t Hin%list_elem_of_In. rewrite forallb_forall in Hl. specialize (Hl _ Hin).
  by apply bool_decide_eq_true in Hl.
Qed.

Lemma chain_represents : represents chain chainEdges.
Proof. apply addAll_represents; [apply threeNodes_represents|by apply threeNodes_nodes]. Qed.

(** ** Properties *)

(** C38: the six views of the nodes are one graph.  Any sequence of [addNeighbor]
    calls on nodes of the heap, self-loops and repetitions included, keeps every edge
    set, neighbour set and per-type array of every node equal to what the set of added
    edges says. *)
Theorem addNeighbor_refines h G l :
  represents h G -> (forall a b t, (a, b, t) ∈ l -> a ∈ dom h /\ b ∈ dom h) ->
  represents (addAll l h) (edgesOf l ∪ G).
Proof. apply addAll_represents. Qed.

Lemma addNeighbor_refines_witness :
  represents (addAll [(1, 2, DATA_ALIAS); (2, 2, CONTROL); (1, 2, DATA_ALIAS)]%positive threeNodes)
    (edgesOf [(1, 2, DATA_ALIAS); (2, 2, CONTROL); (1, 2, DATA_ALIAS)]%positive ∪ ∅).
Proof.
  apply (addNeighbor_refines threeNodes ∅ [(1, 2, DATA_ALIAS); (2, 2, CONTROL); (1, 2, DATA_ALIAS)]%positive).
  - apply threeNodes_represents.
  - apply threeNodes_nodes. vm_compute. reflexivity.
Defined.

(** [canReach] is exact.  Within one iteration per edge the search with a set of
    edge types ends, and answers true exactly when a path of such edges leads from the
    source to the destination; the overload without a set passes the empty one, so it
    only ever reaches the source itself. *)
Theorem canReach_exact {orderEdge : SetOrder Edge} h G src dst types fuel :
  represents h G -> S (edgeCount h) < fuel ->
  (exists b, canReachTypes h fuel src dst types = Some b /\ (b = true <-> rtc (step G types) src dst)) /\
  canReach h fuel src dst = Some (bool_decide (src = dst)).
Proof.
  intros HG Hf.
  assert (forall ts, exists b, canReachTypes h fuel src dst ts = Some b /\ (b = true <-> rtc (step G ts) src dst)) as H.
  { intros ts. unfold canReachTypes. destruct (decide (src = dst)) as [->|Hne].
    - exists true. split; [done|]. split; [intros _; apply rtc_refl|done].
    - apply canReachLoop_spec; [done|apply search_inv_init|set_solver|].
      pose proof (search_bound h ts src). lia. }
  split; [apply H|]. unfold canReach. destruct (H ∅) as (b & -> & Hb). simpl.
  assert (rtc (step G ∅) src dst <-> src = dst) as Hr.
  { split; [|intros ->; apply rtc_refl]. intros Hr. inversion Hr as [|? y ? (t & Ht & _)]; [done|set_solver]. }
  rewrite Hr in Hb. destruct b; case_bool_decide; naive_solver.
Qed.

Lemma canReach_exact_witness :
  (exists b, canReachTypes (orderEdge := elementsOrder Edge) chain 9 1%positive 3%positive {[DATA_ALIAS]} = Some b /\
     (b = true <-> rtc (step chainEdges {[DATA_ALIAS]}) 1%positive 3%positive)) /\
  canReach (orderEdge := elementsOrder Edge) chain 9 1%positive 3%positive = Some (bool_decide (1%positive = 3%positive)).
Proof.
  apply (canReach_exact (orderEdge := elementsOrder Edge) chain chainEdges 1%positive 3%positive {[DATA_ALIAS]} 9).
  - exact chain_represents.
  - vm_compute. lia.
Defined.

(** [findNodesReachedByEdges] ends and returns exactly the direct neighbours of
    the start by an edge of one of the types: the loop asks for the neighbours of
    [src] at every node it takes, so nothing further away is found. *)
Theorem findNodesReachedByEdges_one_step {orderAddr : SetOrder addr} {orderType : SetOrder EdgeType} h G src types back fuel :
  represents h G -> S (size (dom h)) < fuel ->
  exists ret, findNodesReachedByEdges h fuel src types back = Some ret /\
    forall x, x ∈ ret <-> exists t, t ∈ types /\ (if back then MkEdge x src t else MkEdge src x t) ∈ G.
Proof.
  intros HG Hf. destruct (findNodesReachedByEdges_loop h fuel src types back) as (ret & Hr & Hx); [|done|].
  - intros x (t & _ & Hx). rewrite (neighborsOf_spec h G back src t x HG) in Hx.
    apply (rep_closed _ _ HG) in Hx. by destruct back, Hx.
  - exists ret. split; [done|]. intros x. rewrite Hx. unfold typedNeighbor.
    setoid_rewrite elem_of_order. by setoid_rewrite (neighborsOf_spec h G back src _ x HG).
Qed.

Lemma findNodesReachedByEdges_one_step_witness :
  exists ret, findNodesReachedByEdges (orderAddr := elementsOrder addr) (orderType := elementsOrder EdgeType)
      chain 9 1%positive {[DATA_ALIAS]} false = Some ret /\
    forall x, x ∈ ret <-> exists t, t ∈ ({[DATA_ALIAS]} : gset EdgeType) /\ MkEdge 1%positive x t ∈ chainEdges.
Proof.
  apply (findNodesReachedByEdges_one_step (orderAddr := elementsOrder addr) (orderType := elementsOrder EdgeType)
    chain chainEdges 1%positive {[DATA_ALIAS]} false 9).
  - exact chain_represents.
  - vm_compute. lia.
Defined.
