(* ===== verification/DataDep.v ===== *)
(** * Data dependence edges ([DataDependencyGraph.cpp])

    The pass adds def-use, read-after-write and alias edges between the nodes of
    the instructions of each function, on the graph [ProgramGraph::build] made.
    Alias edges come from a syntactic must-alias test and from the points-to
    objects: the instructions of a function are grouped by object, groups
    included in another are dropped, and the pairs of every remaining group are
    connected.  LLVM's memory dependence analysis is a parameter. *)
From stdpp Require Import base gmap sets list strings relations.
From Stdlib Require Import ZArith Lia.
From S2P Require Import Prelude APInt LLVM PTA Graph.

(** [SVF::AliasResult] *)
Inductive AliasResult := NoAlias | MayAlias | MustAlias | PartialAlias.
#[export] Instance AliasResult_eq_dec : EqDecision AliasResult.
Proof. solve_decision. Defined.

Definition isBitCastInst (M : IRModule) (v : value) : bool :=
  match kindOf M v with KInst (ICast BitCast _) => true | _ => false end.

(** [std::unordered_map<int, std::set<Instruction*>>] *)
Abbreviation ObjMap := (gmap Z (gset value)) (only parsing).

Section DataDependencyGraph.
Context {orderSets : SetOrder (gset value)} {orderInsts : SetOrder value} {orderObjs : SetOrder Z}.
Variable M : IRModule.
Variable P : SVF.
(** [MemoryDependenceResults::getDependency(inst).getInst()] *)
Variable getDependency : value -> option value.

(** *** [queryAliasUnderApproximate] *)

(** The users of a load's address: another load of it, or a store to it of [v2]. *)
Fixpoint loadAliases (us : list value) (load_addr v2 : value) : bool :=
  match us with
  | [] => false
  | u :: us =>
    match kindOf M u with
    | KInst (ILoad _) => if decide (u = v2) then true else loadAliases us load_addr v2
    | KInst (IStore val ptr) =>
      if decide (ptr = load_addr) then
        if decide (val = v2) then true else loadAliases us load_addr v2
      else loadAliases us load_addr v2
    | _ => loadAliases us load_addr v2
    end
  end.

Definition queryAliasUnderApproximate (v1 v2 : value) : AliasResult :=
  if negb (isPointerTy (getType M v1)) || negb (isPointerTy (getType M v2)) then NoAlias
  else
    match kindOf M v1 with
    | KInst (ICast BitCast src) => if decide (src = v2) then MustAlias else NoAlias
    | KInst (ILoad load_addr) => if loadAliases (users M load_addr) load_addr v2 then MustAlias else NoAlias
    | KInst (IGEP _ _ base idxs) =>
      if decide (base = v2) then (if hasAllZeroIndices idxs then MustAlias else NoAlias) else NoAlias
    | _ => NoAlias
    end.

(** *** Adding edges *)

(** The body shared by the two places that connect aliases. *)
Definition connectAliases (i j : value) (g : GenericGraph) : GenericGraph :=
  match getNode g i, getNode g j with
  | Some src, Some dst =>
    if negb (isBitCastInst M i) && negb (isBitCastInst M j) &&
       negb (bool_decide (getType M i = getType M j)) then g
    else withHeap (fun h => addNeighbor dst src DATA_ALIAS (addNeighbor src dst DATA_ALIAS h)) g
  | _, _ => g
  end.

Definition addAliasEdges (inst : value) (g : GenericGraph) : GenericGraph :=
  fold_left (fun g j =>
    if decide (inst = j) then g
    else if negb (isPointerTy (getType M inst)) then g
    else if decide (queryAliasUnderApproximate inst j = NoAlias) then g
    else connectAliases inst j g) (instructions M (getFunction M inst)) g.

Definition addDefUseEdges (inst : value) (g : GenericGraph) : GenericGraph :=
  fold_left (fun g user =>
    match getNode g inst, getNode g user with
    | Some src, Some dst => withHeap (addNeighbor src dst DATA_DEF_USE) g
    | _, _ => g
    end) (users M inst) g.

Definition addRAWEdges (inst : value) (g : GenericGraph) : GenericGraph :=
  match kindOf M inst with
  | KInst (ILoad _) =>
    match getDependency inst with
    | Some dep_inst =>
      match kindOf M dep_inst with
      | KInst (IStore _ _) =>
        match getNode g inst, getNode g dep_inst with
        | Some src, Some dst => withHeap (addNeighbor dst src DATA_RAW) g
        | _, _ => g
        end
      | _ => g
      end
    | None => g
    end
  | _ => g
  end.

(** *** The groups of instructions that point to one object *)
Definition addObjects (inst : value) (m : ObjMap) : ObjMap :=
  fold_left (fun m o => <[o := {[inst]} ∪ default ∅ (m !! o)]> m) (getExpandedFIPts P inst) m.

(** The inner loop over [unique_alias_inst_set]: is [s] included in a group; the first
    group included in [s] is erased. *)
Fixpoint scanGroups (l : list (gset value)) (s : gset value) (unique : gset (gset value))
    : bool * gset (gset value) :=
  match l with
  | [] => (false, unique)
  | x :: l =>
    if decide (s ⊆ x) then (true, unique)
    else if decide (x ⊆ s) then (false, unique ∖ {[x]})
    else scanGroups l s unique
  end.

Definition addGroup (unique : gset (gset value)) (s : gset value) : gset (gset value) :=
  if decide (s ∈ unique) then unique
  else
    let '(is_subset, unique) := scanGroups (order unique) s unique in
    if is_subset then unique else {[s]} ∪ unique.

Definition uniqueGroups (m : ObjMap) : gset (gset value) :=
  fold_left addGroup (omap (fun o => m !! o) (order (dom m))) ∅.

(** The pairs of a group, each once: [iter2] starts after [iter1]. *)
Fixpoint connectPairs (l : list value) (g : GenericGraph) : GenericGraph :=
  match l with
  | [] => g
  | i :: l => connectPairs l (fold_left (fun g j => connectAliases i j g) l g)
  end.

(** *** The pass *)
Definition visitInst (acc : GenericGraph * ObjMap) (inst : value) : GenericGraph * ObjMap :=
  let '(g, m) := acc in
  let g := addDefUseEdges inst g in
  let g := addRAWEdges inst g in
  let m := addObjects inst m in
  (addAliasEdges inst g, m).

Definition runOnFunction (g : GenericGraph) (f : value) : GenericGraph :=
  if isDeclaration M f || bool_decide (blocks M f = []) then g
  else
    let '(g, m) := fold_left visitInst (instructions M f) (g, ∅) in
    fold_left (fun g s => connectPairs (order s) g) (order (uniqueGroups m)) g.

Definition runOnModule (g : GenericGraph) : GenericGraph := fold_left runOnFunction (functions M) g.

End DataDependencyGraph.

(** ** Operations that only add edges *)
Abbreviation EdgeList := (list (positive * positive * EdgeType)) (only parsing).

(** [f] adds to the heap the edges [E] computes from the value map. *)
Definition adds (f : GenericGraph -> GenericGraph) (E : GenericGraph -> EdgeList) : Prop :=
  (forall g, f g = withHeap (addAll (E g)) g) /\ (forall g k, E (withHeap k g) = E g).

Lemma withHeap_nil g : withHeap (addAll []) g = g.
Proof. by destruct g. Qed.

Lemma withHeap_app l l' g : withHeap (addAll l') (withHeap (addAll l) g) = withHeap (addAll (l ++ l')) g.
Proof. unfold withHeap, addAll. simpl. by rewrite fold_left_app. Qed.

Lemma getNode_withHeap k g v : getNode (withHeap k g) v = getNode g v.
Proof. done. Qed.

Lemma adds_id : adds (fun g => g) (fun _ => []).
Proof. split; [|done]. intros g. by rewrite withHeap_nil. Qed.

Lemma adds_compose f f' E E' : adds f E -> adds f' E' -> adds (fun g => f' (f g)) (fun g => E g ++ E' g).
Proof.
  intros [Hf HE] [Hf' HE']. split.
  - intros g. by rewrite Hf', Hf, HE', withHeap_app.
  - intros g k. by rewrite HE, HE'.
Qed.

Lemma adds_fold {A} (op : A -> GenericGraph -> GenericGraph) E l :
  (forall x, adds (op x) (E x)) -> adds (fun g => fold_left (fun g x => op x g) l g) (fun g => l ≫= fun x => E x g).
Proof.
  intros Hop. induction l as [|x l IH]; simpl; [apply adds_id|].
  apply (adds_compose (op x) _ (E x) _ (Hop x) IH).
Qed.

Lemma adds_ext f f' E E' : (forall g, f g = f' g) -> (forall g, E g = E' g) -> adds f E -> adds f' E'.
Proof. intros Hf HE [H1 H2]. split; [intros g; by rewrite <- Hf, <- HE|intros g k; by rewrite <- !HE]. Qed.

Section Edges.
Context {orderSets : SetOrder (gset value)} {orderInsts : SetOrder value} {orderObjs : SetOrder Z}.
Variable M : IRModule.
Variable P : SVF.
Variable getDependency : value -> option value.

(** The type filter on alias edges lets the pair pass. *)
Definition typesAgree (i j : value) : Prop :=
  isBitCastInst M i = true \/ isBitCastInst M j = true \/ getType M i = getType M j.

Lemma typesAgree_sym i j : typesAgree i j -> typesAgree j i.
Proof using Type. intros [?|[?|?]]; unfold typesAgree; auto. Qed.

Definition aliasPair (i j : value) (g : GenericGraph) : EdgeList :=
  match getNode g i, getNode g j with
  | Some a, Some b =>
    if negb (isBitCastInst M i) && negb (isBitCastInst M j) &&
       negb (bool_decide (getType M i = getType M j)) then []
    else [(a, b, DATA_ALIAS); (b, a, DATA_ALIAS)]
  | _, _ => []
  end.

Lemma typesAgree_test i j :
  negb (isBitCastInst M i) && negb (isBitCastInst M j) && negb (bool_decide (getType M i = getType M j)) = false <->
  typesAgree i j.
Proof using Type.
  clear getDependency. unfold typesAgree. rewrite !andb_false_iff, !negb_false_iff, bool_decide_eq_true. tauto.
Qed.

Lemma elem_of_aliasPair i j g a b t :
  (a, b, t) ∈ aliasPair i j g <->
  t = DATA_ALIAS /\ typesAgree i j /\
  ((getNode g i = Some a /\ getNode g j = Some b) \/ (getNode g i = Some b /\ getNode g j = Some a)).
Proof using Type.
  unfold aliasPair. destruct (getNode g i) as [x|], (getNode g j) as [y|];
    try (rewrite elem_of_nil; split; [done|]; intros (_ & _ & [[? ?]|[? ?]]); discriminate).
  rewrite <- typesAgree_test. destruct (_ && _).
  - rewrite elem_of_nil. split; [done|]. by intros (_ & ? & _).
  - rewrite !elem_of_cons, elem_of_nil. split.
    + intros [[= -> -> ->]|[[= -> -> ->]|[]]]; auto.
    + intros (-> & _ & [[[= ->] [= ->]]|[[= ->] [= ->]]]); auto.
Qed.

Lemma connectAliases_adds i j : adds (connectAliases M i j) (aliasPair i j).
Proof using Type.
  split; [|done]. intros g. unfold connectAliases, aliasPair.
  destruct (getNode g i), (getNode g j); rewrite ?withHeap_nil; try done.
  case_match; [by rewrite withHeap_nil|done].
Qed.

(** The alias edges [addAliasEdges] adds, and the other edges of an instruction. *)
Definition syntacticAlias (i j : value) : Prop := queryAliasUnderApproximate M i j <> NoAlias.

Definition syntacticPairs (i : value) (g : GenericGraph) : EdgeList :=
  instructions M (getFunction M i) ≫= fun j =>
    if decide (i = j) then [] else if negb (isPointerTy (getType M i)) then []
    else if decide (queryAliasUnderApproximate M i j = NoAlias) then [] else aliasPair i j g.

Lemma addAliasEdges_adds i : adds (addAliasEdges M i) (syntacticPairs i).
Proof using Type.
  apply (adds_fold (fun j g => if decide (i = j) then g else if negb (isPointerTy (getType M i)) then g
    else if decide (queryAliasUnderApproximate M i j = NoAlias) then g else connectAliases M i j g)).
  intros j. repeat case_match; try apply adds_id. apply connectAliases_adds.
Qed.

Definition defUsePairs (i : value) (g : GenericGraph) : EdgeList :=
  users M i ≫= fun u => match getNode g i, getNode g u with
                        | Some a, Some b => [(a, b, DATA_DEF_USE)] | _, _ => [] end.

Lemma addDefUseEdges_adds i : adds (addDefUseEdges M i) (defUsePairs i).
Proof using Type.
  apply (adds_fold (fun u g => match getNode g i, getNode g u with
    | Some src, Some dst => withHeap (addNeighbor src dst DATA_DEF_USE) g | _, _ => g end)).
  intros u. split; [|done]. intros g. destruct (getNode g i), (getNode g u); by rewrite ?withHeap_nil.
Qed.

Definition rawPairs (i : value) (g : GenericGraph) : EdgeList :=
  match kindOf M i, getDependency i with
  | KInst (ILoad _), Some d =>
    match kindOf M d with
    | KInst (IStore _ _) => match getNode g i, getNode g d with
                            | Some a, Some b => [(b, a, DATA_RAW)] | _, _ => [] end
    | _ => []
    end
  | _, _ => []
  end.

Lemma addRAWEdges_adds i : adds (addRAWEdges M getDependency i) (rawPairs i).
Proof using Type.
  split; [|done].
  intros g. unfold addRAWEdges, rawPairs. repeat case_match; by rewrite ?withHeap_nil.
Qed.

Definition instPairs (i : value) (g : GenericGraph) : EdgeList :=
  (defUsePairs i g ++ rawPairs i g) ++ syntacticPairs i g.

Definition objMap (l : list value) : ObjMap := fold_left (fun m i => addObjects P i m) l ∅.

Lemma visitInst_fold l g m :
  fold_left (visitInst M P getDependency) l (g, m) =
  (fold_left (fun g i => addAliasEdges M i (addRAWEdges M getDependency i (addDefUseEdges M i g))) l g,
   fold_left (fun m i => addObjects P i m) l m).
Proof using Type. revert g m. induction l as [|i l IH]; intros g m; [done|]. simpl. by rewrite IH. Qed.

(** The pairs of the groups. *)
Fixpoint listPairs (l : list value) (g : GenericGraph) : EdgeList :=
  match l with [] => [] | i :: l => (l ≫= fun j => aliasPair i j g) ++ listPairs l g end.

Lemma connectPairs_adds l : adds (connectPairs M l) (listPairs l).
Proof using Type.
  induction l as [|i l IH]; [apply adds_id|].
  apply (adds_compose _ _ _ _ (adds_fold (fun j g => connectAliases M i j g) (aliasPair i) l (connectAliases_adds i)) IH).
Qed.

Definition functionPairs (f : value) (g : GenericGraph) : EdgeList :=
  if isDeclaration M f || bool_decide (blocks M f = []) then []
  else (instructions M f ≫= fun i => instPairs i g) ++
       (order (uniqueGroups (objMap (instructions M f))) ≫= fun s => listPairs (order s) g).

Lemma runOnFunction_adds f : adds (fun g => runOnFunction M P getDependency g f) (functionPairs f).
Proof using Type.
  unfold runOnFunction, functionPairs. destruct (_ || _); [apply adds_id|].
  eapply adds_ext; [intros g; symmetry; rewrite visitInst_fold; reflexivity|reflexivity|].
  refine (adds_compose _ _ _ _ (adds_fold _ instPairs _ _) (adds_fold _ (fun s => listPairs (order s)) _ _)).
  - intros i. apply (adds_compose _ _ _ _ (adds_compose _ _ _ _ (addDefUseEdges_adds i) (addRAWEdges_adds i)) (addAliasEdges_adds i)).
  - intros s. apply connectPairs_adds.
Qed.

Definition modulePairs (g : GenericGraph) : EdgeList := functions M ≫= fun f => functionPairs f g.

Lemma runOnModule_adds : adds (runOnModule M P getDependency) modulePairs.
Proof using Type. apply (adds_fold (fun f g => runOnFunction M P getDependency g f)), runOnFunction_adds. Qed.

End Edges.

(** ** The groups *)
Section Groups.
Context {orderSets : SetOrder (gset value)} {orderInsts : SetOrder value} {orderObjs : SetOrder Z}.
Variable P : SVF.

Lemma elem_of_addObjects inst m o i :
  i ∈ default ∅ (addObjects P inst m !! o) <->
  i ∈ default ∅ (m !! o) \/ (i = inst /\ o ∈ getExpandedFIPts P inst).
Proof.
  unfold addObjects. revert m. induction (getExpandedFIPts P inst) as [|o' l IH]; intros m; simpl; [set_solver|].
  rewrite IH. destruct (decide (o = o')) as [->|Hne].
  - rewrite lookup_insert_eq. simpl. set_solver.
  - rewrite lookup_insert_ne by done. set_solver.
Qed.

Lemma elem_of_objMap l o i :
  i ∈ default ∅ (objMap P l !! o) <-> i ∈ l /\ o ∈ getExpandedFIPts P i.
Proof.
  unfold objMap. assert (forall m, i ∈ default ∅ (fold_left (fun m i => addObjects P i m) l m !! o) <->
    i ∈ default ∅ (m !! o) \/ (i ∈ l /\ o ∈ getExpandedFIPts P i)) as H.
  { induction l as [|x l IH]; intros m; simpl; [set_solver|]. rewrite IH, elem_of_addObjects, elem_of_cons. naive_solver. }
  rewrite H, lookup_empty. simpl. set_solver.
Qed.

Lemma scanGroups_spec l s U b U' :
  scanGroups l s U = (b, U') ->
  if b : bool then U' = U /\ exists x, x ∈ l /\ s ⊆ x
  else U' = U \/ exists x, x ⊆ s /\ U' = U ∖ {[x]}.
Proof.
  induction l as [|x l IH]; simpl; [intros; simplify_eq; by left|].
  repeat case_decide; intros; simplify_eq.
  - split; [done|]. exists x. split; [left|done].
  - right. by exists x.
  - specialize (IH ltac:(done)). destruct b; [|done].
    destruct IH as (-> & y & ? & ?). split; [done|]. exists y. split; [by right|done].
Qed.

(** [covers U l]: every group of [l] is included in one of [U]. *)
Definition covers (U : gset (gset value)) (l : list (gset value)) : Prop :=
  forall s, s ∈ l -> exists x, x ∈ U /\ s ⊆ x.

Lemma addGroup_covers U l s : covers U l -> covers (addGroup U s) (s :: l).
Proof.
  intros Hc. unfold addGroup. destruct (decide (s ∈ U)) as [Hs|Hs].
  { intros s' [->|?]%elem_of_cons; [by exists s|auto]. }
  destruct (scanGroups (order U) s U) as [b U'] eqn:He. apply scanGroups_spec in He. destruct b.
  - destruct He as (-> & x & Hx%elem_of_order & Hsx). intros s' [->|?]%elem_of_cons; [by exists x|auto].
  - intros s' [->|[x [Hx Hsx]]%Hc]%elem_of_cons; [exists s; set_solver|].
    destruct He as [->|(y & Hy & ->)]; [exists x; set_solver|].
    destruct (decide (x = y)) as [->|Hne]; [exists s|exists x]; set_solver.
Qed.

Lemma addGroup_incl U s x : x ∈ addGroup U s -> x = s \/ x ∈ U.
Proof.
  unfold addGroup. destruct (decide (s ∈ U)); [by right|].
  destruct (scanGroups (order U) s U) as [b U'] eqn:He. apply scanGroups_spec in He.
  destruct b; [destruct He as (-> & _); by right|].
  intros [->%elem_of_singleton|Hx]%elem_of_union; [by left|right].
  destruct He as [->|(y & _ & ->)]; set_solver.
Qed.

Lemma addGroups_spec l U l0 :
  covers U l0 -> (forall x, x ∈ U -> x ∈ l0) ->
  covers (fold_left addGroup l U) (l ++ l0) /\ forall x, x ∈ fold_left addGroup l U -> x ∈ l ++ l0.
Proof.
  revert U l0. induction l as [|s l IH]; intros U l0 Hc Hi; simpl; [done|].
  destruct (IH (addGroup U s) (s :: l0)) as [H1 H2]; [by apply addGroup_covers| |].
  - intros x [->|Hx]%addGroup_incl; set_solver.
  - assert (forall x, x ∈ l ++ s :: l0 <-> x ∈ s :: l ++ l0) as Hp by set_solver.
    split; [intros x Hx%Hp; by apply H1|intros x Hx; apply Hp; by apply H2].
Qed.

(** Every group is in a remaining one, and every remaining one is a group. *)
Lemma uniqueGroups_spec m :
  (forall o s, m !! o = Some s -> exists x, x ∈ uniqueGroups m /\ s ⊆ x) /\
  (forall x, x ∈ uniqueGroups m -> exists o, m !! o = Some x).
Proof.
  destruct (addGroups_spec (omap (fun o => m !! o) (order (dom m))) ∅ []) as [Hc Hi]; [set_solver..|].
  rewrite app_nil_r in Hc, Hi. split.
  - intros o s Hs. apply Hc, list_elem_of_omap. exists o. split; [|done].
    apply elem_of_order, elem_of_dom. eauto.
  - intros x [o [_ Hx]]%Hi%list_elem_of_omap. eauto.
Qed.

(** Two instructions are in one remaining group exactly when they share an object. *)
Lemma uniqueGroups_pair l i j :
  (exists s, s ∈ uniqueGroups (objMap P l) /\ i ∈ s /\ j ∈ s) <->
  i ∈ l /\ j ∈ l /\ exists o, o ∈ getExpandedFIPts P i /\ o ∈ getExpandedFIPts P j.
Proof.
  destruct (uniqueGroups_spec (objMap P l)) as [Hc Hi]. split.
  - intros (s & [o Ho]%Hi & His & Hjs).
    pose proof (elem_of_objMap l o i) as Hoi. pose proof (elem_of_objMap l o j) as Hoj.
    rewrite Ho in Hoi, Hoj. simpl in *. apply Hoi in His as [? ?]. apply Hoj in Hjs as [? ?]. eauto.
  - intros (Hil & Hjl & o & Hoi & Hoj).
    assert (i ∈ default ∅ (objMap P l !! o)) as H1 by by apply elem_of_objMap.
    assert (j ∈ default ∅ (objMap P l !! o)) as H2 by by apply elem_of_objMap.
    destruct (objMap P l !! o) as [s|] eqn:Ho; [|set_solver].
    destruct (Hc o s Ho) as (x & Hx & Hs). exists x. set_solver.
Qed.

End Groups.

(** ** Which alias edges the pass adds *)
Section AliasEdges.
Context {orderSets : SetOrder (gset value)} {orderInsts : SetOrder value} {orderObjs : SetOrder Z}.
Variable M : IRModule.
Variable P : SVF.
Variable getDependency : value -> option value.

(** The instructions share a points-to object, or one of the two orders of the
    syntactic test says so. *)
Definition mayAlias (i j : value) : Prop :=
  (exists o, o ∈ getExpandedFIPts P i /\ o ∈ getExpandedFIPts P j) \/
  syntacticAlias M i j \/ syntacticAlias M j i.

Lemma mayAlias_sym i j : mayAlias i j -> mayAlias j i.
Proof. intros [(o & ? & ?)|[?|?]]; [left; by exists o|right; by right|right; by left]. Qed.

Lemma aliasPair_sym i j g e : e ∈ aliasPair M i j g -> e ∈ aliasPair M j i g.
Proof.
  destruct e as [[a b] t]. rewrite !elem_of_aliasPair. intros (-> & Ht & Hn).
  split; [done|]. split; [by apply typesAgree_sym|]. destruct Hn as [[? ?]|[? ?]]; auto.
Qed.

Lemma elem_of_listPairs l g e :
  NoDup l -> e ∈ listPairs M l g <-> exists i j, i ∈ l /\ j ∈ l /\ i <> j /\ e ∈ aliasPair M i j g.
Proof.
  induction l as [|x l IH]; intros Hd; simpl; [set_solver|].
  apply NoDup_cons in Hd as [Hx Hd]. rewrite elem_of_app, list_elem_of_bind, IH by done. split.
  - intros [(j & He & Hj)|(i & j & ? & ? & ? & ?)].
    + exists x, j. split_and!; [left|by right| |done]. by intros ->.
    + exists i, j. split_and!; [by right..|done|done].
  - intros (i & j & [->|Hi]%elem_of_cons & [->|Hj]%elem_of_cons & Hne & He); [done|left; eauto..|right; eauto 8].
    exists i. split; [by apply aliasPair_sym|done].
Qed.

(** Two instructions of [f] the pass connects, with their nodes. *)
Definition aliasLink (f : value) (g : GenericGraph) (a b : positive) : Prop :=
  exists i j, i ∈ instructions M f /\ j ∈ instructions M f /\ i <> j /\ typesAgree M i j /\
    getNode g i = Some a /\ getNode g j = Some b /\ mayAlias i j.

Lemma aliasLink_intro f g i j a b :
  i ∈ instructions M f -> j ∈ instructions M f -> i <> j -> mayAlias i j ->
  (a, b, DATA_ALIAS) ∈ aliasPair M i j g -> aliasLink f g a b.
Proof.
  intros Hi Hj Hne Hm (_ & Ht & [[Ha Hb]|[Ha Hb]])%elem_of_aliasPair; [by exists i, j; split_and!|].
  exists j, i. split_and!; auto using typesAgree_sym, mayAlias_sym.
Qed.

(** The edges that are not alias edges. *)
Lemma otherPairs_alias i g a b : (a, b, DATA_ALIAS) ∉ defUsePairs M i g ++ rawPairs M getDependency i g.
Proof.
  rewrite elem_of_app. intros [(u & Hu & _)%list_elem_of_bind|Hr].
  - destruct (getNode g i), (getNode g u); set_solver.
  - unfold rawPairs in Hr. repeat case_match; set_solver.
Qed.

Lemma instPairs_alias f i g a b :
  getFunction M i = f -> (a, b, DATA_ALIAS) ∈ instPairs M getDependency i g <->
  exists j, j ∈ instructions M f /\ i <> j /\ syntacticAlias M i j /\ (a, b, DATA_ALIAS) ∈ aliasPair M i j g.
Proof.
  intros <-. unfold instPairs. rewrite elem_of_app. unfold syntacticPairs, syntacticAlias.
  rewrite list_elem_of_bind. split.
  - intros [H%otherPairs_alias|(j & He & Hj)]; [done|]. exists j. repeat case_match; [set_solver..|done].
  - intros (j & Hj & Hne & Hs & He). right. exists j. rewrite !decide_False by done.
    destruct (isPointerTy (getType M i)) eqn:Hp; [done|].
    by unfold queryAliasUnderApproximate in Hs; rewrite Hp in Hs.
Qed.

Lemma groupPairs_alias l g e :
  e ∈ (order (uniqueGroups (objMap P l)) ≫= fun s => listPairs M (order s) g) <->
  exists i j, i ∈ l /\ j ∈ l /\ i <> j /\ (exists o, o ∈ getExpandedFIPts P i /\ o ∈ getExpandedFIPts P j) /\
    e ∈ aliasPair M i j g.
Proof.
  rewrite list_elem_of_bind. setoid_rewrite elem_of_order. split.
  - intros (s & He & Hs). apply elem_of_listPairs in He as (i & j & Hi%elem_of_order & Hj%elem_of_order & Hne & He);
      [|rewrite order_perm; apply NoDup_elements].
    destruct (proj1 (uniqueGroups_pair P l i j)) as (? & ? & ?); [by exists s|]. by exists i, j.
  - intros (i & j & Hi & Hj & Hne & Ho & He).
    destruct (proj2 (uniqueGroups_pair P l i j)) as (s & Hs & His & Hjs); [done|].
    exists s. split; [|done]. apply elem_of_listPairs; [rewrite order_perm; apply NoDup_elements|].
    exists i, j. by rewrite !elem_of_order.
Qed.

(** [Instruction::getFunction] is the function that holds the instruction. *)
Hypothesis HF : forall f i, i ∈ instructions M f -> getFunction M i = f.

Lemma functionPairs_alias f g a b :
  (a, b, DATA_ALIAS) ∈ functionPairs M P getDependency f g <-> isDeclaration M f = false /\ aliasLink f g a b.
Proof.
  unfold functionPairs. destruct (isDeclaration M f); simpl; [set_solver|].
  case_bool_decide as Hb; [split; [set_solver|]|].
  { intros (_ & i & j & Hi & _). unfold instructions in Hi. rewrite Hb in Hi. set_solver. }
  rewrite elem_of_app, groupPairs_alias, list_elem_of_bind. split.
  - intros Hd. split; [done|]. destruct Hd as [(i & He & Hi)|(i & j & Hi & Hj & Hne & Ho & He)].
    + apply (instPairs_alias f) in He as (j & Hj & Hne & Hs & He); [|by apply HF].
      apply (aliasLink_intro f g i j); [done..| |done]. by right; left.
    + apply (aliasLink_intro f g i j); [done..| |done]. by left.
  - intros (_ & i & j & Hi & Hj & Hne & Ht & Ha & Hb' & Hm).
    assert ((a, b, DATA_ALIAS) ∈ aliasPair M i j g) as He by (apply elem_of_aliasPair; auto).
    destruct Hm as [Ho|[Hs|Hs]]; [right; by exists i, j|left; exists i|left; exists j];
      (split; [apply (instPairs_alias f); [by apply HF|]|done]); [by exists j|].
    exists i. split_and!; [done..|by apply aliasPair_sym].
Qed.

Lemma modulePairs_alias g a b :
  (a, b, DATA_ALIAS) ∈ modulePairs M P getDependency g <->
  exists f, f ∈ functions M /\ isDeclaration M f = false /\ aliasLink f g a b.
Proof.
  unfold modulePairs. rewrite list_elem_of_bind. setoid_rewrite functionPairs_alias. naive_solver.
Qed.

End AliasEdges.

(** ** The endpoints of added edges are nodes of values *)
Section Endpoints.
Context {orderSets : SetOrder (gset value)} {orderInsts : SetOrder value} {orderObjs : SetOrder Z}.
Variable M : IRModule.
Variable P : SVF.
Variable getDependency : value -> option value.
Variable g : GenericGraph.

Definition valueNodes (e : positive * positive * EdgeType) : Prop :=
  exists v w, getNode g v = Some e.1.1 /\ getNode g w = Some e.1.2.

Lemma aliasPair_nodes i j e : e ∈ aliasPair M i j g -> valueNodes e.
Proof. destruct e as [[a b] t]. intros (_ & _ & [[? ?]|[? ?]])%elem_of_aliasPair; eexists _, _; eauto. Qed.

Lemma instPairs_nodes i e : e ∈ instPairs M getDependency i g -> valueNodes e.
Proof.
  unfold instPairs. rewrite !elem_of_app. intros [[(u & Hu & _)%list_elem_of_bind|Hr]|(j & Hj & _)%list_elem_of_bind].
  - destruct (getNode g i) as [a|] eqn:Ha; [|set_solver]. destruct (getNode g u) as [b|] eqn:Hb; [|set_solver].
    apply list_elem_of_singleton in Hu as ->. by exists i, u.
  - unfold rawPairs in Hr. repeat case_match; try set_solver.
    apply list_elem_of_singleton in Hr as ->. eexists _, _. eauto.
  - repeat case_match; try set_solver. by eapply aliasPair_nodes.
Qed.

Lemma modulePairs_nodes e : e ∈ modulePairs M P getDependency g -> valueNodes e.
Proof.
  intros (f & He & _)%list_elem_of_bind. unfold functionPairs in He. case_match; [set_solver|].
  apply elem_of_app in He as [(i & He & _)%list_elem_of_bind|He]; [by eapply instPairs_nodes|].
  apply groupPairs_alias in He as (i & j & _ & _ & _ & _ & He). by eapply aliasPair_nodes.
Qed.

End Endpoints.

(** ** Properties *)

(** C35: the pass adds exactly the alias edges it means to.  On a graph whose mapped
    values have nodes, the result still implements a set of edges that contains the old
    one, and it has an alias edge from [a] to [b] exactly when it had one or the two
    are the nodes of different instructions of a defined function that share a
    points-to object or pass the syntactic test, in either order, and whose types the
    filter accepts: dropping the groups included in another one loses no pair, and the
    alias edges that are added are symmetric. *)
Theorem alias_edges_exact
    {orderSets : SetOrder (gset value)} {orderInsts : SetOrder value} {orderObjs : SetOrder Z}
    M P getDependency g G :
  (forall f i, i ∈ instructions M f -> getFunction M i = f) ->
  represents (heap g) G -> nodes_ok g ->
  exists G', represents (heap (runOnModule M P getDependency g)) G' /\ G ⊆ G' /\
    forall a b, MkEdge a b DATA_ALIAS ∈ G' <->
      MkEdge a b DATA_ALIAS ∈ G \/
      exists f, f ∈ functions M /\ isDeclaration M f = false /\ aliasLink M P f g a b.
Proof.
  intros HF HG Hok. exists (edgesOf (modulePairs M P getDependency g) ∪ G).
  rewrite (proj1 (runOnModule_adds M P getDependency) g). split_and!; [|set_solver|].
  - apply addAll_represents; [done|]. intros a b t (v & w & Ha & Hb)%modulePairs_nodes.
    rewrite getNode_lookup in Ha, Hb. apply Hok in Ha as (? & ? & _), Hb as (? & ? & _).
    split; by eapply elem_of_dom_2.
  - intros a b. rewrite elem_of_union, <- (modulePairs_alias M P getDependency HF g a b).
    unfold edgesOf. rewrite elem_of_list_to_set, list_elem_of_fmap. split.
    + intros [([[a' b'] t'] & [= -> -> <-] & Hin)|]; auto.
    + intros [|Hin]; [by right|left; by exists (a, b, DATA_ALIAS)].
Qed.

(** A function with two loads of pointers that point to one object. *)
Definition ddModule : IRModule := {|
  m_kind := fun p => match p with
                     | 1%positive => KFunction | 2%positive => KBasicBlock
                     | 11%positive => KInst (ILoad (VRef 10)) | 12%positive => KInst (ILoad (VRef 20))
                     | _ => KArgument end;
  m_type := fun _ => TPtr (TInt 32); getName := fun _ => ""%string;
  users := fun _ => []; functions := [VRef 1]; globals := [];
  blocks := fun f => if decide (f = VRef 1) then [VRef 2] else [];
  insts := fun bb => if decide (bb = VRef 2) then [VRef 11; VRef 12] else [];
  fargs := fun _ => []; getParent := fun _ => VRef 2; getBBParent := fun _ => VRef 1;
  isDeclaration := fun _ => false; getCalledFunction := fun _ => None;
  predecessors := fun _ => []; stripPointerCasts := fun v => v; getFunctionNamed := fun _ => None |}.

Definition oneObjectSVF : SVF := {|
  svfType := ty; svf_getPts := fun _ => [7%Z];
  expandFIObjs := fun l => l; getBaseObj := fun o => o; gepBaseNode := fun _ => None;
  isHeap := fun _ => false; isStack := fun _ => true; isGlobalObj := fun _ => false;
  isFIObjVar := fun _ => true; isDummyObjVar := fun _ => false; pagNodes := [];
  nodeLLVMValue := fun _ => None; valueNodeOf := fun _ => None;
  objType := fun _ => None; ptrElementType := fun _ => None; arrayTypeSizes := fun _ => None;
  structByteSize := fun _ => None; svfType_eqb := fun a b => bool_decide (a = b) |}.

(** The graph [build] makes of its instructions. *)
Definition ddGraph : GenericGraph :=
  graph (buildInsts ddModule (instructions ddModule (VRef 1)) (MkProgramGraph emptyGraph ∅ ∅)).

Lemma ddGraph_ok : represents (heap ddGraph) ∅ /\ nodes_ok ddGraph.
Proof.
  destruct (buildInsts_ok ddModule (instructions ddModule (VRef 1)) (MkProgramGraph emptyGraph ∅ ∅) ∅) as (H1 & H2 & _);
    [apply empty_represents|intros v a; simpl; by rewrite lookup_empty|done].
Qed.

Lemma ddModule_getFunction f i : i ∈ instructions ddModule f -> getFunction ddModule i = f.
Proof.
  unfold instructions. simpl. destruct (decide (f = VRef 1)) as [->|]; [done|]. simpl. set_solver.
Qed.

Lemma alias_edges_exact_witness :
  exists G', represents (heap (runOnModule (orderSets := elementsOrder _) (orderInsts := elementsOrder _)
      (orderObjs := elementsOrder _) ddModule oneObjectSVF (fun _ => None) ddGraph)) G' /\
    (∅ : gset Edge) ⊆ G' /\
    forall a b, MkEdge a b DATA_ALIAS ∈ G' <->
      MkEdge a b DATA_ALIAS ∈ (∅ : gset Edge) \/
      exists f, f ∈ functions ddModule /\ isDeclaration ddModule f = false /\ aliasLink ddModule oneObjectSVF f ddGraph a b.
Proof.
  apply (alias_edges_exact (orderSets := elementsOrder _) (orderInsts := elementsOrder _)
    (orderObjs := elementsOrder _) ddModule oneObjectSVF (fun _ => None) ddGraph ∅).
  - exact ddModule_getFunction.
  - exact (proj1 ddGraph_ok).
  - exact (proj2 ddGraph_ok).
Defined.

(** The two loads are linked in the run. *)
Example ddGraph_linked :
  let h := heap (runOnModule (orderSets := elementsOrder _) (orderInsts := elementsOrder _)
    (orderObjs := elementsOrder _) ddModule oneObjectSVF (fun _ => None) ddGraph) in
  match getNode ddGraph (VRef 11), getNode ddGraph (VRef 12) with
  | Some a, Some b => neighborsOf h true a DATA_ALIAS = {[b]} /\ neighborsOf h true b DATA_ALIAS = {[a]}
  | _, _ => False
  end.
Proof. vm_compute. done. Qed.
