(* ===== verification/ControlDep.v ===== *)
(** * Control dependence edges ([ControlDependencyGraph.cpp])

    The function pass that adds [CONTROL] edges to the program dependence graph: from the
    entry node of a function to its entry block, and from the node of a branch condition
    to the blocks that depend on the branch.  LLVM's post-dominator tree is a parameter,
    with its laws in the class [TreeLaws]; the theorem compares the added edges with the
    textbook definition of control dependence. *)
From stdpp Require Import base countable gmap sets list option strings relations.
From Stdlib Require Import ZArith Lia.
From S2P Require Import Prelude LLVM Graph DataDep.

(** The tree's nodes are named by their blocks; [None] is the block of the virtual root.
    [getIDom] is null ([None]) for the root only. *)
Record PostDomTree := {
  dominates : value -> value -> bool;
  findNearestCommonDominator : value -> value -> option value;
  getIDom : option value -> option (option value);
}.

Section ControlDependencyGraph.
Variable M : IRModule.
Variable PDT : PostDomTree.

Definition addControlDepFromNodeToBB (n : addr) (BB : value) (g : GenericGraph) : GenericGraph :=
  fold_left (fun g inst =>
    match getNode g inst with
    | Some inst_node => withHeap (addNeighbor n inst_node CONTROL) g
    | None => g
    end) (insts M BB) g.

(** The entry nodes of the functions that have a wrapper; null is dereferenced otherwise. *)
Definition addControlDepFromEntryNodeToEntryBlock (func_wrapper_map : gmap value addr) (F : value) (g : GenericGraph) :
    option GenericGraph :=
  entry_node ← func_wrapper_map !! F;
  entry_block ← head (blocks M F);
  Some (addControlDepFromNodeToBB entry_node entry_block g).

(** The loop up the tree, from [cur] to [stop]; the virtual root has no block. *)
Fixpoint connectUpTo (fuel : nat) (cond_node : addr) (cur stop : option value) (g : GenericGraph) : option GenericGraph :=
  match fuel with
  | O => None
  | S k =>
    if decide (cur = stop) then Some g
    else
      BB ← cur;
      idom ← getIDom PDT cur;
      connectUpTo k cond_node idom stop (addControlDepFromNodeToBB cond_node BB g)
  end.

(** The loop over the successors; its two [break]s end it. *)
Fixpoint connectSuccessors (fuel : nat) (BB : value) (succs : list value) (g : GenericGraph) : option GenericGraph :=
  match succs with
  | [] => Some g
  | succ_bb :: succs =>
    if bool_decide (BB = succ_bb) || negb (dominates PDT succ_bb BB) then
      match kindOf M (getTerminator M BB) with
      | KInst (IBr None _) => Some g
      | KInst (IBr (Some cond) _) =>
        match getNode g cond with
        | None => Some g
        | Some cond_node =>
          let nearestCommonDominator := findNearestCommonDominator PDT BB succ_bb in
          let g := if decide (nearestCommonDominator = Some BB) then addControlDepFromNodeToBB cond_node succ_bb g else g in
          g ← connectUpTo fuel cond_node (Some succ_bb) nearestCommonDominator g;
          connectSuccessors fuel BB succs g
        end
      | _ => connectSuccessors fuel BB succs g
      end
    else connectSuccessors fuel BB succs g
  end.

Fixpoint connectBlocks (fuel : nat) (bbs : list value) (g : GenericGraph) : option GenericGraph :=
  match bbs with
  | [] => Some g
  | BB :: bbs => g ← connectSuccessors fuel BB (successors M BB) g; connectBlocks fuel bbs g
  end.

Definition computeControlDependencies (fuel : nat) (F : value) (g : GenericGraph) : option GenericGraph :=
  connectBlocks fuel (blocks M F) g.

Definition runOnFunction (fuel : nat) (func_wrapper_map : gmap value addr) (F : value) (g : GenericGraph) :
    option GenericGraph :=
  g ← addControlDepFromEntryNodeToEntryBlock func_wrapper_map F g;
  computeControlDependencies fuel F g.
End ControlDependencyGraph.

(** ** Post-dominance and control dependence *)
Section Dependence.
Variable PDT : PostDomTree.

(** [a] post-dominates [b]: it is [b] or above it in the tree. *)
Definition postDominates (a b : option value) : Prop := rtc (fun x y => getIDom PDT x = Some y) b a.

(** What LLVM promises of the tree: it is one, its queries are its order, and every node
    but the virtual root has a parent. *)
Class TreeLaws := {
  depth : option value -> nat;
  depth_idom a b : getIDom PDT a = Some b -> depth b < depth a;
  virtual_root : getIDom PDT None = None;
  dominates_spec a b : dominates PDT a b = true <-> postDominates (Some a) (Some b);
  common_left a b : postDominates (findNearestCommonDominator PDT a b) (Some a);
  common_right a b : postDominates (findNearestCommonDominator PDT a b) (Some b);
  common_nearest a b c : postDominates c (Some a) -> postDominates c (Some b) ->
    postDominates c (findNearestCommonDominator PDT a b);
}.

(** Control dependence on the edge from [X] to [S], as the textbooks have it: the block
    post-dominates [S] and does not strictly post-dominate [X]. *)
Definition controlDependent (Y X S : value) : Prop :=
  postDominates (Some Y) (Some S) /\ ~ (postDominates (Some Y) (Some X) /\ Y <> X).
End Dependence.

(** ** The edges a run adds *)
Section Edges.
Variable M : IRModule.
Variable PDT : PostDomTree.
Context `{Laws : !TreeLaws PDT}.

Definition blockPairs (n : addr) (BB : value) (g : GenericGraph) : list (addr * addr * EdgeType) :=
  insts M BB ≫= fun inst => match getNode g inst with Some m => [(n, m, CONTROL)] | None => [] end.

Lemma addBB_adds n BB : adds (addControlDepFromNodeToBB M n BB) (blockPairs n BB).
Proof.
  apply adds_fold. intros inst. split.
  - intros g. destruct (getNode g inst); [done|by rewrite withHeap_nil].
  - intros g k. by rewrite getNode_withHeap.
Qed.

Lemma elem_of_blockPairs n BB g a b t :
  (a, b, t) ∈ blockPairs n BB g <-> a = n /\ t = CONTROL /\ exists inst, inst ∈ insts M BB /\ getNode g inst = Some b.
Proof.
  unfold blockPairs. rewrite list_elem_of_bind. split.
  - intros (inst & He & Hi). destruct (getNode g inst) eqn:E; [|by apply elem_of_nil in He].
    apply list_elem_of_singleton in He as [= -> -> ->]. eauto.
  - intros (-> & -> & inst & Hi & E). exists inst. rewrite E. split; [left|done].
Qed.

(** The order of the tree. *)
Lemma postDominates_depth a b : postDominates PDT a b -> a = b \/ depth PDT a < depth PDT b.
Proof.
  induction 1 as [|x y z Hxy _ IH]; [by left|]. right. apply (depth_idom PDT) in Hxy. destruct IH as [->|]; lia.
Qed.

Lemma postDominates_antisym a b : postDominates PDT a b -> postDominates PDT b a -> a = b.
Proof. intros [|H1]%postDominates_depth [|H2]%postDominates_depth; [done..|lia]. Qed.

Lemma postDominates_linear a b c : postDominates PDT a c -> postDominates PDT b c ->
  postDominates PDT a b \/ postDominates PDT b a.
Proof.
  intros Ha. revert b. induction Ha as [|x y z Hxy Hyz IH]; intros b Hb; [by right|].
  inversion Hb as [|? y' ? Hxy']; subst; [left; by eapply rtc_l|]. assert (y = y') as <- by congruence. by apply IH.
Qed.

Lemma postDominates_trans a b c : postDominates PDT a b -> postDominates PDT b c -> postDominates PDT a c.
Proof. unfold postDominates. intros H1 H2. by etrans. Qed.

(** The loop up the tree visits the nodes below its end. *)
Lemma connectUpTo_spec fuel cur stop : depth PDT cur < fuel -> postDominates PDT stop cur ->
  exists l, (forall Y, Y ∈ l <-> postDominates PDT (Some Y) cur /\ postDominates PDT stop (Some Y) /\ stop <> Some Y) /\
    forall n g, connectUpTo M PDT fuel n cur stop g = Some (fold_left (fun g Y => addControlDepFromNodeToBB M n Y g) l g).
Proof.
  revert cur. induction fuel as [|fuel IH]; intros cur Hf Hp; [lia|]. cbn [connectUpTo].
  destruct (decide (cur = stop)) as [->|Hne].
  - exists []. split; [|done]. intros Y. split; [by intros ?%elem_of_nil|].
    intros (H1 & H2 & H3). destruct H3. by apply postDominates_antisym.
  - inversion Hp as [|? y ? Hy Hys]; subst; [done|]. destruct cur as [BB|]; [|by rewrite (virtual_root PDT) in Hy].
    destruct (IH y) as (l & Hl & Hrun); [apply (depth_idom PDT) in Hy; lia|done|]. exists (BB :: l). split.
    + intros Y. rewrite elem_of_cons, Hl. split.
      * intros [->|(H1 & H2 & H3)]; [split_and!; [apply rtc_refl|done|done]|split_and!; [by eapply rtc_l|done|done]].
      * intros (H1 & H2 & H3). inversion H1 as [|? y' ? Hy' Hr]; subst; [by left|]. right.
        assert (y = y') as <- by congruence. done.
    + intros n g. simpl. rewrite Hy. simpl. apply Hrun.
Qed.

(** The blocks connected for one edge are the dependent ones, except that a branch block
    in a longer loop is not connected to its own condition. *)
Definition connected (Y X S : value) : Prop := controlDependent PDT Y X S /\ (Y = X -> S = X).

Lemma below_common X S Y : let N := findNearestCommonDominator PDT X S in
  (postDominates PDT (Some Y) (Some S) /\ postDominates PDT N (Some Y) /\ N <> Some Y) <->
  postDominates PDT (Some Y) (Some S) /\ ~ postDominates PDT (Some Y) (Some X).
Proof.
  intros N. pose proof (common_left PDT X S) as HX. pose proof (common_right PDT X S) as HS. split.
  - intros (H1 & H2 & H3). split; [done|]. intros H4. apply H3, postDominates_antisym; [done|]. by apply (common_nearest PDT).
  - intros (H1 & H2). split; [done|]. assert (~ postDominates PDT (Some Y) N) as Hn.
    { intros H3. apply H2. by eapply postDominates_trans. }
    destruct (postDominates_linear N (Some Y) (Some S)) as [H3|H3]; [done|done| |done].
    split; [done|]. intros HN. apply Hn. rewrite HN. apply rtc_refl.
Qed.

Lemma connected_spec X S Y : let N := findNearestCommonDominator PDT X S in
  connected Y X S <-> (X = S \/ dominates PDT S X = false) /\
    ((N = Some X /\ Y = S) \/ (postDominates PDT (Some Y) (Some S) /\ postDominates PDT N (Some Y) /\ N <> Some Y)).
Proof.
  intros N. unfold N. rewrite below_common. unfold connected, controlDependent.
  pose proof (common_left PDT X S) as HX. pose proof (common_right PDT X S) as HS. fold N in HX, HS |- *.
  assert (dominates PDT S X = false <-> ~ postDominates PDT (Some S) (Some X)) as -> by (rewrite <- not_true_iff_false; by rewrite (dominates_spec PDT)).
  split.
  - intros [[H1 H2] H3]. destruct (decide (Y = X)) as [->|Hne].
    + specialize (H3 eq_refl) as ->. split; [by left|]. left. split; [|done].
      apply postDominates_antisym; [done|]. apply (common_nearest PDT); apply rtc_refl.
    + split.
      * destruct (decide (X = S)) as [|]; [by left|]. right. intros H4. apply H2. split; [|done]. by eapply postDominates_trans.
      * right. split; [done|]. intros H4. by apply H2.
  - intros [H1 [[HN ->]|[H2 H3]]].
    + split; [split|]; [apply rtc_refl| |done]. intros [H4 Hne]. destruct H1 as [->|H1]; [done|by apply H1].
    + split; [split|]; [done|by intros []|]. intros ->. destruct H3. apply rtc_refl.
Qed.

(** The condition of a conditional branch. *)
Definition branchCondition (BB : value) : option value :=
  match kindOf M (getTerminator M BB) with KInst (IBr (Some c) _) => Some c | _ => None end.

Lemma branchCondition_kind BB c : branchCondition BB = Some c ->
  exists ss, kindOf M (getTerminator M BB) = KInst (IBr (Some c) ss).
Proof. unfold branchCondition. intros H. repeat case_match; simplify_eq. eauto. Qed.

(** An operation that returns and adds the edges of a predicate, which depends on the
    nodes of the values only. *)
Definition addsExactly (f : GenericGraph -> option GenericGraph) (E : GenericGraph -> addr * addr * EdgeType -> Prop) : Prop :=
  forall g, exists l, f g = Some (withHeap (addAll l) g) /\ forall e, e ∈ l <-> E g e.

Definition stable (E : GenericGraph -> addr * addr * EdgeType -> Prop) : Prop := forall g k e, E (withHeap k g) e <-> E g e.

Lemma addsExactly_bind f f' E E' : addsExactly f E -> addsExactly f' E' -> stable E' ->
  addsExactly (fun g => g ← f g; f' g) (fun g e => E g e \/ E' g e).
Proof.
  intros Hf Hf' Hst g. red in Hst. destruct (Hf g) as (l & -> & Hl). simpl. destruct (Hf' (withHeap (addAll l) g)) as (l' & -> & Hl').
  exists (l ++ l'). rewrite withHeap_app. split; [done|]. intros e. by rewrite elem_of_app, Hl, Hl', Hst.
Qed.

Lemma addsExactly_ret : addsExactly Some (fun _ _ => False).
Proof. intros g. exists []. rewrite withHeap_nil. split; [done|]. intros e. split; [by intros ?%elem_of_nil|done]. Qed.

Lemma addsExactly_pure f E : adds f E -> addsExactly (fun g => Some (f g)) (fun g e => e ∈ E g).
Proof. intros [Hf _] g. exists (E g). by rewrite Hf. Qed.

Lemma addsExactly_ext f f' E E' : (forall g, f g = f' g) -> (forall g e, E g e <-> E' g e) -> addsExactly f E -> addsExactly f' E'.
Proof. intros Hf HE H g. destruct (H g) as (l & Hl & He). exists l. rewrite <- Hf. split; [done|]. intros e. by rewrite He. Qed.

(** The edges from a condition's node to the instructions of a block. *)
Definition blockEdges (n : addr) (Y : value) (g : GenericGraph) (e : addr * addr * EdgeType) : Prop :=
  exists inst m, e = (n, m, CONTROL) /\ inst ∈ insts M Y /\ getNode g inst = Some m.

Lemma blockEdges_pairs n Y g e : e ∈ blockPairs n Y g <-> blockEdges n Y g e.
Proof. destruct e as [[a b] t]. rewrite elem_of_blockPairs. unfold blockEdges. naive_solver. Qed.

(** The edges for one edge of the function, from [BB] to [S]. *)
Definition branchEdges (BB S : value) (g : GenericGraph) (e : addr * addr * EdgeType) : Prop :=
  exists c n Y, branchCondition BB = Some c /\ getNode g c = Some n /\ connected Y BB S /\ blockEdges n Y g e.

Lemma branchEdges_stable BB S : stable (branchEdges BB S).
Proof. done. Qed.

(** The steps for one edge, once the condition has a node. *)
Lemma connectEdge_spec fuel BB S n : depth PDT (Some S) < fuel -> (BB = S \/ dominates PDT S BB = false) ->
  addsExactly (fun g =>
      let N := findNearestCommonDominator PDT BB S in
      let g := if decide (N = Some BB) then addControlDepFromNodeToBB M n S g else g in
      connectUpTo M PDT fuel n (Some S) N g)
    (fun g e => exists Y, connected Y BB S /\ blockEdges n Y g e).
Proof.
  intros Hf Hg g. destruct (connectUpTo_spec fuel (Some S) (findNearestCommonDominator PDT BB S)) as (l & Hl & Hrun);
    [done|apply (common_right PDT)|].
  destruct (adds_fold (addControlDepFromNodeToBB M n) (blockPairs n) l (addBB_adds n)) as [Hfold HE].
  set (N := findNearestCommonDominator PDT BB S) in *. cbv zeta.
  exists ((if decide (N = Some BB) then blockPairs n S g else []) ++ (l ≫= fun Y => blockPairs n Y g)). split.
  - rewrite Hrun, Hfold. f_equal. destruct (decide (N = Some BB)); [|done].
    destruct (addBB_adds n S) as [-> _]. by rewrite HE, withHeap_app.
  - intros e. rewrite elem_of_app, list_elem_of_bind. setoid_rewrite blockEdges_pairs. setoid_rewrite connected_spec. fold N. split.
    + intros [H|(Y & He & HY%Hl)]; [|exists Y; auto]. destruct (decide (N = Some BB)); [|by apply elem_of_nil in H].
      apply blockEdges_pairs in H. exists S. auto.
    + intros (Y & (_ & [[HN ->]|HY]) & He); [left|right; exists Y; by rewrite Hl].
      rewrite decide_True by done. by apply blockEdges_pairs.
Qed.

Lemma connectSuccessors_spec fuel BB succs : (forall S, S ∈ succs -> depth PDT (Some S) < fuel) ->
  addsExactly (connectSuccessors M PDT fuel BB succs) (fun g e => exists S, S ∈ succs /\ branchEdges BB S g e).
Proof.
  induction succs as [|S succs IH]; intros Hf.
  - eapply addsExactly_ext; [done| |apply addsExactly_ret]. intros g e. split; [done|]. intros (S & []%elem_of_nil & _).
  - assert (forall S, S ∈ succs -> depth PDT (Some S) < fuel) as Hf' by (intros; apply Hf; by right). specialize (IH Hf').
    assert (forall g, (forall e, ~ branchEdges BB S g e) -> forall e, (exists S, S ∈ succs /\ branchEdges BB S g e) <->
      exists S', S' ∈ S :: succs /\ branchEdges BB S' g e) as Hskip.
    { intros g Hno e. setoid_rewrite elem_of_cons. split; [naive_solver|]. intros (S' & [->|?] & He); [by apply Hno in He|eauto]. }
    intros g. cbn [connectSuccessors].
    destruct (bool_decide (BB = S) || negb (dominates PDT S BB)) eqn:Hg.
    + destruct (branchCondition BB) as [c|] eqn:Hc; [destruct (getNode g c) as [n|] eqn:Hn|].
      * assert (BB = S \/ dominates PDT S BB = false) as Hg'.
        { apply orb_true_iff in Hg as [?%bool_decide_eq_true|?%negb_true_iff]; auto. }
        destruct (connectEdge_spec fuel BB S n (Hf S (list_elem_of_here _ _)) Hg' g) as (l1 & Hl1 & He1). cbv zeta in Hl1.
        destruct (IH (withHeap (addAll l1) g)) as (l2 & Hl2 & He2). exists (l1 ++ l2). split.
        -- destruct (branchCondition_kind BB c Hc) as [ss ->]. rewrite Hn.
           rewrite Hl1. simpl. by rewrite Hl2, withHeap_app.
        -- intros e. rewrite elem_of_app, He1, He2. setoid_rewrite elem_of_cons.
           unfold branchEdges. setoid_rewrite Hc. split.
           ++ intros [(Y & ? & ?)|(S' & ? & He)]; [exists S; split; [by left|]; exists c, n, Y; auto|].
              exists S'. split; [by right|]. exact He.
           ++ intros (S' & [->|?] & He); [left|right; exists S'; split; [done|exact He]].
              destruct He as (c' & n' & Y & [= <-] & Hn' & ? & ?). exists Y. split; [done|]. congruence.
      * exists []. rewrite withHeap_nil. split; [destruct (branchCondition_kind BB c Hc) as [ss ->]; by rewrite Hn|].
        intros e. split; [by intros ?%elem_of_nil|]. intros (S' & _ & c' & n & Y & Hc' & Hn' & _). congruence.
      * destruct (IH g) as (l & Hl & He).
        assert (forall S' e, ~ branchEdges BB S' g e) as Hno by (intros S' e (c & n & Y & Hc' & _); congruence).
        unfold branchCondition in Hc. destruct (kindOf M (getTerminator M BB)) as [| | | | | | | | |i|]; try (exists l; split; [done|]; intros e; rewrite He; by apply Hskip).
        destruct i; try (exists l; split; [done|]; intros e; rewrite He; by apply Hskip).
        destruct cond; [done|]. exists []. rewrite withHeap_nil. split; [done|].
        intros e. split; [by intros ?%elem_of_nil|]. intros (S' & _ & []%Hno).
    + destruct (IH g) as (l & Hl & He). exists l. split; [done|]. intros e. rewrite He. apply Hskip.
      intros e' (c & n & Y & _ & _ & [Hd _]%connected_spec & _). apply orb_false_iff in Hg as [H1%bool_decide_eq_false H2].
      apply negb_false_iff in H2. destruct Hd; congruence.
Qed.

Lemma connectBlocks_spec fuel bbs : (forall BB S, BB ∈ bbs -> S ∈ successors M BB -> depth PDT (Some S) < fuel) ->
  addsExactly (connectBlocks M PDT fuel bbs)
    (fun g e => exists BB S, BB ∈ bbs /\ S ∈ successors M BB /\ branchEdges BB S g e).
Proof.
  induction bbs as [|BB bbs IH]; intros Hf.
  - eapply addsExactly_ext; [done| |apply addsExactly_ret]. intros g e. split; [done|]. intros (BB & S & []%elem_of_nil & _).
  - eapply addsExactly_ext; [| |apply addsExactly_bind;
      [apply (connectSuccessors_spec fuel BB (successors M BB))|apply IH|]]; [done| | |by intros BB' S ?; apply Hf; right|done].
    + intros g e. setoid_rewrite elem_of_cons. naive_solver.
    + intros S. apply Hf. left.
Qed.

(** The edges of a run on [F]. *)
Definition controlEdges (entry_node : addr) (F : value) (g : GenericGraph) (e : addr * addr * EdgeType) : Prop :=
  (exists BB, head (blocks M F) = Some BB /\ blockEdges entry_node BB g e) \/
  (exists BB S, BB ∈ blocks M F /\ S ∈ successors M BB /\ branchEdges BB S g e).

Lemma controlEdges_adds fuel map F n BB : map !! F = Some n -> head (blocks M F) = Some BB ->
  (forall BB S, BB ∈ blocks M F -> S ∈ successors M BB -> depth PDT (Some S) < fuel) ->
  addsExactly (runOnFunction M PDT fuel map F) (controlEdges n F).
Proof.
  intros Hn HBB Hf. eapply addsExactly_ext; [| |apply addsExactly_bind;
    [apply (addsExactly_pure _ _ (addBB_adds n BB))|apply (connectBlocks_spec fuel (blocks M F) Hf)|done]].
  - intros g. unfold runOnFunction, addControlDepFromEntryNodeToEntryBlock. by rewrite Hn, HBB.
  - intros g e. cbv beta. rewrite blockEdges_pairs. unfold controlEdges. rewrite HBB. naive_solver.
Qed.
End Edges.

(** ** Properties *)

(** C36: on a defined function with a wrapper the pass returns, and adds exactly these
    [CONTROL] edges: from the entry node to the instructions of the entry block, and from
    the node of a branch condition to the instructions of the blocks that are control
    dependent on an edge of the branch, in the textbook sense, except that a branch block
    that closes a longer loop is not made dependent on itself. *)
Theorem control_edges_exact M PDT {Laws : TreeLaws PDT} fuel map F n BB g G :
  map !! F = Some n -> head (blocks M F) = Some BB ->
  (forall BB S, BB ∈ blocks M F -> S ∈ successors M BB -> depth PDT (Some S) < fuel) ->
  represents (heap g) G -> nodes_ok g -> n ∈ dom (heap g) ->
  exists g' G', runOnFunction M PDT fuel map F g = Some g' /\ represents (heap g') G' /\
    forall a b t, MkEdge a b t ∈ G' <-> MkEdge a b t ∈ G \/
      t = CONTROL /\ exists inst, getNode g inst = Some b /\
        ((a = n /\ inst ∈ insts M BB) \/
         exists X S c Y, X ∈ blocks M F /\ S ∈ successors M X /\ branchCondition M X = Some c /\ getNode g c = Some a /\
           inst ∈ insts M Y /\ controlDependent PDT Y X S /\ (Y = X -> S = X)).
Proof.
  intros Hn HBB Hf HG Hok Hdom. destruct (controlEdges_adds M PDT fuel map F n BB Hn HBB Hf g) as (l & Hrun & Hl).
  exists (withHeap (addAll l) g), (edgesOf l ∪ G). split; [done|].
  assert (forall v a, getNode g v = Some a -> a ∈ dom (heap g)) as Hnode.
  { intros v a Hv. rewrite getNode_lookup in Hv. destruct (Hok v a Hv) as (nd & Ha & _). by eapply elem_of_dom_2. }
  assert (forall a b t, controlEdges M PDT n F g (a, b, t) <-> t = CONTROL /\ exists inst, getNode g inst = Some b /\
        ((a = n /\ inst ∈ insts M BB) \/
         exists X S c Y, X ∈ blocks M F /\ S ∈ successors M X /\ branchCondition M X = Some c /\ getNode g c = Some a /\
           inst ∈ insts M Y /\ controlDependent PDT Y X S /\ (Y = X -> S = X))) as Hedges.
  { intros a b t. unfold controlEdges, branchEdges, blockEdges, connected. rewrite HBB. naive_solver. }
  split.
  - apply addAll_represents; [done|]. intros a b t (-> & inst & Hb & Ha)%Hl%Hedges. split; [|by apply (Hnode inst)].
    destruct Ha as [[-> _]|(X & S & c & Y & _ & _ & _ & Hc & _)]; [done|by apply (Hnode c)].
  - intros a b t. rewrite elem_of_union, <- Hedges, <- Hl. unfold edgesOf. rewrite elem_of_list_to_set, list_elem_of_fmap. split.
    + intros [([[a' b'] t'] & [= -> -> ->] & H)|H]; auto.
    + intros [H|H]; [by right|left]. by exists (a, b, t).
Qed.

(** ** A tree from parents, and a loop *)
Section TreeOf.
Variable parent : value -> option value.
Variable heightOf : value -> nat.
Hypothesis heightOf_parent : forall a b, parent a = Some b -> heightOf b < heightOf a.

Definition idomOf (x : option value) : option (option value) := parent <$> x.
Definition depthOf (x : option value) : nat := match x with Some a => S (heightOf a) | None => 0 end.

Fixpoint ancestors (fuel : nat) (x : option value) : list (option value) :=
  match fuel with
  | O => []
  | S k => x :: match idomOf x with Some y => ancestors k y | None => [] end
  end.
Definition above (a : value) : list (option value) := ancestors (S (S (heightOf a))) (Some a).

Definition treeOf : PostDomTree := {|
  dominates := fun a b => bool_decide (Some a ∈ above b);
  findNearestCommonDominator := fun a b => default None (find (fun x => bool_decide (x ∈ above b)) (above a));
  getIDom := idomOf |}.

Lemma depthOf_idom a b : idomOf a = Some b -> depthOf b < depthOf a.
Proof.
  destruct a as [a|]; [|done]. unfold idomOf. simpl. intros [= <-]. destruct (parent a) eqn:E; simpl; [|lia].
  apply heightOf_parent in E. lia.
Qed.

Lemma elem_of_ancestors fuel x y : depthOf x < fuel -> y ∈ ancestors fuel x <-> postDominates treeOf y x.
Proof.
  revert x. induction fuel as [|fuel IH]; intros x Hf; [lia|]. cbn [ancestors]. rewrite elem_of_cons. split.
  - intros [->|Hy]; [apply rtc_refl|]. destruct (idomOf x) as [z|] eqn:E; [|by apply elem_of_nil in Hy].
    eapply rtc_l; [exact E|]. apply IH; [apply depthOf_idom in E; lia|done].
  - intros Hy. inversion Hy as [|? z ? Hz Hr]; subst; [by left|]. right. simpl in Hz. rewrite Hz.
    apply IH; [apply depthOf_idom in Hz; lia|done].
Qed.

Lemma elem_of_above a y : y ∈ above a <-> postDominates treeOf y (Some a).
Proof. apply elem_of_ancestors. simpl. lia. Qed.

Lemma first_common (p : option value -> bool) fuel x N c : depthOf x < fuel ->
  find p (ancestors fuel x) = Some N -> c ∈ ancestors fuel x -> p c = true -> postDominates treeOf c N.
Proof.
  revert x. induction fuel as [|fuel IH]; intros x Hf; [lia|]. intros Hfind Hc Hp.
  pose proof (proj1 (elem_of_ancestors (S fuel) x c Hf) Hc) as Hcx. cbn [ancestors] in Hfind, Hc. cbn [find] in Hfind.
  destruct (p x) eqn:Hx; [by injection Hfind as <-|]. apply elem_of_cons in Hc as [->|Hc]; [congruence|].
  destruct (idomOf x) as [z|] eqn:E; [|by apply elem_of_nil in Hc]. apply (IH z); [apply depthOf_idom in E; lia|done..].
Qed.

Lemma root_dominates n x : depthOf x < n -> postDominates treeOf None x.
Proof.
  revert x. induction n as [|n IH]; intros [a|] Hn; [lia|lia| |apply rtc_refl].
  eapply rtc_l; [reflexivity|]. apply IH. assert (depthOf (parent a) < depthOf (Some a)) by (by apply depthOf_idom). lia.
Qed.

Lemma common_found a b : exists N, find (fun x => bool_decide (x ∈ above b)) (above a) = Some N /\ N ∈ above a /\ N ∈ above b.
Proof.
  destruct (find (fun x => bool_decide (x ∈ above b)) (above a)) as [N|] eqn:E.
  - apply find_some in E as [H1 H2%bool_decide_eq_true]. exists N. by rewrite list_elem_of_In.
  - exfalso. pose proof (find_none _ _ E None) as H. cbv beta in H. rewrite bool_decide_eq_false in H. apply H.
    + apply list_elem_of_In, elem_of_above, (root_dominates (S (depthOf (Some a)))). lia.
    + apply elem_of_above, (root_dominates (S (depthOf (Some b)))). lia.
Qed.

#[export] Instance treeOf_laws : TreeLaws treeOf.
Proof.
  refine {| depth := depthOf |}.
  - exact depthOf_idom.
  - done.
  - intros a b. simpl. by rewrite bool_decide_eq_true, elem_of_above.
  - intros a b. cbn [findNearestCommonDominator treeOf]. destruct (common_found a b) as (N & -> & H & _). by apply elem_of_above.
  - intros a b. cbn [findNearestCommonDominator treeOf]. destruct (common_found a b) as (N & -> & _ & H). by apply elem_of_above.
  - intros a b c Ha%elem_of_above Hb%elem_of_above. cbn [findNearestCommonDominator treeOf]. destruct (common_found a b) as (N & HN & _). rewrite HN. simpl.
    apply (first_common (fun x => bool_decide (x ∈ above b)) (S (S (heightOf a))) (Some a)); [simpl; lia|done|done|].
    by apply bool_decide_eq_true.
Defined.
End TreeOf.

Module LoopExample.

(** Block 2 enters a loop of the blocks 3 and 4; block 4 branches back to 3 or to 5. *)
Definition loopModule : IRModule := {|
  m_kind := fun p => match p with
    | 1 => KFunction | 2 | 3 | 4 | 5 => KBasicBlock
    | 12 => KInst (IBr None [VRef 3]) | 13 => KInst (ILoad (VRef 90)) | 14 => KInst (IBr None [VRef 4])
    | 15 => KInst (IICmp ICMP_EQ (VRef 13) (VRef 13)) | 16 => KInst (IBr (Some (VRef 15)) [VRef 3; VRef 5])
    | 17 => KInst (IRet None) | _ => KArgument end%positive;
  m_type := fun _ => TInt 32; getName := fun _ => ""%string; users := fun _ => []; functions := [VRef 1]; globals := [];
  blocks := fun f => if decide (f = VRef 1) then [VRef 2; VRef 3; VRef 4; VRef 5] else [];
  insts := fun bb => match bb with
    | VRef 2 => [VRef 12] | VRef 3 => [VRef 13; VRef 14] | VRef 4 => [VRef 15; VRef 16] | VRef 5 => [VRef 17] | _ => [] end;
  fargs := fun _ => []; getParent := fun _ => VRef 2; getBBParent := fun _ => VRef 1;
  isDeclaration := fun _ => false; getCalledFunction := fun _ => None;
  predecessors := fun _ => []; stripPointerCasts := fun v => v; getFunctionNamed := fun _ => None |}.

Definition parent (v : value) : option value :=
  match v with VRef 2 => Some (VRef 3) | VRef 3 => Some (VRef 4) | VRef 4 => Some (VRef 5) | _ => None end.
Definition heightOf (v : value) : nat := match v with VRef 2 => 3 | VRef 3 => 2 | VRef 4 => 1 | _ => 0 end.
Lemma heightOf_parent a b : parent a = Some b -> heightOf b < heightOf a.
Proof. unfold parent. repeat case_match; intros [= <-]; simpl; lia. Qed.

Definition tree : PostDomTree := treeOf parent heightOf.
#[export] Instance tree_laws : TreeLaws tree := treeOf_laws parent heightOf heightOf_parent.

(** The built graph with an entry node. *)
Definition built : GenericGraph := graph (buildInsts loopModule (instructions loopModule (VRef 1)) (MkProgramGraph emptyGraph ∅ ∅)).
Definition entry : addr := fresh (dom (heap built)).
Definition start : GenericGraph :=
  MkGraph (_val_node_map built) ({[entry]} ∪ _node_set built) (<[entry := newNode GraphNodeType.FUNC_ENTRY]> (heap built)) true.
Definition wrappers : gmap value addr := {[VRef 1 := entry]}.

Lemma start_ok : represents (heap start) ∅ /\ nodes_ok start.
Proof.
  destruct (buildInsts_ok loopModule (instructions loopModule (VRef 1)) (MkProgramGraph emptyGraph ∅ ∅) ∅) as (H1 & H2 & _);
    [apply empty_represents|intros v a; simpl; by rewrite lookup_empty|].
  pose proof (is_fresh (dom (heap built))) as Hf. split.
  - apply insert_represents; [exact H1|done|apply newNode_view].
  - intros v a Hv. destruct (H2 v a Hv) as (nd & Ha & Hval). exists nd. split; [|done]. simpl. rewrite lookup_insert_ne; [done|].
    intros E. apply Hf. change (fresh (dom (heap built))) with entry. rewrite E. by eapply elem_of_dom_2.
Qed.

Lemma control_edges_exact_witness : exists g' G', runOnFunction loopModule tree 6 wrappers (VRef 1) start = Some g' /\
  represents (heap g') G' /\ exists a b, MkEdge a b CONTROL ∈ G' /\ getNode start (VRef 15) = Some a /\ getNode start (VRef 13) = Some b.
Proof.
  destruct start_ok as [HG Hok].
  destruct (control_edges_exact loopModule tree 6 wrappers (VRef 1) entry (VRef 2) start ∅) as (g' & G' & Hrun & HG' & Hedges);
    [unfold wrappers; by rewrite lookup_singleton_eq|reflexivity| |exact HG|exact Hok|apply elem_of_dom; simpl; by rewrite lookup_insert_eq|].
  - intros BB S HBB HS. change (BB ∈ [VRef 2; VRef 3; VRef 4; VRef 5]) in HBB. change (depth tree (Some S)) with (1 + heightOf S).
    unfold heightOf. repeat case_match; lia.
  - exists g', G'. split; [done|]. split; [done|].
    destruct (getNode start (VRef 15)) as [a|] eqn:Ha; [|exfalso; vm_compute in Ha; discriminate].
    destruct (getNode start (VRef 13)) as [b|] eqn:Hb; [|exfalso; vm_compute in Hb; discriminate].
    exists a, b. split; [|done]. apply Hedges. right. split; [done|]. exists (VRef 13). split; [exact Hb|]. right.
    exists (VRef 4), (VRef 3), (VRef 15), (VRef 3). split_and!; [set_solver|set_solver|reflexivity|exact Ha|set_solver| |discriminate].
    split; [apply rtc_refl|]. intros [H _]. apply (dominates_spec tree) in H. vm_compute in H. discriminate.
Defined.

(** Block 4 depends on its own branch, but its instructions get no edge. *)
Lemma loop_branch_not_self_dependent :
  controlDependent tree (VRef 4) (VRef 4) (VRef 3) /\
  match getNode start (VRef 15), getNode start (VRef 16), runOnFunction loopModule tree 6 wrappers (VRef 1) start with
  | Some c, Some br, Some g => match heap g !! c with
    | Some nd => br ∉ getOutNeighborsWithDepType nd CONTROL
    | None => False end
  | _, _, _ => False
  end.
Proof.
  split.
  - split; [apply (dominates_spec tree); reflexivity|]. by intros [_ []].
  - vm_compute. done.
Qed.
End LoopExample.
