(* ===== verification/CallGraph.v ===== *)
(** * The call graph ([PDGCallGraph.cpp])

    A graph with a node per defined function, [CALL] edges for direct calls and [IND_CALL]
    edges for indirect ones, to the exported functions whose signature matches; and the
    searches on it: reachability, one path, and the closure without the excluded
    functions.  The lines of the file of exported names, the return types, the variadic
    functions and the names of structure types are arguments. *)
From stdpp Require Import base countable gmap sets list option strings relations.
From Stdlib Require Import ZArith Lia.
From S2P Require Import Prelude LLVM Graph DataDep.

(** [pdgutils::stripVersionTag]: the text before the second dot, which is not looked for
    in the first character. *)
Definition stripVersionTag (str : string) : string :=
  match String.index 1 "." str with
  | None => str
  | Some pos =>
    match String.index (pos + 1) "." str with
    | None => str
    | Some pos => String.substring 0 pos str
    end
  end.

Definition _exclude_func_names : list string :=
  ["warn_slowpath_fmt"; "netdev_warn"; "netdev_err"; "netdev_info"; "dev_warn"; "dev_err"; "dev_info"; "kasprintf";
   "kvasprintf"; "copy_user_overflow"]%string.

Section PDGCallGraph.
Context {orderFuncs : SetOrder value} {orderAddr : SetOrder addr}.
Variable M : IRModule.
Variable isVarArg : value -> bool.
Variable getReturnType : value -> ty.
Variable getStructName : positive -> string.
Variable _exported_func_names : list string.

Definition isExcludeFunc (F : value) : bool :=
  bool_decide (stripFuncNameVersionNumber (getName M F) ∈ _exclude_func_names).
Definition isExportedFunc (F : value) : bool :=
  bool_decide (stripFuncNameVersionNumber (getName M F) ∈ _exported_func_names).

(** *** Signatures *)
Definition isTypeEqual (t1 t2 : ty) : bool :=
  if decide (t1 = t2) then true
  else
    match t1, t2 with
    | TPtr (TStruct s1), TPtr (TStruct s2) =>
      String.eqb (stripVersionTag (getStructName s1)) (stripVersionTag (getStructName s2))
    | _, _ => false
    end.

Fixpoint argsMatch (actual formal : list value) : bool :=
  match actual, formal with
  | a :: actual, f :: formal => if negb (isTypeEqual (getType M a) (getType M f)) then false else argsMatch actual formal
  | _, _ => true
  end.

Definition isFuncSignatureMatch (ci f : value) : bool :=
  if isVarArg f then false
  else if negb (length (callArgs M ci) =? length (fargs M f))%nat then false
  else if negb (isTypeEqual (getType M ci) (getReturnType f)) then false
  else argsMatch (callArgs M ci) (fargs M f).

(** [F.isDeclaration() || F.empty()] *)
Definition skipped (F : value) : bool := isDeclaration M F || bool_decide (LLVM.blocks M F = []).

Definition getIndirectCallCandidates (ci : value) : gset value :=
  list_to_set (filter (fun F => skipped F = false /\ isFuncSignatureMatch ci F = true /\ isExportedFunc F = true) (functions M)).

(** *** Construction *)
Definition addFuncNode (F : value) (g : GenericGraph) : GenericGraph :=
  let n := fresh (dom (heap g)) in
  MkGraph (match _val_node_map g !! F with Some _ => _val_node_map g | None => <[F := n]> (_val_node_map g) end)
    ({[n]} ∪ _node_set g) (<[n := newValueNode M F GraphNodeType.FUNC]> (heap g)) (_is_build g).

Definition addFuncNodes (l : list value) (g : GenericGraph) : GenericGraph :=
  fold_left (fun g F => if skipped F then g else addFuncNode F g) l g.

(** An edge to the callee's node, if it has one; the caller is defined and has one. *)
Definition connectCall (caller callee : value) (t : EdgeType) (g : GenericGraph) : GenericGraph :=
  match getNode g caller, getNode g callee with
  | Some caller_node, Some callee_node => withHeap (addNeighbor caller_node callee_node t) g
  | _, _ => g
  end.

Definition connectCallInst (F ci : value) (g : GenericGraph) : GenericGraph :=
  if negb (isCallInst M ci) then g
  else
    match getCalledFunc M ci with
    | Some called_func => connectCall F called_func CALL g
    | None => fold_left (fun g ind_call_can => connectCall F ind_call_can IND_CALL g) (order (getIndirectCallCandidates ci)) g
    end.

Definition connectFunction (F : value) (g : GenericGraph) : GenericGraph :=
  if skipped F then g else fold_left (fun g i => connectCallInst F i g) (instructions M F) g.

Definition setIsBuild (g : GenericGraph) : GenericGraph := MkGraph (_val_node_map g) (_node_set g) (heap g) true.

Definition build (g : GenericGraph) : GenericGraph :=
  setIsBuild (fold_left (fun g F => connectFunction F g) (functions M) (addFuncNodes (functions M) g)).

(** *** Searches *)
Variable h : Heap.

Definition outNeighbors (n : addr) : list addr :=
  match h !! n with Some nd => order (getOutNeighbors nd) | None => [] end.

Fixpoint canReachFrom (fuel : nat) (sink : addr) (seen_node : gset addr) (node_queue : list addr) : option bool :=
  match fuel with
  | O => None
  | S k =>
    match node_queue with
    | [] => Some false
    | n :: node_queue =>
      if decide (n = sink) then Some true
      else if decide (n ∈ seen_node) then canReachFrom k sink seen_node node_queue
      else canReachFrom k sink ({[n]} ∪ seen_node) (node_queue ++ outNeighbors n)
    end
  end.

Definition canReach (fuel : nat) (src sink : addr) : option bool := canReachFrom fuel sink ∅ [src].

(** The function of a node; the assertion fails for other nodes. *)
Definition nodeFunction (n : addr) : option value :=
  nd ← h !! n;
  v ← _val nd;
  match kindOf M v with KFunction => Some v | _ => None end.

(** [computePathsHelper]: the paths found, and whether one was; [cur_path] and
    [visited_funcs] are passed by value. *)
Fixpoint computePathsHelper (fuel : nat) (path_vecs : list (list value)) (src sink : addr) (cur_path : list value)
    (visited_funcs : gset value) (found_path : bool) : option (list (list value) * bool) :=
  match fuel with
  | O => None
  | S k =>
    if found_path then Some (path_vecs, true)
    else
      src_func ← nodeFunction src;
      sink_func ← nodeFunction sink;
      if decide (src_func ∈ visited_funcs) then Some (path_vecs, false)
      else
        let visited_funcs := {[src_func]} ∪ visited_funcs in
        let cur_path := cur_path ++ [src_func] in
        if decide (src_func = sink_func) then Some (path_vecs ++ [cur_path], true)
        else
          fold_left (fun acc out_neighbor =>
            '(path_vecs, found_path) ← acc;
            computePathsHelper k path_vecs out_neighbor sink cur_path visited_funcs found_path)
            (outNeighbors src) (Some (path_vecs, false))
  end.

Definition computePaths (fuel : nat) (src sink : addr) : option (list (list value)) :=
  fst <$> computePathsHelper fuel [] src sink [] ∅ false.

(** The neighbours [computeTransitiveClosure] follows. *)
Definition followedNeighbors (n : addr) : list addr :=
  filter (fun m => match nodeFunction m with Some f => negb (isExcludeFunc f) | None => true end = true) (outNeighbors n).

Fixpoint closureFrom (fuel : nat) (seen_node : gset addr) (ret node_queue : list addr) : option (list addr) :=
  match fuel with
  | O => None
  | S k =>
    match node_queue with
    | [] => Some ret
    | n :: node_queue =>
      if decide (n ∈ seen_node) then closureFrom k seen_node ret node_queue
      else closureFrom k ({[n]} ∪ seen_node) (ret ++ [n]) (node_queue ++ followedNeighbors n)
    end
  end.

Definition computeTransitiveClosure (fuel : nat) (src : addr) : option (list addr) := closureFrom fuel ∅ [] [src].
End PDGCallGraph.

(** ** What the construction adds *)
Section Nodes.
Variable M : IRModule.

(** Nodes for the defined functions. *)
Lemma addFuncNode_ok F g G : represents (heap g) G -> nodes_ok g ->
  represents (heap (addFuncNode M F g)) G /\ nodes_ok (addFuncNode M F g) /\
  forall v, is_Some (getNode (addFuncNode M F g) v) <-> is_Some (getNode g v) \/ v = F.
Proof.
  intros HG Hok. pose proof (is_fresh (dom (heap g))) as Hf. split_and!.
  - by apply insert_represents; [| |apply newValueNode_view].
  - intros v a. unfold addFuncNode. simpl. intros Hv.
    assert (_val_node_map g !! v = Some a \/ (v = F /\ a = fresh (dom (heap g)))) as [Hold|[-> ->]].
    { destruct (_val_node_map g !! F); [by left|]. apply lookup_insert_Some in Hv as [[<- <-]|[_ Hv]]; auto. }
    + destruct (Hok v a Hold) as (nd & Ha & Hval). exists nd. rewrite lookup_insert_ne; [done|].
      intros <-. apply Hf. by apply elem_of_dom.
    + exists (newValueNode M F GraphNodeType.FUNC). by rewrite lookup_insert_eq.
  - intros v. rewrite !getNode_lookup. unfold addFuncNode. simpl. destruct (_val_node_map g !! F) eqn:E.
    + split; [by left|]. intros [?| ->]; [done|by rewrite E].
    + rewrite lookup_insert_is_Some. destruct (decide (F = v)); naive_solver.
Qed.

Lemma addFuncNodes_ok l g G : represents (heap g) G -> nodes_ok g ->
  represents (heap (addFuncNodes M l g)) G /\ nodes_ok (addFuncNodes M l g) /\
  forall v, is_Some (getNode (addFuncNodes M l g) v) <-> is_Some (getNode g v) \/ (v ∈ l /\ skipped M v = false).
Proof.
  revert g. induction l as [|F l IH]; intros g HG Hok; simpl; [split_and!; [done|done|set_solver]|].
  destruct (skipped M F) eqn:E.
  - destruct (IH g HG Hok) as (H1 & H2 & H3). split_and!; [done|done|]. intros v. rewrite H3, elem_of_cons.
    split; [intros [?|[? ?]]; auto|]. intros [?|[[->|?] ?]]; [by left|congruence|by right].
  - destruct (addFuncNode_ok F g G HG Hok) as (H1 & H2 & H3). destruct (IH _ H1 H2) as (H4 & H5 & H6).
    split_and!; [done|done|]. intros v. rewrite H6, H3, elem_of_cons.
    split; [intros [[?| ->]|[? ?]]; auto|]. intros [?|[[->|?] ?]]; auto.
Qed.
End Nodes.

Section Build.
Context {orderFuncs : SetOrder value}.
Variable M : IRModule.
Variable isVarArg : value -> bool.
Variable getReturnType : value -> ty.
Variable getStructName : positive -> string.
Variable exported : list string.

Abbreviation candidates := (getIndirectCallCandidates M isVarArg getReturnType getStructName exported).

Definition defined (F : value) : Prop := F ∈ functions M /\ skipped M F = false.

Lemma elem_of_candidates ci F : F ∈ candidates ci <->
  defined F /\ isFuncSignatureMatch M isVarArg getReturnType getStructName ci F = true /\ isExportedFunc M exported F = true.
Proof.
  unfold getIndirectCallCandidates, defined. rewrite elem_of_list_to_set, list_elem_of_filter. naive_solver.
Qed.

(** The call instruction [ci] may call [G], in the way the edge type says. *)
Definition calls (ci G : value) (t : EdgeType) : Prop :=
  isCallInst M ci = true /\
  ((t = CALL /\ getCalledFunc M ci = Some G) \/ (t = IND_CALL /\ getCalledFunc M ci = None /\ G ∈ candidates ci)).

Definition callPair (F G : value) (t : EdgeType) (g : GenericGraph) : list (addr * addr * EdgeType) :=
  match getNode g F, getNode g G with Some a, Some b => [(a, b, t)] | _, _ => [] end.

Lemma connectCall_adds F G t : adds (connectCall F G t) (callPair F G t).
Proof.
  split; [|done]. intros g. unfold connectCall, callPair.
  destruct (getNode g F), (getNode g G); try done; by rewrite withHeap_nil.
Qed.

Definition instEdges (F ci : value) (g : GenericGraph) : list (addr * addr * EdgeType) :=
  if negb (isCallInst M ci) then []
  else match getCalledFunc M ci with
    | Some G => callPair F G CALL g
    | None => order (candidates ci) ≫= fun G => callPair F G IND_CALL g
    end.

Lemma connectCallInst_adds F ci : adds (connectCallInst M isVarArg getReturnType getStructName exported F ci) (instEdges F ci).
Proof.
  unfold connectCallInst, instEdges. destruct (isCallInst M ci); simpl; [|apply adds_id].
  destruct (getCalledFunc M ci) as [G|]; [apply connectCall_adds|].
  apply (adds_fold (fun G => connectCall F G IND_CALL)). intros G. apply connectCall_adds.
Qed.

Lemma elem_of_callPair F G t g a b t' : (a, b, t') ∈ callPair F G t g <-> t' = t /\ getNode g F = Some a /\ getNode g G = Some b.
Proof.
  unfold callPair. destruct (getNode g F), (getNode g G); rewrite ?list_elem_of_singleton; try (split; [by intros ?%elem_of_nil|naive_solver]).
  naive_solver.
Qed.

Lemma elem_of_instEdges F ci g a b t : (a, b, t) ∈ instEdges F ci g <->
  getNode g F = Some a /\ exists G, calls ci G t /\ getNode g G = Some b.
Proof.
  unfold instEdges, calls. destruct (isCallInst M ci); simpl; [|split; [by intros ?%elem_of_nil|by intros (_ & G & [[=] _] & _)]].
  destruct (getCalledFunc M ci) as [G|].
  - rewrite elem_of_callPair. split; [intros (-> & HF & HG); eauto 10|].
    intros (HF & G' & (_ & [[-> [= <-]]|(_ & [=] & _)]) & HG). done.
  - rewrite list_elem_of_bind. setoid_rewrite elem_of_callPair. setoid_rewrite elem_of_order. split.
    + intros (G & (-> & HF & HG) & Hc). eauto 10.
    + intros (HF & G & (_ & [[_ [=]]|(-> & _ & Hc)]) & HG). exists G. done.
Qed.

Definition functionEdges (F : value) (g : GenericGraph) : list (addr * addr * EdgeType) :=
  if skipped M F then [] else instructions M F ≫= fun ci => instEdges F ci g.

Lemma connectFunction_adds F : adds (connectFunction M isVarArg getReturnType getStructName exported F) (functionEdges F).
Proof.
  unfold connectFunction, functionEdges. destruct (skipped M F); [apply adds_id|].
  apply (adds_fold (connectCallInst M isVarArg getReturnType getStructName exported F)). apply connectCallInst_adds.
Qed.

End Build.

Lemma dom_addAll l (h : gmap positive Node) : dom (addAll l h) = dom h.
Proof.
  revert h. induction l as [|[[a b] t] l IH]; intros h; [done|]. unfold addAll. simpl. fold (addAll l (addNeighbor a b t h)).
  by rewrite IH, dom_addNeighbor.
Qed.

(** Edges do not change the values of the nodes. *)
Lemma addAll_val l (h : gmap positive Node) n nd : h !! n = Some nd -> exists nd', addAll l h !! n = Some nd' /\ _val nd' = _val nd.
Proof.
  revert h nd. induction l as [|[[a b] t] l IH]; intros h nd Hn; [by exists nd|]. unfold addAll. simpl.
  destruct (IH (addNeighbor a b t h) ((if decide (b = n) then addIn (MkEdge a b t) else id)
    ((if decide (a = n) then addOut (MkEdge a b t) else id) nd))) as (nd' & H1 & H2).
  - by rewrite lookup_addNeighbor, Hn.
  - exists nd'. split; [exact H1|]. rewrite H2. by destruct (decide (b = n)), (decide (a = n)).
Qed.

(** [build] makes a node for each defined function and no other value, and its edges
    are exactly the calls between defined functions: a [CALL] edge for the function a call
    instruction names, an [IND_CALL] edge for every exported defined function whose
    signature matches a call through a pointer. *)
Theorem call_graph_exact {orderFuncs : SetOrder value} M isVarArg getReturnType getStructName exported :
  let g := build M isVarArg getReturnType getStructName exported emptyGraph in
  (forall v, is_Some (getNode g v) <-> defined M v) /\ nodes_ok g /\
  exists G, represents (heap g) G /\
    forall a b t, MkEdge a b t ∈ G <-> exists F ci C, defined M F /\ ci ∈ instructions M F /\
      calls M isVarArg getReturnType getStructName exported ci C t /\ getNode g F = Some a /\ getNode g C = Some b.
Proof.
  intros g. destruct (addFuncNodes_ok M (functions M) emptyGraph ∅ empty_represents) as (H1 & H2 & H3);
    [intros v a; simpl; by rewrite lookup_empty|].
  set (g0 := addFuncNodes M (functions M) emptyGraph) in *.
  destruct (adds_fold (connectFunction M isVarArg getReturnType getStructName exported) _ (functions M)
    (connectFunction_adds M isVarArg getReturnType getStructName exported)) as [Hfold _].
  specialize (Hfold g0). set (l := functions M ≫= _) in Hfold.
  assert (g = setIsBuild (withHeap (addAll l) g0)) as Hg by (unfold g, build; fold g0; by rewrite Hfold).
  assert (forall v, getNode g v = getNode g0 v) as Hget by (intros v; by rewrite Hg).
  assert (forall a b t, (a, b, t) ∈ l <-> exists F ci C, defined M F /\ ci ∈ instructions M F /\
    calls M isVarArg getReturnType getStructName exported ci C t /\ getNode g F = Some a /\ getNode g C = Some b) as Hl.
  { intros a b t. unfold l. rewrite list_elem_of_bind. setoid_rewrite Hget. split.
    - intros (F & He & HF). unfold functionEdges in He. destruct (skipped M F) eqn:E; [by apply elem_of_nil in He|].
      apply list_elem_of_bind in He as (ci & (Ha & C & Hc & Hb)%elem_of_instEdges & Hci). by exists F, ci, C.
    - intros (F & ci & C & [HF E] & Hci & Hc & Ha & Hb). exists F. split; [|done]. unfold functionEdges. rewrite E.
      apply list_elem_of_bind. exists ci. split; [|done]. apply elem_of_instEdges. eauto. }
  split_and!.
  - intros v. rewrite Hget, H3. unfold defined. unfold getNode at 1, hasNode. simpl. rewrite lookup_empty.
    rewrite bool_decide_eq_false_2 by (by intros []). simpl. split; [intros [[? [=]]|?]; done|auto].
  - intros v a Hv. rewrite Hg in Hv |- *. destruct (H2 v a Hv) as (nd & Ha & Hval).
    destruct (addAll_val l (heap g0) a nd Ha) as (nd' & Ha' & Hval'). exists nd'. split; [done|]. by rewrite Hval'.
  - exists (edgesOf l ∪ ∅). split.
    + rewrite Hg. apply addAll_represents; [done|]. intros a b t (F & ci & C & _ & _ & _ & Ha & Hb)%Hl.
      rewrite Hget, getNode_lookup in Ha, Hb. apply H2 in Ha as (? & ? & _), Hb as (? & ? & _).
      split; by eapply elem_of_dom_2.
    + intros a b t. rewrite union_empty_r_L, <- Hl. unfold edgesOf. rewrite elem_of_list_to_set, list_elem_of_fmap. split.
      * intros ([[a' b'] t'] & [= -> -> ->] & H). exact H.
      * intros H. by exists (a, b, t).
Qed.

(** ** The searches *)
Section Searches.
Context {orderAddr : SetOrder addr}.
Variable M : IRModule.
Variable h : Heap.
Variable G : gset Edge.
Hypothesis HG : represents h G.

Definition callStep (a b : addr) : Prop := exists t, MkEdge a b t ∈ G.

Lemma outNeighbors_spec a b : b ∈ outNeighbors h a <-> callStep a b.
Proof using HG.
  unfold outNeighbors, callStep. destruct (h !! a) as [nd|] eqn:Ha.
  - rewrite elem_of_order. apply (nv_out_nb _ _ _ (rep_view _ _ HG _ _ Ha)).
  - split; [by intros ?%elem_of_nil|]. intros (t & [Hd _]%(rep_closed _ _ HG)). apply not_elem_of_dom in Ha. done.
Qed.

Lemma rtc_outNeighbors a b : rtc (edge (outNeighbors h)) a b <-> rtc callStep a b.
Proof using HG. split; apply rtc_subrel; intros x y; apply outNeighbors_spec. Qed.

Lemma callStep_dom a b : callStep a b -> a ∈ dom h /\ b ∈ dom h.
Proof using HG. intros [t Ht]. apply (rep_closed _ _ HG _ Ht). Qed.

(** A bound on the iterations of a breadth-first search. *)
Definition searchFuel (src : addr) : nat := S (search_measure (outNeighbors h) (dom h) ∅ [src]).

Lemma outNeighbors_outside n : n ∉ dom h -> outNeighbors h n = [].
Proof using Type. intros Hn%not_elem_of_dom. unfold outNeighbors. by rewrite Hn. Qed.

Lemma canReachFrom_spec fuel sink src visited queue :
  search_inv (outNeighbors h) src visited queue -> sink ∉ visited ->
  search_measure (outNeighbors h) (dom h) visited queue < fuel ->
  exists b, canReachFrom h fuel sink visited queue = Some b /\ (b = true <-> rtc callStep src sink).
Proof using HG.
  setoid_rewrite <- rtc_outNeighbors.
  revert visited queue. induction fuel as [|k IH]; intros visited queue Hi Hs Hf; [lia|].
  cbn [canReachFrom]. destruct queue as [|n queue].
  { exists false. split; [done|]. rewrite <- (search_inv_done _ _ _ _ Hi). naive_solver. }
  destruct (decide (n = sink)) as [->|Hne].
  { exists true. split; [done|]. split; [|done]. intros _. eapply si_queue; [done|left]. }
  destruct (decide (n ∈ visited)) as [Hv|Hv].
  { apply IH; [by eapply search_inv_skip|done|]. unfold search_measure in *. simpl in Hf. lia. }
  apply IH; [|set_solver|].
  - eapply search_inv_visit; [|done]. intros y. by rewrite elem_of_app.
  - eapply Nat.lt_le_trans; [apply (search_measure_visit _ _ _ _ queue)|apply Nat.lt_succ_r, Hf];
      [done|apply outNeighbors_outside|]. by rewrite length_app.
Qed.

(** The closure: everything reachable through functions that are not excluded. *)
Definition notExcluded (n : addr) : bool :=
  match nodeFunction M h n with Some f => negb (isExcludeFunc M f) | None => true end.
Definition closureStep (a b : addr) : Prop := callStep a b /\ notExcluded b = true.

Lemma followedNeighbors_spec a b : edge (followedNeighbors M h) a b <-> closureStep a b.
Proof using HG. unfold edge, followedNeighbors. rewrite list_elem_of_filter, outNeighbors_spec. unfold closureStep, notExcluded. tauto. Qed.

Lemma closureFrom_spec fuel src visited ret queue :
  search_inv (followedNeighbors M h) src visited queue -> NoDup ret -> (forall x, x ∈ ret <-> x ∈ visited) ->
  search_measure (followedNeighbors M h) (dom h) visited queue < fuel ->
  exists l, closureFrom M h fuel visited ret queue = Some l /\ NoDup l /\ forall x, x ∈ l <-> rtc closureStep src x.
Proof using HG.
  revert visited ret queue. induction fuel as [|k IH]; intros visited ret queue Hi Hnd Hr Hf; [lia|].
  cbn [closureFrom]. destruct queue as [|n queue].
  { exists ret. split_and!; [done|done|]. intros x. rewrite Hr, (search_inv_done _ _ _ _ Hi).
    split; apply rtc_subrel; intros y z; apply followedNeighbors_spec. }
  destruct (decide (n ∈ visited)) as [Hv|Hv].
  { apply IH; [by eapply search_inv_skip|done|done|]. unfold search_measure in *. simpl in Hf. lia. }
  apply IH.
  - eapply search_inv_visit; [|done]. intros y. by rewrite elem_of_app.
  - apply NoDup_app. split_and!; [done| |apply NoDup_singleton]. intros x Hx%Hr ->%list_elem_of_singleton. done.
  - intros x. rewrite elem_of_app, list_elem_of_singleton, Hr. set_solver.
  - eapply Nat.lt_le_trans; [apply (search_measure_visit _ _ _ _ queue)|apply Nat.lt_succ_r, Hf]; [done| |by rewrite length_app].
    intros Hn. unfold followedNeighbors. by rewrite outNeighbors_outside.
Qed.

(** *** One path *)

(** The nodes are the functions, each once. *)
Hypothesis Hfun : forall n, n ∈ dom h -> is_Some (nodeFunction M h n).
Hypothesis Hinj : forall a b f, nodeFunction M h a = Some f -> nodeFunction M h b = Some f -> a = b.

Definition avoids (V : gset value) (n : addr) : Prop := forall f, nodeFunction M h n = Some f -> f ∉ V.
Definition stepAvoiding (V : gset value) (a b : addr) : Prop := callStep a b /\ avoids V b.

(** A way to [sink] need not come back to its start. *)
Lemma leave_once V s f x sink : nodeFunction M h s = Some f -> rtc (stepAvoiding V) x sink -> sink <> s ->
  rtc (stepAvoiding ({[f]} ∪ V)) x sink \/ exists m, stepAvoiding ({[f]} ∪ V) s m /\ rtc (stepAvoiding ({[f]} ∪ V)) m sink.
Proof using Hinj.
  intros Hs Hr Hne. induction Hr as [x|x y z [Hxy Hy] _ IH]; [left; apply rtc_refl|].
  destruct (IH Hne) as [H|H]; [|by right]. destruct (decide (y = s)) as [->|Hys].
  - right. inversion H as [|? m ? Hm Hms]; subst; [done|]. eauto.
  - left. apply rtc_l with y; [|done]. split; [done|]. intros f' Hf' [->%elem_of_singleton|Hin]%elem_of_union; [|by apply (Hy f')].
    apply Hys. by apply (Hinj _ _ f).
Qed.

Lemma leave_start V s f sink : nodeFunction M h s = Some f -> rtc (stepAvoiding V) s sink -> sink <> s ->
  exists m, stepAvoiding ({[f]} ∪ V) s m /\ rtc (stepAvoiding ({[f]} ∪ V)) m sink.
Proof using Hinj.
  intros Hs Hr Hne. destruct (leave_once V s f s sink Hs Hr Hne) as [H|H]; [|done].
  inversion H as [|? m ? Hm Hms]; subst; [done|]. eauto.
Qed.

(** The functions along a way through the graph. *)
Inductive pathOf : addr -> addr -> list value -> Prop :=
| path_end a f : nodeFunction M h a = Some f -> pathOf a a [f]
| path_step a b c f l : nodeFunction M h a = Some f -> callStep a b -> pathOf b c l -> pathOf a c (f :: l).

(** The functions not visited yet. *)
Definition unvisited (V : gset value) : gset addr :=
  filter (fun n => match nodeFunction M h n with Some f => bool_decide (f ∉ V) | None => false end = true) (dom h).

Lemma unvisited_smaller V s f : s ∈ dom h -> nodeFunction M h s = Some f -> f ∉ V ->
  size (unvisited ({[f]} ∪ V)) < size (unvisited V).
Proof using Type.
  clear HG Hfun Hinj. intros Hd Hs Hf. apply subset_size. split.
  - intros n. unfold unvisited. rewrite !elem_of_filter. intros [H ?]. split; [|done].
    destruct (nodeFunction M h n); [rewrite bool_decide_eq_true in *; set_solver|done].
  - intros Hsub. assert (s ∈ unvisited ({[f]} ∪ V)) as H.
    { apply Hsub, elem_of_filter. rewrite Hs, bool_decide_eq_true. done. }
    apply elem_of_filter in H as [H _]. rewrite Hs, bool_decide_eq_true in H. set_solver.
Qed.

(** What the search from [src] returns: a path of functions not visited, or none exists. *)
Definition helperResult (V : gset value) (src sink : addr) (pv : list (list value)) (cur : list value)
    (r : list (list value) * bool) : Prop :=
  if r.2 then exists fs, r.1 = pv ++ [cur ++ fs] /\ pathOf src sink fs /\ NoDup fs /\ forall f, f ∈ fs -> f ∉ V
  else r.1 = pv /\ ~ (avoids V src /\ rtc (stepAvoiding V) src sink).

Abbreviation helper := (computePathsHelper M h).

Lemma neighbours_result fuel V sink l pv cur :
  (forall m, m ∈ l -> exists r, helper fuel pv m sink cur V false = Some r /\ helperResult V m sink pv cur r) ->
  (forall m pv', m ∈ l -> helper fuel pv' m sink cur V true = Some (pv', true)) ->
  exists r, fold_left (fun acc m => '(pv, found) ← acc; helper fuel pv m sink cur V found) l (Some (pv, false)) = Some r /\
    ((r.2 = true /\ exists m, m ∈ l /\ helperResult V m sink pv cur r) \/
     (r = (pv, false) /\ forall m, m ∈ l -> ~ (avoids V m /\ rtc (stepAvoiding V) m sink))).
Proof using Type.
  clear HG Hfun Hinj. intros Hrun Hfound. assert (forall l' pv', (forall m, m ∈ l' -> m ∈ l) ->
    fold_left (fun acc m => '(pv, found) ← acc; helper fuel pv m sink cur V found) l' (Some (pv', true)) = Some (pv', true)) as Hstop.
  { induction l' as [|m l' IH]; intros pv' Hl; [done|]. simpl. rewrite Hfound by (apply Hl; left). apply IH. intros; apply Hl; by right. }
  assert (forall l', (forall m, m ∈ l' -> m ∈ l) ->
    exists r, fold_left (fun acc m => '(pv, found) ← acc; helper fuel pv m sink cur V found) l' (Some (pv, false)) = Some r /\
    ((r.2 = true /\ exists m, m ∈ l' /\ helperResult V m sink pv cur r) \/
     (r = (pv, false) /\ forall m, m ∈ l' -> ~ (avoids V m /\ rtc (stepAvoiding V) m sink)))) as Hgen; [|by apply Hgen].
  induction l' as [|m l' IH]; intros Hl; [exists (pv, false); split; [done|]; right; split; [done|]; by intros m ?%elem_of_nil|].
  simpl. destruct (Hrun m) as ([pv' b] & Hm & Hres); [apply Hl; left|]. rewrite Hm. destruct b.
  - rewrite Hstop by (intros; apply Hl; by right). eexists. split; [done|]. left. split; [done|]. exists m. split; [left|done].
  - destruct Hres as [Hpv Hno]. simpl in Hpv. subst pv'. destruct IH as (r & Hr & [[H1 (m' & Hm' & H2)]|[-> H2]]); [intros; apply Hl; by right| |].
    + exists r. split; [done|]. left. split; [done|]. exists m'. split; [by right|done].
    + exists (pv, false). split; [done|]. right. split; [done|]. intros m' [->|Hm']%elem_of_cons; [done|by apply H2].
Qed.

Lemma computePathsHelper_spec fuel V src sink pv cur : src ∈ dom h -> sink ∈ dom h -> size (unvisited V) < fuel ->
  exists r, helper fuel pv src sink cur V false = Some r /\ helperResult V src sink pv cur r.
Proof using HG Hfun Hinj.
  revert V src pv cur. induction fuel as [|k IH]; intros V src pv cur Hsrc Hsink Hf; [lia|]. cbn [computePathsHelper].
  destruct (Hfun src Hsrc) as [f Hfs]. destruct (Hfun sink Hsink) as [g Hgs]. rewrite Hfs, Hgs. simpl.
  destruct (decide (f ∈ V)) as [HV|HV].
  { exists (pv, false). split; [done|]. split; [done|]. intros [Ha _]. by apply (Ha f). }
  destruct (decide (f = g)) as [<-|Hfg].
  { exists (pv ++ [cur ++ [f]], true). split; [done|]. exists [f]. split_and!; [done| |apply NoDup_singleton|set_solver].
    assert (src = sink) as -> by (by apply (Hinj _ _ f)). by constructor. }
  assert (sink <> src) as Hne by (intros ->; congruence).
  pose proof (unvisited_smaller V src f Hsrc Hfs HV) as Hlt.
  destruct (neighbours_result k ({[f]} ∪ V) sink (outNeighbors h src) pv (cur ++ [f])) as (r & Hr & Hres).
  - intros m Hm%outNeighbors_spec. apply IH; [by apply (callStep_dom src m)|done|lia].
  - intros m pv' _. destruct k; [lia|done].
  - exists r. split; [exact Hr|]. destruct Hres as [[Hb (m & Hm & Hres)]|[-> Hno]].
    + unfold helperResult in *. rewrite Hb in *. destruct Hres as (fs & Hpv & Hp & Hnd & Hav). exists (f :: fs). split_and!.
      * rewrite Hpv. by list_simplifier.
      * apply path_step with m; [done|by apply outNeighbors_spec|done].
      * apply NoDup_cons. split; [|done]. intros Hin%Hav. set_solver.
      * intros f' [->|Hin%Hav]%elem_of_cons; [done|set_solver].
    + split; [done|]. intros [_ Hreach]. destruct (leave_start V src f sink Hfs Hreach Hne) as (m & [Hm Hav] & Hrm).
      apply (Hno m); [by apply outNeighbors_spec|done].
Qed.
End Searches.

(** ** The searches on a built call graph *)
Section Built.
Context {orderFuncs : SetOrder value} {orderAddr : SetOrder addr}.
Variable M : IRModule.
Variable isVarArg : value -> bool.
Variable getReturnType : value -> ty.
Variable getStructName : positive -> string.
Variable exported : list string.

(** A function may call another: they are defined and an instruction of the first calls
    the second. *)
Definition mayCall (F C : value) : Prop :=
  defined M F /\ defined M C /\ exists ci t, ci ∈ instructions M F /\ calls M isVarArg getReturnType getStructName exported ci C t.

Definition theGraph : GenericGraph := build M isVarArg getReturnType getStructName exported emptyGraph.

(** A module lists a function once, and functions are functions. *)
Hypothesis HND : NoDup (functions M).
Hypothesis HK : forall F, F ∈ functions M -> kindOf M F = KFunction.

Lemma addFuncNodes_nodes l g : NoDup l -> (forall v, v ∈ l -> getNode g v = None) ->
  (forall n, n ∈ dom (heap g) -> exists v, getNode g v = Some n) ->
  forall n, n ∈ dom (heap (addFuncNodes M l g)) -> exists v, getNode (addFuncNodes M l g) v = Some n.
Proof using Type.
  clear HND HK isVarArg getReturnType getStructName exported orderFuncs orderAddr.
  revert g. induction l as [|F l IH]; intros g Hnd Hnew Hd; [done|]. apply NoDup_cons in Hnd as [HF Hnd]. simpl.
  assert (forall v, v ∈ l -> getNode g v = None) as Hnew' by (intros; apply Hnew; by right).
  destruct (skipped M F); [by apply IH|].
  assert (forall v, getNode (addFuncNode M F g) v = if decide (v = F) then Some (fresh (dom (heap g))) else getNode g v) as Hget.
  { intros v. specialize (Hnew F (list_elem_of_here _ _)). rewrite getNode_lookup in Hnew. rewrite !getNode_lookup.
    unfold addFuncNode. simpl. rewrite Hnew. destruct (decide (v = F)) as [->|Hne]; [by rewrite lookup_insert_eq|by rewrite lookup_insert_ne]. }
  apply IH; [done| |].
  - intros v Hv. rewrite Hget, decide_False; [by apply Hnew'|]. by intros ->.
  - intros n. unfold addFuncNode at 1. simpl. rewrite dom_insert_L, elem_of_union, elem_of_singleton. intros [->|Hn].
    + exists F. by rewrite Hget, decide_True.
    + destruct (Hd n Hn) as [v Hv]. exists v. rewrite Hget, decide_False; [done|]. intros ->.
      specialize (Hnew F (list_elem_of_here _ _)). congruence.
Qed.

Lemma theGraph_heap : exists l, theGraph = setIsBuild (withHeap (addAll l) (addFuncNodes M (functions M) emptyGraph)).
Proof using Type.
  destruct (adds_fold (connectFunction M isVarArg getReturnType getStructName exported) _ (functions M)
    (connectFunction_adds M isVarArg getReturnType getStructName exported)) as [Hfold _].
  eexists. unfold theGraph, build. by rewrite Hfold.
Qed.

(** Every node of the graph is the node of a defined function. *)
Lemma theGraph_nodes n : n ∈ dom (heap theGraph) -> exists F, defined M F /\ getNode theGraph F = Some n.
Proof using HND.
  clear HK. intros Hn. destruct (call_graph_exact M isVarArg getReturnType getStructName exported) as (Hdef & _ & _).
  fold theGraph in Hdef. destruct theGraph_heap as [l Hl].
  destruct (addFuncNodes_nodes (functions M) emptyGraph HND) with (n := n) as [F HF].
  - intros v _. rewrite getNode_lookup. simpl. by rewrite lookup_empty.
  - intros m. simpl. by rewrite dom_empty, elem_of_empty.
  - rewrite Hl in Hn. simpl in Hn. by rewrite dom_addAll in Hn.
  - exists F. assert (getNode theGraph F = Some n) as HF' by (by rewrite Hl). split; [|done]. apply Hdef. by rewrite HF'.
Qed.

Lemma nodeFunction_iff n F : nodeFunction M (heap theGraph) n = Some F <-> getNode theGraph F = Some n.
Proof using HND HK.
  destruct (call_graph_exact M isVarArg getReturnType getStructName exported) as (Hdef & Hok & _).
  fold theGraph in Hdef, Hok. unfold nodeFunction. split.
  - intros H. destruct (heap theGraph !! n) as [nd|] eqn:Hn; [|done]. simpl in H.
    destruct (theGraph_nodes n) as (F' & HF' & Hget); [by eapply elem_of_dom_2|].
    pose proof Hget as Hget'. rewrite getNode_lookup in Hget'. destruct (Hok _ _ Hget') as (nd' & Hnd' & Hval).
    assert (nd' = nd) as -> by congruence. rewrite Hval in H. simpl in H. rewrite (HK F' (proj1 HF')) in H. by injection H as <-.
  - intros Hget. assert (defined M F) as HF by (apply Hdef; by rewrite Hget).
    pose proof Hget as Hget'. rewrite getNode_lookup in Hget'. destruct (Hok _ _ Hget') as (nd & -> & Hval).
    simpl. rewrite Hval. simpl. by rewrite (HK F (proj1 HF)).
Qed.

(** The edges are the possible calls. *)
Lemma theGraph_steps : exists G, represents (heap theGraph) G /\
  (forall a b, callStep G a b <-> exists F C, mayCall F C /\ getNode theGraph F = Some a /\ getNode theGraph C = Some b) /\
  (forall F C a b, getNode theGraph F = Some a -> getNode theGraph C = Some b -> rtc (callStep G) a b <-> rtc mayCall F C).
Proof using HND HK.
  destruct (call_graph_exact M isVarArg getReturnType getStructName exported) as (Hdef & Hok & G & HG & Hedges).
  fold theGraph in Hdef, Hok, HG, Hedges. exists G.
  assert (forall a b, callStep G a b <-> exists F C, mayCall F C /\ getNode theGraph F = Some a /\ getNode theGraph C = Some b) as Hstep.
  { intros a b. unfold callStep, mayCall. setoid_rewrite Hedges. split.
    - intros (t & F & ci & C & HF & Hci & Hc & Ha & Hb). exists F, C. split_and!; [done| |eauto|done|done]. apply Hdef. by rewrite Hb.
    - intros (F & C & (HF & HC & ci & t & Hci & Hc) & Ha & Hb). by exists t, F, ci, C. }
  assert (forall F C a, getNode theGraph F = Some a -> getNode theGraph C = Some a -> F = C) as Hinj.
  { intros F C a HF%nodeFunction_iff HC%nodeFunction_iff. congruence. }
  split_and!; [done|done|]. intros F C a b Ha Hb. split.
  - intros Hr. revert F Ha. induction Hr as [a|a c b Hac _ IH]; intros F Ha; [rewrite (Hinj F C a) by done; apply rtc_refl|].
    apply Hstep in Hac as (F' & D & Hc & Ha' & Hd). rewrite (Hinj F F' a) by done. eapply rtc_l; [done|]. by apply IH.
  - intros Hr. revert a Ha. induction Hr as [F|F D C Hc _ IH]; intros a Ha; [replace b with a by congruence; apply rtc_refl|].
    assert (is_Some (getNode theGraph D)) as [d Hd] by (apply Hdef, Hc).
    eapply rtc_l; [apply Hstep; exists F, D; split_and!; [exact Hc|done|exact Hd]|]. by apply IH.
Qed.

(** A chain of calls from [F] to [C]. *)
Inductive callChain : value -> value -> list value -> Prop :=
| chain_end F : callChain F F [F]
| chain_call F D C l : mayCall F D -> callChain D C l -> callChain F C (F :: l).
End Built.

(** C37: on the call graph of a module that lists each function once, the searches end:
    [canReach] answers whether a chain of possible calls leads from one function to the
    other, and [computePaths] returns one such chain, without repetition, exactly when
    there is one. *)
Theorem call_chains_found {orderFuncs : SetOrder value} {orderAddr : SetOrder addr}
    M isVarArg getReturnType getStructName exported F C a b fuel1 fuel2 :
  let g := theGraph M isVarArg getReturnType getStructName exported in
  let mayCall := mayCall M isVarArg getReturnType getStructName exported in
  NoDup (functions M) -> (forall F, F ∈ functions M -> kindOf M F = KFunction) ->
  getNode g F = Some a -> getNode g C = Some b -> searchFuel (heap g) a <= fuel1 -> size (dom (heap g)) < fuel2 ->
  (exists r, canReach (heap g) fuel1 a b = Some r /\ (r = true <-> rtc mayCall F C)) /\
  exists ps, computePaths M (heap g) fuel2 a b = Some ps /\
    ((ps = [] /\ ~ rtc mayCall F C) \/
     exists fs, ps = [fs] /\ callChain M isVarArg getReturnType getStructName exported F C fs /\ NoDup fs).
Proof.
  intros g mc HND HK Ha Hb Hf1 Hf2.
  destruct (theGraph_steps M isVarArg getReturnType getStructName exported HND HK) as (G & HG & Hstep & Hrtc).
  fold g mc in HG, Hstep, Hrtc. pose proof (nodeFunction_iff M isVarArg getReturnType getStructName exported HND HK) as Hnf. fold g in Hnf.
  split.
  - destruct (canReachFrom_spec (heap g) G HG fuel1 b a ∅ [a]) as (r & Hr & Hiff);
      [apply search_inv_init|set_solver|unfold searchFuel in Hf1; lia|].
    exists r. split; [exact Hr|]. by rewrite Hiff, (Hrtc F C).
  - assert (forall v n, getNode g v = Some n -> n ∈ dom (heap g)) as Hdom.
    { intros v n Hv%Hnf. unfold nodeFunction in Hv. destruct (heap g !! n) eqn:E; [|done]. by eapply elem_of_dom_2. }
    destruct (computePathsHelper_spec M (heap g) G HG) with (fuel := fuel2) (V := (∅ : gset value)) (src := a) (sink := b)
      (pv := ([] : list (list value))) (cur := ([] : list value)) as ([ps found] & Hrun & Hres).
    + intros n Hn. destruct (theGraph_nodes M isVarArg getReturnType getStructName exported HND n Hn) as (f & _ & Hget).
      apply Hnf in Hget. eauto.
    + intros x y f Hx%Hnf Hy%Hnf. congruence.
    + by apply (Hdom F).
    + by apply (Hdom C).
    + eapply Nat.le_lt_trans; [|exact Hf2]. apply subseteq_size. unfold unvisited. set_solver.
    + exists ps. unfold computePaths. rewrite Hrun. split; [done|]. destruct found; unfold helperResult in Hres; cbn [fst snd app] in Hres.
      * destruct Hres as (fs & -> & Hp & Hnd & _). right. exists fs. split_and!; [done| |done].
        clear Hrun Hnd Hf1. revert F Ha. induction Hp as [n f Hn|n m c f l Hn Hnm _ IH]; intros F Ha.
        -- pose proof (proj2 (Hnf n F) Ha) as HFn. pose proof (proj2 (Hnf n C) Hb) as HCn.
           assert (F = C) as -> by congruence. assert (f = C) as -> by congruence. constructor.
        -- pose proof (proj2 (Hnf n F) Ha) as HFn. assert (f = F) as -> by congruence.
           apply Hstep in Hnm as (F' & D & Hc & Ha' & Hd). pose proof (proj2 (Hnf n F') Ha') as HFn'.
           assert (F' = F) as -> by congruence. eapply chain_call; [exact Hc|]. by apply IH.
      * destruct Hres as [-> Hno]. left. split; [done|]. rewrite <- (Hrtc F C a b) by done. intros Hr. apply Hno.
        split; [intros f _; set_solver|]. eapply rtc_subrel; [|exact Hr]. intros x y Hxy. split; [done|]. intros f _. set_solver.
Qed.

(** ** Three functions *)
Module CallExample.

(** 1 calls 2 directly, 2 calls an exported 3 through a pointer; 4 calls nobody. *)
Definition callModule : IRModule := {|
  m_kind := fun p => match p with
    | 1 | 2 | 3 | 4 => KFunction
    | 21 => KInst (ICall (VRef 2) []) | 22 => KInst (ICall (VRef 90) [])
    | 23 | 24 => KInst (IRet None) | _ => KArgument end%positive;
  m_type := fun _ => TVoid; getName := fun v => if decide (v = VRef 3) then "callback.17"%string else "f"%string;
  users := fun _ => []; functions := [VRef 1; VRef 2; VRef 3; VRef 4]; globals := [];
  blocks := fun f => match f with VRef 1 => [VRef 11] | VRef 2 => [VRef 12] | VRef 3 => [VRef 13] | VRef 4 => [VRef 14] | _ => [] end;
  insts := fun bb => match bb with VRef 11 => [VRef 21] | VRef 12 => [VRef 22] | VRef 13 => [VRef 23] | VRef 14 => [VRef 24] | _ => [] end;
  fargs := fun _ => []; getParent := fun _ => VRef 11; getBBParent := fun _ => VRef 1;
  isDeclaration := fun _ => false; getCalledFunction := fun _ => None;
  predecessors := fun _ => []; stripPointerCasts := fun v => v; getFunctionNamed := fun _ => None |}.

Abbreviation buildIt := (theGraph (orderFuncs := elementsOrder _) callModule (fun _ => false) (fun _ => TVoid) (fun _ => ""%string) ["callback"%string]).
Abbreviation path := (computePaths (orderAddr := elementsOrder _) callModule (heap buildIt) 6).

Lemma call_chains_found_witness : exists a b ps, getNode buildIt (VRef 1) = Some a /\ getNode buildIt (VRef 3) = Some b /\
  path a b = Some ps /\ exists fs, ps = [fs] /\
    callChain callModule (fun _ => false) (fun _ => TVoid) (fun _ => ""%string) ["callback"%string] (VRef 1) (VRef 3) fs.
Proof.
  destruct (getNode buildIt (VRef 1)) as [a|] eqn:Ha; [|exfalso; vm_compute in Ha; discriminate].
  destruct (getNode buildIt (VRef 3)) as [b|] eqn:Hb; [|exfalso; vm_compute in Hb; discriminate].
  exists a, b.
  destruct (call_chains_found (orderFuncs := elementsOrder _) (orderAddr := elementsOrder _) callModule (fun _ => false) (fun _ => TVoid)
    (fun _ => ""%string) ["callback"%string] (VRef 1) (VRef 3) a b (searchFuel (orderAddr := elementsOrder _) (heap buildIt) a) 6)
    as [_ (ps & Hrun & Hres)].
  - apply (bool_decide_unpack _). vm_compute. exact I.
  - intros F HF. change (F ∈ [VRef 1; VRef 2; VRef 3; VRef 4]) in HF. set_unfold in HF. destruct_or!; by subst.
  - exact Ha.
  - exact Hb.
  - apply Nat.le_refl.
  - apply (bool_decide_unpack _). vm_compute. exact I.
  - exists ps. split_and!; [done|done|exact Hrun|]. destruct Hres as [[-> _]|(fs & -> & Hc & _)]; [|by exists fs].
    exfalso. vm_compute in Ha, Hb. injection Ha as <-. injection Hb as <-. vm_compute in Hrun. discriminate.
Defined.

(** No chain leads back, and the two kinds of edges are there. *)
Example no_chain_back : path 3 1 = Some [].
Proof. vm_compute. reflexivity. Qed.
Example one_chain : path 1 3 = Some [[VRef 1; VRef 2; VRef 3]].
Proof. vm_compute. reflexivity. Qed.
End CallExample.
