(* ===== verification/ValueRange.v ===== *)
(** * Value-range classification of sequential pointers ([ValueRange.cpp], [valueRangeAnalysis])

    The pass runs the forward range analysis (Dataflow.v), then looks at every
    GEP among the sequential pointers it was given and decides whether its index
    can leave the object; the unsafe ones are filtered by the out-of-window
    results and the protection mode, fenced with marker instructions, and the
    objects they may touch are tagged.  Instruction insertion is modelled on the
    item list of each basic block; metadata as a set of tagged values. *)
From stdpp Require Import base gmap sets list option strings.
From Stdlib Require Import ZArith Lia.
From S2P Require Import Prelude APInt LLVM AnalysisState RangeDomain RangeTransfer Dataflow PTA.

(** The marker strings ([Utils.cpp]). *)
Definition MAGIC_ASM_BEGIN : string := "addq 123456, %rax".
Definition MAGIC_ASM_END : string := "addq 654321, %rax".
Definition NORMAL_MAGIC_ASM_BEGIN : string := "addq 1234567, %rax".
Definition NORMAL_MAGIC_ASM_END : string := "addq 7654321, %rax".

Section Classify.
Variable M : IRModule.
Variable DL : DataLayout.

(** [getNumOperands() > 2 ? getOperand(2) : getOperand(1)], operand 0 being the base. *)
Definition gepIndex (idxs : list value) : option value :=
  match idxs with
  | _ :: i2 :: _ => Some i2
  | i1 :: _ => Some i1
  | [] => None
  end.

(** Neither an array nor a struct is accessed: the constant index and the recorded size decide. *)
Definition unsafeOther (index : value) (info : VariableInfo) : bool :=
  match index with
  | VConstInt c =>
    match vsize info with
    | Some (VConstInt sz) =>
      let underlyingSize := to_int (getSExtValue sz) in
      negb (negb (isNegative c) && (0 <? underlyingSize)%Z)
    | _ => false
    end
  | _ => true
  end.

(** A range that is not proved to be inside [0, size). *)
Definition rangeMayEscape (r : RangeValue) (size : Z) : bool :=
  isUnknown r || isInfinity r ||
  match lvalue r, rvalue r with
  | Some l, Some h => isNegative l || uge h size
  | _, _ => true
  end.

(** An array of [n] elements of type [elt] is accessed. *)
Definition unsafeArray (n : Z) (elt : ty) (index : value) (st : gmap value RangeValue) : bool :=
  match index with
  | VConstInt c =>
    if negb (isNegative c) && negb (uge c n)
    then negb (u64 (getLimitedValue c * getTypeAllocSize DL elt) <=? getTypeAllocSize DL (TArray n elt))%Z
    else true
  | _ => rangeMayEscape (default RangeValue_init (st !! index)) n
  end.

(** A struct is accessed. *)
Definition unsafeStruct (id : positive) (index : value) (st : gmap value RangeValue) : bool :=
  let size := structNumElements DL id in
  match index with
  | VConstInt c =>
    let intIndex := getLimitedValue c in
    if (intIndex <? size)%Z then
      if negb (isNegative c) && negb (uge c size)
      then negb (getElementOffset DL (TStruct id) intIndex <=? getTypeAllocSize DL (TStruct id))%Z
      else false
    else true
  | _ =>
    let r := default RangeValue_init (st !! index) in
    rangeMayEscape r size && (isInfinity r || isUnknown r)
  end.

(** The verdict on one GEP, given the state before it and its recorded variable. *)
Definition unsafeGEP (base : value) (idxs : list value) (st : gmap value RangeValue)
    (info : option VariableInfo) : bool :=
  match gepIndex idxs, getType M base with
  | Some index, TPtr (TArray n elt) => unsafeArray n elt index st
  | Some index, TPtr (TStruct id) => unsafeStruct id index st
  | Some index, _ => match info with Some i => unsafeOther index i | None => false end
  | None, _ => false
  end.

Variable heapSeqPointerSet : gmap value VariableInfo.
Variable TheState : AnalysisState.

(** [heapUnsafeSeqPointerSet[vmkt] = *vmktinfo], when the pointer is registered. *)
Definition markUnsafe (gep : value) (m : gmap value VariableInfo) : gmap value VariableInfo :=
  match Variables TheState !! gep with Some info => <[gep := info]> m | None => m end.

(** One key of one function's results. *)
Definition classifyOne (rangeStates : gmap value (gmap value RangeValue)) (v : value)
    (m : gmap value VariableInfo) : gmap value VariableInfo :=
  match kindOf M v with
  | KInst (IGEP _ _ base idxs) =>
    match heapSeqPointerSet !! v with
    | Some _ =>
      if unsafeGEP base idxs (getIncomingState M rangeStates v) (Variables TheState !! v)
      then markUnsafe v m else m
    | None => m
    end
  | _ => m
  end.

Definition classifyFunction (rangeStates : gmap value (gmap value RangeValue))
    (m : gmap value VariableInfo) : gmap value VariableInfo :=
  fold_left (fun m kv => classifyOne rangeStates kv.1 m) (map_to_list rangeStates) m.

(** All contexts and functions. *)
Definition classifyAll (results : gmap ContextFunction (gmap value (gmap value RangeValue)))
    : gmap value VariableInfo :=
  fold_left (fun m kv => classifyFunction kv.2 m) (map_to_list results) ∅.

(** The sequential pointers that are GEPs. *)
Definition seqGEPs : gset value :=
  list_to_set (filter (fun v => isGEPInst M v = true) (map_to_list heapSeqPointerSet).*1).

End Classify.

(** ** Protection modes *)
Section Protect.
Variable M : IRModule.
Variable P : SVF.

(** The string of the inline assembly a call calls. *)
Definition asmOf (v : value) : option string :=
  match calledOperand M v with
  | Some c => match kindOf M c with KInlineAsm s => Some s | _ => None end
  | None => None
  end.

(** Out-of-window filter. *)
Definition filterOOW (oow : gset value) (m : gmap value VariableInfo) : gmap value VariableInfo :=
  filter (fun kv => kv.1 ∉ oow) m.

(** Base objects the given pointers may address. *)
Definition collectObjects (geps : list value) : gset Z :=
  fold_left (fun s g => match kindOf M g with
                        | KInst (IGEP _ _ base _) => (insertUnsafePts P base s).1
                        | _ => s end) geps ∅.

(** GEPs an earlier run has fenced with the normal markers. *)
Definition dgUnsafeGEPs : list value :=
  omap (fun v => match kindOf M v with
                 | KInst (ICall _ _) =>
                   if bool_decide (asmOf v = Some NORMAL_MAGIC_ASM_END) then
                     match getPrevNode M v with
                     | Some p => if isGEPInst M p then Some p else None
                     | None => None
                     end
                   else None
                 | _ => None end) (functions M ≫= instructions M).

(** [DiffOnly], [UseBaggy]: drop the pointers already instrumented. *)
Definition removeInstrumented (dg : gset value) (m : gmap value VariableInfo) : gmap value VariableInfo :=
  filter (fun kv => kv.1 ∉ dg) m.

(** [DiffOnly] without baggy bounds: drop the pointers that touch a protected object. *)
Definition overlaps (objs : gset Z) (v : value) : bool :=
  match kindOf M v with
  | KInst (IGEP _ _ base _) =>
    existsb (fun o => bool_decide (o ∈ objs)) (elements (insertUnsafePts P base ∅).1)
  | _ => false
  end.
Definition removeOverlapping (objs : gset Z) (m : gmap value VariableInfo) : gmap value VariableInfo :=
  filter (fun kv => overlaps objs kv.1 = false) m.

(** *** [tagOperationsForProtections] *)
Record Tags := TG { unsafeTag : gset value; dponlyTag : gset value }.

Definition tag (v : value) (t : Tags) : Tags := TG ({[v]} ∪ unsafeTag t) (dponlyTag t).
Definition tagDP (v : value) (t : Tags) : Tags := TG (unsafeTag t) ({[v]} ∪ dponlyTag t).

(** Step 1: tag the pointers themselves and collect their objects. *)
Definition tagGEPs (geps : list value) (t : Tags) : Tags :=
  fold_left (fun t g => if isGEPInst M g then tag g t else t) geps t.

(** Step 2: the allocation site of an object, by its kind. *)
Definition objectSite (o : Z) : option value :=
  if isStackObject P o then getAlloca M P o
  else if isHeapObject P o then getMalloc M P o
  else if isGlobalObject P o then getGlobal M P o
  else None.

(** Step 3: tag the allocation sites. *)
Definition tagSites (objs : gset Z) (t : Tags) : Tags :=
  fold_left (fun t v => tag v t) (omap objectSite (elements objs)) t.

(** Whether every use of [gep] is an access through it: the flag of the last use
    before the loop stops, [false] when there is none. *)
Fixpoint onlyUsedInLoadStore (gep : value) (us : list value) (flag : bool) : bool :=
  match us with
  | [] => flag
  | u :: us =>
    match kindOf M u with
    | KInst (ILoad _) => onlyUsedInLoadStore gep us true
    | KInst (IStore _ ptr) => if decide (ptr = gep) then onlyUsedInLoadStore gep us true else false
    | _ => false
    end
  end.

(** Step 4: one instruction. *)
Definition tagInst (geps : gset value) (objs : gset Z) (i : value) (t : Tags) : Tags :=
  match kindOf M i with
  | KInst (ILoad ptr) => if isPointToUnsafeObjects P objs ptr then tag i t else t
  | KInst (IStore _ ptr) => if isPointToUnsafeObjects P objs ptr then tag i t else t
  | KInst (IGEP _ _ base _) =>
    if isPointToUnsafeObjects P objs base && negb (bool_decide (i ∈ geps)) &&
       negb (onlyUsedInLoadStore i (users M i) false)
    then tagDP i t else t
  | KInst (IICmp _ a b) | KInst (IFCmp a b) =>
    if isPointerTy (getType M a) &&
       (isPointToUnsafeObjects P objs a || isPointToUnsafeObjects P objs b)
    then tag i t else t
  | _ => t
  end.

Definition tagOperationsForProtections (geps : gset value) (t : Tags) : Tags :=
  let objs := collectObjects (elements geps) in
  let t := tagSites objs (tagGEPs (elements geps) t) in
  fold_left (fun t i => tagInst geps objs i t) (functions M ≫= instructions M) t.

End Protect.

(** ** Fencing the unsafe GEPs with markers *)

(** What a basic block holds: an instruction of the module or an inserted asm call. *)
Inductive item := Orig (v : value) | Asm (s : string).

#[export] Instance item_eq_dec : EqDecision item.
Proof. solve_decision. Defined.

Section Fence.
Variable M : IRModule.
Variable UsePC : bool.

Definition beginMarker : string := if UsePC then NORMAL_MAGIC_ASM_BEGIN else MAGIC_ASM_BEGIN.
Definition endMarker : string := if UsePC then NORMAL_MAGIC_ASM_END else MAGIC_ASM_END.

Definition itemAsm (i : item) : option string :=
  match i with Orig v => asmOf M v | Asm s => Some s end.

(** The item is a call to an end marker. *)
Definition isEndFence (i : item) : bool :=
  match itemAsm i with
  | Some s => contains s NORMAL_MAGIC_ASM_END || contains s MAGIC_ASM_END
  | None => false
  end.

(** Insert the two markers around [gep], unless its end marker is there already. *)
Fixpoint fenceIn (gep : value) (l : list item) : list item :=
  match l with
  | [] => []
  | x :: rest =>
    if decide (x = Orig gep) then
      match rest with
      | next :: _ =>
        if isEndFence next then l
        else Asm beginMarker :: Orig gep :: Asm endMarker :: rest
      | [] => l
      end
    else x :: fenceIn gep rest
  end.

(** The block of the module as items. *)
Definition blockItems (B : gmap value (list item)) (bb : value) : list item :=
  default (Orig <$> insts M bb) (B !! bb).

Record FenceState := FS { fs_blocks : gmap value (list item); fs_unsafeBB : gset value; fs_safe : gset value }.

(** One iteration of the loop over the unsafe pointers. *)
Definition fenceOne (gep : value) (s : FenceState) : FenceState :=
  let bb := getParent M gep in
  FS (<[bb := fenceIn gep (blockItems (fs_blocks s) bb)]> (fs_blocks s))
     ({[bb]} ∪ fs_unsafeBB s) (fs_safe s ∖ {[gep]}).

Definition fenceAll (l : list value) (s : FenceState) : FenceState :=
  fold_left (fun s g => fenceOne g s) l s.

End Fence.

(** ** The whole pass *)
Record VROptions := {
  EntryFunction : string;
  EnableOOWAnalysis : bool;
  SFIOnly : bool;
  DiffOnly : bool;
  UseBaggy : bool;
  opt_UsePC : bool;
}.

Record VROut := {
  vr_unsafe : gmap value VariableInfo;
  vr_fence : FenceState;
  vr_tags : Tags;
  vr_objects : gset Z;
  vr_heapSize : Z;
  vr_stackSize : Z;
}.

Section Pass.
Variable M : IRModule.
Variable DL : DataLayout.
Variable CF : ConstFold.
Variable P : SVF.
Variable O : VROptions.
Variable rpo : value -> list value.

(** The filters between the classification and the fencing, and the tags they set. *)
Definition applyModes (oow : gset value) (m : gmap value VariableInfo) (t : Tags)
    : gmap value VariableInfo * Tags :=
  let m := if EnableOOWAnalysis O then filterOOW oow m else m in
  let t := if SFIOnly O then tagOperationsForProtections M P (dom m) t else t in
  if DiffOnly O then
    let dg := list_to_set (dgUnsafeGEPs M) : gset value in
    let t := tagOperationsForProtections M P dg t in
    let m := if UseBaggy O then removeInstrumented dg m
             else removeOverlapping M P (collectObjects M P (elements dg)) m in
    (m, t)
  else (m, t).

(** Objects the reported pointers may address, and how many are on the heap and the stack. *)
Definition countObjects (objs : gset Z) : Z * Z :=
  let l := elements objs in
  (Z.of_nat (length (filter (fun o => isHeapObject P o = true) l)),
   Z.of_nat (length (filter (fun o => isHeapObject P o = false /\ isStackObject P o = true) l))).

(** [valueRangeAnalysis], given the results of the range analysis. *)
Definition reportUnsafe (heapSeq : gmap value VariableInfo) (TheState : AnalysisState) (oow : gset value)
    (results : gmap ContextFunction (gmap value (gmap value RangeValue)))
    (unsafeBB : gset value) (t : Tags) : VROut :=
  let m := classifyAll M DL heapSeq TheState results in
  let '(m, t) := applyModes oow m t in
  let keys := (map_to_list m).*1 in
  let f := fenceAll M (opt_UsePC O) keys (FS ∅ unsafeBB (seqGEPs M heapSeq)) in
  let objs := collectObjects M P keys in
  let '(h, s) := countObjects objs in
  Build_VROut m f t objs h s.

(** [None]: the entry function is missing and the pass does nothing. *)
Definition valueRangeAnalysis (heapSeq : gmap value VariableInfo) (TheState : AnalysisState)
    (oow : gset value) (unsafeBB : gset value) (t : Tags) : option VROut :=
  mainFunction ← getFunctionNamed M (EntryFunction O);
  e ← computeAll (D := RangeAnalysis M DL CF) M rpo (opt_UsePC O) 2 (size (universe M))
        (initEngine [None] [mainFunction] ∅);
  Some (reportUnsafe heapSeq TheState oow (allResults e) unsafeBB t).

End Pass.

(** ** Lemmas: verdicts *)







(** A constant field index that is not reported names a field that starts inside the struct. *)
Lemma unsafeStruct_sound DL id c st :
  wf c -> (bw c <= 64)%Z -> unsafeStruct DL id (VConstInt c) st = false -> isNegative c = false ->
  (0 <= signed c < structNumElements DL id)%Z /\
  (getElementOffset DL (TStruct id) (signed c) <= getTypeAllocSize DL (TStruct id))%Z.
Proof.
  intros Hw H64 Hu Hn. simpl in Hu. pose proof (signed_eq_uv c Hw Hn) as Hs.
  assert (getLimitedValue c = uv c) as Hl.
  { unfold getLimitedValue. destruct Hw as [? Hu'].
    assert (2 ^ bw c <= 2 ^ 64)%Z by (apply Z.pow_le_mono_r; lia). lia. }
  rewrite Hl, Hn in Hu. destruct (Z.ltb_spec (uv c) (structNumElements DL id)) as [Hlt|]; [|done].
  assert (uge c (structNumElements DL id) = false) as Hug by (unfold uge; apply Z.leb_gt; lia).
  rewrite Hug in Hu. simpl in Hu. bool_prop. rewrite Hs. destruct Hw as [_ ?]. split; [lia|done].
Qed.

(** ** Lemmas: which pointers are reported *)
Section Reported.
Variable M : IRModule.
Variable DL : DataLayout.
Variable heapSeq : gmap value VariableInfo.
Variable TheState : AnalysisState.

(** The verdict of one function's results on [g]. *)
Definition reported_in (rs : gmap value (gmap value RangeValue)) (g : value) : Prop :=
  exists se re base idxs info,
    is_Some (rs !! g) /\ kindOf M g = KInst (IGEP se re base idxs) /\ is_Some (heapSeq !! g) /\
    Variables TheState !! g = Some info /\
    unsafeGEP M DL base idxs (getIncomingState M rs g) (Some info) = true.

(** Nothing is added when a premise of [reported_in] fails. *)
Lemma unreported_dom (m : gmap value VariableInfo) v g (R : Prop) :
  (v = g -> ~ R) -> is_Some (m !! g) <-> is_Some (m !! g) \/ (v = g /\ R).
Proof. naive_solver. Qed.

Lemma classifyOne_dom rs v m g :
  is_Some (rs !! v) ->
  is_Some (classifyOne M DL heapSeq TheState rs v m !! g) <->
  is_Some (m !! g) \/ (v = g /\ reported_in rs g).
Proof.
  intros Hv. unfold classifyOne, markUnsafe.
  destruct (kindOf M v) as [| | | | | | | | |[]|] eqn:Hk;
    try (apply unreported_dom; intros -> (? & ? & ? & ? & ? & ? & ? & _); congruence).
  destruct (heapSeq !! v) eqn:Hh;
    [|apply unreported_dom; intros -> (? & ? & ? & ? & ? & ? & ? & [? ?] & _); congruence].
  destruct (Variables TheState !! v) as [info|] eqn:Hi.
  - destruct (unsafeGEP _ _ _ _ _ _) eqn:Hu.
    + rewrite lookup_insert. case_decide as Hvg; [subst|naive_solver].
      split; [intros _; right; split; [done|]; do 5 eexists; eauto|eauto].
    + apply unreported_dom. intros -> (? & ? & ? & ? & ? & ? & Hk' & _ & Hi' & Hu').
      rewrite Hk in Hk'. simplify_eq. congruence.
  - replace (if unsafeGEP _ _ _ _ _ None then m else m) with m by (by case_match).
    apply unreported_dom. intros -> (? & ? & ? & ? & ? & ? & ? & _ & Hi' & _). congruence.
Qed.

Lemma classifyFunction_dom rs m g :
  is_Some (classifyFunction M DL heapSeq TheState rs m !! g) <-> is_Some (m !! g) \/ reported_in rs g.
Proof.
  unfold classifyFunction.
  assert (forall l m, (forall kv, kv ∈ l -> rs !! kv.1 = Some kv.2) ->
    is_Some (fold_left (fun m kv => classifyOne M DL heapSeq TheState rs kv.1 m) l m !! g) <->
    is_Some (m !! g) \/ (g ∈ l.*1 /\ reported_in rs g)) as Hf.
  { induction l as [|[v s] l IH]; intros m' Hl; simpl; [set_solver|].
    rewrite IH by (intros; apply Hl; by right). rewrite classifyOne_dom.
    - rewrite elem_of_cons. naive_solver.
    - exists s. apply (Hl (v, s)). left. }
  rewrite Hf by (intros [k s] Hkv; by apply elem_of_map_to_list in Hkv).
  split; [intros [?|[_ ?]]; auto|]. intros [?|Hr]; [by left|]. right. split; [|done].
  destruct Hr as (? & ? & ? & ? & ? & [s Hs] & _).
  apply list_elem_of_fmap. exists (g, s). split; [done|]. by apply elem_of_map_to_list.
Qed.

(** Exactly the pointers some context's verdict reports. *)
Lemma classifyAll_dom results g :
  is_Some (classifyAll M DL heapSeq TheState results !! g) <->
  exists cf rs, results !! cf = Some rs /\ reported_in rs g.
Proof.
  unfold classifyAll.
  assert (forall l m, is_Some (fold_left
      (fun m (kv : ContextFunction * gmap value (gmap value RangeValue)) =>
         classifyFunction M DL heapSeq TheState kv.2 m) l m !! g) <->
    is_Some (m !! g) \/ exists cf rs, (cf, rs) ∈ l /\ reported_in rs g) as Hf.
  { induction l as [|[cf rs] l IH]; intros m'; simpl; [set_solver|].
    rewrite IH, classifyFunction_dom. set_solver. }
  rewrite Hf, lookup_empty. split.
  - intros [[? ?]|(cf & rs & Hin & Hr)]; [done|]. apply elem_of_map_to_list in Hin. eauto.
  - intros (cf & rs & Hin & Hr). right. exists cf, rs. split; [by apply elem_of_map_to_list|done].
Qed.

End Reported.

(** ** Lemmas: fencing *)

(** The first [Orig g] of the list is followed by an item in [Q]. *)
Inductive next_of (Q : item -> Prop) (g : value) : list item -> Prop :=
| next_here y l : Q y -> next_of Q g (Orig g :: y :: l)
| next_later x l : x <> Orig g -> next_of Q g l -> next_of Q g (x :: l).

#[export] Hint Constructors next_of : msv.

Section FenceLemmas.
Variable M : IRModule.
Variable UsePC : bool.

Lemma endMarker_is_fence : isEndFence M (Asm (endMarker UsePC)) = true.
Proof. destruct UsePC; vm_compute; reflexivity. Qed.

(** The pointer just handled is fenced. *)
Lemma fenceIn_fences g l :
  next_of (fun _ => True) g l -> next_of (fun y => isEndFence M y = true) g (fenceIn M UsePC g l).
Proof.
  induction 1 as [y l _|x l Hx _ IH]; cbn [fenceIn].
  - rewrite decide_True by done. destruct (isEndFence M y) eqn:E; [by constructor|].
    apply next_later; [done|]. constructor. apply endMarker_is_fence.
  - rewrite decide_False by done. by constructor.
Qed.

Lemma fenceIn_head g x l : exists y l', fenceIn M UsePC g (x :: l) = y :: l'.
Proof. cbn [fenceIn]. repeat case_match; eauto. Qed.

(** Fencing another pointer keeps the neighbour of [g], unless it is that pointer. *)
Lemma fenceIn_keeps Q g g' l :
  g <> g' -> (forall y, Q y -> y <> Orig g' \/ forall z, Q z) ->
  next_of Q g l -> next_of Q g (fenceIn M UsePC g' l).
Proof.
  intros Hne HQ. induction 1 as [y l Hy|x l Hx Hn IH].
  - cbn [fenceIn]. rewrite decide_False by congruence.
    destruct (HQ y Hy) as [Hy'|Hall].
    + cbn [fenceIn]. rewrite decide_False by done. by constructor.
    + destruct (fenceIn_head g' y l) as (y' & l' & Heq). cbn [fenceIn] in Heq. rewrite Heq.
      constructor. apply Hall.
  - cbn [fenceIn]. case_decide as Hd; [|by constructor].
    destruct l as [|next l]; [by constructor|]. destruct (isEndFence M next); [by constructor|].
    subst. repeat (apply next_later; [done|]). done.
Qed.

Lemma blockItems_fenceOne g s bb :
  blockItems M (fs_blocks (fenceOne M UsePC g s)) bb =
  if decide (getParent M g = bb) then fenceIn M UsePC g (blockItems M (fs_blocks s) bb)
  else blockItems M (fs_blocks s) bb.
Proof.
  unfold blockItems, fenceOne. simpl. rewrite lookup_insert. by case_decide; subst.
Qed.

(** What holds of [g] through the rest of the loop. *)
Lemma fenceAll_keeps Q g l s :
  g ∉ l -> (forall g' y, g' ∈ l -> Q y -> y <> Orig g' \/ forall z, Q z) ->
  next_of Q g (blockItems M (fs_blocks s) (getParent M g)) ->
  next_of Q g (blockItems M (fs_blocks (fenceAll M UsePC l s)) (getParent M g)).
Proof.
  revert s. induction l as [|g' l IH]; intros s Hg HQ Hn; simpl; [done|].
  apply not_elem_of_cons in Hg as [Hg' Hg]. apply IH; [done|intros; apply HQ; [by right|done]|].
  rewrite blockItems_fenceOne. case_decide; [|done].
  apply fenceIn_keeps; [done| |done]. intros y. apply HQ. left.
Qed.

Lemma fenceAll_fences l s g :
  NoDup l -> g ∈ l -> (forall g', g' ∈ l -> isEndFence M (Orig g') = false) ->
  (forall g', g' ∈ l -> next_of (fun _ => True) g' (blockItems M (fs_blocks s) (getParent M g'))) ->
  next_of (fun y => isEndFence M y = true) g
    (blockItems M (fs_blocks (fenceAll M UsePC l s)) (getParent M g)).
Proof.
  revert s. induction l as [|g' l IH]; intros s Hnd Hg Hne Hnext; [set_solver|]. simpl.
  apply NoDup_cons in Hnd as [Hg' Hnd]. apply elem_of_cons in Hg as [->|Hg].
  - apply fenceAll_keeps; [done| |].
    + intros g1 y Hg1 Hy. left. intros ->. rewrite Hne in Hy; [done|by right].
    + rewrite blockItems_fenceOne, decide_True by done. apply fenceIn_fences, Hnext. left.
  - apply IH; [done|done|intros; apply Hne; by right|].
    intros g1 Hg1. rewrite blockItems_fenceOne.
    assert (next_of (fun _ => True) g1 (blockItems M (fs_blocks s) (getParent M g1))) as Hn
      by (apply Hnext; by right).
    case_decide; [|done]. apply fenceIn_keeps; [by intros -> | by right | done].
Qed.

(** The reported pointers leave the safe set, and their blocks are recorded. *)
Lemma fenceAll_sets l s :
  fs_safe (fenceAll M UsePC l s) = fs_safe s ∖ list_to_set l /\
  fs_unsafeBB (fenceAll M UsePC l s) = list_to_set (getParent M <$> l) ∪ fs_unsafeBB s.
Proof.
  revert s. induction l as [|g l IH]; intros s; simpl; [split; set_solver|].
  destruct (IH (fenceOne M UsePC g s)) as [-> ->]. simpl. split; set_solver.
Qed.
End FenceLemmas.

(** ** Lemmas: tags *)
Section TagLemmas.
Variable M : IRModule.
Variable P : SVF.

Definition tags_le (t t' : Tags) : Prop := unsafeTag t ⊆ unsafeTag t' /\ dponlyTag t ⊆ dponlyTag t'.

#[global] Instance tags_le_preorder : PreOrder tags_le.
Proof. split; [done|]. intros ??? [??] [??]. split; by etrans. Qed.

Lemma tag_le v t : tags_le t (tag v t).
Proof. split; simpl; set_solver. Qed.

Lemma tagDP_le v t : tags_le t (tagDP v t).
Proof. split; simpl; set_solver. Qed.

Lemma fold_tags_le {A} (f : A -> Tags -> Tags) l t :
  (forall a t, tags_le t (f a t)) -> tags_le t (fold_left (fun t a => f a t) l t).
Proof.
  intros Hf. revert t. induction l as [|a l IH]; intros t; simpl; [done|].
  etrans; [apply Hf|apply IH].
Qed.

Lemma fold_tags_at {A} (f : A -> Tags -> Tags) l t a v :
  (forall a t, tags_le t (f a t)) -> a ∈ l -> (forall t, v ∈ unsafeTag (f a t)) ->
  v ∈ unsafeTag (fold_left (fun t a => f a t) l t).
Proof.
  intros Hf Ha Hv. revert t. induction l as [|b l IH]; intros t; [set_solver|]. simpl.
  apply elem_of_cons in Ha as [->|Ha]; [|by apply IH].
  apply (proj1 (fold_tags_le f l _ Hf)), Hv.
Qed.

Lemma tagInst_le geps objs i t : tags_le t (tagInst M P geps objs i t).
Proof. unfold tagInst. repeat case_match; try done; apply tag_le || apply tagDP_le. Qed.

(** [o] is the base of an object the base pointer of the GEP [g] may address. *)
Definition gep_object (g : value) (o : Z) : Prop :=
  exists se re base idxs o', kindOf M g = KInst (IGEP se re base idxs) /\
    o' ∈ getExpandedFIPts P base /\ getBaseObj P o' = o.

Lemma collectOne_spec g s o :
  o ∈ (match kindOf M g with KInst (IGEP _ _ base _) => (insertUnsafePts P base s).1 | _ => s end) <->
  o ∈ s \/ gep_object g o.
Proof.
  unfold gep_object. destruct (kindOf M g) as [| | | | | | | | |k|] eqn:Hk;
    try (split; [by left|]; intros [?|(? & ? & ? & ? & ? & ? & _)]; done).
  destruct k; try (split; [by left|]; intros [?|(? & ? & ? & ? & ? & ? & _)]; done).
  rewrite insertUnsafePts_spec. split.
  - intros [?|(o' & Ho & Hb)]; [by left|]. right. do 5 eexists. eauto.
  - intros [?|(? & ? & ? & ? & o' & ? & Ho & Hb)]; [by left|]. simplify_eq. eauto.
Qed.

Lemma collectObjects_spec l o :
  o ∈ collectObjects M P l <-> exists g, g ∈ l /\ gep_object g o.
Proof.
  unfold collectObjects.
  assert (forall s, o ∈ fold_left (fun s g => match kindOf M g with
      | KInst (IGEP _ _ base _) => (insertUnsafePts P base s).1 | _ => s end) l s <->
    o ∈ s \/ exists g, g ∈ l /\ gep_object g o) as Hf.
  { induction l as [|g l IH]; intros s; simpl; [set_solver|]. rewrite IH, collectOne_spec. set_solver. }
  rewrite Hf. set_solver.
Qed.

(** [i] is a load, a store or a comparison of pointers whose operand may address [o]. *)
Definition accessesObject (i : value) (o : Z) : Prop :=
  exists ptr, o ∈ ptsWithBases P ptr /\
    (kindOf M i = KInst (ILoad ptr) \/ (exists v, kindOf M i = KInst (IStore v ptr)) \/
     exists a b, ((exists c, kindOf M i = KInst (IICmp c a b)) \/ kindOf M i = KInst (IFCmp a b)) /\
       isPointerTy (getType M a) = true /\ (ptr = a \/ ptr = b)).

(** A fold that tags the values of a list that pass a test. *)
Lemma fold_tags_exact {A} (f : A -> Tags -> Tags) (T : A -> value -> Prop) l t v :
  (forall a t, v ∈ unsafeTag (f a t) <-> v ∈ unsafeTag t \/ T a v) ->
  v ∈ unsafeTag (fold_left (fun t a => f a t) l t) <-> v ∈ unsafeTag t \/ exists a, a ∈ l /\ T a v.
Proof.
  intros Hf. revert t. induction l as [|a l IH]; intros t; simpl; [set_solver|]. rewrite IH, Hf. set_solver.
Qed.

Lemma elem_of_tag v w t : v ∈ unsafeTag (tag w t) <-> v ∈ unsafeTag t \/ w = v.
Proof. simpl. set_solver. Qed.

Definition accessTest (objs : gset Z) (i : value) : bool :=
  match kindOf M i with
  | KInst (ILoad ptr) | KInst (IStore _ ptr) => isPointToUnsafeObjects P objs ptr
  | KInst (IICmp _ a b) | KInst (IFCmp a b) =>
    isPointerTy (getType M a) && (isPointToUnsafeObjects P objs a || isPointToUnsafeObjects P objs b)
  | _ => false
  end.

Lemma accessTest_spec objs i : accessTest objs i = true <-> exists o, o ∈ objs /\ accessesObject i o.
Proof.
  assert (forall ptr, isPointToUnsafeObjects P objs ptr = true <-> exists o, o ∈ objs /\ o ∈ ptsWithBases P ptr) as Hp
    by (intros ptr; rewrite isPointToUnsafeObjects_spec; naive_solver).
  unfold accessTest, accessesObject. split.
  - assert (forall a b, isPointToUnsafeObjects P objs a || isPointToUnsafeObjects P objs b = true ->
      exists ptr o, (ptr = a \/ ptr = b) /\ o ∈ objs /\ o ∈ ptsWithBases P ptr) as Hor.
    { intros a b [(o & ? & ?)%Hp|(o & ? & ?)%Hp]%orb_true_iff; [exists a, o|exists b, o]; auto. }
    destruct (kindOf M i) as [| | | | | | | | |[]|] eqn:Hk; try done.
    + intros (o & ? & ?)%Hp. eauto 6.
    + intros (o & ? & ?)%Hp. eauto 8.
    + intros [? (ptr & o & ? & ? & ?)%Hor]%andb_true_iff. exists o. split; [done|]. exists ptr. split; [done|]. right; right. eauto 8.
    + intros [? (ptr & o & ? & ? & ?)%Hor]%andb_true_iff. exists o. split; [done|]. exists ptr. split; [done|]. right; right. eauto 8.
  - intros (o & Ho & ptr & Hptr & Hk).
    assert (isPointToUnsafeObjects P objs ptr = true) as HT by (apply Hp; eauto).
    destruct Hk as [->|[[v ->]|(a & b & [[c ->]| ->] & -> & [<-|<-])]]; simpl; rewrite HT; by rewrite ?orb_true_r.
Qed.

Lemma tagInst_exact geps objs i t v :
  v ∈ unsafeTag (tagInst M P geps objs i t) <-> v ∈ unsafeTag t \/ (exists o, o ∈ objs /\ accessesObject i o) /\ i = v.
Proof.
  rewrite <- accessTest_spec. unfold tagInst, accessTest.
  repeat case_match; rewrite ?elem_of_tag; simpl; intuition congruence.
Qed.

Lemma tagGEPs_exact geps t v : v ∈ unsafeTag (tagGEPs M geps t) <-> v ∈ unsafeTag t \/ v ∈ geps /\ isGEPInst M v = true.
Proof.
  unfold tagGEPs. rewrite (fold_tags_exact (fun g t => if isGEPInst M g then tag g t else t) (fun g v => isGEPInst M g = true /\ g = v)).
  - naive_solver.
  - intros g t'. destruct (isGEPInst M g); rewrite ?elem_of_tag; naive_solver.
Qed.

Lemma tagSites_exact objs t v :
  v ∈ unsafeTag (tagSites M P objs t) <-> v ∈ unsafeTag t \/ exists o, o ∈ objs /\ objectSite M P o = Some v.
Proof.
  unfold tagSites. rewrite (fold_tags_exact tag (fun w v => w = v)) by (intros; apply elem_of_tag).
  setoid_rewrite list_elem_of_omap. set_solver.
Qed.
End TagLemmas.

(** ** Lemmas: the whole pass *)
Section PassLemmas.
Variable M : IRModule.
Variable DL : DataLayout.
Variable CF : ConstFold.
Variable P : SVF.
Variable O : VROptions.
Variable rpo : value -> list value.

(** The modes only remove pointers. *)
Lemma applyModes_subseteq oow m t m' t' : applyModes M P O oow m t = (m', t') -> m' ⊆ m.
Proof.
  unfold applyModes, filterOOW, removeInstrumented, removeOverlapping.
  destruct (DiffOnly O), (EnableOOWAnalysis O), (UseBaggy O); intros [= <- _];
    repeat (etrans; [apply map_filter_subseteq|]); done.
Qed.

Lemma classifyAll_gep heapSeq TheState results g :
  is_Some (classifyAll M DL heapSeq TheState results !! g) -> g ∈ seqGEPs M heapSeq.
Proof.
  intros (cf & rs & _ & se & re & base & idxs & info & _ & Hk & [i Hh] & _)%classifyAll_dom.
  unfold seqGEPs. apply elem_of_list_to_set, list_elem_of_filter. split.
  - unfold isGEPInst. by rewrite Hk.
  - apply list_elem_of_fmap. exists (g, i). split; [done|]. by apply elem_of_map_to_list.
Qed.

Lemma reportUnsafe_gep heapSeq TheState oow results ubb t g :
  is_Some (vr_unsafe (reportUnsafe M DL P O heapSeq TheState oow results ubb t) !! g) ->
  g ∈ seqGEPs M heapSeq.
Proof.
  unfold reportUnsafe. destruct (applyModes _ _ _ _ _ _) as [m t'] eqn:E. simpl.
  intros [i Hi]. apply applyModes_subseteq in E.
  apply (classifyAll_gep heapSeq TheState results). exists i. by eapply lookup_weaken.
Qed.

Lemma seqGEPs_gep heapSeq g : g ∈ seqGEPs M heapSeq -> isGEPInst M g = true.
Proof using Type. unfold seqGEPs. rewrite elem_of_list_to_set, list_elem_of_filter. by intros [? _]. Qed.

Lemma gep_not_fence g : isGEPInst M g = true -> isEndFence M (Orig g) = false.
Proof.
  unfold isGEPInst, isEndFence, itemAsm, asmOf, calledOperand.
  destruct (kindOf M g) as [| | | | | | | | |[]|]; done.
Qed.

End PassLemmas.


(** ** Properties *)


(** One GEP [VRef 3] into a 4-element array at [VRef 1] with index [VRef 2]; for examples. *)
Definition gepModule : IRModule := {|
  m_kind := fun p => match p with
    | 3%positive => KInst (IGEP (TArray 4 (TInt 32)) (TInt 32) (VRef 1) [VConstInt (mk 64 0); VRef 2])
    | 4%positive => KInst (ILoad (VRef 3))
    | 5%positive => KInst (IRet None)
    | _ => KOther end;
  m_type := fun p => match p with 1%positive => TPtr (TArray 4 (TInt 32)) | _ => TInt 64 end;
  getName := fun _ => String.EmptyString; users := fun _ => []; functions := [VRef 8]; globals := [];
  blocks := fun f => if decide (f = VRef 8) then [VRef 9] else [];
  insts := fun b => if decide (b = VRef 9) then [VRef 3; VRef 4; VRef 5] else [];
  fargs := fun _ => []; getParent := fun _ => VRef 9; getBBParent := fun _ => VRef 8;
  isDeclaration := fun _ => false; getCalledFunction := fun _ => None;
  predecessors := fun _ => []; stripPointerCasts := fun v => v; getFunctionNamed := fun _ => Some (VRef 8) |}.
Definition gepDL : DataLayout :=
  Build_DataLayout (fun t => match t with TArray n _ => n * 4 | _ => 4 end)%Z (fun _ => 4%Z) (fun _ _ => 0%Z) (fun _ => 3%Z).
Definition gepInfo : VariableInfo := VI Seq None false false false None false false ∅.
Definition gepState : AnalysisState := with_vars {[VRef 3 := gepInfo]} initState.
(** The state before the GEP when its index is in [lo, hi]. *)
Definition gepResults (lo hi : Z) : gmap value (gmap value RangeValue) :=
  {[ VRef 3 := ∅; VRef 9 := {[ VRef 2 := makeRange (mk 64 lo) (mk 64 hi) ]} ]}.


(** Every reported pointer is fenced.  After the pass, the instruction directly
    after each reported GEP in its basic block is a call to an end marker, in any
    protection mode, provided no block of the module ends in a GEP. *)
Theorem unsafe_geps_fenced M DL P O heapSeq TheState oow results ubb t g :
  (forall g, isGEPInst M g = true -> next_of (fun _ => True) g (Orig <$> insts M (getParent M g))) ->
  is_Some (vr_unsafe (reportUnsafe M DL P O heapSeq TheState oow results ubb t) !! g) ->
  next_of (fun y => isEndFence M y = true) g
    (blockItems M (fs_blocks (vr_fence (reportUnsafe M DL P O heapSeq TheState oow results ubb t)))
       (getParent M g)).
Proof.
  intros Hnext Hg. pose proof (reportUnsafe_gep M DL P O heapSeq TheState oow results ubb t) as Hgeps.
  unfold reportUnsafe in *. destruct (applyModes _ _ _ _ _ _) as [m t']. simpl in *.
  assert (forall g', g' ∈ (map_to_list m).*1 -> isGEPInst M g' = true) as Hall.
  { intros g' Hg'. eapply seqGEPs_gep, Hgeps, elem_of_keys. exact Hg'. }
  apply fenceAll_fences; [apply NoDup_fst_map_to_list|by apply elem_of_keys| |].
  - intros g' Hg'. by apply gep_not_fence, Hall.
  - intros g' Hg'. unfold blockItems. simpl. rewrite lookup_empty. by apply Hnext, Hall.
Qed.

(** Options for examples: no mode is enabled. *)
Definition plainOptions : VROptions := Build_VROptions "main" false false false false false.

Lemma unsafe_geps_fenced_witness :
  let out := reportUnsafe gepModule gepDL idSVF plainOptions {[VRef 3 := gepInfo]} gepState ∅
               {[([None], VRef 8) := gepResults 0 9]} ∅ (TG ∅ ∅) in
  next_of (fun y => isEndFence gepModule y = true) (VRef 3)
    (blockItems gepModule (fs_blocks (vr_fence out)) (VRef 9)).
Proof.
  apply (unsafe_geps_fenced gepModule gepDL idSVF plainOptions {[VRef 3 := gepInfo]} gepState ∅
    {[([None], VRef 8) := gepResults 0 9]} ∅ (TG ∅ ∅) (VRef 3)).
  - intros [c|p]; [done|]. unfold isGEPInst. simpl. intros Hp.
    assert (p = 3%positive) as -> by (repeat case_match; done). by constructor.
  - vm_compute. eauto.
Defined.

(** C16: what is tagged for protection, exactly: what was tagged before, the GEPs of the
    given set, the allocation sites of the objects their base pointers may address, and the
    loads, stores and pointer comparisons of the module with an operand that may address one
    of these objects, directly or through a field. *)
Theorem protected_accesses_tagged M P geps t v :
  v ∈ unsafeTag (tagOperationsForProtections M P geps t) <->
  v ∈ unsafeTag t \/ (v ∈ geps /\ isGEPInst M v = true) \/
  exists g o, g ∈ geps /\ gep_object M P g o /\
    (objectSite M P o = Some v \/ v ∈ (functions M ≫= instructions M) /\ accessesObject M P v o).
Proof.
  unfold tagOperationsForProtections.
  rewrite (fold_tags_exact _ (fun i v => (exists o, o ∈ collectObjects M P (elements geps) /\ accessesObject M P i o) /\ i = v))
    by (intros; apply tagInst_exact).
  rewrite tagSites_exact, tagGEPs_exact, elem_of_elements. setoid_rewrite collectObjects_spec. setoid_rewrite elem_of_elements.
  naive_solver.
Qed.

(** Points-to results for the example: [VRef 3] and [VRef 1] address object 1. *)
Definition gepSVF : SVF := {|
  svfType := ty; svf_getPts := fun v => [1%Z]; expandFIObjs := fun l => l; getBaseObj := fun o => o;
  gepBaseNode := fun _ => None; isHeap := fun _ => false; isStack := fun _ => true;
  isGlobalObj := fun _ => false; isFIObjVar := fun _ => true; isDummyObjVar := fun _ => false;
  pagNodes := [1%Z]; nodeLLVMValue := fun _ => Some (VRef 1); valueNodeOf := fun _ => Some 1%Z;
  objType := fun _ => None; ptrElementType := fun _ => None; arrayTypeSizes := fun _ => None;
  structByteSize := fun _ => None; svfType_eqb := fun a b => bool_decide (a = b) |}.

Example gep_accesses_tagged :
  unsafeTag (tagOperationsForProtections gepModule gepSVF {[VRef 3]} (TG ∅ ∅)) = {[VRef 3; VRef 4]}.
Proof. vm_compute. reflexivity. Qed.

(** The pass returns for every closed module that has the entry function, and
    splits the sequential GEPs it was given: the reported ones and the ones left safe
    are disjoint and together all of them, and the block of each reported one is
    recorded as unsafe. *)
Theorem valueRangeAnalysis_partitions M DL CF P O rpo heapSeq TheState oow ubb t f :
  module_closed M rpo -> getFunctionNamed M (EntryFunction O) = Some f -> f ∈ functions M ->
  exists out, valueRangeAnalysis M DL CF P O rpo heapSeq TheState oow ubb t = Some out /\
    dom (vr_unsafe out) ## fs_safe (vr_fence out) /\
    dom (vr_unsafe out) ∪ fs_safe (vr_fence out) = seqGEPs M heapSeq /\
    forall g, g ∈ dom (vr_unsafe out) -> getParent M g ∈ fs_unsafeBB (vr_fence out).
Proof.
  intros HM Hf Hin. unfold valueRangeAnalysis. rewrite Hf. cbn [mbind option_bind].
  destruct (computeAll_runs (D := RangeAnalysis M DL CF) M rpo (opt_UsePC O) [f] ∅ HM rv_eq_refl)
    as (e & He & _); [by repeat constructor|]. simpl length in He. rewrite He. cbn [mbind option_bind].
  eexists. split; [reflexivity|].
  pose proof (reportUnsafe_gep M DL P O heapSeq TheState oow (allResults e) ubb t) as Hgeps.
  unfold reportUnsafe in *. destruct (applyModes _ _ _ _ _ _) as [m t']. simpl in *.
  destruct (fenceAll_sets M (opt_UsePC O) (map_to_list m).*1 (FS ∅ ubb (seqGEPs M heapSeq))) as [-> ->].
  simpl. assert (list_to_set (map_to_list m).*1 = dom m) as Hdom.
  { apply set_eq. intros g. rewrite elem_of_list_to_set, elem_of_dom. apply elem_of_keys. }
  rewrite Hdom. split_and!.
  - set_solver.
  - apply set_eq. intros g. rewrite elem_of_union, elem_of_difference.
    split; [intros [Hg|[? _]]; [apply Hgeps; by apply elem_of_dom|done]|].
    intros Hg. destruct (decide (g ∈ dom m)); auto.
  - intros g Hg. apply elem_of_union_l, elem_of_list_to_set, list_elem_of_fmap.
    exists g. split; [done|]. apply elem_of_keys. by apply elem_of_dom.
Qed.

Lemma valueRangeAnalysis_partitions_witness :
  exists out, valueRangeAnalysis gepModule gepDL loopCF idSVF plainOptions (blocks gepModule)
      {[VRef 3 := gepInfo]} gepState ∅ ∅ (TG ∅ ∅) = Some out /\
    dom (vr_unsafe out) ## fs_safe (vr_fence out) /\
    dom (vr_unsafe out) ∪ fs_safe (vr_fence out) = seqGEPs gepModule {[VRef 3 := gepInfo]} /\
    forall g, g ∈ dom (vr_unsafe out) -> getParent gepModule g ∈ fs_unsafeBB (vr_fence out).
Proof.
  apply (valueRangeAnalysis_partitions gepModule gepDL loopCF idSVF plainOptions (blocks gepModule)
    {[VRef 3 := gepInfo]} gepState ∅ ∅ (TG ∅ ∅) (VRef 8)); [|reflexivity|left].
  split; [done|]. intros f _. split; [done|]. intros b s Hb. simpl in Hb.
  case_decide; [|set_solver]. apply list_elem_of_singleton in Hb as ->.
  unfold successors. vm_compute. set_solver.
Defined.

(** A GEP with one index on a struct pointer steps over whole structs, but its
    constant index is checked against the number of fields: an index in
    [1, number of fields) is accepted although the address is at least one whole
    struct past the base. *)
Theorem single_struct_index_checked_as_field M DL base id c st info :
  getType M base = TPtr (TStruct id) -> wf c -> (bw c <= 64)%Z -> isNegative c = false ->
  (1 <= signed c < structNumElements DL id)%Z ->
  (getElementOffset DL (TStruct id) (signed c) <= getTypeAllocSize DL (TStruct id))%Z ->
  (0 <= getTypeAllocSize DL (TStruct id))%Z ->
  unsafeGEP M DL base [VConstInt c] st info = false /\
  (getTypeAllocSize DL (TStruct id) <= signed c * getTypeAllocSize DL (TStruct id))%Z.
Proof.
  intros Ht Hw H64 Hn Hc Hoff Hsz. split; [|nia]. unfold unsafeGEP. simpl. rewrite Ht. simpl.
  pose proof (signed_eq_uv c Hw Hn) as Hs.
  assert (getLimitedValue c = uv c) as ->.
  { unfold getLimitedValue. destruct Hw as [? Hu'].
    assert (2 ^ bw c <= 2 ^ 64)%Z by (apply Z.pow_le_mono_r; lia). lia. }
  rewrite (proj2 (Z.ltb_lt _ _)) by lia. rewrite Hn.
  replace (uge c (structNumElements DL id)) with false by (symmetry; unfold uge; apply Z.leb_gt; lia).
  simpl. rewrite <- Hs. by rewrite (proj2 (Z.leb_le _ _)).
Qed.

Lemma single_struct_index_checked_as_field_witness :
  let M := simpleModule (fun _ => KOther) (fun _ => TPtr (TStruct 1)) in
  unsafeGEP M gepDL (VRef 1) [VConstInt (mk 64 2)] ∅ None = false /\ (4 <= 2 * 4)%Z.
Proof.
  intros M. apply (single_struct_index_checked_as_field M gepDL (VRef 1) 1 (mk 64 2) ∅ None);
    try (vm_compute; (reflexivity || discriminate)); try (apply mk_wf; lia); vm_compute; split; congruence.
Defined.
