(* ===== verification/Taint.v ===== *)
(** * Interprocedural taint analysis ([Taint.cpp], [Taint.hpp])

    The pass runs on a module whose unsafe GEPs are fenced with the markers of
    ValueRange.v.  It finds the first memory operations on the addresses the
    fenced GEPs lead to, propagates taint from them to a fixed point, erases the
    markers of the GEPs no taint reaches and annotates the tainted branches.
    [propagateTaint] is the shared step: a value is put in the set and on the
    work list unless it is in the set already.  The first phase shares one
    visited set between all the GEPs.  Erasing the neighbours of a GEP that is
    first in its block dereferences a null pointer: the result is [None]. *)
From stdpp Require Import base gmap sets list option strings relations.
From Stdlib Require Import ZArith Lia.
From S2P Require Import Prelude APInt LLVM PTA ValueRange.

Section Taint.
Context {orderValues : SetOrder value}.
Variable M : IRModule.
Variable P : SVF.

(** The function that holds an instruction: [getParent()->getParent()]. *)
Definition parentFunction (i : value) : value := getBBParent M (getParent M i).

(** *** 1.1 The fenced GEPs *)
Definition fencedGEP (call : value) : option value :=
  match kindOf M call with
  | KInst (ICall _ _) =>
    if bool_decide (asmOf M call = Some MAGIC_ASM_END) then
      match getPrevNode M call with
      | Some prevInst => if isGEPInst M prevInst then Some prevInst else None
      | None => None
      end
    else None
  | _ => None
  end.

Definition dgUnsafe : gset value := list_to_set (omap fencedGEP (functions M ≫= instructions M)).

(** *** Propagation *)
Definition propagateTaint (V : option value) (s : gset value * list value) : gset value * list value :=
  match V with
  | Some v => if decide (v ∈ s.1) then s else ({[v]} ∪ s.1, s.2 ++ [v])
  | None => s
  end.

(** The loop over the arguments of a call: the formals that receive [current]. *)
Definition propagateToFormals (callBase current : value) (s : gset value * list value) : gset value * list value :=
  match getCalledFunction M callBase with
  | Some calledFunc =>
    if isDeclaration M calledFunc then s
    else
      fold_left (fun s i =>
        if bool_decide (callArgs M callBase !! i = Some current) then
          if (i <? length (fargs M calledFunc))%nat then propagateTaint (fargs M calledFunc !! i) s else s
        else s) (seq 0 (length (callArgs M callBase))) s
  | None => s
  end.

(** The calls of the function a return instruction is in. *)
Definition propagateToCallers (returnInst : value) (retVal : option value) (s : gset value * list value)
    : gset value * list value :=
  match retVal with
  | Some _ =>
    fold_left (fun s u => if isCallBase M u then propagateTaint (Some u) s else s)
      (users M (parentFunction returnInst)) s
  | None => s
  end.

(** *** 1.2 The first memory operations of one GEP *)
Record FirstState := FirstSt {
  f_work : gset value * list value;   (* visited, Worklist *)
  f_ops : gset value;                 (* firstMemOpMap[gep] *)
  f_reach : gset value;               (* ReachableGEPs *)
}.

Definition firstUser (gep current u : value) (s : FirstState) : FirstState :=
  match kindOf M u with
  | KInst (ILoad _) => FirstSt (f_work s) ({[u]} ∪ f_ops s) (f_reach s)
  | KInst (IStore _ ptr) =>
    if decide (ptr = current) then FirstSt (f_work s) (f_ops s) ({[gep]} ∪ f_reach s)
    else FirstSt (f_work s) ({[u]} ∪ f_ops s) (f_reach s)
  | KInst (ICall _ _) | KInst (IInvoke _ _ _ _) | KInst (ICallBr _ _ _) =>
    FirstSt (propagateToFormals u current (f_work s)) (f_ops s) (f_reach s)
  | KInst (IRet retVal) => FirstSt (propagateToCallers u retVal (f_work s)) (f_ops s) (f_reach s)
  | KInst _ => FirstSt (propagateTaint (Some u) (f_work s)) (f_ops s) (f_reach s)
  | _ => s
  end.

Definition firstUsers (gep current : value) (s : FirstState) : FirstState :=
  fold_left (fun s u => firstUser gep current u s) (users M current) s.

Fixpoint firstLoop (fuel : nat) (gep : value) (s : FirstState) : option FirstState :=
  match fuel with
  | O => None
  | S k =>
    match (f_work s).2 with
    | [] => Some s
    | current :: Worklist =>
      firstLoop k gep (firstUsers gep current (FirstSt ((f_work s).1, Worklist) (f_ops s) (f_reach s)))
    end
  end.

(** The loop over the GEPs: the visited set, [firstMemOpMap] and [ReachableGEPs]. *)
Fixpoint firstMemOps (fuel : nat) (geps : list value) (visited : gset value)
    (firstMemOpMap : gmap value (gset value)) (reach : gset value)
    : option (gmap value (gset value) * gset value) :=
  match geps with
  | [] => Some (firstMemOpMap, reach)
  | gep :: geps =>
    s ← firstLoop fuel gep (FirstSt (propagateTaint (Some gep) (visited, [])) ∅ reach);
    firstMemOps fuel geps (f_work s).1 (<[gep := f_ops s]> firstMemOpMap) (f_reach s)
  end.

(** *** 1.3 The sources: each operation once *)
Definition formSources (firstMemOpMap : gmap value (gset value)) : list value :=
  (fold_left (fun s memOp => propagateTaint (Some memOp) s)
     (order (dom firstMemOpMap) ≫= fun g => order (default ∅ (firstMemOpMap !! g))) (∅, [])).2.

(** *** 2. The fixed point *)
Definition handleCallInst (callBase current : value) (s : gset value * list value) :=
  propagateToFormals callBase current s.
Definition handleLoadInst (loadInst : value) (s : gset value * list value) := propagateTaint (Some loadInst) s.
Definition handleReturnInst (returnInst : value) (retVal : option value) (s : gset value * list value) :=
  propagateToCallers returnInst retVal s.

(** The allocation site of an object. *)
Definition taintedSite (obj : Z) : option value :=
  let base := getBaseObjectId P obj in
  if isHeapObject P base then getMalloc M P base
  else if isStackObject P base then getAlloca M P base
  else if isGlobalObject P base then getGlobal M P base
  else None.

Definition handleStoreInst (valueOperand pointerOperand current : value) (s : gset value * list value) :=
  if decide (valueOperand = current) then
    fold_left (fun s obj => propagateTaint (taintedSite obj) s) (getPts P pointerOperand) s
  else s.

Definition taintUser (current u : value) (s : gset value * list value) : gset value * list value :=
  match kindOf M u with
  | KInst (ICall _ _) | KInst (IInvoke _ _ _ _) | KInst (ICallBr _ _ _) => handleCallInst u current s
  | KInst (ILoad _) => handleLoadInst u s
  | KInst (IStore val ptr) => handleStoreInst val ptr current s
  | KInst (IRet retVal) => handleReturnInst u retVal s
  | KInst _ => propagateTaint (Some u) s
  | _ => s
  end.

Fixpoint taintLoop (fuel : nat) (s : gset value * list value) : option (gset value) :=
  match fuel with
  | O => None
  | S k =>
    match s.2 with
    | [] => Some s.1
    | current :: Worklist =>
      taintLoop k (fold_left (fun s u => taintUser current u s) (users M current) (s.1, Worklist))
    end
  end.

(** *** 3. The results *)
Record TaintOut := {
  to_reachable : gset value;          (* ReachableGEPs at the end *)
  to_first : gset value;              (* firstStageGEPs *)
  to_second : gset value;             (* secondStageGEPs *)
  to_branches : gset value;           (* branches, annotated with taint.branch *)
  to_hardenedBB : gset value;
  to_insts : value -> list value;     (* the blocks without the erased markers *)
}.

Definition isBranchInst (v : value) : bool :=
  match kindOf M v with KInst (IBr _ _) => true | _ => false end.

(** The neighbours of a first-stage GEP, null when there is none. *)
Definition neighboursOf (first : gset value) (i : value) : list (option value) :=
  if decide (i ∈ first) then [getPrevNode M i; getNextNode M i] else [].

Definition toBeRemoved (first : gset value) : gset (option value) :=
  list_to_set ((functions M ≫= instructions M) ≫= neighboursOf first).

(** [eraseFromParent] on every element; a null one is dereferenced. *)
Definition eraseAll (removed : gset (option value)) : option (value -> list value) :=
  if decide (None ∈ removed) then None
  else Some (fun bb => filter (fun i => Some i ∉ removed) (insts M bb)).

Definition hardened (second branches : gset value) : gset value :=
  list_to_set (filter (fun bb => existsb (fun i => bool_decide (i ∈ second ∪ branches)) (insts M bb) = true)
    (functions M ≫= blocks M)).

Definition runOnModule (fuel : nat) : option TaintOut :=
  '(firstMemOpMap, reach) ← firstMemOps fuel (order dgUnsafe) ∅ ∅ ∅;
  reachable ← taintLoop fuel (reach, formSources firstMemOpMap);
  let firstStageGEPs := filter (fun g => g ∉ reachable) dgUnsafe in
  let secondStageGEPs := filter (fun g => g ∈ reachable) dgUnsafe in
  let branches := filter (fun v => isBranchInst v = true) reachable in
  insts' ← eraseAll (toBeRemoved firstStageGEPs);
  Some {| to_reachable := reachable; to_first := firstStageGEPs; to_second := secondStageGEPs;
          to_branches := branches; to_hardenedBB := hardened secondStageGEPs branches; to_insts := insts' |}.

End Taint.

(** ** What flows where

    The two propagations as relations, independent of work lists: an address flows from
    a value to the formals it is passed to, to the calls of a function that returns it
    and to other instructions computed from it; taint also flows into loads and, when it
    is stored, into the allocation sites the stored-to pointer may address. *)
Section Flows.
Variable M : IRModule.
Variable P : SVF.

(** Instructions neither phase treats specially. *)
Definition plainInst (u : value) : bool :=
  match kindOf M u with
  | KInst (ILoad _) | KInst (IStore _ _) | KInst (ICall _ _) | KInst (IInvoke _ _ _ _)
  | KInst (ICallBr _ _ _) | KInst (IRet _) => false
  | KInst _ => true
  | _ => false
  end.

Inductive address_flow (x : value) : value -> Prop :=
| af_argument u f i a :
    u ∈ users M x -> isCallBase M u = true -> getCalledFunction M u = Some f -> isDeclaration M f = false ->
    callArgs M u !! i = Some x -> fargs M f !! i = Some a -> address_flow x a
| af_return u rv c :
    u ∈ users M x -> kindOf M u = KInst (IRet (Some rv)) -> c ∈ users M (parentFunction M u) ->
    isCallBase M c = true -> address_flow x c
| af_plain u : u ∈ users M x -> plainInst u = true -> address_flow x u.

Inductive taint_flow (x : value) : value -> Prop :=
| tf_address y : address_flow x y -> taint_flow x y
| tf_load u p : u ∈ users M x -> kindOf M u = KInst (ILoad p) -> taint_flow x u
| tf_store u p o s :
    u ∈ users M x -> kindOf M u = KInst (IStore x p) -> o ∈ getPts P p -> taintedSite M P o = Some s ->
    taint_flow x s.

(** A first memory operation on the address [x]: a load, or a store of [x] itself. *)
Definition memory_op (x u : value) : Prop :=
  u ∈ users M x /\ ((exists p, kindOf M u = KInst (ILoad p)) \/ exists v p, kindOf M u = KInst (IStore v p) /\ p <> x).
Definition stored_through (x : value) : Prop := exists u v, u ∈ users M x /\ kindOf M u = KInst (IStore v x).

(** The same as lists, in the order of the loops. *)
Definition callFormals (u x : value) : list value :=
  match getCalledFunction M u with
  | Some f => if isDeclaration M f then []
              else omap (fun i => if bool_decide (callArgs M u !! i = Some x) then fargs M f !! i else None)
                     (seq 0 (length (callArgs M u)))
  | None => []
  end.
Definition callersOf (u : value) (rv : option value) : list value :=
  match rv with Some _ => filter (fun c => isCallBase M c = true) (users M (parentFunction M u)) | None => [] end.

Definition addressFlows1 (x u : value) : list value :=
  match kindOf M u with
  | KInst (ILoad _) | KInst (IStore _ _) => []
  | KInst (ICall _ _) | KInst (IInvoke _ _ _ _) | KInst (ICallBr _ _ _) => callFormals u x
  | KInst (IRet rv) => callersOf u rv
  | KInst _ => [u]
  | _ => []
  end.
Definition addressFlows (x : value) : list value := users M x ≫= addressFlows1 x.

Definition taintFlows1 (x u : value) : list value :=
  match kindOf M u with
  | KInst (ILoad _) => [u]
  | KInst (IStore v p) => if decide (v = x) then omap (taintedSite M P) (getPts P p) else []
  | _ => addressFlows1 x u
  end.
Definition taintFlows (x : value) : list value := users M x ≫= taintFlows1 x.

Definition memoryOps (x : value) : list value :=
  filter (fun u => match kindOf M u with
                   | KInst (ILoad _) => true
                   | KInst (IStore _ p) => negb (bool_decide (p = x))
                   | _ => false end = true) (users M x).
Definition storedThrough (x : value) : bool :=
  existsb (fun u => match kindOf M u with KInst (IStore _ p) => bool_decide (p = x) | _ => false end) (users M x).

Lemma elem_of_callFormals u x a :
  a ∈ callFormals u x <->
  exists f i, getCalledFunction M u = Some f /\ isDeclaration M f = false /\
    callArgs M u !! i = Some x /\ fargs M f !! i = Some a.
Proof.
  unfold callFormals. destruct (getCalledFunction M u) as [f|]; [|split; [set_solver|by intros (? & ? & ? & _)]].
  destruct (isDeclaration M f) eqn:Hd; [split; [set_solver|intros (? & ? & [= <-] & Hd' & _); congruence]|].
  rewrite list_elem_of_omap. split.
  - intros (i & _ & Ha). case_bool_decide; [|done]. by exists f, i.
  - intros (f' & i & [= <-] & _ & Hi & Ha). exists i. rewrite bool_decide_eq_true_2 by done. split; [|done].
    apply elem_of_seq. apply lookup_lt_Some in Hi. lia.
Qed.

Lemma elem_of_callersOf u rv c :
  c ∈ callersOf u rv <-> is_Some rv /\ c ∈ users M (parentFunction M u) /\ isCallBase M c = true.
Proof.
  unfold callersOf. destruct rv as [rv|]; [|split; [set_solver|by intros [[] _]]].
  rewrite list_elem_of_filter. split; [intros [? ?]; eauto|intros (_ & ? & ?); auto].
Qed.

Lemma elem_of_addressFlows1 x u y :
  u ∈ users M x -> y ∈ addressFlows1 x u -> address_flow x y.
Proof.
  intros Hu. unfold addressFlows1.
  destruct (kindOf M u) as [| | | | | | | | |[]|] eqn:Hk; try set_solver;
    try (intros ->%list_elem_of_singleton; apply af_plain; [done|by unfold plainInst; rewrite Hk]);
    try (intros (f & i & ? & ? & ? & ?)%elem_of_callFormals; eapply af_argument; eauto; unfold isCallBase; by rewrite Hk).
  intros ([rv ->] & ? & ?)%elem_of_callersOf. by eapply af_return.
Qed.

Lemma elem_of_addressFlows x y : y ∈ addressFlows x <-> address_flow x y.
Proof.
  unfold addressFlows. rewrite list_elem_of_bind. split.
  - intros (u & Hy & Hu). by eapply elem_of_addressFlows1.
  - intros [u f i a Hu Hc Hf Hd Hi Ha|u rv c Hu Hk Hc Hb|u Hu Hp]; exists u; (split; [|done]); unfold addressFlows1.
    + assert (a ∈ callFormals u x) as Hin by (apply elem_of_callFormals; eauto 10).
      unfold isCallBase in Hc. by destruct (kindOf M u) as [| | | | | | | | |[]|].
    + rewrite Hk. apply elem_of_callersOf; eauto.
    + unfold plainInst in Hp. destruct (kindOf M u) as [| | | | | | | | |[]|]; try done; by apply list_elem_of_singleton.
Qed.

Lemma elem_of_taintFlows x y : y ∈ taintFlows x <-> taint_flow x y.
Proof.
  unfold taintFlows. rewrite list_elem_of_bind. split.
  - intros (u & Hy & Hu). unfold taintFlows1 in Hy.
    destruct (kindOf M u) as [| | | | | | | | |[]|] eqn:Hk;
      try (apply tf_address; by apply (elem_of_addressFlows1 x u)).
    + apply list_elem_of_singleton in Hy as ->. by eapply tf_load.
    + destruct (decide (val = x)) as [->|]; [|set_solver]. apply list_elem_of_omap in Hy as (o & Ho & Hs). by eapply tf_store.
  - intros [y' Hy|u p Hu Hk|u p o s Hu Hk Ho Hs].
    + apply elem_of_addressFlows, list_elem_of_bind in Hy as (u & Hy & Hu). exists u. split; [|done].
      unfold taintFlows1. destruct (kindOf M u) as [| | | | | | | | |[]|] eqn:Hk; try done;
        unfold addressFlows1 in Hy; rewrite Hk in Hy; set_solver.
    + exists u. split; [|done]. unfold taintFlows1. rewrite Hk. by apply list_elem_of_singleton.
    + exists u. split; [|done]. unfold taintFlows1. rewrite Hk, decide_True by done. apply list_elem_of_omap. eauto.
Qed.

Lemma elem_of_memoryOps x u : u ∈ memoryOps x <-> memory_op x u.
Proof.
  unfold memoryOps, memory_op. rewrite list_elem_of_filter. split.
  - intros [Hk Hu]. split; [done|]. destruct (kindOf M u) as [| | | | | | | | |[]|]; try done; [left; eauto|right].
    bool_prop. eauto.
  - intros [Hu [[p Hk]|(v & p & Hk & Hp)]]; split; try done; rewrite Hk; [done|].
    by rewrite bool_decide_eq_false_2.
Qed.

Lemma storedThrough_spec x : storedThrough x = true <-> stored_through x.
Proof.
  unfold storedThrough, stored_through. rewrite existsb_exists. split.
  - intros (u & Hu%list_elem_of_In & Hk). destruct (kindOf M u) as [| | | | | | | | |[]|] eqn:Hk'; try done.
    bool_prop. subst. eauto.
  - intros (u & v & Hu & Hk). exists u. rewrite <- list_elem_of_In, Hk. by rewrite bool_decide_eq_true_2.
Qed.

End Flows.

(** ** The loops are marking searches *)
Section Loops.
Context {orderValues : SetOrder value}.
Variable M : IRModule.
Variable P : SVF.

Lemma propagateTaint_mark o s : propagateTaint o s = markAll (option_list o) s.
Proof using Type. by destruct o. Qed.

Lemma fold_markAll {A} (op : A -> gset value * list value -> gset value * list value) (E : A -> list value) l s :
  (forall x s, op x s = markAll (E x) s) -> fold_left (fun s x => op x s) l s = markAll (l ≫= E) s.
Proof using Type.
  intros Hop. revert s. induction l as [|x l IH]; intros s; simpl; [done|].
  rewrite IH, Hop. unfold markAll. by rewrite fold_left_app.
Qed.

Lemma markAll_omap {A} (E : A -> option value) l s :
  fold_left (fun s x => propagateTaint (E x) s) l s = markAll (omap E l) s.
Proof using Type.
  rewrite (fold_markAll (fun x s => propagateTaint (E x) s) (fun x => option_list (E x)));
    [|intros; apply propagateTaint_mark].
  f_equal. induction l as [|x l IH]; csimpl; [done|]. rewrite IH. by destruct (E x).
Qed.

Lemma propagateToFormals_mark u x s : propagateToFormals M u x s = markAll (callFormals M u x) s.
Proof using Type.
  unfold propagateToFormals, callFormals. destruct (getCalledFunction M u) as [f|]; [|done].
  destruct (isDeclaration M f); [done|]. rewrite <- markAll_omap.
  revert s. induction (seq 0 _) as [|i l IH]; intros s; simpl; [done|]. rewrite IH. f_equal.
  case_bool_decide; [|done]. destruct (Nat.ltb_spec i (length (fargs M f))) as [|Hge]; [done|].
  by rewrite lookup_ge_None_2 by lia.
Qed.

Lemma propagateToCallers_mark u rv s : propagateToCallers M u rv s = markAll (callersOf M u rv) s.
Proof using Type.
  unfold propagateToCallers, callersOf. destruct rv; [|done].
  revert s. induction (users M _) as [|c l IH]; intros s; simpl; [done|]. rewrite IH, filter_cons.
  by destruct (isCallBase M c).
Qed.

Lemma taintUser_mark x u s : taintUser M P x u s = markAll (taintFlows1 M P x u) s.
Proof using Type.
  unfold taintUser, taintFlows1, addressFlows1, handleCallInst, handleLoadInst, handleReturnInst, handleStoreInst.
  destruct (kindOf M u) as [| | | | | | | | |[]|]; try done;
    rewrite ?propagateToFormals_mark, ?propagateToCallers_mark; try done.
  case_decide; [|done]. apply (markAll_omap (taintedSite M P)).
Qed.

Lemma taintLoop_flood fuel s : taintLoop M P fuel s = fst <$> flood (taintFlows M P) fuel s.
Proof using Type.
  revert s. induction fuel as [|k IH]; intros [m q]; [done|]. cbn [taintLoop flood fst snd].
  destruct q as [|x q]; [done|].
  rewrite (fold_markAll (taintUser M P x) (taintFlows1 M P x)) by apply taintUser_mark. rewrite IH.
  fold (taintFlows M P x). destruct (flood _ k _) as [[m' p]|]; done.
Qed.

(** What the users of one value do to the state of the first phase. *)
Definition afterUsers (gep : value) (xs : list value) (work : gset value * list value) (s : FirstState) : FirstState :=
  FirstSt work (list_to_set (xs ≫= memoryOps M) ∪ f_ops s)
    (if existsb (storedThrough M) xs then {[gep]} ∪ f_reach s else f_reach s).

Lemma firstUsers_eq gep x s :
  firstUsers M gep x s = afterUsers gep [x] (markAll (addressFlows M x) (f_work s)) s.
Proof using Type.
  unfold firstUsers, afterUsers, addressFlows, memoryOps, storedThrough. simpl. rewrite app_nil_r, orb_false_r.
  revert s. induction (users M x) as [|u l IH]; intros s; simpl; [by destruct s; rewrite union_empty_l_L|].
  rewrite IH. unfold firstUser, addressFlows1 at 2. rewrite filter_cons. unfold markAll. rewrite fold_left_app.
  fold (markAll (addressFlows1 M x u) (f_work s)). unfold addressFlows1 at 2.
  destruct (kindOf M u) as [| | | | | | | | |[]|]; simpl;
    rewrite ?propagateToFormals_mark, ?propagateToCallers_mark; unfold propagateTaint; try done.
  - f_equal. set_solver.
  - case_decide; simpl; rewrite ?bool_decide_eq_true_2, ?bool_decide_eq_false_2 by done; simpl.
    + f_equal. destruct (existsb _ l); set_solver.
    + f_equal. set_solver.
Qed.

Lemma firstLoop_flood fuel gep s :
  firstLoop M fuel gep s =
  '(m, p) ← flood (addressFlows M) fuel (f_work s); Some (afterUsers gep p (m, []) s).
Proof using Type.
  revert s. induction fuel as [|k IH]; intros [[m q] ops r]; [done|]. cbn [firstLoop flood f_work f_ops f_reach fst snd].
  destruct q as [|x q]; [unfold afterUsers; simpl; by rewrite union_empty_l_L|].
  rewrite firstUsers_eq, IH. unfold afterUsers. simpl.
  destruct (flood _ k _) as [[m' p]|]; [|done]. simpl. do 2 f_equal.
  - rewrite app_nil_r, list_to_set_app_L. set_solver.
  - destruct (storedThrough M x), (existsb (storedThrough M) p); simpl; set_solver.
Qed.

End Loops.

(** ** The first phase finds every first memory operation *)
Section FirstPhase.
Context {orderValues : SetOrder value}.
Variable M : IRModule.
Context (U : gset value).

(** [U] holds the values of the program: addresses flow inside it. *)
Hypothesis HU : forall x y, x ∈ U -> address_flow M x y -> y ∈ U.

Definition flow_closed (V : gset value) : Prop := forall x y, x ∈ V -> address_flow M x y -> y ∈ V.

Lemma flows_in x : x ∈ U -> Forall (.∈ U) (addressFlows M x).
Proof. intros Hx. apply Forall_elem. intros y Hy%elem_of_addressFlows. by eapply HU. Qed.

Lemma closed_flow V x y : flow_closed V -> x ∈ V -> rtc (address_flow M) x y -> y ∈ V.
Proof. intros Hc Hx Hr. induction Hr; eauto. Qed.

Lemma tc_flow V x y : tc (fresh_step (addressFlows M) V) x y -> rtc (address_flow M) x y.
Proof.
  induction 1 as [x y [Hy%elem_of_addressFlows _]|x y z [Hy%elem_of_addressFlows _] _ IH];
    [by apply rtc_once|by eapply rtc_l].
Qed.

(** The walk from one GEP processes what it leads to and was not visited before. *)
Lemma flood_from_gep fuel gep V :
  gep ∈ U -> flow_closed V -> S (size U) < fuel ->
  exists V' p, flood (addressFlows M) fuel (propagateTaint (Some gep) (V, [])) = Some (V', p) /\
    flow_closed V' /\ (forall x, x ∈ V' <-> x ∈ V \/ rtc (address_flow M) gep x) /\
    (forall x, x ∈ p <-> rtc (address_flow M) gep x /\ x ∉ V).
Proof.
  intros Hg HV Hf. simpl. destruct (decide (gep ∈ V)) as [Hin|Hin].
  { exists V, []. assert (flood (addressFlows M) fuel (V, []) = Some (V, [])) as -> by (destruct fuel; [lia|done]).
    pose proof (closed_flow V gep). split_and!; [done|done|naive_solver|].
    intros x. split; [set_solver|]. intros [Hr Hx]. destruct Hx. eauto. }
  destruct (flood_spec (addressFlows M) ({[gep]} ∪ V) [gep] fuel U) as (V' & p & Hr & Hm & Hp & Hcl);
    [apply flows_in|by apply Forall_singleton| |].
  { assert (size (U ∖ ({[gep]} ∪ V)) <= size U) by (apply subseteq_size; set_solver). cbn [length]. lia. }
  assert (forall x, x ∈ p <-> x ∈ V' /\ x ∉ V) as Hp'.
  { intros x. rewrite Hp, Hm. destruct (decide (x = gep)) as [->|Hne]; set_solver. }
  assert (flow_closed V') as HV'.
  { intros x y Hx Hy. destruct (decide (x ∈ V)) as [Hxv|]; [apply Hm; left; apply elem_of_union_r; by eapply HV|].
    eapply Hcl; [by apply Hp'|by apply elem_of_addressFlows]. }
  assert (forall x, x ∈ V' <-> x ∈ V \/ rtc (address_flow M) gep x) as Hin'.
  { intros x. split.
    - rewrite Hm. intros [[->%elem_of_singleton|]%elem_of_union|(y & ->%list_elem_of_singleton & Hy)];
        [right; apply rtc_refl|by left|right; by eapply tc_flow].
    - intros [Hx|Hx]; [apply Hm; left; by apply elem_of_union_r|].
      eapply closed_flow; [done| |done]. apply Hm. left. set_solver. }
  exists V', p. split_and!; [done..|]. intros x. rewrite Hp', Hin'. naive_solver.
Qed.

(** The keys and operations of the map, as a relation. *)
Definition op_in (m : gmap value (gset value)) (op : value) : Prop := exists g s, m !! g = Some s /\ op ∈ s.

Lemma op_in_insert m g s op : m !! g = None -> op_in (<[g := s]> m) op <-> op_in m op \/ op ∈ s.
Proof.
  intros Hg. unfold op_in. split.
  - intros (k & t & [[<- <-]|[_ Hk]]%lookup_insert_Some & Hop); [by right|left; eauto].
  - intros [(k & t & Hk & Hop)|Hop].
    + exists k, t. rewrite lookup_insert_ne; [done|]. intros <-. congruence.
    + exists g, s. by rewrite lookup_insert_eq.
Qed.

Lemma firstMemOps_spec fuel geps V m r :
  S (size U) < fuel -> NoDup geps -> Forall (.∈ U) geps -> flow_closed V -> (forall g, g ∈ geps -> m !! g = None) ->
  exists m' r', firstMemOps M fuel geps V m r = Some (m', r') /\
    (forall op, op_in m' op <-> op_in m op \/
       exists g x, g ∈ geps /\ rtc (address_flow M) g x /\ x ∉ V /\ memory_op M x op) /\
    (forall g, g ∈ r' -> g ∈ r \/ (g ∈ geps /\ exists x, rtc (address_flow M) g x /\ stored_through M x)) /\
    r ⊆ r' /\
    (forall g x, g ∈ geps -> rtc (address_flow M) g x -> x ∉ V -> stored_through M x ->
       exists g', g' ∈ geps /\ g' ∈ r' /\ rtc (address_flow M) g' x).
Proof.
  intros Hf. revert V m r. induction geps as [|gep geps IH]; intros V m r Hd HgU HV Hm; cbn [firstMemOps].
  { exists m, r. split_and!; [done|set_solver|by left|done|set_solver]. }
  apply NoDup_cons in Hd as [Hgn Hd]. apply Forall_cons in HgU as [Hg HgU].
  destruct (flood_from_gep fuel gep V Hg HV Hf) as (V' & p & Hr & HV' & Hin & Hp).
  rewrite firstLoop_flood. cbn [f_work]. rewrite Hr. simpl. rewrite union_empty_r_L.
  destruct (IH V' (<[gep := list_to_set (p ≫= memoryOps M)]> m)
    (if existsb (storedThrough M) p then {[gep]} ∪ r else r)) as (m' & r' & -> & Hops & Hr1 & Hr2 & Hr3); try done.
  { intros g Hgin. rewrite lookup_insert_ne; [by apply Hm; right|]. by intros ->. }
  exists m', r'. split_and!; [done|..].
  - intros op. rewrite Hops, op_in_insert by (apply Hm; left). rewrite elem_of_list_to_set, list_elem_of_bind. split.
    + intros [[?|(x & Hop%elem_of_memoryOps & [Hx HxV]%Hp)]|(g & x & Hgin & Hrt & HxV & Hop)]; [by left|right..].
      * exists gep, x. split_and!; [left|done..].
      * exists g, x. rewrite Hin in HxV. split_and!; [by right|done|naive_solver|done].
    + intros [?|(g & x & [->|Hgin]%elem_of_cons & Hrt & HxV & Hop)]; [auto|..].
      * left. right. exists x. by rewrite elem_of_memoryOps, Hp.
      * destruct (decide (x ∈ V')) as [Hx'|Hx']; [|right; by exists g, x].
        apply Hin in Hx' as [|Hrt']; [done|]. left. right. exists x. by rewrite elem_of_memoryOps, Hp.
  - intros g [Hgr|(Hgin & x & ? & ?)]%Hr1; [|right; split; [by right|by exists x]].
    destruct (existsb (storedThrough M) p) eqn:He; [|by left]. apply elem_of_union in Hgr as [->%elem_of_singleton|]; [right|by left].
    split; [left|]. apply existsb_exists in He as (x & Hx%list_elem_of_In & Hs). exists x.
    by rewrite <- storedThrough_spec; apply Hp in Hx as [? _].
  - destruct (existsb (storedThrough M) p); set_solver.
  - intros g x Hgin Hrt HxV Hs.
    destruct (decide (x ∈ V')) as [Hrx|Hrx]; cycle 1.
    + apply elem_of_cons in Hgin as [->|Hgin]; [destruct Hrx; apply Hin; by right|].
      destruct (Hr3 g x Hgin Hrt Hrx Hs) as (g' & ? & ? & ?).
      exists g'. split_and!; [by right|done..].
    + apply Hin in Hrx as [?|Hrx]; [done|]. exists gep. split_and!; [left| |done]. apply Hr2.
      replace (existsb (storedThrough M) p) with true; [set_solver|]. symmetry. apply existsb_exists.
      exists x. rewrite <- list_elem_of_In, Hp, storedThrough_spec. done.
Qed.

End FirstPhase.

(** ** The fixed point *)
Section FixedPoint.
Context {orderValues : SetOrder value}.
Variable M : IRModule.
Variable P : SVF.

Lemma formSources_mark m :
  formSources m = (markAll (order (dom m) ≫= fun g => order (default ∅ (m !! g))) (∅, [])).2.
Proof.
  reflexivity.
Qed.

Lemma elem_of_formSources m x : x ∈ formSources m <-> op_in m x.
Proof.
  rewrite formSources_mark. destruct (markAll_spec (order (dom m) ≫= fun g => order (default ∅ (m !! g))) (∅, [])) as (_ & H2 & _).
  rewrite H2. simpl. rewrite list_elem_of_bind. unfold op_in. split.
  - intros [|[(g & Hx & Hg) _]]; [set_solver|]. rewrite elem_of_order in Hx.
    destruct (m !! g) as [s|] eqn:Hm; [eauto|set_solver].
  - intros (g & s & Hm & Hx). right. split; [|set_solver]. exists g. rewrite !elem_of_order, Hm. split; [done|].
    by eapply elem_of_dom_2.
Qed.

Lemma length_formSources m (U : gset value) : (forall x, x ∈ formSources m -> x ∈ U) -> length (formSources m) <= size U.
Proof.
  rewrite formSources_mark.
  set (l := order (dom m) ≫= fun g => order (default ∅ (m !! g))). intros HU.
  destruct (markAll_spec l (∅, [])) as (H1 & H2 & H3).
  cbn [fst snd] in *. rewrite size_empty in H3. cbn [length] in H3.
  assert (size (markAll l (∅, [])).1 <= size U); [|lia]. apply subseteq_size.
  intros x Hx. apply HU, H2. apply H1 in Hx as [?|?]; [set_solver|right; set_solver].
Qed.

Context (U : gset value).
Hypothesis HU : forall x y, x ∈ U -> taint_flow M P x y \/ memory_op M x y -> y ∈ U.
Hypothesis HG : dgUnsafe M ⊆ U.

(** A step of taint to a value the first phase has not put in the set. *)
Definition taint_step (reach : gset value) (x y : value) : Prop := taint_flow M P x y /\ y ∉ reach.

Lemma address_in x y : x ∈ U -> rtc (address_flow M) x y -> y ∈ U.
Proof. intros Hx Hr. induction Hr as [|x y z Hxy _ IH]; [done|]. apply IH. apply (HU x); [done|left; by apply tf_address]. Qed.

(** The results of the two phases. *)
Definition taint_result (m : gmap value (gset value)) (r R : gset value) : Prop :=
  (forall op, op ∈ formSources m <->
     exists g x, g ∈ dgUnsafe M /\ rtc (address_flow M) g x /\ memory_op M x op) /\
  (forall g, g ∈ r -> g ∈ dgUnsafe M /\ exists x, rtc (address_flow M) g x /\ stored_through M x) /\
  (forall g x, g ∈ dgUnsafe M -> rtc (address_flow M) g x -> stored_through M x ->
     exists g', g' ∈ r /\ rtc (address_flow M) g' x) /\
  (forall x, x ∈ R <-> x ∈ r \/ exists s, s ∈ formSources m /\ tc (taint_step r) s x).

Lemma taint_runs fuel :
  S (2 * size U) < fuel ->
  exists m r R, firstMemOps M fuel (order (dgUnsafe M)) ∅ ∅ ∅ = Some (m, r) /\
    taintLoop M P fuel (r, formSources m) = Some R /\ taint_result m r R.
Proof.
  intros Hf.
  destruct (firstMemOps_spec M U) with (fuel := fuel) (geps := order (dgUnsafe M)) (V := ∅ : gset value)
    (m := ∅ : gmap value (gset value)) (r := ∅ : gset value) as (m & r & Hr & Hops & Hr1 & _ & Hr2).
  - intros x y Hx Hy. apply (HU x); [done|left; by apply tf_address].
  - lia.
  - rewrite order_perm. apply NoDup_elements.
  - apply Forall_elem. intros g Hg%elem_of_order. by apply HG.
  - intros x y Hx. set_solver.
  - intros g _. apply lookup_empty.
  - assert (forall op, op ∈ formSources m <->
      exists g x, g ∈ dgUnsafe M /\ rtc (address_flow M) g x /\ memory_op M x op) as Hsrc.
    { intros op. rewrite elem_of_formSources, Hops. setoid_rewrite elem_of_order. split.
      - intros [(g & s & Hs & _)|(g & x & ? & ? & _ & ?)]; [by rewrite lookup_empty in Hs|eauto].
      - intros (g & x & ? & ? & ?). right. exists g, x. split_and!; [done..|set_solver|done]. }
    assert (forall x, x ∈ formSources m -> x ∈ U) as HsU.
    { intros op (g & x & Hg & Hgx & Hop)%Hsrc. apply (HU x); [|by right]. eapply address_in; [by apply HG|done]. }
    destruct (flood_spec (taintFlows M P) r (formSources m) fuel U) as (R & p & HR & HRin & _).
    + intros x Hx. apply Forall_elem. intros y Hy%elem_of_taintFlows. apply (HU x); auto.
    + by apply Forall_elem.
    + pose proof (length_formSources m U HsU).
      assert (size (U ∖ r) <= size U) by (apply subseteq_size; set_solver). lia.
    + exists m, r, R. split_and!; [done|by rewrite taintLoop_flood, HR|].
      split_and!; [done| | |].
      * intros g [?|(Hg%elem_of_order & Hx)]%Hr1; [set_solver|done].
      * intros g x Hg Hgx Hs. destruct (Hr2 g x) as (g' & _ & ? & ?); [by apply elem_of_order|done|set_solver|done|eauto].
      * intros x. rewrite HRin. split; (intros [?|(s & Hs & Hx)]; [by left|right; exists s; split; [done|]]);
          (eapply tc_mono; [|exact Hx]); intros a b [Hab ?]; (split; [by apply elem_of_taintFlows|done]).
Qed.

End FixedPoint.

(** ** Which markers are erased *)
Section Erase.
Variable M : IRModule.
Hypothesis Hok : blocks_ok M.

(** A fenced GEP stands in its block, followed by the end marker it was found by. *)
Lemma dgUnsafe_spec g :
  g ∈ dgUnsafe M <->
  exists call, call ∈ (functions M ≫= instructions M) /\ isCallInst M call = true /\
    asmOf M call = Some MAGIC_ASM_END /\ getPrevNode M call = Some g /\ isGEPInst M g = true.
Proof.
  unfold dgUnsafe. rewrite elem_of_list_to_set, list_elem_of_omap. apply exist_proper. intros call.
  unfold fencedGEP, isCallInst. split.
  - intros [Hin Hf]. repeat case_match; simplify_eq/=. bool_prop. done.
  - intros (Hin & Hc & Ha & Hp & Hg). split; [done|]. repeat case_match; try done; simplify_eq; bool_prop; congruence.
Qed.

Lemma instruction_in_block i : i ∈ (functions M ≫= instructions M) -> i ∈ insts M (getParent M i).
Proof.
  rewrite list_elem_of_bind. intros (f & Hi & _). unfold instructions in Hi.
  apply list_elem_of_join in Hi as (l & Hi & Hl). apply list_elem_of_fmap in Hl as (bb & -> & _).
  by rewrite (proj2 (Hok bb) i Hi).
Qed.

Lemma dgUnsafe_next g :
  g ∈ dgUnsafe M ->
  exists call, getNextNode M g = Some call /\ asmOf M call = Some MAGIC_ASM_END /\ isGEPInst M g = true /\
    g ∈ insts M (getParent M g).
Proof.
  intros (call & Hin & _ & Ha & Hp & Hg)%dgUnsafe_spec. exists call.
  apply getPrevNode_next in Hp as [Hn Hgi]; [done..|by apply instruction_in_block].
Qed.

(** The erased instructions are the neighbours of the GEPs that lose their fence. *)
Lemma elem_of_toBeRemoved first o :
  first ⊆ dgUnsafe M -> (forall g, g ∈ dgUnsafe M -> g ∈ (functions M ≫= instructions M)) ->
  o ∈ toBeRemoved M first <-> exists g, g ∈ first /\ (o = getPrevNode M g \/ o = getNextNode M g).
Proof.
  intros Hsub Hin. unfold toBeRemoved. rewrite elem_of_list_to_set, list_elem_of_bind. unfold neighboursOf. split.
  - intros (g & Ho & _). case_decide; [|set_solver]. exists g. split; [done|].
    by rewrite !elem_of_cons, elem_of_nil in Ho; destruct Ho as [|[|[]]]; auto.
  - intros (g & Hg & Ho). exists g. split; [|by apply Hin, Hsub]. rewrite decide_True by done.
    rewrite !elem_of_cons. destruct Ho; auto.
Qed.

Lemma asm_not_gep i a : asmOf M i = Some a -> isGEPInst M i = false.
Proof. unfold asmOf, calledOperand, isGEPInst. by destruct (kindOf M i) as [| | | | | | | | |[]|]. Qed.

(** Every fenced GEP also follows a begin marker. *)
Definition fenced_before : Prop :=
  forall g, g ∈ dgUnsafe M -> exists b, getPrevNode M g = Some b /\ asmOf M b = Some MAGIC_ASM_BEGIN.

(** A neighbour of a fenced GEP is a neighbour of no other. *)
Lemma neighbour_unique g h n :
  fenced_before -> g ∈ dgUnsafe M -> h ∈ dgUnsafe M ->
  getPrevNode M g = Some n \/ getNextNode M g = Some n ->
  getPrevNode M h = Some n \/ getNextNode M h = Some n -> g = h.
Proof.
  intros HB Hg Hh Hgn Hhn.
  destruct (dgUnsafe_next g Hg) as (cg & Hng & Hag & _ & Hgi), (dgUnsafe_next h Hh) as (ch & Hnh & Hah & _ & Hhi).
  destruct (HB g Hg) as (bg & Hpg & Hbg), (HB h Hh) as (bh & Hph & Hbh).
  assert (forall x y, getPrevNode M x = Some n -> getNextNode M y = Some n -> x ∈ dgUnsafe M -> y ∈ dgUnsafe M -> False) as Hmix.
  { intros x y Hx Hy Hxd Hyd. destruct (HB x Hxd) as (b & Hb & Hba), (dgUnsafe_next y Hyd) as (c & Hc & Hca & _).
    assert (b = n) as -> by congruence. assert (c = n) as -> by congruence. rewrite Hba in Hca. discriminate Hca. }
  destruct Hgn as [Hgn|Hgn], Hhn as [Hhn|Hhn]; [|by destruct (Hmix g h)|by destruct (Hmix h g)|].
  - apply getPrevNode_next in Hgn as [Hgn _], Hhn as [Hhn _]; [|done..]. congruence.
  - rewrite getNextNode_adjacent in Hgn, Hhn by done.
    pose proof (adjacent_elem _ _ _ Hgn) as [_ Hn1]. pose proof (adjacent_elem _ _ _ Hhn) as [_ Hn2].
    apply Hok in Hn1 as Hn1', Hn2 as Hn2'.
    assert (getPrevNode M n = Some g) as E1 by (rewrite getPrevNode_adjacent, Hn1' by done; done).
    assert (getPrevNode M n = Some h) as E2 by (rewrite getPrevNode_adjacent, Hn2' by done; done).
    congruence.
Qed.

End Erase.

(** ** The whole pass *)
Section Run.
Context {orderValues : SetOrder value}.
Variable M : IRModule.
Variable P : SVF.
Context (U : gset value).
Hypothesis Hok : blocks_ok M.
Hypothesis HU : forall x y, x ∈ U -> taint_flow M P x y \/ memory_op M x y -> y ∈ U.
Hypothesis HG : dgUnsafe M ⊆ U.

Lemma dgUnsafe_in g : g ∈ dgUnsafe M -> g ∈ (functions M ≫= instructions M).
Proof.
  intros (call & (f & Hi & Hf)%list_elem_of_bind & _ & _ & Hp & _)%dgUnsafe_spec.
  apply list_elem_of_bind. exists f. split; [|done]. unfold instructions in *.
  apply list_elem_of_join in Hi as (l & Hi & Hl). apply list_elem_of_join. exists l. split; [|done].
  apply list_elem_of_fmap in Hl as (bb & -> & _).
  rewrite getPrevNode_adjacent, (proj2 (Hok bb) call Hi) in Hp by done. by apply adjacent_elem in Hp as [? _].
Qed.

Lemma runOnModule_erase fuel :
  S (2 * size U) < fuel ->
  exists m r R, taint_result M P m r R /\
    let first := filter (fun g => g ∉ R) (dgUnsafe M) in
    match runOnModule M P fuel with
    | Some out =>
      to_reachable out = R /\ to_first out = first /\ to_second out = filter (fun g => g ∈ R) (dgUnsafe M) /\
      to_branches out = filter (fun v => isBranchInst M v = true) R /\
      eraseAll M (toBeRemoved M first) = Some (to_insts out)
    | None => eraseAll M (toBeRemoved M first) = None
    end.
Proof.
  intros Hf. destruct (taint_runs M P U HU HG fuel Hf) as (m & r & R & Hm & HR & Hres).
  exists m, r, R. split; [done|]. unfold runOnModule. rewrite Hm. simpl. rewrite HR. simpl.
  by destruct (eraseAll M _) as [insts'|] eqn:He.
Qed.

Lemma eraseAll_none removed : eraseAll M removed = None <-> None ∈ removed.
Proof. unfold eraseAll. by case_decide. Qed.

Lemma eraseAll_spec removed insts' bb i :
  eraseAll M removed = Some insts' -> i ∈ insts' bb <-> i ∈ insts M bb /\ Some i ∉ removed.
Proof. unfold eraseAll. case_decide; [done|]. intros [= <-]. rewrite list_elem_of_filter. tauto. Qed.

End Run.

(** ** Properties *)

(** [%1 = gep; %2 = load %1; %3 = gep .. %2; load %3; br %2], both GEPs fenced. *)
Definition taintInsts : list value := VRef <$> [10; 11; 12; 13; 15; 16; 17; 18; 14]%positive.
Definition taintModule : IRModule := {|
  m_kind := fun p => match p with
    | 1%positive => KFunction | 2%positive => KBasicBlock
    | 3%positive => KInlineAsm MAGIC_ASM_BEGIN | 4%positive => KInlineAsm MAGIC_ASM_END
    | 10%positive | 15%positive => KInst (ICall (VRef 3) [])
    | 12%positive | 17%positive => KInst (ICall (VRef 4) [])
    | 11%positive => KInst (IGEP (TInt 8) (TInt 8) (VRef 20) [VRef 21])
    | 16%positive => KInst (IGEP (TInt 8) (TInt 8) (VRef 20) [VRef 13])
    | 13%positive => KInst (ILoad (VRef 11)) | 18%positive => KInst (ILoad (VRef 16))
    | 14%positive => KInst (IBr (Some (VRef 13)) [VRef 2; VRef 2])
    | _ => KArgument end;
  m_type := fun _ => TPtr (TInt 8); getName := fun _ => ""%string;
  users := fun v => match v with
    | VRef 11 => [VRef 13] | VRef 13 => [VRef 16; VRef 14] | VRef 16 => [VRef 18] | _ => [] end%positive;
  functions := [VRef 1]; globals := [];
  blocks := fun f => if decide (f = VRef 1) then [VRef 2] else [];
  insts := fun bb => if decide (bb = VRef 2) then taintInsts else [];
  fargs := fun _ => []; getParent := fun _ => VRef 2; getBBParent := fun _ => VRef 1;
  isDeclaration := fun _ => false; getCalledFunction := fun _ => None;
  predecessors := fun _ => []; stripPointerCasts := fun v => v; getFunctionNamed := fun _ => None |}.
Definition taintU : gset value := list_to_set taintInsts.

Lemma taintModule_blocks : blocks_ok taintModule.
Proof.
  intros bb. simpl. destruct (decide (bb = VRef 2)) as [->|]; (split; [|set_solver]).
  - apply (bool_decide_unpack _). vm_compute. exact I.
  - apply NoDup_nil_2.
Qed.

Lemma taintModule_closed x y :
  x ∈ taintU -> taint_flow taintModule idSVF x y \/ memory_op taintModule x y -> y ∈ taintU.
Proof.
  intros Hx Hy.
  assert (forallb (fun x => forallb (fun y => bool_decide (y ∈ taintU))
    (taintFlows taintModule idSVF x ++ memoryOps taintModule x)) (elements taintU) = true) as Hall by (vm_compute; reflexivity).
  rewrite forallb_forall in Hall. specialize (Hall x). rewrite <- list_elem_of_In, elem_of_elements in Hall.
  specialize (Hall Hx). rewrite forallb_forall in Hall. apply (bool_decide_eq_true_1 _), Hall, list_elem_of_In, elem_of_app.
  destruct Hy; [left; by apply elem_of_taintFlows|right; by apply elem_of_memoryOps].
Qed.

Lemma taintModule_geps : dgUnsafe taintModule = {[VRef 11; VRef 16]}.
Proof. vm_compute. reflexivity. Qed.

Lemma taintModule_fenced : fenced_before taintModule.
Proof.
  intros g. rewrite taintModule_geps. intros [Hg%elem_of_singleton|Hg%elem_of_singleton]%elem_of_union; subst g;
    [exists (VRef 10)|exists (VRef 15)]; split; vm_compute; reflexivity.
Qed.

(** C20: what the taint propagation computes.  The pass ends.  The sources are exactly the
    first memory operations on what the fenced GEPs lead to, whatever order the GEPs are
    taken in and although they share one visited set.  The set of charged GEPs may depend on
    the order: it has only GEPs that lead to an address stored through, and every such
    address some GEP of the set leads to.  Given the charged set, the reached set is
    exactly the charged GEPs and what taint flows to from the sources without going on from
    a charged GEP; so it can be smaller than the closure of the flow relations
    ([stored_gep_loses_fence]). *)
Theorem taint_exact {orderValues : SetOrder value} M P U fuel :
  (forall x y, x ∈ U -> taint_flow M P x y \/ memory_op M x y -> y ∈ U) -> dgUnsafe M ⊆ U ->
  S (2 * size U) < fuel ->
  exists m r R, firstMemOps M fuel (order (dgUnsafe M)) ∅ ∅ ∅ = Some (m, r) /\
    taintLoop M P fuel (r, formSources m) = Some R /\
    (forall op, op ∈ formSources m <->
       exists g x, g ∈ dgUnsafe M /\ rtc (address_flow M) g x /\ memory_op M x op) /\
    (forall g, g ∈ r -> g ∈ dgUnsafe M /\ exists x, rtc (address_flow M) g x /\ stored_through M x) /\
    (forall g x, g ∈ dgUnsafe M -> rtc (address_flow M) g x -> stored_through M x ->
       exists g', g' ∈ r /\ rtc (address_flow M) g' x) /\
    (forall x, x ∈ R <-> x ∈ r \/ exists s, s ∈ formSources m /\ tc (taint_step M P r) s x).
Proof. intros HU HG Hf. apply (taint_runs M P U HU HG fuel Hf). Qed.

Lemma taint_exact_witness :
  exists m r R, firstMemOps taintModule 30 (elements (dgUnsafe taintModule)) ∅ ∅ ∅ = Some (m, r) /\
    taintLoop taintModule idSVF 30 (r, formSources (orderValues := elementsOrder value) m) = Some R.
Proof.
  destruct (taint_exact (orderValues := elementsOrder value) taintModule idSVF taintU 30) as (m & r & R & Hm & HR & _).
  - exact taintModule_closed.
  - rewrite taintModule_geps. apply (bool_decide_unpack _). vm_compute. exact I.
  - vm_compute. lia.
  - exists m, r, R. split; [exact Hm|exact HR].
Defined.

(** C21: exactly the fences of the untainted GEPs go.  When every fenced GEP has both
    markers, the run succeeds; the fenced GEPs are split by the taint; an instruction
    leaves its block exactly when it is a marker next to a GEP taint does not reach; and
    a GEP taint reaches keeps its two markers around it. *)
Theorem tainted_geps_keep_fences {orderValues : SetOrder value} M P U fuel :
  blocks_ok M -> fenced_before M ->
  (forall x y, x ∈ U -> taint_flow M P x y \/ memory_op M x y -> y ∈ U) -> dgUnsafe M ⊆ U ->
  S (2 * size U) < fuel ->
  exists out, runOnModule M P fuel = Some out /\
    to_first out ∪ to_second out = dgUnsafe M /\ to_first out ## to_reachable out /\
    to_second out ⊆ to_reachable out /\
    (forall bb i, i ∈ insts M bb ->
       i ∉ to_insts out bb <-> exists g, g ∈ to_first out /\ (getPrevNode M g = Some i \/ getNextNode M g = Some i)) /\
    (forall g, g ∈ to_second out ->
       exists b e, getPrevNode M g = Some b /\ getNextNode M g = Some e /\
         b ∈ to_insts out (getParent M g) /\ g ∈ to_insts out (getParent M g) /\ e ∈ to_insts out (getParent M g)).
Proof.
  intros Hok HB HU HG Hf.
  destruct (runOnModule_erase M P U HU HG fuel Hf) as (m & r & R & _ & Hrun). cbn zeta in Hrun.
  set (first := filter (fun g => g ∉ R) (dgUnsafe M)) in *.
  assert (first ⊆ dgUnsafe M) as Hsub by (intros g Hg%elem_of_filter; tauto).
  assert (forall o, o ∈ toBeRemoved M first <-> exists g, g ∈ first /\ (o = getPrevNode M g \/ o = getNextNode M g)) as Hrem
    by (intros o; apply elem_of_toBeRemoved; [done|done|by apply dgUnsafe_in]).
  destruct (runOnModule M P fuel) as [out|]; cycle 1.
  { apply eraseAll_none, Hrem in Hrun as (g & Hg%Hsub & [Hn|Hn]).
    - destruct (HB g Hg) as (b & Hb & _). congruence.
    - destruct (dgUnsafe_next M Hok g Hg) as (e & He & _). congruence. }
  destruct Hrun as (HR & Hf1 & Hf2 & _ & He). exists out. rewrite HR, Hf1, Hf2.
  assert (forall bb i, i ∈ insts M bb ->
    i ∉ to_insts out bb <-> exists g, g ∈ first /\ (getPrevNode M g = Some i \/ getNextNode M g = Some i)) as Hkeep.
  { intros bb i Hi. rewrite (eraseAll_spec _ _ _ _ _ He). setoid_rewrite Hrem. split.
    - intros Hn. destruct (decide (Some i ∈ toBeRemoved M first)) as [(g & Hg & Hgi)%Hrem|Hni].
      + exists g. naive_solver.
      + rewrite Hrem in Hni. tauto.
    - intros (g & Hg & Hgi) [_ Hn]. apply Hn. exists g. naive_solver. }
  split_and!; [done| |set_solver|set_solver|done|].
  { apply set_eq. intros g. rewrite elem_of_union. unfold first. rewrite !elem_of_filter. destruct (decide (g ∈ R)); tauto. }
  intros g [HgR Hg]%elem_of_filter.
  destruct (HB g Hg) as (b & Hb & Hba), (dgUnsafe_next M Hok g Hg) as (e & Hen & Hea & Hgep & Hgi).
  exists b, e. pose proof Hb as Hb'. rewrite getPrevNode_adjacent in Hb' by done. apply adjacent_elem in Hb' as [Hbi _].
  pose proof Hen as He'. rewrite getNextNode_adjacent in He' by done. apply adjacent_elem in He' as [_ Hei].
  assert (forall i, i ∈ insts M (getParent M g) -> getPrevNode M g = Some i \/ getNextNode M g = Some i ->
    i ∈ to_insts out (getParent M g)) as Hnb.
  { intros i Hi Hgn. destruct (decide (i ∈ to_insts out (getParent M g))) as [|Hn]; [done|exfalso].
    apply (Hkeep _ _ Hi) in Hn as (h & [HhR Hh]%elem_of_filter & Hhn).
    assert (g = h) as -> by by eapply neighbour_unique. done. }
  split_and!; [done|done|apply Hnb; auto| |apply Hnb; auto].
  destruct (decide (g ∈ to_insts out (getParent M g))) as [|Hn]; [done|exfalso].
  apply (Hkeep _ _ Hgi) in Hn as (h & Hh%Hsub & Hhn).
  destruct (HB h Hh) as (bh & Hbh & Hbha), (dgUnsafe_next M Hok h Hh) as (eh & Heh & Heha & _).
  destruct Hhn as [Hhn|Hhn]; [assert (bh = g) as -> by congruence; apply asm_not_gep in Hbha|
                              assert (eh = g) as -> by congruence; apply asm_not_gep in Heha]; congruence.
Qed.

Lemma tainted_geps_keep_fences_witness :
  exists out, runOnModule (orderValues := elementsOrder value) taintModule idSVF 30 = Some out /\
    to_first out ∪ to_second out = {[VRef 11; VRef 16]}.
Proof.
  destruct (tainted_geps_keep_fences (orderValues := elementsOrder value) taintModule idSVF taintU 30) as (out & Hr & Hu & _).
  - exact taintModule_blocks.
  - exact taintModule_fenced.
  - exact taintModule_closed.
  - rewrite taintModule_geps. apply (bool_decide_unpack _). vm_compute. exact I.
  - vm_compute. lia.
  - exists out. split; [exact Hr|]. rewrite <- taintModule_geps. exact Hu.
Defined.

(** The index of the second GEP is loaded through the first: the second stays fenced,
    the first loses its markers, and the branch on the loaded value is annotated. *)
Example taintModule_run :
  match runOnModule (orderValues := elementsOrder value) taintModule idSVF 30 with
  | Some out => to_first out = {[VRef 11]} /\ to_second out = {[VRef 16]} /\ to_branches out = {[VRef 14]} /\
      to_insts out (VRef 2) = VRef <$> [11; 13; 15; 16; 17; 18; 14]%positive
  | None => False
  end.
Proof. vm_compute. done. Qed.

(** C32: the clean-up fails exactly on a GEP that opens its block.  The GEPs are found
    by their end marker only; with an untainted one that is the first instruction of its
    block the run dereferences a null pointer, and in no other case. *)
Theorem cleanup_fails_exactly {orderValues : SetOrder value} M P U fuel :
  blocks_ok M ->
  (forall x y, x ∈ U -> taint_flow M P x y \/ memory_op M x y -> y ∈ U) -> dgUnsafe M ⊆ U ->
  S (2 * size U) < fuel ->
  exists m r R, taint_result M P m r R /\
    (runOnModule M P fuel = None <-> exists g, g ∈ dgUnsafe M /\ g ∉ R /\ getPrevNode M g = None).
Proof.
  intros Hok HU HG Hf. destruct (runOnModule_erase M P U HU HG fuel Hf) as (m & r & R & Hres & Hrun).
  exists m, r, R. split; [done|]. cbn zeta in Hrun.
  set (first := filter (fun g => g ∉ R) (dgUnsafe M)) in *.
  assert (None ∈ toBeRemoved M first <-> exists g, g ∈ dgUnsafe M /\ g ∉ R /\ getPrevNode M g = None) as Hrem.
  { rewrite elem_of_toBeRemoved; [|done|intros g Hg%elem_of_filter; tauto|by apply dgUnsafe_in].
    unfold first. setoid_rewrite elem_of_filter. split.
    - intros (g & [HgR Hg] & [Hn|Hn]); [by exists g|].
      destruct (dgUnsafe_next M Hok g Hg) as (e & He & _). congruence.
    - intros (g & Hg & HgR & Hn). exists g. auto. }
  rewrite <- Hrem, <- eraseAll_none. destruct (runOnModule M P fuel); [|done].
  destruct Hrun as (_ & _ & _ & _ & He). rewrite He. done.
Qed.

Lemma cleanup_fails_exactly_witness :
  exists m r R, taint_result (orderValues := elementsOrder value) taintModule idSVF m r R /\
    (runOnModule (orderValues := elementsOrder value) taintModule idSVF 30 = None <->
     exists g, g ∈ dgUnsafe taintModule /\ g ∉ R /\ getPrevNode taintModule g = None).
Proof.
  apply (cleanup_fails_exactly (orderValues := elementsOrder value) taintModule idSVF taintU 30).
  - exact taintModule_blocks.
  - exact taintModule_closed.
  - rewrite taintModule_geps. apply (bool_decide_unpack _). vm_compute. exact I.
  - vm_compute. lia.
Defined.

(** The shared visited set: [%2 = gep %1; store .. %2], both fenced.  The walk from [%1]
    visits [%2], so the store is charged to [%1] only, and [%2], which is stored through,
    loses its fence. *)
Definition sharedModule : IRModule := {|
  m_kind := fun p => match p with
    | 1%positive => KFunction | 2%positive => KBasicBlock
    | 3%positive => KInlineAsm MAGIC_ASM_BEGIN | 4%positive => KInlineAsm MAGIC_ASM_END
    | 10%positive | 15%positive => KInst (ICall (VRef 3) [])
    | 12%positive | 17%positive => KInst (ICall (VRef 4) [])
    | 11%positive => KInst (IGEP (TInt 8) (TInt 8) (VRef 20) [VRef 21])
    | 16%positive => KInst (IGEP (TInt 8) (TInt 8) (VRef 11) [VRef 21])
    | 18%positive => KInst (IStore (VRef 22) (VRef 16))
    | _ => KArgument end;
  m_type := fun _ => TPtr (TInt 8); getName := fun _ => ""%string;
  users := fun v => match v with VRef 11 => [VRef 16] | VRef 16 => [VRef 18] | _ => [] end%positive;
  functions := [VRef 1]; globals := [];
  blocks := fun f => if decide (f = VRef 1) then [VRef 2] else [];
  insts := fun bb => if decide (bb = VRef 2) then VRef <$> [10; 11; 12; 15; 16; 17; 18]%positive else [];
  fargs := fun _ => []; getParent := fun _ => VRef 2; getBBParent := fun _ => VRef 1;
  isDeclaration := fun _ => false; getCalledFunction := fun _ => None;
  predecessors := fun _ => []; stripPointerCasts := fun v => v; getFunctionNamed := fun _ => None |}.

Example stored_gep_loses_fence :
  elements (dgUnsafe sharedModule) = [VRef 11; VRef 16] /\
  stored_through sharedModule (VRef 16) /\
  to_second <$> runOnModule (orderValues := elementsOrder value) sharedModule idSVF 30 = Some {[VRef 11]} /\
  (fun out => to_insts out (VRef 2)) <$> runOnModule (orderValues := elementsOrder value) sharedModule idSVF 30 =
    Some (VRef <$> [10; 11; 12; 16; 18]%positive).
Proof.
  split_and!; [vm_compute; reflexivity| |vm_compute; reflexivity..].
  exists (VRef 18), (VRef 22). split; [apply list_elem_of_In; vm_compute; auto|reflexivity].
Qed.
