(* ===== verification/MemSafe.v ===== *)
(** * The CCured-style classification pass ([UnifiedMemSafe.cpp])

    [UnifiedMemSafePass] walks every instruction of the module and classifies
    the pointers it meets: sequential (Seq) when they are indexed, dynamic (Dyn)
    when they are cast, propagating classes and sizes through stores and loads.
    Every handler is a function on [AnalysisState]; a [VariableInfo*] is a
    reference that is read when the code reads it.  LLVM's size evaluator, its
    constant folder on non-literal constants and [Type::isSized] are parameters.
    The two chain walks (casts, loads) take a bound on the chain's length, and
    the walk over the variable map a bound on its iterations. *)
From stdpp Require Import base gmap sets list option strings relations sorting.
From Stdlib Require Import ZArith Lia.
From S2P Require Import Prelude APInt LLVM AnalysisState RangeTransfer PTA Graph DataDep.

(** What the pass asks of LLVM and of the dependence graph besides the module. *)
Record LLVMServices := {
  knownSize : value -> option value;            (* ObjectSizeOffsetEvaluator, size *)
  knownOffset : value -> option value;          (* ObjectSizeOffsetEvaluator, offset *)
  accumulateConstantOffset : value -> option apint;
  isSized : ty -> bool;
  foldMul : value -> value -> value;            (* ConstantExpr::getMul on other constants *)
  foldSub : value -> value -> value;
  foldZExt64 : value -> value;
  pdgraph : GenericGraph;                       (* the program dependence graph *)
  nodeOrder : SetOrder positive;                (* the order of std::set<Node*> *)
  nextEntry : gset value -> gset value -> option value;
    (* iterator of an unordered_map: an entry among the given keys, the given ones visited *)
}.

(** The values of the DATA_ALIAS in-neighbours of the node of an instruction. *)
Definition aliasInNeighbors (L : LLVMServices) (i : value) : list value :=
  match getNode (pdgraph L) i with
  | None => []
  | Some node =>
    match heap (pdgraph L) !! node with
    | None => []
    | Some nd =>
      let aliasSet := getInNeighborsWithDepType nd DATA_ALIAS in
      omap (fun alias => nd ← heap (pdgraph L) !! alias; _val nd) (order (SetOrder := nodeOrder L) aliasSet)
    end
  end.

(** [countIndirections] and [unwrapPointer] *)
Fixpoint countIndirections (t : ty) : Z :=
  match t with TPtr e => (countIndirections e + 1)%Z | _ => 0%Z end.
Fixpoint unwrapPointer (t : ty) : ty :=
  match t with TPtr e => unwrapPointer e | _ => t end.

Section Pass.
Variable M : IRModule.
Variable DL : DataLayout.
Variable P : SVF.
Variable L : LLVMServices.
Variable uninit : VariableInfo.
(** Chains of casts and loads end, see [dominated]. *)
Variable DOM : dominated M.

Definition MySize (n : Z) : value := VConstInt (mk 64 n).
Definition UnknownSizeConstInt : value := MySize 10000000.

(** [ConstantExpr::getMul], [getSub], [getZExtOrBitCast(_, i64)] *)
Definition constMul (a b : value) : value :=
  match a, b with VConstInt x, VConstInt y => VConstInt (mul x y) | _, _ => foldMul L a b end.
Definition constSub (a b : value) : value :=
  match a, b with VConstInt x, VConstInt y => VConstInt (sub x y) | _, _ => foldSub L a b end.
Definition constZExt64 (a : value) : value :=
  match a with VConstInt x => VConstInt (mk 64 (uv x)) | _ => foldZExt64 L a end.

Definition getSizeForValue (v : value) : value :=
  match knownSize L v with
  | Some s => s
  | None =>
    let t := match getType M v with TPtr e => e | t => t end in
    match t with
    | TArray n e => constMul (MySize n) (MySize (getTypeAllocSize DL e))
    | TFunction _ => MySize 8
    | _ =>
      if (isCallInst M v || isInvokeInst M v) && isPointerTy (getType M v) then UnknownSizeConstInt
      else if isArgument M v then MySize (PTA.getSizeForValue P v)
      else if isSized L t then MySize (getTypeAllocSize DL t) else MySize 0
    end
  end.

(** *** [getOffsetForGEPInst] *)

(** The last store to [ai] among the instructions before [l]. *)
Fixpoint lastStoreBefore (is_ : list value) (l ai : value) (lastStore : option value) : option value :=
  match is_ with
  | [] => lastStore
  | i :: rest =>
    if decide (i = l) then lastStore
    else
      lastStoreBefore rest l ai
        (match kindOf M i with
         | KInst (IStore _ ptr) => if decide (ptr = ai) then Some i else lastStore
         | _ => lastStore
         end)
  end.

Definition storedConstant (s : value) : option Z :=
  match kindOf M s with KInst (IStore (VConstInt c) _) => Some (getSExtValue c) | _ => None end.

Definition getLastConstantStore (l ai : value) : Z :=
  if decide (getFunction M l = getFunction M ai) then
    match lastStoreBefore (instructions M (getFunction M l)) l ai None with
    | Some s => default (-1)%Z (storedConstant s)
    | None => (-1)%Z
    end
  else (-1)%Z.

Fixpoint uniqueStoreAmong (us : list value) (uniqueStore : option value) : option value :=
  match us with
  | [] => uniqueStore
  | u :: us =>
    match kindOf M u with
    | KInst (IStore _ _) =>
      match uniqueStore with
      | Some s => if decide (s = u) then uniqueStoreAmong us (Some u) else None
      | None => uniqueStoreAmong us (Some u)
      end
    | _ => uniqueStoreAmong us uniqueStore
    end
  end.

Definition resolveAllocaStore (l ai : value) : Z :=
  match uniqueStoreAmong (users M ai) None with
  | Some s =>
    match kindOf M s with
    | KInst (IStore (VConstInt c) ptr) =>
      if decide (ptr = ai) then getSExtValue c else getLastConstantStore l ai
    | _ => getLastConstantStore l ai
    end
  | None => getLastConstantStore l ai
  end.

(** The operand of a cast. *)
Definition castOperand (v : value) : option value :=
  match kindOf M v with KInst (ICast _ src) => Some src | _ => None end.

Lemma castOperand_operand x y : castOperand x = Some y -> operandOf M y x.
Proof.
  unfold castOperand, operandOf, operands. intros H. repeat case_match; simplify_eq. split; [left|done].
Qed.

(** The casts are peeled away first; what is below them is no cast. *)
Definition resolveConstantIndex (v : value) : Z :=
  let v := chainEnd M DOM castOperand castOperand_operand v in
  match v with
  | VConstInt c => getSExtValue c
  | _ =>
    match kindOf M v with
    | KInst (ILoad ptr) => if isAllocaInst M ptr then resolveAllocaStore v ptr else (-1)%Z
    | _ => (-1)%Z
    end
  end.

(** The recursion of the source. *)
Lemma resolveConstantIndex_step v : resolveConstantIndex v =
  match v with
  | VConstInt c => getSExtValue c
  | _ =>
    match kindOf M v with
    | KInst (ILoad ptr) => if isAllocaInst M ptr then resolveAllocaStore v ptr else (-1)%Z
    | KInst (ICast _ src) => resolveConstantIndex src
    | _ => (-1)%Z
    end
  end.
Proof.
  unfold resolveConstantIndex at 1. cbv zeta. rewrite chainEnd_step.
  destruct v as [c|p]; [done|]. destruct (castOperand (VRef p)) as [src|] eqn:Ec; unfold castOperand in Ec.
  - destruct (kindOf M (VRef p)) as [| | | | | | | | |k|]; try done. destruct k; try done. by injection Ec as ->.
  - destruct (kindOf M (VRef p)) as [| | | | | | | | |k|]; try done. by destruct k.
Qed.

(** The index loop; [None] when an index does not resolve. *)
Fixpoint sumOffsets (idxs : list value) (typeStoreSize totalOffset : Z) : option Z :=
  match idxs with
  | [] => Some totalOffset
  | ix :: rest =>
    let cVal := resolveConstantIndex ix in
    if (cVal =? -1)%Z then None
    else sumOffsets rest typeStoreSize (u64 (totalOffset + cVal * typeStoreSize))
  end.

Definition getOffsetForGEPInst (gep : value) (resElt : ty) (idxs : list value) : value :=
  if isVectorTy (getType M gep) then UnknownSizeConstInt
  else
    match knownOffset L gep with
    | Some off => off
    | None =>
      match accumulateConstantOffset L gep with
      | Some off => VConstInt (mk 64 (uv off))
      | None =>
        match sumOffsets idxs (getTypeStoreSize DL resElt) 0 with
        | Some total => MySize total
        | None => UnknownSizeConstInt
        end
      end
    end.

(** *** Handlers *)
Abbreviation GetInfo := (GetPointerVariableInfo M uninit).

(** [TheState.Variables[GV].dependentFunctions.insert(fname)] *)
Definition addDependent (fname : string) (v : value) (s : AnalysisState) : AnalysisState :=
  if isGlobalVariable M v then upd v (add_dependent fname) s else s.

Definition globalOperand (fname : string) (u : value) (s : AnalysisState) : AnalysisState :=
  if isGlobalVariable M u then addDependent fname u s
  else
    match kindOf M u with
    | KInst (IGEP _ _ base idxs) | KConstantExpr (Some (base, idxs)) =>
      fold_left (fun s ix => addDependent fname ix s) idxs (addDependent fname base s)
    | _ => s
    end.

Definition processGlobalVariables (i : value) (s : AnalysisState) : AnalysisState :=
  fold_left (fun s u => globalOperand (getName M (getFunction M i)) u s) (operands M i) s.

Definition processAllocaInst (i : value) (allocTy : ty) (arraySize : value) (s : AnalysisState) : AnalysisState :=
  if isPointerTy allocTy then RegisterVariable i s
  else if isConstant_ M arraySize then
    let w := match getType M arraySize with TInt w => w | _ => 64%Z end in
    SetSizeForPointerVariable i
      (Some (constMul arraySize (VConstInt (mk w (getTypeAllocSize DL allocTy))))) s
  else SetSizeForPointerVariable i (Some (MySize 10000)) s.

(** The pointer a freed value was loaded from, or the value it was cast from. *)
Definition freedFrom (v : value) : option value :=
  match kindOf M v with
  | KInst (ILoad ptr) => Some ptr
  | KInst (ICast BitCast src) => Some src
  | _ => None
  end.

Lemma freedFrom_operand x y : freedFrom x = Some y -> operandOf M y x.
Proof.
  unfold freedFrom, operandOf, operands. intros H. repeat case_match; simplify_eq; (split; [left|done]).
Qed.

Definition propagateFreedSize (var : value) (s : AnalysisState) : AnalysisState :=
  fold_left (fun s var => SetSizeForPointerVariable var None s) (operandChain M DOM freedFrom freedFrom_operand var) s.

(** One round of the loop of the source. *)
Lemma propagateFreedSize_step var s : propagateFreedSize var s =
  match freedFrom var with
  | Some var => propagateFreedSize var (SetSizeForPointerVariable var None s)
  | None => s
  end.
Proof. unfold propagateFreedSize at 1. rewrite chain_step. by destruct (freedFrom var). Qed.

Definition updateRewrittenFunctionCall (i : value) (s : AnalysisState) : AnalysisState :=
  match getCalledFunction M i with
  | None => s
  | Some calledFunc =>
    match getFunctionNamed M (getName M calledFunc +:+ "_UnifiedMemSafe") with
    | None => s
    | Some rewritten =>
      fold_left (fun s r =>
        match kindOf M r with
        | KInst (IRet (Some v)) =>
          match GetInfo v s with
          | Some ref => ClassifyPointerVariable i (classification (deref s ref)) s
          | None => s
          end
        | _ => s
        end) (instructions M rewritten) s
    end
  end.

Definition processCallInst (i : value) (s : AnalysisState) : AnalysisState :=
  match getCalledFunction M i with
  | None => s
  | Some f =>
    let funcName := getName M f in
    let withArg n k := match callArgs M i !! n with Some a => k a | None => s end in
    let nargs := length (fargs M f) in
    let s :=
      if contains funcName "malloc" && Nat.eqb nargs 1 then
        withArg 0 (fun a => SetSizeForPointerVariable i (Some a) s)
      else if contains funcName "realloc" && Nat.eqb nargs 2 then
        withArg 1 (fun a => SetSizeForPointerVariable i (Some a) s)
      else if contains funcName "free" && Nat.eqb nargs 1 then
        withArg 0 (fun a => propagateFreedSize a (SetSizeForPointerVariable a None s))
      else if isPointerTy (getType M i) then SetSizeForPointerVariable i (Some (getSizeForValue i)) s
      else s in
    updateRewrittenFunctionCall i s
  end.

Definition processStoreInst (val ptr : value) (s : AnalysisState) : AnalysisState :=
  if isPointerTy (getType M val) then
    let '(ref, s) :=
      match GetInfo val s with
      | Some ref => (ref, s)
      | None => (EntryRef val, SetSizeForPointerVariable val (Some (getSizeForValue val)) s)
      end in
    let s := ClassifyPointerVariable ptr (classification (deref s ref)) s in
    SetSizeForPointerVariable ptr (vsize (deref s ref)) s
  else
    match GetInfo ptr s with
    | Some _ => s
    | None =>
      SetInstantiatedExplicitSizeVariable ptr true
        (SetSizeForPointerVariable ptr (Some (getSizeForValue ptr)) s)
    end.

(** The explicit size variable has to be loaded again. *)
Definition needsExplicitSize (i : value) (info : VariableInfo) : bool :=
  hasExplicitSizeVariable info &&
  (negb (instantiatedExplicitSizeVariable info) ||
   match vsize info with
   | Some sz => isInstruction M sz && negb (bool_decide (getParent M sz = getParent M i))
   | None => false
   end).

Definition processLoadInst (i ptr : value) (s : AnalysisState) : AnalysisState :=
  if isPointerTy (getType M i) then
    let '(ref, s) :=
      match GetInfo ptr s with
      | Some ref => (Some ref, s)
      | None =>
        if isConstant_ M ptr
        then (Some (EntryRef ptr), SetSizeForPointerVariable ptr (Some (getSizeForValue ptr)) s)
        else (None, s)
      end in
    match ref with
    | None => s
    | Some ref =>
      let info := deref s ref in
      let s :=
        if needsExplicitSize i info
        then SetInstantiatedExplicitSizeVariable ptr true
               (SetSizeForPointerVariable ptr (explicitSizeVariable info) s)
        else s in
      let s := ClassifyPointerVariable i (classification (deref s ref)) s in
      SetSizeForPointerVariable i (vsize (deref s ref)) s
    end
  else
    match GetInfo ptr s with
    | Some _ => s
    | None =>
      SetInstantiatedExplicitSizeVariable ptr true
        (SetSizeForPointerVariable ptr (Some (getSizeForValue ptr)) s)
    end.

(** A zero size is replaced by the size of the indexed type. *)
Definition replaceZeroSize (srcElt : ty) (ptr : value) (s : AnalysisState) (size : option value)
    : option value * AnalysisState :=
  match size with
  | Some (VConstInt c) =>
    if isZero c then
      let other :=
        match srcElt with
        | TArray n e => VConstInt (mk 64 (u64 (n * getTypeAllocSize DL e)))
        | _ => getSizeForValue ptr
        end in
      (Some other, SetSizeForPointerVariable ptr (Some other) s)
    else (size, s)
  | _ => (size, s)
  end.

(** The size left behind the offset, when both are constants. *)
Definition to64 (c : value) : value :=
  match getType M c with TInt 64 => c | _ => constZExt64 c end.
Definition remainingSize (size : option value) (offset : value) : option value :=
  match size with
  | Some sz =>
    if isConstant_ M offset && isConstant_ M sz
    then Some (constSub (to64 sz) (to64 offset)) else size
  | None => size
  end.

Definition processGetElementPtrInst (i : value) (srcElt resElt : ty) (ptr : value) (idxs : list value)
    (s : AnalysisState) : AnalysisState :=
  let s :=
    if hasAllZeroIndices idxs then s
    else ClassifyPointerVariable i Seq (ClassifyPointerVariable ptr Seq s) in
  let s := RegisterVariable i s in
  if isPointerTy resElt then s
  else
    match GetInfo ptr s with
    | None => s
    | Some ref =>
      let '(otherSize, s) := replaceZeroSize srcElt ptr s (vsize (deref s ref)) in
      let otherSize :=
        if hasAllZeroIndices idxs then otherSize
        else remainingSize otherSize (getOffsetForGEPInst i resElt idxs) in
      SetSizeForPointerVariable i otherSize s
    end.

(** *** Casts *)
Definition isCastOfInterest (srcT dstT : ty) : bool :=
  negb (countIndirections srcT =? countIndirections dstT)%Z ||
  negb (isIntegerTy (unwrapPointer srcT)) || negb (isIntegerTy (unwrapPointer dstT)).

Definition findLoadDstType (li : value) : ty :=
  match find (fun u => isCastInst M u) (users M li) with
  | Some c => unwrapPointer (getType M c)
  | None => unwrapPointer (getType M li)
  end.

Fixpoint findRealDstIn (us : list value) : option ty :=
  match us with
  | [] => None
  | u :: us =>
    match kindOf M u with
    | KInst (IStore _ ptr) => Some (unwrapPointer (getType M ptr))
    | KInst (ILoad _) => Some (findLoadDstType u)
    | KInst (ICast _ _) => Some (unwrapPointer (getType M u))
    | _ => findRealDstIn us
    end
  end.
Definition findRealDstType (i : value) (innerDstT : ty) : ty :=
  default innerDstT (findRealDstIn (users M i)).

(** [processLoadOperand] and [processCastOperand] *)
Definition processDynOperand (i op : value) (s : AnalysisState) : AnalysisState :=
  ClassifyPointerVariable i Dyn (ClassifyPointerVariable op Dyn s).

Definition processGEPOperand (i op : value) (s : AnalysisState) : AnalysisState :=
  ClassifyPointerVariable i Dyn (ClassifyPointerVariable op Seq s).

Definition processCallOperand (i : value) (cop : castop) (op : value) (ref : VarRef) (s : AnalysisState) : AnalysisState :=
  let one := match vsize (deref s ref) with Some (VConstInt c) => (getZExtValue c =? 1)%Z | _ => false end in
  let s := if bool_decide (cop = BitCast) && one
           then SetSizeForPointerVariable op (Some (getSizeForValue i)) s else s in
  processDynOperand i op s.

(** The conversion may change the integer. *)
Definition couldChangeValue (i : value) (cop : castop) (src : value) : bool :=
  match cop, getType M src, getType M i with
  | SExt, TInt _, TInt _ => true
  | Trunc, TInt ws, TInt wd =>
    (wd <? ws)%Z &&
    match kindOf M src with
    | KInst (ILoad ptr) =>
      existsb (fun u => match kindOf M u with KInst (IStore _ _) => true | _ => false end) (users M ptr)
    | _ => true
    end
  | _, _, _ => false
  end.

Definition classifyExtOrTruncInst (i : value) (cop : castop) (src : value) (s : AnalysisState) : AnalysisState :=
  if couldChangeValue i cop src then processDynOperand i src s else s.

(** The operand's handler, by its class. *)
Definition processOperand (i : value) (cop : castop) (op : value) (ref : VarRef) (s : AnalysisState) : AnalysisState :=
  match kindOf M op with
  | KInst (ILoad _) | KInst (ICast _ _) => processDynOperand i op s
  | KInst (IGEP _ _ _ _) => processGEPOperand i op s
  | KInst (ICall _ _) => processCallOperand i cop op ref s
  | _ => s
  end.

Definition propagateSizeMetadata (i : value) (ref : VarRef) (s : AnalysisState) : AnalysisState :=
  SetSizeForPointerVariable i (vsize (deref s ref)) s.

Definition processCastInst (i : value) (cop : castop) (src : value) (s : AnalysisState) : AnalysisState * bool :=
  let srcT := getType M src in
  let dstT := getType M i in
  let '(ref, s) :=
    match GetInfo src s with
    | Some ref => (Some ref, s)
    | None =>
      if isPointerTy srcT
      then (Some (EntryRef src), SetSizeForPointerVariable src (Some (getSizeForValue src)) s)
      else (None, s)
    end in
  match ref with
  | None => (s, false)
  | Some ref =>
    if isCastOfInterest srcT dstT then
      if negb (isPointerTy srcT) then
        match cop with
        | ZExt | SExt | Trunc => (classifyExtOrTruncInst i cop src s, true)
        | _ => (s, true)
        end
      else (propagateSizeMetadata i ref (processOperand i cop src ref s), true)
    else (s, true)
  end.

(** *** The walk over the module *)
Definition processInstruction (i : value) (s : AnalysisState) : AnalysisState * bool :=
  let s := processGlobalVariables i s in
  match kindOf M i with
  | KInst (IAlloca t n) => (processAllocaInst i t n s, true)
  | KInst (ICall _ _) => (processCallInst i s, true)
  | KInst (IStore v p) => (processStoreInst v p s, true)
  | KInst (ILoad p) => (processLoadInst i p s, true)
  | KInst (IGEP se re b idxs) => (processGetElementPtrInst i se re b idxs s, true)
  | KInst (ICast op src) => processCastInst i op src s
  | _ => (s, false)
  end.

Definition processAll (l : list value) (s : AnalysisState) : AnalysisState :=
  fold_left (fun s i => (processInstruction i s).1) l s.

Definition analyzeFunction (f : value) (s : AnalysisState) : AnalysisState :=
  processAll (instructions M f) (RegisterFunction s).

Definition registerGlobal (gv : value) (s : AnalysisState) : AnalysisState :=
  let s := upd gv set_global (RegisterVariable gv s) in
  if isPointerTy (getType M gv) then SetSizeForPointerVariable gv (Some (getSizeForValue gv)) s else s.

Definition registerGlobals (s : AnalysisState) : AnalysisState :=
  fold_left (fun s gv => registerGlobal gv s) (globals M) s.

Definition skippedNames : list string :=
  ["printCheck"; "printErrorLine"; "printFaultInjectionExecuted"; "setMetadataTableEntry";
   "lookupMetadataTableEntry"; "findMetadataTableEntry"]%string.

Definition collectFunctionsToAnalyze : list value :=
  filter (fun f => isDeclaration M f = false /\ getName M f ∉ skippedNames) (functions M).

Definition analyzeAllFunctions (fs : list value) (s : AnalysisState) : AnalysisState :=
  fold_left (fun s f => analyzeFunction f s) fs s.

(** *** [classificationPropagation] *)

(** Re-process the aliases of the instructions of [f] that use the global [gv], once per use. *)
Definition rescanFunction (gv f : value) (s : AnalysisState) : AnalysisState :=
  fold_left (fun s i =>
    fold_left (fun s u =>
      if bool_decide (u = gv) && isGlobalVariable M u then
        processAll (filter (fun a => isInstruction M a = true) (aliasInNeighbors L i)) s
      else s) (operands M i) s) (instructions M f) s.

Definition rescanGlobal (gv : value) (names : list string) (s : AnalysisState) : AnalysisState :=
  fold_left (fun s n => match getFunctionNamed M n with
                        | Some f => rescanFunction gv f s
                        | None => s end) names s.

Definition name_le (a b : string) : Prop := String.leb a b = true.
#[local] Instance name_le_dec a b : Decision (name_le a b).
Proof. unfold name_le. apply _. Defined.

(** The [std::set<StringRef>] of dependent functions, in order. *)
Definition sortedNames (ns : gset string) : list string :=
  merge_sort name_le (elements ns).

Definition visitVariable (k : value) (s : AnalysisState) : AnalysisState :=
  match Variables s !! k with
  | Some info =>
    if isGlobal info && didClassificationChange info then
      rescanGlobal k (sortedNames (dependentFunctions info)) (upd k (set_changed false) s)
    else s
  | None => s
  end.

(** The walk over the variable map, which sees entries inserted behind it or not as
    the iterator decides. *)
Fixpoint classificationPropagation (fuel : nat) (visited : gset value) (s : AnalysisState)
    : option AnalysisState :=
  match fuel with
  | O => None
  | S n =>
    match nextEntry L visited (dom (Variables s)) with
    | None => Some s
    | Some k => classificationPropagation n ({[k]} ∪ visited) (visitVariable k s)
    end
  end.

(** Steps 1 to 4 of [runOnModule], and the statistics. *)
Definition runClassification (fuel : nat) : option AnalysisState :=
  let s := SetSizeType 64 initState in
  let s := registerGlobals s in
  let s := analyzeAllFunctions collectFunctionsToAnalyze s in
  s ← classificationPropagation fuel ∅ s;
  Some (GetVariablesStateAsString s).

End Pass.

(** ** The handlers only take steps on values of the program *)
Section Steps.
Variable U : gset value.

(** One state change that registers no value outside [U]. *)
Definition step_in (s s' : AnalysisState) : Prop :=
  st_step s s' /\ dom (Variables s') ⊆ dom (Variables s) ∪ U.
Definition steps_in : AnalysisState -> AnalysisState -> Prop := rtc step_in.

Lemma steps_in_steps s s' : steps_in s s' -> st_steps s s'.
Proof. induction 1 as [|s s1 s2 [Hs _] _ IH]; [done|]. eapply st_steps_trans; [by apply st_steps_one|done]. Qed.

Lemma steps_in_dom s s' : steps_in s s' -> dom (Variables s') ⊆ dom (Variables s) ∪ U.
Proof. induction 1 as [|s s1 s2 [_ Hs] _ IH]; set_solver. Qed.

Lemma steps_in_refl s : steps_in s s.
Proof. apply rtc_refl. Qed.

Lemma steps_in_trans s1 s2 s3 : steps_in s1 s2 -> steps_in s2 s3 -> steps_in s1 s3.
Proof. unfold steps_in. intros. by etrans. Qed.

(** A known step after some steps. *)
Lemma steps_in_last s1 s2 s3 :
  steps_in s1 s2 -> st_step s2 s3 -> dom (Variables s3) ⊆ dom (Variables s2) ∪ U -> steps_in s1 s3.
Proof. intros H1 H2 H3. eapply steps_in_trans; [done|]. by apply rtc_once. Qed.

Lemma dom_upd k f s : dom (Variables (upd k f s)) = {[k]} ∪ dom (Variables s).
Proof. unfold upd. simpl. apply dom_insert_L. Qed.

Lemma dom_register k s : dom (Variables (RegisterVariable k s)) ⊆ {[k]} ∪ dom (Variables s).
Proof. unfold RegisterVariable. case_match; rewrite ?dom_upd; set_solver. Qed.

Lemma in_register k s s0 : k ∈ U -> steps_in s0 s -> steps_in s0 (RegisterVariable k s).
Proof.
  intros Hk H. apply (steps_in_last s0 s); [done|constructor|].
  pose proof (dom_register k s). set_solver.
Qed.

Lemma in_updreg k f s s0 :
  k ∈ U -> steps_in s0 s -> st_step s (upd k f (RegisterVariable k s)) ->
  steps_in s0 (upd k f (RegisterVariable k s)).
Proof.
  intros Hk H Hst. apply (steps_in_last s0 s); [done|done|].
  rewrite dom_upd. pose proof (dom_register k s). set_solver.
Qed.

Lemma in_classify k t s s0 : k ∈ U -> steps_in s0 s -> steps_in s0 (ClassifyPointerVariable k t s).
Proof. intros. apply in_updreg; [done..|]. apply step_classify. Qed.

Lemma in_size k v s s0 : k ∈ U -> steps_in s0 s -> steps_in s0 (SetSizeForPointerVariable k v s).
Proof. intros. apply in_updreg; [done..|]. apply step_size. Qed.

Lemma in_inst k b s s0 : k ∈ U -> steps_in s0 s -> steps_in s0 (SetInstantiatedExplicitSizeVariable k b s).
Proof. intros. apply in_updreg; [done..|]. apply step_instantiated. Qed.

Lemma in_dependent k f s s0 : k ∈ U -> steps_in s0 s -> steps_in s0 (upd k (add_dependent f) s).
Proof.
  intros Hk H. apply (steps_in_last s0 s); [done|constructor|]. rewrite dom_upd. set_solver.
Qed.

Lemma in_global k s s0 : k ∈ U -> steps_in s0 s -> steps_in s0 (upd k set_global s).
Proof.
  intros Hk H. apply (steps_in_last s0 s); [done|constructor|]. rewrite dom_upd. set_solver.
Qed.

Lemma in_reset k s s0 : is_Some (Variables s !! k) -> steps_in s0 s -> steps_in s0 (upd k (set_changed false) s).
Proof.
  intros Hk H. apply (steps_in_last s0 s); [done|by constructor|].
  rewrite dom_upd. apply elem_of_dom in Hk. set_solver.
Qed.

Lemma in_function s s0 : steps_in s0 s -> steps_in s0 (RegisterFunction s).
Proof. intros H. apply (steps_in_last s0 s); [done|constructor|simpl; set_solver]. Qed.

Lemma in_sizetype w s s0 : steps_in s0 s -> steps_in s0 (SetSizeType w s).
Proof. intros H. apply (steps_in_last s0 s); [done|constructor|simpl; set_solver]. Qed.

Lemma in_counts s s0 : steps_in s0 s -> steps_in s0 (GetVariablesStateAsString s).
Proof. intros H. apply (steps_in_last s0 s); [done|constructor|simpl; set_solver]. Qed.

Lemma in_fold {A} (f : A -> AnalysisState -> AnalysisState) l s s0 :
  (forall a s, a ∈ l -> steps_in s (f a s)) -> steps_in s0 s ->
  steps_in s0 (fold_left (fun s a => f a s) l s).
Proof.
  revert s. induction l as [|a l IH]; intros s Hf H; simpl; [done|].
  apply IH; [intros; apply Hf; by right|]. eapply steps_in_trans; [done|]. apply Hf. left.
Qed.

End Steps.

#[export] Hint Resolve steps_in_refl in_register in_classify in_size in_inst in_dependent in_global
  in_reset in_function in_sizetype in_counts : msv.

(** Close a goal [steps_in U s (op (op s))] whose keys are known to be in [U]. *)
Ltac steps := repeat case_match; simplify_eq; eauto 12 with msv.

Section HandlerSteps.
Variable M : IRModule.
Variable DL : DataLayout.
Variable P : SVF.
Variable L : LLVMServices.
Variable uninit : VariableInfo.
Variable DOM : dominated M.
Variable U : gset value.

(** [U] holds the instructions, globals and aliases of the module, with their operands. *)
Definition ir_closed : Prop :=
  (forall bb i, i ∈ insts M bb -> i ∈ U) /\
  (forall i u, i ∈ U -> u ∈ operands M i -> u ∈ U) /\
  (forall g, g ∈ globals M -> g ∈ U) /\
  (forall n nd v, heap (pdgraph L) !! n = Some nd -> _val nd = Some v -> v ∈ U) /\
  (forall u b idxs x, u ∈ U -> kindOf M u = KConstantExpr (Some (b, idxs)) -> x ∈ b :: idxs -> x ∈ U).

Hypothesis HU : ir_closed.

Lemma alias_in i a : a ∈ aliasInNeighbors L i -> a ∈ U.
Proof.
  unfold aliasInNeighbors. repeat case_match; try set_solver.
  intros (m & _ & Hm)%list_elem_of_omap. destruct (heap (pdgraph L) !! m) as [nd'|] eqn:Hh; [|done].
  destruct HU as (_ & _ & _ & Hg & _). by eapply Hg.
Qed.

Lemma operand_in i k u : i ∈ U -> kindOf M i = KInst k -> u ∈ operandsOf k -> u ∈ U.
Proof.
  intros Hi Hk Hu. destruct HU as (_ & Ho & _). apply (Ho i); [done|]. unfold operands. by rewrite Hk.
Qed.

Lemma callArg_in i a n : i ∈ U -> callArgs M i !! n = Some a -> a ∈ U.
Proof.
  intros Hi Ha. destruct HU as (_ & Ho & _). apply (Ho i); [done|].
  apply list_elem_of_lookup_2 in Ha. unfold callArgs, operands in *.
  destruct (kindOf M i) as [| | | | | | | | |[]|]; simpl; set_solver.
Qed.

Lemma instructions_in f i : i ∈ instructions M f -> i ∈ U.
Proof.
  unfold instructions. rewrite list_elem_of_join. intros (l & Hi & Hl).
  apply list_elem_of_fmap in Hl as (bb & -> & _). destruct HU as (Hi' & _). by eapply Hi'.
Qed.

Lemma addDependent_steps n u s s0 : u ∈ U -> steps_in U s0 s -> steps_in U s0 (addDependent M n u s).
Proof. intros. unfold addDependent. steps. Qed.

Lemma globalOperand_steps n u s : u ∈ U -> steps_in U s (globalOperand M n u s).
Proof.
  intros Hu. unfold globalOperand. destruct (isGlobalVariable M u);
    [apply addDependent_steps; auto with msv|].
  assert (forall base idxs, (forall x, x ∈ base :: idxs -> x ∈ U) -> steps_in U s
    (fold_left (fun s ix => addDependent M n ix s) idxs (addDependent M n base s))) as Hf.
  { intros base idxs Hin. apply (in_fold U (addDependent M n)).
    - intros a s1 Ha. apply addDependent_steps; [apply Hin; by right|apply steps_in_refl].
    - apply addDependent_steps; [apply Hin; left|apply steps_in_refl]. }
  destruct (kindOf M u) as [| | | |g| | | | |k|] eqn:Hk; try apply steps_in_refl.
  - destruct g as [[base idxs]|]; [|apply steps_in_refl]. apply Hf. intros x Hx.
    destruct HU as (_ & _ & _ & _ & Hc). by eapply Hc.
  - destruct k; try apply steps_in_refl. apply Hf. intros x Hx. by eapply operand_in.
Qed.

Lemma processGlobalVariables_steps i s : i ∈ U -> steps_in U s (processGlobalVariables M i s).
Proof.
  intros Hi. apply (in_fold U (globalOperand M (getName M (getFunction M i)))); [|apply steps_in_refl].
  intros u s1 Hu. apply globalOperand_steps. destruct HU as (_ & Ho & _). by eapply Ho.
Qed.

Lemma processAllocaInst_steps i t n s s0 :
  i ∈ U -> steps_in U s0 s -> steps_in U s0 (processAllocaInst M DL L i t n s).
Proof. intros. unfold processAllocaInst. steps. Qed.

Lemma freedChain_in v : v ∈ U -> forall x, x ∈ operandChain M DOM (freedFrom M) (freedFrom_operand M) v -> x ∈ U.
Proof.
  revert v. apply (chain_ind M DOM _ (freedFrom_operand M) (fun v l => v ∈ U -> forall x, x ∈ l -> x ∈ U)).
  - by intros v _ _ x ?%elem_of_nil.
  - intros v y Hy IH Hv x [->|Hx]%elem_of_cons; [|apply IH; [|done]];
      (destruct HU as (_ & Ho & _); apply (Ho v); [done|by apply freedFrom_operand]).
Qed.

Lemma propagateFreedSize_steps v s s0 :
  v ∈ U -> steps_in U s0 s -> steps_in U s0 (propagateFreedSize M DOM v s).
Proof.
  intros Hv Hs. apply (in_fold U (fun var s => SetSizeForPointerVariable var None s)); [|done].
  intros x s1 Hx. apply in_size; [by apply (freedChain_in v)|apply steps_in_refl].
Qed.

Lemma updateRewritten_steps i s s0 :
  i ∈ U -> steps_in U s0 s -> steps_in U s0 (updateRewrittenFunctionCall M uninit i s).
Proof.
  intros Hi Hs. unfold updateRewrittenFunctionCall. case_match; [|done]. case_match; [|done].
  apply (in_fold U (fun r s => match kindOf M r with
        | KInst (IRet (Some v)) =>
          match GetPointerVariableInfo M uninit v s with
          | Some ref => ClassifyPointerVariable i (classification (deref s ref)) s
          | None => s
          end
        | _ => s
        end)); [|done]. intros a s1 _. steps.
Qed.

Lemma processCallInst_steps i s s0 :
  i ∈ U -> steps_in U s0 s -> steps_in U s0 (processCallInst M DL P L uninit DOM i s).
Proof.
  intros Hi Hs. unfold processCallInst. case_match; [|done]. apply updateRewritten_steps; [done|].
  repeat case_match; eauto with msv. apply propagateFreedSize_steps; [|apply in_size; [|done]];
    by eapply callArg_in.
Qed.

Lemma processStoreInst_steps v p s s0 :
  v ∈ U -> p ∈ U -> steps_in U s0 s -> steps_in U s0 (processStoreInst M DL P L uninit v p s).
Proof. intros. unfold processStoreInst. steps. Qed.

Lemma processLoadInst_steps i p s s0 :
  i ∈ U -> p ∈ U -> steps_in U s0 s -> steps_in U s0 (processLoadInst M DL P L uninit i p s).
Proof. intros. unfold processLoadInst. steps. Qed.

Lemma replaceZeroSize_steps se p s sz o s' s0 :
  p ∈ U -> steps_in U s0 s -> replaceZeroSize M DL P L se p s sz = (o, s') -> steps_in U s0 s'.
Proof. intros ?? Hr. unfold replaceZeroSize in Hr. steps. Qed.

Lemma processGEP_steps i se re p idxs s s0 :
  i ∈ U -> p ∈ U -> steps_in U s0 s ->
  steps_in U s0 (processGetElementPtrInst M DL P L uninit DOM i se re p idxs s).
Proof.
  intros Hi Hp Hs. unfold processGetElementPtrInst.
  set (s1 := RegisterVariable i _).
  assert (steps_in U s0 s1) as H1 by (unfold s1; destruct (hasAllZeroIndices idxs); eauto with msv).
  case_match; [done|]. case_match; [|done].
  destruct (replaceZeroSize _ _ _ _ _ _ _ _) as [o s2] eqn:E.
  apply in_size; [done|]. by eapply replaceZeroSize_steps.
Qed.

Lemma processCastInst_steps i c src s s0 :
  i ∈ U -> src ∈ U -> steps_in U s0 s -> steps_in U s0 (processCastInst M DL P L uninit i c src s).1.
Proof.
  intros Hi Hp Hs. unfold processCastInst, propagateSizeMetadata, processOperand, processCallOperand,
    classifyExtOrTruncInst, processGEPOperand, processDynOperand.
  destruct (GetPointerVariableInfo M uninit src s) as [ref|]; [|destruct (isPointerTy (getType M src))];
    repeat case_match; simpl; eauto 10 with msv.
Qed.

Lemma processInstruction_steps i s : i ∈ U -> steps_in U s (processInstruction M DL P L uninit DOM i s).1.
Proof.
  intros Hi. unfold processInstruction.
  pose proof (processGlobalVariables_steps i s Hi) as Hg.
  destruct (kindOf M i) as [| | | | | | | | |k|] eqn:Hk; try done.
  assert (forall u, u ∈ operandsOf k -> u ∈ U) as Ho by (intros; by eapply operand_in).
  destruct k; simpl; try done.
  - by apply processAllocaInst_steps.
  - apply processLoadInst_steps; [done|apply Ho; left|done].
  - apply processStoreInst_steps; [apply Ho; left|apply Ho; right; left|done].
  - apply processGEP_steps; [done|apply Ho; left|done].
  - apply processCastInst_steps; [done|apply Ho; left|done].
  - by apply processCallInst_steps.
Qed.

Abbreviation procAll := (processAll M DL P L uninit DOM).

Lemma processAll_steps l s s0 :
  (forall i, i ∈ l -> i ∈ U) -> steps_in U s0 s -> steps_in U s0 (procAll l s).
Proof.
  intros Hl Hs. apply (in_fold U (fun i s => (processInstruction M DL P L uninit DOM i s).1)); [|done].
  intros i s1 Hi. by apply processInstruction_steps, Hl.
Qed.

Lemma analyzeFunction_steps f s s0 :
  steps_in U s0 s -> steps_in U s0 (analyzeFunction M DL P L uninit DOM f s).
Proof. intros. apply processAll_steps; [intros i Hi; by eapply instructions_in|by apply in_function]. Qed.

Lemma registerGlobals_steps s s0 : steps_in U s0 s -> steps_in U s0 (registerGlobals M DL P L s).
Proof.
  intros Hs. apply (in_fold U (registerGlobal M DL P L)); [|done]. intros g s1 Hg.
  destruct HU as (_ & _ & Hgl & _). specialize (Hgl g Hg). unfold registerGlobal.
  destruct (isPointerTy _); eauto 8 with msv.
Qed.

Lemma analyzeAllFunctions_steps fs s s0 :
  steps_in U s0 s -> steps_in U s0 (analyzeAllFunctions M DL P L uninit DOM fs s).
Proof.
  intros Hs. apply (in_fold U (analyzeFunction M DL P L uninit DOM)); [|done].
  intros f s1 _. apply analyzeFunction_steps, steps_in_refl.
Qed.

Lemma visitVariable_steps k s : steps_in U s (visitVariable M DL P L uninit DOM k s).
Proof.
  unfold visitVariable. destruct (Variables s !! k) as [info|] eqn:Hk; [|apply steps_in_refl].
  case_match; [|apply steps_in_refl]. unfold rescanGlobal.
  apply (in_fold U (fun n s => match getFunctionNamed M n with
    | Some f => rescanFunction M DL P L uninit DOM k f s | None => s end));
    [|apply in_reset; [by eexists|apply steps_in_refl]].
  intros n s1 _. case_match; [|apply steps_in_refl]. unfold rescanFunction.
  apply (in_fold U (fun i s => fold_left (fun s u =>
    if bool_decide (u = k) && isGlobalVariable M u
    then procAll (filter (fun a => isInstruction M a = true) (aliasInNeighbors L i)) s else s)
    (operands M i) s)); [|apply steps_in_refl].
  intros i s2 _. apply (in_fold U (fun u s => if bool_decide (u = k) && isGlobalVariable M u
    then procAll (filter (fun a => isInstruction M a = true) (aliasInNeighbors L i)) s else s));
    [|apply steps_in_refl].
  intros u s3 _. case_match; [|apply steps_in_refl].
  apply processAll_steps; [|apply steps_in_refl]. intros a [_ Ha]%list_elem_of_filter.
  by eapply alias_in.
Qed.

End HandlerSteps.

(** ** The walk over the variable map ends *)
Section Propagation.
Variable M : IRModule.
Variable DL : DataLayout.
Variable P : SVF.
Variable L : LLVMServices.
Variable uninit : VariableInfo.
Variable DOM : dominated M.

(** An iterator yields entries of the map it has not yielded before. *)
Definition iterator_ok : Prop :=
  forall visited ks k, nextEntry L visited ks = Some k -> k ∈ ks /\ k ∉ visited.

Context (U : gset value).
Hypothesis HU : ir_closed M L U.
Hypothesis HI : iterator_ok.

Lemma classificationPropagation_ok fuel visited s :
  dom (Variables s) ⊆ U -> size (U ∖ visited) < fuel ->
  exists s', classificationPropagation M DL P L uninit DOM fuel visited s = Some s' /\ steps_in U s s'.
Proof.
  revert visited s. induction fuel as [|n IH]; intros visited s Hd Hf; [lia|]. simpl.
  destruct (nextEntry L visited (dom (Variables s))) as [k|] eqn:Hk;
    [|exists s; split; [done|apply steps_in_refl]].
  destruct (HI _ _ _ Hk) as [Hin Hnv].
  pose proof (visitVariable_steps M DL P L uninit DOM U HU k s) as Hv.
  pose proof (size_difference_insert U visited k (Hd k Hin) Hnv) as Hlt.
  pose proof (steps_in_dom U _ _ Hv) as Hd'.
  destruct (IH ({[k]} ∪ visited) (visitVariable M DL P L uninit DOM k s)) as (s' & He & Hs).
  - set_solver.
  - lia.
  - exists s'. split; [done|]. by eapply steps_in_trans.
Qed.

(** The state after the functions were analysed, and the rest of the run. *)
Definition analyzed : AnalysisState :=
  analyzeAllFunctions M DL P L uninit DOM (collectFunctionsToAnalyze M)
    (registerGlobals M DL P L (SetSizeType 64 initState)).

Lemma analyzed_steps : steps_in U initState analyzed.
Proof.
  apply analyzeAllFunctions_steps; [done|]. apply registerGlobals_steps; [done|].
  apply in_sizetype, steps_in_refl.
Qed.

Lemma runClassification_ok :
  exists s, runClassification M DL P L uninit DOM (S (size U)) = Some s /\
    steps_in U analyzed s /\ dom (Variables s) ⊆ U /\ st_steps initState s.
Proof.
  unfold runClassification. fold analyzed. pose proof analyzed_steps as Ha.
  pose proof (steps_in_dom U _ _ Ha) as Hd. simpl in Hd.
  destruct (classificationPropagation_ok (S (size U)) ∅ analyzed) as (s & -> & Hs); [set_solver|..].
  { rewrite difference_empty_L. lia. }
  simpl. eexists. split; [reflexivity|].
  assert (steps_in U analyzed (GetVariablesStateAsString s)) as Hc by (by apply in_counts).
  pose proof (steps_in_dom U _ _ Hc). split_and!; [done|set_solver|].
  apply (steps_in_steps U). by eapply steps_in_trans.
Qed.

(** Every instruction of an analysed function was processed at some point of the run. *)
Lemma fold_reaches {A} (f : A -> AnalysisState -> AnalysisState) l a s :
  (forall a s, a ∈ l -> steps_in U s (f a s)) -> a ∈ l ->
  exists s1, steps_in U (f a s1) (fold_left (fun s a => f a s) l s).
Proof using Type.
  intros Hf Ha. revert s. induction l as [|b l IH]; intros s; [by apply not_elem_of_nil in Ha|]. simpl.
  apply elem_of_cons in Ha as [->|Ha]; [|by apply IH; [intros; apply Hf; by right|]].
  exists s. apply in_fold; [intros; apply Hf; by right|apply steps_in_refl].
Qed.

Lemma processed_reaches f i :
  f ∈ collectFunctionsToAnalyze M -> i ∈ instructions M f ->
  exists s1, steps_in U (processInstruction M DL P L uninit DOM i s1).1 analyzed.
Proof using HU.
  intros Hf Hi. unfold analyzed, analyzeAllFunctions.
  destruct (fold_reaches (analyzeFunction M DL P L uninit DOM) _ f
    (registerGlobals M DL P L (SetSizeType 64 initState))
    ltac:(intros; by apply analyzeFunction_steps, steps_in_refl) Hf) as [s1 H1].
  unfold analyzeFunction, processAll in H1.
  destruct (fold_reaches (fun i s => (processInstruction M DL P L uninit DOM i s).1)
    (instructions M f) i (RegisterFunction s1)) as [s2 H2].
  - intros a s3 Ha. apply processInstruction_steps; [done|]. by eapply instructions_in.
  - done.
  - exists s2. by eapply steps_in_trans.
Qed.

(** *** Classes the handlers establish *)
Lemma class_set_size_unsafe d sz s k c :
  class_of s k = Some c -> class_of (SetSizeForPointerVariable d sz s) k = Some c.
Proof. intros Hc. rewrite class_of_set_size, Hc. by case_decide. Qed.

Lemma reclass_seq c : reclass Seq c = Seq.
Proof. by destruct c. Qed.

Lemma reclass_dyn c : reclass Dyn c = Dyn.
Proof. by destruct c. Qed.

(** Asking for an unsafe class makes the variable unsafe. *)
Lemma reclass_unsafe_request t c : unsafe_class t -> unsafe_class (reclass t c).
Proof. intros [-> | ->]; [rewrite reclass_seq; by left|rewrite reclass_dyn; by right]. Qed.

Lemma processGEP_seq i se re p idxs s :
  hasAllZeroIndices idxs = false ->
  class_of (processGetElementPtrInst M DL P L uninit DOM i se re p idxs s) i = Some Seq /\
  class_of (processGetElementPtrInst M DL P L uninit DOM i se re p idxs s) p = Some Seq.
Proof.
  intros Hz. unfold processGetElementPtrInst. rewrite Hz.
  set (s1 := RegisterVariable i _).
  assert (class_of s1 i = Some Seq /\ class_of s1 p = Some Seq) as [H1 H2].
  { unfold s1. rewrite !class_of_register, !class_of_classify.
    split; repeat case_decide; subst; simpl; rewrite ?reclass_seq; done. }
  case_match; [done|]. case_match; [|done].
  destruct (replaceZeroSize _ _ _ _ _ _ _ _) as [o s2] eqn:E.
  assert (class_of s2 i = Some Seq /\ class_of s2 p = Some Seq) as [H3 H4].
  { unfold replaceZeroSize in E. repeat case_match; simplify_eq; try done.
    all: split; by apply class_set_size_unsafe. }
  split; by apply class_set_size_unsafe.
Qed.

Lemma processInstruction_gep i se re p idxs s :
  kindOf M i = KInst (IGEP se re p idxs) -> hasAllZeroIndices idxs = false ->
  class_of (processInstruction M DL P L uninit DOM i s).1 i = Some Seq /\
  class_of (processInstruction M DL P L uninit DOM i s).1 p = Some Seq.
Proof. intros Hk Hz. unfold processInstruction. rewrite Hk. by apply processGEP_seq. Qed.

(** Operand classes whose casts are handled. *)
Definition handledOperand (v : value) : bool :=
  match kindOf M v with
  | KInst (ILoad _) | KInst (ICast _ _) | KInst (IGEP _ _ _ _) | KInst (ICall _ _) => true
  | _ => false
  end.

Lemma processOperand_dyn i c src ref s :
  handledOperand src = true -> class_of (processOperand M DL P L i c src ref s) i = Some Dyn.
Proof.
  unfold handledOperand, processOperand, processCallOperand, processGEPOperand, processDynOperand.
  intros Hh. destruct (kindOf M src) as [| | | | | | | | |[]|]; try done;
    rewrite class_of_classify, decide_True by done; by rewrite reclass_dyn.
Qed.

Lemma processCast_dyn i c src s :
  isPointerTy (getType M src) = true -> isCastOfInterest (getType M src) (getType M i) = true ->
  handledOperand src = true ->
  class_of (processCastInst M DL P L uninit i c src s).1 i = Some Dyn.
Proof.
  intros Hp Hc Hh. unfold processCastInst. rewrite Hp, Hc.
  destruct (GetPointerVariableInfo M uninit src s) as [ref|]; simpl;
    apply class_set_size_unsafe; by apply processOperand_dyn.
Qed.

(** Storing an unsafe pointer makes the location unsafe; loading through an unsafe
    location makes the loaded pointer unsafe. *)
Lemma processStore_unsafe v p s c :
  isPointerTy (getType M v) = true -> kindOf M v <> KConstantPointerNull ->
  class_of s v = Some c -> unsafe_class c ->
  exists c', class_of (processStoreInst M DL P L uninit v p s) p = Some c' /\ unsafe_class c'.
Proof.
  intros Hp Hn Hc Hu. unfold processStoreInst, GetPointerVariableInfo. rewrite Hp.
  unfold class_of in Hc. destruct (Variables s !! v) as [info|] eqn:Hv; [|done]. simpl in Hc. simplify_eq.
  assert (match kindOf M v with
    | KConstantPointerNull => Some (TempInfo (nullInfo uninit s))
    | _ => Some (EntryRef v) end = Some (EntryRef v)) as -> by (by destruct (kindOf M v)).
  simpl. rewrite Hv. simpl. eexists. split; [|by apply reclass_unsafe_request].
  apply class_set_size_unsafe. rewrite class_of_classify, decide_True by done. reflexivity.
Qed.
End Propagation.

(** ** Properties *)

(** [p = *q; r = &p[1]; c = (S* )p; *q = r;] in one function; for examples. *)
Definition msInsts : list value := [VRef 2; VRef 3; VRef 4; VRef 5; VRef 6].
Definition msModule : IRModule := {|
  m_kind := fun p => match p with
    | 1%positive => KArgument
    | 2%positive => KInst (ILoad (VRef 1))
    | 3%positive => KInst (IGEP (TInt 8) (TInt 8) (VRef 2) [VConstInt (mk 64 1)])
    | 4%positive => KInst (ICast BitCast (VRef 2))
    | 5%positive => KInst (IStore (VRef 3) (VRef 1))
    | 6%positive => KInst (IRet None)
    | _ => KOther end;
  m_type := fun p => match p with
    | 1%positive => TPtr (TPtr (TInt 8))
    | 2%positive | 3%positive => TPtr (TInt 8)
    | 4%positive => TPtr (TStruct 1)
    | _ => TVoid end;
  getName := fun _ => "f"%string; users := fun _ => []; functions := [VRef 8]; globals := [];
  blocks := fun f => if decide (f = VRef 8) then [VRef 9] else [];
  insts := fun b => if decide (b = VRef 9) then msInsts else [];
  fargs := fun _ => []; getParent := fun _ => VRef 9; getBBParent := fun _ => VRef 8;
  isDeclaration := fun _ => false; getCalledFunction := fun _ => None;
  predecessors := fun _ => []; stripPointerCasts := fun v => v; getFunctionNamed := fun _ => None |}.
Lemma msModule_dominated : dominated msModule.
Proof. dominated_refs. Qed.
Definition msDL : DataLayout := Build_DataLayout (fun _ => 8%Z) (fun _ => 8%Z) (fun _ _ => 0%Z) (fun _ => 1%Z).
Definition msGraph : GenericGraph :=
  DataDep.runOnModule (orderSets := elementsOrder _) (orderInsts := elementsOrder _) (orderObjs := elementsOrder _)
    msModule idSVF (fun _ => None) (graph (buildInsts msModule msInsts (MkProgramGraph emptyGraph ∅ ∅))).
Definition msServices : LLVMServices := {|
  knownSize := fun _ => None; knownOffset := fun _ => None; accumulateConstantOffset := fun _ => None;
  isSized := fun _ => true; foldMul := fun a _ => a; foldSub := fun a _ => a; foldZExt64 := fun a => a;
  pdgraph := msGraph; nodeOrder := elementsOrder positive;
  nextEntry := fun visited ks => head (elements (ks ∖ visited)) |}.
Definition msU : gset value := list_to_set (VConstInt (mk 64 1) :: VRef 1 :: msInsts).

Lemma msGraph_values n nd v : heap msGraph !! n = Some nd -> _val nd = Some v -> v ∈ msU.
Proof.
  intros Hn Hv.
  assert (forallb (fun x => match _val x.2 with Some v => bool_decide (v ∈ msU) | None => true end)
            (map_to_list (heap msGraph)) = true) as H by (vm_compute; reflexivity).
  rewrite forallb_forall in H. specialize (H (n, nd)). simpl in H. rewrite Hv in H.
  apply bool_decide_eq_true in H; [done|]. by apply list_elem_of_In, elem_of_map_to_list.
Qed.

Lemma msU_closed : ir_closed msModule msServices msU.
Proof.
  split_and!.
  - intros bb i. simpl. case_decide; [|set_solver]. unfold msU. set_solver.
  - intros [c|p] u Hp; [set_solver|]. unfold operands. simpl.
    repeat case_match; simplify_eq; unfold msU; simpl; set_solver.
  - intros g. simpl. set_solver.
  - exact msGraph_values.
  - intros [c|p] b idxs x _; simpl; repeat case_match; discriminate.
Qed.

Lemma msServices_iterator : iterator_ok msServices.
Proof. intros visited ks k Hk. apply head_Some_elem_of, elem_of_elements in Hk. set_solver. Qed.

(** C12: the classification runs to its end on a module whose chains of operands end
    ([dominated], the argument [DOM]): the loops along operands, which the code does not
    bound, are followed to the end of the chain, and the walk over the map, which may or may
    not see the entries inserted during it, takes at most one step per value of the program.
    The run registers only values of the program, gives each of them one of the three
    classes, and is a sequence of the operations of the analysis state. *)
Theorem classification_completes M DL P L uninit DOM U :
  ir_closed M L U -> iterator_ok L ->
  exists s, runClassification M DL P L uninit DOM (S (size U)) = Some s /\
    dom (Variables s) ⊆ U /\
    (forall d i, Variables s !! d = Some i -> classification i <> Unknown) /\
    st_steps initState s.
Proof.
  intros HU HI. destruct (runClassification_ok M DL P L uninit DOM U HU HI) as (s & Hr & _ & Hd & Hs).
  exists s. split_and!; [done|done| |done].
  change (classes_known s). by eapply classes_known_steps; [exact Hs|].
Qed.

Lemma classification_completes_witness :
  exists s, runClassification msModule msDL idSVF msServices zeroInfo msModule_dominated (S (size msU)) = Some s /\
    dom (Variables s) ⊆ msU /\
    (forall d i, Variables s !! d = Some i -> classification i <> Unknown) /\
    st_steps initState s.
Proof. exact (classification_completes msModule msDL idSVF msServices zeroInfo msModule_dominated msU msU_closed msServices_iterator). Defined.

(** C2: no indexed pointer is called safe.  At the end of the run, for every GEP with
    a non-zero index in an analysed function, both the GEP and the pointer it indexes
    are classified Seq or Dyn. *)
Theorem indexed_pointers_unsafe M DL P L uninit DOM U f i se re p idxs :
  ir_closed M L U -> iterator_ok L -> f ∈ collectFunctionsToAnalyze M -> i ∈ instructions M f ->
  kindOf M i = KInst (IGEP se re p idxs) -> hasAllZeroIndices idxs = false ->
  exists s ci cp, runClassification M DL P L uninit DOM (S (size U)) = Some s /\
    class_of s i = Some ci /\ unsafe_class ci /\ class_of s p = Some cp /\ unsafe_class cp.
Proof.
  intros HU HI Hf Hi Hk Hz.
  destruct (runClassification_ok M DL P L uninit DOM U HU HI) as (s & Hr & Hs & _).
  destruct (processed_reaches M DL P L uninit DOM U HU f i Hf Hi) as [s1 H1].
  assert (st_steps (processInstruction M DL P L uninit DOM i s1).1 s) as Hst
    by (apply (steps_in_steps U); by eapply steps_in_trans).
  destruct (processInstruction_gep M DL P L uninit DOM i se re p idxs s1 Hk Hz) as [Hci Hcp].
  destruct (unsafe_steps _ _ _ _ Hst Hci) as (ci & ? & ?); [by left|].
  destruct (unsafe_steps _ _ _ _ Hst Hcp) as (cp & ? & ?); [by left|].
  by exists s, ci, cp.
Qed.

Lemma indexed_pointers_unsafe_witness :
  exists s ci cp, runClassification msModule msDL idSVF msServices zeroInfo msModule_dominated (S (size msU)) = Some s /\
    class_of s (VRef 3) = Some ci /\ unsafe_class ci /\ class_of s (VRef 2) = Some cp /\ unsafe_class cp.
Proof.
  apply (indexed_pointers_unsafe msModule msDL idSVF msServices zeroInfo msModule_dominated msU (VRef 8) (VRef 3)
    (TInt 8) (TInt 8) (VRef 2) [VConstInt (mk 64 1)]);
    [exact msU_closed | exact msServices_iterator | left | apply list_elem_of_In; vm_compute; tauto | reflexivity | reflexivity].
Defined.

(** C33: no reinterpreting cast is called safe.  At the end of the run, the result of
    every pointer cast of interest whose operand is a load, a GEP, a cast or a call, in
    an analysed function, is classified Seq or Dyn. *)
Theorem reinterpreted_pointers_unsafe M DL P L uninit DOM U f i op src :
  ir_closed M L U -> iterator_ok L -> f ∈ collectFunctionsToAnalyze M -> i ∈ instructions M f ->
  kindOf M i = KInst (ICast op src) -> isPointerTy (getType M src) = true ->
  isCastOfInterest (getType M src) (getType M i) = true -> handledOperand M src = true ->
  exists s ci, runClassification M DL P L uninit DOM (S (size U)) = Some s /\
    class_of s i = Some ci /\ unsafe_class ci.
Proof.
  intros HU HI Hf Hi Hk Hp Hc Hh.
  destruct (runClassification_ok M DL P L uninit DOM U HU HI) as (s & Hr & Hs & _).
  destruct (processed_reaches M DL P L uninit DOM U HU f i Hf Hi) as [s1 H1].
  assert (st_steps (processInstruction M DL P L uninit DOM i s1).1 s) as Hst
    by (apply (steps_in_steps U); by eapply steps_in_trans).
  assert (class_of (processInstruction M DL P L uninit DOM i s1).1 i = Some Dyn) as Hci
    by (unfold processInstruction; rewrite Hk; by apply processCast_dyn).
  destruct (unsafe_steps _ _ _ _ Hst Hci) as (ci & ? & ?); [by right|]. by exists s, ci.
Qed.

Lemma reinterpreted_pointers_unsafe_witness :
  exists s ci, runClassification msModule msDL idSVF msServices zeroInfo msModule_dominated (S (size msU)) = Some s /\
    class_of s (VRef 4) = Some ci /\ unsafe_class ci.
Proof.
  apply (reinterpreted_pointers_unsafe msModule msDL idSVF msServices zeroInfo msModule_dominated msU (VRef 8) (VRef 4)
    BitCast (VRef 2));
    [exact msU_closed | exact msServices_iterator | left | apply list_elem_of_In; vm_compute; tauto | reflexivity..].
Defined.

(** Classes follow pointers through memory.  Storing an unsafe pointer makes the
    stored-to location unsafe, and its recorded size becomes the stored pointer's size
    (zero when that one is missing). *)
Theorem store_propagates_unsafe M DL P L uninit v p s c :
  isPointerTy (getType M v) = true -> kindOf M v <> KConstantPointerNull -> v <> p ->
  class_of s v = Some c -> unsafe_class c ->
  (exists c', class_of (processStoreInst M DL P L uninit v p s) p = Some c' /\ unsafe_class c') /\
  vsize <$> Variables (processStoreInst M DL P L uninit v p s) !! p =
    Some (match mbind vsize (Variables s !! v) with Some z => Some z | None => Some (sizeConst s 0) end).
Proof.
  intros Hp Hn Hvp Hc Hu. split; [by eapply processStore_unsafe|].
  unfold processStoreInst, GetPointerVariableInfo. rewrite Hp.
  unfold class_of in Hc. destruct (Variables s !! v) as [info|] eqn:Hv; [|done]. simpl in Hc. simplify_eq.
  assert (match kindOf M v with
    | KConstantPointerNull => Some (TempInfo (nullInfo uninit s))
    | _ => Some (EntryRef v) end = Some (EntryRef v)) as -> by (by destruct (kindOf M v)).
  cbv beta iota zeta. set (s1 := ClassifyPointerVariable p _ s).
  assert (Variables s1 !! v = Some info /\ sizetype s1 = sizetype s) as [H1 H2].
  { unfold s1, ClassifyPointerVariable, RegisterVariable.
    split; [|by destruct (Variables s !! p)]. rewrite lookup_upd_ne by done.
    case_match; [done|]. by rewrite lookup_upd_ne. }
  assert (deref s1 (EntryRef v) = info) as -> by (unfold deref; by rewrite H1). clearbody s1.
  unfold SetSizeForPointerVariable. rewrite lookup_upd. simpl.
  destruct (vsize info); [done|]. unfold sizeConst, RegisterVariable. rewrite <- H2. by case_match.
Qed.

Lemma store_propagates_unsafe_witness :
  let s := ClassifyPointerVariable (VRef 3) Seq (SetSizeType 64 initState) in
  exists c', class_of (processStoreInst msModule msDL idSVF msServices zeroInfo (VRef 3) (VRef 1) s) (VRef 1) = Some c' /\
    unsafe_class c'.
Proof.
  intros s. apply (store_propagates_unsafe msModule msDL idSVF msServices zeroInfo (VRef 3) (VRef 1) s Seq);
    [reflexivity | discriminate | discriminate | reflexivity | by left].
Defined.
