(* ===== verification/CompatType.v ===== *)
(** * Compatible-type cast analysis ([CompatibleType.cpp])

    Filters the dynamic pointers: an entry whose cast is judged compatible is
    erased from the map, together with the cast's operand.  The walk is over the
    map's keys, in the order of their addresses, which is any; an entry erased before it
    is reached is skipped.  When the erased operand is the very next key, the source goes
    on with an iterator that the second erase has invalidated: the walk answers [None]. *)
From stdpp Require Import base gmap sets list option strings.
From Stdlib Require Import ZArith Lia.
From S2P Require Import Prelude APInt LLVM AnalysisState RangeTransfer MemSafe.

Section Compat.
Variable M : IRModule.
Variable DL : DataLayout.
(** [(llvm::Type* )STI == t] for some subtype iterator of [t0]: the code compares the
    address of the slot, not the type in it. *)
Variable slotIsType : ty -> ty -> bool.

(** [CountIndirections] and [UnwrapPointer] *)
Fixpoint CountIndirections (t : ty) : Z :=
  match t with TPtr e => (CountIndirections e + 1)%Z | _ => 0%Z end.
Fixpoint UnwrapPointer (t : ty) : ty :=
  match t with TPtr e => UnwrapPointer e | _ => t end.

Definition isPotentiallyUnsafeCast (innerSrcT realSrcType realDstType innerDstT : ty) : bool :=
  slotIsType realSrcType realDstType ||
  (isIntegerTy innerSrcT && isIntegerTy realSrcType &&
   (negb (isIntegerTy realDstType) || negb (isIntegerTy innerDstT))) ||
  (negb (isIntegerTy realSrcType) && negb (isIntegerTy realDstType) &&
   negb (bool_decide (realSrcType = realDstType))).

(** The destination type a user of the cast reveals: the first store, load or cast. *)
Fixpoint dstTypeFromUses (us : list value) : option ty :=
  match us with
  | [] => None
  | u :: us =>
    match kindOf M u with
    | KInst (IStore _ ptr) => Some (UnwrapPointer (getType M ptr))
    | KInst (ILoad _) =>
      match find (fun c => isCastInst M c) (users M u) with
      | Some c => Some (UnwrapPointer (getType M c))
      | None => Some (UnwrapPointer (getType M u))
      end
    | KInst (ICast _ _) => Some (UnwrapPointer (getType M u))
    | _ => dstTypeFromUses us
    end
  end.

(** The handlers of a load, GEP or cast operand differ in the source type only. *)
Definition unsafeOperandCast (cast : value) (realSrcType innerSrcT innerDstT : ty) : bool :=
  isPotentiallyUnsafeCast innerSrcT realSrcType (default innerDstT (dstTypeFromUses (users M cast))) innerDstT.

Definition handleLoadCast (cast op : value) (innerSrcT innerDstT : ty) : bool :=
  unsafeOperandCast cast (UnwrapPointer (getType M op)) innerSrcT innerDstT.
Definition handleGetElementPtrCast (cast : value) (resElt : ty) (innerSrcT innerDstT : ty) : bool :=
  unsafeOperandCast cast (UnwrapPointer resElt) innerSrcT innerDstT.
Definition handleCastInstCast (cast nestedSrc : value) (innerSrcT innerDstT : ty) : bool :=
  unsafeOperandCast cast (UnwrapPointer (getType M nestedSrc)) innerSrcT innerDstT.

(** The constant number of bytes a malloc or calloc call allocates, 0 if unknown. *)
Definition allocatedBytes (call : value) : Z :=
  match getCalledFunction M call with
  | Some callee =>
    if String.eqb (getName M callee) "malloc" then
      match callArgs M call with VConstInt sz :: _ => getZExtValue sz | _ => 0%Z end
    else if String.eqb (getName M callee) "calloc" then
      match callArgs M call with
      | VConstInt cnt :: VConstInt sz :: _ => u64 (getZExtValue cnt * getZExtValue sz)
      | _ => 0%Z
      end
    else 0%Z
  | None => 0%Z
  end.

Definition handleCallInstCast (cast call : value) : bool :=
  let allocSize := allocatedBytes call in
  (0 <? allocSize)%Z && isPointerTy (getType M cast) &&
  (allocSize <? getTypeAllocSize DL (UnwrapPointer (getType M cast)))%Z.

(** [true]: the entry is kept. *)
Definition handleCastOperation (cast op : value) (innerSrcT innerDstT : ty) : bool :=
  match kindOf M op with
  | KInst (ILoad _) => handleLoadCast cast op innerSrcT innerDstT
  | KInst (IGEP _ resElt _ _) => handleGetElementPtrCast cast resElt innerSrcT innerDstT
  | KInst (ICast _ src) => handleCastInstCast cast src innerSrcT innerDstT
  | KInst (ICall _ _) => handleCallInstCast cast op
  | _ => true
  end.

(** The body of the loop: [Some op] when the cast is judged compatible. *)
Definition compatibleCast (k : value) : option value :=
  match kindOf M k with
  | KInst (ICast cop src) =>
    let srcT := getType M src in
    let dstT := getType M k in
    let innerSrcT := UnwrapPointer srcT in
    let innerDstT := UnwrapPointer dstT in
    let extOrTrunc := bool_decide (cop = SExt) || bool_decide (cop = Trunc) in
    let checked :=
      if isPointerTy srcT then
        negb (CountIndirections srcT =? CountIndirections dstT)%Z ||
        negb (isIntegerTy innerSrcT) || negb (isIntegerTy innerDstT) || negb extOrTrunc
      else negb extOrTrunc in
    if checked && negb (handleCastOperation k src innerSrcT innerDstT) then Some src else None
  | _ => None
  end.

(** One entry of the walk, with the keys behind it.  A compatible entry is erased, which
    moves the iterator to the next entry still in the map, and then its operand is; [None]:
    the operand is that next entry, and the iterator is left pointing at an erased one. *)
Definition visitEntry (k : value) (rest : list value) (m : gmap value VariableInfo) : option (gmap value VariableInfo) :=
  match m !! k, compatibleCast k with
  | Some _, Some op =>
    let m := delete k m in
    let it := head (filter (fun y => is_Some (m !! y)) rest) in
    if decide (it = Some op) then None else Some (delete op m)
  | _, _ => Some m
  end.

Fixpoint castWalk (keys : list value) (m : gmap value VariableInfo) : option (gmap value VariableInfo) :=
  match keys with
  | [] => Some m
  | k :: keys => m ← visitEntry k keys m; castWalk keys m
  end.

Context {orderValues : SetOrder value}.

Definition safeTypeCastAnalysis (m : gmap value VariableInfo) : option (gmap value VariableInfo) :=
  castWalk (order (dom m)) m.

(** ** Lemmas *)

Lemma CountIndirections_same t : CountIndirections t = countIndirections t.
Proof. induction t; simpl; congruence. Qed.

Lemma UnwrapPointer_same t : UnwrapPointer t = unwrapPointer t.
Proof. induction t; simpl; congruence. Qed.

Lemma visitEntry_lookup k rest m m' x info :
  visitEntry k rest m = Some m' -> m' !! x = Some info -> m !! x = Some info.
Proof using Type.
  clear. unfold visitEntry. repeat case_match; intros [= <-]; try done.
  intros Hx. rewrite !lookup_delete_Some in Hx. naive_solver.
Qed.

Lemma visitEntry_kept k rest m m' x :
  (forall op, compatibleCast k = Some op -> x <> k /\ x <> op) -> visitEntry k rest m = Some m' -> m' !! x = m !! x.
Proof using Type.
  clear. intros Hx. unfold visitEntry. repeat case_match; intros [= <-]; try done.
  destruct (Hx _ eq_refl). by rewrite !lookup_delete_ne.
Qed.

Lemma walk_kept keys m m' x :
  (forall k op, k ∈ keys -> compatibleCast k = Some op -> x <> k /\ x <> op) -> castWalk keys m = Some m' -> m' !! x = m !! x.
Proof using Type.
  clear. revert m. induction keys as [|k keys IH]; intros m Hx; cbn [castWalk]; [by intros [= <-]|].
  intros (m1 & H1 & H2)%bind_Some. rewrite (IH m1); [|intros; eapply Hx; [by right|done]|done].
  eapply visitEntry_kept; [|done]. intros op. apply Hx. by left.
Qed.

Lemma walk_lookup keys m m' x info : castWalk keys m = Some m' -> m' !! x = Some info -> m !! x = Some info.
Proof using Type.
  clear. revert m. induction keys as [|k keys IH]; intros m; cbn [castWalk]; [by intros [= <-]|].
  intros (m1 & H1 & H2)%bind_Some Hx. eapply visitEntry_lookup; [done|by eapply IH].
Qed.

Lemma walk_removes keys m m' x op :
  x ∈ keys -> compatibleCast x = Some op -> castWalk keys m = Some m' -> m' !! x = None.
Proof using Type.
  clear. intros Hx Hc. revert m. induction keys as [|k keys IH]; intros m; [set_solver|]. cbn [castWalk].
  intros (m1 & H1 & H2)%bind_Some. apply elem_of_cons in Hx as [->|Hx]; [|by eapply IH].
  destruct (m' !! k) as [info|] eqn:E; [|done]. eapply walk_lookup in E; [|done]. exfalso. revert H1 E. unfold visitEntry.
  rewrite Hc. destruct (m !! k) eqn:Hm; [|intros [= ->]; congruence]. case_decide; [done|]. intros [= <-].
  rewrite !lookup_delete_Some. naive_solver.
Qed.

Lemma analysis_lookup m m' x info : safeTypeCastAnalysis m = Some m' -> m' !! x = Some info -> m !! x = Some info.
Proof. apply walk_lookup. Qed.

(** A call to [malloc] with a constant size, or to [calloc] with constant count and size,
    allocates that many bytes; the product is taken modulo [2 ^ 64]. *)
Inductive allocates (call : value) : Z -> Prop :=
| allocates_malloc callee sz args :
    getCalledFunction M call = Some callee -> getName M callee = "malloc"%string ->
    callArgs M call = VConstInt sz :: args -> allocates call (getZExtValue sz)
| allocates_calloc callee cnt sz args :
    getCalledFunction M call = Some callee -> getName M callee = "calloc"%string ->
    callArgs M call = VConstInt cnt :: VConstInt sz :: args -> allocates call (u64 (getZExtValue cnt * getZExtValue sz)).

Lemma allocatedBytes_allocates call n : (0 < n)%Z -> allocatedBytes call = n <-> allocates call n.
Proof using Type.
  clear. intros Hn. unfold allocatedBytes. split.
  - destruct (getCalledFunction M call) as [callee|] eqn:Hc; [|lia].
    destruct (String.eqb_spec (getName M callee) "malloc") as [Hm|_].
    { destruct (callArgs M call) as [|[] ] eqn:Ha; try lia. intros <-. by eapply allocates_malloc. }
    destruct (String.eqb_spec (getName M callee) "calloc") as [Hm|_]; [|lia].
    destruct (callArgs M call) as [|[] [|[] ] ] eqn:Ha; try lia. intros <-. by eapply allocates_calloc.
  - intros [callee sz args -> Hname ->|callee cnt sz args -> Hname ->]; by rewrite Hname.
Qed.
End Compat.

(** ** Properties *)

(** C40: what becomes of a cast of an allocation.  Let the walk over the dynamic pointers end
    without using an iterator to an erased entry, in whatever order the keys are, and let an
    entry be a cast, but no sign extension or truncation, of the result of a call, and not
    itself the operand of a cast of the map judged compatible.  Then the entry stays reported,
    with its record, exactly when the call is one to [malloc] or [calloc] with constant
    arguments, the bytes it allocates are not zero and fewer than the size of the type the
    result of the cast points to in the end; every other cast of a call's result is dropped. *)
Theorem allocation_casts_kept {orderValues : SetOrder value} M DL slot m m' x cop src c args info :
  safeTypeCastAnalysis M DL slot m = Some m' -> m !! x = Some info ->
  kindOf M x = KInst (ICast cop src) -> kindOf M src = KInst (ICall c args) -> cop <> SExt -> cop <> Trunc ->
  (forall k, k ∈ dom m -> compatibleCast M DL slot k <> Some x) ->
  m' !! x = Some info <->
    isPointerTy (getType M x) = true /\
    exists n, allocates M src n /\ (0 < n < getTypeAllocSize DL (UnwrapPointer (getType M x)))%Z.
Proof.
  intros Hr Hm Hx Hsrc Hs Ht Hops.
  assert (compatibleCast M DL slot x = if handleCallInstCast M DL x src then None else Some src) as Hc.
  { unfold compatibleCast, handleCastOperation. rewrite Hx, Hsrc, !bool_decide_false by done.
    cbn [orb negb]. rewrite !orb_true_r. by destruct (isPointerTy (getType M src)), (handleCallInstCast _ _ _ _). }
  assert (handleCallInstCast M DL x src = true <-> isPointerTy (getType M x) = true /\
    exists n, allocates M src n /\ (0 < n < getTypeAllocSize DL (UnwrapPointer (getType M x)))%Z) as <-.
  { unfold handleCallInstCast. rewrite !andb_true_iff, !Z.ltb_lt. split.
    - intros [[H0 Hp] H1]. split; [done|]. exists (allocatedBytes M src). split; [by apply allocatedBytes_allocates|done].
    - intros (Hp & n & Ha & H0 & H1). apply allocatedBytes_allocates in Ha as ->; done. }
  destruct (handleCallInstCast M DL x src).
  - split; [done|intros _]. rewrite <- Hm. eapply walk_kept; [|exact Hr]. intros k op Hk%elem_of_order Hop.
    split; intros ->; [congruence|by eapply Hops].
  - split; [|done]. intros Hin. rewrite (walk_removes M DL slot (order (dom m)) m m' x src) in Hin; [done| |done|exact Hr].
    apply elem_of_order, elem_of_dom. by eexists.
Qed.

(** [p = malloc(4); q = (S* )p] with an 8-byte S; for examples. *)
Definition mallocModule : IRModule := {|
  m_kind := fun p => match p with
    | 1%positive => KInst (ICall (VRef 7) [VConstInt (mk 64 4)])
    | 2%positive => KInst (ICast BitCast (VRef 1))
    | 7%positive => KFunction
    | _ => KOther end;
  m_type := fun p => match p with 2%positive => TPtr (TStruct 1) | _ => TPtr (TInt 8) end;
  getName := fun _ => "malloc"%string; users := fun _ => []; functions := []; globals := [];
  blocks := fun _ => []; insts := fun _ => []; fargs := fun _ => []; getParent := fun v => v;
  getBBParent := fun v => v; isDeclaration := fun _ => true;
  getCalledFunction := fun v => if decide (v = VRef 1) then Some (VRef 7) else None;
  predecessors := fun _ => []; stripPointerCasts := fun v => v; getFunctionNamed := fun _ => None |}.

Lemma allocation_casts_kept_witness :
  safeTypeCastAnalysis (orderValues := elementsOrder _) mallocModule msDL (fun _ _ => false) {[VRef 2 := zeroInfo]} =
    Some {[VRef 2 := zeroInfo]} /\ exists n, allocates mallocModule (VRef 1) n /\ (0 < n < 8)%Z.
Proof.
  assert (safeTypeCastAnalysis (orderValues := elementsOrder _) mallocModule msDL (fun _ _ => false) {[VRef 2 := zeroInfo]} =
    Some {[VRef 2 := zeroInfo]}) as Hr by (vm_compute; reflexivity).
  split; [exact Hr|].
  destruct (proj1 (allocation_casts_kept (orderValues := elementsOrder _) mallocModule msDL (fun _ _ => false) _ _ (VRef 2)
    BitCast (VRef 1) (VRef 7) [VConstInt (mk 64 4)] zeroInfo Hr eq_refl eq_refl eq_refl ltac:(discriminate) ltac:(discriminate)
    ltac:(intros k Hk; rewrite dom_singleton_L in Hk; apply elem_of_singleton in Hk as ->; vm_compute; discriminate)) eq_refl)
    as (_ & n & Hn & Hlt).
  exists n. split; [exact Hn|exact Hlt].
Defined.

(** The walk uses an erased entry.  When a compatible entry is directly followed by its own
    operand in the order of the keys, the first erasure moves the iterator to the operand and
    the second erases it; what runs from there on is undefined. *)
Lemma walk_uses_erased_entry {orderValues : SetOrder value} M DL slot m k op l1 l2 :
  order (dom m) = l1 ++ k :: op :: l2 -> (forall y, y ∈ l1 -> compatibleCast M DL slot y = None) ->
  compatibleCast M DL slot k = Some op -> safeTypeCastAnalysis M DL slot m = None.
Proof.
  intros Ho Hl1 Hc. assert (NoDup (l1 ++ k :: op :: l2)) as Hd by (rewrite <- Ho, order_perm; apply NoDup_elements).
  assert (forall y, y ∈ l1 ++ k :: op :: l2 -> is_Some (m !! y)) as Hin.
  { intros y Hy. rewrite <- Ho in Hy. by apply elem_of_dom, elem_of_order. }
  unfold safeTypeCastAnalysis. rewrite Ho. clear Ho. induction l1 as [|y l1 IH]; cbn [castWalk app].
  - unfold visitEntry. destruct (Hin k ltac:(left)) as [i ->]. rewrite Hc.
    assert (is_Some (delete k m !! op)) as Hop.
    { rewrite lookup_delete_ne; [apply Hin; set_solver|]. simpl in Hd. intros ->. by apply NoDup_cons in Hd as [[]%not_elem_of_cons _]. }
    rewrite filter_cons_True by done. cbn [head]. by rewrite decide_True.
  - unfold visitEntry at 1. rewrite (Hl1 y) by left. destruct (m !! y); cbn [mbind option_bind];
      (apply IH; [set_solver|by apply NoDup_cons in Hd as [_ ?]|set_solver]).
Qed.

(** Integer bytes reinterpreted as structs are reported.  When the subtype search
    finds nothing (it compares addresses of type slots with types), a cast of a loaded
    [i8*] whose result is stored as a pointer to a non-integer type is judged unsafe,
    and a cast between two pointer types with the same innermost integer type, used as
    integers, is judged compatible. *)
Theorem integer_to_struct_cast_unsafe slot innerSrcT realSrcType realDstType innerDstT :
  (forall a b, slot a b = false) ->
  isIntegerTy innerSrcT = true -> isIntegerTy realSrcType = true ->
  isPotentiallyUnsafeCast slot innerSrcT realSrcType realDstType innerDstT =
    negb (isIntegerTy realDstType && isIntegerTy innerDstT).
Proof.
  intros Hs H1 H2. unfold isPotentiallyUnsafeCast. rewrite Hs, H1, H2. simpl.
  by destruct (isIntegerTy realDstType), (isIntegerTy innerDstT).
Qed.

Lemma integer_to_struct_cast_unsafe_witness :
  isPotentiallyUnsafeCast (fun _ _ => false) (TInt 8) (TInt 8) (TStruct 1) (TStruct 1) =
    negb (isIntegerTy (TStruct 1) && isIntegerTy (TStruct 1)).
Proof. apply (integer_to_struct_cast_unsafe (fun _ _ => false)); reflexivity. Defined.
