(* ===== verification/Uriah.v ===== *)
(** * Unsafe heap pointers ([Uriah.cpp])

    Collects the heap pointers among the classified variables, with their aliases
    from the dependence graph and from a walk to the root of the address
    computation; splits them by class; extends the unsafe ones by their aliases;
    finds the allocations nothing else aliases; and hands the heap pointers to the
    value-range analysis and the dynamic casts to the compatible-type analysis.
    The alias extension walks a [std::map] in address order while it inserts into
    it: [KeyOrder] is the order of the addresses and [nextKey] the iterator's
    step.  The walk to the root follows a chain of operands, see [dominated]. *)
From stdpp Require Import base countable gmap sets list option strings relations.
From Stdlib Require Import ZArith Lia.
From S2P Require Import Prelude APInt LLVM AnalysisState RangeTransfer PTA Graph DataDep ValueRange CompatType MemSafe.

(** ** The order of keys of a [std::map] *)
Class KeyOrder := {
  key_lt : value -> value -> Prop;
  key_lt_dec :: RelDecision key_lt;
  key_lt_strict :: StrictOrder key_lt;
  key_lt_total : forall x y, key_lt x y \/ x = y \/ key_lt y x }.

Section Keys.
Context {KO : KeyOrder}.

Definition afterKey (cur : option value) (k : value) : Prop :=
  match cur with None => True | Some c => key_lt c k end.
#[export] Instance afterKey_dec cur k : Decision (afterKey cur k).
Proof. unfold afterKey. destruct cur; apply _. Defined.

(** The least key. *)
Definition leastKey (l : list value) : option value :=
  foldr (fun k acc => match acc with
                      | None => Some k
                      | Some m => if decide (key_lt k m) then Some k else Some m end) None l.

(** [++it]: the entry the iterator moves to from [cur], or [begin()]. *)
Definition nextKey (cur : option value) (ks : gset value) : option value :=
  leastKey (filter (afterKey cur) (elements ks)).
End Keys.

(** ** Heap pointers *)
Section Uriah.
Context {KO : KeyOrder} {orderValues : SetOrder value} {orderNodes : SetOrder positive}
  {orderTypes : SetOrder EdgeType} {orderSets : SetOrder (gset value)} {orderObjs : SetOrder Z}.
Variable M : IRModule.
Variable P : SVF.
Variable pdgraph : GenericGraph.
Variable uninit : VariableInfo.
(** [isAllocationFn(V, TLI)] of LLVM's MemoryBuiltins, and whether there is a TLI. *)
Variable isAllocationFn : value -> bool.
Variable TLI : bool.
Variable DOM : dominated M.

Definition namesAllocator (s : string) : bool :=
  contains s "alloc" || contains s "operator new" || contains s "operator new[]".

(** A call instruction of a function with an allocator's name. *)
Definition callsAllocator (v : value) : bool :=
  isCallInst M v &&
  match getCalledFunction M v with Some f => namesAllocator (getName M f) | None => false end.

(** The loop over the operands: the first global or allocation decides. *)
Fixpoint heapOperands (ops : list value) : bool :=
  match ops with
  | [] => false
  | op :: ops =>
    if isGlobalVariable M op then false
    else if isAllocationFn op then true
    else if callsAllocator op then true
    else heapOperands ops
  end.

Definition isPtrToHeap (ssaVariable : value) : bool :=
  if negb (isInstruction M ssaVariable) then false
  else if negb (hasValueNode P ssaVariable) then false
  else if TLI then
    if isGlobalVariable M ssaVariable then false
    else if isAllocationFn ssaVariable then true
    else if callsAllocator ssaVariable then true
    else heapOperands (operands M ssaVariable)
  else existsb (isHeapObject P) (getPts P ssaVariable).

(** The next value on the way to the root; [None] at the root. *)
Definition rootStep (v : value) : option value :=
  match kindOf M v with
  | KInst (IGEP _ _ base _) => Some base
  | KInst (ILoad ptr) => Some ptr
  | KInst (IAlloca _ _) => None
  | KInst (ICall _ _) =>
    match getCalledFunction M v with
    | Some f => if contains (getName M f) "alloc" then callArgs M v !! 0 else None
    | None => None
    end
  | KInst (ICast _ src) => Some src
  | _ => None
  end.

Lemma rootStep_operand x y : rootStep x = Some y -> operandOf M y x.
Proof.
  unfold rootStep, operandOf, operands, callArgs. intros H.
  repeat case_match; simplify_eq; (split; [|done]); simpl; try (by left).
  apply elem_of_app. left. by eapply list_elem_of_lookup_2.
Qed.

Definition getRootValue (v : value) : value := chainEnd M DOM rootStep rootStep_operand v.

(** The recursion of the source. *)
Lemma getRootValue_step v : getRootValue v = match rootStep v with Some w => getRootValue w | None => v end.
Proof. apply chainEnd_step. Qed.

Definition queryAliasing (v1 v2 : value) : bool := bool_decide (getRootValue v1 = getRootValue v2).

(** [TheState.GetPointerVariableInfo(v)], read. *)
Definition infoOf (s : AnalysisState) (v : value) : option VariableInfo :=
  deref s <$> GetPointerVariableInfo M uninit v s.

(** [m[v] = *info] when there is an entry. *)
Definition recordInfo (s : AnalysisState) (v : value) (m : gmap value VariableInfo) : gmap value VariableInfo :=
  match infoOf s v with Some info => <[v := info]> m | None => m end.

(** The values of the nodes [node] has incoming alias edges from. *)
Definition aliasValues (node : positive) : list value :=
  match heap pdgraph !! node with
  | Some nd => omap (fun n => nd ← heap pdgraph !! n; _val nd) (order (getInNeighborsWithDepType nd DATA_ALIAS))
  | None => []
  end.

(** The over-approximated aliases of [p] among the instructions of its function. *)
Definition isRootAlias (p i : value) : bool :=
  negb (bool_decide (p = i)) && hasValueNode P p && hasValueNode P i && queryAliasing p i.
Definition rootAliases (p : value) : list value :=
  filter (fun i => isRootAlias p i = true) (instructions M (getFunction M p)).

(** *** [collectHeapPointers] *)
Definition reachableInsts (edgeTypes : gset EdgeType) (node : positive) : gset positive :=
  let reachable_nodes :=
    default ∅ (findNodesReachedByEdges (heap pdgraph) (S (S (size (dom (heap pdgraph))))) node edgeTypes false) in
  filter (fun n => match heap pdgraph !! n with
                   | Some nd => bool_decide (_node_type nd = GraphNodeType.INST)
                   | None => false end = true) reachable_nodes.

Definition collectOne (edgeTypes : gset EdgeType) (s : AnalysisState)
    (acc : gmap value VariableInfo * gset positive) (k : value) : gmap value VariableInfo * gset positive :=
  let '(heapPointerSet, unsafeNode) := acc in
  match Variables s !! k with
  | None => acc
  | Some info =>
    if negb (isInstruction M k) then acc
    else if negb (isPtrToHeap k) then acc
    else
      let heapPointerSet := <[k := info]> heapPointerSet in
      match getNode pdgraph k with
      | None => (heapPointerSet, unsafeNode)
      | Some node =>
        let unsafeNode := reachableInsts edgeTypes node ∪ unsafeNode in
        let heapPointerSet := fold_left (fun m v => recordInfo s v m) (aliasValues node) heapPointerSet in
        let heapPointerSet := fold_left (fun m v => recordInfo s v m) (rootAliases k) heapPointerSet in
        (heapPointerSet, unsafeNode)
      end
  end.

Definition collectHeapPointers (edgeTypes : gset EdgeType) (s : AnalysisState)
    (heapPointerSet : gmap value VariableInfo) (unsafeNode : gset positive) :=
  fold_left (collectOne edgeTypes s) (order (dom (Variables s))) (heapPointerSet, unsafeNode).

(** *** [identifyHeapObjectClassification] *)
Record HeapSets := HS {
  hs_heap : gmap value VariableInfo;     (* heapPointerSet *)
  hs_unique : gmap value VariableInfo;   (* unsafeUniqueHeapPointerSet *)
  hs_alias : gmap value VariableInfo;    (* unsafeAliasHeapPointerSet *)
  hs_unsafe : gmap value VariableInfo;   (* unsafeHeapPointerSet *)
  hs_seq : gmap value VariableInfo;      (* heapSeqPointerSet *)
  hs_dyn : gmap value VariableInfo;      (* heapDynPointerSet *)
  hs_dynPtr : gmap value VariableInfo;   (* heapDynPtrSet *)
}.

Definition addSeq (k : value) (info : VariableInfo) (h : HeapSets) : HeapSets :=
  HS (hs_heap h) (hs_unique h) (hs_alias h) (hs_unsafe h) (<[k := info]> (hs_seq h)) (hs_dyn h) (hs_dynPtr h).
Definition addDyn (k : value) (info : VariableInfo) (h : HeapSets) : HeapSets :=
  HS (hs_heap h) (hs_unique h) (hs_alias h) (hs_unsafe h) (hs_seq h) (<[k := info]> (hs_dyn h))
    (if isCastInst M k then <[k := info]> (hs_dynPtr h) else hs_dynPtr h).
Definition addUnique (k : value) (info : VariableInfo) (h : HeapSets) : HeapSets :=
  HS (hs_heap h) (<[k := info]> (hs_unique h)) (hs_alias h) (hs_unsafe h) (hs_seq h) (hs_dyn h) (hs_dynPtr h).
Definition addAlias (k : value) (info : VariableInfo) (h : HeapSets) : HeapSets :=
  HS (hs_heap h) (hs_unique h) (<[k := info]> (hs_alias h)) (hs_unsafe h) (hs_seq h) (hs_dyn h) (hs_dynPtr h).
Definition addUnsafe (k : value) (info : VariableInfo) (h : HeapSets) : HeapSets :=
  HS (hs_heap h) (hs_unique h) (hs_alias h) (<[k := info]> (hs_unsafe h)) (hs_seq h) (hs_dyn h) (hs_dynPtr h).
Definition addHeap (k : value) (info : VariableInfo) (h : HeapSets) : HeapSets :=
  HS (<[k := info]> (hs_heap h)) (hs_unique h) (hs_alias h) (hs_unsafe h) (hs_seq h) (hs_dyn h) (hs_dynPtr h).

Definition classifyHeapEntry (h : HeapSets) (kv : value * VariableInfo) : HeapSets :=
  let '(k, info) := kv in
  if bool_decide (classification info = Dyn) || bool_decide (classification info = Seq) then
    let h := addUnsafe k info (addUnique k info h) in
    let h := if decide (classification info = Seq) then addSeq k info h else h in
    if decide (classification info = Dyn) then addDyn k info h else h
  else h.

Definition identifyHeapObjectClassification (h : HeapSets) : HeapSets :=
  fold_left classifyHeapEntry (map_to_list (hs_heap h)) h.

(** *** [identifyAndClassifyUnsafeHeapObjects] *)

(** One alias of an unsafe pointer. *)
Definition recordAlias (s : AnalysisState) (h : HeapSets) (v : value) : HeapSets :=
  match infoOf s v with
  | None => h
  | Some info =>
    let h := addHeap v info (addUnsafe v info h) in
    let h := if decide (classification info = Seq) then addSeq v info (addUnique v info h) else addAlias v info h in
    if decide (classification info = Dyn) then addDyn v info (addUnique v info h) else addAlias v info h
  end.

(** The alias set of an unsafe pointer with the node [node]. *)
Definition unsafeAliases (k : value) (node : positive) : gset value :=
  let aliasSet : gset value := list_to_set (filter (fun v => isInstruction M v = true) (aliasValues node)) in
  fold_left (fun a i =>
    if decide (k = i) then a
    else if decide (i ∈ a) then a
    else if negb (hasValueNode P k) || negb (hasValueNode P i) then a
    else if queryAliasing k i then {[i]} ∪ a else a) (instructions M (getFunction M k)) aliasSet.

Definition visitUnsafe (s : AnalysisState) (k : value) (h : HeapSets) : HeapSets :=
  if negb (isInstruction M k) then h
  else
    match getNode pdgraph k with
    | None => h
    | Some node => fold_left (recordAlias s) (order (unsafeAliases k node)) h
    end.

(** The walk over [unsafeUniqueHeapPointerSet], which the body inserts into. *)
Fixpoint unsafeLoop (fuel : nat) (s : AnalysisState) (cur : option value) (h : HeapSets) : option HeapSets :=
  match fuel with
  | O => None
  | S n =>
    match nextKey cur (dom (hs_unique h)) with
    | None => Some h
    | Some k => unsafeLoop n s (Some k) (visitUnsafe s k h)
    end
  end.

Definition identifyAndClassifyUnsafeHeapObjects (fuel : nat) (s : AnalysisState) (h : HeapSets) : option HeapSets :=
  unsafeLoop fuel s None h.

(** *** [findNonAliasedAndRepresentativeHeapPointers] *)
Definition hasRootAlias (heapPointerSet : gmap value VariableInfo) (k : value) : bool :=
  existsb (fun k2 => negb (bool_decide (k = k2)) && queryAliasing k k2) (map_to_list heapPointerSet).*1.

(** The body of the loop for one key: the object map and the allocations left. *)
Definition visitAllocation (heapPointerSet : gmap value VariableInfo)
    (acc : gmap Z (gset value) * gset value) (k : value) : gmap Z (gset value) * gset value :=
  let '(objs, nonAliased) := acc in
  if negb (isCallInst M k) then acc
  else (addObjects P k objs, if hasRootAlias heapPointerSet k then nonAliased ∖ {[k]} else nonAliased).

Definition eraseGroup (nonAliased inst_set : gset value) : gset value :=
  if (1 <? size inst_set)%nat then nonAliased ∖ inst_set else nonAliased.

Definition findNonAliased (heapPointerSet : gmap value VariableInfo) : gset value :=
  let keys := (map_to_list heapPointerSet).*1 in
  let NonAliasedHeapPointers : gset value := list_to_set (filter (fun k => isCallBase M k = true) keys) in
  let '(objs, NonAliasedHeapPointers) := fold_left (visitAllocation heapPointerSet) keys (∅, NonAliasedHeapPointers) in
  fold_left eraseGroup (order (uniqueGroups objs)) NonAliasedHeapPointers.

(** *** [findAliasedAllocations] *)
Definition aliasedWith (ptr : value) (nodePtr : positive) (v : value) : bool :=
  hasValueNode P v &&
  match getNode pdgraph v with
  | None => false
  | Some node =>
    bool_decide (nodePtr ∈ neighborsOf (heap pdgraph) false node DATA_ALIAS) || queryAliasing ptr v
  end.

Definition findAliasedAllocations (nonAliased : gset value) (somePtrSet : gmap value VariableInfo)
    (AliasedResult : gset value) : gset value :=
  fold_left (fun res ptr =>
    if negb (hasValueNode P ptr) then res
    else match getNode pdgraph ptr with
         | None => res
         | Some nodePtr =>
           if existsb (aliasedWith ptr nodePtr) (map_to_list somePtrSet).*1 then {[ptr]} ∪ res else res
         end) (order nonAliased) AliasedResult.

(** *** [identifyDifferentKindsOfUnsafeHeapPointers] *)
Record HeapReport := {
  hr_sets : HeapSets;
  hr_unsafeNode : gset positive;
  hr_nonAliased : gset value;
  hr_aliasedSeq : gset value;
  hr_aliasedDyn : gset value;
}.

(** Steps 1 to 5. *)
Definition heapReport (fuel : nat) (edgeTypes : gset EdgeType) (s : AnalysisState)
    (heapPointerSet : gmap value VariableInfo) (aliasedSeq aliasedDyn : gset value) : option HeapReport :=
  let '(heapPointerSet, unsafeNode) := collectHeapPointers edgeTypes s heapPointerSet ∅ in
  let h := identifyHeapObjectClassification (HS heapPointerSet ∅ ∅ ∅ ∅ ∅ ∅) in
  h ← identifyAndClassifyUnsafeHeapObjects fuel s h;
  let h := HS (hs_heap h) (hs_unique h) (filter (fun kv => hs_unique h !! kv.1 = None) (hs_alias h)) (hs_unsafe h)
             (hs_seq h) (hs_dyn h) (hs_dynPtr h) in
  let nonAliased := findNonAliased (hs_heap h) in
  Some {| hr_sets := h; hr_unsafeNode := unsafeNode; hr_nonAliased := nonAliased;
          hr_aliasedSeq := findAliasedAllocations nonAliased (hs_seq h) aliasedSeq;
          hr_aliasedDyn := findAliasedAllocations nonAliased (hs_dyn h) aliasedDyn |}.

End Uriah.

(** ** The iterator's step *)
Section KeyLemmas.
Context {KO : KeyOrder}.

Lemma leastKey_spec l k :
  leastKey l = Some k -> k ∈ l /\ forall k', k' ∈ l -> k' = k \/ key_lt k k'.
Proof.
  revert k. induction l as [|x l IH]; intros k; simpl; [done|].
  destruct (leastKey l) as [m|] eqn:Hm.
  - destruct (IH m) as [Hin Hmin]; [done|]. case_decide as Hlt; intros [= <-].
    + split; [left|]. intros k' [->|Hk']%elem_of_cons; [by left|].
      destruct (Hmin k' Hk') as [->|]; [by right|right; by etrans].
    + split; [by right|]. intros k' [->|Hk']%elem_of_cons; [|by apply Hmin].
      destruct (key_lt_total m x) as [|[->|]]; auto. done.
  - intros [= <-]. split; [left|]. intros k' [->|Hk']%elem_of_cons; [by left|].
    destruct l as [|y l]; [by apply elem_of_nil in Hk'|]. simpl in Hm. destruct (leastKey l); [case_decide|]; done.
Qed.

Lemma leastKey_none l : leastKey l = None -> l = [].
Proof. destruct l as [|x l]; [done|]. simpl. destruct (leastKey l); [case_decide|]; done. Qed.

Lemma nextKey_spec cur ks k :
  nextKey cur ks = Some k ->
  k ∈ ks /\ afterKey cur k /\ forall k', k' ∈ ks -> afterKey cur k' -> k' = k \/ key_lt k k'.
Proof.
  intros [Hin Hmin]%leastKey_spec. apply list_elem_of_filter in Hin as [Ha Hin%elem_of_elements].
  split_and!; [done..|]. intros k' Hk' Hak. apply Hmin, list_elem_of_filter. by rewrite elem_of_elements.
Qed.

Lemma nextKey_none cur ks k : nextKey cur ks = None -> k ∈ ks -> ~ afterKey cur k.
Proof.
  intros Hn%leastKey_none Hk Ha. assert (k ∈ filter (afterKey cur) (elements ks)) as Hin
    by (apply list_elem_of_filter; by rewrite elem_of_elements).
  rewrite Hn in Hin. by apply elem_of_nil in Hin.
Qed.

Lemma afterKey_trans cur k k' : afterKey cur k -> key_lt k k' -> afterKey cur k'.
Proof. destruct cur as [c|]; simpl; [|done]. intros. by etrans. Qed.

(** Each step leaves fewer keys ahead. *)
Lemma nextKey_decreases cur ks (D : gset value) k :
  nextKey cur ks = Some k -> ks ⊆ D -> size (filter (afterKey (Some k)) D) < size (filter (afterKey cur) D).
Proof.
  intros (Hin & Ha & _)%nextKey_spec Hsub. apply subset_size. split.
  - intros x [Hx Hd]%elem_of_filter. apply elem_of_filter. split; [by eapply afterKey_trans|done].
  - intros Hn. assert (k ∈ filter (afterKey cur) D) as Hk by (apply elem_of_filter; auto).
    apply Hn, elem_of_filter in Hk as [Hk _]. by apply (irreflexivity key_lt k).
Qed.
End KeyLemmas.

(** ** The sets of heap pointers *)
Section HeapSetsLemmas.
Variable M : IRModule.
Variable uninit : VariableInfo.
Variable s : AnalysisState.

Lemma infoOf_variable v : kindOf M v <> KConstantPointerNull -> infoOf M uninit s v = Variables s !! v.
Proof.
  intros Hk. unfold infoOf, GetPointerVariableInfo.
  assert (forall A (x y : A), match kindOf M v with KConstantPointerNull => x | _ => y end = y) as -> by (by intros; destruct (kindOf M v)).
  destruct (Variables s !! v) eqn:Hv; [|done]. simpl. by rewrite Hv.
Qed.

Lemma infoOf_instruction v : isInstruction M v = true -> infoOf M uninit s v = Variables s !! v.
Proof. intros Hi. apply infoOf_variable. unfold isInstruction in Hi. by destruct (kindOf M v). Qed.

(** Every record is the state's. *)
Definition from_state (m : gmap value VariableInfo) : Prop :=
  forall k i, m !! k = Some i -> infoOf M uninit s k = Some i.

Lemma from_state_insert m k i : from_state m -> infoOf M uninit s k = Some i -> from_state (<[k := i]> m).
Proof. intros Hm Hk k' i' [[<- <-]|[_ ?]]%lookup_insert_Some; auto. Qed.

Lemma from_state_grows m k i : from_state m -> infoOf M uninit s k = Some i -> m ⊆ <[k := i]> m.
Proof.
  intros Hm Hk. apply map_subseteq_spec. intros k' i' Hk'. destruct (decide (k = k')) as [<-|]; [|by rewrite lookup_insert_ne].
  rewrite lookup_insert_eq. apply Hm in Hk'. congruence.
Qed.

(** [sub] holds the entries of [m] that satisfy [Q]. *)
Definition part (Q : value -> VariableInfo -> Prop) (sub m : gmap value VariableInfo) : Prop :=
  forall k j, sub !! k = Some j <-> m !! k = Some j /\ Q k j.

Lemma part_insert Q sub m v i : part Q sub m -> Q v i -> part Q (<[v := i]> sub) (<[v := i]> m).
Proof.
  intros Hp Hq k j. destruct (decide (k = v)) as [->|Hne].
  - rewrite !lookup_insert_eq. split; [by intros [= <-]|by intros [? _]].
  - rewrite !lookup_insert_ne by done. apply Hp.
Qed.

Lemma part_skip Q sub m v i :
  from_state m -> infoOf M uninit s v = Some i -> part Q sub m -> ~ Q v i -> part Q sub (<[v := i]> m).
Proof.
  intros Hm Hv Hp Hq k j. destruct (decide (k = v)) as [->|Hne].
  - rewrite lookup_insert_eq. split; [|by intros [[= <-] ?]].
    intros [Hk Hj]%Hp. apply Hm in Hk. simplify_eq. congruence.
  - rewrite lookup_insert_ne by done. apply Hp.
Qed.

Record heap_ok (h : HeapSets) : Prop := {
  ok_heap : from_state (hs_heap h);
  ok_alias : from_state (hs_alias h);
  ok_unique : forall k i, hs_unique h !! k = Some i -> unsafe_class (classification i) /\ hs_unsafe h !! k = Some i;
  ok_unsafe : hs_unsafe h ⊆ hs_heap h;
  ok_seq : part (fun _ i => classification i = Seq) (hs_seq h) (hs_unique h);
  ok_dyn : part (fun _ i => classification i = Dyn) (hs_dyn h) (hs_unique h);
  ok_dynPtr : part (fun k _ => isCastInst M k = true) (hs_dynPtr h) (hs_dyn h) }.

Lemma ok_unsafe_from h : heap_ok h -> from_state (hs_unsafe h) /\ from_state (hs_unique h).
Proof.
  intros Hok. assert (from_state (hs_unsafe h)) as Hfs.
  { intros k j Hk. apply (ok_heap _ Hok). eapply lookup_weaken; [done|apply (ok_unsafe _ Hok)]. }
  split; [done|]. intros k j Hk. by apply Hfs, (ok_unique _ Hok).
Qed.

Lemma ok_dyn_from h : heap_ok h -> from_state (hs_dyn h).
Proof. intros Hok k j Hk. apply (ok_dyn _ Hok) in Hk as [Hk _]. by apply (ok_unsafe_from h Hok). Qed.

(** The sets only grow. *)
Record heap_le (h h' : HeapSets) : Prop := {
  le_heap : hs_heap h ⊆ hs_heap h';
  le_unique : hs_unique h ⊆ hs_unique h';
  le_unsafe : hs_unsafe h ⊆ hs_unsafe h';
  le_alias : hs_alias h ⊆ hs_alias h' }.

#[export] Instance heap_le_preorder : PreOrder heap_le.
Proof. split; [intros h; by split|]. intros a b c [] []. split; by etrans. Qed.

(** An entry with the record [i] and everything its class asks for. *)
Definition recorded (h : HeapSets) (k : value) (i : VariableInfo) : Prop :=
  hs_unsafe h !! k = Some i /\ (unsafe_class (classification i) -> hs_unique h !! k = Some i).

(** ... for an entry of an unsafe class. *)
Definition recorded_unsafe (h : HeapSets) (k : value) (i : VariableInfo) : Prop :=
  unsafe_class (classification i) -> recorded h k i.

Lemma recorded_le h h' k i : heap_le h h' -> recorded h k i -> recorded h' k i.
Proof. intros [_ Hu Hs _] [H1 H2]. split; [by eapply lookup_weaken|]. intros Hc. eapply lookup_weaken; [by apply H2|done]. Qed.

(** Recording one pointer in the sets of its class. *)
Definition record_class (v : value) (i : VariableInfo) (h : HeapSets) : HeapSets :=
  match classification i with
  | Seq => addSeq v i (addAlias v i (addUnique v i (addHeap v i (addUnsafe v i h))))
  | Dyn => addDyn M v i (addAlias v i (addUnique v i (addHeap v i (addUnsafe v i h))))
  | _ => addAlias v i (addHeap v i (addUnsafe v i h))
  end.

Lemma recordAlias_class h v i :
  infoOf M uninit s v = Some i -> recordAlias M uninit s h v = record_class v i h.
Proof.
  intros Hi. unfold recordAlias, record_class. rewrite Hi.
  destruct (classification i) eqn:Hc; simpl;
    unfold addSeq, addDyn, addAlias, addUnique, addHeap, addUnsafe; simpl; by rewrite ?insert_insert_eq.
Qed.

Lemma record_class_le h v i : heap_ok h -> infoOf M uninit s v = Some i -> heap_le h (record_class v i h).
Proof.
  intros Hok Hi. destruct (ok_unsafe_from h Hok) as [Hfs Hfu]. destruct Hok.
  unfold record_class. destruct (classification i); split; simpl; try done; by apply from_state_grows.
Qed.

Lemma record_class_recorded h v i : recorded (record_class v i h) v i.
Proof.
  unfold record_class, recorded, unsafe_class.
  destruct (classification i); simpl; rewrite ?lookup_insert_eq; split; try done; by intros [|].
Qed.

Lemma record_class_ok h v i : heap_ok h -> infoOf M uninit s v = Some i -> heap_ok (record_class v i h).
Proof.
  intros Hok Hi. destruct (ok_unsafe_from h Hok) as [Hfs Hfu]. pose proof (ok_dyn_from h Hok) as Hfd.
  pose proof Hok as [Hh Ha Hu Hs Hseq Hdyn Hptr].
  assert (<[v := i]> (hs_unsafe h) ⊆ <[v := i]> (hs_heap h)) by by apply insert_mono.
  pose proof (from_state_grows _ v i Hfs Hi) as Hgs.
  assert (forall k j, hs_unique h !! k = Some j -> unsafe_class (classification j) /\ <[v := i]> (hs_unsafe h) !! k = Some j) as Hu'.
  { intros k j [? Hk]%Hu. split; [done|by eapply lookup_weaken]. }
  assert (unsafe_class (classification i) -> forall k j, <[v := i]> (hs_unique h) !! k = Some j ->
    unsafe_class (classification j) /\ <[v := i]> (hs_unsafe h) !! k = Some j) as Hui.
  { intros Hcl k j [[<- <-]|[_ Hk]]%lookup_insert_Some; [by rewrite lookup_insert_eq|by apply Hu']. }
  unfold record_class. destruct (classification i) eqn:Hc; split; simpl; try done;
    try (by apply from_state_insert); try (apply Hui; unfold unsafe_class; auto);
    try (by apply part_insert); try (by apply part_skip; rewrite ?Hc).
  destruct (isCastInst M v) eqn:Hcast; [by apply part_insert|apply part_skip; by rewrite ?Hcast].
Qed.

Lemma recordAlias_ok h v :
  heap_ok h ->
  heap_ok (recordAlias M uninit s h v) /\ heap_le h (recordAlias M uninit s h v) /\
  forall i, infoOf M uninit s v = Some i -> recorded (recordAlias M uninit s h v) v i.
Proof.
  intros Hok. destruct (infoOf M uninit s v) as [i|] eqn:Hi.
  - rewrite (recordAlias_class _ _ i) by done.
    split_and!; [by apply record_class_ok|by apply record_class_le|intros j [= <-]; apply record_class_recorded].
  - unfold recordAlias. rewrite Hi. done.
Qed.

(** ... and a list of them, in any order. *)
Lemma recordAliases_ok l h :
  heap_ok h ->
  heap_ok (fold_left (recordAlias M uninit s) l h) /\ heap_le h (fold_left (recordAlias M uninit s) l h) /\
  forall v i, v ∈ l -> infoOf M uninit s v = Some i -> recorded (fold_left (recordAlias M uninit s) l h) v i.
Proof.
  revert h. induction l as [|x l IH]; intros h Hok; simpl; [split_and!; [done..|intros ?? []%elem_of_nil]|].
  destruct (recordAlias_ok h x Hok) as (Hok' & Hle & Hrec). destruct (IH _ Hok') as (Hok'' & Hle' & Hrec').
  split_and!; [done|by etrans|]. intros v i [->|Hv]%elem_of_cons Hi; [|by apply Hrec'].
  eapply recorded_le; [done|by apply Hrec].
Qed.

(** The sets with another alias set. *)
Definition with_alias (m : gmap value VariableInfo) (h : HeapSets) : HeapSets :=
  HS (hs_heap h) (hs_unique h) m (hs_unsafe h) (hs_seq h) (hs_dyn h) (hs_dynPtr h).

Lemma with_alias_ok m h : from_state m -> heap_ok h -> heap_ok (with_alias m h).
Proof. intros Hm []. by split. Qed.

Lemma classifyHeapEntry_record h k i :
  hs_heap h !! k = Some i ->
  classifyHeapEntry M h (k, i) =
    if decide (unsafe_class (classification i)) then with_alias (hs_alias h) (record_class k i h) else h.
Proof.
  intros Hk. unfold record_class, with_alias, classifyHeapEntry, unsafe_class.
  destruct (classification i); simpl; try done; by rewrite insert_id.
Qed.

Lemma classifyHeapEntry_ok h k i :
  heap_ok h -> hs_heap h !! k = Some i ->
  heap_ok (classifyHeapEntry M h (k, i)) /\ heap_le h (classifyHeapEntry M h (k, i)) /\
  hs_heap (classifyHeapEntry M h (k, i)) = hs_heap h /\
  recorded_unsafe (classifyHeapEntry M h (k, i)) k i.
Proof.
  intros Hok Hk. rewrite classifyHeapEntry_record by done. unfold recorded_unsafe. case_decide as Hd; [|by split_and!].
  pose proof (ok_heap _ Hok _ _ Hk) as Hi.
  destruct (record_class_le h k i Hok Hi) as [Hl1 Hl2 Hl3 Hl4]. split_and!.
  - apply with_alias_ok; [apply Hok|by apply record_class_ok].
  - by split.
  - unfold record_class. destruct (classification i); simpl; by rewrite ?insert_id.
  - intros _. apply (record_class_recorded h k i).
Qed.

Lemma classifyEntries_ok l h :
  heap_ok h -> (forall k i, (k, i) ∈ l -> hs_heap h !! k = Some i) ->
  heap_ok (fold_left (classifyHeapEntry M) l h) /\ heap_le h (fold_left (classifyHeapEntry M) l h) /\
  hs_heap (fold_left (classifyHeapEntry M) l h) = hs_heap h /\
  forall k i, (k, i) ∈ l -> recorded_unsafe (fold_left (classifyHeapEntry M) l h) k i.
Proof.
  revert h. induction l as [|[x j] l IH]; intros h Hok Hl; cbn [fold_left]; [split_and!; [done..|intros ?? []%elem_of_nil]|].
  destruct (classifyHeapEntry_ok h x j Hok) as (Hok' & Hle & Heq & Hrec); [apply Hl; left|].
  destruct (IH _ Hok') as (Hok'' & Hle' & Heq' & Hrec'); [intros k i Hk; rewrite Heq; apply Hl; by right|].
  split_and!; [done|by etrans|congruence|]. intros k i [[= -> ->]|Hv]%elem_of_cons; [|by apply Hrec'].
  intros Hu. eapply recorded_le; [done|by apply Hrec].
Qed.

Lemma identifyHeapObjectClassification_ok m :
  from_state m ->
  let h := identifyHeapObjectClassification M (HS m ∅ ∅ ∅ ∅ ∅ ∅) in
  heap_ok h /\ hs_heap h = m /\ forall k i, m !! k = Some i -> recorded_unsafe h k i.
Proof.
  intros Hm h. destruct (classifyEntries_ok (map_to_list m) (HS m ∅ ∅ ∅ ∅ ∅ ∅)) as (Hok & _ & Heq & Hrec).
  - assert (forall Q, part Q ∅ ∅) as Hp by (intros Q k j; rewrite lookup_empty; naive_solver).
    assert (from_state ∅) as He by (intros k j; by rewrite lookup_empty).
    split; simpl; try done. apply map_empty_subseteq.
  - intros k i. by rewrite elem_of_map_to_list.
  - split_and!; [done..|]. intros k i Hk. apply Hrec. by rewrite elem_of_map_to_list.
Qed.
End HeapSetsLemmas.

(** ** The alias extension *)
Section AliasExtension.
Context {KO : KeyOrder} {orderValues : SetOrder value} {orderNodes : SetOrder positive} {orderTypes : SetOrder EdgeType}.
Variable M : IRModule.
Variable P : SVF.
Variable pdgraph : GenericGraph.
Variable uninit : VariableInfo.
Variable DOM : dominated M.
Variable s : AnalysisState.
Hypothesis Hinsts : forall f i, i ∈ instructions M f -> isInstruction M i = true.

Abbreviation unsafeAliases := (unsafeAliases M P pdgraph DOM).
Abbreviation visitUnsafe := (visitUnsafe M P pdgraph uninit DOM s).
Abbreviation unsafeLoop := (unsafeLoop M P pdgraph uninit DOM).

Lemma recordAlias_dom h v :
  isInstruction M v = true -> dom (hs_unique (recordAlias M uninit s h v)) ⊆ dom (hs_unique h) ∪ dom (Variables s).
Proof using Type.
  clear. intros Hv. unfold recordAlias. rewrite infoOf_instruction by done.
  destruct (Variables s !! v) as [i|] eqn:Hi; [|set_solver].
  apply elem_of_dom_2 in Hi. destruct (classification i); simpl; rewrite ?dom_insert_L; set_solver.
Qed.

Lemma recordAliases_dom l h :
  Forall (fun v => isInstruction M v = true) l ->
  dom (hs_unique (fold_left (recordAlias M uninit s) l h)) ⊆ dom (hs_unique h) ∪ dom (Variables s).
Proof using Type.
  clear. intros Hl. revert h. induction Hl as [|v l Hv Hl IH]; intros h; cbn [fold_left]; [set_solver|].
  pose proof (IH (recordAlias M uninit s h v)). pose proof (recordAlias_dom h v Hv). set_solver.
Qed.

Lemma isRootAlias_spec k v :
  isRootAlias M P DOM k v = true <->
  k <> v /\ hasValueNode P k = true /\ hasValueNode P v = true /\ queryAliasing M DOM k v = true.
Proof using Type. clear. unfold isRootAlias. rewrite !andb_true_iff, negb_true_iff, bool_decide_eq_false. naive_solver. Qed.

(** The alias set: the instructions the dependence graph relates to the pointer,
    and those of its function with the same root. *)
Lemma elem_of_unsafeAliases k node v :
  v ∈ unsafeAliases k node <->
  (v ∈ aliasValues pdgraph node /\ isInstruction M v = true) \/
  (v ∈ instructions M (getFunction M k) /\ isRootAlias M P DOM k v = true).
Proof using Type.
  clear. unfold Uriah.unsafeAliases.
  assert (forall (l : list value) (a : gset value), v ∈ fold_left (fun a i =>
    if decide (k = i) then a
    else if decide (i ∈ a) then a
    else if negb (hasValueNode P k) || negb (hasValueNode P i) then a
    else if queryAliasing M DOM k i then {[i]} ∪ a else a) l a <->
    v ∈ a \/ (v ∈ l /\ isRootAlias M P DOM k v = true)) as Hf.
  { induction l as [|x l IH]; intros a; cbn [fold_left]; [set_solver|]. rewrite IH, elem_of_cons.
    assert (v = x -> isRootAlias M P DOM k v = true <-> isRootAlias M P DOM k x = true) by (by intros ->).
    pose proof (isRootAlias_spec k x) as Hr. case_decide; [naive_solver|]. case_decide; [naive_solver|].
    destruct (hasValueNode P k), (hasValueNode P x), (queryAliasing M DOM k x); simpl; set_unfold; naive_solver. }
  rewrite Hf, elem_of_list_to_set, list_elem_of_filter. naive_solver.
Qed.

Lemma visitUnsafe_ok k h :
  heap_ok M uninit s h ->
  heap_ok M uninit s (visitUnsafe k h) /\ heap_le h (visitUnsafe k h) /\
  dom (hs_unique (visitUnsafe k h)) ⊆ dom (hs_unique h) ∪ dom (Variables s) /\
  forall node v i, isInstruction M k = true -> getNode pdgraph k = Some node -> v ∈ unsafeAliases k node ->
    Variables s !! v = Some i -> recorded (visitUnsafe k h) v i.
Proof.
  intros Hok. unfold Uriah.visitUnsafe. destruct (isInstruction M k) eqn:Hk; [|by split_and!; [..|set_solver|]].
  destruct (getNode pdgraph k) as [node|]; simpl; [|by split_and!; [..|set_solver|]].
  destruct (recordAliases_ok M uninit s (order (unsafeAliases k node)) h Hok) as (Hok' & Hle & Hrec).
  assert (forall v, v ∈ unsafeAliases k node -> isInstruction M v = true) as Hi.
  { intros v [[_ ?]|[? _]]%elem_of_unsafeAliases; [done|by eapply Hinsts]. }
  split_and!; [done..| |].
  - apply recordAliases_dom, Forall_forall. intros v Hv%elem_of_order. by apply Hi.
  - intros node' v i _ [= <-] Hv Hvi. apply Hrec; [by apply elem_of_order|]. by rewrite infoOf_instruction by auto.
Qed.

(** [afterKey] cannot visit more keys than there are. *)
Lemma unsafeLoop_ok n cur h D :
  heap_ok M uninit s h -> dom (hs_unique h) ⊆ D -> dom (Variables s) ⊆ D -> size (filter (afterKey cur) D) < n ->
  exists h', unsafeLoop n s cur h = Some h' /\ heap_ok M uninit s h' /\ heap_le h h' /\
    dom (hs_unique h') ⊆ D /\
    forall k node v i, k ∈ dom (hs_unique h) -> afterKey cur k -> isInstruction M k = true ->
      getNode pdgraph k = Some node -> v ∈ unsafeAliases k node -> Variables s !! v = Some i -> recorded h' v i.
Proof.
  revert cur h. induction n as [|n IH]; intros cur h Hok Hd Hv Hn; [lia|]. cbn [Uriah.unsafeLoop].
  destruct (nextKey cur (dom (hs_unique h))) as [k|] eqn:Hk.
  - pose proof (nextKey_decreases _ _ D k Hk Hd). destruct (nextKey_spec _ _ _ Hk) as (Hin & Ha & Hmin).
    destruct (visitUnsafe_ok k h Hok) as (Hok1 & Hle1 & Hd1 & Hrec1).
    destruct (IH (Some k) (visitUnsafe k h) Hok1) as (h' & Hr & Hok' & Hle & Hdom & Hrec); [set_solver|done|lia|].
    exists h'. split_and!; [done|done|by etrans|done|].
    intros k' node v i Hk' Ha' Hi Hnode Hva Hvi. destruct (Hmin k' Hk' Ha') as [->|Hlt].
    + eapply recorded_le; [done|by eapply Hrec1].
    + eapply Hrec; [|done..]. by apply (subseteq_dom _ _ (le_unique _ _ Hle1)).
  - exists h. split_and!; [done..|]. intros k' node v i Hk' Ha'. by destruct (nextKey_none _ _ _ Hk Hk').
Qed.
End AliasExtension.

(** ** What is collected *)
Section Collection.
Context {KO : KeyOrder} {orderValues : SetOrder value} {orderNodes : SetOrder positive} {orderTypes : SetOrder EdgeType}.
Variable M : IRModule.
Variable P : SVF.
Variable pdgraph : GenericGraph.
Variable uninit : VariableInfo.
Variable isAllocationFn : value -> bool.
Variable TLI : bool.
Variable DOM : dominated M.
Variable s : AnalysisState.

Abbreviation isPtrToHeap := (isPtrToHeap M P isAllocationFn TLI).
Abbreviation rootAliases := (rootAliases M P DOM).

(** [v] is one of the aliases the pass looks up for [k], whose node is [node]. *)
Definition lookedUp (k : value) (node : positive) (v : value) : Prop :=
  v ∈ aliasValues pdgraph node \/ v ∈ rootAliases k.

Lemma elem_of_rootAliases k v :
  v ∈ rootAliases k <-> v ∈ instructions M (getFunction M k) /\ isRootAlias M P DOM k v = true.
Proof using Type. clear. unfold Uriah.rootAliases. rewrite list_elem_of_filter. tauto. Qed.

(** The values the first step registers for the pointer [k]. *)
Definition collects (k v : value) : Prop :=
  isPtrToHeap k = true /\ (v = k \/ exists node, getNode pdgraph k = Some node /\ lookedUp k node v).

(** [m] holds the state's records of exactly the values in [Q]. *)
Definition holds_records (m : gmap value VariableInfo) (Q : value -> Prop) : Prop :=
  forall v i, m !! v = Some i <-> infoOf M uninit s v = Some i /\ Q v.

Lemma holds_records_insert m Q k i :
  holds_records m Q -> infoOf M uninit s k = Some i -> holds_records (<[k := i]> m) (fun v => Q v \/ v = k).
Proof using Type. clear.
  intros Hm Hk v j. destruct (decide (v = k)) as [->|Hne].
  - rewrite lookup_insert_eq, Hk. split; [by intros [= <-]; auto|by intros [? _]].
  - rewrite lookup_insert_ne by done. rewrite (Hm v j). naive_solver.
Qed.

Lemma holds_records_ext m Q Q' : (forall v, Q v <-> Q' v) -> holds_records m Q -> holds_records m Q'.
Proof using Type. clear. intros HQ Hm v i. rewrite (Hm v i). by rewrite HQ. Qed.

Lemma recordInfo_holds m Q v :
  holds_records m Q -> holds_records (recordInfo M uninit s v m) (fun w => Q w \/ w = v).
Proof using Type. clear.
  intros Hm. unfold recordInfo. destruct (infoOf M uninit s v) as [i|] eqn:Hi; [by apply holds_records_insert|].
  intros w j. rewrite (Hm w j). naive_solver.
Qed.

Lemma recordInfos_holds l m Q :
  holds_records m Q -> holds_records (fold_left (fun m v => recordInfo M uninit s v m) l m) (fun w => Q w \/ w ∈ l).
Proof using Type. clear.
  revert m Q. induction l as [|x l IH]; intros m Q Hm; cbn [fold_left].
  - eapply holds_records_ext; [|done]. intros v. rewrite elem_of_nil. tauto.
  - eapply holds_records_ext; [|by apply IH, recordInfo_holds]. intros v. rewrite elem_of_cons. simpl. tauto.
Qed.

Lemma collectOne_holds edgeTypes acc Q k :
  holds_records acc.1 Q -> k ∈ dom (Variables s) ->
  holds_records (collectOne M P pdgraph uninit isAllocationFn TLI DOM edgeTypes s acc k).1 (fun v => Q v \/ collects k v).
Proof.
  intros Hm [info Hk]%elem_of_dom. destruct acc as [m nodes]; simpl in *. unfold collects.
  rewrite Hk. destruct (isInstruction M k) eqn:Hi; simpl.
  2:{ assert (isPtrToHeap k = false) as -> by (unfold Uriah.isPtrToHeap; by rewrite Hi).
      eapply holds_records_ext; [|done]. intros v. split; [auto|by intros [?|[? _]]]. }
  destruct (isPtrToHeap k) eqn:Hp; simpl.
  2:{ eapply holds_records_ext; [|done]. intros v. split; [auto|by intros [?|[? _]]]. }
  assert (infoOf M uninit s k = Some info) as Hinfo by by rewrite infoOf_instruction.
  pose proof (holds_records_insert _ _ _ _ Hm Hinfo) as H1. destruct (getNode pdgraph k) as [node|] eqn:Hn; simpl.
  - eapply holds_records_ext; [|apply recordInfos_holds, recordInfos_holds, H1]. intros v. simpl. unfold lookedUp. naive_solver.
  - eapply holds_records_ext; [|exact H1]. intros v. simpl. naive_solver.
Qed.

Lemma collectHeapPointers_holds edgeTypes nodes :
  holds_records (collectHeapPointers M P pdgraph uninit isAllocationFn TLI DOM edgeTypes s ∅ nodes).1
    (fun v => exists k, k ∈ dom (Variables s) /\ collects k v).
Proof.
  unfold collectHeapPointers.
  assert (forall l acc Q, (forall k, k ∈ l -> k ∈ dom (Variables s)) -> holds_records acc.1 Q ->
    holds_records (fold_left (collectOne M P pdgraph uninit isAllocationFn TLI DOM edgeTypes s) l acc).1
      (fun v => Q v \/ exists k, k ∈ l /\ collects k v)) as Hf.
  { induction l as [|x l IH]; intros acc Q Hl Hm; cbn [fold_left].
    - eapply holds_records_ext; [|done]. intros v. set_solver.
    - eapply holds_records_ext; [|apply IH; [set_solver|apply collectOne_holds; [done|set_solver]]].
      intros v. simpl. set_solver. }
  eapply holds_records_ext; [|apply (Hf _ _ (fun _ => False))].
  - intros v. simpl. setoid_rewrite elem_of_order. naive_solver.
  - intros k. by rewrite elem_of_order.
  - intros v i. simpl. rewrite lookup_empty. naive_solver.
Qed.

(** An unsafe record is an entry of the state: the record of a null pointer is unknown. *)
Lemma unsafe_record_registered v i :
  infoOf M uninit s v = Some i -> unsafe_class (classification i) -> Variables s !! v = Some i.
Proof using Type. clear.
  assert (kindOf M v = KConstantPointerNull \/ kindOf M v <> KConstantPointerNull) as [Hk|Hk]
    by (destruct (kindOf M v); auto; by right); [|by rewrite infoOf_variable].
  unfold infoOf, GetPointerVariableInfo. rewrite Hk. simpl. intros [= <-] [|]; done.
Qed.
End Collection.

(** ** The report *)
Section Report.
Context {KO : KeyOrder} {orderValues : SetOrder value} {orderNodes : SetOrder positive}
  {orderTypes : SetOrder EdgeType} {orderSets : SetOrder (gset value)}.
Variable M : IRModule.
Variable P : SVF.
Variable pdgraph : GenericGraph.
Variable uninit : VariableInfo.
Variable isAllocationFn : value -> bool.
Variable TLI : bool.
Variable DOM : dominated M.

(** The pointers the report may name: the registered heap pointers, and the
    aliases the pass looks up for one of them, again and again. *)
Inductive heapRelated (s : AnalysisState) : value -> Prop :=
| related_pointer k : k ∈ dom (Variables s) -> isPtrToHeap M P isAllocationFn TLI k = true -> heapRelated s k
| related_alias k node v : heapRelated s k -> getNode pdgraph k = Some node ->
    lookedUp M P pdgraph DOM k node v -> heapRelated s v.

Section Walk.
Variable s : AnalysisState.
Hypothesis Hinsts : forall f i, i ∈ instructions M f -> isInstruction M i = true.
Variable Q : value -> Prop.
Hypothesis HQ : forall k node v, Q k -> getNode pdgraph k = Some node -> lookedUp M P pdgraph DOM k node v -> Q v.

Lemma recordAliases_heap l h :
  (forall v, v ∈ dom (hs_heap h) -> Q v) -> (forall v, v ∈ l -> Q v) ->
  forall v, v ∈ dom (hs_heap (fold_left (recordAlias M uninit s) l h)) -> Q v.
Proof using Type.
  clear. revert h. induction l as [|x l IH]; intros h Hh Hl; cbn [fold_left]; [done|].
  apply IH; [|set_solver]. intros v. unfold recordAlias. destruct (infoOf M uninit s x) as [i|]; [|by apply Hh].
  destruct (classification i); simpl; rewrite ?dom_insert_L; set_solver.
Qed.

Lemma unsafeLoop_heap n cur h h' :
  heap_ok M uninit s h ->
  (forall v, v ∈ dom (hs_heap h) -> Q v) -> unsafeLoop M P pdgraph uninit DOM n s cur h = Some h' ->
  forall v, v ∈ dom (hs_heap h') -> Q v.
Proof.
  revert cur h. induction n as [|n IH]; intros cur h Hok Hh; cbn [unsafeLoop]; [done|].
  destruct (nextKey cur (dom (hs_unique h))) as [k|] eqn:Hk; [|by intros [= <-]].
  destruct (visitUnsafe_ok M P pdgraph uninit DOM s Hinsts k h Hok) as (Hok' & _).
  apply IH; [done|]. unfold visitUnsafe. destruct (isInstruction M k); [|done].
  destruct (getNode pdgraph k) as [node|] eqn:Hn; [|done]. simpl.
  apply recordAliases_heap; [done|]. intros v Hv%elem_of_order. eapply (HQ k node); [|done|].
  - apply nextKey_spec in Hk as (Hin & _). apply Hh. apply elem_of_dom in Hin as [i Hi].
    apply (ok_unique _ _ _ _ Hok) in Hi as [_ Hi]. apply elem_of_dom. exists i.
    eapply lookup_weaken; [exact Hi|apply (ok_unsafe _ _ _ _ Hok)].
  - apply elem_of_unsafeAliases in Hv. unfold lookedUp. rewrite elem_of_rootAliases. tauto.
Qed.
End Walk.

Context {orderObjs : SetOrder Z}.
Abbreviation heapReport := (heapReport M P pdgraph uninit isAllocationFn TLI DOM).

(** What the report holds, for enough fuel. *)
Record report_ok (s : AnalysisState) (h : HeapSets) : Prop := {
  report_sets : heap_ok M uninit s h;
  report_disjoint : forall k, k ∈ dom (hs_alias h) -> k ∉ dom (hs_unique h);
  report_related : forall v, v ∈ dom (hs_heap h) -> heapRelated s v;
  report_pointers : forall k v i, k ∈ dom (Variables s) -> collects M P pdgraph isAllocationFn TLI DOM k v ->
    infoOf M uninit s v = Some i ->
    hs_heap h !! v = Some i /\ (unsafe_class (classification i) -> recorded h v i);
  report_aliases : forall k i node v j, Variables s !! k = Some i -> unsafe_class (classification i) ->
    isPtrToHeap M P isAllocationFn TLI k = true -> getNode pdgraph k = Some node ->
    lookedUp M P pdgraph DOM k node v -> isInstruction M v = true -> Variables s !! v = Some j ->
    recorded h v j }.

Lemma heapReport_ok fuel edgeTypes s aliasedSeq aliasedDyn :
  (forall f i, i ∈ instructions M f -> isInstruction M i = true) -> size (dom (Variables s)) < fuel ->
  exists r, heapReport fuel edgeTypes s ∅ aliasedSeq aliasedDyn = Some r /\ report_ok s (hr_sets r).
Proof.
  intros Hinsts Hfuel. unfold Uriah.heapReport.
  pose proof (collectHeapPointers_holds M P pdgraph uninit isAllocationFn TLI DOM s edgeTypes ∅) as Hc.
  destruct (collectHeapPointers M P pdgraph uninit isAllocationFn TLI DOM edgeTypes s ∅ ∅) as [m nodes]. simpl in Hc.
  assert (from_state M uninit s m) as Hm by (intros v i Hv; by apply Hc).
  destruct (identifyHeapObjectClassification_ok M uninit s m Hm) as (Hok & Heq & Hrec).
  set (h0 := identifyHeapObjectClassification M (HS m ∅ ∅ ∅ ∅ ∅ ∅)) in *.
  assert (forall k i, hs_unique h0 !! k = Some i -> Variables s !! k = Some i) as Hreg.
  { intros k i Hk. apply (unsafe_record_registered M uninit); [by apply (ok_unsafe_from _ _ _ h0 Hok)|by apply (ok_unique _ _ _ _ Hok _ _ Hk)]. }
  destruct (unsafeLoop_ok M P pdgraph uninit DOM s Hinsts fuel None h0 (dom (Variables s))) as (h & Hr & Hok' & Hle & Hd & Hal);
    [done| |done| |].
  { intros k [i Hk]%elem_of_dom. by eapply elem_of_dom_2, Hreg. }
  { eapply Nat.le_lt_trans; [apply subseteq_size|exact Hfuel]. set_solver. }
  unfold identifyAndClassifyUnsafeHeapObjects. rewrite Hr. simpl. eexists. split; [done|]. simpl.
  change (HS (hs_heap h) (hs_unique h) ?a (hs_unsafe h) (hs_seq h) (hs_dyn h) (hs_dynPtr h)) with (with_alias a h).
  split; simpl.
  - apply with_alias_ok; [|done]. intros k i [Hk _]%map_lookup_filter_Some. by apply (ok_alias _ _ _ _ Hok').
  - intros k [i [_ Hn]%map_lookup_filter_Some]%elem_of_dom. by apply not_elem_of_dom.
  - apply (unsafeLoop_heap s Hinsts (heapRelated s) (related_alias s) fuel None h0 h Hok); [|exact Hr].
    intros v [i Hv]%elem_of_dom. rewrite Heq in Hv. apply Hc in Hv as (_ & k & Hk & Hp & Hv).
    pose proof (related_pointer s k Hk Hp). destruct Hv as [->|(node & Hn & Hv)]; [done|by eapply related_alias].
  - intros k v i Hk Hcol Hi. assert (m !! v = Some i) as Hv by (apply Hc; eauto). split.
    + eapply lookup_weaken; [|apply (le_heap _ _ Hle)]. by rewrite Heq.
    + intros Hu. destruct (recorded_le _ _ _ _ Hle (Hrec _ _ Hv Hu)). by split.
  - intros k i node v j Hk Hu Hp Hn Hv Hvi Hj.
    assert (isInstruction M k = true) as Hki by (unfold Uriah.isPtrToHeap in Hp; by destruct (isInstruction M k)).
    assert (m !! k = Some i) as Hmk.
    { apply Hc. rewrite infoOf_instruction by done. split; [done|]. exists k. split; [by eapply elem_of_dom_2|]. split; auto. }
    assert (hs_unique h0 !! k = Some i) as Huk by by apply (Hrec _ _ Hmk Hu).
    destruct (Hal k node v j) as [H1 H2]; [by eapply elem_of_dom_2|done..| |done|by split].
    apply elem_of_unsafeAliases. destruct Hv as [Hv|Hv]; [by left|]. right. by apply elem_of_rootAliases.
Qed.
End Report.

(** ** The allocations nothing else aliases *)
Section NonAliased.
Context {orderValues : SetOrder value} {orderSets : SetOrder (gset value)} {orderObjs : SetOrder Z}.
Variable M : IRModule.
Variable P : SVF.
Variable DOM : dominated M.







End NonAliased.

(** ** The walk to the root *)
Section Roots.
Variable M : IRModule.
Variable DOM : dominated M.

Definition isRootOf (r v : value) : Prop := rtc (fun a b => rootStep M a = Some b) v r /\ rootStep M r = None.

Lemma isRootOf_unique r r' v : isRootOf r v -> isRootOf r' v -> r = r'.
Proof using Type.
  clear. intros [Hr Hn]. revert r'. induction Hr as [x|x y z Hxy Hyz IH]; intros r' [Hr' Hn'].
  - inversion Hr'; congruence.
  - inversion Hr' as [|? y' ? Hxy']; subst; [congruence|]. rewrite Hxy in Hxy'. injection Hxy' as <-.
    apply IH; [done|]. by split.
Qed.

Lemma getRootValue_isRootOf v : isRootOf (getRootValue M DOM v) v.
Proof.
  induction (DOM v) as [v _ IH]. rewrite getRootValue_step. destruct (rootStep M v) as [w|] eqn:Hw; [|by split].
  destruct (IH w (rootStep_operand M v w Hw)) as [Hr Hz]. split; [|done]. by eapply rtc_l.
Qed.
End Roots.

(** ** Properties *)

(** The keys ordered by their encoding. *)
Definition encodeOrder : KeyOrder.
Proof.
  refine {| key_lt x y := (encode x < encode y)%positive |}.
  - intros x y. apply _.
  - split; [intros x; apply Pos.lt_irrefl|intros x y z; apply Pos.lt_trans].
  - intros x y. destruct (Pos.lt_total (encode x) (encode y)) as [Hlt|[He|Hlt]].
    + by left.
    + right. left. by eapply encode_inj.
    + by right; right.
Defined.

(** [%1 = malloc 16; %2 = gep %1; %3 = load %2; %4 = malloc 16]. *)
Definition heapModule : IRModule := {|
  m_kind := fun p => match p with
    | 1%positive | 3%positive => KFunction | 2%positive => KBasicBlock
    | 11%positive | 14%positive => KInst (ICall (VRef 3) [VConstInt (mk 64 16)])
    | 12%positive => KInst (IGEP (TInt 8) (TInt 8) (VRef 11) [VRef 20])
    | 13%positive => KInst (ILoad (VRef 12))
    | _ => KArgument end;
  m_type := fun _ => TPtr (TInt 8);
  getName := fun v => if decide (v = VRef 3) then "malloc"%string else "main"%string;
  users := fun _ => []; functions := [VRef 1]; globals := [];
  blocks := fun f => if decide (f = VRef 1) then [VRef 2] else [];
  insts := fun bb => if decide (bb = VRef 2) then VRef <$> [11; 12; 13; 14]%positive else [];
  fargs := fun _ => []; getParent := fun _ => VRef 2; getBBParent := fun _ => VRef 1;
  isDeclaration := fun _ => false;
  getCalledFunction := fun v => if decide (v = VRef 11 \/ v = VRef 14) then Some (VRef 3) else None;
  predecessors := fun _ => []; stripPointerCasts := fun v => v; getFunctionNamed := fun _ => None |}.

Lemma heapModule_dominated : dominated heapModule.
Proof. dominated_refs. Qed.

Definition valueSVF : SVF := {|
  svfType := ty; svf_getPts := fun v => if decide (v = VRef 14) then [8%Z] else [7%Z];
  expandFIObjs := fun l => l; getBaseObj := fun o => o; gepBaseNode := fun _ => None;
  isHeap := fun _ => true; isStack := fun _ => false; isGlobalObj := fun _ => false;
  isFIObjVar := fun _ => true; isDummyObjVar := fun _ => false; pagNodes := [];
  nodeLLVMValue := fun _ => None; valueNodeOf := fun _ => Some 1%Z;
  objType := fun _ => None; ptrElementType := fun _ => None; arrayTypeSizes := fun _ => None;
  structByteSize := fun _ => None; svfType_eqb := fun a b => bool_decide (a = b) |}.

Definition heapGraph : GenericGraph :=
  graph (buildInsts heapModule (instructions heapModule (VRef 1)) (MkProgramGraph emptyGraph ∅ ∅)).

Definition with_class (c : VariableStates) : VariableInfo := VI c None false false false None false false ∅.

Definition heapState : AnalysisState := AS
  (list_to_map [(VRef 11, with_class Safe); (VRef 12, with_class Seq); (VRef 13, with_class Dyn); (VRef 14, with_class Safe)])
  1 64 0 0 0 0.

Definition heapRun : option HeapReport :=
  heapReport (KO := encodeOrder) (orderValues := elementsOrder _) (orderNodes := elementsOrder _)
    (orderTypes := elementsOrder _) (orderSets := elementsOrder _) (orderObjs := elementsOrder _)
    heapModule valueSVF heapGraph zeroInfo (fun _ => false) true heapModule_dominated 9 {[DATA_ALIAS]} heapState ∅ ∅ ∅.

Lemma heapModule_insts f i : i ∈ instructions heapModule f -> isInstruction heapModule i = true.
Proof.
  unfold instructions. simpl. destruct (decide (f = VRef 1)); simpl; [|set_solver].
  rewrite !elem_of_cons. intros [->|[->|[->|[->|[]%elem_of_nil]]]]; reflexivity.
Qed.



(** The report splits the unsafe heap pointers by class.  The sequential and the
    dynamic ones are exactly the unsafe pointers of that class, all registered, each with
    the state's record; the dynamic casts, which go on to the compatible-type analysis,
    are exactly the dynamic ones that are casts; no pointer is listed both as unsafe of
    its own and as unsafe by alias; and nothing is listed that is not a registered heap
    pointer or an alias of one, over any number of alias steps. *)
Theorem heap_report_split {KO : KeyOrder} {orderValues : SetOrder value} {orderNodes : SetOrder positive}
    {orderTypes : SetOrder EdgeType} {orderSets : SetOrder (gset value)} {orderObjs : SetOrder Z}
    M P pdgraph uninit isAllocationFn TLI DOM fuel edgeTypes s aliasedSeq aliasedDyn :
  (forall f i, i ∈ instructions M f -> isInstruction M i = true) -> size (dom (Variables s)) < fuel ->
  exists r, heapReport M P pdgraph uninit isAllocationFn TLI DOM fuel edgeTypes s ∅ aliasedSeq aliasedDyn = Some r /\
    let h := hr_sets r in
    (forall k i, hs_seq h !! k = Some i <-> hs_unique h !! k = Some i /\ classification i = Seq) /\
    (forall k i, hs_dyn h !! k = Some i <-> hs_unique h !! k = Some i /\ classification i = Dyn) /\
    (forall k i, hs_dynPtr h !! k = Some i <-> hs_dyn h !! k = Some i /\ isCastInst M k = true) /\
    (forall k i, hs_unique h !! k = Some i -> unsafe_class (classification i) /\ Variables s !! k = Some i) /\
    hs_unique h ⊆ hs_heap h /\ dom (hs_alias h) ## dom (hs_unique h) /\
    (forall v, v ∈ dom (hs_heap h) -> heapRelated M P pdgraph isAllocationFn TLI DOM s v).
Proof.
  intros Hinsts Hf. destruct (heapReport_ok M P pdgraph uninit isAllocationFn TLI DOM fuel edgeTypes s
    aliasedSeq aliasedDyn Hinsts Hf) as (r & Hr & [Hok Hdis Hrel _ _]). exists r. split; [done|].
  pose proof (ok_unsafe_from _ _ _ _ Hok) as [_ Hfu]. split_and!; [apply Hok..| | | |exact Hrel].
  - intros k i Hk. apply (ok_unique _ _ _ _ Hok) in Hk as Hu. split; [apply Hu|].
    apply (unsafe_record_registered M uninit); [by apply Hfu|apply Hu].
  - apply map_subseteq_spec. intros k i Hk. apply (ok_unique _ _ _ _ Hok) in Hk as [_ Hu].
    eapply lookup_weaken; [exact Hu|apply Hok].
  - intros k. apply Hdis.
Qed.

Lemma heap_report_split_witness :
  exists r, heapRun = Some r /\ hs_unique (hr_sets r) ⊆ hs_heap (hr_sets r).
Proof.
  destruct (heap_report_split (KO := encodeOrder) (orderValues := elementsOrder _)
    (orderNodes := elementsOrder _) (orderTypes := elementsOrder _) (orderSets := elementsOrder _)
    (orderObjs := elementsOrder _) heapModule valueSVF heapGraph zeroInfo (fun _ => false) true heapModule_dominated 9 {[DATA_ALIAS]}
    heapState ∅ ∅) as (r & Hr & _ & _ & _ & _ & Hs & _).
  - exact heapModule_insts.
  - vm_compute. lia.
  - exists r. split; [exact Hr|exact Hs].
Defined.



(** The over-approximated alias test is the common-root relation.  Every value has exactly
    one root, a value that is reached by steps and has none itself, and two values pass the
    test exactly when some value is a root of both. *)
Theorem queryAliasing_common_root M DOM :
  (forall v, exists! r, isRootOf M r v) /\
  (forall v w, queryAliasing M DOM v w = true <-> exists r, isRootOf M r v /\ isRootOf M r w).
Proof.
  pose proof (getRootValue_isRootOf M DOM) as Hroot. split.
  - intros v. exists (getRootValue M DOM v). split; [apply Hroot|]. intros r Hr. by eapply isRootOf_unique.
  - intros v w. unfold queryAliasing. rewrite bool_decide_eq_true. split.
    + intros He. exists (getRootValue M DOM v). split; [apply Hroot|]. rewrite He. apply Hroot.
    + intros (r & Hrv & Hrw). rewrite (isRootOf_unique M _ _ _ (Hroot v) Hrv). symmetry.
      by eapply isRootOf_unique.
Qed.

(** The walk goes on from an allocation to its size: two allocations of the same
    constant size count as aliases of each other, and neither is non-aliased. *)
Example equal_sizes_alias :
  queryAliasing heapModule heapModule_dominated (VRef 11) (VRef 14) = true /\
  (hr_nonAliased <$> heapRun) = Some ∅.
Proof. vm_compute. done. Qed.

(** The run's sets. *)
Example heapRun_sets :
  (match heapRun with
   | Some r => Some (hs_seq (hr_sets r) !! VRef 12, hs_dyn (hr_sets r) !! VRef 13, dom (hs_alias (hr_sets r)))
   | None => None end) = Some (Some (with_class Seq), Some (with_class Dyn), {[VRef 11; VRef 14]}).
Proof. vm_compute. done. Qed.

(** *** The address order matters *)

(** The opposite order of the keys. *)
Definition flipOrder (KO : KeyOrder) : KeyOrder.
Proof.
  refine {| key_lt x y := key_lt y x |}.
  - intros x y. apply key_lt_dec.
  - split; [intros x; exact (irreflexivity key_lt x)|intros x y z Hxy Hyz; by etrans].
  - intros x y. destruct (key_lt_total x y) as [|[|]]; auto.
Defined.

(** Four loads from different arguments, linked in a chain 12 - 11 - 13 - 14 by alias
    edges; only 12 points to the heap. *)
Definition chainModule : IRModule := {|
  m_kind := fun p => match p with
    | 1%positive => KFunction | 2%positive => KBasicBlock
    | 11%positive => KInst (ILoad (VRef 21)) | 12%positive => KInst (ILoad (VRef 22))
    | 13%positive => KInst (ILoad (VRef 23)) | 14%positive => KInst (ILoad (VRef 24))
    | _ => KArgument end;
  m_type := fun _ => TPtr (TInt 8); getName := fun _ => "main"%string;
  users := fun _ => []; functions := [VRef 1]; globals := [];
  blocks := fun f => if decide (f = VRef 1) then [VRef 2] else [];
  insts := fun bb => if decide (bb = VRef 2) then VRef <$> [11; 12; 13; 14]%positive else [];
  fargs := fun _ => []; getParent := fun _ => VRef 2; getBBParent := fun _ => VRef 1;
  isDeclaration := fun _ => false; getCalledFunction := fun _ => None;
  predecessors := fun _ => []; stripPointerCasts := fun v => v; getFunctionNamed := fun _ => None |}.

Lemma chainModule_dominated : dominated chainModule.
Proof. dominated_refs. Qed.

Definition chainSVF : SVF := {|
  svfType := ty; svf_getPts := fun v => if decide (v = VRef 12) then [7%Z] else [];
  expandFIObjs := fun l => l; getBaseObj := fun o => o; gepBaseNode := fun _ => None;
  isHeap := fun _ => true; isStack := fun _ => false; isGlobalObj := fun _ => false;
  isFIObjVar := fun _ => true; isDummyObjVar := fun _ => false; pagNodes := [];
  nodeLLVMValue := fun _ => None; valueNodeOf := fun _ => Some 1%Z;
  objType := fun _ => None; ptrElementType := fun _ => None; arrayTypeSizes := fun _ => None;
  structByteSize := fun _ => None; svfType_eqb := fun a b => bool_decide (a = b) |}.

Definition chainGraph : GenericGraph :=
  connectAliases chainModule (VRef 13) (VRef 14) (connectAliases chainModule (VRef 11) (VRef 13)
    (connectAliases chainModule (VRef 12) (VRef 11)
      (graph (buildInsts chainModule (instructions chainModule (VRef 1)) (MkProgramGraph emptyGraph ∅ ∅))))).

Definition chainState : AnalysisState := AS
  (list_to_map ((fun p => (VRef p, with_class Seq)) <$> [11; 12; 13; 14]%positive)) 1 64 0 0 0 0.

Definition chainSeq (KO : KeyOrder) : option (gset value) :=
  (fun r => dom (hs_seq (hr_sets r))) <$>
  heapReport (KO := KO) (orderValues := elementsOrder _) (orderNodes := elementsOrder _)
    (orderTypes := elementsOrder _) (orderSets := elementsOrder _) (orderObjs := elementsOrder _)
    chainModule chainSVF chainGraph zeroInfo (fun _ => false) false chainModule_dominated 9 {[DATA_ALIAS]} chainState ∅ ∅ ∅.

(** With 11 below 13 the walk still reaches 13, inserted when 11 is visited, and its
    alias 14 is reported; with 13 below 11 the walk has passed it, and 14 is missing. *)
Example alias_walk_depends_on_addresses :
  chainSeq encodeOrder = Some {[VRef 11; VRef 12; VRef 13; VRef 14]} /\
  chainSeq (flipOrder encodeOrder) = Some {[VRef 11; VRef 12; VRef 13]}.
Proof. vm_compute. done. Qed.
