(* ===== verification/DataGuard.v ===== *)
(** * Unsafe stack pointers ([DataGuard.cpp]) and the end of the pass ([UnifiedMemSafe.cpp])

    [identifyDifferentKindsOfUnsafeStackPointers] splits the classified pointers
    that live on the stack into sequential and dynamic ones, and hands the first
    to the value-range analysis and the casts among the second to the
    compatible-type analysis.  [markersToRemove] is the clean-up at the end of
    [runOnModule]. *)
From stdpp Require Import base gmap sets list option strings.
From Stdlib Require Import ZArith Lia.
From S2P Require Import Prelude APInt LLVM AnalysisState RangeTransfer PTA ValueRange CompatType MemSafe.

Section DataGuard.
Variable M : IRModule.
Variable DL : DataLayout.
Variable CF : ConstFold.
Variable P : SVF.
Variable O : VROptions.
Variable rpo : value -> list value.
Variable slotIsType : ty -> ty -> bool.
(** [isAllocationFn(V, TLI)] of LLVM's MemoryBuiltins. *)
Variable isAllocationFn : value -> bool.
Context {orderValues : SetOrder value}.

Definition doesPointToStack (v : value) : bool :=
  isInstruction M v &&
  negb (existsb (fun op => isAllocationFn op || isGlobalVariable M op) (operands M v)) &&
  negb (isAllocationFn v).

(** Node identifiers of the heap pointers. *)
Definition heapNodeIdSet (heapPointerSet : gmap value VariableInfo) : gset Z :=
  list_to_set (omap (fun kv => if hasValueNode P kv.1 then Some (getValueNode P kv.1) else None)
                 (map_to_list heapPointerSet)).

Definition totalStackPointerSet (heapPointerSet : gmap value VariableInfo) (TheState : AnalysisState) : gset value :=
  dom (filter (fun kv => isInstruction M kv.1 && hasValueNode P kv.1 && doesPointToStack kv.1 &&
                 negb (bool_decide (getValueNode P kv.1 ∈ heapNodeIdSet heapPointerSet)) = true)
         (Variables TheState)).

(** The entry is reported as an unsafe stack pointer. *)
Definition isUnsafeStackPointer (v : value) (info : VariableInfo) : bool :=
  (bool_decide (classification info = Dyn) || bool_decide (classification info = Seq)) &&
  isInstruction M v && doesPointToStack v.

Definition unsafeStackPointerSet (s : AnalysisState) : gset value :=
  dom (filter (fun kv => isUnsafeStackPointer kv.1 kv.2 = true) (Variables s)).
Definition stackSeqPointerSet (s : AnalysisState) : gmap value VariableInfo :=
  filter (fun kv => isUnsafeStackPointer kv.1 kv.2 = true /\ classification kv.2 = Seq) (Variables s).
Definition stackDynPointerSet (s : AnalysisState) : gmap value VariableInfo :=
  filter (fun kv => isUnsafeStackPointer kv.1 kv.2 = true /\ classification kv.2 = Dyn) (Variables s).
Definition stackDynPtrSet (s : AnalysisState) : gmap value VariableInfo :=
  filter (fun kv => isCastInst M kv.1 = true) (stackDynPointerSet s).

Record StackReport := {
  sr_total : gset value;
  sr_unsafe : gset value;
  sr_seq : gmap value VariableInfo;
  sr_dyn : gmap value VariableInfo;
  sr_ranges : option VROut;
  sr_casts : option (gmap value VariableInfo);   (** [None]: the walk used an erased entry *)
}.

(** [None]: the points-to analysis has not run. *)
Definition identifyDifferentKindsOfUnsafeStackPointers (hasPTASetup : bool)
    (heapPointerSet : gmap value VariableInfo) (s : AnalysisState) (oow : gset value)
    (unsafeBB : gset value) (t : Tags) : option StackReport :=
  if hasPTASetup then
    Some {| sr_total := totalStackPointerSet heapPointerSet s;
            sr_unsafe := unsafeStackPointerSet s;
            sr_seq := stackSeqPointerSet s;
            sr_dyn := stackDynPointerSet s;
            sr_ranges := valueRangeAnalysis M DL CF P O rpo (stackSeqPointerSet s) s oow unsafeBB t;
            sr_casts := safeTypeCastAnalysis M DL slotIsType (stackDynPtrSet s) |}
  else None.

(** The marker calls [runOnModule] erases at its end. *)
Definition isRemovedMarker (v : value) : bool :=
  isCallInst M v &&
  match asmOf M v with
  | Some a =>
    (SFIOnly O && (String.eqb a MAGIC_ASM_BEGIN || String.eqb a MAGIC_ASM_END)) ||
    String.eqb a NORMAL_MAGIC_ASM_BEGIN || String.eqb a NORMAL_MAGIC_ASM_END
  | None => false
  end.
Definition markersToRemove : list value :=
  if DiffOnly O || SFIOnly O
  then filter (fun v => isRemovedMarker v = true) (functions M ≫= instructions M) else [].

(** ** Lemmas *)
Lemma elem_unsafe s v :
  v ∈ unsafeStackPointerSet s <->
  exists info, Variables s !! v = Some info /\ isUnsafeStackPointer v info = true.
Proof.
  unfold unsafeStackPointerSet. rewrite elem_of_dom. split.
  - intros [info Hi]. apply map_lookup_filter_Some in Hi as [? ?]. eauto.
  - intros (info & Hi & Hu). exists info. by apply map_lookup_filter_Some.
Qed.

Lemma unsafe_class_split v info :
  isUnsafeStackPointer v info = true -> classification info = Seq \/ classification info = Dyn.
Proof.
  unfold isUnsafeStackPointer. intros Hu. bool_prop. apply orb_true_iff in H as [?|?]; bool_prop; auto.
Qed.
End DataGuard.

(** ** Properties *)

(** The stack report is complete and split by class.  Every unsafe stack pointer
    is in exactly one of the sequential and the dynamic set, with its record from the
    classification; the sequential GEPs among them are split by the range analysis;
    and the casts left by the compatible-type analysis are dynamic stack pointers. *)
Theorem stack_report_split {orderValues : SetOrder value} M DL CF P O rpo slot isAlloc heap s oow ubb t r :
  identifyDifferentKindsOfUnsafeStackPointers M DL CF P O rpo slot isAlloc true heap s oow ubb t = Some r ->
  sr_unsafe r = dom (sr_seq r) ∪ dom (sr_dyn r) /\ dom (sr_seq r) ## dom (sr_dyn r) /\
  sr_seq r ⊆ Variables s /\ sr_dyn r ⊆ Variables s /\ (forall c, sr_casts r = Some c -> dom c ⊆ dom (sr_dyn r)) /\
  (forall v, v ∈ sr_unsafe r -> doesPointToStack M isAlloc v = true /\ isInstruction M v = true).
Proof.
  intros [= <-]. simpl. split_and!.
  - apply set_eq. intros v. rewrite elem_unsafe, elem_of_union, !elem_of_dom. unfold is_Some.
    setoid_rewrite map_lookup_filter_Some. simpl. split.
    + intros (info & Hi & Hu). destruct (unsafe_class_split _ _ _ _ Hu); [left|right]; eauto.
    + intros [(info & ? & ? & ?)|(info & ? & ? & ?)]; eauto.
  - intros v Hs Hd. apply elem_of_dom in Hs as [i Hi], Hd as [j Hj].
    apply map_lookup_filter_Some in Hi as [Hv [_ Hc]], Hj as [Hv' [_ Hc']]. simpl in *. congruence.
  - apply map_filter_subseteq.
  - apply map_filter_subseteq.
  - intros c Hc v [i Hi]%elem_of_dom. eapply analysis_lookup in Hi; [|exact Hc].
    apply map_lookup_filter_Some in Hi as [Hi _]. apply elem_of_dom. by eexists.
  - intros v (info & _ & Hu)%elem_unsafe. unfold isUnsafeStackPointer in Hu. by bool_prop.
Qed.

Lemma stack_report_split_witness :
  let s := with_vars {[VRef 3 := gepInfo]} initState in
  let r := {| sr_total := totalStackPointerSet gepModule gepSVF (fun _ => false) ∅ s;
              sr_unsafe := unsafeStackPointerSet gepModule (fun _ => false) s;
              sr_seq := stackSeqPointerSet gepModule (fun _ => false) s;
              sr_dyn := stackDynPointerSet gepModule (fun _ => false) s;
              sr_ranges := valueRangeAnalysis gepModule gepDL (Build_ConstFold (fun _ _ _ => false) (fun _ _ _ => VRef 9))
                 gepSVF plainOptions (blocks gepModule) (stackSeqPointerSet gepModule (fun _ => false) s) s ∅ ∅ (TG ∅ ∅);
              sr_casts := safeTypeCastAnalysis (orderValues := elementsOrder _) gepModule gepDL (fun _ _ => false)
                 (stackDynPtrSet gepModule (fun _ => false) s) |} in
  sr_unsafe r = {[VRef 3]} /\ sr_unsafe r = dom (sr_seq r) ∪ dom (sr_dyn r).
Proof.
  intros s r. split; [vm_compute; reflexivity|].
  apply (stack_report_split (orderValues := elementsOrder _) gepModule gepDL (Build_ConstFold (fun _ _ _ => false) (fun _ _ _ => VRef 9))
    gepSVF plainOptions (blocks gepModule) (fun _ _ => false) (fun _ => false) ∅ s ∅ ∅ (TG ∅ ∅) r).
  reflexivity.
Defined.

(** The clean-up erases exactly the inserted fences of the mode.  A call to one of
    the markers this run fences with is erased when it is a normal marker (with
    [-use-pc]) or the run is SFI-only; a call to any other assembly string stays. *)
Theorem markers_removed_exactly M O v a :
  v ∈ (functions M ≫= instructions M) -> isCallInst M v = true -> asmOf M v = Some a ->
  (v ∈ markersToRemove M O <->
   (SFIOnly O = true \/ DiffOnly O = true) /\
   (a = NORMAL_MAGIC_ASM_BEGIN \/ a = NORMAL_MAGIC_ASM_END \/
    (SFIOnly O = true /\ (a = MAGIC_ASM_BEGIN \/ a = MAGIC_ASM_END)))).
Proof.
  intros Hin Hc Ha. unfold markersToRemove, isRemovedMarker.
  destruct (DiffOnly O), (SFIOnly O); simpl;
    rewrite ?list_elem_of_filter, ?elem_of_nil, ?Hc, ?Ha, ?andb_true_l, ?orb_true_iff, ?String.eqb_eq;
    naive_solver.
Qed.

(** A call to a normal end marker; for examples. *)
Definition markerModule : IRModule := {|
  m_kind := fun p => match p with
    | 1%positive => KInst (ICall (VRef 7) [])
    | 7%positive => KInlineAsm NORMAL_MAGIC_ASM_END
    | _ => KOther end;
  m_type := fun _ => TVoid; getName := fun _ => String.EmptyString; users := fun _ => [];
  functions := [VRef 8]; globals := [];
  blocks := fun _ => [VRef 9]; insts := fun _ => [VRef 1]; fargs := fun _ => []; getParent := fun _ => VRef 9;
  getBBParent := fun _ => VRef 8; isDeclaration := fun _ => false; getCalledFunction := fun _ => None;
  predecessors := fun _ => []; stripPointerCasts := fun v => v; getFunctionNamed := fun _ => None |}.

Lemma markers_removed_exactly_witness :
  VRef 1 ∈ markersToRemove markerModule (Build_VROptions "main" false false true false false).
Proof.
  apply (markers_removed_exactly markerModule (Build_VROptions "main" false false true false false) (VRef 1)
    NORMAL_MAGIC_ASM_END); [apply list_elem_of_In; vm_compute; tauto | reflexivity | reflexivity |].
  split; [by right|]. right. by left.
Defined.
