(* ===== verification/OutOfWindow.v ===== *)
(** * Out-of-window analysis ([OutOfWindow.cpp])

    Starting from every branch, indirect call and recursive call, [explore]
    walks the next [windowSize] instructions along the control flow, entering
    calls and returning from them, and takes what it meets out of the set of
    out-of-window instructions.  An iterator is a block and the instructions
    left in it.  LLVM's call graph is a parameter.  The recursion cache is not
    modelled: it stores the value of a function of the fixed call graph. *)
From stdpp Require Import base gmap sets list option strings relations.
From Stdlib Require Import ZArith Lia.
From S2P Require Import Prelude APInt LLVM.

(** What the pass asks of LLVM besides the module. *)
Record CallGraphServices := {
  cgCallees : value -> list (option value);   (* callees of a node; null for unknown ones *)
  isIntrinsic : value -> bool;
}.

Section OOW.
Variable M : IRModule.
Variable G : CallGraphServices.
Variable windowSize : Z.

(** *** Recursion test *)

(** The callees [dfs] follows from a function. *)
Definition followed (f : value) : list value :=
  if isIntrinsic G f then []
  else omap (fun c => match c with
                      | Some g => if isDeclaration M g then None else Some g
                      | None => None end) (cgCallees G f).

(** The loop of [dfs] over the callees; the result carries the visited set the
    reference parameter ends with. *)
Fixpoint dfsList (rec : value -> gset value -> option (bool * gset value)) (target : value)
    (l : list value) (visited : gset value) : option (bool * gset value) :=
  match l with
  | [] => Some (false, visited)
  | c :: l =>
    if decide (c = target) then Some (true, visited)
    else
      '(b, visited) ← rec c visited;
      if (b : bool) then Some (true, visited) else dfsList rec target l visited
  end.

Fixpoint dfs (fuel : nat) (target current : value) (visited : gset value) : option (bool * gset value) :=
  match fuel with
  | O => None
  | S n =>
    if decide (current ∈ visited) then Some (false, visited)
    else dfsList (dfs n target) target (followed current) ({[current]} ∪ visited)
  end.

Variable dfsFuel : nat.

Definition isRecursive (f : value) : bool :=
  match dfs dfsFuel f f ∅ with Some (b, _) => b | None => false end.

(** *** Distances inside a function *)

(** The position of the last occurrence of [x], 0 if there is none. *)
Fixpoint posFrom (l : list value) (x : value) (pos found : Z) : Z :=
  match l with
  | [] => found
  | y :: l => posFrom l x (pos + 1) (if decide (y = x) then pos else found)
  end.
Definition posOf (bb x : value) : Z := posFrom (insts M bb) x 0 0.
Definition blockSize (bb : value) : Z := Z.of_nat (length (insts M bb)).

(** Enqueue the unvisited successors with their distance. *)
Fixpoint enqueue (ss : list value) (dist : Z) (visited : gset value) (q : list (value * Z))
    : gset value * list (value * Z) :=
  match ss with
  | [] => (visited, q)
  | s :: ss =>
    if decide (s ∈ visited) then enqueue ss dist visited q
    else enqueue ss dist ({[s]} ∪ visited) (q ++ [(s, (dist + blockSize s)%Z)])
  end.

(** The search: the distance recorded for [useBB], [None] when it is not reached. *)
Fixpoint bfs (fuel : nat) (useBB : value) (visited : gset value) (q : list (value * Z)) : option (option Z) :=
  match fuel with
  | O => None
  | S n =>
    match q with
    | [] => Some None
    | (bb, dist) :: q =>
      if decide (bb = useBB) then Some (Some dist)
      else let '(visited, q) := enqueue (successors M bb) dist visited q in bfs n useBB visited q
    end
  end.

Definition isOutsideWindow (fuel : nat) (def use : value) : option bool :=
  let defBB := getParent M def in
  let useBB := getParent M use in
  if decide (defBB = useBB) then Some (windowSize <? posOf defBB use - posOf defBB def)%Z
  else
    r ← bfs fuel useBB {[defBB]} [(defBB, 0%Z)];
    match r with
    | Some dist =>
      let totalDist := ((blockSize defBB - posOf defBB def - 1) + dist + posOf useBB use)%Z in
      Some (windowSize <? totalDist)%Z
    | None => Some true
    end.

(** *** [explore] *)
Record OOWState := OS {
  OOWInstructions : gset value;
  visitedInstructions : gset (option value * Z);
  callStack : list value;            (* the last element of the vector first *)
}.

Variable functionCallSiteMap : gmap value (list value).

Definition set_stack (c : list value) (s : OOWState) : OOWState :=
  OS (OOWInstructions s) (visitedInstructions s) c.
Definition visit (k : option value * Z) (s : OOWState) : OOWState :=
  OS (OOWInstructions s) ({[k]} ∪ visitedInstructions s) (callStack s).
Definition leave (i : value) (s : OOWState) : OOWState :=
  OS (OOWInstructions s ∖ {[i]}) (visitedInstructions s) (callStack s).

(** [++findInstructionIterator(call)] *)
Fixpoint after (l : list value) (i : value) : list value :=
  match l with
  | [] => []
  | x :: l => if decide (x = i) then l else after l i
  end.
Definition afterCall (call : value) : list value := after (insts M (getParent M call)) call.

Definition getSingleSuccessor (bb : value) : option value :=
  match successors M bb with [s] => Some s | _ => None end.

Definition startswith (p s : string) : bool := String.prefix p s.

(** How the walk goes on at an instruction. *)
Inductive move := Enter (b : value) | SkipDbg | Pass.
Definition callMove (i : value) : move :=
  if isCallBase M i then
    match getCalledFunction M i with
    | Some f =>
      if isRecursive f then Pass
      else if negb (isDeclaration M f) then
        match head (blocks M f) with Some b => Enter b | None => Pass end
      else if startswith "llvm.dbg." (getName M f) then SkipDbg else Pass
    | None => Pass
    end
  else Pass.

(** The call of an undefined function at the end of a block that may unwind. *)
Definition opaqueInvoke (bb : value) : option (value * value) :=
  match kindOf M (getTerminator M bb) with
  | KInst (IInvoke _ _ n u) =>
    match getCalledFunction M (getTerminator M bb) with
    | None => Some (n, u)
    | Some f => if isDeclaration M f then Some (n, u) else None
    end
  | _ => None
  end.

(** The walk stops at the end of a block with several ways on. *)
Definition stopsAtEnd (bb : value) : bool :=
  match kindOf M (getTerminator M bb) with
  | KInst (ISwitch _ _ _) => true
  | KInst (IBr (Some _) _) => true
  | _ => false
  end.

(** Explore after each call site of the finished function. *)
Fixpoint exploreCallers (explore : value -> list value -> Z -> OOWState -> option (Z * OOWState))
    (sites : list value) (stepFreeze : Z) (s : OOWState) : option (Z * OOWState) :=
  match sites with
  | [] => Some (stepFreeze, s)
  | cs :: sites =>
    if isRecursive (getFunction M cs) then exploreCallers explore sites stepFreeze s
    else
      match kindOf M cs with
      | KInst (ICall _ _) =>
        '(_, s) ← explore (getParent M cs) (afterCall cs) stepFreeze s;
        exploreCallers explore sites stepFreeze (set_stack [] s)
      | KInst (IInvoke _ _ n u) =>
        '(_, s) ← explore n (insts M n) stepFreeze s;
        let s := set_stack [] s in
        if decide (u = n) then exploreCallers explore sites stepFreeze s
        else
          '(_, s) ← explore u (insts M u) stepFreeze s;
          exploreCallers explore sites stepFreeze (set_stack [] s)
      | _ => exploreCallers explore sites stepFreeze s
      end
  end.

(** The end of a block: stop, go on in another block ([inl]), or finish ([inr]). *)
Definition atBlockEnd (explore : value -> list value -> Z -> OOWState -> option (Z * OOWState))
    (bb : value) (step : Z) (s : OOWState)
    : option ((value * list value * Z * OOWState) + (Z * OOWState)) :=
  if stopsAtEnd bb then Some (inr (step, s))
  else
    match opaqueInvoke bb with
    | Some (n, u) =>
      let old := callStack s in
      '(_, s) ← explore n (insts M n) (step + 1)%Z s;
      let s := set_stack old s in
      if decide (u = n) then Some (inr (step, s))
      else r ← explore u (insts M u) step s; Some (inr r)
    | None =>
      match getSingleSuccessor bb with
      | Some nb => Some (inl (nb, insts M nb, step, s))
      | None =>
        match callStack s with
        | [] =>
          if isRecursive (getBBParent M bb) then Some (inr (step, s))
          else
            match functionCallSiteMap !! getBBParent M bb with
            | None => Some (inr (step, s))
            | Some sites => r ← exploreCallers explore sites step s; Some (inr r)
            end
        | target :: stack =>
          match kindOf M target with
          | KInst (ICall _ _) =>
            Some (inl (getParent M target, afterCall target, step, set_stack stack s))
          | KInst (IInvoke _ _ n u) =>
            '(_, s) ← explore n (insts M n) step (set_stack stack s);
            let s := set_stack stack s in
            if decide (u = n) then Some (inr (step, s))
            else r ← explore u (insts M u) step s; Some (inr r)
          | _ => Some (inr (step, s))
          end
        end
      end
    end.

(** [explore] ([start = true]: with its test of the visited pairs) and its loop. *)
Fixpoint explore (fuel : nat) (start : bool) (bb : value) (rest : list value) (step : Z) (s : OOWState)
    : option (Z * OOWState) :=
  match fuel with
  | O => None
  | S n =>
    if start then
      let key := (head rest, step) in
      if decide (key ∈ visitedInstructions s) then Some (step, s)
      else explore n false bb rest step (visit key s)
    else if (step <? windowSize)%Z then
      match rest with
      | [] =>
        r ← atBlockEnd (explore n true) bb step s;
        match r with
        | inl (bb, rest, step, s) => explore n false bb rest step s
        | inr r => Some r
        end
      | i :: rest =>
        match callMove i with
        | Enter b => explore n false b (insts M b) (step + 1)%Z (set_stack (i :: callStack s) s)
        | SkipDbg => explore n false bb rest step s
        | Pass => explore n false bb rest (step + 1)%Z (leave i s)
        end
      end
    else Some (step, s)
  end.

(** [analyzeFunction]: calls that act as branches, then the branches. *)
Definition exploreFrom (fuel : nat) (bb : value) (rest : list value) (s : OOWState) : option OOWState :=
  snd <$> explore fuel true bb rest 0 s.

Definition branchTargets (bb : value) : list value :=
  match kindOf M (getTerminator M bb) with
  | KInst (IBr (Some _) succs) => succs
  | KInst (ISwitch _ _ cases) => cases
  | _ => []
  end.

Definition callActsAsBranch (i : value) : bool :=
  isCallBase M i &&
  match getCalledFunction M i with Some f => isRecursive f | None => true end.

Fixpoint exploreCalls (fuel : nat) (bb : value) (rest : list value) (s : OOWState) : option OOWState :=
  match rest with
  | [] => Some s
  | i :: l =>
    s ← (if callActsAsBranch i then exploreFrom fuel bb rest s else Some s);
    exploreCalls fuel bb l s
  end.

Definition foldM {A} (f : A -> OOWState -> option OOWState) (l : list A) (s : OOWState) : option OOWState :=
  fold_left (fun r a => s ← r; f a s) l (Some s).

Definition analyzeFunction (fuel : nat) (f : value) (s : OOWState) : option OOWState :=
  if isDeclaration M f then Some s
  else
    s ← foldM (fun bb s => exploreCalls fuel bb (insts M bb) s) (blocks M f) s;
    foldM (fun bb s =>
      foldM (fun t s => s ← exploreFrom fuel t (insts M t) s; Some (set_stack [] s)) (branchTargets bb) s)
      (blocks M f) s.

(** *** [runOnModule] *)

(** The queue of functions; a function already visited is not queued again. *)
Definition calledFunctions (f : value) : list value := omap (getCalledFunction M) (filter (fun i => isCallBase M i = true) (instructions M f)).

Fixpoint functionLoop (iters fuel : nat) (queue : list value) (visitedFunctions : gset value) (s : OOWState)
    : option (gset value * OOWState) :=
  match iters with
  | O => None
  | S n =>
    match queue with
    | [] => Some (visitedFunctions, s)
    | f :: queue =>
      let visitedFunctions := {[f]} ∪ visitedFunctions in
      s ← analyzeFunction fuel f s;
      functionLoop n fuel
        (queue ++ filter (fun g => g ∉ visitedFunctions) (calledFunctions f)) visitedFunctions s
    end
  end.

(** The store definitions of a GEP's index variable, when the index is a load. *)
Definition indexOf (idxs : list value) : option value :=
  match idxs with [] => None | [i] => Some i | _ :: i :: _ => Some i end.
Definition indexAddress (index : value) : option value :=
  let load := match kindOf M index with
              | KInst (ICast SExt src) => src
              | _ => index end in
  match kindOf M load with
  | KInst (ILoad ptr) => if isInstruction M ptr then Some ptr else None
  | _ => None
  end.

(** [alwaysOutside]: some store was outside before the first one that is inside. *)
Fixpoint alwaysOutside (fuel : nat) (gep : value) (us : list value) (flag : bool) : option bool :=
  match us with
  | [] => Some flag
  | u :: us =>
    match kindOf M u with
    | KInst (IStore _ _) =>
      b ← isOutsideWindow fuel u gep;
      if (b : bool) then alwaysOutside fuel gep us true else Some flag
    | _ => alwaysOutside fuel gep us flag
    end
  end.

End OOW.

(** The tables built before the exploration. *)
Definition initOOW (M : IRModule) : OOWState :=
  OS (list_to_set (filter (fun i => isGEPInst M i = true) (functions M ≫= instructions M))) ∅ [].
Definition callSites (M : IRModule) : gmap value (list value) :=
  fold_left (fun m i =>
    match getCalledFunction M i with
    | Some f => if isCallBase M i && negb (isDeclaration M f)
                then <[f := default [] (m !! f) ++ [i]]> m else m
    | None => m
    end) (functions M ≫= instructions M) ∅.

Definition runOnModule (M : IRModule) (G : CallGraphServices) (windowSize : Z) (EntryFunction : string)
    (dfsFuel iters fuel : nat) : option (gset value) :=
  match getFunctionNamed M EntryFunction with
  | None => Some ∅
  | Some mainFunction =>
    '(_, s) ← functionLoop M G windowSize dfsFuel (callSites M) iters fuel [mainFunction] ∅ (initOOW M);
    Some (OOWInstructions s)
  end.

(** ** The recursion test is exact *)
Section Recursion.
Variable M : IRModule.
Variable G : CallGraphServices.

Definition calls (f g : value) : Prop := g ∈ followed M G f.

(** [f] reaches a call of [t]. *)
Definition reaches_call (t f : value) : Prop := exists x, rtc calls f x /\ calls x t.

(** Everything newly visited has its callees visited, none of them [t]. *)
Definition explored (t : value) (V V' : gset value) : Prop :=
  V ⊆ V' /\ forall x y, x ∈ V' -> x ∉ V -> calls x y -> y <> t /\ y ∈ V'.

Lemma explored_trans t V1 V2 V3 : explored t V1 V2 -> explored t V2 V3 -> explored t V1 V3.
Proof.
  intros [Hs1 H1] [Hs2 H2]. split; [set_solver|]. intros x y Hx Hnx Hc.
  destruct (decide (x ∈ V2)); [destruct (H1 x y); set_solver|eauto].
Qed.

Context (W : gset value).
Hypothesis HW : forall f g, f ∈ W -> calls f g -> g ∈ W.

Lemma dfsList_spec rec t l V :
  (forall c V0, c ∈ l -> V ⊆ V0 -> exists b V', rec c V0 = Some (b, V') /\ V0 ⊆ V' /\
     (if b : bool then reaches_call t c else c ∈ V' /\ explored t V0 V')) ->
  exists b V', dfsList rec t l V = Some (b, V') /\ V ⊆ V' /\
    (if b : bool then exists c, c ∈ l /\ (c = t \/ reaches_call t c)
     else (forall c, c ∈ l -> c <> t /\ c ∈ V') /\ explored t V V').
Proof.
  revert V. induction l as [|c l IH]; intros V Hrec; simpl.
  { exists false, V. split_and!; [done..| |]; [set_solver|]. split; [done|]. set_solver. }
  destruct (decide (c = t)) as [->|Hct].
  { exists true, V. split_and!; [done..|]. exists t. split; [left|by left]. }
  destruct (Hrec c V) as (b & V1 & -> & Hs1 & Hb); [left|done|]. simpl.
  destruct b; [exists true, V1; split_and!; [done..|]; exists c; split; [left|by right]|].
  destruct (IH V1) as (b & V2 & -> & Hs2 & H2);
    [intros; apply Hrec; [by right|set_solver]|].
  exists b, V2. split_and!; [done|set_solver|]. destruct Hb as [Hc1 He1]. destruct b.
  - destruct H2 as (c' & ? & ?). exists c'. split; [by right|done].
  - destruct H2 as [Hl He2]. split; [|by eapply explored_trans].
    intros c' [->|Hc']%elem_of_cons; [split; [done|set_solver]|by apply Hl].
Qed.

Lemma dfs_spec n t c V :
  c ∈ W -> size (W ∖ V) < n ->
  exists b V', dfs M G n t c V = Some (b, V') /\ V ⊆ V' /\
    (if b : bool then reaches_call t c else c ∈ V' /\ explored t V V').
Proof.
  revert c V. induction n as [|n IH]; intros c V Hc Hn; [lia|]. simpl.
  destruct (decide (c ∈ V)) as [Hv|Hv].
  { exists false, V. split_and!; [done..|]. split; [done|]. set_solver. }
  pose proof (size_difference_insert W V c Hc Hv) as Hlt.
  destruct (dfsList_spec (dfs M G n t) t (followed M G c) ({[c]} ∪ V)) as (b & V' & -> & Hs & Hb).
  { intros c' V0 Hc' HV0. apply IH; [by eapply HW|].
    pose proof (size_difference_mono W _ _ HV0). lia. }
  exists b, V'. split_and!; [done|set_solver|]. destruct b.
  - destruct Hb as (c' & Hc' & [->|(x & Hx & Hxt)]).
    + exists c. split; [apply rtc_refl|done].
    + exists x. split; [|done]. by eapply rtc_l.
  - destruct Hb as [Hl [_ He]]. split; [set_solver|]. split; [set_solver|].
    intros x y Hx Hnx Hcall. destruct (decide (x = c)) as [->|Hxc]; [by apply Hl|].
    apply (He x y); set_solver.
Qed.

Lemma isRecursive_iff fuel f :
  f ∈ W -> size W < fuel -> isRecursive M G fuel f = true <-> reaches_call f f.
Proof.
  intros Hf Hn. unfold isRecursive.
  destruct (dfs_spec fuel f f ∅ Hf) as (b & V' & -> & _ & Hb); [by rewrite difference_empty_L|].
  destruct b; [done|]. destruct Hb as [Hin [_ He]]. split; [done|]. intros (x & Hr & Hx).
  assert (forall y, rtc calls f y -> y ∈ V') as Hcl.
  { apply rtc_ind_r; [done|]. intros y1 y2 _ Hc Hy1. by apply (He y1 y2); [|set_solver|]. }
  specialize (Hcl x Hr) as HxV.
  by destruct (He x f HxV ltac:(set_solver) Hx) as [? _].
Qed.
End Recursion.

(** ** The distance search *)
Section Distance.
Variable M : IRModule.

(** A walk from the end of block [a] to the end of block [b] over [d] instructions. *)
Inductive walk (a : value) : value -> Z -> Prop :=
| walk_here : walk a a 0
| walk_next b c d : walk a b d -> c ∈ successors M b -> walk a c (d + blockSize M c).

Definition flows (b c : value) : Prop := c ∈ successors M b.

Context (W : gset value).
Hypothesis HW : forall b c, b ∈ W -> flows b c -> c ∈ W.

Lemma enqueue_spec a b d ss V q V' q' :
  enqueue M ss d V q = (V', q') -> walk a b d -> (forall c, c ∈ ss -> c ∈ successors M b) ->
  (forall c, c ∈ ss -> c ∈ W) ->
  (forall x dx, (x, dx) ∈ q -> walk a x dx /\ x ∈ V) -> V ⊆ W ->
  V ⊆ V' /\ V' ⊆ W /\ (forall c, c ∈ ss -> c ∈ V') /\
  (exists add, q' = q ++ add /\ (forall x, x ∈ V' -> x ∈ V \/ x ∈ add.*1)) /\
  (forall x dx, (x, dx) ∈ q' -> walk a x dx /\ x ∈ V') /\
  length q' + size (W ∖ V') <= length q + size (W ∖ V).
Proof.
  intros He Hw Hss HsW. revert V q He. induction ss as [|c ss IH]; intros V q He Hq HV; simpl in He.
  { simplify_eq. split_and!; [done|done|set_solver| |done|lia]. exists []. rewrite app_nil_r. set_solver. }
  assert (forall c', c' ∈ ss -> c' ∈ successors M b /\ c' ∈ W) as Hss'
    by (intros; split; [apply Hss|apply HsW]; by right).
  destruct (decide (c ∈ V)) as [Hc|Hc].
  - destruct (IH ltac:(apply Hss') ltac:(apply Hss') V q He Hq HV) as (H1 & H2 & H3 & H4 & H5 & H6).
    split_and!; [done|done| |done|done|done]. intros c' [->|?]%elem_of_cons; [set_solver|by apply H3].
  - assert (c ∈ W) as HcW by (apply HsW; left).
    destruct (IH ltac:(apply Hss') ltac:(apply Hss') _ _ He) as (H1 & H2 & H3 & (add & -> & H4) & H5 & H6).
    { intros x dx [Hin|Hin%list_elem_of_singleton]%elem_of_app; [destruct (Hq _ _ Hin); set_solver|].
      simplify_eq. split; [|set_solver]. econstructor; [done|]. apply Hss. left. }
    { set_solver. }
    pose proof (size_difference_insert W V c HcW Hc) as Hlt. rewrite length_app in H6 |- *. simpl in *.
    split_and!; [set_solver|done| | |done|rewrite length_app in *; simpl in *; lia].
    + intros c' [->|?]%elem_of_cons; [set_solver|by apply H3].
    + exists ((c, (d + blockSize M c)%Z) :: add). split; [by rewrite <- app_assoc|].
      intros x Hx. destruct (H4 x Hx) as [?|?]; [|right; set_solver]. simpl. set_solver.
Qed.

Lemma bfs_spec fuel a u V q :
  (forall x dx, (x, dx) ∈ q -> walk a x dx /\ x ∈ V) -> V ⊆ W -> a ∈ V ->
  (forall x, x ∈ V -> x ∈ q.*1 \/ (x <> u /\ forall y, flows x y -> y ∈ V)) ->
  length q + size (W ∖ V) < fuel ->
  exists r, bfs M fuel u V q = Some r /\
    match r with Some d => walk a u d | None => ~ rtc flows a u end.
Proof.
  revert V q. induction fuel as [|n IH]; intros V q Hq HV Ha Hcl Hf; [lia|]. simpl.
  destruct q as [|[b d] q].
  { exists None. split; [done|]. intros Hr.
    assert (forall x, rtc flows a x -> x ∈ V) as Hin.
    { apply rtc_ind_r; [done|]. intros y z _ Hyz Hy. destruct (Hcl y Hy) as [Hn|[_ Hy']]; [set_solver|eauto]. }
    specialize (Hin u Hr). destruct (Hcl u Hin) as [Hn|[Hn _]]; [set_solver|done]. }
  destruct (Hq b d) as [Hw Hb]; [left|].
  destruct (decide (b = u)) as [->|Hbu]; [by exists (Some d)|].
  destruct (enqueue M (successors M b) d V q) as [V' q'] eqn:He.
  eapply enqueue_spec in He as (H1 & H2 & H3 & (add & -> & H4) & H5 & H6);
    [|exact Hw|done|by intros c Hc; apply (HW b); [apply HV|]| |done].
  2:{ intros x dx Hin. apply Hq. by right. }
  apply IH; [done|done|set_solver| |simpl in *; lia].
  intros x Hx. rewrite fmap_app. destruct (H4 x Hx) as [HxV|?]; [|left; set_solver].
  destruct (Hcl x HxV) as [Hxq|[Hxu Hxs]].
  - simpl in Hxq. apply elem_of_cons in Hxq as [->|Hxq]; [right|left; set_solver].
    split; [done|]. intros y Hy. by apply H3.
  - right. split; [done|]. intros y Hy. apply H1. by apply Hxs.
Qed.

Lemma isOutsideWindow_spec w def use :
  getParent M def ∈ W -> getParent M def <> getParent M use ->
  exists b, isOutsideWindow M w (S (S (size W))) def use = Some b /\
    if b then (~ rtc flows (getParent M def) (getParent M use)) \/
              exists d, walk (getParent M def) (getParent M use) d /\
                (w < (blockSize M (getParent M def) - posOf M (getParent M def) def - 1) + d +
                     posOf M (getParent M use) use)%Z
    else exists d, walk (getParent M def) (getParent M use) d /\
           ((blockSize M (getParent M def) - posOf M (getParent M def) def - 1) + d +
            posOf M (getParent M use) use <= w)%Z.
Proof.
  intros Hdef Hne. unfold isOutsideWindow. rewrite decide_False by done.
  destruct (bfs_spec (S (S (size W))) (getParent M def) (getParent M use) {[getParent M def]}
    [(getParent M def, 0%Z)]) as (r & -> & Hr).
  - intros x dx Hin%list_elem_of_singleton. simplify_eq. split; [constructor|set_solver].
  - set_solver.
  - set_solver.
  - intros x Hx. left. set_solver.
  - cbn [length]. pose proof (subseteq_size (W ∖ {[getParent M def]}) W ltac:(set_solver)). lia.
  - cbn [mbind option_bind]. destruct r as [d|]; [|by eexists; split; [done|]; left].
    eexists. split; [reflexivity|].
    match goal with |- context [(w <? ?x)%Z] => destruct (Z.ltb_spec w x) end; eauto.
Qed.
End Distance.

(** ** Exploring a stretch of code without calls into the module *)
Section Window.
Variable M : IRModule.
Variable G : CallGraphServices.
Variable windowSize : Z.
Variable dfsFuel : nat.
Variable sites : gmap value (list value).

Lemma leave_all (l : list value) i (s : OOWState) :
  OOWInstructions (leave i s) ∖ list_to_set l = OOWInstructions s ∖ list_to_set (i :: l).
Proof. simpl. set_solver. Qed.

Lemma explore_stretch fuel bb rest step s :
  Forall (fun i => callMove M G dfsFuel i = Pass) rest ->
  stopsAtEnd M bb = true \/ (windowSize <= step + Z.of_nat (length rest))%Z ->
  S (length rest) < fuel ->
  exists step', explore M G windowSize dfsFuel sites fuel false bb rest step s =
    Some (step', OS (OOWInstructions s ∖ list_to_set (take (Z.to_nat (windowSize - step)) rest))
                    (visitedInstructions s) (callStack s)).
Proof.
  intros Hp. revert step s rest Hp. induction fuel as [|n IH]; intros step s rest Hp Hend Hf; [lia|].
  cbn [explore]. destruct (Z.ltb_spec step windowSize) as [Hlt|Hge].
  2:{ replace (Z.to_nat (windowSize - step)) with 0 by lia. exists step. destruct s. simpl. by rewrite difference_empty_L. }
  destruct rest as [|i rest].
  { destruct Hend as [Hend|Hend]; [|simpl in Hend; lia]. unfold atBlockEnd. rewrite Hend.
    exists step. rewrite take_nil. destruct s. simpl. by rewrite difference_empty_L. }
  pose proof (Forall_inv Hp) as Hi. apply Forall_inv_tail in Hp. simpl in Hi. rewrite Hi.
  destruct (IH (step + 1)%Z (leave i s) rest Hp) as [step' Hstep'].
  - destruct Hend as [?|Hend]; [by left|right]. simpl length in Hend. lia.
  - simpl in Hf. lia.
  - exists step'. rewrite Hstep'. rewrite leave_all.
    replace (Z.to_nat (windowSize - step)) with (S (Z.to_nat (windowSize - (step + 1)))) by lia. reflexivity.
Qed.
End Window.

(** ** Properties *)

(** C18: the recursion test is exact.  With fuel for every function of a call-closed
    set, it answers true exactly when the function reaches, through calls of defined,
    non-intrinsic functions, a call of itself. *)
Theorem isRecursive_exact M G (W : gset value) fuel f :
  (forall f g, f ∈ W -> g ∈ followed M G f -> g ∈ W) -> f ∈ W -> size W < fuel ->
  isRecursive M G fuel f = true <-> exists x, rtc (calls M G) f x /\ f ∈ followed M G x.
Proof. intros HW Hf Hn. exact (isRecursive_iff M G W HW fuel f Hf Hn). Qed.

(** Two functions that call each other; for examples. *)
Definition pairGraph : CallGraphServices := {|
  cgCallees := fun f => if decide (f = VRef 1) then [None; Some (VRef 2)]
                        else if decide (f = VRef 2) then [Some (VRef 1)] else [];
  isIntrinsic := fun _ => false |}.

Lemma isRecursive_exact_witness :
  let M := simpleModule (fun _ => KFunction) (fun _ => TVoid) in
  isRecursive M pairGraph 3 (VRef 1) = true <->
  exists x, rtc (calls M pairGraph) (VRef 1) x /\ VRef 1 ∈ followed M pairGraph x.
Proof.
  intros M. apply (isRecursive_exact M pairGraph {[VRef 1; VRef 2]} 3 (VRef 1)).
  - intros f g Hf. apply elem_of_union in Hf as [->%elem_of_singleton| ->%elem_of_singleton];
      vm_compute; set_solver.
  - set_solver.
  - vm_compute. lia.
Defined.

(** A definition is called outside the window only with a reason.  For a store and
    a use in different blocks, the test returns; when it answers inside, there is a
    walk along the control flow whose length, counted as the code counts it (the rest
    of the defining block, every block entered in full, the use's offset), fits the
    window; when it answers outside, the use is unreachable or there is a walk that
    does not fit. *)
Theorem isOutsideWindow_justified M (W : gset value) w def use :
  (forall b c, b ∈ W -> c ∈ successors M b -> c ∈ W) ->
  getParent M def ∈ W -> getParent M def <> getParent M use ->
  exists b, isOutsideWindow M w (S (S (size W))) def use = Some b /\
    if b then (~ rtc (flows M) (getParent M def) (getParent M use)) \/
              exists d, walk M (getParent M def) (getParent M use) d /\
                (w < (blockSize M (getParent M def) - posOf M (getParent M def) def - 1) + d +
                     posOf M (getParent M use) use)%Z
    else exists d, walk M (getParent M def) (getParent M use) d /\
           ((blockSize M (getParent M def) - posOf M (getParent M def) def - 1) + d +
            posOf M (getParent M use) use <= w)%Z.
Proof. intros HW Hd Hne. exact (isOutsideWindow_spec M W HW w def use Hd Hne). Qed.

(** Blocks [VRef 8] (store [VRef 1], branch) and [VRef 9] (GEP [VRef 3], ret); for examples. *)
Definition twoBlocks : IRModule := {|
  m_kind := fun p => match p with
    | 1%positive => KInst (IStore (VConstInt (mk 64 0)) (VRef 5))
    | 2%positive => KInst (IBr None [VRef 9])
    | 3%positive => KInst (IGEP (TInt 8) (TInt 8) (VRef 5) [VRef 6])
    | 4%positive => KInst (IBr (Some (VRef 6)) [VRef 9; VRef 8])
    | 8%positive | 9%positive => KBasicBlock
    | _ => KOther end;
  m_type := fun _ => TVoid; getName := fun _ => String.EmptyString; users := fun _ => [];
  functions := [VRef 10]; globals := []; blocks := fun _ => [VRef 8; VRef 9];
  insts := fun b => if decide (b = VRef 8) then [VRef 1; VRef 2]
                    else if decide (b = VRef 9) then [VRef 3; VRef 4] else [];
  fargs := fun _ => []; getParent := fun i => if decide (i = VRef 1) then VRef 8 else VRef 9;
  getBBParent := fun _ => VRef 10; isDeclaration := fun _ => false; getCalledFunction := fun _ => None;
  predecessors := fun _ => []; stripPointerCasts := fun v => v; getFunctionNamed := fun _ => None |}.

Lemma isOutsideWindow_justified_witness :
  exists b, isOutsideWindow twoBlocks 200 4 (VRef 1) (VRef 3) = Some b /\
    if b then (~ rtc (flows twoBlocks) (VRef 8) (VRef 9)) \/
              exists d, walk twoBlocks (VRef 8) (VRef 9) d /\ (200 < (2 - 0 - 1) + d + 0)%Z
    else exists d, walk twoBlocks (VRef 8) (VRef 9) d /\ ((2 - 0 - 1) + d + 0 <= 200)%Z.
Proof.
  apply (isOutsideWindow_justified twoBlocks {[VRef 8; VRef 9]} 200 (VRef 1) (VRef 3)).
  - intros b c Hb. apply elem_of_union in Hb as [->%elem_of_singleton| ->%elem_of_singleton];
      vm_compute; set_solver.
  - vm_compute. set_solver.
  - vm_compute. discriminate.
Defined.

(** Exploration clears exactly the window.  From the start of a stretch that calls
    nothing it would enter and either ends in a branch or fills the window, the
    exploration ends and takes out of the out-of-window set exactly the first
    [windowSize - step] instructions, leaving the call stack as it was. *)
Theorem explore_clears_window M G w dfsFuel sites bb rest step s :
  Forall (fun i => callMove M G dfsFuel i = Pass) rest ->
  stopsAtEnd M bb = true \/ (w <= step + Z.of_nat (length rest))%Z ->
  (head rest, step) ∉ visitedInstructions s ->
  exists step', explore M G w dfsFuel sites (3 + length rest) true bb rest step s =
    Some (step', OS (OOWInstructions s ∖ list_to_set (take (Z.to_nat (w - step)) rest))
                    ({[(head rest, step)]} ∪ visitedInstructions s) (callStack s)).
Proof.
  intros Hp Hend Hv. change (3 + length rest) with (S (2 + length rest)). cbn [explore].
  rewrite decide_False by done.
  destruct (explore_stretch M G w dfsFuel sites (2 + length rest) bb rest step
    (visit (head rest, step) s) Hp Hend ltac:(lia)) as [step' Hs]. by exists step'.
Qed.

Lemma explore_clears_window_witness :
  let s := OS {[VRef 3; VRef 7]} ∅ [] in
  exists step', explore twoBlocks pairGraph 200 3 ∅ 5 true (VRef 9) [VRef 3; VRef 4] 0 s =
    Some (step', OS ({[VRef 3; VRef 7]} ∖ list_to_set (take 200 [VRef 3; VRef 4]))
                    ({[(Some (VRef 3), 0%Z)]} ∪ ∅) []).
Proof.
  intros s. apply (explore_clears_window twoBlocks pairGraph 200 3 ∅ (VRef 9) [VRef 3; VRef 4] 0 s).
  - repeat constructor.
  - left. reflexivity.
  - set_solver.
Defined.
