(* ===== verification/WindowEnds.v ===== *)
(** * The out-of-window analysis ends ([OutOfWindow.cpp])

    [explore] recurses at calls, returns and invokes and loops over instructions; the
    source guards the recursion with a set of visited (instruction, step) pairs and the
    loop with the size of the window.  Here: both are enough.  The measure of a call is
    the number of pairs not visited yet, that of the loop the steps left and the
    instructions of the block left; a debug call costs no step, so the loop relies on
    every block having an instruction that does. *)
From stdpp Require Import base gmap sets list option strings.
From Stdlib Require Import ZArith Lia.
From S2P Require Import Prelude APInt LLVM OutOfWindow.

Section Ends.
Variable M : IRModule.
Variable G : CallGraphServices.
Variable w : Z.
Variable dfsFuel : nat.
Variable sites : gmap value (list value).
Variable U : gset value.
Variable L : nat.

Abbreviation mv := (callMove M G dfsFuel).

(** An instruction that takes a step lies ahead. *)
Definition goesOn (rest : list value) : bool :=
  existsb (fun i => match mv i with SkipDbg => false | _ => true end) rest.

(** What the walk relies on: blocks are finite and do not end in a debug call; a call has
    its block's terminator behind it. *)
Record walk_ok : Prop := {
  wk_insts : forall bb i, i ∈ insts M bb -> i ∈ U;
  wk_len : forall bb, length (insts M bb) <= L;
  wk_next : forall bb s, s ∈ successors M bb -> goesOn (insts M s) = true;
  wk_entry : forall f b, head (blocks M f) = Some b -> goesOn (insts M b) = true;
  wk_invoke : forall i callee args n u, kindOf M i = KInst (IInvoke callee args n u) ->
    goesOn (insts M n) = true /\ goesOn (insts M u) = true;
  wk_after : forall i callee args, kindOf M i = KInst (ICall callee args) -> goesOn (afterCall M i) = true }.

(** A place to go on from. *)
Definition place (rest : list value) : Prop :=
  goesOn rest = true /\ Forall (fun i => i ∈ U) rest /\ length rest <= L.

(** *** Measures *)
Definition keys : gset (option value * Z) :=
  list_to_set ((Z.of_nat <$> seq 0 (S (Z.to_nat w))) ≫= fun st : Z => (fun i => (Some i, st)) <$> elements U).

Definition unvisited (s : OOWState) : nat := size (keys ∖ visitedInstructions s).

Definition loopLeft (rest : list value) (step : Z) : nat :=
  Z.to_nat (w - step) * (2 * L + 4) + length rest + (if goesOn rest then 0 else L + 2).

Definition loopMax : nat := Z.to_nat w * (2 * L + 4) + 2 * L + 3.

(** Enough fuel for any call of [explore]. *)
Definition exploreFuel : nat := S (size keys * S loopMax).

Lemma elem_keys i st : i ∈ U -> (0 <= st <= Z.max w 0)%Z -> (Some i, st) ∈ keys.
Proof.
  intros Hi Hst. apply elem_of_list_to_set, list_elem_of_bind. exists st. split.
  - apply list_elem_of_fmap. exists i. split; [done|]. by apply elem_of_elements.
  - apply list_elem_of_fmap. exists (Z.to_nat st). split; [lia|]. apply elem_of_seq. lia.
Qed.

Lemma unvisited_mono s s' : visitedInstructions s ⊆ visitedInstructions s' -> unvisited s' <= unvisited s.
Proof. intros Hs. unfold unvisited. apply subseteq_size. set_solver. Qed.

Lemma unvisited_visit k s : k ∈ keys -> k ∉ visitedInstructions s -> unvisited (visit k s) < unvisited s.
Proof. intros Hk Hv. unfold unvisited. apply subset_size. simpl. set_solver. Qed.

Lemma loopLeft_max rest step : (0 <= step)%Z -> length rest <= L -> loopLeft rest step <= loopMax.
Proof.
  intros Hs Hl. unfold loopLeft, loopMax.
  assert (Z.to_nat (w - step) * (2 * L + 4) <= Z.to_nat w * (2 * L + 4)) by (apply Nat.mul_le_mono_r; lia).
  destruct (goesOn rest); lia.
Qed.

Lemma loopLeft_block rest step : goesOn rest = true -> length rest <= L -> loopLeft rest step < loopLeft [] step.
Proof. intros Hg Hl. unfold loopLeft. rewrite Hg. simpl. lia. Qed.

Lemma loopLeft_skip i rest step : mv i = SkipDbg -> loopLeft rest step < loopLeft (i :: rest) step.
Proof. intros Hi. unfold loopLeft. simpl. rewrite Hi. simpl. lia. Qed.

Lemma loopLeft_step i rest rest' step :
  (step < w)%Z -> length rest' <= L ->
  loopLeft rest' (step + 1) < loopLeft (i :: rest) step.
Proof.
  intros Hs Hl. unfold loopLeft. simpl length.
  replace (Z.to_nat (w - step)) with (S (Z.to_nat (w - (step + 1)))) by lia. simpl Nat.mul.
  destruct (goesOn rest'), (goesOn (i :: rest)); lia.
Qed.

(** *** Places *)
Section Walk.
Hypothesis OK : walk_ok.

Lemma place_block bb : goesOn (insts M bb) = true -> place (insts M bb).
Proof. intros Hg. split_and!; [done| |apply OK]. apply Forall_forall. intros i Hi. by eapply wk_insts. Qed.

Lemma after_suffix l i : exists k, after l i = drop k l.
Proof.
  induction l as [|x l [k IH]]; [by exists 0|]. simpl. case_decide; [by exists 1|]. by exists (S k).
Qed.

Lemma place_after i callee args : kindOf M i = KInst (ICall callee args) -> place (afterCall M i).
Proof.
  intros Hk. split_and!; [by eapply wk_after| |].
  - unfold afterCall. destruct (after_suffix (insts M (getParent M i)) i) as [k ->].
    apply Forall_drop, Forall_forall. intros j Hj. by eapply wk_insts.
  - unfold afterCall. destruct (after_suffix (insts M (getParent M i)) i) as [k ->].
    rewrite length_drop. pose proof (wk_len OK (getParent M i)). lia.
Qed.

Lemma place_head rest step : place rest -> (0 <= step <= Z.max w 0)%Z -> (head rest, step) ∈ keys.
Proof.
  intros (Hg & HU & _) Hs. destruct rest as [|i rest]; [done|]. simpl. apply elem_keys; [|done]. by inversion HU.
Qed.

(** *** One call *)

(** A call that ends from every place, for states that have visited what [s0] has. *)
Definition ends (ex : value -> list value -> Z -> OOWState -> option (Z * OOWState)) (s0 : OOWState) : Prop :=
  forall bb rest step s, place rest -> (0 <= step <= Z.max w 0)%Z ->
    visitedInstructions s0 ⊆ visitedInstructions s ->
    exists step' s', ex bb rest step s = Some (step', s') /\ visitedInstructions s ⊆ visitedInstructions s'.

Lemma callers_end ex s0 l step s :
  ends ex s0 -> (0 <= step <= Z.max w 0)%Z -> visitedInstructions s0 ⊆ visitedInstructions s ->
  exists step' s', exploreCallers M G dfsFuel ex l step s = Some (step', s') /\
    visitedInstructions s ⊆ visitedInstructions s'.
Proof.
  intros He Hst. revert s. induction l as [|cs l IH]; intros s Hs; simpl; [by eexists _, _|].
  assert (forall s1, visitedInstructions s ⊆ visitedInstructions s1 ->
    exists step' s', exploreCallers M G dfsFuel ex l step s1 = Some (step', s') /\
      visitedInstructions s ⊆ visitedInstructions s') as Hgo.
  { intros s1 H1. destruct (IH s1) as (st & s' & ? & ?); [by etrans|]. exists st, s'. split; [done|by etrans]. }
  destruct (isRecursive M G dfsFuel (getFunction M cs)); [by apply Hgo|].
  destruct (kindOf M cs) as [| | | | | | | | |k|] eqn:Hk; try by apply Hgo.
  destruct k as [| | | | |callee args|callee args n u| | | | | | | | | ]; try by apply Hgo.
  - destruct (He (getParent M cs) (afterCall M cs) step s) as (st & s1 & -> & H1); [by eapply place_after|done..|].
    simpl. by apply Hgo.
  - destruct (wk_invoke OK _ _ _ _ _ Hk) as [Hn Hu].
    destruct (He n (insts M n) step s) as (st & s1 & -> & H1); [by apply place_block|done..|]. simpl.
    case_decide; [by apply Hgo|].
    destruct (He u (insts M u) step (set_stack [] s1)) as (st2 & s2 & -> & H2); [by apply place_block|done|by etrans|].
    simpl. apply Hgo. by etrans.
Qed.

Lemma invoke_ends ex s0 n u st1 st2 stack step s :
  ends ex s0 -> goesOn (insts M n) = true -> goesOn (insts M u) = true ->
  (0 <= st1 <= Z.max w 0)%Z -> (0 <= st2 <= Z.max w 0)%Z -> visitedInstructions s0 ⊆ visitedInstructions s ->
  exists r s', ('(_, s) ← ex n (insts M n) st1 s;
     let s := set_stack stack s in
     if decide (u = n) then Some (inr (step, s)) else r ← ex u (insts M u) st2 s; Some (inr r)) =
    Some (inr (A := value * list value * Z * OOWState) (r, s')) /\ visitedInstructions s ⊆ visitedInstructions s'.
Proof.
  intros He Hn Hu H1 H2 Hs. destruct (He n (insts M n) st1 s) as (st & s1 & -> & Hs1); [by apply place_block|done..|].
  simpl. case_decide; [by eexists _, _|].
  destruct (He u (insts M u) st2 (set_stack stack s1)) as (st' & s2 & -> & Hs2); [by apply place_block|done|by etrans|].
  simpl. eexists _, _. split; [done|by etrans].
Qed.

Lemma block_end_ends ex s0 bb step s :
  ends ex s0 -> (0 <= step)%Z -> (step < w)%Z -> visitedInstructions s0 ⊆ visitedInstructions s ->
  exists r, atBlockEnd M G dfsFuel sites ex bb step s = Some r /\
    match r with
    | inl (_, rest, step', s') => place rest /\ step' = step /\ visitedInstructions s' = visitedInstructions s
    | inr (_, s') => visitedInstructions s ⊆ visitedInstructions s'
    end.
Proof.
  intros He Hst Hlt Hs. unfold atBlockEnd. destruct (stopsAtEnd M bb); [by exists (inr (step, s))|].
  destruct (opaqueInvoke M bb) as [[n u]|] eqn:Ho.
  { unfold opaqueInvoke in Ho. destruct (kindOf M (getTerminator M bb)) as [| | | | | | | | |k|] eqn:Hk; try done.
    destruct k as [| | | | | |callee args n' u'| | | | | | | | | ]; try done.
    assert (n' = n /\ u' = u) as [-> ->] by (repeat case_match; by simplify_eq).
    destruct (wk_invoke OK _ _ _ _ _ Hk) as [Hn Hu].
    destruct (invoke_ends ex s0 n u (step + 1) step (callStack s) step s) as (r & s' & Hr & ?); [done|done|done|lia|lia|done|].
    exists (inr (r, s')). done. }
  destruct (getSingleSuccessor M bb) as [nb|] eqn:Hnb.
  { eexists. split; [done|]. split_and!; try done. apply place_block, (wk_next OK bb).
    unfold getSingleSuccessor in Hnb. destruct (successors M bb) as [|x [|]]; simplify_eq. left. }
  destruct (callStack s) as [|target stack].
  { destruct (isRecursive _ _ _ _); [by exists (inr (step, s))|]. destruct (sites !! _) as [l|]; [|by exists (inr (step, s))].
    destruct (callers_end ex s0 l step s) as (st & s' & -> & ?); [done|lia|done|]. simpl. by exists (inr (st, s')). }
  destruct (kindOf M target) as [| | | | | | | | |k|] eqn:Hk; try by exists (inr (step, s)).
  destruct k as [| | | | |callee args|callee args n u| | | | | | | | | ]; try by exists (inr (step, s)).
  - eexists. split; [done|]. split_and!; try done. by eapply place_after.
  - destruct (wk_invoke OK _ _ _ _ _ Hk) as [Hn Hu].
    destruct (invoke_ends ex s0 n u step step stack step (set_stack stack s)) as (r & s' & Hr & ?); [done|done|done|lia|lia|done|].
    exists (inr (r, s')). done.
Qed.

(** Fuel for the loop, or for a call. *)
Lemma explore_ends fuel : forall bb rest step s,
  (0 <= step <= Z.max w 0)%Z -> length rest <= L ->
  (place rest -> unvisited s * S loopMax < fuel ->
   exists step' s', explore M G w dfsFuel sites fuel true bb rest step s = Some (step', s') /\
     visitedInstructions s ⊆ visitedInstructions s') /\
  (unvisited s * S loopMax + loopLeft rest step < fuel ->
   exists step' s', explore M G w dfsFuel sites fuel false bb rest step s = Some (step', s') /\
     visitedInstructions s ⊆ visitedInstructions s').
Proof.
  induction fuel as [|n IH]; intros bb rest step s Hst Hl; [split; intros; lia|]. split.
  - intros Hp Hf. cbn [explore]. case_decide as Hv; [by eexists _, _|].
    pose proof (place_head rest step Hp Hst) as Hk.
    pose proof (unvisited_visit _ _ Hk Hv) as Hu. pose proof (loopLeft_max rest step ltac:(lia) Hl).
    destruct (IH bb rest step (visit (head rest, step) s) Hst Hl) as [_ (st & s' & -> & ?)].
    { assert (S (unvisited (visit (head rest, step) s)) * S loopMax <= unvisited s * S loopMax)
        by (apply Nat.mul_le_mono_r; lia). lia. }
    exists st, s'. split; [done|]. etrans; [|done]. simpl. set_solver.
  - intros Hf. cbn [explore]. destruct (Z.ltb_spec step w) as [Hlt|Hge]; [|by eexists _, _].
    destruct rest as [|i rest].
    + assert (ends (explore M G w dfsFuel sites n true) s) as He.
      { intros bb' rest' step' s' Hp' Hst' Hs'. apply (IH bb' rest' step' s'); [done|apply Hp'|done|].
        pose proof (unvisited_mono _ _ Hs'). assert (unvisited s' * S loopMax <= unvisited s * S loopMax)
          by (by apply Nat.mul_le_mono_r). unfold loopLeft in Hf. simpl in Hf. lia. }
      destruct (block_end_ends _ s bb step s He) as (r & -> & Hr); [lia..|done|]. simpl.
      destruct r as [[[[bb' rest'] step'] s']|[step' s']]; [|by eexists _, _].
      destruct Hr as (Hp & -> & Hs'). rewrite <- Hs'. apply (IH bb' rest' step s'); [done|apply Hp|].
      unfold unvisited in *. rewrite Hs'. pose proof (loopLeft_block rest' step (proj1 Hp) (proj2 (proj2 Hp))). lia.
    + simpl in Hl. destruct (mv i) as [b| |] eqn:Hi.
      * assert (place (insts M b)) as Hp.
        { apply place_block. unfold callMove in Hi. repeat case_match; simplify_eq. by eapply wk_entry. }
        apply (IH b (insts M b) (step + 1)%Z (set_stack _ s)); [lia|apply Hp|].
        pose proof (loopLeft_step i rest (insts M b) step Hlt (proj2 (proj2 Hp))).
        change (unvisited (set_stack (i :: callStack s) s)) with (unvisited s). lia.
      * apply (IH bb rest step s); [done|lia|]. pose proof (loopLeft_skip i rest step Hi). lia.
      * apply (IH bb rest (step + 1)%Z (leave i s)); [lia|lia|].
        pose proof (loopLeft_step i rest rest step Hlt ltac:(lia)).
        change (unvisited (leave i s)) with (unvisited s). lia.
Qed.

Lemma exploreFrom_ends bb rest s :
  place rest -> exists s', exploreFrom M G w dfsFuel sites exploreFuel bb rest s = Some s'.
Proof.
  intros Hp. destruct (explore_ends exploreFuel bb rest 0 s) as [(st & s' & Hr & _) _]; [lia|apply Hp|done| |].
  - unfold exploreFuel. assert (unvisited s <= size keys) by (unfold unvisited; apply subseteq_size; set_solver).
    pose proof (Nat.mul_le_mono_r _ _ (S loopMax) H). lia.
  - exists s'. unfold exploreFrom. by rewrite Hr.
Qed.

(** *** A function *)
Lemma foldM_ends {A} (f : A -> OOWState -> option OOWState) l s :
  (forall a s, a ∈ l -> exists s', f a s = Some s') -> exists s', foldM f l s = Some s'.
Proof.
  unfold foldM. revert s. induction l as [|a l IH]; intros s Hf; simpl; [by eexists|].
  destruct (Hf a s) as [s1 ->]; [left|]. apply IH. intros. apply Hf. by right.
Qed.

Lemma exploreCalls_ends bb l s :
  Forall (fun i => i ∈ U) l -> length l <= L -> exists s', exploreCalls M G w dfsFuel sites exploreFuel bb l s = Some s'.
Proof.
  revert s. induction l as [|i l IH]; intros s HU Hl; simpl; [by eexists|].
  apply Forall_cons in HU as HU'. destruct HU' as [Hi HU']. simpl in Hl.
  destruct (callActsAsBranch M G dfsFuel i) eqn:Hc; simpl; [|apply IH; [done|lia]].
  destruct (exploreFrom_ends bb (i :: l) s) as [s1 ->].
  { split_and!; [|done|done]. simpl. apply orb_true_iff. left. unfold callActsAsBranch in Hc. unfold callMove.
    destruct (isCallBase M i); [|done]. destruct (getCalledFunction M i); [|done]. simpl in Hc. by rewrite Hc. }
  simpl. apply IH; [done|lia].
Qed.

Lemma branchTargets_place bb t : t ∈ branchTargets M bb -> place (insts M t).
Proof.
  intros Ht. apply place_block, (wk_next OK bb). unfold branchTargets, successors in *.
  destruct (kindOf M (getTerminator M bb)) as [| | | | | | | | |k|]; try by apply elem_of_nil in Ht.
  destruct k; try by apply elem_of_nil in Ht.
  - destruct cond; [done|]. by apply elem_of_nil in Ht.
  - simpl. by right.
Qed.

Lemma analyzeFunction_ends f s : exists s', analyzeFunction M G w dfsFuel sites exploreFuel f s = Some s'.
Proof.
  unfold analyzeFunction. destruct (isDeclaration M f); [by eexists|].
  destruct (foldM_ends (fun bb s => exploreCalls M G w dfsFuel sites exploreFuel bb (insts M bb) s) (blocks M f) s)
    as [s1 ->].
  { intros bb s1 _. apply exploreCalls_ends; [|apply OK]. apply Forall_forall. intros i Hi. by eapply wk_insts. }
  simpl. apply foldM_ends. intros bb s2 _. apply foldM_ends. intros t s3 Ht.
  destruct (exploreFrom_ends t (insts M t) s3) as [s4 ->]; [by eapply branchTargets_place|]. by eexists.
Qed.

(** *** The queue of functions *)

(** A function that was visited while it waited is analysed again; its callees are queued
    again only while they are not visited.  So the functions not visited, then the waiting
    ones that are visited, become fewer. *)
Lemma functionLoop_ends (F : gset value) :
  (forall i g, getCalledFunction M i = Some g -> g ∈ F) ->
  forall queue V s, Forall (fun f => f ∈ F) queue ->
  exists iters r, forall m, functionLoop M G w dfsFuel sites (iters + m) exploreFuel queue V s = Some r.
Proof.
  intros HF queue V.
  remember (size (F ∖ V)) as a eqn:Ha. revert queue V Ha.
  induction a as [a IHa] using lt_wf_ind. intros queue V Ha.
  remember (length (filter (fun f => f ∈ V) queue)) as b eqn:Hb. revert queue Hb.
  induction b as [b IHb] using lt_wf_ind. intros queue Hb s HQ. subst a b.
  destruct queue as [|f queue]; [by exists 1; eexists|].
  destruct (analyzeFunction_ends f s) as [s1 Hs1]. apply Forall_cons in HQ as [Hf HQ].
  set (queue' := queue ++ filter (fun g => g ∉ {[f]} ∪ V) (calledFunctions M f)).
  assert (Forall (fun f => f ∈ F) queue') as HQ'.
  { apply Forall_app. split; [done|]. apply Forall_forall. intros g [_ Hg]%list_elem_of_filter.
    unfold calledFunctions in Hg. apply list_elem_of_omap in Hg as (i & _ & Hg). by eapply HF. }
  assert (exists iters r, forall m, functionLoop M G w dfsFuel sites (iters + m) exploreFuel queue' ({[f]} ∪ V) s1 = Some r)
    as (iters & r & Hr).
  2:{ exists (S iters), r. intros m. cbn [functionLoop plus]. rewrite Hs1. simpl. apply Hr. }
  destruct (decide (f ∈ V)) as [HV|HV].
  - assert ({[f]} ∪ V = V) as HV' by set_solver. unfold queue'. rewrite HV'. eapply IHb; [|reflexivity|].
    + rewrite filter_cons_True by done. rewrite filter_app, length_app. simpl.
      assert (filter (fun f => f ∈ V) (filter (fun g => g ∉ V) (calledFunctions M f)) = []) as ->; [|simpl; lia].
      apply elem_of_nil_inv. intros g [Hg [Hg' _]%list_elem_of_filter]%list_elem_of_filter. done.
    + unfold queue' in HQ'. by rewrite HV' in HQ'.
  - eapply IHa; [|reflexivity|done]. apply subset_size. set_solver.
Qed.
End Walk.
End Ends.

Lemma window_ends M G w dfsFuel entry U L (F : gset value) :
  walk_ok M G dfsFuel U L -> (forall i g, getCalledFunction M i = Some g -> g ∈ F) ->
  (forall f, getFunctionNamed M entry = Some f -> f ∈ F) ->
  exists iters oow, forall m,
    OutOfWindow.runOnModule M G w entry dfsFuel (iters + m) (exploreFuel w U L) = Some oow.
Proof.
  intros OK HF He. unfold runOnModule. destruct (getFunctionNamed M entry) as [f|] eqn:Hf; [|by exists 0; eexists].
  destruct (functionLoop_ends M G w dfsFuel (callSites M) U L OK F HF [f] ∅ (initOOW M)) as (iters & [V s] & Hr).
  { repeat constructor. by apply He. }
  exists iters, (OOWInstructions s). intros m. by rewrite Hr.
Qed.

(** ** Property *)

(** C17: the analysis ends.  For a module with finitely many instructions whose blocks
    end in an instruction that is no debug call, every call of [explore] needs at most
    [exploreFuel] nested steps, one per (instruction, step) pair and round of its loop,
    and the queue of functions empties, although a function may be analysed repeatedly. *)
Theorem window_analysis_ends M G w dfsFuel entry U L (F : gset value) :
  walk_ok M G dfsFuel U L -> (forall i g, getCalledFunction M i = Some g -> g ∈ F) ->
  (forall f, getFunctionNamed M entry = Some f -> f ∈ F) ->
  exists iters oow, forall m,
    OutOfWindow.runOnModule M G w entry dfsFuel (iters + m) (exploreFuel w U L) = Some oow.
Proof. apply window_ends. Qed.

(** A loop over two blocks, a branch and a GEP; for the example. *)
Definition loopWindow : IRModule := {|
  m_kind := fun p => match p with
    | 1%positive => KInst (IStore (VConstInt (mk 64 0)) (VRef 5))
    | 2%positive => KInst (IBr (Some (VRef 6)) [VRef 9; VRef 8])
    | 3%positive => KInst (IGEP (TInt 8) (TInt 8) (VRef 5) [VRef 6])
    | 4%positive => KInst (IBr None [VRef 8])
    | 8%positive | 9%positive => KBasicBlock
    | _ => KOther end;
  m_type := fun _ => TVoid; getName := fun _ => String.EmptyString; users := fun _ => [];
  functions := [VRef 10]; globals := [];
  blocks := fun f => if decide (f = VRef 10) then [VRef 8; VRef 9] else [];
  insts := fun b => if decide (b = VRef 8) then [VRef 1; VRef 2]
                    else if decide (b = VRef 9) then [VRef 3; VRef 4] else [];
  fargs := fun _ => []; getParent := fun i => if decide (i = VRef 1 \/ i = VRef 2) then VRef 8 else VRef 9;
  getBBParent := fun _ => VRef 10; isDeclaration := fun _ => false; getCalledFunction := fun _ => None;
  predecessors := fun _ => []; stripPointerCasts := fun v => v; getFunctionNamed := fun _ => Some (VRef 10) |}.

Lemma loopWindow_ok : walk_ok loopWindow pairGraph 3 {[VRef 1; VRef 2; VRef 3; VRef 4]} 2.
Proof.
  split.
  - intros bb i Hi. simpl in Hi. repeat case_decide; set_solver.
  - intros bb. simpl. repeat case_decide; simpl; lia.
  - intros bb s Hs. assert (s = VRef 8 \/ s = VRef 9) as [->| ->]; [|reflexivity..].
    revert Hs. unfold successors. generalize (getTerminator loopWindow bb). intros [c|p]; simpl; [by intros ?%elem_of_nil|].
    repeat case_match; simplify_eq; simpl; set_solver.
  - intros f b Hb. simpl in Hb. case_decide; simpl in Hb; simplify_eq. reflexivity.
  - intros [c|p] callee args n u Hk; simpl in Hk; [done|]. repeat case_match; done.
  - intros [c|p] callee args Hk; simpl in Hk; [done|]. repeat case_match; done.
Qed.

Lemma window_analysis_ends_witness :
  exists iters oow, forall m,
    OutOfWindow.runOnModule loopWindow pairGraph 200 "main" 3 (iters + m)
      (exploreFuel 200 {[VRef 1; VRef 2; VRef 3; VRef 4]} 2) = Some oow.
Proof.
  apply (window_analysis_ends loopWindow pairGraph 200 3 "main" {[VRef 1; VRef 2; VRef 3; VRef 4]} 2 {[VRef 10]}).
  - exact loopWindow_ok.
  - intros i g Hg. discriminate.
  - intros f [= <-]. by apply elem_of_singleton.
Defined.
