(* ===== verification/Pipeline.v ===== *)
(** * The whole pass ([UnifiedMemSafe.cpp], [runOnModule])

    [UnifiedMemSafePass::runOnModule] calls the parts in order: the classification, the
    heap report with a range analysis, the stack report with another, the removal of
    markers.  Both range analyses insert marker calls into the module, so the second one,
    and the removal, see the module the first one left: [withFences] is that module.

    A created call is a new value; [Created] gives their addresses, which LLVM's allocator
    chooses, and those of the inline assembly strings, which LLVM keeps once.  The users of
    an inline assembly string are never asked for, so created calls are not added to them.
    The static set [unsafeBB] and the metadata tags go from the first range analysis to
    the second. *)
From stdpp Require Import base gmap sets list option strings.
From Stdlib Require Import ZArith Lia.
From S2P Require Import Prelude APInt LLVM AnalysisState RangeDomain RangeTransfer Dataflow PTA Graph DataDep.
From S2P Require Import ValueRange MemSafe CompatType Uriah DataGuard OutOfWindow WindowEnds.

(** ** Changing the module *)
Record Created := {
  asmValue : string -> positive;                 (** [InlineAsm::get] *)
  callAt : nat -> value -> nat -> positive;      (** the call the n-th analysis puts at a place of a block *)
}.

Section Edit.
Variable M : IRModule.
Variable N : Created.
Variable n : nat.

Definition placed (bb : value) (k : nat) (x : item) : value :=
  match x with Orig v => v | Asm _ => VRef (callAt N n bb k) end.

(** The created calls of a block: address, block, string. *)
Definition callsIn (bb : value) (l : list item) : list (positive * (value * string)) :=
  omap id (imap (fun k x => match x with Orig _ => None | Asm s => Some (callAt N n bb k, (bb, s)) end) l).
Definition createdCalls (B : gmap value (list item)) : gmap positive (value * string) :=
  list_to_map (map_to_list B ≫= fun bl => callsIn bl.1 bl.2).

(** The module with the blocks [B]. *)
Definition withFences (B : gmap value (list item)) : IRModule :=
  let C := createdCalls B in
  let onCreated {A} (d : A) (f : value -> A) (v : value) : A :=
    match v with VRef p => if C !! p then d else f v | VConstInt _ => f v end in {|
  m_kind := fun p => match C !! p with Some (_, s) => KInst (ICall (VRef (asmValue N s)) []) | None => m_kind M p end;
  m_type := fun p => if C !! p then TVoid else m_type M p;
  getName := onCreated ""%string (getName M);
  users := onCreated [] (users M);
  functions := functions M;
  globals := globals M;
  blocks := blocks M;
  insts := fun bb => imap (placed bb) (blockItems M B bb);
  fargs := fargs M;
  getParent := fun v => match v with
                        | VRef p => match C !! p with Some (bb, _) => bb | None => getParent M v end
                        | VConstInt _ => getParent M v
                        end;
  getBBParent := getBBParent M;
  isDeclaration := isDeclaration M;
  getCalledFunction := onCreated None (getCalledFunction M);
  predecessors := predecessors M;
  stripPointerCasts := fun v => onCreated v (stripPointerCasts M) v;
  getFunctionNamed := getFunctionNamed M |}.
End Edit.

(** [eraseFromParent] for each instruction of the list; none of them has users. *)
Definition eraseInsts (M : IRModule) (l : list value) : IRModule := {|
  m_kind := m_kind M; m_type := m_type M; getName := getName M; users := users M;
  functions := functions M; globals := globals M; blocks := blocks M;
  insts := fun bb => filter (fun v => v ∉ l) (insts M bb);
  fargs := fargs M; getParent := getParent M; getBBParent := getBBParent M; isDeclaration := isDeclaration M;
  getCalledFunction := getCalledFunction M; predecessors := predecessors M;
  stripPointerCasts := stripPointerCasts M; getFunctionNamed := getFunctionNamed M |}.

(** ** [runOnModule] *)
Record HeapOut := {
  ho_report : HeapReport;
  ho_ranges : option VROut;
  ho_casts : option (gmap value VariableInfo);   (** [None]: the walk used an erased entry *)
}.

Record PassOut := {
  po_state : AnalysisState;
  po_oow : gset value;
  po_heap : option HeapOut;
  po_stack : option StackReport;
  po_heapModule : IRModule;                 (** after the heap's range analysis *)
  po_stackModule : IRModule;                (** after the stack's *)
  po_module : IRModule;                     (** at the end *)
  po_tags : Tags;
}.

(** Fuel for the loops, see the theorems. *)
Record Fuel := {
  mapFuel : nat; aliasFuel : nat; dfsFuel : nat; queueFuel : nat; windowFuel : nat;
}.

Section Pass.
Context {KO : KeyOrder} {orderValues : SetOrder value} {orderNodes : SetOrder positive}
  {orderTypes : SetOrder EdgeType} {orderSets : SetOrder (gset value)} {orderObjs : SetOrder Z}.
Variable M : IRModule.
Variable DL : DataLayout.
Variable CF : ConstFold.
Variable P : SVF.
Variable L : LLVMServices.
Variable G : CallGraphServices.
Variable N : Created.
Variable O : VROptions.
Variable windowSize : Z.
Variable rpo : value -> list value.
Variable slotIsType : ty -> ty -> bool.
Variable isAllocationFn : value -> bool.
Variable TLI : bool.
Variable uninit : VariableInfo.
Variable DOM : dominated M.
Variable hasPTASetup : bool.
Variable fuel : Fuel.

Definition edge_types : gset EdgeType := {[DATA_DEF_USE; DATA_RAW; DATA_READ; DATA_ALIAS]}.

(** The heap report and the two analyses it ends with.  The range analysis gets all heap
    pointers, not only the sequential ones. *)
Definition identifyDifferentKindsOfUnsafeHeapPointers (s : AnalysisState) (oow : gset value) (t : Tags) : option HeapOut :=
  r ← heapReport M P (pdgraph L) uninit isAllocationFn TLI DOM (aliasFuel fuel) edge_types s ∅ ∅ ∅;
  Some {| ho_report := r;
          ho_ranges := valueRangeAnalysis M DL CF P O rpo (hs_heap (hr_sets r)) s oow ∅ t;
          ho_casts := safeTypeCastAnalysis M DL slotIsType (hs_dynPtr (hr_sets r)) |}.

(** What a range analysis leaves: the module, the unsafe blocks and the tags. *)
Definition moduleAfter (M : IRModule) (n : nat) (r : option VROut) : IRModule :=
  match r with Some o => withFences M N n (fs_blocks (vr_fence o)) | None => M end.
Definition blocksAfter (r : option VROut) (unsafeBB : gset value) : gset value :=
  match r with Some o => fs_unsafeBB (vr_fence o) | None => unsafeBB end.
Definition tagsAfter (r : option VROut) (t : Tags) : Tags :=
  match r with Some o => vr_tags o | None => t end.

(** [None]: out of fuel. *)
Definition runOnModule (t : Tags) : option PassOut :=
  s ← runClassification M DL P L uninit DOM (mapFuel fuel);
  oow ← OutOfWindow.runOnModule M G windowSize (EntryFunction O) (dfsFuel fuel) (queueFuel fuel) (windowFuel fuel);
  if hasPTASetup then
    h ← identifyDifferentKindsOfUnsafeHeapPointers s oow t;
    let M1 := moduleAfter M 0 (ho_ranges h) in
    k ← identifyDifferentKindsOfUnsafeStackPointers M1 DL CF P O rpo slotIsType isAllocationFn true
          (hs_heap (hr_sets (ho_report h))) s oow (blocksAfter (ho_ranges h) ∅) (tagsAfter (ho_ranges h) t);
    let M2 := moduleAfter M1 1 (sr_ranges k) in
    Some (Build_PassOut s oow (Some h) (Some k) M1 M2 (eraseInsts M2 (markersToRemove M2 O))
            (tagsAfter (sr_ranges k) (tagsAfter (ho_ranges h) t)))
  else Some (Build_PassOut s oow None None M M (eraseInsts M (markersToRemove M O)) t).

End Pass.

(** ** The changed module and the old one *)

(** The addresses of calls created from the [n]-th analysis on are free, different, and
    the strings' values are what they should be. *)
Record fresh_from (M : IRModule) (N : Created) (n : nat) : Prop := {
  fresh_kind : forall m bb k, n <= m -> m_kind M (callAt N m bb k) = KOther;
  fresh_insts : forall m bb k bb', n <= m -> VRef (callAt N m bb k) ∉ insts M bb';
  fresh_inj : forall m bb k m' bb' k', callAt N m bb k = callAt N m' bb' k' -> m = m' /\ bb = bb' /\ k = k';
  fresh_asm : forall s, m_kind M (asmValue N s) = KInlineAsm s }.

Section EditLemmas.
Variable M : IRModule.
Variable N : Created.
Variable n : nat.
Hypothesis FR : fresh_from M N n.
Variable B : gmap value (list item).
Abbreviation M' := (withFences M N n B).

(** The blocks hold no other instruction than before. *)
Definition keepsOrigins : Prop := forall bb v, Orig v ∈ blockItems M B bb -> v ∈ insts M bb.

Lemma created_at p x : createdCalls N n B !! p = Some x ->
  exists k l, B !! x.1 = Some l /\ l !! k = Some (Asm x.2) /\ p = callAt N n x.1 k.
Proof using Type.
  intros Hp. apply elem_of_list_to_map_2, list_elem_of_bind in Hp as ([bb l] & Hx & Hb).
  unfold callsIn in Hx. apply list_elem_of_omap in Hx as (o & Ho & Ho'). simpl in Ho'. subst o.
  apply list_elem_of_lookup in Ho as [k Hk]. rewrite list_lookup_imap in Hk. simpl in Hk.
  destruct (l !! k) as [y|] eqn:Hy; [|done]. simpl in Hk. destruct y; simplify_eq. simpl.
  exists k, l. split_and!; [|done..]. by apply elem_of_map_to_list.
Qed.

Lemma created_lookup bb l k s : B !! bb = Some l -> l !! k = Some (Asm s) ->
  createdCalls N n B !! callAt N n bb k = Some (bb, s).
Proof.
  intros Hb Hk. destruct (createdCalls N n B !! callAt N n bb k) as [[bb' s']|] eqn:Hc.
  - apply created_at in Hc as (k' & l' & Hl & Hk' & Heq). simpl in *.
    apply (fresh_inj _ _ _ FR) in Heq as (_ & -> & ->). congruence.
  - exfalso. unfold createdCalls in Hc. apply not_elem_of_list_to_map in Hc. apply Hc. apply list_elem_of_fmap.
    exists (callAt N n bb k, (bb, s)). split; [done|]. apply list_elem_of_bind. exists (bb, l). split; [|by apply elem_of_map_to_list].
    unfold callsIn. apply list_elem_of_omap. exists (Some (callAt N n bb k, (bb, s))). split; [|done].
    apply list_elem_of_lookup. exists k. rewrite list_lookup_imap. simpl. by rewrite Hk.
Qed.

Lemma not_created p : m_kind M p <> KOther -> createdCalls N n B !! p = None.
Proof.
  intros Hk. destruct (createdCalls N n B !! p) as [x|] eqn:Hc; [|done].
  apply created_at in Hc as (k & l & _ & _ & ->). by rewrite (fresh_kind _ _ _ FR) in Hk.
Qed.

Lemma inst_not_created p bb : VRef p ∈ insts M bb -> createdCalls N n B !! p = None.
Proof.
  intros Hk. destruct (createdCalls N n B !! p) as [x|] eqn:Hc; [|done].
  apply created_at in Hc as (k & l & _ & _ & ->). by apply (fresh_insts _ _ _ FR) in Hk.
Qed.

(** What has a kind keeps it. *)
Lemma kindOf_kept v : kindOf M v <> KOther -> kindOf M' v = kindOf M v.
Proof. destruct v as [c|p]; [done|]. intros Hk. simpl in *. by rewrite not_created. Qed.

Lemma kindOf_new v k : kindOf M' v = k -> kindOf M v = k \/ exists s, k = KInst (ICall (VRef (asmValue N s)) []).
Proof using Type.
  intros <-. destruct v as [c|p]; [by left|]. simpl. destruct (createdCalls N n B !! p) as [[bb s]|]; [right; by exists s|by left].
Qed.

Lemma getParent_kept v : kindOf M v <> KOther -> getParent M' v = getParent M v.
Proof. destruct v as [c|p]; [done|]. intros Hk. simpl in *. by rewrite not_created. Qed.

Lemma isGEPInst_kept v : isGEPInst M' v = isGEPInst M v.
Proof.
  unfold isGEPInst. destruct (kindOf M v) eqn:Hk; try (rewrite kindOf_kept by congruence; by rewrite Hk).
  destruct (kindOf M' v) eqn:Hk'; try done. destruct (kindOf_new v _ Hk') as [Ho|[s Ho]]; [congruence|by simplify_eq].
Qed.

Lemma gep_kind v : isGEPInst M v = true -> kindOf M v <> KOther.
Proof using Type. unfold isGEPInst. by destruct (kindOf M v). Qed.

Lemma asmOf_kept v a : asmOf M v = Some a -> asmOf M' v = Some a.
Proof.
  unfold asmOf, calledOperand. intros Ha. destruct (kindOf M v) as [| | | | | | | | |k|] eqn:Hk; try done.
  rewrite kindOf_kept, Hk by congruence. destruct k; try done;
    match goal with |- context [kindOf _ ?c] => destruct (kindOf M c) eqn:Hc end; try done;
    rewrite kindOf_kept, Hc by congruence; done.
Qed.

Lemma asmOf_created bb l k s : B !! bb = Some l -> l !! k = Some (Asm s) ->
  asmOf M' (VRef (callAt N n bb k)) = Some s.
Proof.
  intros Hb Hk. unfold asmOf, calledOperand. simpl. rewrite (created_lookup bb l k s Hb Hk). simpl.
  pose proof (fresh_asm _ _ _ FR s) as Hs. rewrite not_created; [by rewrite Hs|congruence].
Qed.

(** Later addresses stay free. *)
Lemma fresh_after : keepsOrigins -> fresh_from M' N (S n).
Proof.
  intros HB. split.
  - intros m bb k Hm. simpl. destruct (createdCalls N n B !! callAt N m bb k) as [x|] eqn:Hc; [|apply FR; lia].
    apply created_at in Hc as (k' & l & _ & _ & Heq). apply (fresh_inj _ _ _ FR) in Heq as [? _]. lia.
  - intros m bb k bb' Hm Hin. simpl in Hin. apply list_elem_of_lookup in Hin as [j Hj].
    rewrite list_lookup_imap in Hj. destruct (blockItems M B bb' !! j) as [y|] eqn:Hy; [|done]. simpl in Hj.
    destruct y as [v|s]; simpl in Hj.
    + injection Hj as ->. apply list_elem_of_lookup_2, HB in Hy. revert Hy. apply (fresh_insts _ _ _ FR). lia.
    + injection Hj as Hj. apply (fresh_inj _ _ _ FR) in Hj as [? _]. lia.
  - apply FR.
  - intros s. pose proof (fresh_asm _ _ _ FR s) as Hs. simpl. rewrite not_created; [done|congruence].
Qed.
End EditLemmas.

(** ** Neighbours and fences *)
Lemma next_of_weaken (Q Q' : item -> Prop) g l : (forall y, Q y -> Q' y) -> next_of Q g l -> next_of Q' g l.
Proof. intros HQ. induction 1; [apply next_here|apply next_later]; auto. Qed.

Lemma next_of_nextIn Q g l : next_of Q g (Orig <$> l) <-> exists c, nextIn l g = Some c /\ Q (Orig c).
Proof.
  split.
  - remember (Orig <$> l) as l' eqn:Hl. intros Hn. revert l Hl. induction Hn as [y l' Hy|x l' Hx Hn IH]; intros l Hl.
    + destruct l as [|a [|c l]]; simplify_eq/=. exists c. by rewrite decide_True.
    + destruct l as [|a l]; simplify_eq/=. rewrite decide_False by congruence. by apply IH.
  - intros (c & Hc & HQ). induction l as [|a l IH]; simpl in *; [done|]. case_decide as Ha; [subst|].
    + destruct l as [|d l]; simplify_eq/=. by constructor.
    + apply next_later; [congruence|]. by apply IH.
Qed.

(** The first item behind [g], after the items have become values. *)
Lemma next_of_imap Q g (f : nat -> item -> value) l :
  (forall k v, f k (Orig v) = v) -> (forall k s, f k (Asm s) <> g) -> next_of Q g l ->
  exists k y, l !! k = Some y /\ Q y /\ nextIn (imap f l) g = Some (f k y).
Proof.
  intros Ho Ha Hn. revert f Ho Ha. induction Hn as [y l Hy|x l Hx Hn IH]; intros f Ho Ha.
  - exists 1, y. split_and!; [done..|]. simpl. by rewrite Ho, decide_True.
  - destruct (IH (fun k => f (S k))) as (k & y & Hk & Hy & Hnext); [done..|]. exists (S k), y. split_and!; [done..|].
    simpl. rewrite decide_False; [exact Hnext|]. destruct x as [v|s]; [|apply Ha]. rewrite Ho. congruence.
Qed.

(** The instruction behind [g] calls inline assembly with a string in [A]. *)
Definition fencedBy (A : string -> Prop) (M : IRModule) (g : value) : Prop :=
  exists c a, getNextNode M g = Some c /\ asmOf M c = Some a /\ A a.

(** An end marker: the test of the pass. *)
Definition isEndAsm (a : string) : Prop := contains a NORMAL_MAGIC_ASM_END || contains a MAGIC_ASM_END = true.
Definition fenced : IRModule -> value -> Prop := fencedBy isEndAsm.

Definition asmItem (A : string -> Prop) (M : IRModule) (y : item) : Prop := exists a, itemAsm M y = Some a /\ A a.

Lemma isEndFence_asm M y : isEndFence M y = true <-> asmItem isEndAsm M y.
Proof. unfold isEndFence, asmItem, isEndAsm. destruct (itemAsm M y); naive_solver. Qed.

Lemma fencedBy_next A M g : fencedBy A M g <-> next_of (asmItem A M) g (Orig <$> insts M (getParent M g)).
Proof. rewrite next_of_nextIn. unfold fencedBy, getNextNode, asmItem. simpl. naive_solver. Qed.

(** Every GEP has an instruction behind it: none is a terminator. *)
Definition gepsHaveNext (M : IRModule) : Prop := forall g, isGEPInst M g = true -> is_Some (getNextNode M g).

Lemma gepsHaveNext_next M g : gepsHaveNext M -> isGEPInst M g = true ->
  next_of (fun _ => True) g (Orig <$> insts M (getParent M g)).
Proof. intros HM Hg. apply next_of_nextIn. destruct (HM g Hg) as [c Hc]. by exists c. Qed.

Section Fences.
Variable M : IRModule.
Variable N : Created.
Variable n : nat.
Variable UsePC : bool.
Hypothesis FR : fresh_from M N n.
Variable B : gmap value (list item).
Abbreviation M' := (withFences M N n B).

(** What follows a GEP in the items follows it in the changed module. *)
Lemma withFences_next Q g : isGEPInst M g = true ->
  next_of Q g (blockItems M B (getParent M g)) ->
  exists k y, blockItems M B (getParent M g) !! k = Some y /\ Q y /\
    getNextNode M' g = Some (placed N n (getParent M g) k y).
Proof.
  intros Hg Hn. pose proof (gep_kind M g Hg) as Hk. unfold getNextNode. rewrite (getParent_kept M N n FR B) by done.
  simpl. apply next_of_imap; [done| |done]. intros k s Heq. unfold isGEPInst in Hg. rewrite <- Heq in Hg. simpl in Hg.
  by rewrite (fresh_kind _ _ _ FR) in Hg.
Qed.

Lemma withFences_fenced A g : isGEPInst M g = true ->
  next_of (asmItem A M) g (blockItems M B (getParent M g)) -> fencedBy A M' g.
Proof.
  intros Hg Hn. apply withFences_next in Hn as (k & y & Hk & (a & Ha & He) & Hnext); [|done].
  exists (placed N n (getParent M g) k y), a. split_and!; [done| |done].
  destruct y as [v|s]; simpl in Ha; [by apply asmOf_kept|]. injection Ha as ->. cbn [placed].
  unfold blockItems in Hk. destruct (B !! getParent M g) as [l|] eqn:Hb; simpl in Hk.
  - by eapply asmOf_created.
  - rewrite list_lookup_fmap in Hk. by destruct (insts M (getParent M g) !! k).
Qed.

Lemma withFences_gepsHaveNext :
  (forall g, isGEPInst M g = true -> next_of (fun _ => True) g (blockItems M B (getParent M g))) -> gepsHaveNext M'.
Proof.
  intros Hn g Hg. rewrite (isGEPInst_kept M N n FR) in Hg.
  destruct (withFences_next _ g Hg (Hn g Hg)) as (k & y & _ & _ & ->). by eexists.
Qed.
End Fences.

(** *** What the fencing keeps *)
Section FenceAll.
Variable M : IRModule.
Variable UsePC : bool.

Lemma fenceIn_origin g v l : Orig v ∈ fenceIn M UsePC g l -> Orig v ∈ l.
Proof.
  induction l as [|x l IH]; [done|]. cbn [fenceIn]. case_decide as Hx.
  - subst x. destruct l as [|y l]; [done|]. destruct (isEndFence M y); [done|].
    intros Hv. repeat (apply elem_of_cons in Hv as [Hv|Hv]; [simplify_eq; try (by repeat constructor)|]).
    by do 2 right.
  - intros [->|Hv]%elem_of_cons; [left|right; by apply IH].
Qed.

Lemma fenceIn_last g l : last (fenceIn M UsePC g l) = last l.
Proof.
  induction l as [|x l IH]; [done|]. cbn [fenceIn]. case_decide as Hx.
  - subst x. destruct l as [|y l]; [done|]. destruct (isEndFence M y); [done|]. reflexivity.
  - destruct l as [|y l]; [done|]. destruct (fenceIn_head M UsePC g y l) as (z & l' & Hz).
    rewrite Hz in IH |- *. simpl in *. done.
Qed.

Lemma fenceIn_next g g' l : next_of (fun _ => True) g l -> next_of (fun _ => True) g (fenceIn M UsePC g' l).
Proof.
  intros Hn. destruct (decide (g = g')) as [<-|Hne].
  - eapply next_of_weaken; [|by apply fenceIn_fences]. done.
  - apply fenceIn_keeps; [done|by right|done].
Qed.

(** A fence behind [g] stays. *)
Lemma fenceIn_fenced A g g' l : (forall a, A a -> isEndAsm a) -> isGEPInst M g' = true ->
  next_of (asmItem A M) g l -> next_of (asmItem A M) g (fenceIn M UsePC g' l).
Proof.
  intros HA Hg' Hn.
  assert (forall y, asmItem A M y -> isEndFence M y = true) as Hend.
  { intros y (a & Ha & Hy). apply isEndFence_asm. exists a. auto. }
  destruct (decide (g = g')) as [<-|Hne].
  - induction Hn as [y l Hy|x l Hx Hn IH]; cbn [fenceIn].
    + rewrite decide_True, Hend by done. by constructor.
    + rewrite decide_False by done. by constructor.
  - apply fenceIn_keeps; [done| |done]. intros y Hy. left. intros ->. apply Hend in Hy. by rewrite gep_not_fence in Hy.
Qed.

(** What may be behind [g] until its turn: if it is a fence, one with a string in [A]. *)
Definition maybeFenced (A : string -> Prop) (y : item) : Prop := isEndFence M y = true -> asmItem A M y.

Lemma beginMarker_no_fence : isEndFence M (Asm (beginMarker UsePC)) = false.
Proof. destruct UsePC; vm_compute; reflexivity. Qed.

Lemma fenceIn_maybe A g g' l : g <> g' ->
  next_of (maybeFenced A) g l -> next_of (maybeFenced A) g (fenceIn M UsePC g' l).
Proof.
  intros Hne Hn. induction Hn as [y l Hy|x l Hx Hn IH]; cbn [fenceIn].
  - rewrite decide_False by congruence. cbn [fenceIn]. case_decide as Hd; [|by constructor].
    destruct l as [|z l]; [by constructor|]. destruct (isEndFence M z); [by constructor|]. constructor.
    intros Hb. by rewrite beginMarker_no_fence in Hb.
  - case_decide as Hd; [|by constructor].
    destruct l as [|next l]; [by constructor|]. destruct (isEndFence M next); [by constructor|].
    subst. repeat (apply next_later; [done|]). done.
Qed.

(** At its turn [g] gets its fence, or has one. *)
Lemma fenceIn_turn A g l : A (endMarker UsePC) ->
  next_of (maybeFenced A) g l -> next_of (asmItem A M) g (fenceIn M UsePC g l).
Proof.
  intros HA. induction 1 as [y l Hy|x l Hx Hn IH]; cbn [fenceIn].
  - rewrite decide_True by done. destruct (isEndFence M y) eqn:E; [by constructor; apply Hy|].
    apply next_later; [done|]. constructor. by eexists.
  - rewrite decide_False by done. by constructor.
Qed.

Lemma fenceAll_fenced A keys s g : NoDup keys -> g ∈ keys -> A (endMarker UsePC) -> (forall a, A a -> isEndAsm a) ->
  (forall g', g' ∈ keys -> isGEPInst M g' = true) ->
  next_of (maybeFenced A) g (blockItems M (fs_blocks s) (getParent M g)) ->
  next_of (asmItem A M) g (blockItems M (fs_blocks (fenceAll M UsePC keys s)) (getParent M g)).
Proof.
  intros Hnd Hin HA Hend Hg. revert s. induction keys as [|g' keys IH]; intros s Hn; [by apply elem_of_nil in Hin|].
  simpl. apply NoDup_cons in Hnd as [Hnin Hnd]. apply elem_of_cons in Hin as [<-|Hin].
  - assert (next_of (asmItem A M) g (blockItems M (fs_blocks (fenceOne M UsePC g s)) (getParent M g))) as Hg1
      by (rewrite blockItems_fenceOne, decide_True by done; by apply fenceIn_turn).
    revert Hg1. generalize (fenceOne M UsePC g s). clear IH Hn Hnin Hnd. induction keys as [|g' keys IH]; intros s1 H1; simpl; [done|].
    apply IH; [intros; apply Hg; set_solver|]. rewrite blockItems_fenceOne. case_decide; [|done].
    apply fenceIn_fenced; [done|apply Hg; set_solver|done].
  - apply IH; [done..|intros; apply Hg; by right|]. rewrite blockItems_fenceOne. case_decide; [|done].
    apply fenceIn_maybe; [by intros ->|done].
Qed.

(** A property of a block's items that every fence keeps. *)
Lemma fenceAll_block (Q : list item -> Prop) keys s bb :
  (forall g l, g ∈ keys -> Q l -> Q (fenceIn M UsePC g l)) ->
  Q (blockItems M (fs_blocks s) bb) -> Q (blockItems M (fs_blocks (fenceAll M UsePC keys s)) bb).
Proof.
  revert s. induction keys as [|g keys IH]; intros s HQ Hb; simpl; [done|]. apply IH.
  - intros g' l Hg'. apply HQ. by right.
  - rewrite blockItems_fenceOne. case_decide; [|done]. apply HQ; [left|done].
Qed.
End FenceAll.

(** ** After a range analysis *)
Section After.
Variable M : IRModule.
Variable DL : DataLayout.
Variable CF : ConstFold.
Variable P : SVF.
Variable N : Created.
Variable O : VROptions.
Variable rpo : value -> list value.
Variable n : nat.
Hypothesis FR : fresh_from M N n.
Hypothesis HN : gepsHaveNext M.

Variable heapSeq : gmap value VariableInfo.
Variable s : AnalysisState.
Variable oow : gset value.
Variable ubb : gset value.
Variable t : Tags.
Variable r : VROut.
Hypothesis Hr : valueRangeAnalysis M DL CF P O rpo heapSeq s oow ubb t = Some r.
Abbreviation B := (fs_blocks (vr_fence r)).
Abbreviation M' := (withFences M N n B).

Lemma ranges_results : exists e, computeAll (D := RangeAnalysis M DL CF) M rpo (opt_UsePC O) 2 (size (universe M))
    (initEngine [None] (default [] ((fun f => [f]) <$> getFunctionNamed M (EntryFunction O))) ∅) = Some e /\
  r = reportUnsafe M DL P O heapSeq s oow (allResults e) ubb t.
Proof using Hr.
  unfold valueRangeAnalysis in Hr. destruct (getFunctionNamed M (EntryFunction O)) as [f|]; [|done].
  cbn [mbind option_bind fmap option_fmap option_map default] in *.
  destruct (computeAll _ _ _ _ _ _) as [e|]; [|done]. exists e. split; [done|]. cbn [mbind option_bind] in Hr. congruence.
Qed.

(** The blocks are those of the module with fences around GEPs. *)
Lemma ranges_blocks (Q : list item -> Prop) bb :
  (forall g l, isGEPInst M g = true -> Q l -> Q (fenceIn M (opt_UsePC O) g l)) ->
  Q (Orig <$> insts M bb) -> Q (blockItems M B bb).
Proof using Hr.
  destruct ranges_results as (e & _ & ->). intros HQ Hb.
  pose proof (reportUnsafe_gep M DL P O heapSeq s oow (allResults e) ubb t) as Hgeps.
  unfold reportUnsafe in *. destruct (applyModes _ _ _ _ _ _) as [m t']. destruct (countObjects _ _). simpl in *.
  apply fenceAll_block; [|done]. intros g l Hg. apply HQ. eapply seqGEPs_gep, Hgeps, elem_of_keys. exact Hg.
Qed.

Lemma ranges_origins : keepsOrigins M B.
Proof using Hr.
  intros bb v. apply (ranges_blocks (fun l => Orig v ∈ l -> v ∈ insts M bb)).
  - intros g l _ HQ Hv%fenceIn_origin. by apply HQ.
  - intros (v' & Hv & Hin)%list_elem_of_fmap. by simplify_eq.
Qed.

Lemma ranges_last bb : last (insts M' bb) = last (insts M bb).
Proof using Hr.
  assert (last (blockItems M B bb) = Orig <$> last (insts M bb)) as Hl.
  { apply (ranges_blocks (fun l => last l = Orig <$> last (insts M bb))); [intros; by rewrite fenceIn_last|by rewrite fmap_last]. }
  simpl. generalize dependent (blockItems M B bb). intros l Hl. destruct l as [|x l _] using rev_ind.
  { simpl in *. by destruct (last (insts M bb)). }
  rewrite imap_app. simpl. rewrite !last_snoc in *. by destruct (last (insts M bb)); simplify_eq/=.
Qed.

Lemma ranges_successors bb : successors M' bb = successors M bb.
Proof using Hr FR.
  unfold successors, getTerminator. rewrite ranges_last. set (v := default bb (last (insts M bb))).
  destruct (kindOf M v) eqn:Hk; try (rewrite (kindOf_kept M N n FR B) by congruence; by rewrite Hk).
  destruct (kindOf M' v) eqn:Hk'; try done. destruct (kindOf_new M N n B v _ Hk') as [Ho|[a Ho]]; [congruence|by simplify_eq].
Qed.

Lemma ranges_closed : module_closed M rpo -> module_closed M' rpo.
Proof using Hr FR.
  intros [Hcall Hcfg]. split.
  - intros i g Hg. simpl in *. apply (Hcall i). destruct i as [c|p]; [done|]. by destruct (createdCalls N n B !! p).
  - intros f Hf. destruct (Hcfg f Hf) as [Hrpo Hsucc]. split; [done|]. intros b c Hb. rewrite ranges_successors. by apply Hsucc.
Qed.

Lemma ranges_fresh : fresh_from M' N (S n).
Proof using Hr FR. apply (fresh_after M N n FR B), ranges_origins. Qed.

Lemma ranges_gepsHaveNext : gepsHaveNext M'.
Proof using Hr FR HN.
  apply withFences_gepsHaveNext; [done|]. intros g Hg. apply ranges_blocks; [intros; by apply fenceIn_next|].
  by apply gepsHaveNext_next.
Qed.

Lemma ranges_keeps_fence A g : (forall a, A a -> isEndAsm a) -> isGEPInst M g = true -> fencedBy A M g -> fencedBy A M' g.
Proof using Hr FR.
  intros HA Hg Hf. apply withFences_fenced; [done..|]. apply ranges_blocks; [intros; by apply fenceIn_fenced|].
  by apply fencedBy_next.
Qed.

Lemma ranges_reported_gep g : is_Some (vr_unsafe r !! g) -> isGEPInst M g = true.
Proof using Hr.
  destruct ranges_results as (e & _ & ->). intros Hg. by eapply seqGEPs_gep, reportUnsafe_gep.
Qed.

(** Reported pointers end up fenced with a string in [A], if the fences found are. *)
Lemma ranges_fenced A g : A (endMarker (opt_UsePC O)) -> (forall a, A a -> isEndAsm a) ->
  is_Some (vr_unsafe r !! g) ->
  (fenced M g -> fencedBy A M g) -> fencedBy A M' g.
Proof using Hr FR HN.
  intros HA Hend Hg Hold. pose proof (ranges_reported_gep g Hg) as Hgep. apply withFences_fenced; [done..|].
  destruct ranges_results as (e & _ & He). rewrite He in Hg |- *.
  pose proof (reportUnsafe_gep M DL P O heapSeq s oow (allResults e) ubb t) as Hgeps.
  unfold reportUnsafe in *. destruct (applyModes _ _ _ _ _ _) as [m t']. destruct (countObjects _ _). simpl in *.
  apply fenceAll_fenced; [apply NoDup_fst_map_to_list|by apply elem_of_keys|done..| |].
  - intros g' Hg'. eapply seqGEPs_gep, Hgeps, elem_of_keys. exact Hg'.
  - unfold blockItems. simpl. apply next_of_nextIn. destruct (HN g Hgep) as [c Hc]. exists c. split; [done|].
    intros Hf. apply isEndFence_asm in Hf as (a & Ha & Hf). destruct Hold as (c' & a' & Hc' & Ha' & HA'); [by exists c, a|].
    exists a'. split; [|done]. simpl in *. congruence.
Qed.
End After.

(** The same for an analysis that may not have run. *)
Section MaybeAfter.
Variable M : IRModule.
Variable DL : DataLayout.
Variable CF : ConstFold.
Variable P : SVF.
Variable N : Created.
Variable O : VROptions.
Variable rpo : value -> list value.
Variable n : nat.
Hypothesis FR : fresh_from M N n.
Variable heapSeq : gmap value VariableInfo.
Variable s : AnalysisState.
Variable oow : gset value.
Variable ubb : gset value.
Variable t : Tags.
Abbreviation ranges := (valueRangeAnalysis M DL CF P O rpo heapSeq s oow ubb t).
Abbreviation M' := (moduleAfter N M n ranges).

Lemma after_fresh : fresh_from M' N (S n).
Proof.
  unfold moduleAfter. destruct ranges as [r|] eqn:Hr; [by eapply ranges_fresh|].
  destruct FR as [H1 H2 H3 H4]. split; [intros; apply H1; lia|intros; apply H2; lia|done..].
Qed.

Lemma after_gepsHaveNext : gepsHaveNext M -> gepsHaveNext M'.
Proof. intros HN. unfold moduleAfter. destruct ranges as [r|] eqn:Hr; [by eapply ranges_gepsHaveNext|done]. Qed.

Lemma after_closed : module_closed M rpo -> module_closed M' rpo.
Proof. intros HM. unfold moduleAfter. destruct ranges as [r|] eqn:Hr; [by eapply ranges_closed|done]. Qed.

Lemma after_isGEPInst v : isGEPInst M' v = isGEPInst M v.
Proof. unfold moduleAfter. destruct ranges as [r|] eqn:Hr; [by apply isGEPInst_kept|done]. Qed.

Lemma after_kindOf v : kindOf M v <> KOther -> kindOf M' v = kindOf M v.
Proof. intros Hk. unfold moduleAfter. destruct ranges as [r|] eqn:Hr; [by apply kindOf_kept|done]. Qed.

Lemma after_keeps_fence A g : (forall a, A a -> isEndAsm a) -> isGEPInst M g = true -> fencedBy A M g -> fencedBy A M' g.
Proof. intros. unfold moduleAfter. destruct ranges as [r|] eqn:Hr; [by eapply ranges_keeps_fence|done]. Qed.

Lemma after_functions : functions M' = functions M /\ forall name, getFunctionNamed M' name = getFunctionNamed M name.
Proof using Type. clear FR. unfold moduleAfter. by destruct ranges. Qed.

Lemma after_ran f : module_closed M rpo -> getFunctionNamed M (EntryFunction O) = Some f -> f ∈ functions M ->
  is_Some ranges.
Proof using Type.
  clear FR. intros HM Hf Hin. unfold valueRangeAnalysis. rewrite Hf. cbn [mbind option_bind].
  destruct (computeAll_runs (D := RangeAnalysis M DL CF) M rpo (opt_UsePC O) [f] ∅ HM rv_eq_refl)
    as (e & He & _); [by repeat constructor|]. simpl length in He. rewrite He. by eexists.
Qed.
End MaybeAfter.
