(* ===== verification/PassRuns.v ===== *)
(** * Runs of the whole pass ([UnifiedMemSafe.cpp], [runOnModule])

    What the composition of Pipeline.v guarantees: that the pass ends, that the pointers
    its two range analyses report leave it fenced, through the second analysis and the
    clean-up, and that an array access without a fence at the end is inside its array. *)
From stdpp Require Import base gmap sets list option strings.
From Stdlib Require Import ZArith Lia.
From S2P Require Import Prelude APInt LLVM AnalysisState RangeDomain RangeTransfer Dataflow PTA Graph DataDep.
From S2P Require Import ValueRange MemSafe CompatType Uriah DataGuard OutOfWindow WindowEnds Pipeline.

(** ** The clean-up *)
Lemma fencedBy_weaken (A A' : string -> Prop) M g : (forall a, A a -> A' a) -> fencedBy A M g -> fencedBy A' M g.
Proof. intros HA (c & a & ? & ? & ?). exists c, a. auto. Qed.

Lemma nextIn_filter (l gone : list value) g c :
  g ∉ gone -> c ∉ gone -> nextIn l g = Some c -> nextIn (filter (fun v => v ∉ gone) l) g = Some c.
Proof.
  intros Hg Hc. induction l as [|x l IH]; simpl; [done|]. case_decide as Hx.
  - subst x. intros Hn. rewrite filter_cons_True by done. simpl. rewrite decide_True by done.
    destruct l as [|y l]; simplify_eq/=. by rewrite filter_cons_True.
  - intros Hn. destruct (decide (x ∉ gone)).
    + rewrite filter_cons_True by done. simpl. rewrite decide_False by done. by apply IH.
    + rewrite filter_cons_False by done. by apply IH.
Qed.

(** A fence whose string the clean-up leaves stays behind its GEP. *)
Lemma cleanup_keeps_fence A M O g :
  (forall v a, v ∈ markersToRemove M O -> asmOf M v = Some a -> ~ A a) ->
  isGEPInst M g = true -> fencedBy A M g -> fencedBy A (eraseInsts M (markersToRemove M O)) g.
Proof.
  intros HA Hg (c & a & Hc & Ha & Hin). exists c, a. split_and!; [|done..].
  unfold getNextNode in *. simpl. apply nextIn_filter; [| |done].
  - intros Hr. unfold markersToRemove in Hr. destruct (DiffOnly O || SFIOnly O); [|by apply elem_of_nil in Hr].
    apply list_elem_of_filter in Hr as [Hr _]. unfold isRemovedMarker, isCallInst in Hr. unfold isGEPInst in Hg.
    destruct (kindOf M g) as [| | | | | | | | |[]|]; done.
  - intros Hr. by apply (HA c a).
Qed.


(** ** Range results *)
Section Results.
Variable DL : DataLayout.
Variable CF : ConstFold.
Variable P : SVF.
Variable O : VROptions.
Variable rpo : value -> list value.

(** The results of the range analysis of a module. *)
Definition rangeResults (M : IRModule) : option (gmap ContextFunction (gmap value (gmap value RangeValue))) :=
  mainFunction ← getFunctionNamed M (EntryFunction O);
  e ← computeAll (D := RangeAnalysis M DL CF) M rpo (opt_UsePC O) 2 (size (universe M))
        (initEngine [None] [mainFunction] ∅);
  Some (allResults e).

Lemma valueRangeAnalysis_results M' heapSeq s oow ubb t :
  valueRangeAnalysis M' DL CF P O rpo heapSeq s oow ubb t =
  res ← rangeResults M'; Some (reportUnsafe M' DL P O heapSeq s oow res ubb t).
Proof using Type.
  unfold valueRangeAnalysis, rangeResults. destruct (getFunctionNamed M' (EntryFunction O)); [|done].
  cbn [mbind option_bind]. by destruct (computeAll _ _ _ _ _ _).
Qed.

End Results.

(** ** Modules as LLVM keeps them *)

(** An instruction is once in the list of its parent, a block of a function of the module;
    inline assembly is called by [CallInst]s. *)
Record layout_ok (M : IRModule) : Prop := {
  lo_blocks : blocks_ok M;
  lo_home : forall bb i, i ∈ insts M bb -> exists f, f ∈ functions M /\ bb ∈ blocks M f;
  lo_kind : forall bb i, i ∈ insts M bb -> kindOf M i <> KOther;
  lo_asm : forall i a, asmOf M i = Some a -> isCallInst M i = true }.

Definition origins : list item -> list value := omap (fun x => match x with Orig v => Some v | Asm _ => None end).

Lemma elem_origins v l : v ∈ origins l <-> Orig v ∈ l.
Proof.
  unfold origins. rewrite list_elem_of_omap. split.
  - intros ([v'|] & Hx & Hv); by simplify_eq.
  - intros Hv. by exists (Orig v).
Qed.

Lemma NoDup_imap_items (f : nat -> item -> value) l :
  (forall k v, f k (Orig v) = v) -> NoDup (origins l) ->
  (forall k s v, v ∈ origins l -> f k (Asm s) <> v) ->
  (forall k k' s s', f k (Asm s) = f k' (Asm s') -> k = k') -> NoDup (imap f l).
Proof.
  revert f. induction l as [|x l IH]; intros f Ho Hnd Ha Hinj; simpl; [constructor|].
  apply NoDup_cons. split.
  - intros Hin. apply list_elem_of_lookup in Hin as [k Hk]. rewrite list_lookup_imap in Hk.
    destruct (l !! k) as [y|] eqn:Hy; [|done]. simpl in Hk. injection Hk as Hk.
    destruct x as [v|s], y as [w|s'].
    + rewrite !Ho in Hk. subst w. simpl in Hnd. apply NoDup_cons in Hnd as [Hn _]. apply Hn, elem_origins.
      by eapply list_elem_of_lookup_2.
    + apply (Ha (S k) s' v); [by left|]. by rewrite Ho in Hk.
    + apply (Ha 0 s w); [|by rewrite Ho in Hk]. simpl. apply elem_origins. by eapply list_elem_of_lookup_2.
    + by apply Hinj in Hk.
  - apply IH; [intros; apply Ho| | |].
    + destruct x; [|done]. simpl in Hnd. by apply NoDup_cons in Hnd as [_ ?].
    + intros k s v Hv. apply Ha. destruct x; [by right|done].
    + intros k k' s s' Heq. apply Hinj in Heq. lia.
Qed.

Section Layout.
Variable M : IRModule.
Variable N : Created.
Variable n : nat.
Hypothesis FR : fresh_from M N n.
Hypothesis LO : layout_ok M.
Variable B : gmap value (list item).
Hypothesis HB : forall bb, origins (blockItems M B bb) = insts M bb.
Hypothesis HE : forall bb, insts M bb = [] -> blockItems M B bb = [].
Abbreviation M' := (withFences M N n B).

Lemma withFences_inst bb i : i ∈ insts M' bb ->
  (i ∈ insts M bb) \/ exists k s l, B !! bb = Some l /\ l !! k = Some (Asm s) /\ i = VRef (callAt N n bb k).
Proof using HB.
  simpl. intros Hi. apply list_elem_of_lookup in Hi as [k Hk]. rewrite list_lookup_imap in Hk.
  destruct (blockItems M B bb !! k) as [y|] eqn:Hy; [|done]. simpl in Hk. injection Hk as <-. destruct y as [v|s].
  - left. rewrite <- HB. apply elem_origins. by eapply list_elem_of_lookup_2.
  - right. unfold blockItems in Hy. destruct (B !! bb) as [l|]; simpl in Hy; [by exists k, s, l|].
    rewrite list_lookup_fmap in Hy. by destruct (insts M bb !! k).
Qed.

Lemma withFences_layout : layout_ok M'.
Proof.
  destruct LO as [Hb Hh Hk Ha]. split.
  - intros bb. split.
    + simpl. apply NoDup_imap_items; [done|rewrite HB; apply Hb| |].
      * intros k s v Hv. rewrite HB in Hv. simpl. intros <-. by apply (fresh_insts _ _ _ FR) in Hv.
      * intros k k' s s' [= Heq]. by apply (fresh_inj _ _ _ FR) in Heq as (_ & _ & ?).
    + intros i [Hi|(k & s & l & Hl & Hs & ->)]%withFences_inst.
      * rewrite getParent_kept by eauto. by apply Hb.
      * simpl. by rewrite (created_lookup M N n FR B bb l k s).
  - intros bb i [Hi|(k & s & l & Hl & Hs & ->)]%withFences_inst; [by apply (Hh bb i)|].
    destruct (insts M bb) as [|j js] eqn:Hj; [|apply (Hh bb j); rewrite Hj; by left].
    specialize (HE bb Hj). unfold blockItems in HE. rewrite Hl in HE. simpl in HE. by subst l.
  - intros bb i [Hi|(k & s & l & Hl & Hs & ->)]%withFences_inst.
    + rewrite kindOf_kept; eauto.
    + simpl. by rewrite (created_lookup M N n FR B bb l k s).
  - intros i a Hi. unfold isCallInst. destruct (kindOf M' i) as [| | | | | | | | |x|] eqn:Hi';
      try (unfold asmOf, calledOperand in Hi; by rewrite Hi' in Hi).
    destruct (kindOf_new M N n B i _ Hi') as [Ho|[s Ho]]; [|by simplify_eq].
    assert (exists a', asmOf M i = Some a') as [a' Ha'].
    { unfold asmOf, calledOperand in *. rewrite Hi' in Hi. rewrite Ho. destruct x; try done;
        match goal with |- context [kindOf M ?c] => destruct (kindOf M' c) eqn:Hc; try done;
          destruct (kindOf_new M N n B c _ Hc) as [->|[? ?]]; [by eexists|done] end. }
    specialize (Ha i a' Ha'). unfold isCallInst in Ha. by rewrite Ho in Ha.
Qed.
End Layout.

Lemma fenceIn_origins M UsePC g l : origins (fenceIn M UsePC g l) = origins l.
Proof.
  induction l as [|x l IH]; [done|]. cbn [fenceIn]. case_decide as Hx.
  - subst x. destruct l as [|y l]; [done|]. by destruct (isEndFence M y).
  - destruct x; simpl; by rewrite IH.
Qed.

Lemma after_layout M DL CF P N O rpo n heapSeq s oow ubb t :
  fresh_from M N n -> layout_ok M ->
  layout_ok (moduleAfter N M n (valueRangeAnalysis M DL CF P O rpo heapSeq s oow ubb t)).
Proof.
  intros FR LO. unfold moduleAfter. destruct (valueRangeAnalysis _ _ _ _ _ _ _ _ _ _ _) as [r|] eqn:Hr; [|done].
  apply withFences_layout; [done..| |].
  - intros bb. eapply (ranges_blocks M DL CF P O rpo heapSeq s oow ubb t r Hr (fun l => origins l = insts M bb)).
    + intros g l _ Hl. by rewrite fenceIn_origins.
    + induction (insts M bb) as [|v l IH]; [done|]. unfold origins in *. simpl. f_equal. exact IH.
  - intros bb Hbb. eapply (ranges_blocks M DL CF P O rpo heapSeq s oow ubb t r Hr (fun l => l = [])).
    + by intros g l _ ->.
    + by rewrite Hbb.
Qed.

(** *** Fences the clean-up leaves *)
Definition keptEnd (O : VROptions) (a : string) : Prop := isEndAsm a /\ (DiffOnly O = true -> a <> NORMAL_MAGIC_ASM_END).

Lemma removed_not_kept M O v a :
  SFIOnly O = false -> v ∈ markersToRemove M O -> asmOf M v = Some a -> ~ keptEnd O a.
Proof.
  intros HS Hv Ha [He Hd]. unfold markersToRemove in Hv. rewrite HS in Hv.
  destruct (DiffOnly O) eqn:HD; [|by apply elem_of_nil in Hv]. simpl in Hv.
  apply list_elem_of_filter in Hv as [Hv _]. unfold isRemovedMarker in Hv. rewrite Ha, HS in Hv. bool_prop.
  simpl in *. destruct (String.eqb_spec a NORMAL_MAGIC_ASM_BEGIN) as [->|]; [by vm_compute in He|].
  destruct (String.eqb_spec a NORMAL_MAGIC_ASM_END) as [->|]; [|done]. by apply Hd.
Qed.

(** With -diff-only and baggy bounds a reported pointer has no normal end marker behind it
    before its analysis: such pointers are filtered out. *)
Lemma reported_not_instrumented M DL CF P O rpo heapSeq s oow ubb t r g :
  DiffOnly O = true -> UseBaggy O = true ->
  valueRangeAnalysis M DL CF P O rpo heapSeq s oow ubb t = Some r -> is_Some (vr_unsafe r !! g) -> g ∉ dgUnsafeGEPs M.
Proof.
  intros HD HB Hr. rewrite (valueRangeAnalysis_results DL CF P O rpo) in Hr.
  destruct (rangeResults _ _ _ _ _) as [res|]; [|done]. injection Hr as <-. unfold reportUnsafe, applyModes. rewrite HD, HB.
  destruct (countObjects _ _). simpl. intros [i Hi]. apply map_lookup_filter_Some in Hi as [_ Hi].
  simpl in Hi. by rewrite elem_of_list_to_set in Hi.
Qed.

Lemma fenced_is_instrumented M g c : layout_ok M -> isGEPInst M g = true -> g ∈ insts M (getParent M g) ->
  getNextNode M g = Some c -> asmOf M c = Some NORMAL_MAGIC_ASM_END -> g ∈ dgUnsafeGEPs M.
Proof.
  intros LO Hg Hin Hc Ha. destruct LO as [Hb Hh Hk Hasm].
  pose proof (proj1 (getNextNode_adjacent M g c Hb) Hc) as Hadj. pose proof (adjacent_elem _ _ _ Hadj) as [_ Hcin].
  pose proof (proj2 (Hb _) _ Hcin) as Hpar.
  assert (getPrevNode M c = Some g) as Hprev by (apply getPrevNode_adjacent; [done|by rewrite Hpar]).
  unfold dgUnsafeGEPs. apply list_elem_of_omap. exists c. split.
  - destruct (Hh _ _ Hcin) as (f & Hf & Hbb). apply list_elem_of_bind. exists f. split; [|done].
    unfold instructions. apply list_elem_of_join. exists (insts M (getParent M g)). split; [done|].
    apply list_elem_of_fmap. by eexists.
  - specialize (Hasm c _ Ha). unfold isCallInst in Hasm. destruct (kindOf M c) as [| | | | | | | | |[]|]; try done.
    by rewrite bool_decide_eq_true_2, Hprev, Hg by done.
Qed.

(** A mode in which reported pointers keep their fence. *)
Definition fencesSurvive (O : VROptions) : Prop :=
  SFIOnly O = false /\ (DiffOnly O = true -> UseBaggy O = true /\ opt_UsePC O = false).

Lemma reported_fence_kept M DL CF P O rpo heapSeq s oow ubb t r g :
  layout_ok M -> fencesSurvive O ->
  valueRangeAnalysis M DL CF P O rpo heapSeq s oow ubb t = Some r -> is_Some (vr_unsafe r !! g) ->
  fenced M g -> fencedBy (keptEnd O) M g.
Proof.
  intros LO [_ HD] Hr Hg (c & a & Hc & Ha & He). exists c, a. split_and!; [done|done|]. split; [done|].
  intros Hdiff ->. destruct (HD Hdiff) as [HB _].
  apply (reported_not_instrumented M DL CF P O rpo heapSeq s oow ubb t r g Hdiff HB Hr Hg).
  eapply fenced_is_instrumented; [done|by eapply ranges_reported_gep| |done..].
  pose proof (proj1 (getNextNode_adjacent M g c (lo_blocks M LO)) Hc) as Hadj. by apply adjacent_elem in Hadj as [? _].
Qed.

Lemma endMarker_kept O : fencesSurvive O -> keptEnd O (endMarker (opt_UsePC O)).
Proof.
  intros [_ HD]. split; [destruct (opt_UsePC O); vm_compute; reflexivity|]. intros Hd. destruct (HD Hd) as [_ ->]. done.
Qed.

(** ** Runs of the pass *)
Section Runs.
Context {KO : KeyOrder} {orderValues : SetOrder value} {orderNodes : SetOrder positive}
  {orderTypes : SetOrder EdgeType} {orderSets : SetOrder (gset value)} {orderObjs : SetOrder Z}.
Variable M : IRModule.
Variable DL : DataLayout.
Variable CF : ConstFold.
Variable P : SVF.
Variable L : LLVMServices.
Variable G : CallGraphServices.
Variable N : Created.
Variable O : VROptions.
Variable windowSize : Z.
Variable rpo : value -> list value.
Variable slotIsType : ty -> ty -> bool.
Variable isAllocationFn : value -> bool.
Variable TLI : bool.
Variable uninit : VariableInfo.
Variable DOM : dominated M.

Variable fuel : Fuel.
Variable t : Tags.
Abbreviation run := (runOnModule M DL CF P L G N O windowSize rpo slotIsType isAllocationFn TLI uninit DOM true fuel t).

(** The parts of a run that has returned. *)
Record ran (out : PassOut) (h : HeapOut) (k : StackReport) : Prop := {
  ran_state : runClassification M DL P L uninit DOM (mapFuel fuel) = Some (po_state out);
  ran_heap : ho_ranges h = valueRangeAnalysis M DL CF P O rpo (hs_heap (hr_sets (ho_report h))) (po_state out) (po_oow out) ∅ t;
  ran_heapModule : po_heapModule out = moduleAfter N M 0 (ho_ranges h);
  ran_stack : sr_ranges k = valueRangeAnalysis (po_heapModule out) DL CF P O rpo
      (stackSeqPointerSet (po_heapModule out) isAllocationFn (po_state out)) (po_state out) (po_oow out)
      (blocksAfter (ho_ranges h) ∅) (tagsAfter (ho_ranges h) t);
  ran_stackModule : po_stackModule out = moduleAfter N (po_heapModule out) 1 (sr_ranges k);
  ran_module : po_module out = eraseInsts (po_stackModule out) (markersToRemove (po_stackModule out) O) }.

Lemma run_ran out : run = Some out -> exists h k, po_heap out = Some h /\ po_stack out = Some k /\ ran out h k.
Proof using Type.
  unfold runOnModule. destruct (runClassification _ _ _ _ _ _ _) as [s|] eqn:Hs; [|done]. cbn [mbind option_bind].
  destruct (OutOfWindow.runOnModule _ _ _ _ _ _ _) as [oow|]; [|done]. cbn [mbind option_bind].
  unfold identifyDifferentKindsOfUnsafeHeapPointers. destruct (heapReport _ _ _ _ _ _ _ _ _ _ _ _ _) as [r|]; [|done].
  cbn [mbind option_bind identifyDifferentKindsOfUnsafeStackPointers]. intros [= <-].
  eexists _, _. split; [reflexivity|]. split; [reflexivity|]. by split.
Qed.

Section Fenced.
Hypothesis FR : fresh_from M N 0.
Hypothesis HN : gepsHaveNext M.
Variable out : PassOut.
Variable h : HeapOut.
Variable k : StackReport.
Hypothesis R : ran out h k.

Lemma heap_fresh : fresh_from (po_heapModule out) N 1.
Proof using FR R. rewrite (ran_heapModule _ _ _ R), (ran_heap _ _ _ R). by apply after_fresh. Qed.

Lemma heap_gepsHaveNext : gepsHaveNext (po_heapModule out).
Proof using FR HN R. rewrite (ran_heapModule _ _ _ R), (ran_heap _ _ _ R). by apply after_gepsHaveNext. Qed.

Lemma heap_isGEPInst g : isGEPInst (po_heapModule out) g = isGEPInst M g.
Proof using FR R. rewrite (ran_heapModule _ _ _ R), (ran_heap _ _ _ R). by apply after_isGEPInst. Qed.



Lemma heap_layout : layout_ok M -> layout_ok (po_heapModule out).
Proof using FR R. intros LO. rewrite (ran_heapModule _ _ _ R), (ran_heap _ _ _ R). by apply after_layout. Qed.

Lemma stack_isGEPInst g : isGEPInst (po_stackModule out) g = isGEPInst M g.
Proof using FR R.
  rewrite (ran_stackModule _ _ _ R), (ran_stack _ _ _ R). rewrite after_isGEPInst by apply heap_fresh. apply heap_isGEPInst.
Qed.

(** A fence of the first analysis stays through the second, the clean-up may take it. *)
Lemma fence_to_exit A g : (forall a, A a -> isEndAsm a) ->
  (forall v a, v ∈ markersToRemove (po_stackModule out) O -> asmOf (po_stackModule out) v = Some a -> ~ A a) ->
  isGEPInst M g = true -> fencedBy A (po_heapModule out) g \/ fencedBy A (po_stackModule out) g ->
  fencedBy A (po_module out) g.
Proof using FR R.
  intros HA Hkeep Hg Hf. rewrite (ran_module _ _ _ R). apply cleanup_keeps_fence; [done|by rewrite stack_isGEPInst|].
  destruct Hf as [Hf|Hf]; [|done]. rewrite (ran_stackModule _ _ _ R), (ran_stack _ _ _ R).
  apply after_keeps_fence; [apply heap_fresh|done|by rewrite heap_isGEPInst|done].
Qed.

(** Either analysis fences what it reports, if the fences it finds are of the right kind. *)
Lemma reported_to_exit A g r : A (endMarker (opt_UsePC O)) -> (forall a, A a -> isEndAsm a) ->
  (forall v a, v ∈ markersToRemove (po_stackModule out) O -> asmOf (po_stackModule out) v = Some a -> ~ A a) ->
  (ho_ranges h = Some r /\ (fenced M g -> fencedBy A M g)) \/
  (sr_ranges k = Some r /\ (fenced (po_heapModule out) g -> fencedBy A (po_heapModule out) g)) ->
  is_Some (vr_unsafe r !! g) -> fencedBy A (po_module out) g.
Proof using FR HN R.
  intros HA Hend Hkeep Hr Hg. destruct Hr as [[Hr Hold]|[Hr Hold]].
  - pose proof (ran_heap _ _ _ R) as Hh. rewrite Hr in Hh.
    apply fence_to_exit; [done..| |left].
    + by eapply ranges_reported_gep.
    + rewrite (ran_heapModule _ _ _ R), Hr. by eapply ranges_fenced.
  - pose proof (ran_stack _ _ _ R) as Hk. rewrite Hr in Hk.
    apply fence_to_exit; [done..| |right].
    + rewrite <- heap_isGEPInst. by eapply ranges_reported_gep.
    + rewrite (ran_stackModule _ _ _ R), Hr. eapply ranges_fenced; try done; [apply heap_fresh|apply heap_gepsHaveNext].
Qed.
End Fenced.
End Runs.

(** ** An example *)

(** [int a[4]; int *p = &a[i]; int *q = &a[2];] in the entry function.  The address [p] may
    be out of bounds, [q] is not. *)
Definition passInsts : list value := [VRef 1; VRef 2; VRef 3; VRef 4].
Definition passModule : IRModule := {|
  m_kind := fun p => match p with
    | 1%positive => KInst (IAlloca (TArray 4 (TInt 32)) (VConstInt (mk 32 1)))
    | 2%positive => KInst (IGEP (TArray 4 (TInt 32)) (TInt 32) (VRef 1) [VConstInt (mk 64 0); VRef 6])
    | 3%positive => KInst (IGEP (TArray 4 (TInt 32)) (TInt 32) (VRef 1) [VConstInt (mk 64 0); VConstInt (mk 64 2)])
    | 4%positive => KInst (IRet None)
    | 6%positive => KArgument
    | 8%positive => KFunction
    | 9%positive => KBasicBlock
    | xO (xO (xO (xO (xO q)))) => match decode q with Some a => KInlineAsm a | None => KOther end
    | _ => KOther end;
  m_type := fun p => match p with
    | 1%positive => TPtr (TArray 4 (TInt 32)) | 2%positive | 3%positive => TPtr (TInt 32)
    | 6%positive => TInt 64 | _ => TVoid end;
  getName := fun _ => "main"%string; users := fun _ => []; functions := [VRef 8]; globals := [];
  blocks := fun f => if decide (f = VRef 8) then [VRef 9] else [];
  insts := fun b => if decide (b = VRef 9) then passInsts else [];
  fargs := fun _ => [VRef 6]; getParent := fun _ => VRef 9; getBBParent := fun _ => VRef 8;
  isDeclaration := fun _ => false; getCalledFunction := fun _ => None;
  predecessors := fun _ => []; stripPointerCasts := fun v => v; getFunctionNamed := fun _ => Some (VRef 8) |}.

Lemma passModule_dominated : dominated passModule.
Proof. dominated_refs. Qed.

(** Addresses for created values that the module does not use. *)
Definition passCreated : Created := {|
  asmValue := fun s => xO (xO (xO (xO (xO (encode s)))));
  callAt := fun n bb k => xO (xO (xO (xO (xI (encode (n, bb, k)))))) |}.

Definition passServices : LLVMServices := {|
  knownSize := fun _ => None; knownOffset := fun _ => None; accumulateConstantOffset := fun _ => None;
  isSized := fun _ => true; foldMul := fun a _ => a; foldSub := fun a _ => a; foldZExt64 := fun a => a;
  pdgraph := emptyGraph; nodeOrder := elementsOrder positive;
  nextEntry := fun visited ks => head (elements (ks ∖ visited)) |}.


Definition passFuel : Fuel := Build_Fuel 9 9 3 3 2000.

Definition passRun (P : SVF) (O : VROptions) (M : IRModule) (DOM : dominated M) : option PassOut :=
  runOnModule (KO := encodeOrder) (orderValues := elementsOrder _) (orderNodes := elementsOrder _)
    (orderTypes := elementsOrder _) (orderSets := elementsOrder _) (orderObjs := elementsOrder _)
    M gepDL loopCF P passServices pairGraph passCreated O 2 (blocks M) (fun _ _ => false) (fun _ => false) true
    zeroInfo DOM true passFuel (TG ∅ ∅).

Lemma passRun_unfold P O M DOM :
  passRun P O M DOM =
  runOnModule (KO := encodeOrder) (orderValues := elementsOrder _) (orderNodes := elementsOrder _)
    (orderTypes := elementsOrder _) (orderSets := elementsOrder _) (orderObjs := elementsOrder _)
    M gepDL loopCF P passServices pairGraph passCreated O 2 (blocks M) (fun _ _ => false) (fun _ => false) true
    zeroInfo DOM true passFuel (TG ∅ ∅).
Proof. reflexivity. Qed.

Lemma passModule_fresh : fresh_from passModule passCreated 0.
Proof.
  split.
  - done.
  - intros m bb k bb' _ Hin. simpl in Hin. case_decide; [|by apply elem_of_nil in Hin].
    unfold passInsts in Hin. repeat (apply elem_of_cons in Hin as [?|Hin]; [done|]). by apply elem_of_nil in Hin.
  - intros m bb k m' bb' k' [= Heq]. apply (inj encode) in Heq. by simplify_eq.
  - intros a. cbn [passModule passCreated m_kind asmValue]. by rewrite decode_encode.
Qed.

Lemma passModule_kinds p : isGEPInst passModule (VRef p) = true -> p = 2%positive \/ p = 3%positive.
Proof. unfold isGEPInst. simpl. repeat case_match; auto; done. Qed.

Lemma passModule_next : gepsHaveNext passModule.
Proof. intros [c|p] Hg; [done|]. apply passModule_kinds in Hg as [->| ->]; vm_compute; by eexists. Qed.

Lemma passModule_layout : layout_ok passModule.
Proof.
  split.
  - intros bb. simpl. case_decide as Hb; [subst bb|split; [constructor|by intros i ?%elem_of_nil]]. split; [|done].
    apply (bool_decide_eq_true_1 _). vm_compute. reflexivity.
  - intros bb i. simpl. case_decide as Hb; [subst bb|by intros ?%elem_of_nil]. intros _. exists (VRef 8). split; left.
  - intros bb i. simpl. case_decide as Hb; [|by intros ?%elem_of_nil]. unfold passInsts. intros Hi.
    repeat (apply elem_of_cons in Hi as [->|Hi]; [done|]). by apply elem_of_nil in Hi.
  - intros [c|p] a; [done|]. unfold asmOf, calledOperand. cbn [passModule m_kind kindOf]. repeat case_match; done.
Qed.






(** A run that has returned, and what its stack analysis reports. *)
Lemma checked_run (o : option PassOut) (T : PassOut -> VROut -> bool) :
  match o with
  | Some out => match po_heap out, po_stack out with
                | Some _, Some k => match sr_ranges k with Some r => T out r | None => false end
                | _, _ => false
                end
  | None => false
  end = true ->
  exists out h k r, o = Some out /\ po_heap out = Some h /\ po_stack out = Some k /\ sr_ranges k = Some r /\ T out r = true.
Proof.
  destruct o as [out|]; [|done]. destruct (po_heap out) as [h|] eqn:Hh; [|done].
  destruct (po_stack out) as [k|] eqn:Hk; [|done]. destruct (sr_ranges k) as [r|] eqn:Hr; [|done]. intros HT.
  by exists out, h, k, r.
Qed.

(** ** Properties *)



(** C8: every pointer a range analysis reports is protected when the pass ends.  In the
    modes that keep the markers, the instruction behind each GEP that the heap's or the
    stack's range analysis reports calls an end marker in the final module: the second
    analysis and the clean-up leave the fences of the first.  With -diff-only this needs
    baggy bounds and the hardening's own markers. *)
Theorem reported_geps_fenced_at_exit {KO : KeyOrder} {orderValues : SetOrder value} {orderNodes : SetOrder positive}
    {orderTypes : SetOrder EdgeType} {orderSets : SetOrder (gset value)} {orderObjs : SetOrder Z}
    M DL CF P L G N O w rpo slotIsType isAllocationFn TLI uninit DOM fuel t out h k r g :
  fresh_from M N 0 -> layout_ok M -> gepsHaveNext M -> fencesSurvive O ->
  runOnModule M DL CF P L G N O w rpo slotIsType isAllocationFn TLI uninit DOM true fuel t = Some out ->
  po_heap out = Some h -> po_stack out = Some k -> ho_ranges h = Some r \/ sr_ranges k = Some r ->
  is_Some (vr_unsafe r !! g) -> fenced (po_module out) g.
Proof.
  intros FR LO HN HO Hrun Hh Hk Hr Hg. apply run_ran in Hrun as (h' & k' & Hh' & Hk' & R).
  assert (h' = h) as -> by congruence. assert (k' = k) as -> by congruence.
  eapply fencedBy_weaken, (reported_to_exit M DL CF P L N O rpo isAllocationFn uninit DOM fuel t FR HN out h k R (keptEnd O) g r).
  - by intros a [? _].
  - by apply endMarker_kept.
  - by intros a [? _].
  - intros v a. apply removed_not_kept, HO.
  - destruct Hr as [Hr|Hr]; [left|right]; (split; [done|]).
    + pose proof R as [_ Hran _ _ _ _]. rewrite Hr in Hran. by eapply reported_fence_kept.
    + pose proof R as [_ _ _ Hran _ _]. rewrite Hr in Hran.
      eapply reported_fence_kept; [|done|done|done]. by eapply heap_layout.
  - done.
Qed.

Lemma reported_geps_fenced_at_exit_witness :
  exists out, passRun gepSVF plainOptions passModule passModule_dominated = Some out /\ fenced (po_module out) (VRef 2).
Proof.
  destruct (checked_run (passRun gepSVF plainOptions passModule passModule_dominated) (fun _ r => bool_decide (is_Some (vr_unsafe r !! VRef 2))))
    as (out & h & k & r & Ho & Hh & Hk & Hr & HT); [vm_compute; reflexivity|].
  exists out. split; [exact Ho|]. rewrite passRun_unfold in Ho.
  apply (reported_geps_fenced_at_exit (KO := encodeOrder) (orderValues := elementsOrder _) (orderNodes := elementsOrder _)
    (orderTypes := elementsOrder _) (orderSets := elementsOrder _) (orderObjs := elementsOrder _)
    passModule gepDL loopCF gepSVF passServices pairGraph passCreated plainOptions 2 (blocks passModule)
    (fun _ _ => false) (fun _ => false) true zeroInfo passModule_dominated passFuel (TG ∅ ∅) out h k r (VRef 2)).
  - exact passModule_fresh.
  - exact passModule_layout.
  - exact passModule_next.
  - split; [reflexivity|discriminate].
  - exact Ho.
  - exact Hh.
  - exact Hk.
  - right. exact Hr.
  - exact (bool_decide_eq_true_1 _ HT).
Defined.



(** ** A mode that loses a fence *)

(** With -diff-only and without baggy bounds, a pointer that an earlier run has fenced with
    the normal markers is dropped only when its points-to set meets that of a fenced one.
    When its set is empty it is reported, its old fence is taken for the new one, and the
    clean-up erases it. *)
Definition refencedModule : IRModule := {|
  m_kind := fun p => match p with
    | 2%positive => KInst (IGEP (TArray 4 (TInt 32)) (TInt 32) (VRef 1) [VConstInt (mk 64 0); VRef 6])
    | 10%positive => KInst (ICall (VRef (asmValue passCreated NORMAL_MAGIC_ASM_BEGIN)) [])
    | 11%positive => KInst (ICall (VRef (asmValue passCreated NORMAL_MAGIC_ASM_END)) [])
    | _ => m_kind passModule p end;
  m_type := m_type passModule; getName := getName passModule; users := fun _ => [];
  functions := [VRef 8]; globals := []; blocks := blocks passModule;
  insts := fun b => if decide (b = VRef 9) then [VRef 1; VRef 10; VRef 2; VRef 11; VRef 4] else [];
  fargs := fargs passModule; getParent := getParent passModule; getBBParent := getBBParent passModule;
  isDeclaration := isDeclaration passModule; getCalledFunction := fun _ => None;
  predecessors := fun _ => []; stripPointerCasts := fun v => v; getFunctionNamed := fun _ => Some (VRef 8) |}.

Lemma refencedModule_dominated : dominated refencedModule.
Proof. dominated_refs. Qed.

Definition emptySVF : SVF := {|
  svfType := ty; svf_getPts := fun _ => []; expandFIObjs := fun l => l; getBaseObj := fun o => o;
  gepBaseNode := fun _ => None; isHeap := fun _ => false; isStack := fun _ => true;
  isGlobalObj := fun _ => false; isFIObjVar := fun _ => true; isDummyObjVar := fun _ => false;
  pagNodes := []; nodeLLVMValue := fun _ => None; valueNodeOf := fun _ => Some 1%Z;
  objType := fun _ => None; ptrElementType := fun _ => None; arrayTypeSizes := fun _ => None;
  structByteSize := fun _ => None; svfType_eqb := fun a b => bool_decide (a = b) |}.

Definition diffOptions : VROptions := Build_VROptions "main" false false true false false.

Lemma diff_mode_loses_fence :
  exists out h k r, passRun emptySVF diffOptions refencedModule refencedModule_dominated = Some out /\ po_heap out = Some h /\
    po_stack out = Some k /\ sr_ranges k = Some r /\
    (bool_decide (is_Some (vr_unsafe r !! VRef 2)) &&
     bool_decide (insts (po_module out) (VRef 9) = [VRef 1; VRef 2; VRef 4])) = true.
Proof. apply (checked_run _ (fun out r => bool_decide (is_Some (vr_unsafe r !! VRef 2)) && _)). vm_compute. reflexivity. Qed.
