(* ===== verification/SafeStack.v ===== *)
(** * What goes to the unsafe stack ([SafeStack.cpp])

    The back end's safe stack pass splits the stack of a function: objects that may be
    accessed out of bounds move to a separate, unsafe stack.  Which objects move is
    decided by the pass's own analysis of the uses of an object ([IsSafeStackAlloca]) or,
    with -dg-safe, by the tag that [tagOperationsForProtections] puts on allocation sites.
    The analysis and [findInsts] are here; SafeStackCode.v has the code the pass inserts.

    LLVM's scalar evolution and constant ranges are the class [ScalarEvolution]; what
    their documentation promises is [ScalarEvolutionLaws].  Users of an instruction or an
    argument are instructions (the code casts without a test). *)
From stdpp Require Import base countable gmap sets list option strings relations.
From Stdlib Require Import ZArith Lia.
From S2P Require Import Prelude APInt LLVM PTA ValueRange.

(** ** LLVM's side *)

(** Scalar evolution expressions and unsigned ranges of a width. *)
Class ScalarEvolution := {
  SCEV : Type;
  CRange : Type;
  getSCEV : value -> SCEV;
  unknown : value -> SCEV;
  getZero : ty -> SCEV;
  scevType : SCEV -> ty;
  (** [SCEVRewriteVisitor]: the expression with [f v e] for each leaf [e] that stands for
      the value [v]. *)
  rewriteUnknowns : (value -> SCEV -> SCEV) -> SCEV -> SCEV;
  getTypeSizeInBits : ty -> Z;
  getUnsignedRange : SCEV -> CRange;
  (** [ConstantRange(APInt(w, lower), APInt(w, upper))] *)
  constantRange : Z -> Z -> Z -> CRange;
  range_add : CRange -> CRange -> CRange;
  range_contains : CRange -> CRange -> bool;
}.

(** What LLVM documents of them.  [evalSCEV rho e] is the value of [e] when every leaf [v]
    has the value [rho v], reduced to its width; for a recurrence [rho] also has the
    iteration its loop is in, under the loop's header.  [possible rho]: a defined execution
    can give the leaves these values.  The range of an expression covers its values in such
    executions only: LLVM uses range metadata, known bits and trip counts. *)
Class ScalarEvolutionLaws `{SE : ScalarEvolution} := {
  evalSCEV : (value -> Z) -> SCEV -> Z;
  possible : (value -> Z) -> Prop;
  inRange : Z -> CRange -> Prop;
  rangeWidth : CRange -> Z;
  eval_zero rho t : evalSCEV rho (getZero t) = 0%Z;
  eval_unknown rho v : evalSCEV rho (unknown v) = (rho v mod 2 ^ getTypeSizeInBits (scevType (unknown v)))%Z;
  eval_rewrite rho rho' f e :
    (forall v, evalSCEV rho (f v (unknown v)) = evalSCEV rho' (unknown v)) ->
    evalSCEV rho (rewriteUnknowns f e) = evalSCEV rho' e;
  width_pos e : (0 < getTypeSizeInBits (scevType e))%Z;
  unsigned_width e : rangeWidth (getUnsignedRange e) = getTypeSizeInBits (scevType e);
  unsigned_range rho e : possible rho -> inRange (evalSCEV rho e) (getUnsignedRange e);
  range_bounds x r : inRange x r -> (0 <= x < 2 ^ rangeWidth r)%Z;
  constant_width w l u : rangeWidth (constantRange w l u) = w;
  constant_range w u x :
    (0 < w -> 0 <= u < 2 ^ w -> inRange x (constantRange w 0 u) <-> 0 <= x < u)%Z;
  add_range w a b x y : rangeWidth a = w -> rangeWidth b = w -> inRange x a -> inRange y b ->
    inRange ((x + y) mod 2 ^ w)%Z (range_add a b);
  contains_range a b x : range_contains a b = true -> inRange x b -> inRange x a;
}.

(** [MemIntrinsic]: memcpy and memmove have a source, memset has none. *)
Record MemIntrinsic := {
  rawSource : option value;
  rawDest : value;
  memLength : value;
}.

(** What the pass asks of instructions and arguments beyond their class. *)
Record InstInfo := {
  isVAArg : value -> bool;
  isLifetimeStartOrEnd : value -> bool;
  memIntrinsic : value -> option MemIntrinsic;
  doesNotCapture : value -> nat -> bool;
  argDoesNotAccessMemory : value -> nat -> bool;
  doesNotAccessMemory : value -> bool;
  isStaticAlloca : value -> bool;
  getTerminatingMustTailCall : value -> option value;
  canReturnTwice : value -> bool;
  isLandingPad : value -> bool;
  hasByValAttr : value -> bool;
  getParamByValType : value -> ty;
}.

(** [AllocaInst::isArrayAllocation]: the size operand is not the constant one. *)
Definition isArrayAllocation (arraySize : value) : bool :=
  match arraySize with VConstInt c => negb (uv c =? 1)%Z | VRef _ => true end.

Section SafeStack.
Context `{SE : ScalarEvolution}.
Variable M : IRModule.
Variable DL : DataLayout.
Variable Q : InstInfo.

(** [0] when the size is not a constant; the product is a [uint64_t]. *)
Definition getStaticAllocaAllocationSize (AI : value) : Z :=
  match kindOf M AI with
  | KInst (IAlloca allocTy arraySize) =>
    let Size := getTypeAllocSize DL allocTy in
    if isArrayAllocation arraySize then
      match arraySize with
      | VConstInt C => (Size * getZExtValue C) mod 2 ^ 64
      | VRef _ => 0
      end
    else Size
  | _ => 0
  end%Z.

(** [AllocaOffsetRewriter] *)
Definition visitUnknown (AllocaPtr v : value) (Expr : SCEV) : SCEV :=
  if decide (v = AllocaPtr) then getZero (scevType Expr) else Expr.

Definition IsAccessSafe (Addr : value) (AccessSize : Z) (AllocaPtr : value) (AllocaSize : Z) : bool :=
  let Expr := rewriteUnknowns (visitUnknown AllocaPtr) (getSCEV Addr) in
  let BitWidth := getTypeSizeInBits (scevType Expr) in
  let AccessStartRange := getUnsignedRange Expr in
  let SizeRange := constantRange BitWidth 0 (AccessSize mod 2 ^ BitWidth) in
  let AccessRange := range_add AccessStartRange SizeRange in
  let AllocaRange := constantRange BitWidth 0 (AllocaSize mod 2 ^ BitWidth) in
  range_contains AllocaRange AccessRange.

Definition IsMemIntrinsicSafe (MI : MemIntrinsic) (U AllocaPtr : value) (AllocaSize : Z) : bool :=
  let elsewhere :=
    match rawSource MI with
    | Some src => negb (bool_decide (src = U)) && negb (bool_decide (rawDest MI = U))
    | None => negb (bool_decide (rawDest MI = U))
    end in
  if elsewhere then true
  else match memLength MI with
       | VConstInt Len => IsAccessSafe U (getZExtValue Len) AllocaPtr AllocaSize
       | VRef _ => false
       end.

(** Passing [V] as an argument is safe where the callee neither keeps nor reads it. *)
Definition passedSafely (I V : value) : bool :=
  forallb (fun '(n, A) => negb (bool_decide (A = V)) ||
      (doesNotCapture Q I n && (argDoesNotAccessMemory Q I n || doesNotAccessMemory Q I)))
    (imap pair (callArgs M I)).

(** What the loop does at one use. *)
Inductive UseVerdict := ReturnFalse | Break | Follow.

#[global] Instance UseVerdict_eq_dec : EqDecision UseVerdict.
Proof. solve_decision. Defined.

Definition breakIf (b : bool) : UseVerdict := if b then Break else ReturnFalse.

(** The switch on the opcode of the user [I] of [V]. *)
Definition visitUse (AllocaPtr : value) (AllocaSize : Z) (V I : value) : UseVerdict :=
  match kindOf M I with
  | KInst (ILoad _) => breakIf (IsAccessSafe V (getTypeStoreSize DL (getType M I)) AllocaPtr AllocaSize)
  | KInst (IStore val _) =>
    if decide (V = val) then ReturnFalse
    else breakIf (IsAccessSafe V (getTypeStoreSize DL (getType M val)) AllocaPtr AllocaSize)
  | KInst (IRet _) => ReturnFalse
  | KInst (ICall _ _) | KInst (IInvoke _ _ _ _) =>
    if isLifetimeStartOrEnd Q I then Break
    else match memIntrinsic Q I with
         | Some MI => breakIf (IsMemIntrinsicSafe MI V AllocaPtr AllocaSize)
         | None => breakIf (passedSafely I V)
         end
  | _ => if isVAArg Q I then Break else Follow
  end.

(** The uses of [V]; [None] is [return false].  The state is [Visited] and [WorkList],
    whose back is the head of the list. *)
Fixpoint visitUses (AllocaPtr : value) (AllocaSize : Z) (V : value) (uses : list value)
    (s : gset value * list value) : option (gset value * list value) :=
  match uses with
  | [] => Some s
  | user :: uses =>
    match visitUse AllocaPtr AllocaSize V user with
    | ReturnFalse => None
    | Break => visitUses AllocaPtr AllocaSize V uses s
    | Follow => visitUses AllocaPtr AllocaSize V uses
                  (if decide (user ∈ s.1) then s else ({[user]} ∪ s.1, user :: s.2))
    end
  end.

Fixpoint searchUses (fuel : nat) (AllocaPtr : value) (AllocaSize : Z) (s : gset value * list value) : option bool :=
  match fuel with
  | O => None
  | S fuel =>
    match s.2 with
    | [] => Some true
    | V :: WorkList =>
      match visitUses AllocaPtr AllocaSize V (users M V) (s.1, WorkList) with
      | None => Some false
      | Some s' => searchUses fuel AllocaPtr AllocaSize s'
      end
    end
  end.

(** The outer [None]: out of fuel. *)
Definition IsSafeStackAlloca (fuel : nat) (AllocaPtr : value) (AllocaSize : Z) : option bool :=
  searchUses fuel AllocaPtr AllocaSize (∅, [AllocaPtr]).

(** ** [findInsts] *)
Record Found := {
  StaticAllocas : list value;
  DynamicAllocas : list value;
  ByValArguments : list value;
  Returns : list value;
  StackRestorePoints : list value;
}.

Definition nothingFound : Found := Build_Found [] [] [] [] [].

Definition addStatic (v : value) (f : Found) : Found :=
  Build_Found (StaticAllocas f ++ [v]) (DynamicAllocas f) (ByValArguments f) (Returns f) (StackRestorePoints f).
Definition addDynamic (v : value) (f : Found) : Found :=
  Build_Found (StaticAllocas f) (DynamicAllocas f ++ [v]) (ByValArguments f) (Returns f) (StackRestorePoints f).
Definition addByVal (v : value) (f : Found) : Found :=
  Build_Found (StaticAllocas f) (DynamicAllocas f) (ByValArguments f ++ [v]) (Returns f) (StackRestorePoints f).
Definition addReturn (v : value) (f : Found) : Found :=
  Build_Found (StaticAllocas f) (DynamicAllocas f) (ByValArguments f) (Returns f ++ [v]) (StackRestorePoints f).
Definition addRestorePoint (v : value) (f : Found) : Found :=
  Build_Found (StaticAllocas f) (DynamicAllocas f) (ByValArguments f) (Returns f) (StackRestorePoints f ++ [v]).

(** Whether the alloca may stay: with -dg-safe, whether it carries no
    [dualguard.unsafe] metadata. *)
Definition allocaIsSafe (DGSafe : bool) (t : Tags) (fuel : nat) (AI : value) : option bool :=
  if DGSafe then Some (negb (bool_decide (AI ∈ unsafeTag t)))
  else IsSafeStackAlloca fuel AI (getStaticAllocaAllocationSize AI).

(** One instruction.  Every intrinsic call is a [CallInst], so the test for gcroot that
    follows the test for calls is never reached. *)
Definition findInst (DGSafe : bool) (t : Tags) (fuel : nat) (I : value) (f : Found) : option Found :=
  match kindOf M I with
  | KInst (IAlloca _ _) =>
    isSafe ← allocaIsSafe DGSafe t fuel I;
    Some (if (isSafe : bool) then f else if isStaticAlloca Q I then addStatic I f else addDynamic I f)
  | KInst (IRet _) =>
    Some (addReturn (default I (getTerminatingMustTailCall Q (getParent M I))) f)
  | KInst (ICall _ _) =>
    Some (if bool_decide (is_Some (getCalledFunction M I)) && canReturnTwice Q I then addRestorePoint I f else f)
  | _ => Some (if isLandingPad Q I then addRestorePoint I f else f)
  end.

Fixpoint findIn (DGSafe : bool) (t : Tags) (fuel : nat) (l : list value) (f : Found) : option Found :=
  match l with
  | [] => Some f
  | i :: l => f ← findInst DGSafe t fuel i f; findIn DGSafe t fuel l f
  end.

Definition findArg (fuel : nat) (Arg : value) (f : Found) : option Found :=
  if hasByValAttr Q Arg then
    isSafe ← IsSafeStackAlloca fuel Arg (getTypeStoreSize DL (getParamByValType Q Arg));
    Some (if (isSafe : bool) then f else addByVal Arg f)
  else Some f.

Fixpoint findArgs (fuel : nat) (l : list value) (f : Found) : option Found :=
  match l with
  | [] => Some f
  | Arg :: l => f ← findArg fuel Arg f; findArgs fuel l f
  end.

Definition findInsts (DGSafe : bool) (t : Tags) (fuel : nat) (F : value) : option Found :=
  f ← findIn DGSafe t fuel (instructions M F) nothingFound;
  if DGSafe then Some f else findArgs fuel (fargs M F) f.

End SafeStack.

(** ** Lemmas: the search over the uses *)
Section SearchLemmas.
Context `{SE : ScalarEvolution}.
Variable M : IRModule.
Variable DL : DataLayout.
Variable Q : InstInfo.
Variable AllocaPtr : value.
Variable AllocaSize : Z.
Abbreviation verdict := (visitUse M DL Q AllocaPtr AllocaSize).

(** A use the search goes on from, and the values it reaches. *)
Definition followedUse (V user : value) : Prop := user ∈ users M V /\ verdict V user = Follow.
Definition derived (V : value) : Prop := rtc followedUse AllocaPtr V.

(** No use of [V] lets the search fail. *)
Definition usesPass (V : value) : Prop := forall user, user ∈ users M V -> verdict V user <> ReturnFalse.

Abbreviation followedOf V := (filter (fun u => verdict V u = Follow)).

Lemma elem_followed V x : x ∈ followedOf V (users M V) <-> followedUse V x.
Proof. rewrite list_elem_of_filter. unfold followedUse. tauto. Qed.

Lemma visitUses_spec V uses s :
  match visitUses M DL Q AllocaPtr AllocaSize V uses s with
  | None => exists user, user ∈ uses /\ verdict V user = ReturnFalse
  | Some s' =>
    (forall user, user ∈ uses -> verdict V user <> ReturnFalse) /\
    (forall x, x ∈ s'.1 <-> x ∈ s.1 \/ x ∈ followedOf V uses) /\
    (forall x, x ∈ s'.2 <-> x ∈ s.2 \/ (x ∈ followedOf V uses /\ x ∉ s.1)) /\
    length s'.2 + size s.1 = length s.2 + size s'.1
  end.
Proof.
  revert s. induction uses as [|u uses IH]; intros s; simpl.
  { split_and!; [by intros ? ?%elem_of_nil|set_solver..]. }
  assert (verdict V u <> ReturnFalse -> (forall user, user ∈ uses -> verdict V user <> ReturnFalse) ->
    forall user, user ∈ u :: uses -> verdict V user <> ReturnFalse) as Hall
    by (intros Hu Hus user [->|?]%elem_of_cons; auto).
  destruct (verdict V u) eqn:Hu.
  - exists u. split; [left|done].
  - specialize (IH s). rewrite filter_cons_False by congruence.
    destruct (visitUses _ _ _ _ _ _ _ _) as [s'|]; [|destruct IH as (x & ? & ?); exists x; split; [by right|done]].
    destruct IH as (H1 & H2 & H3 & H4). split_and!; [apply Hall; [congruence|done]|done..].
  - specialize (IH (if decide (u ∈ s.1) then s else ({[u]} ∪ s.1, u :: s.2))). rewrite filter_cons_True by done.
    destruct (visitUses _ _ _ _ _ _ _ _) as [s'|]; [|destruct IH as (x & ? & ?); exists x; split; [by right|done]].
    destruct IH as (H1 & H2 & H3 & H4). split_and!; [apply Hall; [congruence|done]|..]; clear H1 Hall Hu.
    + intros x. rewrite H2. destruct (decide (u ∈ s.1)); simpl; set_solver.
    + intros x. rewrite H3. destruct (decide (u ∈ s.1)), (decide (x = u)); simpl; set_solver.
    + destruct (decide (u ∈ s.1)) as [Hs|Hs]; simpl in *; [done|].
      rewrite size_union, size_singleton in H4 by set_solver. lia.
Qed.

(** What the search has visited and processed. *)
Record uses_inv (s : gset value * list value) (processed : list value) : Prop := {
  ui_derived : forall x, x ∈ s.1 \/ x ∈ s.2 -> derived x;
  ui_start : AllocaPtr ∈ processed \/ AllocaPtr ∈ s.2;
  ui_cover : forall x, x ∈ s.1 -> x ∈ processed \/ x ∈ s.2;
  ui_pass : forall x, x ∈ processed -> usesPass x;
  ui_closed : forall x y, x ∈ processed -> followedUse x y -> y ∈ s.1 }.

Lemma uses_inv_init : uses_inv (∅, [AllocaPtr]) [].
Proof. split; try set_solver. intros x [Hx|Hx]; simpl in Hx; [set_solver|]. apply list_elem_of_singleton in Hx as ->. constructor. Qed.

Lemma uses_inv_step visited V wl processed s' :
  uses_inv (visited, V :: wl) processed ->
  visitUses M DL Q AllocaPtr AllocaSize V (users M V) (visited, wl) = Some s' ->
  uses_inv s' (V :: processed).
Proof.
  intros [Hd Hs Hc Hp Hcl] Hv. pose proof (visitUses_spec V (users M V) (visited, wl)) as Hspec.
  rewrite Hv in Hspec. destruct Hspec as (H1 & H2 & H3 & _). simpl in *. split.
  - assert (derived V) as HV by (apply Hd; right; left).
    intros x [[Hx|Hx%elem_followed]%H2|[Hx|[Hx%elem_followed _]]%H3];
      [apply Hd; by left| |apply Hd; right; by right|]; by eapply rtc_r.
  - destruct Hs as [?|[->|?]%elem_of_cons]; [left; by right|left; left|right; apply H3; by left].
  - intros x [Hx|Hx]%H2.
    + destruct (Hc x Hx) as [?|[->|?]%elem_of_cons]; [left; by right|left; left|right; apply H3; by left].
    + destruct (decide (x ∈ visited)) as [Hx'|Hx']; [|right; apply H3; by right].
      destruct (Hc x Hx') as [?|[->|?]%elem_of_cons]; [left; by right|left; left|right; apply H3; by left].
  - intros x [->|Hx]%elem_of_cons; [done|by apply Hp].
  - intros x y [->|Hx]%elem_of_cons Hf; apply H2; [right; by apply elem_followed|left; by eapply Hcl].
Qed.

(** The search ends when the uses of the values of [U] lead to [U], and its answer is
    exact. *)
Lemma searchUses_exact fuel (U : gset value) s processed :
  uses_inv s processed -> (forall x y, x ∈ U -> followedUse x y -> y ∈ U) -> Forall (.∈ U) s.2 ->
  length s.2 + size (U ∖ s.1) < fuel ->
  exists b, searchUses M DL Q fuel AllocaPtr AllocaSize s = Some b /\
    (b = true <-> forall V, derived V -> usesPass V).
Proof.
  revert s processed. induction fuel as [|k IH]; intros [visited wl] processed Hi HU Hw Hf; simpl in *; [lia|].
  destruct wl as [|V wl]; simpl.
  { exists true. split; [done|]. split; [|done]. intros _ V HV. destruct Hi as [_ Hs Hc Hp Hcl]. simpl in *.
    apply Hp. assert (AllocaPtr ∈ processed) as Ha by (destruct Hs as [|Hn]; [done|by apply elem_of_nil in Hn]).
    refine (rtc_ind_r (.∈ processed) AllocaPtr Ha _ V HV). intros x y _ Hxy Hx.
    destruct (Hc y) as [|Hn]; [by eapply Hcl|done|by apply elem_of_nil in Hn]. }
  apply Forall_cons in Hw as [HV Hw].
  pose proof (visitUses_spec V (users M V) (visited, wl)) as Hspec.
  destruct (visitUses _ _ _ _ _ _ _ _) as [s'|] eqn:Hv.
  - apply (IH s' (V :: processed)); [by eapply uses_inv_step|done|..]; destruct Hspec as (_ & H2 & H3 & H4); simpl in *.
    + apply Forall_elem. intros x [Hx|[Hx%elem_followed _]]%H3; [by eapply (Forall_elem_of (.∈ U))|]. by apply (HU V).
    + assert (s'.1 ∖ visited ⊆ U) as HsU.
      { intros x [[Hx|Hx%elem_followed]%H2 Hn]%elem_of_difference; [done|]. by apply (HU V). }
      assert (visited ⊆ s'.1) as Hsub by (intros x Hx; apply H2; by left). clear H2 H3 Hv Hi IH HU.
      assert (size (U ∖ visited) = size (s'.1 ∖ visited) + size (U ∖ s'.1)) as HUs.
      { rewrite <- size_union by set_solver. f_equal. apply set_eq. intros x. destruct (decide (x ∈ s'.1)); set_solver. }
      assert (size s'.1 = size visited + size (s'.1 ∖ visited)).
      { rewrite <- size_union by set_solver. f_equal. apply set_eq. intros x.
        destruct (decide (x ∈ visited)); set_solver. }
      lia.
  - exists false. split; [done|]. split; [done|]. intros Hall. destruct Hspec as (u & Hu & Hr).
    assert (derived V) as HdV by (apply (ui_derived _ _ Hi); right; left). by destruct (Hall V HdV u Hu).
Qed.

Lemma IsSafeStackAlloca_exact fuel (U : gset value) :
  AllocaPtr ∈ U -> (forall x y, x ∈ U -> followedUse x y -> y ∈ U) -> size U + 1 < fuel ->
  exists b, IsSafeStackAlloca M DL Q fuel AllocaPtr AllocaSize = Some b /\
    (b = true <-> forall V, derived V -> usesPass V).
Proof.
  intros HA HU Hf. apply (searchUses_exact fuel U _ [] uses_inv_init HU); simpl.
  - by repeat constructor.
  - rewrite difference_empty_L. lia.
Qed.

End SearchLemmas.

(** ** Lemmas: accesses *)
Section AccessLemmas.
Context `{SE : ScalarEvolution} {SEL : ScalarEvolutionLaws}.
Local Open Scope Z_scope.

(** The address with the object's own address taken as zero. *)
Definition offsetIn (AllocaPtr : value) (rho : value -> Z) (Addr : value) : Z :=
  evalSCEV (fun v => if decide (v = AllocaPtr) then 0 else rho v) (getSCEV Addr).

(** The width the code computes with for an address. *)
Definition addressWidth (AllocaPtr Addr : value) : Z :=
  getTypeSizeInBits (scevType (rewriteUnknowns (visitUnknown AllocaPtr) (getSCEV Addr))).

Lemma eval_rewriter A rho Addr :
  evalSCEV rho (rewriteUnknowns (visitUnknown A) (getSCEV Addr)) = offsetIn A rho Addr.
Proof.
  apply eval_rewrite. intros v. unfold visitUnknown. rewrite (eval_unknown _ v).
  destruct (decide (v = A)); [by rewrite eval_zero, Z.mod_0_l by (pose proof (width_pos (unknown v)); lia)|apply eval_unknown].
Qed.

Lemma IsAccessSafe_sound Addr n A size rho :
  possible rho -> IsAccessSafe Addr n A size = true -> 0 < n < 2 ^ addressWidth A Addr -> 0 <= size < 2 ^ addressWidth A Addr ->
  0 <= offsetIn A rho Addr /\ offsetIn A rho Addr + n <= size.
Proof.
  unfold IsAccessSafe, addressWidth. set (e := rewriteUnknowns _ _). intros Hrho Hc Hn Hs.
  rewrite !Z.mod_small in Hc by lia. rewrite <- (eval_rewriter A rho Addr). fold e.
  pose proof (unsigned_range rho e Hrho) as Hoff. pose proof (width_pos e) as Hw.
  pose proof (range_bounds _ _ Hoff) as Hb. rewrite unsigned_width in Hb.
  set (off := evalSCEV rho e) in *. set (w := getTypeSizeInBits (scevType e)) in *.
  assert (forall k, 0 <= k < n -> (off + k) mod 2 ^ w < size) as Hk.
  { intros k Hk. apply (constant_range w size); [lia..|]. apply (contains_range _ _ _ Hc).
    apply add_range; [apply unsigned_width|apply constant_width|done|]. apply constant_range; lia. }
  split; [lia|]. destruct (Z.lt_ge_cases size (off + n)) as [Hlt|]; [|done]. exfalso.
  destruct (Z.lt_ge_cases off size) as [Ho|Ho].
  - specialize (Hk (size - off)). rewrite Z.mod_small in Hk by lia. lia.
  - specialize (Hk 0). rewrite Z.mod_small in Hk by lia. lia.
Qed.

Variable M : IRModule.
Variable DL : DataLayout.
Variable Q : InstInfo.

Definition isCallOrInvoke (I : value) : bool :=
  match kindOf M I with KInst (ICall _ _) | KInst (IInvoke _ _ _ _) => true | _ => false end.

(** The instruction [I] reads or writes [n] bytes at [V]. *)
Inductive accesses (V I : value) : Z -> Prop :=
| acc_load p : kindOf M I = KInst (ILoad p) -> accesses V I (getTypeStoreSize DL (getType M I))
| acc_store val p : kindOf M I = KInst (IStore val p) -> val <> V ->
    accesses V I (getTypeStoreSize DL (getType M val))
| acc_mem MI Len : isCallOrInvoke I = true -> isLifetimeStartOrEnd Q I = false -> memIntrinsic Q I = Some MI ->
    rawDest MI = V \/ rawSource MI = Some V -> memLength MI = VConstInt Len -> accesses V I (getZExtValue Len).

(** The instruction [I] lets the pointer [V] out: it stores or returns it, passes it to a
    call that may keep or read it, or accesses an unknown number of bytes at it. *)
Inductive escapes (V I : value) : Prop :=
| esc_store p : kindOf M I = KInst (IStore V p) -> escapes V I
| esc_ret r : kindOf M I = KInst (IRet r) -> escapes V I
| esc_call n : isCallOrInvoke I = true -> isLifetimeStartOrEnd Q I = false -> memIntrinsic Q I = None ->
    callArgs M I !! n = Some V ->
    doesNotCapture Q I n = false \/ (argDoesNotAccessMemory Q I n = false /\ doesNotAccessMemory Q I = false) ->
    escapes V I
| esc_mem MI v : isCallOrInvoke I = true -> isLifetimeStartOrEnd Q I = false -> memIntrinsic Q I = Some MI ->
    rawDest MI = V \/ rawSource MI = Some V -> memLength MI = VRef v -> escapes V I.

Lemma visitUse_call A size V I :
  isCallOrInvoke I = true ->
  visitUse M DL Q A size V I =
    if isLifetimeStartOrEnd Q I then Break
    else match memIntrinsic Q I with
         | Some MI => breakIf (IsMemIntrinsicSafe MI V A size)
         | None => breakIf (passedSafely M Q I V)
         end.
Proof. unfold isCallOrInvoke, visitUse. by repeat case_match. Qed.

Lemma breakIf_pass b : breakIf b <> ReturnFalse -> b = true.
Proof. by destruct b. Qed.

Lemma passedSafely_spec I V n :
  passedSafely M Q I V = true -> callArgs M I !! n = Some V ->
  doesNotCapture Q I n = true /\ (argDoesNotAccessMemory Q I n = true \/ doesNotAccessMemory Q I = true).
Proof.
  intros Hp Hn. unfold passedSafely in Hp. rewrite forallb_forall in Hp.
  specialize (Hp (n, V)).
  assert (In (n, V) (imap pair (callArgs M I))) as Hin.
  { apply list_elem_of_In, list_elem_of_lookup. exists n. by rewrite list_lookup_imap, Hn. }
  specialize (Hp Hin). simpl in Hp. rewrite bool_decide_eq_true_2 in Hp by done.
  by apply andb_true_iff in Hp as [? ?%orb_true_iff].
Qed.

Lemma mem_pass MI V A size :
  IsMemIntrinsicSafe MI V A size = true -> rawDest MI = V \/ rawSource MI = Some V ->
  exists Len, memLength MI = VConstInt Len /\ IsAccessSafe V (getZExtValue Len) A size = true.
Proof.
  unfold IsMemIntrinsicSafe. intros Hs Hv.
  assert (match rawSource MI with
    | Some src => negb (bool_decide (src = V)) && negb (bool_decide (rawDest MI = V))
    | None => negb (bool_decide (rawDest MI = V)) end = false) as He.
  { destruct Hv as [Hv|Hv].
    - rewrite (bool_decide_eq_true_2 (rawDest MI = V)) by done. destruct (rawSource MI); [by rewrite andb_false_r|done].
    - rewrite Hv. by rewrite bool_decide_eq_true_2. }
  rewrite He in Hs. destruct (memLength MI); [eauto|done].
Qed.

Lemma use_pass_access A size V I n :
  visitUse M DL Q A size V I <> ReturnFalse -> accesses V I n -> IsAccessSafe V n A size = true.
Proof.
  intros Hv Ha. destruct Ha as [p Hk|val p Hk Hne|MI Len Hc Hl Hm Hw Hlen].
  - unfold visitUse in Hv. rewrite Hk in Hv. by apply breakIf_pass.
  - unfold visitUse in Hv. rewrite Hk in Hv. rewrite decide_False in Hv by congruence. by apply breakIf_pass.
  - rewrite (visitUse_call _ _ _ _ Hc), Hl, Hm in Hv. apply breakIf_pass in Hv.
    destruct (mem_pass _ _ _ _ Hv Hw) as (Len' & Hl' & ?). rewrite Hlen in Hl'. by injection Hl' as <-.
Qed.

Lemma use_pass_no_escape A size V I :
  visitUse M DL Q A size V I <> ReturnFalse -> ~ escapes V I.
Proof.
  intros Hv He. destruct He as [p Hk|r Hk|n Hc Hl Hm Hn Hb|MI v Hc Hl Hm Hw Hlen].
  - unfold visitUse in Hv. rewrite Hk in Hv. by rewrite decide_True in Hv by done.
  - unfold visitUse in Hv. by rewrite Hk in Hv.
  - rewrite (visitUse_call _ _ _ _ Hc), Hl, Hm in Hv. apply breakIf_pass in Hv.
    destruct (passedSafely_spec _ _ _ Hv Hn) as [? [?|?]]; destruct Hb as [?|[? ?]]; congruence.
  - rewrite (visitUse_call _ _ _ _ Hc), Hl, Hm in Hv. apply breakIf_pass in Hv.
    destruct (mem_pass _ _ _ _ Hv Hw) as (Len' & ? & ?). congruence.
Qed.

End AccessLemmas.

(** ** Lemmas: what [findInsts] collects *)
Section FindLemmas.
Context `{SE : ScalarEvolution}.
Variable M : IRModule.
Variable DL : DataLayout.
Variable Q : InstInfo.

Definition isReturn (i : value) : bool := match kindOf M i with KInst (IRet _) => true | _ => false end.

(** Calls that may return twice, and landing pads. *)
Definition isRestorePoint (i : value) : bool :=
  match kindOf M i with
  | KInst (ICall _ _) => bool_decide (is_Some (getCalledFunction M i)) && canReturnTwice Q i
  | KInst (IAlloca _ _) | KInst (IRet _) => false
  | _ => isLandingPad Q i
  end.

(** The instruction to restore the stack pointer before: the return or the tail call it
    returns from. *)
Definition returnPoint (i : value) : value := default i (getTerminatingMustTailCall Q (getParent M i)).

Definition movedStatic (t : Tags) (i : value) : bool :=
  isAllocaInst M i && bool_decide (i ∈ unsafeTag t) && isStaticAlloca Q i.
Definition movedDynamic (t : Tags) (i : value) : bool :=
  isAllocaInst M i && bool_decide (i ∈ unsafeTag t) && negb (isStaticAlloca Q i).

Definition foundIn (t : Tags) (l : list value) : Found :=
  Build_Found (filter (fun i => movedStatic t i = true) l) (filter (fun i => movedDynamic t i = true) l) []
    (returnPoint <$> filter (fun i => isReturn i = true) l) (filter (fun i => isRestorePoint i = true) l).

Definition joinFound (f g : Found) : Found :=
  Build_Found (StaticAllocas f ++ StaticAllocas g) (DynamicAllocas f ++ DynamicAllocas g)
    (ByValArguments f ++ ByValArguments g) (Returns f ++ Returns g) (StackRestorePoints f ++ StackRestorePoints g).

Lemma foundIn_cons t i l : foundIn t (i :: l) = joinFound (foundIn t [i]) (foundIn t l).
Proof.
  unfold foundIn, joinFound. simpl. rewrite !filter_cons, !filter_nil.
  f_equal; repeat case_decide; reflexivity.
Qed.

Lemma joinFound_assoc f g h : joinFound (joinFound f g) h = joinFound f (joinFound g h).
Proof. unfold joinFound. simpl. by rewrite <- !app_assoc. Qed.

Lemma joinFound_nothing f : joinFound f nothingFound = f.
Proof. destruct f. unfold joinFound. simpl. by rewrite !app_nil_r. Qed.

Lemma findInst_tagged t fuel i f :
  findInst M DL Q true t fuel i f = Some (joinFound f (foundIn t [i])).
Proof.
  assert (forall g, g = joinFound f (foundIn t [i]) -> Some g = Some (joinFound f (foundIn t [i]))) as Hs by congruence.
  assert (f = joinFound f nothingFound) as Hf by (symmetry; apply joinFound_nothing).
  destruct f as [a b c d e]. unfold findInst, allocaIsSafe.
  unfold foundIn, movedStatic, movedDynamic, isReturn, isRestorePoint, returnPoint, isAllocaInst in *.
  rewrite !filter_cons, !filter_nil in *.
  destruct (bool_decide (i ∈ unsafeTag t)), (isStaticAlloca Q i), (isLandingPad Q i),
    (bool_decide (is_Some (getCalledFunction M i)) && canReturnTwice Q i) eqn:Hc;
    (destruct (kindOf M i) as [| | | | | | | | |k|]; [..|destruct k|]; simpl in *; rewrite ?Hc; apply Hs; clear Hs;
     repeat case_match; simpl in *; try done; unfold joinFound in *; simpl in *; rewrite ?app_nil_r in *; done).
Qed.

Lemma findIn_tagged t fuel l f : findIn M DL Q true t fuel l f = Some (joinFound f (foundIn t l)).
Proof.
  revert f. induction l as [|i l IH]; intros f.
  - simpl. assert (foundIn t [] = nothingFound) as -> by reflexivity. by rewrite joinFound_nothing.
  - cbn [findIn]. rewrite findInst_tagged. cbn [mbind option_bind]. rewrite (foundIn_cons t i l), <- joinFound_assoc. apply IH.
Qed.

Lemma findInsts_tagged t fuel F : findInsts M DL Q true t fuel F = Some (foundIn t (instructions M F)).
Proof. unfold findInsts. by rewrite findIn_tagged. Qed.

Lemma elem_moved t l i :
  i ∈ StaticAllocas (foundIn t l) ++ DynamicAllocas (foundIn t l) <->
  i ∈ l /\ isAllocaInst M i = true /\ i ∈ unsafeTag t.
Proof.
  unfold foundIn, movedStatic, movedDynamic. simpl. rewrite elem_of_app, !list_elem_of_filter.
  rewrite !andb_true_iff, !bool_decide_eq_true, negb_true_iff. destruct (isStaticAlloca Q i); intuition congruence.
Qed.

End FindLemmas.

(** ** Lemmas: tags on allocation sites *)
Section SiteLemmas.
Variable M : IRModule.
Variable P : SVF.

Lemma tagSites_spec objs t v :
  v ∈ unsafeTag (tagSites M P objs t) <-> v ∈ unsafeTag t \/ exists o, o ∈ objs /\ objectSite M P o = Some v.
Proof.
  unfold tagSites.
  assert (forall l t, v ∈ unsafeTag (fold_left (fun t v => tag v t) l t) <-> v ∈ unsafeTag t \/ v ∈ l) as Hf.
  { intros l. induction l as [|x l IH]; intros t'; simpl; [set_solver|]. rewrite IH. simpl. set_solver. }
  rewrite Hf, list_elem_of_omap. setoid_rewrite elem_of_elements. done.
Qed.

(** The last step tags only loads, stores and comparisons. *)
Lemma tagInst_alloca geps objs i t v :
  isAllocaInst M v = true -> v ∈ unsafeTag (tagInst M P geps objs i t) <-> v ∈ unsafeTag t.
Proof.
  unfold isAllocaInst, tagInst. intros Hv.
  destruct (kindOf M i) as [| | | | | | | | |k|] eqn:Hk; try done. destruct k; try done;
    match goal with |- context [if ?b then _ else _] => destruct b end; simpl; try done;
    (rewrite elem_of_union, elem_of_singleton; split; [intros [->|]; [by rewrite Hk in Hv|done]|by right]).
Qed.

Lemma tagGEPs_alloca l t v :
  isAllocaInst M v = true -> v ∈ unsafeTag (tagGEPs M l t) <-> v ∈ unsafeTag t.
Proof.
  intros Hv. unfold tagGEPs. revert t. induction l as [|g l IH]; intros t; simpl; [done|]. rewrite IH.
  destruct (isGEPInst M g) eqn:Hg; [|done]. simpl. rewrite elem_of_union, elem_of_singleton. split; [|by right].
  intros [->|]; [|done]. unfold isAllocaInst in Hv. unfold isGEPInst in Hg. by repeat case_match.
Qed.

Lemma tagOperations_alloca geps t v :
  isAllocaInst M v = true ->
  v ∈ unsafeTag (tagOperationsForProtections M P geps t) <->
  v ∈ unsafeTag t \/ exists g o, g ∈ geps /\ gep_object M P g o /\ objectSite M P o = Some v.
Proof.
  intros Hv. unfold tagOperationsForProtections. set (objs := collectObjects M P (elements geps)).
  assert (forall l t, v ∈ unsafeTag (fold_left (fun t i => tagInst M P geps objs i t) l t) <-> v ∈ unsafeTag t) as ->.
  { intros l. induction l as [|i l IH]; intros t'; simpl; [done|]. by rewrite IH, tagInst_alloca. }
  rewrite tagSites_spec, tagGEPs_alloca by done. unfold objs. setoid_rewrite collectObjects_spec.
  setoid_rewrite elem_of_elements. split; (intros [?|H]; [by left|right]).
  - destruct H as (o & (g & ? & ?) & ?). eauto.
  - destruct H as (g & o & ? & ? & ?). eauto.
Qed.
End SiteLemmas.

(** ** A scalar evolution of sums, for examples *)
Section Linear.
(** The offset of a value from the sum of others. *)
Variable linear : value -> list value * Z.
Local Open Scope Z_scope.

Definition sumOf (rho : value -> Z) (l : list value) : Z := foldr (fun v z => rho v + z) 0 l.

Definition linearRange : Type := Z * (Z * Z).
Definition linearIn (x : Z) (r : linearRange) : Prop := 0 <= x < 2 ^ r.1 /\ r.2.1 <= x < r.2.2.
Definition linearAdd (a b : linearRange) : linearRange :=
  if (0 <=? a.2.1) && (0 <=? b.2.1) && (a.2.2 + b.2.2 - 1 <=? 2 ^ a.1)
  then (a.1, (a.2.1 + b.2.1, a.2.2 + b.2.2 - 1)) else (a.1, (0, 2 ^ a.1)).
Definition linearContains (a b : linearRange) : bool :=
  (a.1 =? b.1) && (a.2.1 <=? b.2.1) && (b.2.2 <=? a.2.2).

Definition linearSE : ScalarEvolution := {|
  SCEV := list value * Z;
  CRange := linearRange;
  getSCEV := linear;
  unknown := fun v => ([v], 0);
  getZero := fun _ => ([], 0);
  scevType := fun _ => TInt 64;
  rewriteUnknowns := fun f e => (concat ((fun v => (f v ([v], 0)).1) <$> e.1), sumOf (fun v => (f v ([v], 0)).2) e.1 + e.2);
  getTypeSizeInBits := fun _ => 64;
  getUnsignedRange := fun e => if bool_decide (e.1 = []) then (64, (e.2 mod 2 ^ 64, e.2 mod 2 ^ 64 + 1)) else (64, (0, 2 ^ 64));
  constantRange := fun w l u => (w, (l, u));
  range_add := linearAdd;
  range_contains := linearContains |}.

Definition linearEval (rho : value -> Z) (e : list value * Z) : Z := (sumOf rho e.1 + e.2) mod 2 ^ 64.

Lemma sumOf_app rho l1 l2 : sumOf rho (l1 ++ l2) = sumOf rho l1 + sumOf rho l2.
Proof using Type. unfold sumOf. induction l1 as [|v l1 IH]; simpl; lia. Qed.

Lemma linear_rewrite rho rho' (f : value -> list value * Z) l c :
  (forall v, linearEval rho (f v) = linearEval rho' ([v], 0)) ->
  linearEval rho (concat ((fun v => (f v).1) <$> l), sumOf (fun v => (f v).2) l + c) = linearEval rho' (l, c).
Proof using Type.
  intros Hf. unfold linearEval in *. cbn [fst snd] in *. revert c.
  induction l as [|v l IH]; intros c; [done|].
  rewrite fmap_cons. cbn [concat]. rewrite sumOf_app.
  change (sumOf (fun v => (f v).2) (v :: l)) with ((f v).2 + sumOf (fun v => (f v).2) l).
  change (sumOf rho' (v :: l)) with (rho' v + sumOf rho' l). specialize (Hf v). specialize (IH 0).
  change (sumOf rho' [v]) with (rho' v + 0) in Hf. rewrite !Z.add_0_r in Hf, IH.
  set (A := sumOf rho (f v).1) in *. set (B := (f v).2) in *. set (C := sumOf rho (concat _)) in *.
  set (D := sumOf (fun v => (f v).2) l) in *. set (E := sumOf rho' l) in *.
  replace (A + C + (B + D + c)) with ((A + B) + (C + D) + c) by lia.
  rewrite <- (Z.add_mod_idemp_l (A + B + (C + D)) c), (Z.add_mod (A + B) (C + D)), Hf, IH by lia.
  by rewrite <- (Z.add_mod (rho' v) E), Z.add_mod_idemp_l by lia.
Qed.

Lemma linearAdd_sound w a b x y :
  a.1 = w -> b.1 = w -> linearIn x a -> linearIn y b -> linearIn ((x + y) mod 2 ^ w) (linearAdd a b).
Proof using Type.
  intros <- Hb [Hx Hxa] [Hy Hyb]. rewrite Hb in Hy. pose proof (Z.mod_pos_bound (x + y) (2 ^ a.1)).
  unfold linearAdd. destruct (_ && _) eqn:Hc; [|split; simpl; lia]. bool_prop.
  rewrite Z.mod_small in * by lia. split; simpl; lia.
Qed.

#[refine] Definition linearLaws : @ScalarEvolutionLaws linearSE := {|
  evalSCEV := linearEval : _ -> @SCEV linearSE -> Z;
  possible := fun _ => True;
  inRange := linearIn : _ -> @CRange linearSE -> Prop;
  rangeWidth := fst : @CRange linearSE -> Z |}.
Proof.
  - done.
  - intros rho v. unfold linearEval. simpl. by rewrite !Z.add_0_r.
  - intros rho rho' f [l c] Hf. apply (linear_rewrite rho rho' (fun v => f v ([v], 0)) l c Hf).
  - done.
  - intros [l c]. simpl. by case_match.
  - intros rho [l c] _. simpl. unfold linearEval. pose proof (Z.mod_pos_bound (sumOf rho l + c) (2 ^ 64)).
    case_bool_decide as Hl; cbn [fst snd] in *; [|split; cbn [fst snd]; lia].
    subst l. change (sumOf rho []) with 0 in *. rewrite Z.add_0_l in *. split; cbn [fst snd]; lia.
  - intros x r [? _]. done.
  - done.
  - intros w u x Hw Hu. unfold linearIn. simpl. lia.
  - intros w a b x y. apply linearAdd_sound.
  - intros a b x Hc [Hx Hxb]. unfold range_contains in Hc. simpl in Hc. unfold linearContains in Hc. bool_prop. split; simpl in *; [congruence|lia].
Defined.
End Linear.

(** ** A function for examples: an array, an access to its second element, a call that may
    return twice, a return *)
Definition demoKind (p : positive) : kind :=
  match p with
  | 1%positive => KInst (IAlloca (TArray 4 (TInt 32)) (VConstInt (APInt 32 1)))
  | 2%positive => KInst (IGEP (TArray 4 (TInt 32)) (TInt 32) (VRef 1) [VConstInt (APInt 64 0); VConstInt (APInt 64 1)])
  | 3%positive => KInst (IStore (VConstInt (APInt 32 7)) (VRef 2))
  | 4%positive => KInst (ICall (VRef 30) [])
  | 5%positive => KInst (IRet None)
  | 20%positive => KFunction
  | 21%positive => KBasicBlock
  | 30%positive => KFunction
  | _ => KOther
  end.

Definition demoModule : IRModule := {|
  m_kind := demoKind;
  m_type := fun p => match p with 1%positive | 2%positive => TPtr (TInt 32) | _ => TVoid end;
  getName := fun _ => String.EmptyString;
  users := fun v => match v with VRef 1%positive => [VRef 2] | VRef 2%positive => [VRef 3] | _ => [] end;
  functions := [VRef 20]; globals := [];
  blocks := fun v => if decide (v = VRef 20) then [VRef 21] else [];
  insts := fun v => if decide (v = VRef 21) then [VRef 1; VRef 2; VRef 3; VRef 4; VRef 5] else [];
  fargs := fun _ => []; getParent := fun _ => VRef 21; getBBParent := fun _ => VRef 20;
  isDeclaration := fun _ => false;
  getCalledFunction := fun v => if decide (v = VRef 4) then Some (VRef 30) else None;
  predecessors := fun _ => []; stripPointerCasts := fun v => v; getFunctionNamed := fun _ => None |}.

Definition demoDL : DataLayout :=
  {| getTypeAllocSize := fun t => match t with TArray _ _ => 16%Z | TPtr _ => 8%Z | _ => 4%Z end;
     getTypeStoreSize := fun _ => 4%Z; getElementOffset := fun _ _ => 0%Z; structNumElements := fun _ => 0%Z |}.

Definition demoInfo : InstInfo := {|
  isVAArg := fun _ => false; isLifetimeStartOrEnd := fun _ => false; memIntrinsic := fun _ => None;
  doesNotCapture := fun _ _ => false; argDoesNotAccessMemory := fun _ _ => false; doesNotAccessMemory := fun _ => false;
  isStaticAlloca := fun _ => true; getTerminatingMustTailCall := fun _ => None;
  canReturnTwice := fun _ => true; isLandingPad := fun _ => false;
  hasByValAttr := fun _ => false; getParamByValType := fun _ => TVoid |}.

Definition demoSE : ScalarEvolution :=
  linearSE (fun v => if decide (v = VRef 2) then ([VRef 1], 4%Z) else ([v], 0%Z)).
Definition demoLaws : @ScalarEvolutionLaws demoSE := linearLaws _.

(** ** Properties *)

(** C31: the analysis of uses ends, and an object it calls safe is accessed inside its
    bounds only: at each use of a pointer derived from it (through the uses the search
    follows), a load, a store or a constant-size memory intrinsic of at least one byte
    stays within [AllocaSize] bytes of the start of the object, for all values an execution
    can give the program's variables, as far as the sizes fit the width of an address; and
    the pointer is not stored, returned or passed to a call that may keep or read it.
    Scalar evolution is trusted for what [ScalarEvolutionLaws] lists. *)
Theorem safe_alloca_in_bounds `{SE : ScalarEvolution} {SEL : ScalarEvolutionLaws} M DL Q (U : gset value) fuel A size :
  A ∈ U -> (forall x y, x ∈ U -> followedUse M DL Q A size x y -> y ∈ U) -> (Datatypes.S (base.size U) < fuel)%nat ->
  exists b, IsSafeStackAlloca M DL Q fuel A size = Some b /\
    (b = true -> forall V user, derived M DL Q A size V -> user ∈ users M V ->
      ~ escapes M Q V user /\
      forall n rho, possible rho -> accesses M DL Q V user n ->
        (0 < n < 2 ^ addressWidth A V)%Z -> (0 <= size < 2 ^ addressWidth A V)%Z ->
        (0 <= offsetIn A rho V /\ offsetIn A rho V + n <= size)%Z).
Proof.
  intros HA HU Hf. destruct (IsSafeStackAlloca_exact M DL Q A size fuel U HA HU) as (b & Hr & Hb); [lia|].
  exists b. split; [done|]. intros Ht V user HV Hu. specialize (proj1 Hb Ht V HV user Hu) as Hp. split.
  - by apply (use_pass_no_escape M DL Q A size).
  - intros n rho Hrho Ha Hn Hs. apply IsAccessSafe_sound; [done| |done|done]. by apply (use_pass_access M DL Q A size V user n).
Qed.

(** The store of the example stays inside the array. *)
Lemma safe_alloca_in_bounds_witness :
  @IsSafeStackAlloca demoSE demoModule demoDL demoInfo 4 (VRef 1) 16 = Some true /\
  (0 <= @offsetIn demoSE demoLaws (VRef 1) (fun _ => 4096) (VRef 2) /\
   @offsetIn demoSE demoLaws (VRef 1) (fun _ => 4096) (VRef 2) + 4 <= 16)%Z.
Proof.
  split; [vm_compute; reflexivity|].
  destruct (@safe_alloca_in_bounds demoSE demoLaws demoModule demoDL demoInfo {[VRef 1; VRef 2]} 4 (VRef 1) 16)
    as (b & Hr & Hb).
  - set_solver.
  - intros x y Hx [Hu Hv]. apply elem_of_union in Hx as [Hx%elem_of_singleton|Hx%elem_of_singleton]; subst x; simpl in Hu;
      apply list_elem_of_singleton in Hu; subst y; [set_solver|]. vm_compute in Hv. discriminate.
  - vm_compute. lia.
  - assert (Some b = Some true) as [= ->] by (rewrite <- Hr; vm_compute; reflexivity).
    destruct (Hb eq_refl (VRef 2) (VRef 3)) as [_ Ha].
    + apply rtc_once. split; [by left|]. vm_compute. reflexivity.
    + by left.
    + refine (Ha 4%Z (fun _ => 4096%Z) I (acc_store _ _ _ _ _ _ _ _ _) _ _); [reflexivity|discriminate| |]; vm_compute; intuition congruence.
Defined.

(** With -dg-safe, the allocas of a function that move to the unsafe stack are
    exactly those the earlier tagging marked: those that were marked before and the
    allocation sites of the objects an unsafe GEP's base may address.  By-value arguments
    never move. *)
Theorem unsafe_objects_moved `{SE : ScalarEvolution} M DL Q P geps t fuel F AI :
  isAllocaInst M AI = true ->
  exists f, findInsts M DL Q true (tagOperationsForProtections M P geps t) fuel F = Some f /\ ByValArguments f = [] /\
    (AI ∈ StaticAllocas f ++ DynamicAllocas f <->
     AI ∈ instructions M F /\
     (AI ∈ unsafeTag t \/ exists g o, g ∈ geps /\ gep_object M P g o /\ objectSite M P o = Some AI)).
Proof.
  intros HA. rewrite findInsts_tagged. eexists. split; [done|]. split; [done|].
  rewrite elem_moved, tagOperations_alloca by done. tauto.
Qed.

(** The array of the example moves when the GEP on it is unsafe. *)
Lemma unsafe_objects_moved_witness :
  exists f, @findInsts demoSE demoModule demoDL demoInfo true
      (tagOperationsForProtections demoModule gepSVF {[VRef 2]} (TG ∅ ∅)) 0 (VRef 20) = Some f /\
    StaticAllocas f = [VRef 1] /\ VRef 1 ∈ StaticAllocas f ++ DynamicAllocas f.
Proof.
  destruct (@unsafe_objects_moved demoSE demoModule demoDL demoInfo gepSVF {[VRef 2]} (TG ∅ ∅) 0 (VRef 20) (VRef 1) eq_refl)
    as (f & Hf & _ & Hin).
  exists f. split; [exact Hf|]. split.
  - vm_compute in Hf. injection Hf as <-. reflexivity.
  - apply Hin. split; [apply list_elem_of_In; vm_compute; tauto|]. right. exists (VRef 2), 1%Z. split_and!.
    + set_solver.
    + do 5 eexists. split; [reflexivity|]. split; [left|reflexivity].
    + vm_compute. reflexivity.
Defined.
