(* ===== verification/SafeStackCode.v ===== *)
(** * The code the safe stack pass inserts ([SafeStack.cpp])

    [SafeStack::run] rewrites one function.  The rewritten code is a list of instructions
    per block: those of the function, whose operands are registers, and one constructor
    per kind of instruction the pass creates ([IRB.Create...]).  A register is a value of
    the function or has the name the source gives the created value.  [Code] splits the
    created entry code at the insertion point of the pass's [IRBuilder].

    Pointers have [ptrBits] bits, an index of a created GEP is an [i32] constant.  Bit
    casts that LLVM elides when the types agree are kept, as copies.  Not modelled: debug
    values, the inlining of [__safestack_pointer_address] and, with -safe-stack-coloring
    off (its default), live ranges: all objects overlap.  LLVM's [StackLayout] is the
    class [StackLayout], with its contract in [StackLayoutLaws]. *)
From stdpp Require Import base countable gmap sets list option strings.
From Stdlib Require Import ZArith Lia.
From S2P Require Import Prelude APInt LLVM PTA ValueRange SafeStack.
Local Open Scope Z_scope.

(** ** Registers and instructions *)
Inductive Reg :=
| RVal (v : value)
| RGlobal (name : string)
| RLocal (name : string) (v user : value) (n : nat).

#[export] Instance reg_eq_dec : EqDecision Reg.
Proof. solve_decision. Defined.

Inductive Instr :=
| Orig (v : value) (ops : list Reg)              (** an instruction of the function *)
| Phi (v : value) (incoming : list (Reg * value)) (** a phi node: values and blocks *)
| LocateSP                                       (** the code that computes [UnsafeStackPtr] *)
| LoadSP (r : Reg)                               (** load from [UnsafeStackPtr] *)
| StoreSP (a : Reg)                              (** store to [UnsafeStackPtr] *)
| Gep8 (r base : Reg) (idx : Z)                  (** [i8] GEP with an [i32] constant *)
| AndC (r a : Reg) (c : Z)
| MulC (r a : Reg) (c : Z)
| SubR (r a b : Reg)
| Cast (r a : Reg)                               (** pointer, integer and bit casts *)
| AllocaSlot (r : Reg)                           (** a pointer-sized safe stack slot *)
| LoadSlot (r slot : Reg)
| StoreSlot (a slot : Reg)
| MemCpy (dst src : Reg) (n : Z)
| GuardValue (r : Reg)                           (** [getStackGuard] *)
| StoreGuard (g slot : Reg)
| CheckGuard (slot g : Reg).                     (** [checkStackGuard] *)

Definition BasePointer : Reg := RGlobal "unsafe_stack_ptr".
Definition Realigned : Reg := RGlobal "realigned".
Definition StaticTopReg : Reg := RGlobal "unsafe_stack_static_top".
Definition DynamicTopSlot : Reg := RGlobal "unsafe_stack_dynamic_ptr".
Definition StackGuard : Reg := RGlobal "StackGuard".
Definition GuardSlot : Reg := RGlobal "StackGuardSlot".

(** The register an instruction defines. *)
Definition defOf (x : Instr) : option Reg :=
  match x with
  | Orig v _ | Phi v _ => Some (RVal v)
  | LoadSP r | Gep8 r _ _ | AndC r _ _ | MulC r _ _ | SubR r _ _ | Cast r _ | AllocaSlot r
  | LoadSlot r _ | GuardValue r => Some r
  | _ => None
  end.

(** The registers it reads. *)
Definition usesOf (x : Instr) : list Reg :=
  match x with
  | Orig _ ops => ops
  | Phi _ inc => inc.*1
  | StoreSP a | Gep8 _ a _ | AndC _ a _ | MulC _ a _ | Cast _ a => [a]
  | SubR _ a b | StoreSlot a b | MemCpy a b _ | StoreGuard a b | CheckGuard a b => [a; b]
  | LoadSlot _ a => [a]
  | LocateSP | LoadSP _ | AllocaSlot _ | GuardValue _ => []
  end.

(** [replaceAllUsesWith] at one instruction. *)
Definition substReg (old new r : Reg) : Reg := if decide (r = old) then new else r.
Definition subst (old new : Reg) (x : Instr) : Instr :=
  let f := substReg old new in
  match x with
  | Orig v ops => Orig v (f <$> ops)
  | Phi v inc => Phi v ((fun p => (f p.1, p.2)) <$> inc)
  | StoreSP a => StoreSP (f a)
  | Gep8 r a c => Gep8 r (f a) c
  | AndC r a c => AndC r (f a) c
  | MulC r a c => MulC r (f a) c
  | SubR r a b => SubR r (f a) (f b)
  | Cast r a => Cast r (f a)
  | LoadSlot r a => LoadSlot r (f a)
  | StoreSlot a b => StoreSlot (f a) (f b)
  | MemCpy a b n => MemCpy (f a) (f b) n
  | StoreGuard a b => StoreGuard (f a) (f b)
  | CheckGuard a b => CheckGuard (f a) (f b)
  | LocateSP | LoadSP _ | AllocaSlot _ | GuardValue _ => x
  end.

(** The instruction of the function at this place. *)
Definition origin (x : Instr) : option value :=
  match x with Orig v _ | Phi v _ => Some v | _ => None end.
Definition isItem (v : value) (x : Instr) : bool := bool_decide (origin x = Some v).

(** ** Code under construction *)
Record Code := {
  pre : list Instr;                       (** created entry code before the insertion point *)
  post : list Instr;                      (** created entry code behind it *)
  body : list (value * list Instr);       (** the blocks of the function *)
}.

(** [IRB.Create...] at the insertion point *)
Definition emit (l : list Instr) (c : Code) : Code := Build_Code (pre c ++ l) (post c) (body c).

(** [IRB.SetInsertPoint(r->getNextNode())] for a register of the entry code *)
Fixpoint splitAfter (r : Reg) (l : list Instr) : list Instr * list Instr :=
  match l with
  | [] => ([], [])
  | x :: l =>
    if decide (defOf x = Some r) then ([x], l)
    else let '(a, b) := splitAfter r l in (x :: a, b)
  end.
Definition setInsertAfter (r : Reg) (c : Code) : Code :=
  let '(a, b) := splitAfter r (pre c ++ post c) in Build_Code a b (body c).

(** Rewrite every instruction of the blocks, or of all code. *)
Definition overBody (g : Instr -> list Instr) (c : Code) : Code :=
  Build_Code (pre c) (post c) ((fun b : value * list Instr => (b.1, b.2 ≫= g)) <$> body c).
Definition replaceAllUsesWith (old new : Reg) (c : Code) : Code :=
  Build_Code (subst old new <$> pre c) (subst old new <$> post c)
    ((fun b : value * list Instr => (b.1, subst old new <$> b.2)) <$> body c).

Definition insertCodeBefore (v : value) (code : list Instr) : Code -> Code :=
  overBody (fun x => if isItem v x then code ++ [x] else [x]).
Definition insertCodeAfter (v : value) (code : list Instr) : Code -> Code :=
  overBody (fun x => if isItem v x then x :: code else [x]).
Definition eraseFromParent (v : value) : Code -> Code :=
  overBody (fun x => if isItem v x then [] else [x]).

Definition allCode (c : Code) : list Instr := pre c ++ post c ++ (body c ≫= snd).
Definition use_empty (v : value) (c : Code) : bool :=
  forallb (fun x => negb (bool_decide (RVal v ∈ usesOf x))) (allCode c).

(** In front of the terminator of block [bb] *)
Definition insertBeforeTerminator (bb : value) (code : list Instr) (c : Code) : Code :=
  Build_Code (pre c) (post c)
    ((fun b => if decide (b.1 = bb) then (b.1, removelast b.2 ++ code ++ from_option (fun x => [x]) [] (last b.2))
               else b) <$> body c).

(** ** LLVM's side *)
Record StackObject := { o_handle : Reg; o_size : Z; o_align : Z }.

Record Layout := {
  getObjectOffset : Reg -> Z;
  getFrameSize : Z;
  getFrameAlignment : Z;
}.

(** [StackLayout SSL(StackAlignment)], [addObject] for each object, [computeLayout] *)
Class StackLayout := computeLayout : list StackObject -> Layout.

(** What the pass asks of the function, its instructions and the target. *)
Record FrameInfo := {
  incomingBlocks : value -> list value;
  getPrefTypeAlign : ty -> Z;
  getAlign : value -> Z;
  getParamAlign : value -> option Z;
  isStackSave : value -> bool;
  isStackRestore : value -> bool;
  getMarkers : list value -> list value;    (** [StackLifetime::getMarkers] *)
  hasStackProtector : bool;
  ptrBits : Z;
}.

Definition StackAlignment : Z := 16.

(** [llvm::alignTo] *)
Definition alignTo (n a : Z) : Z := (n + a - 1) / a * a.

(** [ConstantInt::get(Int32Ty, -Offset)] for an [unsigned] offset *)
Definition negI32 (Offset : Z) : Z := (- Offset) mod 2 ^ 32.

Section Transform.
Context `{SE : ScalarEvolution} {SL : StackLayout}.
Variable M : IRModule.
Variable DL : DataLayout.
Variable Q : InstInfo.
Variable K : FrameInfo.

(** [ConstantInt::get(IntPtrTy, ~(A - 1))] *)
Definition alignMask (A : Z) : Z := Z.land (Z.lnot (A - 1)) (Z.ones (ptrBits K)).

(** The blocks of the function before the pass. *)
Definition instrOf (v : value) : Instr :=
  match kindOf M v with
  | KInst (IPhi inc) => Phi v (zip (RVal <$> inc) (incomingBlocks K v))
  | _ => Orig v (RVal <$> operands M v)
  end.
Definition bodyOf (F : value) : list (value * list Instr) :=
  (fun bb => (bb, instrOf <$> insts M bb)) <$> blocks M F.

(** *** Static allocas *)

(** The operand of a marker is erased with it when nothing else uses it. *)
Definition eraseMarker (I : value) (c : Code) : Code :=
  let Op := match operands M I !! 1%nat with
            | Some o => if isInstruction M o then Some o else None
            | None => None
            end in
  let c := eraseFromParent I c in
  match Op with
  | Some o => if use_empty o c then eraseFromParent o c else c
  | None => c
  end.

Definition nonZeroSize (Size : Z) : Z := if Size =? 0 then 1 else Size.

Definition guardObject : StackObject :=
  Build_StackObject GuardSlot (getTypeAllocSize DL (TPtr (TInt 8))) (getPrefTypeAlign K (TPtr (TInt 8))).

Definition byValObject (Arg : value) : StackObject :=
  let Ty := getParamByValType Q Arg in
  Build_StackObject (RVal Arg) (nonZeroSize (getTypeStoreSize DL Ty))
    (match getParamAlign K Arg with
     | Some A => Z.max (getPrefTypeAlign K Ty) A
     | None => getPrefTypeAlign K Ty
     end).

Definition allocatedType (AI : value) : ty :=
  match kindOf M AI with KInst (IAlloca allocTy _) => allocTy | _ => TVoid end.

Definition allocaObject (AI : value) : StackObject :=
  Build_StackObject (RVal AI) (nonZeroSize (getStaticAllocaAllocationSize M DL AI))
    (Z.max (getPrefTypeAlign K (allocatedType AI)) (getAlign K AI)).

Definition frameObjects (f : Found) : list StackObject :=
  (if hasStackProtector K then [guardObject] else []) ++
  (byValObject <$> ByValArguments f) ++ (allocaObject <$> StaticAllocas f).

(** The replacement of the stack guard slot. *)
Definition moveGuard (L : Layout) (Base : Reg) (c : Code) : Code :=
  if hasStackProtector K then
    let off := RGlobal "guard off" in
    let NewAI := RGlobal "StackGuardSlot.unsafe" in
    let c := emit [Gep8 off Base (negI32 (getObjectOffset L GuardSlot)); Cast NewAI off] c in
    let c := replaceAllUsesWith GuardSlot NewAI c in
    let keep x := negb (bool_decide (defOf x = Some GuardSlot)) in
    Build_Code (filter (fun x => keep x = true) (pre c)) (filter (fun x => keep x = true) (post c)) (body c)
  else c.

Definition moveByVal (L : Layout) (Base : Reg) (Arg : value) (c : Code) : Code :=
  let Size := nonZeroSize (getTypeStoreSize DL (getParamByValType Q Arg)) in
  let Off := RLocal "byval off" Arg Arg 0 in
  let NewArg := RLocal "unsafe-byval" Arg Arg 0 in
  let c := emit [Gep8 Off Base (negI32 (getObjectOffset L (RVal Arg))); Cast NewArg Off] c in
  let c := replaceAllUsesWith (RVal Arg) NewArg c in
  emit [MemCpy Off (RVal Arg) Size] c.

(** The address of [AI] computed for use [n] of [user], and the register it is in. *)
Definition useReg (AI user : value) (n : nat) : Reg := RLocal "unsafe" AI user n.
Definition useCode (Base : Reg) (Offset : Z) (AI user : value) (n : nat) : list Instr :=
  [Gep8 (RLocal "off" AI user n) Base (negI32 Offset); Cast (useReg AI user n) (RLocal "off" AI user n)].

Definition usePositions (AI : value) (ops : list Reg) : list nat :=
  filter (fun n => ops !! n = Some (RVal AI)) (seq 0 (length ops)).

(** The uses of [AI] in one instruction other than a phi node. *)
Definition rewriteUser (Base : Reg) (Offset : Z) (AI : value) (x : Instr) : list Instr :=
  match x with
  | Orig v ops =>
    (usePositions AI ops ≫= useCode Base Offset AI v) ++
    [Orig v (imap (fun n r => if decide (r = RVal AI) then useReg AI v n else r) ops)]
  | _ => [x]
  end.

(** The uses in phi nodes: for each incoming block, one address in front of its
    terminator, set for every entry of that block.  [blockNo] numbers the blocks. *)
Definition phiBlocks (AI : value) (inc : list (Reg * value)) : list value :=
  remove_dups (filter (fun p => p.1 = RVal AI) inc).*2.
Definition blockNo (c : Code) (bb : value) : nat :=
  match list_find (fun b => b.1 = bb) (body c) with Some (n, _) => n | None => O end.

Definition rewritePhi (Base : Reg) (Offset : Z) (AI : value) (c : Code) (phi : value * list (Reg * value)) : Code :=
  fold_left (fun c bb => insertBeforeTerminator bb (useCode Base Offset AI phi.1 (blockNo c bb)) c)
    (phiBlocks AI phi.2) c.
Definition rewritePhiNode (AI : value) (c : Code) (x : Instr) : list Instr :=
  match x with
  | Phi v inc =>
    [Phi v ((fun p => if decide (p.2 ∈ phiBlocks AI inc) then (useReg AI v (blockNo c p.2), p.2) else p) <$> inc)]
  | _ => [x]
  end.
Definition phisOf (c : Code) : list (value * list (Reg * value)) :=
  omap (fun x => match x with Phi v inc => Some (v, inc) | _ => None end) (body c ≫= snd).

Definition moveAlloca (L : Layout) (Base : Reg) (AI : value) (c : Code) : Code :=
  let Offset := getObjectOffset L (RVal AI) in
  let c := overBody (rewriteUser Base Offset AI) c in
  let c := overBody (rewritePhiNode AI c) (fold_left (rewritePhi Base Offset AI) (phisOf c) c) in
  eraseFromParent AI c.

(** The code that realigns the base pointer. *)
Definition realignCode (L : Layout) : list Instr :=
  [Cast (RGlobal "base int") BasePointer;
   AndC (RGlobal "base masked") (RGlobal "base int") (alignMask (getFrameAlignment L));
   Cast Realigned (RGlobal "base masked")].
Definition realign (L : Layout) (c : Code) : Code * Reg :=
  if StackAlignment <? getFrameAlignment L
  then (emit (realignCode L) (setInsertAfter BasePointer c), Realigned)
  else (c, BasePointer).

(** [unsigned FrameSize = alignTo(SSL.getFrameSize(), StackAlignment)] *)
Definition frameSize (L : Layout) : Z := alignTo (getFrameSize L) StackAlignment mod 2 ^ 32.

Definition moveStaticAllocasToUnsafeStack (f : Found) (c : Code) : Code * Reg :=
  if bool_decide (StaticAllocas f = []) && bool_decide (ByValArguments f = []) then (c, BasePointer)
  else
    let c := fold_left (fun c I => eraseMarker I c) (getMarkers K (StaticAllocas f)) c in
    let L := computeLayout (frameObjects f) in
    let '(c, Base) := realign L c in
    let c := setInsertAfter Base c in
    let c := moveGuard L Base c in
    let c := fold_left (fun c Arg => moveByVal L Base Arg c) (ByValArguments f) c in
    let c := fold_left (fun c AI => moveAlloca L Base AI c) (StaticAllocas f) c in
    let c := setInsertAfter Base c in
    (emit [Gep8 StaticTopReg Base (negI32 (frameSize L)); StoreSP StaticTopReg] c, StaticTopReg).

(** *** Restore points and dynamic allocas *)
Definition restoreCode (StaticTop : Reg) (DynamicTop : option Reg) (I : value) : list Instr :=
  match DynamicTop with
  | Some d => [LoadSlot (RLocal "current top" I I 0) d; StoreSP (RLocal "current top" I I 0)]
  | None => [StoreSP StaticTop]
  end.

Definition createStackRestorePoints (f : Found) (StaticTop : Reg) (NeedDynamicTop : bool) (c : Code) :
    Code * option Reg :=
  if bool_decide (StackRestorePoints f = []) then (c, None)
  else
    let '(c, DynamicTop) :=
      if NeedDynamicTop
      then (emit [AllocaSlot DynamicTopSlot; StoreSlot StaticTop DynamicTopSlot] c, Some DynamicTopSlot)
      else (c, None) in
    (fold_left (fun c I => insertCodeAfter I (restoreCode StaticTop DynamicTop I) c) (StackRestorePoints f) c, DynamicTop).

Definition dynamicAlign (AI : value) : Z :=
  Z.max (Z.max (getPrefTypeAlign K (allocatedType AI)) (getAlign K AI)) StackAlignment.

Definition dynamicCode (DynamicTop : option Reg) (AI : value) (ArraySize : Reg) : list Instr :=
  let r name := RLocal name AI AI 0 in
  [Cast (r "array size") ArraySize;
   MulC (r "size") (r "array size") (getTypeAllocSize DL (allocatedType AI));
   LoadSP (r "sp"); Cast (r "sp int") (r "sp");
   SubR (r "new sp") (r "sp int") (r "size");
   AndC (r "masked") (r "new sp") (alignMask (dynamicAlign AI));
   Cast (r "new top") (r "masked");
   StoreSP (r "new top")] ++
  from_option (fun d => [StoreSlot (r "new top") d]) [] DynamicTop ++
  [Cast (r "new alloca") (r "new top")].

(** The created code takes the place of the alloca, whose size operand is its first. *)
Definition moveDynamic (DynamicTop : option Reg) (c : Code) (AI : value) : Code :=
  replaceAllUsesWith (RVal AI) (RLocal "new alloca" AI AI 0)
    (overBody (fun x => match x with
       | Orig v ops => if decide (v = AI) then dynamicCode DynamicTop AI (default (RGlobal "none") (head ops)) else [x]
       | _ => [x] end) c).

Definition stackIntrinsic (x : Instr) : list Instr :=
  match x with
  | Orig v ops =>
    if isStackSave K v then [LoadSP (RVal v)]
    else if isStackRestore K v then [StoreSP (default (RGlobal "none") (head ops))]
    else [x]
  | _ => [x]
  end.

Definition moveDynamicAllocasToUnsafeStack (f : Found) (DynamicTop : option Reg) (c : Code) : Code :=
  let c := fold_left (moveDynamic DynamicTop) (DynamicAllocas f) c in
  if bool_decide (DynamicAllocas f = []) then c else overBody stackIntrinsic c.

(** *** [run] *)
Definition nothingToDo (f : Found) : bool :=
  bool_decide (StaticAllocas f = []) && bool_decide (DynamicAllocas f = []) &&
  bool_decide (ByValArguments f = []) && bool_decide (StackRestorePoints f = []).

Definition protectStack (f : Found) (c : Code) : Code :=
  if hasStackProtector K then
    fold_left (fun c RI => insertCodeBefore RI [CheckGuard GuardSlot StackGuard] c) (Returns f)
      (emit [GuardValue StackGuard; AllocaSlot GuardSlot; StoreGuard StackGuard GuardSlot] c)
  else c.

Definition restoreBefore (Returns : list value) (c : Code) : Code :=
  fold_left (fun c RI => insertCodeBefore RI [StoreSP BasePointer] c) Returns c.

(** The code for what [findInsts] found. *)
Definition transform (f : Found) (c : Code) : Code :=
  let c := emit [LocateSP; LoadSP BasePointer] c in
  let c := protectStack f c in
  let '(c, StaticTop) := moveStaticAllocasToUnsafeStack f c in
  let '(c, DynamicTop) := createStackRestorePoints f StaticTop (negb (bool_decide (DynamicAllocas f = []))) c in
  let c := moveDynamicAllocasToUnsafeStack f DynamicTop c in
  restoreBefore (Returns f) c.

(** [None]: out of fuel in the analysis of uses.  The flag tells whether the function was
    changed. *)
Definition run (DGSafe : bool) (t : Tags) (fuel : nat) (F : value) : option (bool * Code) :=
  f ← findInsts M DL Q DGSafe t fuel F;
  let c := Build_Code [] [] (bodyOf F) in
  Some (if nothingToDo f then (false, c) else (true, transform f c)).

(** The pass runs on defined functions that have the safestack attribute. *)
Definition runOnFunction (hasSafeStack : bool) (DGSafe : bool) (t : Tags) (fuel : nat) (F : value) : option (bool * Code) :=
  if negb hasSafeStack then Some (false, Build_Code [] [] (bodyOf F))
  else if isDeclaration M F then Some (false, Build_Code [] [] (bodyOf F))
  else run DGSafe t fuel F.

End Transform.

(** ** A layout, for examples: the objects one after the other *)
Fixpoint placeObjects (start : Z) (objs : list StackObject) : list (Reg * Z) :=
  match objs with
  | [] => []
  | o :: objs => let stop := alignTo (start + o_size o) (o_align o) in (o_handle o, stop) :: placeObjects stop objs
  end.
Definition sequentialLayout : StackLayout := fun objs =>
  let places := placeObjects 0 objs in
  {| getObjectOffset := fun r => from_option snd 0 (find (fun p => bool_decide (p.1 = r)) places);
     getFrameSize := from_option snd 0 (last places);
     getFrameAlignment := foldr Z.max StackAlignment (o_align <$> objs) |}.

Definition demoFrame : FrameInfo := {|
  incomingBlocks := fun _ => []; getPrefTypeAlign := fun _ => 16; getAlign := fun _ => 32; getParamAlign := fun _ => None;
  isStackSave := fun _ => false; isStackRestore := fun _ => false; getMarkers := fun _ => [];
  hasStackProtector := false; ptrBits := 64 |}.

(** The example with its array tagged: the array moves. *)
Definition demoRun : option (bool * Code) :=
  @run demoSE sequentialLayout demoModule demoDL demoInfo demoFrame true (TG {[VRef 1]} ∅) 0 (VRef 20).
