(* ===== verification/SafeStackShape.v ===== *)
(** * The shape of the rewritten function

    [shape Pe Pb c]: the created entry code starts by loading the base pointer and goes on
    with instructions satisfying [Pe]; the blocks hold instructions satisfying [Pb].  Every
    operation on code keeps a shape when [Pe] and [Pb] allow what it creates, and the
    passes that insert code around instructions have a closed form, instruction by
    instruction. *)
From stdpp Require Import base countable gmap sets list option strings.
From Stdlib Require Import ZArith Lia.
From S2P Require Import Prelude APInt LLVM PTA ValueRange SafeStack SafeStackCode.
Local Open Scope Z_scope.

(** A list of created instructions, one by one. *)
Ltac each :=
  unfold useCode, dynamicCode, restoreCode; cbn [app from_option];
  repeat (apply Forall_cons; split); try apply Forall_nil;
  try (first [intros ?; simpl; congruence | split; [reflexivity|simpl; congruence]]); try done.

(** ** Binds over lists *)
Lemma bind_bind {A B C} (f : A -> list B) (g : B -> list C) (l : list A) :
  (l ≫= f) ≫= g = l ≫= (fun x => f x ≫= g).
Proof. induction l as [|x l IH]; [done|]. by rewrite !bind_cons, bind_app, IH. Qed.

Lemma bind_same {A} (g : A -> list A) (l : list A) : Forall (fun x => g x = [x]) l -> l ≫= g = l.
Proof. induction 1 as [|x l Hx _ IH]; [done|]. by rewrite bind_cons, IH, Hx. Qed.

Lemma bind_single {A B} (g : A -> list B) x : [x] ≫= g = g x.
Proof. rewrite bind_cons. apply app_nil_r. Qed.

Lemma Forall_bind_of {A B} (P : A -> Prop) (R : B -> Prop) (g : A -> list B) l :
  (forall x, P x -> Forall R (g x)) -> Forall P l -> Forall R (l ≫= g).
Proof. intros Hg. induction 1 as [|x l Hx _ IH]; [constructor|]. rewrite bind_cons. apply Forall_app. auto. Qed.

Lemma bind_const {A B} (y : B) (l : list A) : (l ≫= fun _ => [y]) = replicate (length l) y.
Proof. induction l as [|x l IH]; [done|]. rewrite bind_cons, IH. done. Qed.

Lemma bind_split {A B} (g : A -> list B) (l : list A) p x q :
  l ≫= g = p ++ x :: q ->
  exists l1 y l2 a b, l = l1 ++ y :: l2 /\ g y = a ++ x :: b /\ p = (l1 ≫= g) ++ a /\ q = b ++ (l2 ≫= g).
Proof.
  revert p. induction l as [|y l IH]; intros p H; [by destruct p|]. rewrite bind_cons in H.
  apply app_eq_inv in H as [(k & Hg & Hq)|(k & Hp & Hl)].
  - destruct k as [|z k]; simpl in Hq.
    + destruct (IH [] (eq_sym Hq)) as (l1 & z & l2 & a & b & -> & ? & Hn & ?).
      exists (y :: l1), z, l2, a, b. rewrite bind_cons, Hg, app_nil_r. split_and!; [done..| |done].
      by rewrite <- app_assoc, <- Hn, app_nil_r.
    + injection Hq as <- ->. exists [], y, l, p, k. done.
  - destruct (IH k Hl) as (l1 & z & l2 & a & b & -> & ? & -> & ?).
    exists (y :: l1), z, l2, a, b. rewrite bind_cons, Hp, <- app_assoc. done.
Qed.

Lemma Forall_filter_of {A} (P R : A -> Prop) `{!forall x, Decision (R x)} (l : list A) : Forall P l -> Forall P (filter R l).
Proof. rewrite !Forall_forall. intros Hl x [_ Hx]%list_elem_of_filter. auto. Qed.

(** ** Passes, instruction by instruction *)
Lemma overBody_compose g h c : overBody h (overBody g c) = overBody (fun x => g x ≫= h) c.
Proof.
  unfold overBody. simpl. f_equal. rewrite <- list_fmap_compose. apply list_fmap_ext. intros i [bb l] _. simpl.
  f_equal. apply bind_bind.
Qed.

Lemma overBody_ext g h c : (forall x, g x = h x) -> overBody g c = overBody h c.
Proof.
  intros Hg. unfold overBody. f_equal. apply list_fmap_ext. intros i [bb l] _. simpl. f_equal.
  induction l as [|x l IH]; [done|]. by rewrite !bind_cons, IH, Hg.
Qed.

Lemma overBody_id c : overBody (fun x => [x]) c = c.
Proof.
  unfold overBody. destruct c as [a b l]. simpl. f_equal. rewrite <- (list_fmap_id l) at 2. apply list_fmap_ext.
  intros i [bb l'] _. simpl. f_equal. apply bind_same. by apply Forall_true.
Qed.

Definition created (x : Instr) : Prop := origin x = None.

Lemma isItem_created v x : created x -> isItem v x = false.
Proof. intros Ho. unfold isItem. rewrite Ho. by apply bool_decide_eq_false_2. Qed.

(** The values of [vs] the instruction is, with repetitions. *)
Definition matching (vs : list value) (x : Instr) : list value := filter (fun v => isItem v x = true) vs.

Lemma matching_created vs x : created x -> matching vs x = [].
Proof.
  intros Hx. unfold matching. induction vs as [|v vs IH]; [done|].
  rewrite filter_cons_False; [done|]. by rewrite isItem_created.
Qed.

Lemma matching_elem vs x v : v ∈ matching vs x <-> v ∈ vs /\ origin x = Some v.
Proof. unfold matching, isItem. rewrite list_elem_of_filter, bool_decide_eq_true. tauto. Qed.

Section Folds.
Variable code : value -> list Instr.
Hypothesis code_created : forall v, Forall created (code v).

Lemma fold_insertBefore vs c :
  fold_left (fun c v => insertCodeBefore v (code v) c) vs c = overBody (fun x => (matching vs x ≫= code) ++ [x]) c.
Proof using Type*.
  revert c. induction vs as [|v vs IH]; intros c; simpl; [by rewrite overBody_id|].
  rewrite IH. unfold insertCodeBefore. rewrite overBody_compose. apply overBody_ext. intros x.
  unfold matching at 2. rewrite filter_cons. fold (matching vs x). destruct (isItem v x) eqn:Hv.
  - rewrite decide_True by done. rewrite bind_app, bind_single, bind_cons, <- app_assoc. f_equal.
    apply bind_same. eapply Forall_impl; [apply code_created|]. intros y Hy. simpl. by rewrite matching_created.
  - rewrite decide_False by done. by rewrite bind_single.
Qed.

Lemma fold_insertAfter vs c :
  fold_left (fun c v => insertCodeAfter v (code v) c) vs c = overBody (fun x => x :: (reverse (matching vs x) ≫= code)) c.
Proof using Type*.
  revert c. induction vs as [|v vs IH]; intros c; simpl; [by rewrite overBody_id|].
  rewrite IH. unfold insertCodeAfter. rewrite overBody_compose. apply overBody_ext. intros x.
  unfold matching at 2. rewrite filter_cons. fold (matching vs x). destruct (isItem v x) eqn:Hv.
  - rewrite decide_True by done. rewrite bind_cons, reverse_cons, bind_app, bind_single. simpl. f_equal. f_equal.
    apply bind_same. eapply Forall_impl; [apply code_created|]. intros y Hy. simpl. by rewrite matching_created.
  - rewrite decide_False by done. by rewrite bind_single.
Qed.
End Folds.

(** ** Shapes *)

(** The code that defines the register last and nowhere before. *)
Definition endsWith (r : Reg) (front : list Instr) : Prop :=
  exists a x, front = a ++ [x] /\ defOf x = Some r /\ Forall (fun y => defOf y <> Some r) a.

Lemma splitAfter_ends r front l : endsWith r front -> splitAfter r (front ++ l) = (front, l).
Proof.
  intros (a & x & -> & Hx & Ha). rewrite <- app_assoc. simpl. induction Ha as [|y a Hy _ IH]; simpl.
  - by rewrite decide_True.
  - by rewrite decide_False, IH.
Qed.

Section Shape.
Variable front : list Instr.
Variable Pe Pb : Instr -> Prop.

Definition shape (c : Code) : Prop :=
  (exists rest, pre c = front ++ rest /\ Forall Pe rest) /\
  Forall Pe (post c) /\ Forall (fun b => Forall Pb b.2) (body c).

Lemma shape_emit l c : Forall Pe l -> shape c -> shape (emit l c).
Proof.
  intros Hl ((rest & Hp & Hr) & ? & ?). split_and!; [|done..]. exists (rest ++ l). simpl. rewrite Hp, <- app_assoc.
  split; [done|]. by apply Forall_app.
Qed.

Lemma setInsertAfter_ends r c : endsWith r front -> shape c ->
  exists rest, setInsertAfter r c = Build_Code front rest (body c) /\ Forall Pe rest.
Proof.
  intros Hr ((rest & Hp & Hrest) & Ho & Hb). unfold setInsertAfter.
  rewrite Hp, <- app_assoc, splitAfter_ends by done. exists (rest ++ post c). split; [done|]. by apply Forall_app.
Qed.

Lemma shape_setInsertAfter r c : endsWith r front -> shape c -> shape (setInsertAfter r c).
Proof.
  intros Hr Hc. destruct (setInsertAfter_ends r c Hr Hc) as (rest & -> & ?). destruct Hc as (_ & _ & ?).
  split_and!; [exists []; by rewrite app_nil_r|done..].
Qed.

Lemma shape_overBody g c : (forall x, Pb x -> Forall Pb (g x)) -> shape c -> shape (overBody g c).
Proof.
  intros Hg (? & ? & Hb). split_and!; [done..|]. simpl. apply Forall_fmap. eapply Forall_impl; [exact Hb|].
  intros [bb l] Hl. simpl in *. by eapply Forall_bind_of.
Qed.

Lemma shape_insertBefore v l c : Forall Pb l -> shape c -> shape (insertCodeBefore v l c).
Proof. intros Hl. apply shape_overBody. intros x Hx. case_match; [apply Forall_app|]; by auto. Qed.
Lemma shape_insertAfter v l c : Forall Pb l -> shape c -> shape (insertCodeAfter v l c).
Proof. intros Hl. apply shape_overBody. intros x Hx. case_match; by auto. Qed.
Lemma shape_erase v c : shape c -> shape (eraseFromParent v c).
Proof. apply shape_overBody. intros x Hx. case_match; by auto. Qed.

Lemma shape_replace old new c :
  subst old new <$> front = front ->
  (forall x, Pe x -> Pe (subst old new x)) -> (forall x, Pb x -> Pb (subst old new x)) ->
  shape c -> shape (replaceAllUsesWith old new c).
Proof.
  intros Hf He Hb ((rest & Hp & Hr) & Ho & Hbo). split_and!; simpl.
  - exists (subst old new <$> rest). rewrite Hp, fmap_app, Hf. split; [done|]. apply Forall_fmap. by eapply Forall_impl.
  - apply Forall_fmap. by eapply Forall_impl.
  - apply Forall_fmap. eapply Forall_impl; [exact Hbo|]. intros [bb l] Hl. simpl in *. apply Forall_fmap. by eapply Forall_impl.
Qed.

Lemma shape_insertBeforeTerminator bb l c : Forall Pb l -> shape c -> shape (insertBeforeTerminator bb l c).
Proof.
  intros Hl (? & ? & Hb). split_and!; [done..|]. simpl. apply Forall_fmap. eapply Forall_impl; [exact Hb|].
  intros [bb' l'] Hl'. simpl in *. case_decide; [|done]. simpl.
  destruct l' as [|x l' _] using rev_ind; [simpl; by rewrite app_nil_r|].
  rewrite removelast_last, last_snoc. simpl. apply Forall_app in Hl' as [? ?]. rewrite !Forall_app. done.
Qed.

Lemma shape_fold {A} (g : Code -> A -> Code) l c :
  (forall c a, a ∈ l -> shape c -> shape (g c a)) -> shape c -> shape (fold_left g l c).
Proof.
  revert c. induction l as [|a l IH]; intros c Hg Hc; [done|]. simpl. apply IH; [|apply Hg; [left|done]].
  intros c' a' Ha'. apply Hg. by right.
Qed.

Lemma shape_entry c : shape c -> exists rest, pre c ++ post c = front ++ rest /\ Forall Pe rest.
Proof.
  intros ((rest & Hp & Hr) & Ho & _). exists (rest ++ post c). rewrite Hp, <- app_assoc.
  split; [done|]. by apply Forall_app.
Qed.

Lemma shape_filter_entry (keep : Instr -> Prop) `{!forall x, Decision (keep x)} c :
  Forall keep front -> shape c -> shape (Build_Code (filter keep (pre c)) (filter keep (post c)) (body c)).
Proof.
  intros Hk ((rest & Hp & Hr) & Ho & Hb). split_and!; simpl.
  - exists (filter keep rest). rewrite Hp, filter_app. split; [|by apply Forall_filter_of]. f_equal.
    clear Hp Ho. induction Hk as [|x l Hx _ IH]; [done|]. by rewrite filter_cons_True, IH.
  - by apply Forall_filter_of.
  - done.
Qed.
End Shape.

(** A longer front whose tail satisfies [Pe] is a shape of the shorter one. *)
Lemma shape_shorten front l Pe Pb c : Forall Pe l -> shape (front ++ l) Pe Pb c -> shape front Pe Pb c.
Proof.
  intros Hl ((rest & Hp & Hr) & ? & ?). split_and!; [|done..]. exists (l ++ rest).
  rewrite Hp, <- app_assoc. split; [done|]. by apply Forall_app.
Qed.

Create HintDb shapes discriminated.
#[export] Hint Resolve shape_emit shape_setInsertAfter shape_insertBefore shape_insertAfter shape_erase : shapes.

(** The code up to the base pointer. *)
Definition front0 : list Instr := [LocateSP; LoadSP BasePointer].

Lemma front0_ends : endsWith BasePointer front0.
Proof. exists [LocateSP], (LoadSP BasePointer). split_and!; [done..|]. by repeat constructor. Qed.

Lemma start_shape Pe Pb bs : Forall (fun b => Forall Pb b.2) bs ->
  shape front0 Pe Pb (emit front0 (Build_Code [] [] bs)).
Proof. intros Hb. split_and!; [by exists []|done|done]. Qed.

(** What the pass replaces everywhere: the guard slot and values of the function. *)
Definition replaceable (r : Reg) : Prop := r = GuardSlot \/ exists v, r = RVal v.
Lemma replaceable_guard : replaceable GuardSlot.
Proof. by left. Qed.
Lemma replaceable_value v : replaceable (RVal v).
Proof. right. by exists v. Qed.
#[export] Hint Resolve replaceable_guard replaceable_value : shapes.

(** Code in front of everything else: it survives the replacements and erasures. *)
Definition stable (front : list Instr) : Prop :=
  (forall v n, subst (RVal v) n <$> front = front) /\ (forall n, subst GuardSlot n <$> front = front) /\
  Forall (fun x => defOf x <> Some GuardSlot) front.

(** The entry code up to the base pointer of the frame, and that pointer. *)
Definition frameFront (K : FrameInfo) (L : Layout) : list Instr :=
  front0 ++ (if StackAlignment <? getFrameAlignment L then realignCode K L else []).
Definition frameBase (L : Layout) : Reg := if StackAlignment <? getFrameAlignment L then Realigned else BasePointer.

Lemma frameFront_stable K L : stable (frameFront K L).
Proof.
  unfold stable, frameFront, front0. destruct (_ <? _); (split_and!; [done..|]); simpl; each.
Qed.

Lemma frameFront_ends K L : endsWith (frameBase L) (frameFront K L).
Proof.
  unfold frameFront, frameBase. destruct (_ <? _).
  - eexists (front0 ++ take 2 (realignCode K L)), _. split_and!; [simpl; reflexivity|done|]. simpl. each.
  - rewrite app_nil_r. apply front0_ends.
Qed.

(** ** The static half

    What may be created before the restore points: nothing that sets the pointer or a slot;
    in the blocks, addresses of moved allocas only. *)
Section Static.
Context `{SE : ScalarEvolution} {SL : StackLayout}.
Variable M : IRModule.
Variable DL : DataLayout.
Variable Q : InstInfo.
Variable K : FrameInfo.
Variable Pe Pb : Instr -> Prop.
Variable f : Found.
Abbreviation L := (computeLayout (frameObjects M DL Q K f)).

(** Created entry code that neither sets the pointer or a slot nor defines a register the
    later code relies on. *)
Definition entryDef (x : Instr) : Prop :=
  created x /\ (forall a, x <> StoreSP a) /\ (forall a d, x <> StoreSlot a d) /\
  defOf x <> Some BasePointer /\ defOf x <> Some Realigned /\ defOf x <> Some StaticTopReg.

Hypothesis Pe_created : forall x, entryDef x -> Pe x.
Hypothesis Pe_subst : forall o n x, Pe x -> Pe (subst o n x).
Hypothesis Pb_subst : forall o n x, replaceable o -> Pb x -> Pb (subst o n x).
Hypothesis Pb_guard : Pb (CheckGuard GuardSlot StackGuard).
Hypothesis Pb_use : forall AI user n, Forall Pb (useCode (frameBase L) (getObjectOffset L (RVal AI)) AI user n).
Hypothesis Pb_orig : forall v ops ops', Pb (Orig v ops) -> Pb (Orig v ops').
Hypothesis Pb_phi : forall v inc inc', Pb (Phi v inc) -> Pb (Phi v inc').

Section Front.
Variable front : list Instr.
Hypothesis front_stable : stable front.
Abbreviation shape := (shape front Pe Pb).

Lemma protectStack_shape c : shape c -> shape (protectStack K f c).
Proof using Pe_created Pb_guard.
  clear front_stable. intros Hc. unfold protectStack. case_match; [|done].
  apply shape_fold; [intros; apply shape_insertBefore; [by repeat constructor|done]|].
  apply shape_emit; [|done]. repeat constructor; apply Pe_created; by repeat split.
Qed.

Lemma eraseMarker_shape I c : shape c -> shape (eraseMarker M I c).
Proof using Type. clear front_stable. intros Hc. unfold eraseMarker. repeat case_match; by auto with shapes. Qed.

Lemma moveGuard_shape L' Base c : shape c -> shape (moveGuard K L' Base c).
Proof using Pe_created Pe_subst Pb_subst front_stable.
  intros Hc. unfold moveGuard. case_match; [|done]. destruct front_stable as (_ & Hs & Hd).
  apply shape_filter_entry.
  { eapply Forall_impl; [exact Hd|]. intros x Hx. simpl. by rewrite bool_decide_eq_false_2. }
  apply shape_replace; [by auto with shapes..|]. apply shape_emit; [|done].
  repeat constructor; apply Pe_created; by repeat split.
Qed.

Lemma moveByVal_shape L' Base Arg c : shape c -> shape (moveByVal DL Q L' Base Arg c).
Proof using Pe_created Pe_subst Pb_subst front_stable.
  intros Hc. unfold moveByVal. destruct front_stable as (Hs & _ & _). apply shape_emit.
  { repeat constructor; apply Pe_created; by repeat split. }
  apply shape_replace; [by auto with shapes..|]. apply shape_emit; [|done]. repeat constructor; apply Pe_created; by repeat split.
Qed.

Lemma rewriteUser_Pb AI x : Pb x -> Forall Pb (rewriteUser (frameBase L) (getObjectOffset L (RVal AI)) AI x).
Proof using Pb_use Pb_orig.
  clear front_stable. intros Hx. destruct x; simpl; try (by constructor).
  apply Forall_app. split; [|constructor; [by eapply Pb_orig|done]].
  apply (Forall_bind_of (fun _ => True)); [auto|by apply Forall_true].
Qed.

Lemma moveAlloca_shape AI c : shape c -> shape (moveAlloca L (frameBase L) AI c).
Proof using Pb_use Pb_orig Pb_phi.
  clear front_stable. intros Hc. unfold moveAlloca. apply shape_erase. apply shape_overBody.
  { intros x Hx. destruct x; simpl; (constructor; [|done]); try done. by eapply Pb_phi. }
  apply shape_fold.
  { intros c' phi _ Hc'. unfold rewritePhi. apply shape_fold; [|done]. intros. by apply shape_insertBeforeTerminator. }
  apply shape_overBody; [|done]. intros. by apply rewriteUser_Pb.
Qed.
End Front.

Lemma realign_shape L' c : shape front0 Pe Pb c ->
  exists c', realign K L' c = (c', frameBase L') /\ shape (frameFront K L') Pe Pb c'.
Proof using Type.
  clear. intros Hc. unfold realign, frameFront, frameBase. destruct (_ <? _).
  - eexists. split; [done|]. destruct (setInsertAfter_ends _ _ _ _ _ front0_ends Hc) as (rest & -> & ?).
    destruct Hc as (_ & _ & ?). split_and!; [by exists []|done..].
  - exists c. split; [done|]. by rewrite app_nil_r.
Qed.

(** The function before the static top is set. *)
Lemma moveStatic_shape c c' top :
  shape front0 Pe Pb c -> moveStaticAllocasToUnsafeStack M DL Q K f c = (c', top) ->
  (top = BasePointer /\ c' = c /\ StaticAllocas f = [] /\ ByValArguments f = []) \/
  exists rest bs,
    bool_decide (StaticAllocas f = []) && bool_decide (ByValArguments f = []) = false /\
    Forall Pe rest /\ Forall (fun b => Forall Pb b.2) bs /\ top = StaticTopReg /\
    c' = Build_Code (frameFront K L ++ [Gep8 StaticTopReg (frameBase L) (negI32 (frameSize L)); StoreSP StaticTopReg]) rest bs.
Proof using Pe_created Pe_subst Pb_subst Pb_use Pb_orig Pb_phi.
  intros Hc. unfold moveStaticAllocasToUnsafeStack.
  destruct (bool_decide _ && bool_decide _) eqn:Hn.
  { intros [= <- <-]. left. apply andb_true_iff in Hn as [?%bool_decide_eq_true ?%bool_decide_eq_true]. done. }
  set (c0 := fold_left _ _ c).
  assert (shape front0 Pe Pb c0) as Hc0 by (apply shape_fold; [intros; by apply eraseMarker_shape|done]).
  destruct (realign_shape L c0 Hc0) as (cr & -> & Hr).
  pose proof (frameFront_stable K L) as Hst. pose proof (frameFront_ends K L) as Hends.
  intros [= <- <-]. right. set (c1 := fold_left _ (StaticAllocas f) _).
  assert (shape (frameFront K L) Pe Pb c1) as Hc1.
  { apply shape_fold; [intros; by apply moveAlloca_shape|]. apply shape_fold; [intros; by apply moveByVal_shape|].
    by apply moveGuard_shape, shape_setInsertAfter. }
  destruct (setInsertAfter_ends _ _ _ _ _ Hends Hc1) as (rest & -> & Hrest). destruct Hc1 as (_ & _ & Hb).
  exists rest, (body c1). done.
Qed.

(** ** The rest of the pass *)
Section Late.
Hypothesis Pe_slot : forall top, Forall Pe [AllocaSlot DynamicTopSlot; StoreSlot top DynamicTopSlot].
Hypothesis Pb_store : forall r, Pb (StoreSP r).
Hypothesis Pb_current : forall I d, Pb (LoadSlot (RLocal "current top" I I 0) d).
Hypothesis Pb_load : forall v, Pb (LoadSP (RVal v)).
Hypothesis Pb_dynamic : forall d AI n, Forall Pb (dynamicCode M DL K d AI n).
Variable front : list Instr.
Hypothesis front_stable : stable front.
Abbreviation shape := (shape front Pe Pb).

Lemma restorePoints_shape top need c : shape c -> shape (createStackRestorePoints f top need c).1.
Proof using Pe_slot Pb_store Pb_current.
  clear front_stable. intros Hc. unfold createStackRestorePoints. case_match; [done|].
  assert (forall d v c, shape c -> shape (insertCodeAfter v (restoreCode top d v) c)) as Hi.
  { intros d v c'. apply shape_insertAfter. destruct d; by repeat constructor. }
  destruct need; cbn [fst]; (apply shape_fold; [intros; by apply Hi|]); [|done]. by apply shape_emit.
Qed.

Lemma dynamic_shape d c : shape c -> shape (moveDynamicAllocasToUnsafeStack M DL K f d c).
Proof using Pe_subst Pb_subst Pb_store Pb_load Pb_dynamic front_stable.
  intros Hc. unfold moveDynamicAllocasToUnsafeStack. destruct front_stable as (Hs & _ & _).
  assert (shape (fold_left (moveDynamic M DL K d) (DynamicAllocas f) c)) as Hf.
  { apply shape_fold; [|done]. intros c' AI _ Hc'. unfold moveDynamic.
    apply shape_replace; [by auto with shapes..|]. apply shape_overBody; [|done].
    intros x Hx. destruct x; try (by constructor). case_decide; [apply Pb_dynamic|by constructor]. }
  case_match; [done|]. apply shape_overBody; [|done].
  intros x Hx. destruct x; simpl; repeat case_match; by repeat constructor.
Qed.

Lemma returns_shape rs c : shape c -> shape (restoreBefore rs c).
Proof using Pb_store.
  clear front_stable. intros Hc. unfold restoreBefore. apply shape_fold; [|done]. intros.
  apply shape_insertBefore; [by repeat constructor|done].
Qed.
End Late.
End Static.

(** In front of a return the pointer is reloaded from the base pointer. *)
Definition returnCode (rs : list value) (x : Instr) : list Instr :=
  (matching rs x ≫= fun _ => [StoreSP BasePointer]) ++ [x].

Lemma restoreBefore_body rs c : restoreBefore rs c = overBody (returnCode rs) c.
Proof. unfold restoreBefore. apply (fold_insertBefore (fun _ => [StoreSP BasePointer])). intros ?. by repeat constructor. Qed.
