(* ===== verification/SafeStackExec.v ===== *)
(** * Running the rewritten function

    What a function rewritten by the safe stack pass does to the unsafe stack pointer.
    A run goes through the entry code and then through blocks in any order; the control
    flow graph only restricts the order.  An instruction of the function gives its register
    any value and leaves the stack pointer alone, except at a restore point: a call that
    returns a second time and a landing pad find the pointer of some deeper frame.  That
    calls which return once leave it alone is what [return_restores_pointer] shows of
    their callees. *)
From stdpp Require Import base countable gmap sets list option strings.
From Stdlib Require Import ZArith Lia.
From S2P Require Import Prelude APInt LLVM PTA ValueRange SafeStack SafeStackCode SafeStackShape.
Local Open Scope Z_scope.

(** ** States and steps *)
Record State := { sp : Z; regs : Reg -> Z; slots : Reg -> Z }.

Definition setRegister (r : Reg) (z : Z) (s : State) : State :=
  {| sp := sp s; regs := fun r' => if decide (r' = r) then z else regs s r'; slots := slots s |}.
Definition setSP (z : Z) (s : State) : State := {| sp := z; regs := regs s; slots := slots s |}.
Definition setSlot (r : Reg) (z : Z) (s : State) : State :=
  {| sp := sp s; regs := regs s; slots := fun r' => if decide (r' = r) then z else slots s r' |}.

Section Exec.
Variable ptrBits : Z.

(** A created instruction; the stack guard's value is not modelled. *)
Definition exec (x : Instr) (s : State) : State :=
  match x with
  | LoadSP r => setRegister r (sp s) s
  | StoreSP a => setSP (regs s a) s
  | Gep8 r b c => setRegister r ((regs s b + to_signed 32 c) mod 2 ^ ptrBits) s
  | AndC r a c => setRegister r (Z.land (regs s a) c) s
  | MulC r a c => setRegister r ((regs s a * c) mod 2 ^ ptrBits) s
  | SubR r a b => setRegister r ((regs s a - regs s b) mod 2 ^ ptrBits) s
  | Cast r a => setRegister r (regs s a mod 2 ^ ptrBits) s
  | LoadSlot r d => setRegister r (slots s d) s
  | StoreSlot a d => setSlot d (regs s a) s
  | _ => s
  end.

Variable restorePoints : list value.

Inductive execStep : State -> Instr -> State -> Prop :=
| step_created x s : origin x = None -> execStep s x (exec x s)
| step_guard r z s : execStep s (GuardValue r) (setRegister r z s)
| step_item x v z p s : origin x = Some v -> (v ∉ restorePoints -> p = sp s) ->
    execStep s x (setRegister (RVal v) z (setSP p s)).

Inductive steps : State -> list Instr -> State -> Prop :=
| steps_nil s : steps s [] s
| steps_cons s s' s'' x l : execStep s x s' -> steps s' l s'' -> steps s (x :: l) s''.

(** The code on a path: the entry code and the blocks in the order visitedCode. *)
Definition trace (c : Code) (path : list nat) : list Instr :=
  pre c ++ post c ++ (path ≫= fun n => from_option snd [] (body c !! n)).

(** From the state [s0] the run on [path] comes to the instruction [x] of the function in
    the state [s], without an earlier return. *)
Definition reaches (f : Found) (c : Code) (path : list nat) (s0 : State) (x : Instr) (v : value) (s : State) : Prop :=
  exists p q, trace c path = p ++ x :: q /\ origin x = Some v /\ steps s0 p s /\
    (forall y w, y ∈ p -> origin y = Some w -> w ∉ Returns f).

(** The blocks a path visits, one after the other. *)
Definition visitedCode (c : Code) (path : list nat) : list Instr := path ≫= fun n => from_option snd [] (body c !! n).

(** An instruction of the function comes behind the entry code, in a block. *)
Lemma trace_item c path p x q v :
  Forall created (pre c ++ post c) -> trace c path = p ++ x :: q -> origin x = Some v ->
  exists p', p = (pre c ++ post c) ++ p' /\ visitedCode c path = p' ++ x :: q.
Proof.
  intros Hc Ht Hx. unfold trace in Ht. rewrite app_assoc in Ht. fold (visitedCode c path) in Ht.
  apply app_eq_inv in Ht as [(k & Hp & Hk)|(k & Hp & Hk)]; [|by exists k].
  destruct k as [|z k]; simpl in Hk; [exists []; split; [by rewrite app_nil_r in *|done]|].
  exfalso. injection Hk as <- _. assert (x ∈ pre c ++ post c) as Hi by (rewrite Hp; set_solver).
  apply (Forall_elem_of _ _ _ Hc) in Hi. unfold created in Hi. congruence.
Qed.

Lemma visited_Forall (P : Instr -> Prop) c path : Forall (fun b => Forall P b.2) (body c) -> Forall P (visitedCode c path).
Proof.
  intros Hb. apply (Forall_bind_of (fun _ => True)); [|by apply Forall_true]. intros n _.
  destruct (body c !! n) as [b|] eqn:Hn; [|constructor]. simpl. by eapply (Forall_lookup_1 _ _ _ _ Hb) in Hn.
Qed.

Lemma visited_overBody g c path : visitedCode (overBody g c) path = visitedCode c path ≫= g.
Proof.
  unfold visitedCode. simpl. rewrite bind_bind. induction path as [|n path IH]; [done|].
  rewrite !bind_cons, IH. f_equal. rewrite list_lookup_fmap. by destruct (body c !! n).
Qed.

Lemma steps_app s l1 l2 s'' : steps s (l1 ++ l2) s'' <-> exists s', steps s l1 s' /\ steps s' l2 s''.
Proof.
  revert s. induction l1 as [|x l1 IH]; intros s; simpl.
  - split; [intros H; exists s; split; [constructor|done]|by intros (s' & Hn & ?); inversion Hn].
  - split.
    + intros H. inversion H as [|? s1 ? ? ? Hx Hl]; subst. apply IH in Hl as (s' & ? & ?).
      exists s'. split; [by econstructor|done].
    + intros (s' & H & ?). inversion H as [|? s1 ? ? ? Hx Hl]; subst. econstructor; [done|]. apply IH. eauto.
Qed.

Lemma steps_single s x s' : steps s [x] s' <-> execStep s x s'.
Proof.
  split; [|intros; econstructor; [done|constructor]].
  intros H. inversion H as [|? ? ? ? ? Hx Hl]; subst. by inversion Hl; subst.
Qed.

(** *** A register keeps its value while nothing defines it. *)
Lemma step_keeps_reg r s x s' : execStep s x s' -> defOf x <> Some r -> regs s' r = regs s r.
Proof.
  intros Hs Hd. destruct Hs as [x s Ho|r' z s|x v z p s Ho Hp]; simpl in *.
  - destruct x; simpl in *; try done; rewrite decide_False; congruence.
  - by rewrite decide_False by congruence.
  - rewrite decide_False; [done|]. destruct x; simpl in *; congruence.
Qed.

Lemma steps_keep_reg r s l s' : steps s l s' -> Forall (fun x => defOf x <> Some r) l -> regs s' r = regs s r.
Proof.
  induction 1 as [|s s1 s2 x l Hx _ IH]; [done|]. intros [Hd Hl]%Forall_cons.
  rewrite IH by done. by eapply step_keeps_reg.
Qed.

(** The slots change at [StoreSlot] only. *)
Definition setsSlot (x : Instr) : bool := match x with StoreSlot _ _ => true | _ => false end.
Definition setsSP (x : Instr) : bool := match x with StoreSP _ => true | _ => false end.

Lemma step_created_inv s x s' : execStep s x s' -> origin x = None -> (forall r, x <> GuardValue r) -> s' = exec x s.
Proof. intros Hs Ho Hg. destruct Hs as [| |x v z p s Hv]; [done|by destruct (Hg r)|congruence]. Qed.

(** An instruction that sets neither the pointer nor a slot and is no restore point. *)
Lemma step_quiet s x s' :
  execStep s x s' -> setsSP x = false -> setsSlot x = false -> (forall v, origin x = Some v -> v ∉ restorePoints) ->
  sp s' = sp s /\ slots s' = slots s.
Proof.
  intros Hs H1 H2 Ho. destruct Hs as [x s Hc|r z s|x v z p s Hv Hp]; [by destruct x|done|].
  simpl. split; [|done]. apply Hp. by apply Ho.
Qed.

Lemma steps_quiet s l s' :
  steps s l s' -> Forall (fun x => setsSP x = false /\ setsSlot x = false /\ forall v, origin x = Some v -> v ∉ restorePoints) l ->
  sp s' = sp s /\ slots s' = slots s.
Proof.
  induction 1 as [|s s1 s2 x l Hx _ IH]; [done|]. intros [(? & ? & ?) Hl]%Forall_cons.
  destruct (IH Hl) as [-> ->]. by apply (step_quiet s x).
Qed.

End Exec.

(** ** The base pointer and the returns *)
Section Returns.
Context `{SE : ScalarEvolution} {SL : StackLayout}.
Variable M : IRModule.
Variable DL : DataLayout.
Variable Q : InstInfo.
Variable K : FrameInfo.

(** In the blocks, no created register has a name of its own in the function. *)
Definition localDef (x : Instr) : Prop := forall g, defOf x <> Some (RGlobal g).
Definition noBase (x : Instr) : Prop := created x /\ defOf x <> Some BasePointer.

Lemma defOf_subst o n x : defOf (subst o n x) = defOf x.
Proof. by destruct x. Qed.
Lemma origin_subst o n x : origin (subst o n x) = origin x.
Proof. by destruct x. Qed.

Lemma entryDef_noBase x : entryDef x -> noBase x.
Proof. intros (? & _ & _ & ? & _). by split. Qed.
Lemma noBase_subst o n x : noBase x -> noBase (subst o n x).
Proof. unfold noBase, created. by rewrite defOf_subst, origin_subst. Qed.
Lemma localDef_subst o n x : localDef x -> localDef (subst o n x).
Proof. unfold localDef. by rewrite defOf_subst. Qed.
Lemma useCode_local Base off AI user n : Forall localDef (useCode Base off AI user n).
Proof. each. Qed.

Abbreviation based := (shape front0 noBase localDef).

Lemma static_based f c c' top :
  based c -> moveStaticAllocasToUnsafeStack M DL Q K f c = (c', top) -> based c'.
Proof.
  intros Hc Hm. destruct (moveStatic_shape M DL Q K noBase localDef f) with (c := c) (c' := c') (top := top)
    as [(_ & -> & _)|(rest & bs & _ & Hr & Hbs & _ & ->)]; try done.
  - apply entryDef_noBase.
  - apply noBase_subst.
  - intros o n x _. apply localDef_subst.
  - intros. apply useCode_local.
  - split_and!; [|done..]. cbn [pre]. unfold frameFront. rewrite <- app_assoc. eexists. split; [done|].
    destruct (_ <? _); simpl; each.
Qed.

Lemma dynamicCode_local d AI n : Forall localDef (dynamicCode M DL K d AI n).
Proof. unfold dynamicCode. destruct d; each. Qed.

Lemma front0_stable : stable front0.
Proof. unfold stable, front0. split_and!; [done..|]. each. Qed.

(** All of the pass but the restoring of the pointer before the returns. *)
Lemma transform_based f bs :
  Forall (fun b => Forall localDef b.2) bs ->
  exists c, based c /\ transform M DL Q K f (Build_Code [] [] bs) = restoreBefore (Returns f) c.
Proof.
  intros Hb. unfold transform. fold front0.
  assert (based (protectStack K f (emit front0 (Build_Code [] [] bs)))) as H0.
  { apply protectStack_shape; [apply entryDef_noBase|done|by apply start_shape]. }
  destruct (moveStaticAllocasToUnsafeStack _ _ _ _ _ _) as [c1 top] eqn:H1.
  apply static_based in H1; [|done].
  assert (based (createStackRestorePoints f top (negb (bool_decide (DynamicAllocas f = []))) c1).1) as H2.
  { apply restorePoints_shape; [|done..]. intros; each. }
  destruct (createStackRestorePoints _ _ _ _) as [c2 d]. eexists. split; [|done].
  apply dynamic_shape; [apply noBase_subst|intros o n x _; apply localDef_subst|done|done|apply dynamicCode_local|apply front0_stable|done].
Qed.

Lemma bodyOf_items F : Forall (fun b => Forall (fun x => exists v, origin x = Some v) b.2) (bodyOf M K F).
Proof.
  unfold bodyOf. apply Forall_fmap, Forall_true. intros bb. simpl. apply Forall_fmap, Forall_true. intros v.
  simpl. unfold instrOf. exists v. by repeat case_match.
Qed.

Lemma item_local x v : origin x = Some v -> defOf x = Some (RVal v).
Proof. destruct x; simpl; congruence. Qed.

Lemma bodyOf_local F : Forall (fun b => Forall localDef b.2) (bodyOf M K F).
Proof.
  eapply Forall_impl; [apply bodyOf_items|]. intros b Hb. eapply Forall_impl; [exact Hb|]. intros x [v Hv] g.
  rewrite (item_local _ _ Hv). congruence.
Qed.

Lemma returnCode_split rs y a x b v :
  returnCode rs y = a ++ x :: b -> origin x = Some v -> v ∈ rs ->
  y = x /\ b = [] /\ exists k, a = replicate k (StoreSP BasePointer) ++ [StoreSP BasePointer].
Proof.
  unfold returnCode. intros Hy Hx Hv.
  pose proof (bind_const (StoreSP BasePointer) (matching rs y)) as Hn. set (n := length _) in Hn.
  destruct b as [|z b _] using rev_ind.
  - apply app_inj_tail in Hy as [<- <-]. split_and!; [done..|].
    assert (v ∈ matching rs y) as Hm by (by apply matching_elem).
    destruct n as [|n]; [|exists n; by rewrite Hn, replicate_S_end].
    destruct (matching rs y); [by apply elem_of_nil in Hm|done].
  - exfalso. rewrite app_comm_cons, app_assoc in Hy. apply app_inj_tail in Hy as [Hy _].
    assert (x ∈ replicate n (StoreSP BasePointer)) as Hi by (rewrite <- Hn, Hy; set_solver).
    apply elem_of_replicate in Hi as [-> _]. done.
Qed.

(** [run] restores the unsafe stack pointer: on every path, in front of every return the
    pointer is what it was at the entry. *)
Lemma return_restores f bs path s0 x v s :
  Forall (fun b => Forall localDef b.2) bs -> v ∈ Returns f ->
  reaches (ptrBits K) (StackRestorePoints f) f (transform M DL Q K f (Build_Code [] [] bs)) path s0 x v s -> sp s = sp s0.
Proof.
  intros Hb Hv (p & q & Ht & Hx & Hs & _). destruct (transform_based f bs Hb) as (c & Hc & Hr).
  rewrite Hr, restoreBefore_body in Ht. clear Hr Hb.
  destruct (shape_entry _ _ _ _ Hc) as (rest & He & Hrest). destruct Hc as (_ & _ & Hbody).
  apply (visited_Forall localDef c path) in Hbody as Hl0.
  apply (trace_item _ _ _ _ _ v) in Ht as (p' & -> & Hl); [| |done]; cbn [pre post overBody].
  2: { rewrite He. apply Forall_app. split; [by repeat constructor|]. eapply Forall_impl; [exact Hrest|]. by intros z [? _]. }
  rewrite visited_overBody in Hl. cbn [pre post overBody] in Hs. rewrite He in Hs. unfold front0 in Hs. simpl in Hs.
  revert Hl Hl0. generalize (visitedCode c path). intros l0 Hl Hl0.
  apply bind_split in Hl as (l1 & y & l2 & a & b & -> & Hy & -> & _).
  apply (returnCode_split _ _ _ _ _ v) in Hy as (_ & _ & k & ->); [|done..].
  inversion_clear Hs as [|? s1 ? ? ? Hs1 Hs']. inversion_clear Hs' as [|? s2 ? ? ? Hs2 Hs3].
  apply step_created_inv in Hs1; [|done..]. apply step_created_inv in Hs2; [|done..]. subst s1 s2. simpl in Hs3.
  rewrite !app_assoc in Hs3. apply steps_app in Hs3 as (s3 & Hs3 & Hs4). apply steps_single in Hs4.
  apply step_created_inv in Hs4; [|done..]. subst s. simpl.
  rewrite (steps_keep_reg _ _ BasePointer _ _ _ Hs3); [done|].
  apply Forall_app in Hl0 as [Hl1 _].
  apply Forall_app. split; [apply Forall_app; split|].
  - eapply Forall_impl; [done|]. by intros z [_ ?].
  - eapply Forall_bind_of; [|exact Hl1]. intros z Hz. unfold returnCode. rewrite bind_const. apply Forall_app.
    split; [apply Forall_elem; by intros ? [-> _]%elem_of_replicate|]. apply Forall_singleton, Hz.
  - apply Forall_elem. by intros z [-> _]%elem_of_replicate.
Qed.
End Returns.

(** ** Runs of examples *)
Section Runner.
Variable ptrBits : Z.
Variable rp : list value.
(** The value an instruction of the function gets, and the pointer a restore point finds. *)
Variable pick : value -> Z * Z.

Definition next (s : State) (x : Instr) : State :=
  match origin x with
  | Some v => setRegister (RVal v) (pick v).1 (setSP (if decide (v ∈ rp) then (pick v).2 else sp s) s)
  | None => exec ptrBits x s
  end.

Lemma steps_next s l : steps ptrBits rp s l (fold_left next l s).
Proof.
  revert s. induction l as [|x l IH]; intros s; [constructor|]. econstructor; [|apply IH]. unfold next.
  destruct (origin x) as [v|] eqn:Hx; [|by apply step_created]. apply step_item; [done|]. by case_decide.
Qed.
End Runner.

Definition demoStart (z : Z) : State := {| sp := z; regs := fun _ => 0; slots := fun _ => 0 |}.
Definition demoNext : State -> Instr -> State := next 64 [VRef 4] (fun _ => (0, 99)).
Definition demoFound : Found := Build_Found [VRef 1] [] [] [VRef 5] [VRef 4].
Definition demoRewritten : Code := from_option snd (Build_Code [] [] []) demoRun.

(** The state in which the example's run comes to its [n]-th instruction. *)
Definition demoRunState (z : Z) (n : nat) : State := fold_left demoNext (take n (trace demoRewritten [0%nat])) (demoStart z).

Lemma demo_reaches z n x v :
  trace demoRewritten [0%nat] !! n = Some x -> origin x = Some v ->
  forallb (fun y => negb (bool_decide (origin y = Some (VRef 5)))) (take n (trace demoRewritten [0%nat])) = true ->
  reaches 64 [VRef 4] demoFound demoRewritten [0%nat] (demoStart z) x v (demoRunState z n).
Proof.
  intros Hn Hx Hb. exists (take n (trace demoRewritten [0%nat])), (drop (S n) (trace demoRewritten [0%nat])).
  split; [by rewrite take_drop_middle|]. split; [done|]. split; [apply steps_next|].
  intros y w Hy Hw Hin%list_elem_of_singleton. subst w. rewrite forallb_forall in Hb.
  specialize (Hb y (proj1 (list_elem_of_In _ _) Hy)). rewrite Hw in Hb. by rewrite bool_decide_eq_true_2 in Hb.
Qed.

(** ** Properties *)

(** C10: a function the safe stack pass has rewritten restores the unsafe stack pointer:
    on every path from the entry, in front of every return (or of the tail call the
    function returns from) the pointer has the value it had at the entry, whatever the
    calls that return twice and the landing pads on the path left in it. *)
Theorem return_restores_pointer `{SE : ScalarEvolution} {SL : StackLayout} M DL Q K DGSafe t fuel F f c path s0 x v s :
  findInsts M DL Q DGSafe t fuel F = Some f -> run M DL Q K DGSafe t fuel F = Some (true, c) -> v ∈ Returns f ->
  reaches (ptrBits K) (StackRestorePoints f) f c path s0 x v s -> sp s = sp s0.
Proof.
  intros Hf Hr Hv. unfold run in Hr. rewrite Hf in Hr. simpl in Hr. destruct (nothingToDo f); [done|].
  injection Hr as <-. apply return_restores; [apply bodyOf_local|done].
Qed.

Lemma return_restores_pointer_witness :
  sp (demoRunState 4096 14) = 4096 /\ sp (demoRunState 4096 12) = 99.
Proof.
  split; [|vm_compute; reflexivity].
  apply (@return_restores_pointer demoSE sequentialLayout demoModule demoDL demoInfo demoFrame true (TG {[VRef 1]} ∅) 0 (VRef 20)
    demoFound demoRewritten [0%nat] (demoStart 4096) (Orig (VRef 5) []) (VRef 5)).
  - vm_compute. reflexivity.
  - vm_compute. reflexivity.
  - left.
  - apply demo_reaches; vm_compute; reflexivity.
Defined.
