(* ===== verification/SafeStackFrame.v ===== *)
(** * The unsafe frame

    The layout of a function's frame on the unsafe stack and the value of the stack
    pointer while the function runs.  [frameBaseOf] and [frameTop] are the addresses the
    entry code computes from the pointer at the entry, [objectAddress] the address the
    created code uses for an object. *)
From stdpp Require Import base countable gmap sets list option strings.
From Stdlib Require Import ZArith Lia.
From S2P Require Import Prelude APInt LLVM PTA ValueRange SafeStack SafeStackCode SafeStackShape SafeStackExec.
Local Open Scope Z_scope.

Section Frame.
Context `{SE : ScalarEvolution} {SL : StackLayout}.
Variable M : IRModule.
Variable DL : DataLayout.
Variable Q : InstInfo.
Variable K : FrameInfo.
Abbreviation pb := (ptrBits K).

(** ** The addresses *)
Definition frameBaseOf (L : Layout) (z : Z) : Z :=
  if StackAlignment <? getFrameAlignment L
  then Z.land (z mod 2 ^ pb) (alignMask K (getFrameAlignment L)) mod 2 ^ pb else z.
Definition objectAddress (L : Layout) (z : Z) (o : Reg) : Z :=
  (frameBaseOf L z + to_signed 32 (negI32 (getObjectOffset L o))) mod 2 ^ pb.
Definition layoutTop (L : Layout) (z : Z) : Z :=
  (frameBaseOf L z + to_signed 32 (negI32 (frameSize L))) mod 2 ^ pb.
Definition frameTop (f : Found) (z : Z) : Z :=
  if bool_decide (StaticAllocas f = []) && bool_decide (ByValArguments f = []) then z
  else layoutTop (computeLayout (frameObjects M DL Q K f)) z.

(** ** The entry code *)
Definition plain (x : Instr) : Prop := created x /\ forall r, x <> GuardValue r.

Lemma steps_plain rp s l s' : steps pb rp s l s' -> Forall plain l -> s' = fold_left (fun s x => exec pb x s) l s.
Proof.
  induction 1 as [|s s1 s2 x l Hx _ IH]; [done|]. intros [[Ho Hg] Hl]%Forall_cons. simpl.
  apply step_created_inv in Hx as ->; [|done..]. by apply IH.
Qed.

Definition quietInstr (x : Instr) : Prop := setsSP x = false /\ setsSlot x = false.
Definition entryQuiet (x : Instr) : Prop :=
  created x /\ quietInstr x /\ defOf x <> Some BasePointer /\ defOf x <> Some Realigned /\ defOf x <> Some StaticTopReg.
Definition bodyQuiet (x : Instr) : Prop := quietInstr x /\ localDef x.

Lemma quiet_subst o n x : quietInstr x -> quietInstr (subst o n x).
Proof. by destruct x. Qed.
Lemma entryQuiet_subst o n x : entryQuiet x -> entryQuiet (subst o n x).
Proof. unfold entryQuiet, created. rewrite defOf_subst, origin_subst. intros (? & ? & ?). split_and!; [done|by apply quiet_subst|naive_solver..]. Qed.
Lemma bodyQuiet_subst o n x : bodyQuiet x -> bodyQuiet (subst o n x).
Proof. intros [? ?]. split; [by apply quiet_subst|by apply localDef_subst]. Qed.
Lemma entryDef_quiet x : entryDef x -> entryQuiet x.
Proof.
  intros (? & Hs & Hl & ?). split_and!; [done| |naive_solver..].
  destruct x; simpl; try done; [by destruct (Hs a)|by destruct (Hl a slot)].
Qed.

Lemma steps_entryQuiet rp s l s' :
  steps pb rp s l s' -> Forall entryQuiet l ->
  sp s' = sp s /\ regs s' BasePointer = regs s BasePointer /\ regs s' Realigned = regs s Realigned /\
  regs s' StaticTopReg = regs s StaticTopReg.
Proof.
  intros Hs Hl. split_and!.
  - eapply (proj1 (steps_quiet pb rp s l s' Hs _)).
    Unshelve. eapply Forall_impl; [exact Hl|]. intros x (Hc & [? ?] & _). split_and!; [done..|].
    intros v Hv. unfold created in Hc. congruence.
  - eapply steps_keep_reg; [done|]. eapply Forall_impl; [exact Hl|]. by intros x (_ & _ & ? & _).
  - eapply steps_keep_reg; [done|]. eapply Forall_impl; [exact Hl|]. by intros x (_ & _ & _ & ? & _).
  - eapply steps_keep_reg; [done|]. eapply Forall_impl; [exact Hl|]. by intros x (_ & _ & _ & _ & ?).
Qed.

(** The frame's base pointer after the first instructions. *)
Lemma front_exec rp L s0 s :
  steps pb rp s0 (frameFront K L) s -> sp s = sp s0 /\ regs s (frameBase L) = frameBaseOf L (sp s0).
Proof.
  intros Hs. apply steps_plain in Hs as ->; unfold frameFront, frameBase, frameBaseOf; destruct (_ <? _); try done;
    simpl; each; split; try done; intros ?; congruence.
Qed.

(** *** The invariant: the pointer is at the top of the frame *)
Definition atTop (top : Reg) (T : Z) (s : State) : Prop := sp s = T /\ regs s top = T.

(** The rewritten function when no alloca is dynamic. *)
Definition expand (f : Found) (top : Reg) (x : Instr) : list Instr :=
  returnCode (Returns f) x ++ replicate (length (reverse (matching (StackRestorePoints f) x))) (StoreSP top).

Lemma restorePoints_body f top c :
  (createStackRestorePoints f top false c).1 =
  overBody (fun x => x :: replicate (length (reverse (matching (StackRestorePoints f) x))) (StoreSP top)) c.
Proof.
  unfold createStackRestorePoints. case_match eqn:Hn; simpl.
  - apply bool_decide_eq_true in Hn. rewrite Hn. simpl. by rewrite overBody_id.
  - rewrite (fold_insertAfter (fun I => restoreCode top None I)) by (intros; by repeat constructor).
    apply overBody_ext. intros x. f_equal. apply bind_const.
Qed.

Lemma transform_static f c :
  DynamicAllocas f = [] ->
  exists c1 top, moveStaticAllocasToUnsafeStack M DL Q K f (protectStack K f (emit front0 c)) = (c1, top) /\
    transform M DL Q K f c = overBody (expand f top) c1.
Proof.
  intros Hd. unfold transform. fold front0. destruct (moveStaticAllocasToUnsafeStack _ _ _ _ _ _) as [c1 top].
  exists c1, top. split; [done|]. rewrite Hd. cbn [bool_decide].
  pose proof (restorePoints_body f top c1) as Hr.
  replace (negb (bool_decide ([] = []))) with false by done.
  destruct (createStackRestorePoints _ _ _ _) as [c2 d]. simpl in Hr. subst c2.
  unfold moveDynamicAllocasToUnsafeStack. rewrite Hd. simpl.
  rewrite restoreBefore_body, overBody_compose. apply overBody_ext. intros x. rewrite bind_cons. unfold expand. f_equal.
  apply bind_same, Forall_elem. intros y [-> _]%elem_of_replicate. unfold returnCode. by rewrite matching_created.
Qed.

Lemma expand_keeps f top T x s s' :
  (forall v, origin x = Some v -> v ∉ Returns f) -> bodyQuiet x -> (exists g, top = RGlobal g) ->
  atTop top T s -> steps pb (StackRestorePoints f) s (expand f top x) s' -> atTop top T s'.
Proof.
  intros Ho [[H1 H2] Hloc] [g Hg] [Hsp Htop] Hs. unfold expand, returnCode in Hs.
  assert (matching (Returns f) x = []) as Hm.
  { apply elem_of_nil_inv. intros v [Hv Hx]%matching_elem. by apply (Ho v). }
  rewrite Hm in Hs. simpl in Hs. inversion_clear Hs as [|? s1 ? ? ? Hx Hl].
  assert (regs s1 top = T) as Ht by (rewrite (step_keeps_reg _ _ top _ _ _ Hx); [done|by rewrite Hg]).
  assert (forall n s1 s', regs s1 top = T -> (n = 0%nat -> sp s1 = T) ->
    steps pb (StackRestorePoints f) s1 (replicate n (StoreSP top)) s' -> atTop top T s') as Hrep.
  { clear. intros n. induction n as [|n IH]; intros s1 s' Ht Hn Hs; inversion Hs as [|? s2 ? ? ? Hx Hl]; subst.
    - split; [by apply Hn|done].
    - apply step_created_inv in Hx as ->; [|done..]. by apply (IH _ _) in Hl. }
  eapply Hrep; [exact Ht| |exact Hl]. intros Hn.
  destruct (step_quiet _ _ _ _ _ Hx H1 H2) as [-> _]; [|done].
  intros v Hv Hin. assert (v ∈ matching (StackRestorePoints f) x) as Hi by (by apply matching_elem).
  rewrite length_reverse in Hn. apply nil_length_inv in Hn. rewrite Hn in Hi. by apply elem_of_nil in Hi.
Qed.

Lemma expand_self f top x : x ∈ expand f top x.
Proof. unfold expand, returnCode. rewrite !elem_of_app. left. right. by apply list_elem_of_singleton. Qed.

Lemma expand_keeps_all f top T l s s' :
  (forall y v, y ∈ l ≫= expand f top -> origin y = Some v -> v ∉ Returns f) -> Forall bodyQuiet l -> (exists g, top = RGlobal g) ->
  atTop top T s -> steps pb (StackRestorePoints f) s (l ≫= expand f top) s' -> atTop top T s'.
Proof.
  intros Ho Hl Hg. revert s. induction Hl as [|x l Hx Hl IH]; intros s Ht Hs; [inversion Hs; by subst|].
  rewrite bind_cons in Hs. apply steps_app in Hs as (s1 & Hs1 & Hs2). eapply IH; [| |exact Hs2].
  - intros y v Hy. apply Ho. rewrite bind_cons. apply elem_of_app. by right.
  - eapply expand_keeps; [|done..]. intros v. apply Ho. rewrite bind_cons. apply elem_of_app. left. apply expand_self.
Qed.

Lemma expand_split f top y a x b v :
  expand f top y = a ++ x :: b -> origin x = Some v -> v ∉ Returns f -> y = x /\ a = [].
Proof.
  unfold expand, returnCode. rewrite bind_const. intros Hy Hx Hv.
  assert (forall z n, x ∈ replicate n (StoreSP z) -> False) as Hr by (intros z n [-> _]%elem_of_replicate; done).
  assert (x = y) as ->.
  { assert (x ∈ a ++ x :: b) as Hin by set_solver. rewrite <- Hy in Hin.
    apply elem_of_app in Hin as [[Hin|Hin]%elem_of_app|Hin]; [by apply Hr in Hin| |by apply Hr in Hin].
    by apply list_elem_of_singleton in Hin. }
  split; [done|]. assert (matching (Returns f) y = []) as Hm.
  { apply elem_of_nil_inv. intros w [Hw Hy']%matching_elem. congruence. }
  rewrite Hm in Hy. simpl in Hy. destruct a as [|z a]; [done|]. exfalso. injection Hy as _ Hy.
  eapply Hr. rewrite Hy. set_solver.
Qed.

(** The state behind the entry code. *)
Lemma entry_top f bs c1 top s0 s :
  Forall (fun b => Forall bodyQuiet b.2) bs ->
  moveStaticAllocasToUnsafeStack M DL Q K f (protectStack K f (emit front0 (Build_Code [] [] bs))) = (c1, top) ->
  (exists g, top = RGlobal g) /\ Forall (fun b => Forall bodyQuiet b.2) (body c1) /\ Forall created (pre c1 ++ post c1)%list /\
  (steps pb (StackRestorePoints f) s0 (pre c1 ++ post c1)%list s -> atTop top (frameTop f (sp s0)) s).
Proof.
  intros Hb Hm.
  assert (shape front0 entryQuiet bodyQuiet (protectStack K f (emit front0 (Build_Code [] [] bs)))) as H0.
  { apply protectStack_shape; [apply entryDef_quiet|done|by apply start_shape]. }
  destruct (moveStatic_shape M DL Q K entryQuiet bodyQuiet f) with
    (c := protectStack K f (emit front0 (Build_Code [] [] bs))) (c' := c1) (top := top)
    as [(-> & -> & Hst & Hv)|(rest & bs' & Hne & Hr & Hbs & -> & ->)]; try done.
  - apply entryDef_quiet.
  - apply entryQuiet_subst.
  - intros o n x _. apply bodyQuiet_subst.
  - repeat constructor; done.
  - split_and!; [by eexists|by destruct H0 as (_ & _ & ?)|..]; destruct (shape_entry _ _ _ _ H0) as (rest & -> & Hrest).
    + apply Forall_app. split; [by repeat constructor|]. eapply Forall_impl; [exact Hrest|]. by intros x [? _].
    + intros Hs. apply steps_app in Hs as (s1 & Hs1 & Hs2).
      apply steps_plain in Hs1 as ->; [|unfold front0; each].
      apply steps_entryQuiet in Hs2 as (Hsp & Hb1 & _); [|done]. unfold frameTop, atTop.
      rewrite Hst, Hv, Hsp, Hb1. done.
  - split_and!; [by eexists|done|..]; cbn [pre post].
    + rewrite !Forall_app. split_and!; [|by repeat constructor|eapply Forall_impl; [exact Hr|]; by intros x [? _]].
      unfold frameFront. destruct (_ <? _); by repeat constructor.
    + intros Hs. apply steps_app in Hs as (s2 & Hs & Hs2). apply steps_app in Hs as (s1 & Hs & Hs1).
      apply front_exec in Hs as [Hsp Hbase].
      apply steps_plain in Hs1 as ->; [|each].
      apply steps_entryQuiet in Hs2 as (Hsp2 & _ & _ & Ht2); [|done].
      unfold atTop, frameTop. rewrite Hne, Hsp2, Ht2. simpl. rewrite Hbase. done.
Qed.

Lemma bodyOf_quiet F : Forall (fun b => Forall bodyQuiet b.2) (bodyOf M K F).
Proof.
  eapply Forall_impl; [apply bodyOf_items|]. intros b Hb. eapply Forall_impl; [exact Hb|]. intros x [v Hv].
  split; [by destruct x|]. intros g. rewrite (item_local _ _ Hv). congruence.
Qed.

(** While the function runs, the pointer is at the top of its frame. *)
Lemma stack_top_kept f bs path s0 x v s :
  DynamicAllocas f = [] -> Forall (fun b => Forall bodyQuiet b.2) bs -> v ∉ Returns f ->
  reaches pb (StackRestorePoints f) f (transform M DL Q K f (Build_Code [] [] bs)) path s0 x v s ->
  sp s = frameTop f (sp s0).
Proof.
  intros Hd Hb Hv (p & q & Ht & Hx & Hs & Hno). destruct (transform_static f (Build_Code [] [] bs) Hd) as (c1 & top & Hm & Hr).
  rewrite Hr in Ht. clear Hr. destruct (entry_top f bs c1 top s0 s Hb Hm) as (Hg & Hbody & Hcr & _).
  apply (trace_item _ _ _ _ _ v) in Ht as (p' & -> & Hl); [|done|done]. rewrite visited_overBody in Hl.
  apply (visited_Forall bodyQuiet c1 path) in Hbody as Hl0. revert Hl Hl0. generalize (visitedCode c1 path). intros l0 Hl Hl0.
  cbn [pre post overBody] in Hs, Hno.
  apply steps_app in Hs as (s1 & Hs1 & Hs2).
  destruct (entry_top f bs c1 top s0 s1 Hb Hm) as (_ & _ & _ & Hent). specialize (Hent Hs1).
  apply bind_split in Hl as (l1 & y & l2 & a & b & Heq & Hy & -> & _).
  apply (expand_split _ _ _ _ _ _ v) in Hy as [_ ->]; [|done..]. rewrite app_nil_r in *.
  rewrite Heq in Hl0. apply Forall_app in Hl0 as [Hl1 _].
  apply (expand_keeps_all f top (frameTop f (sp s0)) l1 s1 s); [|done..].
  intros z w Hz. apply Hno. apply elem_of_app. by right.
Qed.
End Frame.

(** ** The layout

    What LLVM documents of [StackLayout] for a list of objects: offsets count down from
    the base pointer to the start of an object; objects have their size and alignment, do
    not overlap, and lie in the frame. *)
Record LayoutOK (objs : list StackObject) (L : Layout) : Prop := {
  lo_size : 0 <= getFrameSize L;
  lo_align : exists k, 4 <= k /\ getFrameAlignment L = 2 ^ k;
  lo_object : forall o, o ∈ objs ->
    0 < o_size o <= getObjectOffset L (o_handle o) /\ getObjectOffset L (o_handle o) <= getFrameSize L /\
    (o_align o | getObjectOffset L (o_handle o)) /\ (o_align o | getFrameAlignment L);
  lo_disjoint : forall o o', o ∈ objs -> o' ∈ objs -> o_handle o <> o_handle o' ->
    getObjectOffset L (o_handle o) <= getObjectOffset L (o_handle o') - o_size o' \/
    getObjectOffset L (o_handle o') <= getObjectOffset L (o_handle o) - o_size o }.

Lemma negI32_signed x : 0 <= x <= 2 ^ 31 -> to_signed 32 (negI32 x) = - x.
Proof.
  intros Hx. unfold negI32, to_signed. destruct (Z.eq_dec x 0) as [->|Hne]; [done|].
  assert ((- x) mod 2 ^ 32 = 2 ^ 32 - x) as ->.
  { replace (- x) with (2 ^ 32 - x + (-1) * 2 ^ 32) by lia. rewrite Z.mod_add by lia. apply Z.mod_small. lia. }
  destruct (Z.ltb_spec (2 ^ 32 - x) (2 ^ (32 - 1))); lia.
Qed.

(** The constant wraps around for an offset above 2 GiB. *)
Lemma negI32_wraps x : 2 ^ 31 < x < 2 ^ 32 -> to_signed 32 (negI32 x) = 2 ^ 32 - x.
Proof.
  intros Hx. unfold negI32, to_signed.
  assert ((- x) mod 2 ^ 32 = 2 ^ 32 - x) as ->.
  { replace (- x) with (2 ^ 32 - x + (-1) * 2 ^ 32) by lia. rewrite Z.mod_add by lia. apply Z.mod_small. lia. }
  destruct (Z.ltb_spec (2 ^ 32 - x) (2 ^ (32 - 1))); lia.
Qed.

Lemma alignTo_spec n : 0 <= n -> n <= alignTo n 16 < n + 16 /\ (16 | alignTo n 16).
Proof.
  intros Hn. unfold alignTo. pose proof (Z.div_mod (n + 16 - 1) 16). pose proof (Z.mod_pos_bound (n + 16 - 1) 16).
  split; [lia|]. by exists ((n + 16 - 1) / 16).
Qed.

Section Layout.
Variable K : FrameInfo.
Abbreviation pb := (ptrBits K).

Lemma land_alignMask x k : 0 <= k <= pb -> 0 <= x < 2 ^ pb -> Z.land x (alignMask K (2 ^ k)) = x - x mod 2 ^ k.
Proof.
  intros Hk Hx. unfold alignMask. rewrite (Z.land_comm (Z.lnot _)), Z.land_assoc.
  rewrite (Z.land_ones x) by lia. rewrite (Z.mod_small x) by lia.
  replace (2 ^ k - 1) with (Z.ones k) by (rewrite Z.ones_equiv; lia).
  change (Z.land x (Z.lnot (Z.ones k))) with (Z.land x (Z.lnot (Z.ones k))). rewrite <- Z.ldiff_land.
  rewrite Z.ldiff_ones_r, Z.shiftl_mul_pow2, Z.shiftr_div_pow2 by lia.
  pose proof (Z.div_mod x (2 ^ k)). lia.
Qed.

Variable objs : list StackObject.
Variable L : Layout.
Hypothesis HL : LayoutOK objs L.
Variable z : Z.
Hypothesis Hz : 0 <= z < 2 ^ pb.
Hypothesis Hz16 : (16 | z).
Hypothesis Hsize : alignTo (getFrameSize L) 16 <= 2 ^ 31.
Hypothesis Hroom : alignTo (getFrameSize L) 16 + getFrameAlignment L <= z.

(** The base pointer is the pointer at the entry rounded down to the frame's alignment. *)
Lemma frameBase_spec :
  frameBaseOf K L z <= z /\ z - getFrameAlignment L < frameBaseOf K L z /\ (getFrameAlignment L | frameBaseOf K L z) /\
  (16 | frameBaseOf K L z).
Proof using HL Hz Hz16 Hroom.
  destruct (lo_align _ _ HL) as (k & Hk & Hka). rewrite Hka.
  assert (2 ^ 4 <= 2 ^ k) as H16 by (by apply Z.pow_le_mono_r).
  assert ((16 | 2 ^ k)) as Hd.
  { exists (2 ^ (k - 4)). change 16 with (2 ^ 4). rewrite <- Z.pow_add_r by lia. f_equal. lia. }
  unfold frameBaseOf. rewrite Hka. unfold StackAlignment. destruct (Z.ltb_spec 16 (2 ^ k)) as [Hlt|Hge].
  - rewrite (Z.mod_small z) by done. destruct (Z.le_gt_cases k pb) as [Hkp|Hkp].
    + rewrite land_alignMask by lia. pose proof (Z.mod_pos_bound z (2 ^ k)). pose proof (Z.mod_le z (2 ^ k)).
      rewrite Z.mod_small by lia.
      assert ((2 ^ k | z - z mod 2 ^ k)) as Hdz by (exists (z / 2 ^ k); pose proof (Z.div_mod z (2 ^ k)); lia).
      split_and!; [lia|lia|done|by etrans].
    + exfalso. pose proof (lo_size _ _ HL). destruct (alignTo_spec (getFrameSize L)) as [[? _] _]; [done|].
      assert (2 ^ pb < 2 ^ k) by (destruct (Z.le_gt_cases 0 pb); [apply Z.pow_lt_mono_r; lia|rewrite (Z.pow_neg_r 2 pb) by lia; lia]).
      lia.
  - assert (2 ^ k = 16) as Heq by lia. rewrite Heq. split_and!; [lia|lia|done|done].
Qed.

Lemma layoutTop_spec : layoutTop K L z = frameBaseOf K L z - alignTo (getFrameSize L) 16 /\ (16 | layoutTop K L z).
Proof using HL Hz Hz16 Hsize Hroom.
  pose proof (lo_size _ _ HL) as Hs. destruct (alignTo_spec _ Hs) as [[? ?] Hd]. destruct frameBase_spec as (? & ? & _ & ?).
  unfold layoutTop, frameSize, StackAlignment. rewrite (Z.mod_small (alignTo _ _)) by lia. rewrite negI32_signed by lia.
  rewrite Z.mod_small by lia. split; [lia|]. by apply Z.divide_sub_r.
Qed.

Lemma objectAddress_spec o : o ∈ objs ->
  objectAddress K L z (o_handle o) = frameBaseOf K L z - getObjectOffset L (o_handle o) /\
  layoutTop K L z <= objectAddress K L z (o_handle o) /\
  objectAddress K L z (o_handle o) + o_size o <= z /\ (o_align o | objectAddress K L z (o_handle o)).
Proof using HL Hz Hz16 Hsize Hroom.
  intros Ho. destruct (lo_object _ _ HL o Ho) as (? & ? & ? & ?). pose proof (lo_size _ _ HL) as Hs.
  destruct (alignTo_spec _ Hs) as [[? ?] _]. destruct frameBase_spec as (? & ? & ? & _). destruct layoutTop_spec as [-> _].
  unfold objectAddress. rewrite negI32_signed by lia. rewrite Z.mod_small by lia.
  split_and!; [lia..|]. apply Z.divide_sub_r; [by etrans|done].
Qed.

Lemma objects_disjoint o o' : o ∈ objs -> o' ∈ objs -> o_handle o <> o_handle o' ->
  objectAddress K L z (o_handle o) + o_size o <= objectAddress K L z (o_handle o') \/
  objectAddress K L z (o_handle o') + o_size o' <= objectAddress K L z (o_handle o).
Proof using HL Hz Hz16 Hsize Hroom.
  intros Ho Ho' Hne. destruct (objectAddress_spec o Ho) as (-> & _). destruct (objectAddress_spec o' Ho') as (-> & _).
  destruct (lo_disjoint _ _ HL o o' Ho Ho' Hne); lia.
Qed.
End Layout.

(** A frame above 2 GiB: the address of an object whose offset exceeds 2^31 is above the
    base pointer, in the frames of the callers. *)
Lemma large_offset_above_base K L z o :
  2 ^ 31 < getObjectOffset L o < 2 ^ 32 -> 0 <= frameBaseOf K L z -> frameBaseOf K L z + 2 ^ 31 < 2 ^ ptrBits K ->
  frameBaseOf K L z < objectAddress K L z o.
Proof. intros Ho H0 Hb. unfold objectAddress. rewrite negI32_wraps by done. rewrite Z.mod_small by lia. lia. Qed.

(** ** Properties *)

(** C30: while a rewritten function without dynamic allocas runs, its frame on the unsafe
    stack is intact: at every instruction but the returns the stack pointer is 16-byte
    aligned and at or below every moved object, every object lies between the pointer and
    its value at the entry, with its size and alignment, and no two objects overlap.  The
    hypotheses: LLVM's layout keeps its contract, the pointer is aligned at the entry,
    the frame is at most 2 GiB and there is room for it. *)
Theorem frame_intact `{SE : ScalarEvolution} {SL : StackLayout} M DL Q K DGSafe t fuel F f c path s0 x v s :
  let objs := frameObjects M DL Q K f in
  let L := computeLayout objs in
  findInsts M DL Q DGSafe t fuel F = Some f -> run M DL Q K DGSafe t fuel F = Some (true, c) ->
  DynamicAllocas f = [] -> bool_decide (StaticAllocas f = []) && bool_decide (ByValArguments f = []) = false ->
  LayoutOK objs L -> 0 <= sp s0 < 2 ^ ptrBits K -> (16 | sp s0) ->
  alignTo (getFrameSize L) 16 <= 2 ^ 31 -> alignTo (getFrameSize L) 16 + getFrameAlignment L <= sp s0 ->
  v ∉ Returns f -> reaches (ptrBits K) (StackRestorePoints f) f c path s0 x v s ->
  (16 | sp s) /\
  (forall o, o ∈ objs ->
    let a := objectAddress K L (sp s0) (o_handle o) in sp s <= a /\ a + o_size o <= sp s0 /\ (o_align o | a)) /\
  (forall o o', o ∈ objs -> o' ∈ objs -> o_handle o <> o_handle o' ->
    let a := objectAddress K L (sp s0) (o_handle o) in
    let a' := objectAddress K L (sp s0) (o_handle o') in a + o_size o <= a' \/ a' + o_size o' <= a).
Proof.
  intros objs L Hf Hr Hd Hne HL Hz Hz16 Hs Hroom Hv Hre. unfold run in Hr. rewrite Hf in Hr. simpl in Hr.
  destruct (nothingToDo f); [done|]. injection Hr as <-.
  assert (sp s = layoutTop K L (sp s0)) as Hsp.
  { rewrite (stack_top_kept M DL Q K f _ _ _ _ _ _ Hd (bodyOf_quiet M K F) Hv Hre). unfold frameTop. by rewrite Hne. }
  rewrite Hsp. split_and!.
  - by apply (layoutTop_spec K objs).
  - intros o Ho a. by apply (objectAddress_spec K objs L HL).
  - intros o o' Ho Ho' Hn a a'. by apply (objects_disjoint K objs L HL).
Qed.

(** The frame of the example: the array, at 32 bytes below the realigned pointer. *)
Definition demoObject : StackObject := Build_StackObject (RVal (VRef 1)) 16 32.

Lemma demoLayoutOK : LayoutOK [demoObject] (sequentialLayout [demoObject]).
Proof.
  split.
  - vm_compute. discriminate.
  - exists 5. split; [lia|reflexivity].
  - intros o ->%list_elem_of_singleton. split_and!; try (vm_compute; congruence); by exists 1.
  - intros o o' ->%list_elem_of_singleton ->%list_elem_of_singleton Hn. done.
Qed.

Lemma frame_intact_witness :
  sp (demoRunState 4112 11) = 4064 /\ objectAddress demoFrame (sequentialLayout [demoObject]) 4112 (RVal (VRef 1)) = 4064 /\
  4064 + 16 <= 4112.
Proof.
  split; [vm_compute; reflexivity|]. split; [vm_compute; reflexivity|].
  assert (Some true = Some true) as _ by reflexivity.
  destruct (@frame_intact demoSE sequentialLayout demoModule demoDL demoInfo demoFrame true (TG {[VRef 1]} ∅) 0 (VRef 20)
    demoFound demoRewritten [0%nat] (demoStart 4112) (Orig (VRef 4) [RVal (VRef 30)]) (VRef 4) (demoRunState 4112 11)) as (_ & Ho & _).
  - vm_compute. reflexivity.
  - vm_compute. reflexivity.
  - reflexivity.
  - reflexivity.
  - exact demoLayoutOK.
  - vm_compute. intuition congruence.
  - by exists 257.
  - vm_compute. congruence.
  - vm_compute. congruence.
  - intros Hin%list_elem_of_singleton. discriminate.
  - apply demo_reaches; vm_compute; reflexivity.
  - destruct (Ho demoObject) as (_ & H & _); [left|]. vm_compute in H |- *. exact H.
Defined.
