(* ===== verification/SafeStackUses.v ===== *)
(** * Address registers

    The registers for the uses of moved objects, each set by a pair of created instructions
    to the object's address on the unsafe stack.  SafeStackMoves.v shows that the uses read
    them.  [wired E l] types the code [l] run after the code [E] of its block: an address
    register is read only behind the instruction that defines it.  Every operation of the
    pass keeps blocks wired, whatever it inserts. *)
From stdpp Require Import base countable gmap sets list option strings.
From Stdlib Require Import ZArith Lia.
From S2P Require Import Prelude APInt LLVM PTA ValueRange SafeStack SafeStackCode SafeStackShape SafeStackExec SafeStackFrame.
Local Open Scope Z_scope.

Definition offReg (AI user : value) (n : nat) : Reg := RLocal "off" AI user n.

(** Either of the two registers of a use. *)
Definition addressReg (r : Reg) : bool :=
  match r with RLocal name _ _ _ => bool_decide (name = "off"%string) || bool_decide (name = "unsafe"%string) | _ => false end.

Lemma addressReg_off AI u n : addressReg (offReg AI u n) = true.
Proof. reflexivity. Qed.
Lemma addressReg_use AI u n : addressReg (useReg AI u n) = true.
Proof. reflexivity. Qed.

(** What an instruction reads in its block; a phi node reads on the incoming edge, where
    SafeStackMoves.v finds its registers in the incoming block. *)
Definition readsOf (x : Instr) : list Reg := match x with Phi _ _ => [] | _ => usesOf x end.

Section Wired.
Variable Base : Reg.
Variable off : value -> Z.

Definition offInstr (AI user : value) (n : nat) : Instr := Gep8 (offReg AI user n) Base (negI32 (off AI)).
Definition useInstr (AI user : value) (n : nat) : Instr := Cast (useReg AI user n) (offReg AI user n).

Definition readsOK (E : list Instr) (x : Instr) : Prop :=
  forall AI user n,
    (offReg AI user n ∈ readsOf x -> offInstr AI user n ∈ E) /\
    (useReg AI user n ∈ readsOf x -> useInstr AI user n ∈ E).

Fixpoint wired (E l : list Instr) : Prop :=
  match l with
  | [] => True
  | x :: l => readsOK E x /\ wired (E ++ [x]) l
  end.

(** Address registers are defined by these instructions only. *)
Definition addressDef (x : Instr) : Prop :=
  forall AI user n,
    (defOf x = Some (offReg AI user n) -> x = offInstr AI user n) /\
    (defOf x = Some (useReg AI user n) -> x = useInstr AI user n).

Definition isAddressInstr (x : Instr) : Prop :=
  exists AI user n, x = offInstr AI user n \/ x = useInstr AI user n.

(** [E'] has the address code of [E]. *)
Definition extends (E E' : list Instr) : Prop := forall x, isAddressInstr x -> x ∈ E -> x ∈ E'.

Lemma extends_app E E' x : extends E E' -> extends (E ++ [x]) (E' ++ [x]).
Proof. intros He y Hy [?|?]%elem_of_app; apply elem_of_app; [left; by apply He|by right]. Qed.

#[global] Instance extends_preorder : PreOrder extends.
Proof. split; [by intros ? ?|]. intros ? ? ? H1 H2 x Hx ?. apply H2, H1; done. Qed.

Lemma readsOK_extends E E' x : extends E E' -> readsOK E x -> readsOK E' x.
Proof.
  intros He Hx AI u n. destruct (Hx AI u n) as [H1 H2].
  split; intros Hr; apply He; auto; exists AI, u, n; by auto.
Qed.

Lemma wired_extends E E' l : extends E E' -> wired E l -> wired E' l.
Proof.
  revert E E'. induction l as [|x l IH]; intros E E' He; simpl; [done|]. intros [Hx Hl].
  split; [by eapply readsOK_extends|]. eapply IH; [|done]. by apply extends_app.
Qed.

Lemma wired_app E l1 l2 : wired E (l1 ++ l2) <-> wired E l1 /\ wired (E ++ l1) l2.
Proof.
  revert E. induction l1 as [|x l1 IH]; intros E; simpl; [rewrite app_nil_r; tauto|].
  rewrite IH, <- app_assoc. simpl. tauto.
Qed.

(** Inserted code that reads no address register. *)
Definition readsNone (x : Instr) : Prop := forall r, r ∈ readsOf x -> addressReg r = false.

Lemma readsNone_OK E x : readsNone x -> readsOK E x.
Proof. intros Hx AI u n. split; intros Hr; apply Hx in Hr; [rewrite addressReg_off in Hr|rewrite addressReg_use in Hr]; done. Qed.

Lemma wired_none E l : Forall readsNone l -> wired E l.
Proof. intros Hl. revert E. induction Hl as [|x l Hx _ IH]; intros E; [done|]. split; [by apply readsNone_OK|apply IH]. Qed.

(** A pass that rewrites instruction by instruction. *)
Lemma wired_bind g E E' l :
  (forall F x, readsOK F x -> wired F (g x)) -> (forall x, isAddressInstr x -> x ∈ g x) ->
  extends E E' -> wired E l -> wired E' (l ≫= g).
Proof.
  intros Hg Hk. revert E E'. induction l as [|x l IH]; intros E E' He; [done|]. intros [Hx Hl].
  rewrite bind_cons. apply wired_app. split; [apply Hg; by eapply readsOK_extends|].
  eapply IH; [|exact Hl]. intros y Hy [Hi| ->%list_elem_of_singleton]%elem_of_app; apply elem_of_app;
    [left; by apply He|right; by apply Hk].
Qed.

(** Inserted code must be wired by itself. *)
Lemma wired_around (before after : list Instr) F x :
  wired [] before -> wired [] after -> readsOK F x -> wired F (before ++ x :: after).
Proof.
  assert (forall F, extends [] F) as Hn by (intros F' y _ Hy; by apply elem_of_nil in Hy).
  intros Hb Ha Hx. apply wired_app. split; [eapply wired_extends; [apply Hn|done]|]. simpl. split.
  - eapply readsOK_extends; [|done]. intros y _ ?. apply elem_of_app. by left.
  - eapply wired_extends; [apply Hn|done].
Qed.

Hypothesis HBase : addressReg Base = false.

Lemma useCode_wired AI user n : wired [] (useCode Base (off AI) AI user n).
Proof using HBase.
  split; [|split; [|done]].
  - apply readsNone_OK. by intros r ->%list_elem_of_singleton.
  - intros AI' u' n'. simpl. split; intros Hr%list_elem_of_singleton; [|done]. injection Hr as -> -> ->. by left.
Qed.

(** A replacement of a register that is not part of the address code. *)
Lemma subst_address old new x :
  addressReg old = false -> Base <> old -> isAddressInstr x -> subst old new x = x.
Proof using HBase.
  intros Ho Hb (AI & u & n & [->| ->]); simpl; unfold substReg; rewrite decide_False; [done|done|done|].
  intros <-. by rewrite addressReg_off in Ho.
Qed.

Lemma readsOf_subst old new x : readsOf (subst old new x) = substReg old new <$> readsOf x.
Proof using Type. by destruct x. Qed.

Lemma readsOK_subst old new E x :
  addressReg old = false -> addressReg new = false -> Base <> old -> readsOK E x ->
  readsOK (subst old new <$> E) (subst old new x).
Proof using HBase.
  intros Ho Hn Hb Hx AI u n. destruct (Hx AI u n) as [H1 H2].
  assert (forall r, addressReg r = true -> r ∈ readsOf (subst old new x) -> r ∈ readsOf x) as Hr.
  { intros r Ha. rewrite readsOf_subst. intros (r' & -> & Hr')%list_elem_of_fmap. unfold substReg in *.
    destruct (decide (r' = old)); [congruence|done]. }
  split; intros Hin; apply Hr in Hin; try done; apply list_elem_of_fmap.
  - exists (offInstr AI u n). split; [|by apply H1]. rewrite subst_address; [done..|]. exists AI, u, n. by left.
  - exists (useInstr AI u n). split; [|by apply H2]. rewrite subst_address; [done..|]. exists AI, u, n. by right.
Qed.

Lemma wired_subst old new E l :
  addressReg old = false -> addressReg new = false -> Base <> old -> wired E l ->
  wired (subst old new <$> E) (subst old new <$> l).
Proof using HBase.
  intros Ho Hn Hb. revert E. induction l as [|x l IH]; intros E; [done|]. intros [Hx Hl]. rewrite fmap_cons.
  split; [by apply readsOK_subst|]. apply IH in Hl. by rewrite fmap_app in Hl.
Qed.

(** ** Wired functions *)
Definition wiredBody (c : Code) : Prop := Forall (fun b => wired [] b.2) (body c).

Lemma wiredBody_over g c :
  (forall F x, readsOK F x -> wired F (g x)) -> (forall x, isAddressInstr x -> x ∈ g x) ->
  wiredBody c -> wiredBody (overBody g c).
Proof using Type.
  intros Hg Hk Hc. unfold wiredBody. simpl. apply Forall_fmap. eapply Forall_impl; [exact Hc|].
  intros [bb l] Hl. simpl in *. by eapply wired_bind.
Qed.

Lemma isAddressInstr_created x : isAddressInstr x -> created x.
Proof using Type. by intros (? & ? & ? & [->| ->]). Qed.

(** Code put around instructions of the function. *)
Lemma wiredBody_around (before after : Instr -> list Instr) c :
  (forall x, wired [] (before x)) -> (forall x, wired [] (after x)) ->
  wiredBody c -> wiredBody (overBody (fun x => before x ++ x :: after x) c).
Proof using Type.
  intros Hb Ha. apply wiredBody_over; [intros; by apply wired_around|]. intros x _. apply elem_of_app. right. left.
Qed.

Lemma wiredBody_insertBefore v l c : wired [] l -> wiredBody c -> wiredBody (insertCodeBefore v l c).
Proof using Type.
  intros Hl Hc. unfold insertCodeBefore.
  rewrite (overBody_ext _ (fun x => (if isItem v x then l else []) ++ x :: [])) by (intros x; by case_match).
  apply wiredBody_around; [intros x; by case_match|done|done].
Qed.

Lemma wiredBody_insertAfter v l c : wired [] l -> wiredBody c -> wiredBody (insertCodeAfter v l c).
Proof using Type.
  intros Hl Hc. unfold insertCodeAfter.
  rewrite (overBody_ext _ (fun x => [] ++ x :: (if isItem v x then l else []))) by (intros x; by case_match).
  apply wiredBody_around; [done|intros x; by case_match|done].
Qed.

Lemma wiredBody_erase v c : wiredBody c -> wiredBody (eraseFromParent v c).
Proof using Type.
  apply wiredBody_over.
  - intros F x Hx. case_match; [done|]. by split.
  - intros x Hx%isAddressInstr_created. rewrite isItem_created by done. by left.
Qed.

Lemma wiredBody_replace old new c :
  addressReg old = false -> addressReg new = false -> Base <> old -> wiredBody c ->
  wiredBody (replaceAllUsesWith old new c).
Proof using HBase.
  intros ? ? ? Hc. unfold wiredBody. simpl. apply Forall_fmap. eapply Forall_impl; [exact Hc|].
  intros [bb l] Hl. simpl in *. by apply (wired_subst old new []).
Qed.

Lemma wiredBody_terminator bb l c : wired [] l -> wiredBody c -> wiredBody (insertBeforeTerminator bb l c).
Proof using Type.
  assert (forall F, extends [] F) as Hn by (intros F' y _ Hy; by apply elem_of_nil in Hy).
  intros Hl Hc. unfold wiredBody. simpl. apply Forall_fmap. eapply Forall_impl; [exact Hc|].
  intros [bb' l'] Hl'. simpl in *. case_decide; [|done]. simpl.
  destruct l' as [|x l' _] using rev_ind; [simpl; by rewrite app_nil_r|].
  rewrite removelast_last, last_snoc. simpl. apply wired_app in Hl' as [H1 H2]. apply wired_app. split; [done|].
  apply wired_app. split; [eapply wired_extends; [apply Hn|done]|]. eapply wired_extends; [|exact H2].
  intros y _ ?. apply elem_of_app. by left.
Qed.

Lemma wiredBody_fold {A} (g : Code -> A -> Code) l c :
  (forall c a, wiredBody c -> wiredBody (g c a)) -> wiredBody c -> wiredBody (fold_left g l c).
Proof using Type. intros Hg. revert c. induction l as [|a l IH]; intros c Hc; [done|]. apply IH, Hg, Hc. Qed.
End Wired.

Create HintDb wired discriminated.
#[export] Hint Resolve wiredBody_insertBefore wiredBody_insertAfter wiredBody_erase wiredBody_terminator wiredBody_fold : wired.

Lemma body_setInsertAfter r c : body (setInsertAfter r c) = body c.
Proof. unfold setInsertAfter. by destruct (splitAfter r (pre c ++ post c)). Qed.

(** ** The pass keeps the blocks wired *)
Section Pass.
Context `{SE : ScalarEvolution} {SL : StackLayout}.
Variable M : IRModule.
Variable DL : DataLayout.
Variable Q : InstInfo.
Variable K : FrameInfo.
Variable f : Found.
Abbreviation L := (computeLayout (frameObjects M DL Q K f)).
Abbreviation Base := (frameBase L).
Definition objectOffset (AI : value) : Z := getObjectOffset L (RVal AI).
Abbreviation off := objectOffset.
Abbreviation wiredBody := (wiredBody Base off).
Abbreviation wired := (wired Base off).
Abbreviation readsOK := (readsOK Base off).

Lemma frameBase_global : exists g, Base = RGlobal g.
Proof. unfold frameBase. destruct (_ <? _); by eexists. Qed.
Lemma frameBase_address : addressReg Base = false.
Proof. by destruct frameBase_global as [g ->]. Qed.
Lemma frameBase_value v : Base <> RVal v.
Proof. by destruct frameBase_global as [g ->]. Qed.
Lemma frameBase_guard : Base <> GuardSlot.
Proof. unfold frameBase. by destruct (_ <? _). Qed.

Lemma wired_none_any E l : Forall readsNone l -> wired E l.
Proof. apply wired_none. Qed.

Lemma eraseMarker_wired I c : wiredBody c -> wiredBody (eraseMarker M I c).
Proof. intros Hc. unfold eraseMarker. repeat case_match; by auto with wired. Qed.

Lemma protectStack_wired c : wiredBody c -> wiredBody (protectStack K f c).
Proof.
  intros Hc. unfold protectStack. case_match; [|done]. apply wiredBody_fold; [|done]. intros.
  apply wiredBody_insertBefore; [|done]. apply wired_none. repeat constructor. intros r Hr.
  apply elem_of_cons in Hr as [->|Hr]; [done|]. by apply list_elem_of_singleton in Hr as ->.
Qed.

Lemma realign_wired c : wiredBody c -> wiredBody (realign K L c).1.
Proof. intros Hc. unfold realign. case_match; [|done]. unfold wiredBody, emit. simpl. by rewrite body_setInsertAfter. Qed.

Lemma moveGuard_wired c : wiredBody c -> wiredBody (moveGuard K L Base c).
Proof.
  intros Hc. unfold moveGuard. case_match; [|done]. unfold wiredBody. cbn [body].
  apply (wiredBody_replace _ _ frameBase_address GuardSlot); [done|done|apply frameBase_guard|done].
Qed.

Lemma moveByVal_wired Arg c : wiredBody c -> wiredBody (moveByVal DL Q L Base Arg c).
Proof.
  intros Hc. unfold moveByVal. apply (wiredBody_replace _ _ frameBase_address); [done|done|apply frameBase_value|done].
Qed.

Lemma uses_wired AI v l E : wired E (l ≫= useCode Base (off AI) AI v).
Proof.
  revert E. induction l as [|n l IH]; intros E; [done|]. rewrite bind_cons. apply wired_app. split; [|apply IH].
  eapply wired_extends; [|apply useCode_wired, frameBase_address]. intros y _ Hy. by apply elem_of_nil in Hy.
Qed.

Lemma rewriteUser_wired AI F x : readsOK F x -> wired F (rewriteUser Base (off AI) AI x).
Proof.
  intros Hx. destruct x; try (by split). simpl. apply wired_app. split; [apply uses_wired|]. split; [|done].
  intros AI' u n. destruct (Hx AI' u n) as [H1 H2]. simpl in *.
  assert (forall r, addressReg r = true ->
    r ∈ imap (fun n r => if decide (r = RVal AI) then useReg AI v n else r) ops ->
    r ∈ ops \/ exists k, r = useReg AI v k /\ k ∈ usePositions AI ops) as Hr.
  { intros r Ha (k & Hk)%list_elem_of_lookup. rewrite list_lookup_imap in Hk.
    destruct (ops !! k) as [r'|] eqn:Hk'; simpl in Hk; [|done]. case_decide as Hd; injection Hk as <-.
    - right. exists k. split; [done|]. subst r'. apply list_elem_of_filter. split; [done|].
      apply elem_of_seq. apply lookup_lt_Some in Hk'. lia.
    - left. by eapply list_elem_of_lookup_2. }
  split; intros Hin; apply Hr in Hin as [Hin|(k & Heq & Hk)]; try done; apply elem_of_app; auto.
  right. injection Heq as -> -> ->. apply list_elem_of_bind. exists k. split; [|done]. right. by left.
Qed.

Lemma moveAlloca_wired AI c : wiredBody c -> wiredBody (moveAlloca L Base AI c).
Proof.
  intros Hc. unfold moveAlloca. apply wiredBody_erase. apply wiredBody_over.
  { intros F x Hx. destruct x; by split. }
  { intros x Hx%isAddressInstr_created. destruct x; try done; by left. }
  apply wiredBody_fold.
  { intros c' phi Hc'. unfold rewritePhi. apply wiredBody_fold; [|done]. intros c'' bb Hc''.
    apply wiredBody_terminator; [|done]. apply (useCode_wired _ off), frameBase_address. }
  apply wiredBody_over; [|intros x Hx%isAddressInstr_created; destruct x; try done; by left|done].
  intros F x. apply rewriteUser_wired.
Qed.

Lemma moveStatic_wired c : wiredBody c -> wiredBody (moveStaticAllocasToUnsafeStack M DL Q K f c).1.
Proof.
  intros Hc. unfold moveStaticAllocasToUnsafeStack. case_match; [done|]. set (c0 := fold_left _ _ c).
  assert (wiredBody c0) as H0 by (apply wiredBody_fold; [intros; by apply eraseMarker_wired|done]).
  pose proof (realign_wired c0 H0) as H1.
  assert ((realign K L c0).2 = Base) as Hb by (unfold realign, frameBase; by case_match).
  destruct (realign K L c0) as [cr Base']. simpl in Hb, H1. subst Base'. cbn [fst].
  unfold wiredBody, emit. cbn [body]. rewrite body_setInsertAfter.
  apply wiredBody_fold; [intros; by apply moveAlloca_wired|]. apply wiredBody_fold; [intros; by apply moveByVal_wired|].
  apply moveGuard_wired. unfold wiredBody. by rewrite body_setInsertAfter.
Qed.

Lemma restorePoints_wired top need c :
  addressReg top = false -> wiredBody c -> wiredBody (createStackRestorePoints f top need c).1.
Proof.
  intros Ht Hc. unfold createStackRestorePoints. case_match; [done|].
  assert (forall v c, wiredBody c -> wiredBody (insertCodeAfter v (restoreCode top (if need then Some DynamicTopSlot else None) v) c)) as Hi.
  { intros v c'. apply wiredBody_insertAfter, wired_none.
    destruct need; repeat constructor; by intros r ->%list_elem_of_singleton. }
  destruct need; cbn [fst]; (apply wiredBody_fold; [intros; by apply Hi|done]).
Qed.

Lemma dynamicCode_wired d AI F x r :
  from_option addressReg false d = false -> readsOK F x -> r ∈ RGlobal "none" :: readsOf x -> wired F (dynamicCode M DL K d AI r).
Proof.
  intros Hd Hx Hr. split.
  - intros AI' u n. destruct (Hx AI' u n) as [H1 H2]. simpl.
    split; intros Hin%list_elem_of_singleton; subst r; apply elem_of_cons in Hr as [?|?]; by auto.
  - apply wired_none. destruct d; simpl in *; repeat (apply Forall_cons; split); try apply Forall_nil; try done;
      intros r' Hr'; simpl in Hr'; repeat (apply elem_of_cons in Hr' as [->|Hr']; [done|]); by apply elem_of_nil in Hr'.
Qed.

Lemma dynamic_wired d c :
  from_option addressReg false d = false -> wiredBody c -> wiredBody (moveDynamicAllocasToUnsafeStack M DL K f d c).
Proof.
  intros Hd Hc. unfold moveDynamicAllocasToUnsafeStack.
  assert (forall ops : list Reg, default (RGlobal "none") (head ops) ∈ RGlobal "none" :: ops) as Hh.
  { intros [|r ops]; simpl; [by left|right; by left]. }
  assert (wiredBody (fold_left (moveDynamic M DL K d) (DynamicAllocas f) c)) as Hf.
  { apply wiredBody_fold; [|done]. intros c' AI Hc'. unfold moveDynamic.
    apply (wiredBody_replace _ _ frameBase_address); [done|done|apply frameBase_value|]. apply wiredBody_over; [| |done].
    - intros F x Hx. destruct x; try (by split). case_decide; [|by split]. eapply dynamicCode_wired; [done|exact Hx|apply Hh].
    - intros x Hx%isAddressInstr_created. destruct x; try done; by left. }
  case_match; [done|]. apply wiredBody_over; [| |done].
  - intros F x Hx. destruct x; try (by split). simpl. case_match; [split; [apply readsNone_OK; intros r' Hr'; by apply elem_of_nil in Hr'|done]|]. case_match; [|by split].
    split; [|done]. intros AI u n. destruct (Hx AI u n) as [Ho Hu]. specialize (Hh ops). simpl in *.
    split; intros Hin%list_elem_of_singleton; rewrite <- Hin in Hh; apply elem_of_cons in Hh as [?|?]; by auto.
  - intros x Hx%isAddressInstr_created. destruct x; try done; by left.
Qed.

Lemma returns_wired rs c : wiredBody c -> wiredBody (restoreBefore rs c).
Proof.
  intros Hc. unfold restoreBefore. apply wiredBody_fold; [|done]. intros. apply wiredBody_insertBefore; [|done].
  apply wired_none. repeat constructor. by intros r ->%list_elem_of_singleton.
Qed.

(** The blocks of the function before the pass read values only. *)
Definition plainBlocks (bs : list (value * list Instr)) : Prop :=
  Forall (fun b => Forall (fun x => forall r, r ∈ usesOf x -> exists v, r = RVal v) b.2) bs.

Lemma bodyOf_plain F : plainBlocks (bodyOf M K F).
Proof.
  unfold plainBlocks, bodyOf. apply Forall_fmap, Forall_true. intros bb. simpl. apply Forall_fmap, Forall_true. intros v.
  simpl. unfold instrOf. intros r Hr.
  assert (r ∈ RVal <$> operands M v \/ exists l1 l2 : list value, r ∈ (zip (RVal <$> l1) l2).*1) as [Hv|(l1 & l2 & Hv)].
  { repeat case_match; simpl in Hr; eauto. }
  - apply list_elem_of_fmap in Hv as (w & -> & _). by exists w.
  - apply list_elem_of_fmap in Hv as ([r' w] & -> & Hz). apply elem_of_zip_l in Hz.
    apply list_elem_of_fmap in Hz as (w' & -> & _). by exists w'.
Qed.

Lemma plain_wired bs : plainBlocks bs -> wiredBody (Build_Code [] [] bs).
Proof.
  intros Hp. eapply Forall_impl; [exact Hp|]. intros b Hb. apply wired_none. eapply Forall_impl; [exact Hb|].
    intros x Hx r Hr. assert (r ∈ usesOf x) as Hu by (destruct x; try done; by apply elem_of_nil in Hr). by destruct (Hx r Hu) as [v ->].
Qed.

Lemma transform_wired bs : plainBlocks bs -> wiredBody (transform M DL Q K f (Build_Code [] [] bs)).
Proof.
  intros Hp. unfold transform. pose proof (plain_wired bs Hp) as H0.
  assert (wiredBody (protectStack K f (emit front0 (Build_Code [] [] bs)))) as H1 by (apply protectStack_wired; exact H0).
  pose proof (moveStatic_wired _ H1) as H2. fold front0.
  assert (addressReg (moveStaticAllocasToUnsafeStack M DL Q K f (protectStack K f (emit front0 (Build_Code [] [] bs)))).2 = false) as Ht.
  { unfold moveStaticAllocasToUnsafeStack. case_match; [done|]. by destruct (realign K _ _). }
  destruct (moveStaticAllocasToUnsafeStack _ _ _ _ _ _) as [c1 top]. simpl in *.
  pose proof (restorePoints_wired top (negb (bool_decide (DynamicAllocas f = []))) c1 Ht H2) as H3.
  assert (from_option addressReg false (createStackRestorePoints f top (negb (bool_decide (DynamicAllocas f = []))) c1).2 = false) as Hd.
  { unfold createStackRestorePoints. case_match; [done|]. by destruct (negb _). }
  destruct (createStackRestorePoints _ _ _ _) as [c2 d]. simpl in *. apply returns_wired. by apply dynamic_wired.
Qed.
End Pass.

(** ** Running wired code *)
Section Run.
Variable pb : Z.
Variable rp : list value.
Variable Base : Reg.
Variable off : value -> Z.
Variable B : Z.

Definition placeOf (AI : value) : Z := (B + to_signed 32 (negI32 (off AI))) mod 2 ^ pb.

(** The registers that the code run so far has set hold the addresses. *)
Definition inPlace (E : list Instr) (s : State) : Prop :=
  regs s Base = B /\
  forall AI u n,
    (offInstr Base off AI u n ∈ E -> regs s (offReg AI u n) = placeOf AI) /\
    (useInstr AI u n ∈ E -> regs s (useReg AI u n) = placeOf AI).

Lemma inPlace_step E s x s' :
  inPlace E s -> defOf x <> Some Base -> addressDef Base off x -> readsOK Base off E x -> execStep pb rp s x s' ->
  inPlace (E ++ [x]) s'.
Proof.
  intros [HB' HE] Hb Hd Hr Hs. split; [by rewrite (step_keeps_reg _ _ _ _ _ _ Hs)|].
  intros AI u n. destruct (HE AI u n) as [Ho Hu]. destruct (Hd AI u n) as [Hdo Hdu]. split; intros Hin.
  - destruct (decide (defOf x = Some (offReg AI u n))) as [He|He].
    + apply Hdo in He as ->. apply step_created_inv in Hs as ->; [|done..]. simpl. rewrite decide_True by done. by rewrite HB'.
    + rewrite (step_keeps_reg _ _ _ _ _ _ Hs) by done. apply Ho. apply elem_of_app in Hin as [?|Hin]; [done|].
      apply list_elem_of_singleton in Hin as <-. done.
  - destruct (decide (defOf x = Some (useReg AI u n))) as [He|He].
    + apply Hdu in He as ->. apply step_created_inv in Hs as ->; [|done..]. simpl. rewrite decide_True by done.
      destruct (Hr AI u n) as [Hro _]. rewrite Ho by (apply Hro; by left). unfold placeOf. by rewrite Z.mod_mod_divide.
    + rewrite (step_keeps_reg _ _ _ _ _ _ Hs) by done. apply Hu. apply elem_of_app in Hin as [?|Hin]; [done|].
      apply list_elem_of_singleton in Hin as <-. done.
Qed.

Lemma inPlace_steps E s l s' :
  inPlace E s -> Forall (fun x => defOf x <> Some Base /\ addressDef Base off x) l -> wired Base off E l ->
  steps pb rp s l s' -> inPlace (E ++ l) s'.
Proof.
  intros Ha Hl. revert E s Ha. induction Hl as [|x l [Hb Hd] _ IH]; intros E s Ha Hw Hs; inversion Hs; subst.
  - by rewrite app_nil_r.
  - destruct Hw as [Hx Hw]. replace (E ++ x :: l)%list with ((E ++ [x]) ++ l)%list by (by rewrite <- app_assoc).
    eapply IH; [|done|done]. by eapply inPlace_step.
Qed.
End Run.

(** ** The addresses in the rewritten function *)
Section Addresses.
Context `{SE : ScalarEvolution} {SL : StackLayout}.
Variable M : IRModule.
Variable DL : DataLayout.
Variable Q : InstInfo.
Variable K : FrameInfo.
Variable f : Found.
Abbreviation L := (computeLayout (frameObjects M DL Q K f)).
Abbreviation Base := (frameBase L).
Abbreviation off := (objectOffset M DL Q K f).

Definition keepsBase (x : Instr) : Prop := created x /\ defOf x <> Some BasePointer /\ defOf x <> Some Realigned.
Definition addressBody (x : Instr) : Prop := localDef x /\ addressDef Base off x.

Lemma keepsBase_subst o n x : keepsBase x -> keepsBase (subst o n x).
Proof. unfold keepsBase, created. by rewrite defOf_subst, origin_subst. Qed.

Lemma addressBody_subst o n x : replaceable o -> addressBody x -> addressBody (subst o n x).
Proof.
  intros Hr [Hl Ha]. split; [by apply localDef_subst|]. intros AI u k. rewrite defOf_subst.
  assert (addressReg o = false /\ Base <> o) as [Ho Hb].
  { unfold frameBase. destruct Hr as [->|[v ->]]; split; try done; by destruct (_ <? _). }
  assert (addressReg Base = false) as Hbase by (unfold frameBase; by destruct (_ <? _)).
  destruct (Ha AI u k) as [H1 H2].
  split; intros Hd; [apply H1 in Hd as ->|apply H2 in Hd as ->]; (apply (subst_address Base off); [done..|]);
    exists AI, u, k; auto.
Qed.

(** An instruction that defines no address register. *)
Lemma addressBody_other x : localDef x -> (forall r, defOf x = Some r -> addressReg r = false) -> addressBody x.
Proof. intros Hl Hr. split; [done|]. intros AI u n. split; intros Hd; by apply Hr in Hd. Qed.

Lemma addressBody_use AI user n : Forall addressBody (useCode Base (off AI) AI user n).
Proof.
  assert (forall x, (forall g, defOf x <> Some (RGlobal g)) -> addressDef Base off x -> addressBody x) as Hx by done.
  unfold useCode. apply Forall_cons; split; [|apply Forall_cons; split; [|by apply Forall_nil]]; apply Hx; try done;
    intros AI' u n'; split; intros [= -> -> ->]; done.
Qed.

Ltac plain_address := repeat (apply Forall_cons; split); try apply Forall_nil; try done;
  (apply addressBody_other; [intros ?; simpl; congruence|intros r Hr; simpl in Hr; by injection Hr as <-]).

Lemma addressBody_dynamic d AI n : Forall addressBody (dynamicCode M DL K d AI n).
Proof. unfold dynamicCode. destruct d; cbn [app from_option]; plain_address. Qed.

Lemma addressBody_item x v : origin x = Some v -> addressBody x.
Proof.
  intros Hx. assert (defOf x = Some (RVal v)) as Hd by (by apply item_local).
  apply addressBody_other; [intros g; congruence|]. intros r. rewrite Hd. by intros [= <-].
Qed.

Lemma addressBody_orig v ops ops' : addressBody (Orig v ops) -> addressBody (Orig v ops').
Proof. intros _. by eapply addressBody_item. Qed.
Lemma addressBody_phi v inc inc' : addressBody (Phi v inc) -> addressBody (Phi v inc').
Proof. intros _. by eapply addressBody_item. Qed.
Lemma entryDef_keepsBase x : entryDef x -> keepsBase x.
Proof. by intros (? & _ & _ & ? & ? & _). Qed.

(** The entry code computes the frame's base pointer and keeps it; the blocks hold address
    code. *)
Lemma transform_shape bs :
  bool_decide (StaticAllocas f = []) = false -> Forall (fun b => Forall (fun x => exists v, origin x = Some v) b.2) bs ->
  shape (frameFront K L) keepsBase addressBody (transform M DL Q K f (Build_Code [] [] bs)).
Proof.
  intros Hne Hb. unfold transform. fold front0.
  assert (shape front0 keepsBase addressBody (protectStack K f (emit front0 (Build_Code [] [] bs)))) as H0.
  { apply protectStack_shape; [apply entryDef_keepsBase|by apply addressBody_other|].
    apply start_shape. eapply Forall_impl; [exact Hb|]. intros b Hx. eapply Forall_impl; [exact Hx|].
    intros x [v Hv]. by eapply addressBody_item. }
  destruct (moveStaticAllocasToUnsafeStack _ _ _ _ _ _) as [c1 top] eqn:H1.
  assert (shape (frameFront K L) keepsBase addressBody c1) as H2.
  { destruct (moveStatic_shape M DL Q K keepsBase addressBody f entryDef_keepsBase keepsBase_subst addressBody_subst
      addressBody_use addressBody_orig addressBody_phi _ _ _ H0 H1) as [(_ & _ & Hs & _)|(rest & bs' & _ & Hr & Hbs & _ & ->)].
    - rewrite Hs in Hne. done.
    - split_and!; [|done..]. cbn [pre]. eexists. split; [done|]. repeat (apply Forall_cons; split); try done. }
  assert (shape (frameFront K L) keepsBase addressBody
    (createStackRestorePoints f top (negb (bool_decide (DynamicAllocas f = []))) c1).1) as H3.
  { apply restorePoints_shape; [|by intros; apply addressBody_other| |done].
    - intros t. repeat (apply Forall_cons; split); try done.
    - intros I d. apply addressBody_other; [intros ?; simpl; congruence|]. intros r [= <-]. done. }
  destruct (createStackRestorePoints _ _ _ _) as [c2 d]. apply returns_shape; [by intros; apply addressBody_other|].
  apply dynamic_shape; [apply keepsBase_subst|apply addressBody_subst|by intros; apply addressBody_other| |
    apply addressBody_dynamic|apply frameFront_stable|done].
  intros v. apply addressBody_other; [intros ?; simpl; congruence|]. by intros r [= <-].
Qed.

(** Code that starts at the entry: the base pointer of the frame. *)
Lemma entry_base c s0 s :
  shape (frameFront K L) keepsBase addressBody c -> steps (ptrBits K) (StackRestorePoints f) s0 (pre c ++ post c)%list s ->
  regs s Base = frameBaseOf K L (sp s0).
Proof.
  intros Hc Hs. destruct (shape_entry _ _ _ _ Hc) as (rest & He & Hr). rewrite He in Hs.
  apply steps_app in Hs as (s1 & Hs1 & Hs2). apply front_exec in Hs1 as [_ <-].
  eapply steps_keep_reg; [exact Hs2|]. eapply Forall_impl; [exact Hr|]. intros x (_ & ? & ?).
  unfold frameBase. by destruct (_ <? _).
Qed.

Lemma entry_created c x : shape (frameFront K L) keepsBase addressBody c -> x ∈ (pre c ++ post c)%list -> created x.
Proof.
  intros Hc. destruct (shape_entry _ _ _ _ Hc) as (rest & -> & Hr). intros [Hi|Hi]%elem_of_app.
  - revert x Hi. apply Forall_forall. unfold frameFront. destruct (_ <? _); by repeat constructor.
  - by apply (Forall_elem_of _ _ _ Hr).
Qed.
End Addresses.
