(* ===== verification/SafeStackMoves.v ===== *)
(** * Where the operands go

    What the safe stack pass makes of the operands of an instruction and of the entries of
    a phi node.  [later prot c c']: the blocks of [c'] hold the instructions of [c], with
    the registers of [prot] where they were, the address code of [c] and created
    instructions.  Every operation of the pass is such a step for the registers it does not
    replace.  Moving an alloca redirects its operands and the phi entries that have it, and
    puts the address into the incoming block of each such entry. *)
From stdpp Require Import base countable gmap sets list option strings.
From Stdlib Require Import ZArith Lia.
From S2P Require Import Prelude APInt LLVM PTA ValueRange SafeStack SafeStackCode SafeStackShape SafeStackExec SafeStackFrame SafeStackUses.
Local Open Scope Z_scope.

(** ** Lists *)
Lemma Forall2_chain {A B C} (P : A -> B -> Prop) (R : B -> C -> Prop) (S : A -> C -> Prop) l1 l2 l3 :
  (forall x y z, P x y -> R y z -> S x z) -> Forall2 P l1 l2 -> Forall2 R l2 l3 -> Forall2 S l1 l3.
Proof. intros Hc H1. revert l3. induction H1 as [|x y l1 l2 Hx _ IH]; intros l3 H2; inversion H2; subst; constructor; eauto. Qed.

Lemma Forall2_same {A} (P : A -> A -> Prop) l : (forall x, x ∈ l -> P x x) -> Forall2 P l l.
Proof. induction l as [|x l IH]; intros H; constructor; [apply H; left|apply IH; intros; apply H; by right]. Qed.

(** Entries of a phi node for the same block have the same value. *)
Definition consistent (inc : list (Reg * value)) : Prop :=
  forall r r' bb, (r, bb) ∈ inc -> (r', bb) ∈ inc -> r = r'.

(** ** Evolution *)
Section Evolution.
Variable Base : Reg.
Variable off : value -> Z.
Abbreviation extends := (extends Base off).
Abbreviation isAddressInstr := (isAddressInstr Base off).
Variable prot : Reg -> Prop.

Definition keepsReg (r r' : Reg) : Prop := prot r -> r' = r.
Definition keepsEntry (p p' : Reg * value) : Prop := p'.2 = p.2 /\ keepsReg p.1 p'.1.

(** [x] became [y]. *)
Definition evolves (x y : Instr) : Prop :=
  match x with
  | Orig v ops => exists ops', y = Orig v ops' /\ Forall2 keepsReg ops ops'
  | Phi v inc => exists inc', y = Phi v inc' /\ (consistent inc -> consistent inc' /\ Forall2 keepsEntry inc inc')
  | _ => False
  end.

Lemma Forall2_keepsReg_refl ops : Forall2 keepsReg ops ops.
Proof. by apply Forall2_same. Qed.

Lemma evolves_refl x v : origin x = Some v -> evolves x x.
Proof.
  destruct x; try done; intros _; eexists; (split; [done|]); [apply Forall2_keepsReg_refl|].
  intros Hc. split; [done|]. by apply Forall2_same.
Qed.

Lemma evolves_origin x y : evolves x y -> origin y = origin x /\ exists v, origin x = Some v.
Proof. destruct x; try done; intros (? & -> & _); by eauto. Qed.

Lemma evolves_trans x y z : evolves x y -> evolves y z -> evolves x z.
Proof.
  destruct x; try done.
  - intros (ops' & -> & H1) (ops'' & -> & H2). exists ops''. split; [done|].
    eapply Forall2_chain; [|exact H1|exact H2]. intros r r' r'' Hr Hr' Hp. specialize (Hr Hp). subst r'. by apply Hr'.
  - intros (inc' & -> & H1) (inc'' & -> & H2). exists inc''. split; [done|]. intros Hc.
    destruct (H1 Hc) as [Hc' F1]. destruct (H2 Hc') as [Hc'' F2]. split; [done|].
    eapply Forall2_chain; [|exact F1|exact F2]. intros p p' p'' [E1 K1] [E2 K2]. split; [congruence|].
    intros Hp. specialize (K1 Hp). rewrite <- K1. apply K2. by rewrite K1.
Qed.

(** What a block became. *)
Definition blockLater (l l' : list Instr) : Prop :=
  extends l l' /\ forall y, y ∈ l' -> created y \/ exists x, x ∈ l /\ evolves x y.
Definition later (c c' : Code) : Prop :=
  Forall2 (fun b b' : value * list Instr => b'.1 = b.1 /\ blockLater b.2 b'.2) (body c) (body c').

Lemma blockLater_refl l : blockLater l l.
Proof.
  split; [done|]. intros y Hy. destruct (origin y) as [v|] eqn:E; [right|by left]. exists y. split; [done|]. by eapply evolves_refl.
Qed.

Lemma blockLater_trans l1 l2 l3 : blockLater l1 l2 -> blockLater l2 l3 -> blockLater l1 l3.
Proof.
  intros [E1 H1] [E2 H2]. split; [by etrans|]. intros z Hz. destruct (H2 z Hz) as [?|(y & Hy & Hyz)]; [by left|].
  destruct (H1 y Hy) as [Hc|(x & Hx & Hxy)].
  - apply evolves_origin in Hyz as [_ [v Hv]]. unfold created in Hc. congruence.
  - right. exists x. split; [done|]. by eapply evolves_trans.
Qed.

#[global] Instance later_preorder : PreOrder later.
Proof.
  split.
  - intros c. apply Forall2_same. intros b _. split; [done|apply blockLater_refl].
  - intros c1 c2 c3 H1 H2. eapply Forall2_chain; [|exact H1|exact H2].
    intros b1 b2 b3 [E1 L1] [E2 L2]. split; [congruence|by eapply blockLater_trans].
Qed.

Lemma later_body c c' : body c' = body c -> later c c'.
Proof. intros He. unfold later. rewrite He. apply (reflexivity (R := later) c). Qed.

Lemma later_map (g : value * list Instr -> list Instr) c c' :
  body c' = (fun b => (b.1, g b)) <$> body c -> (forall b, b ∈ body c -> blockLater b.2 (g b)) -> later c c'.
Proof.
  intros He Hg. unfold later. rewrite He. apply Forall2_fmap_r, Forall2_same. intros b Hb.
  split; [done|]. by apply Hg.
Qed.

Lemma later_over g c :
  (forall x, isAddressInstr x -> x ∈ g x) -> (forall x y, y ∈ g x -> created y \/ evolves x y) -> later c (overBody g c).
Proof.
  intros Ha Hg. apply (later_map (fun b => b.2 ≫= g)); [done|]. intros [bb l] _. simpl. split.
  - intros x Hx Hl. apply list_elem_of_bind. exists x. split; [by apply Ha|done].
  - intros y (x & Hy & Hx)%list_elem_of_bind. destruct (Hg x y Hy); [by left|]. right. by exists x.
Qed.

(** Code put around instructions. *)
Lemma later_around (before after : Instr -> list Instr) c :
  (forall x, Forall created (before x)) -> (forall x, Forall created (after x)) ->
  later c (overBody (fun x => before x ++ x :: after x) c).
Proof.
  intros Hb Ha. apply later_over.
  - intros x _. apply elem_of_app. right. left.
  - intros x y [Hy|[->|Hy]%elem_of_cons]%elem_of_app.
    + left. by apply (Forall_elem_of _ _ _ (Hb x)).
    + destruct (origin x) as [v|] eqn:E; [right; by eapply evolves_refl|by left].
    + left. by apply (Forall_elem_of _ _ _ (Ha x)).
Qed.

Lemma later_insertBefore v l c : Forall created l -> later c (insertCodeBefore v l c).
Proof.
  intros Hl. unfold insertCodeBefore. rewrite (overBody_ext _ (fun x => (if isItem v x then l else []) ++ x :: [])) by (intros x; by case_match).
  apply later_around; intros x; [by case_match|done].
Qed.

Lemma later_insertAfter v l c : Forall created l -> later c (insertCodeAfter v l c).
Proof.
  intros Hl. unfold insertCodeAfter. rewrite (overBody_ext _ (fun x => [] ++ x :: (if isItem v x then l else []))) by (intros x; by case_match).
  apply later_around; intros x; [done|by case_match].
Qed.

Lemma later_erase v c : later c (eraseFromParent v c).
Proof.
  apply later_over.
  - intros x Hx%isAddressInstr_created. rewrite isItem_created by done. by left.
  - intros x y Hy. case_match; [by apply elem_of_nil in Hy|]. apply list_elem_of_singleton in Hy as ->.
    destruct (origin x) as [w|] eqn:E; [right; by eapply evolves_refl|by left].
Qed.

Lemma later_terminator bb l c : Forall created l -> later c (insertBeforeTerminator bb l c).
Proof.
  intros Hl. apply (later_map (fun b => if decide (b.1 = bb) then removelast b.2 ++ l ++ from_option (fun x => [x]) [] (last b.2) else b.2)).
  { simpl. apply list_fmap_ext. intros i [b' l'] _. simpl. by case_decide. }
  intros [b' l'] _. simpl. case_decide; [|apply blockLater_refl].
  assert (forall x, x ∈ l' <-> x ∈ removelast l' \/ x ∈ from_option (fun x => [x]) [] (last l')) as Hlast.
  { intros x. destruct l' as [|z l' _] using rev_ind; [simpl; set_solver|]. rewrite removelast_last, last_snoc. simpl. set_solver. }
  split.
  - intros x _ Hx%Hlast. set_solver.
  - intros y Hy. rewrite !elem_of_app in Hy.
    assert (y ∈ l' \/ y ∈ l) as [Hy'|Hy'] by (rewrite Hlast; tauto); [by apply (blockLater_refl l')|].
    left. by apply (Forall_elem_of _ _ _ Hl).
Qed.

Lemma later_fold {A} (g : Code -> A -> Code) l c :
  (forall c a, a ∈ l -> later c (g c a)) -> later c (fold_left g l c).
Proof.
  revert c. induction l as [|a l IH]; intros c Hg; [done|]. simpl. etrans; [apply Hg; left|]. apply IH.
  intros c' a' Ha'. apply Hg. by right.
Qed.
End Evolution.

(** ** Entries of a phi node *)
Lemma elem_of_phiBlocks A inc bb : bb ∈ phiBlocks A inc <-> (RVal A, bb) ∈ inc.
Proof.
  unfold phiBlocks. rewrite elem_of_remove_dups, list_elem_of_fmap. split.
  - intros ([r b] & -> & [Hr Hin]%list_elem_of_filter). simpl in *. by subst r.
  - intros Hin. exists (RVal A, bb). split; [done|]. by apply list_elem_of_filter.
Qed.

Lemma phiBlocks_value A inc r bb : consistent inc -> (r, bb) ∈ inc -> bb ∈ phiBlocks A inc -> r = RVal A.
Proof. intros Hc Hr Hb%elem_of_phiBlocks. by apply (Hc _ _ bb). Qed.

Lemma redirected_consistent A v (no : value -> nat) inc : consistent inc ->
  consistent ((fun p => if decide (p.2 ∈ phiBlocks A inc) then (useReg A v (no p.2), p.2) else p) <$> inc).
Proof.
  intros Hc r r' bb ([r1 b1] & E1 & H1)%list_elem_of_fmap ([r2 b2] & E2 & H2)%list_elem_of_fmap. simpl in E1, E2.
  assert (b1 = bb /\ b2 = bb) as [-> ->] by (split; case_decide; case_decide; congruence).
  destruct (decide (bb ∈ phiBlocks A inc)); simplify_eq; [done|]. by rewrite (Hc _ _ _ H1 H2).
Qed.

(** ** The operations of the pass *)
Section Pass.
Context `{SE : ScalarEvolution} {SL : StackLayout}.
Variable M : IRModule.
Variable DL : DataLayout.
Variable Q : InstInfo.
Variable K : FrameInfo.
Variable f : Found.
Abbreviation L := (computeLayout (frameObjects M DL Q K f)).
Abbreviation Base := (frameBase L).
Abbreviation off := (objectOffset M DL Q K f).

Section Steps.
Variable prot : Reg -> Prop.
Abbreviation later := (later Base off prot).
Hypothesis prot_guard : ~ prot GuardSlot.

Lemma later_replace o n c :
  ~ prot o -> addressReg o = false -> Base <> o -> later c (replaceAllUsesWith o n c).
Proof.
  intros Ho Hao Hb. apply (later_map _ _ _ (fun b => subst o n <$> b.2)); [done|]. intros [bb l] _. simpl.
  assert (forall r, prot r -> substReg o n r = r) as Hk by (intros r Hr; unfold substReg; rewrite decide_False; congruence).
  split.
  - intros x Hx Hl. apply list_elem_of_fmap. exists x. split; [|done]. symmetry.
    by apply (subst_address Base off (frameBase_address M DL Q K f)).
  - intros y (x & -> & Hx)%list_elem_of_fmap.
    destruct (origin x) as [v|] eqn:E; [right; exists x; split; [done|]|left; unfold created; by rewrite origin_subst].
    destruct x as [v' ops|v' inc| | | | | | | | | | | | | | |]; try done; eexists; (split; [done|]).
    + apply Forall2_fmap_r, Forall2_same. intros r _ Hr. by apply Hk.
    + intros Hc. split.
      * intros r r' b ([r1 b1] & [= -> ->] & H1)%list_elem_of_fmap ([r2 b2] & [= -> Eb] & H2)%list_elem_of_fmap.
        simpl in Eb. subst b2. by rewrite (Hc _ _ _ H1 H2).
      * apply Forall2_fmap_r, Forall2_same. intros [r b] _. split; [done|]. intros Hr. by apply Hk.
Qed.

Lemma later_replace_value v n c : ~ prot (RVal v) -> later c (replaceAllUsesWith (RVal v) n c).
Proof. intros Hv. apply later_replace; [done|done|apply frameBase_value]. Qed.

Lemma eraseMarker_later I c : later c (eraseMarker M I c).
Proof using Type. unfold eraseMarker. repeat case_match; try (by etrans; apply later_erase); apply later_erase. Qed.

Lemma protectStack_later c : later c (protectStack K f c).
Proof using Type.
  unfold protectStack. case_match; [|done]. etrans; [by apply (later_body _ _ _ _ (emit [GuardValue StackGuard; AllocaSlot GuardSlot; StoreGuard StackGuard GuardSlot] c))|].
  apply later_fold. intros c' RI _. apply later_insertBefore. by repeat constructor.
Qed.

Lemma moveGuard_later c : later c (moveGuard K L Base c).
Proof.
  unfold moveGuard. case_match; [|done]. etrans; [|by apply later_body].
  etrans; [|apply later_replace; [done|done|apply frameBase_guard]]. by apply later_body.
Qed.

Lemma moveByVal_later Arg c : ~ prot (RVal Arg) -> later c (moveByVal DL Q L Base Arg c).
Proof using Type.
  intros Ha. unfold moveByVal. etrans; [|by apply later_body]. etrans; [|by apply later_replace_value]. by apply later_body.
Qed.

Lemma rewriteUser_later o A c : ~ prot (RVal A) -> later c (overBody (rewriteUser Base o A) c).
Proof using Type.
  intros HA. apply later_over.
  - intros x Hx%isAddressInstr_created. destruct x; try done; by left.
  - intros x y Hy. destruct x as [v ops|v inc| | | | | | | | | | | | | | |]; simpl in Hy;
      try (apply list_elem_of_singleton in Hy as ->; first [by left|right; by eapply evolves_refl]).
    apply elem_of_app in Hy as [(n & Hy & _)%list_elem_of_bind| ->%list_elem_of_singleton].
    + left. revert y Hy. by apply Forall_forall; repeat constructor.
    + right. eexists. split; [done|]. clear -HA.
      assert (forall (g : nat -> Reg -> Reg), (forall n r, keepsReg prot r (g n r)) -> Forall2 (keepsReg prot) ops (imap g ops)) as Hg.
      { induction ops as [|r ops IH]; intros g Hg; [constructor|]. rewrite imap_cons. constructor; [apply Hg|].
        apply IH. intros n r'. apply Hg. }
      apply Hg. intros n r Hr. case_decide; [by subst|done].
Qed.

Lemma phiNode_later A c0 c : ~ prot (RVal A) -> later c (overBody (rewritePhiNode A c0) c).
Proof using Type.
  intros HA. apply later_over.
  - intros x Hx%isAddressInstr_created. destruct x; try done; by left.
  - intros x y Hy. destruct x as [v ops|v inc| | | | | | | | | | | | | | |]; simpl in Hy; apply list_elem_of_singleton in Hy as ->;
      try (first [by left|right; by eapply evolves_refl]).
    right. eexists. split; [done|]. intros Hc. split; [by apply (redirected_consistent A v (blockNo c0))|].
    apply Forall2_fmap_r, Forall2_same. intros [r bb] Hin. simpl. case_decide as Hb; [|by split].
    split; [done|]. intros Hr. exfalso. apply HA. by rewrite <- (phiBlocks_value A inc r bb).
Qed.

Lemma phiCode_later A l c :
  later c (fold_left (rewritePhi Base (getObjectOffset L (RVal A)) A) l c).
Proof using Type.
  apply later_fold. intros c' phi _. unfold rewritePhi. apply later_fold. intros c'' bb _.
  apply later_terminator. by repeat constructor.
Qed.

Lemma moveAlloca_later A c : ~ prot (RVal A) -> later c (moveAlloca L Base A c).
Proof using Type.
  intros HA. unfold moveAlloca. etrans; [by apply rewriteUser_later|]. etrans; [apply phiCode_later|].
  etrans; [by apply phiNode_later|apply later_erase].
Qed.

Lemma restorePoints_later top need c : later c (createStackRestorePoints f top need c).1.
Proof using Type.
  unfold createStackRestorePoints. case_match; [done|].
  destruct need; cbn [fst]; (etrans; [|apply later_fold; intros; apply later_insertAfter; by repeat constructor]); [by apply later_body|done].
Qed.

Lemma dynamic_later d c :
  (forall A, ~ prot (RVal A)) -> later c (moveDynamicAllocasToUnsafeStack M DL K f d c).
Proof using Type.
  intros HA. unfold moveDynamicAllocasToUnsafeStack.
  assert (later c (fold_left (moveDynamic M DL K d) (DynamicAllocas f) c)) as Hf.
  { apply later_fold. intros c' A _. unfold moveDynamic. etrans; [|by apply later_replace_value]. apply later_over.
    - intros x Hx%isAddressInstr_created. destruct x; try done; by left.
    - intros x y Hy. destruct x as [v ops|v inc| | | | | | | | | | | | | | |]; simpl in Hy;
        try (apply list_elem_of_singleton in Hy as ->; first [by left|right; by eapply evolves_refl]).
      case_decide; [left|apply list_elem_of_singleton in Hy as ->; right; by eapply evolves_refl].
      revert y Hy. apply Forall_forall. unfold dynamicCode. destruct d; by repeat constructor. }
  case_match; [done|]. etrans; [exact Hf|]. apply later_over.
  - intros x Hx%isAddressInstr_created. destruct x; try done; by left.
  - intros x y Hy. destruct x as [v ops|v inc| | | | | | | | | | | | | | |]; simpl in Hy; repeat case_match;
      apply list_elem_of_singleton in Hy as ->; first [by left|right; by eapply evolves_refl].
Qed.

Lemma returns_later rs c : later c (restoreBefore rs c).
Proof using Type. unfold restoreBefore. apply later_fold. intros. apply later_insertBefore. by repeat constructor. Qed.
End Steps.

(** ** Reading a later code *)
Definition holds (c : Code) (x : Instr) : Prop := exists b, b ∈ body c /\ x ∈ b.2.
Definition blockHas (bb : value) (x : Instr) (c : Code) : Prop := Forall (fun b => b.1 = bb -> x ∈ b.2) (body c).

Abbreviation later := (later Base off).

Lemma later_names prot c c' : later prot c c' -> (body c').*1 = (body c).*1.
Proof. unfold SafeStackMoves.later. induction 1 as [|b b' l l' [Hn _] _ IH]; [done|]. rewrite !fmap_cons. by rewrite Hn, IH. Qed.

Lemma later_holds prot c c' y v :
  later prot c c' -> holds c' y -> origin y = Some v -> exists x, holds c x /\ evolves prot x y.
Proof.
  intros Hl (b' & Hb' & Hy) Ho. apply list_elem_of_lookup in Hb' as [n Hn].
  destruct (Forall2_lookup_r _ _ _ _ _ Hl Hn) as (b & Hb & _ & _ & Hx).
  destruct (Hx y Hy) as [Hc|(x & Hin & He)]; [unfold created in Hc; congruence|].
  exists x. split; [|done]. exists b. split; [by eapply list_elem_of_lookup_2|done].
Qed.

Lemma later_has prot c c' bb x : later prot c c' -> isAddressInstr Base off x -> blockHas bb x c -> blockHas bb x c'.
Proof.
  intros Hl Hx Hc. apply Forall_lookup. intros n b' Hn Hb.
  destruct (Forall2_lookup_r _ _ _ _ _ Hl Hn) as (b & Hb0 & Hname & Hext & _). apply Hext; [done|].
  eapply (Forall_lookup_1 _ _ _ _ Hc); [exact Hb0|congruence].
Qed.

Lemma blockNo_names c c' bb : (body c').*1 = (body c).*1 -> blockNo c' bb = blockNo c bb.
Proof.
  unfold blockNo. generalize (body c) as l, (body c') as l'. intros l l' He.
  assert (forall l l' : list (value * list Instr), l'.*1 = l.*1 ->
    (fst <$> list_find (fun b => b.1 = bb) l') = (fst <$> list_find (fun b => b.1 = bb) l)) as H.
  { clear. induction l as [|[n l0] l IH]; intros [|[n' l0'] l']; try done. intros [= -> He]. simpl.
    case_decide; [done|]. specialize (IH l' He). destruct (list_find _ l') as [[]|], (list_find _ l) as [[]|]; simpl in *; by simplify_eq. }
  specialize (H l l' He). destruct (list_find _ l') as [[]|], (list_find _ l) as [[]|]; simpl in *; by simplify_eq.
Qed.

Lemma blockNo_spec c bb n : NoDup (body c).*1 -> (body c).*1 !! n = Some bb -> blockNo c bb = n.
Proof.
  intros Hnd Hn. rewrite list_lookup_fmap in Hn. destruct (body c !! n) as [b|] eqn:Hb; [|done]. injection Hn as <-.
  unfold blockNo. assert (list_find (fun b' => b'.1 = b.1) (body c) = Some (n, b)) as ->; [|done].
  apply list_find_Some. split_and!; [done..|]. intros m b' Hm Hlt He.
  assert (m = n) as ->; [|lia]. eapply (NoDup_lookup _ m n b.1 Hnd); rewrite list_lookup_fmap; [by rewrite Hm, <- He|by rewrite Hb].
Qed.

(** ** Moving one alloca *)
Section Moving.
Variable AI : value.

Definition none (r : Reg) : Prop := False.
Definition all (r : Reg) : Prop := True.

Lemma evolves_all_orig v ops y : evolves all (Orig v ops) y -> y = Orig v ops.
Proof.
  intros (ops' & -> & H). f_equal. symmetry. apply list_eq_Forall2. eapply Forall2_impl; [exact H|]. intros r r' Hr.
  symmetry. by apply Hr.
Qed.

Lemma evolves_all_phi v inc y : consistent inc -> evolves all (Phi v inc) y -> y = Phi v inc.
Proof.
  intros Hc (inc' & -> & H). destruct (H Hc) as [_ HF]. f_equal. symmetry. apply list_eq_Forall2.
  eapply Forall2_impl; [exact HF|]. intros [r bb] [r' bb'] [E1 E2]. simpl in *. subst bb'. f_equal. symmetry. by apply E2.
Qed.

Lemma holds_over g c y : holds (overBody g c) y <-> exists x, holds c x /\ y ∈ g x.
Proof.
  unfold holds. simpl. split.
  - intros (b & (b0 & -> & Hb)%list_elem_of_fmap & (x & Hy & Hx)%list_elem_of_bind). simpl in *. eauto.
  - intros (x & (b & Hb & Hx) & Hy). exists (b.1, b.2 ≫= g). split; [apply list_elem_of_fmap; eauto|].
    apply list_elem_of_bind. eauto.
Qed.

Definition redirect (v : value) (n : nat) (r : Reg) : Reg := if decide (r = RVal AI) then useReg AI v n else r.
Definition redirectEntry (v : value) (no : value -> nat) (inc : list (Reg * value)) (p : Reg * value) : Reg * value :=
  if decide (p.2 ∈ phiBlocks AI inc) then (useReg AI v (no p.2), p.2) else p.

Abbreviation c1 c0 := (moveAlloca L Base AI c0).

Lemma moved_orig c0 v ops1 :
  holds (c1 c0) (Orig v ops1) -> exists ops0, holds c0 (Orig v ops0) /\ ops1 = imap (redirect v) ops0.
Proof.
  intros H. unfold moveAlloca in H. apply (later_holds all _ _ _ v (later_erase _ _ _ _ _)) in H as (x & H & E); [|done].
  assert (x = Orig v ops1) as ->.
  { destruct x; try done; [by apply evolves_all_orig in E|by destruct E as (? & ? & _)]. }
  apply holds_over in H as (x & H & Hx). assert (x = Orig v ops1) as -> by (destruct x; by apply list_elem_of_singleton in Hx).
  apply (later_holds all _ _ _ v (phiCode_later _ _ _ _)) in H as (x & H & E'); [|done].
  assert (x = Orig v ops1) as ->.
  { destruct x; try done; [by apply evolves_all_orig in E'|by destruct E' as (? & ? & _)]. }
  apply holds_over in H as (x & H & Hy).
  destruct x as [w ops0|w inc| | | | | | | | | | | | | | |]; simpl in Hy; try (by apply list_elem_of_singleton in Hy).
  apply elem_of_app in Hy as [(n & Hy & _)%list_elem_of_bind|Hy%list_elem_of_singleton].
  - repeat (apply elem_of_cons in Hy as [Hy|Hy]; [done|]). by apply elem_of_nil in Hy.
  - injection Hy as <- ->. by exists ops0.
Qed.

(** The address in the incoming block of an entry. *)
Lemma terminator_has bb n v c : blockHas bb (useInstr AI v n) (insertBeforeTerminator bb (useCode Base (off AI) AI v n) c).
Proof.
  apply Forall_forall. intros b (b0 & -> & Hb)%list_elem_of_fmap. case_decide; [|done]. intros _. simpl. set_solver.
Qed.

Lemma moved_phi_code cU v incU bb :
  holds cU (Phi v incU) -> bb ∈ phiBlocks AI incU ->
  blockHas bb (useInstr AI v (blockNo cU bb)) (eraseFromParent AI (overBody (rewritePhiNode AI cU)
    (fold_left (rewritePhi Base (getObjectOffset L (RVal AI)) AI) (phisOf cU) cU))).
Proof.
  intros (b & Hb & Hv) Hbb.
  assert ((v, incU) ∈ phisOf cU) as (l1 & l2 & Hl)%list_elem_of_split.
  { apply list_elem_of_omap. exists (Phi v incU). split; [|done]. apply list_elem_of_bind. by exists b. }
  assert (isAddressInstr Base off (useInstr AI v (blockNo cU bb))) as Ha by (exists AI, v, (blockNo cU bb); by right).
  eapply (later_has none); [apply later_erase|done|]. eapply (later_has none); [apply phiNode_later; by intros ?|done|].
  rewrite Hl, fold_left_app. simpl. set (ca := fold_left _ l1 cU).
  eapply (later_has none); [apply phiCode_later|done|]. unfold rewritePhi. simpl.
  apply list_elem_of_split in Hbb as (k1 & k2 & ->). rewrite fold_left_app. simpl. set (cb := fold_left _ k1 ca).
  assert (blockNo cb bb = blockNo cU bb) as ->.
  { apply blockNo_names. etrans; [|apply (later_names none cU ca), phiCode_later].
    apply (later_names none). apply later_fold. intros. apply later_terminator. by repeat constructor. }
  eapply (later_has none); [|done|apply terminator_has]. apply later_fold. intros. apply later_terminator. by repeat constructor.
Qed.

Lemma moved_phi c0 v inc1 :
  holds (c1 c0) (Phi v inc1) -> exists inc0, holds c0 (Phi v inc0) /\
    (consistent inc0 -> inc1 = redirectEntry v (blockNo c0) inc0 <$> inc0 /\
      forall bb, bb ∈ phiBlocks AI inc0 -> blockHas bb (useInstr AI v (blockNo c0 bb)) (c1 c0)).
Proof.
  intros H. set (cU := overBody (rewriteUser Base (getObjectOffset L (RVal AI)) AI) c0).
  assert ((body cU).*1 = (body c0).*1) as HnU by (apply (later_names none), rewriteUser_later; by intros ?).
  assert (holds (c1 c0) (Phi v inc1)) as H1 by exact H.
  unfold moveAlloca in H. fold cU in H.
  apply (later_holds all _ _ _ v (later_erase _ _ _ _ _)) in H as (x & H & E1); [|done].
  assert (exists incP, x = Phi v incP) as [incP ->] by (destruct x; try done; destruct E1 as (? & [=-> ->] & _); eauto).
  apply holds_over in H as (x & H & Hx).
  assert (exists incF, x = Phi v incF /\ incP = redirectEntry v (blockNo cU) incF <$> incF) as (incF & -> & ->).
  { destruct x; simpl in Hx; apply list_elem_of_singleton in Hx; simplify_eq. by eexists. }
  apply (later_holds all _ _ _ v (phiCode_later _ _ _ _)) in H as (x & H & E2); [|done].
  assert (exists incU, x = Phi v incU) as [incU ->] by (destruct x; try done; destruct E2 as (? & [=-> ->] & _); eauto).
  assert (holds cU (Phi v incU)) as HU by exact H.
  apply holds_over in H as (x & H & Hy).
  assert (x = Phi v incU) as ->.
  { destruct x as [w ops|w inc| | | | | | | | | | | | | | |]; simpl in Hy; try (by apply list_elem_of_singleton in Hy as [= -> ->]).
    apply elem_of_app in Hy as [(n & Hy & _)%list_elem_of_bind|Hy%list_elem_of_singleton]; [|done].
    repeat (apply elem_of_cons in Hy as [Hy|Hy]; [done|]). by apply elem_of_nil in Hy. }
  exists incU. split; [done|]. intros Hc.
  apply (evolves_all_phi v incU _ Hc) in E2 as [= ->].
  assert (consistent (redirectEntry v (blockNo cU) incU <$> incU)) as HcP by (by apply redirected_consistent).
  apply evolves_all_phi in E1 as [= ->]; [|done]. split.
  - apply list_fmap_ext. intros i p _. unfold redirectEntry. by rewrite (blockNo_names c0 cU).
  - intros bb Hbb. rewrite <- (blockNo_names c0 cU) by done. by apply (moved_phi_code cU v incU).
Qed.
End Moving.

(** ** The whole rewriting *)
Section Transform.
Variable AI : value.
Hypothesis AI_static : AI ∈ StaticAllocas f.
Hypothesis static_NoDup : NoDup (StaticAllocas f).
Hypothesis AI_byval : AI ∉ ByValArguments f.

Definition isAI (r : Reg) : Prop := r = RVal AI.
Definition isUse (r : Reg) : Prop := exists u n, r = useReg AI u n.

(** The operand is the alloca until it is moved, and the address register from then on. *)
Lemma static_moves c :
  exists c0, later isAI c c0 /\
    later isUse (moveAlloca L Base AI c0) (moveStaticAllocasToUnsafeStack M DL Q K f c).1.
Proof using AI_static static_NoDup AI_byval.
  unfold moveStaticAllocasToUnsafeStack.
  destruct (bool_decide (StaticAllocas f = [])) eqn:Hn.
  { apply bool_decide_eq_true in Hn. rewrite Hn in AI_static. by apply elem_of_nil in AI_static. }
  cbn [andb]. set (cm := fold_left _ _ c).
  assert (later isAI c cm) as H0 by (apply later_fold; intros; apply eraseMarker_later).
  assert (exists cr, realign K L cm = (cr, Base) /\ body cr = body cm) as (cr & -> & Hr).
  { unfold realign, frameBase. case_match; eexists; (split; [done|]); [|done]. unfold emit. cbn [body]. apply body_setInsertAfter. }
  cbn [fst]. set (cg := moveGuard K L Base (setInsertAfter Base cr)).
  assert (later isAI cm cg) as H1.
  { etrans; [|by apply moveGuard_later]. apply later_body. by rewrite body_setInsertAfter. }
  set (cb := fold_left _ (ByValArguments f) cg).
  assert (later isAI cg cb) as H2 by (apply later_fold; intros c' Arg HA; apply moveByVal_later; intros [= ->]; done).
  destruct (list_elem_of_split _ _ AI_static) as (l1 & l2 & Hl). rewrite Hl in *. rewrite fold_left_app. simpl.
  apply NoDup_app in static_NoDup as (_ & Hn1 & _).
  exists (fold_left (fun c A => moveAlloca L Base A c) l1 cb). split.
  - etrans; [exact H0|]. etrans; [exact H1|]. etrans; [exact H2|]. apply later_fold. intros c' A HA. apply moveAlloca_later.
    intros [= ->]. apply (Hn1 AI HA). left.
  - set (ca := fold_left _ l2 _).
    etrans; [|apply (later_body _ _ _ ca); unfold emit; cbn [body]; by rewrite body_setInsertAfter].
    apply later_fold. intros c' A _. apply moveAlloca_later. by intros (u & n & [=]).
Qed.

Lemma transform_moves c :
  exists c0, later isAI c c0 /\ later isUse (moveAlloca L Base AI c0) (transform M DL Q K f c).
Proof using AI_static static_NoDup AI_byval.
  unfold transform. fold front0. set (cp := protectStack K f (emit front0 c)).
  assert (later isAI c cp) as H0 by (etrans; [by apply (later_body _ _ _ _ (emit front0 c))|apply protectStack_later]).
  destruct (static_moves cp) as (c0 & Ha & Hu). exists c0. split; [by etrans|].
  destruct (moveStaticAllocasToUnsafeStack _ _ _ _ _ _) as [c1 top]. cbn [fst] in Hu. etrans; [exact Hu|].
  pose proof (restorePoints_later isUse top (negb (bool_decide (DynamicAllocas f = []))) c1) as Hd.
  destruct (createStackRestorePoints _ _ _ _) as [c2 d]. etrans; [exact Hd|]. etrans; [|apply returns_later].
  apply dynamic_later. by intros A (u & n & [=]).
Qed.

Lemma start_holds F x : holds (Build_Code [] [] (bodyOf M K F)) x -> exists i, x = instrOf M K i.
Proof using Type.
  intros (b & Hb & Hx). unfold bodyOf in Hb. simpl in Hb. apply list_elem_of_fmap in Hb as (bb & -> & _). simpl in Hx.
  apply list_elem_of_fmap in Hx as (i & -> & _). by exists i.
Qed.

Lemma Forall2_kept (prot : Reg -> Prop) l l' k r : Forall2 (keepsReg prot) l l' -> l !! k = Some r -> prot r -> l' !! k = Some r.
Proof using Type.
  intros Hl Hk Hr. destruct (Forall2_lookup_l _ _ _ _ _ Hl Hk) as (r' & Hk' & He). by rewrite (He Hr) in Hk'.
Qed.

Lemma Forall2_keptEntry (prot : Reg -> Prop) l l' k r bb :
  Forall2 (keepsEntry prot) l l' -> l !! k = Some (r, bb) -> prot r -> l' !! k = Some (r, bb).
Proof using Type.
  intros Hl Hk Hr. destruct (Forall2_lookup_l _ _ _ _ _ Hl Hk) as ([r' bb'] & Hk' & E1 & E2). simpl in *.
  by rewrite E1, (E2 Hr) in Hk'.
Qed.

(** What becomes of an operand. *)
Lemma moved_operand F v ops k :
  holds (transform M DL Q K f (Build_Code [] [] (bodyOf M K F))) (Orig v ops) -> operands M v !! k = Some AI ->
  ops !! k = Some (useReg AI v k).
Proof using AI_static static_NoDup AI_byval.
  intros H Hk. destruct (transform_moves (Build_Code [] [] (bodyOf M K F))) as (c0 & Ha & Hu).
  apply (later_holds _ _ _ _ v Hu) in H as (x & H & E); [|done].
  destruct x as [w ops1|w inc1| | | | | | | | | | | | | | |]; try done; destruct E as (? & [= <- <-] & E2).
  apply moved_orig in H as (ops0 & H & ->).
  apply (later_holds _ _ _ _ v Ha) in H as (x & H & E); [|done].
  destruct x as [w opss|w incs| | | | | | | | | | | | | | |]; try done; destruct E as (? & [= <- <-] & E0).
  apply start_holds in H as [i Hi].
  assert (opss = RVal <$> operands M v) as -> by (unfold instrOf in Hi; repeat case_match; by simplify_eq).
  eapply Forall2_kept; [exact E2| |by exists v, k]. rewrite list_lookup_imap.
  rewrite (Forall2_kept _ _ _ k (RVal AI) E0); [|by rewrite list_lookup_fmap, Hk|done]. simpl. unfold redirect. by rewrite decide_True.
Qed.

(** What becomes of an entry of a phi node, and of the block it is for. *)
Lemma moved_entry F v inc vals k bb :
  holds (transform M DL Q K f (Build_Code [] [] (bodyOf M K F))) (Phi v inc) ->
  consistent (zip (RVal <$> vals) (incomingBlocks K v)) ->
  kindOf M v = KInst (IPhi vals) -> vals !! k = Some AI -> incomingBlocks K v !! k = Some bb ->
  let n := blockNo (Build_Code [] [] (bodyOf M K F)) bb in
  inc !! k = Some (useReg AI v n, bb) /\
  blockHas bb (useInstr AI v n) (transform M DL Q K f (Build_Code [] [] (bodyOf M K F))).
Proof using AI_static static_NoDup AI_byval.
  intros H Hcons Hkind Hval Hbb n. destruct (transform_moves (Build_Code [] [] (bodyOf M K F))) as (c0 & Ha & Hu).
  apply (later_holds _ _ _ _ v Hu) in H as (x & H & E); [|done].
  destruct x as [w ops1|w inc1| | | | | | | | | | | | | | |]; try done; destruct E as (? & [= <- <-] & E2).
  apply moved_phi in H as (inc0 & H & Hm).
  apply (later_holds _ _ _ _ v Ha) in H as (x & H & E); [|done].
  destruct x as [w opss|w incs| | | | | | | | | | | | | | |]; try done; destruct E as (? & [= <- <-] & E0).
  apply start_holds in H as [i Hi].
  assert (incs = zip (RVal <$> vals) (incomingBlocks K v)) as ->.
  { unfold instrOf in Hi. destruct (kindOf M i) as [| | | | | | | | |[]|] eqn:Ei; simplify_eq; by rewrite Hkind in Ei; simplify_eq. }
  destruct (E0 Hcons) as [Hc0 F0].
  assert (inc0 !! k = Some (RVal AI, bb)) as Hk0.
  { eapply Forall2_keptEntry; [exact F0| |done]. rewrite lookup_zip_with, list_lookup_fmap, Hval. simpl. by rewrite Hbb. }
  assert (bb ∈ phiBlocks AI inc0) as Hb0 by (apply elem_of_phiBlocks; by eapply list_elem_of_lookup_2).
  destruct (Hm Hc0) as [-> Hcode].
  assert (blockNo c0 bb = n) as Hn by (apply blockNo_names; by apply (later_names isAI)).
  specialize (Hcode bb Hb0). rewrite Hn in Hcode. split.
  - destruct E2 as [_ F2]; [by apply redirected_consistent|]. eapply Forall2_keptEntry; [exact F2| |by exists v, n].
    rewrite list_lookup_fmap, Hk0. simpl. unfold redirectEntry. simpl. rewrite decide_True by done. by rewrite Hn.
  - eapply later_has; [exact Hu| |exact Hcode]. exists AI, v, n. by right.
Qed.
End Transform.
End Pass.

(** ** Running the rewritten code *)
Section Run.
Context `{SE : ScalarEvolution} {SL : StackLayout}.
Variable M : IRModule.
Variable DL : DataLayout.
Variable Q : InstInfo.
Variable K : FrameInfo.
Variable f : Found.
Abbreviation L := (computeLayout (frameObjects M DL Q K f)).
Abbreviation Base := (frameBase L).
Abbreviation off := (objectOffset M DL Q K f).
Abbreviation entryCode c := (pre c ++ post c)%list.

(** From the state [s0] the function runs the blocks of [path], then block [n], goes on to
    block [m] and comes to its instruction [x] in the state [s], without an earlier
    return. *)
Definition arrives (c : Code) (path : list nat) (n m : nat) (s0 : State) (x : Instr) (v : value) (s : State) : Prop :=
  exists a q, from_option snd [] (body c !! m) = a ++ x :: q /\ origin x = Some v /\
    steps (ptrBits K) (StackRestorePoints f) s0 (entryCode c ++ visitedCode c (path ++ [n]) ++ a)%list s /\
    (forall y w, y ∈ (visitedCode c (path ++ [n]) ++ a)%list -> origin y = Some w -> w ∉ Returns f).

Lemma wired_visited c path : wiredBody Base off c -> wired Base off [] (visitedCode c path).
Proof.
  intros Hw. unfold visitedCode. induction path as [|n path IH]; [done|]. rewrite bind_cons. apply wired_app. split.
  - destruct (body c !! n) as [b|] eqn:Hn; [|done]. by eapply (Forall_lookup_1 _ _ _ _ Hw) in Hn.
  - eapply wired_extends; [|exact IH]. intros y _ Hy. by apply elem_of_nil in Hy.
Qed.

(** Behind the code of an address its register holds the address, on every path. *)
Lemma ran_address c path s0 p q s AI u n :
  shape (frameFront K L) (keepsBase) (addressBody M DL Q K f) c -> wiredBody Base off c ->
  visitedCode c path = (p ++ q)%list -> steps (ptrBits K) (StackRestorePoints f) s0 (entryCode c ++ p)%list s ->
  useInstr AI u n ∈ p -> regs s (useReg AI u n) = objectAddress K L (sp s0) (RVal AI).
Proof.
  intros Hc Hw Hp Hs Hu. apply steps_app in Hs as (s1 & Hs1 & Hs2). apply (entry_base M DL Q K f c s0 s1 Hc) in Hs1.
  pose proof (wired_visited c path Hw) as Hv. rewrite Hp in Hv. apply wired_app in Hv as [Hv _].
  assert (Forall (addressBody M DL Q K f) p) as Hb.
  { destruct Hc as (_ & _ & Hb). apply (visited_Forall _ _ path) in Hb. rewrite Hp in Hb. by apply Forall_app in Hb as [? _]. }
  assert (inPlace (ptrBits K) Base off (frameBaseOf K L (sp s0)) [] s1) as Ha0.
  { split; [done|]. intros ? ? ?. split; intros Hn; by apply elem_of_nil in Hn. }
  destruct (inPlace_steps (ptrBits K) (StackRestorePoints f) _ _ _ [] s1 p s Ha0) as [_ Hfin]; [|done|done|].
  - eapply Forall_impl; [exact Hb|]. intros y [Hl Ha]. split; [|done]. unfold frameBase. destruct (_ <? _); apply Hl.
  - destruct (Hfin AI u n) as [_ ->]; [done|]. done.
Qed.
End Run.

(** ** Properties *)

(** A phi node has one value per incoming block. *)
Definition phis_consistent (M : IRModule) (K : FrameInfo) : Prop :=
  forall v vals, kindOf M v = KInst (IPhi vals) -> consistent (zip (RVal <$> vals) (incomingBlocks K v)).

Lemma holds_visited c path p x q : visitedCode c path = (p ++ x :: q)%list -> holds c x.
Proof.
  intros Hp. assert (x ∈ visitedCode c path) as Hx by (rewrite Hp; set_solver).
  unfold visitedCode in Hx. apply list_elem_of_bind in Hx as (n & Hx & _).
  destruct (body c !! n) as [b|] eqn:Hb; [|by apply elem_of_nil in Hx]. exists b. split; [by eapply list_elem_of_lookup_2|done].
Qed.

Lemma start_names M K F : (body (Build_Code [] [] (bodyOf M K F))).*1 = blocks M F.
Proof. unfold bodyOf. simpl. rewrite <- list_fmap_compose. apply list_fmap_id. Qed.

(** C4: with -dg-safe, the uses of a tagged static alloca are redirected to the unsafe
    stack, on every path of the rewritten function.  Where the function comes to an
    instruction other than a phi node that had the alloca as an operand, the operand is a
    created register; where it comes from a block [bb] to a phi node that had the alloca as
    the value for [bb], the entry for [bb] is one; and the register holds the address that
    the layout gives the object, counted down from the function's entry pointer (realigned
    when the frame asks for it) in the 32-bit arithmetic of the code.  With a layout that
    keeps its contract, an aligned entry pointer, a frame of at most 2 GiB and room for it,
    that address lies below the entry pointer, by at least the object's size. *)
Theorem tagged_alloca_relocated `{SE : ScalarEvolution} {SL : StackLayout} M DL Q K t fuel F f b c AI :
  let objs := frameObjects M DL Q K f in
  let L := computeLayout objs in
  let address := fun s0 => objectAddress K L (sp s0) (RVal AI) in
  NoDup (instructions M F) -> NoDup (blocks M F) -> phis_consistent M K ->
  AI ∈ instructions M F -> isAllocaInst M AI = true -> isStaticAlloca Q AI = true -> AI ∈ unsafeTag t ->
  findInsts M DL Q true t fuel F = Some f -> run M DL Q K true t fuel F = Some (b, c) ->
  b = true /\
  (forall path s0 v ops k s, reaches (ptrBits K) (StackRestorePoints f) f c path s0 (Orig v ops) v s ->
     operands M v !! k = Some AI -> exists r, ops !! k = Some r /\ regs s r = address s0) /\
  (forall path n m s0 v inc vals k bb s, arrives K f c path n m s0 (Phi v inc) v s ->
     kindOf M v = KInst (IPhi vals) -> vals !! k = Some AI -> incomingBlocks K v !! k = Some bb ->
     blocks M F !! n = Some bb -> exists r, inc !! k = Some (r, bb) /\ regs s r = address s0) /\
  (forall s0, LayoutOK objs L -> 0 <= sp s0 < 2 ^ ptrBits K -> (16 | sp s0) ->
     alignTo (getFrameSize L) 16 <= 2 ^ 31 -> alignTo (getFrameSize L) 16 + getFrameAlignment L <= sp s0 ->
     address s0 + o_size (allocaObject M DL K AI) <= sp s0).
Proof.
  intros objs L address Hnd Hbb Hphi Hin HA Hst Ht Hf Hr. unfold run in Hr. rewrite Hf in Hr. simpl in Hr.
  rewrite findInsts_tagged in Hf. injection Hf as Hf.
  assert (AI ∈ StaticAllocas f) as Hs.
  { subst f. apply list_elem_of_filter. split; [|done]. unfold movedStatic. rewrite HA, Hst. by rewrite bool_decide_eq_true_2. }
  assert (NoDup (StaticAllocas f)) as Hnds by (subst f; by apply NoDup_filter).
  assert (AI ∉ ByValArguments f) as Hbv by (subst f; apply not_elem_of_nil).
  assert (bool_decide (StaticAllocas f = []) = false) as Hne.
  { apply bool_decide_eq_false_2. intros Hn. rewrite Hn in Hs. by apply elem_of_nil in Hs. }
  unfold nothingToDo in Hr. rewrite Hne in Hr. injection Hr as <- <-. split; [done|].
  pose proof (transform_shape M DL Q K f _ Hne (bodyOf_items M K F)) as Hc.
  pose proof (transform_wired M DL Q K f _ (bodyOf_plain M K F)) as Hw. split_and!.
  - intros path s0 v ops k s (p & q & Hp & _ & Hsteps & _) Hk.
    apply (trace_item _ _ _ _ _ v) in Hp as (p' & -> & Hl); [|apply Forall_forall; intros y; by eapply entry_created|done].
    pose proof (moved_operand M DL Q K f AI Hs Hnds Hbv F v ops k (holds_visited _ _ _ _ _ Hl) Hk) as Hops.
    exists (useReg AI v k). split; [exact Hops|].
    apply (ran_address M DL Q K f _ path s0 p' (Orig v ops :: q) s AI v k Hc Hw Hl Hsteps).
    pose proof (wired_visited M DL Q K f _ path Hw) as Hv. rewrite Hl in Hv. apply wired_app in Hv as [_ [Hx _]].
    destruct (Hx AI v k) as [_ Huse]. apply Huse. simpl. by eapply list_elem_of_lookup_2.
  - intros path n m s0 v inc vals k bb s (a & q & Hm & _ & Hsteps & _) Hkind Hval Hinc Hn.
    assert (visitedCode (transform M DL Q K f (Build_Code [] [] (bodyOf M K F))) (path ++ [n; m]) =
      (visitedCode (transform M DL Q K f (Build_Code [] [] (bodyOf M K F))) (path ++ [n]) ++ a) ++ Phi v inc :: q)%list as Hl.
    { unfold visitedCode. rewrite (cons_middle n path [m]), (assoc_L (++)), (bind_app _ (path ++ [n])), bind_single, Hm.
      by rewrite (assoc_L (++)). }
    destruct (moved_entry M DL Q K f AI Hs Hnds Hbv F v inc vals k bb (holds_visited _ _ _ _ _ Hl) (Hphi v vals Hkind) Hkind Hval Hinc)
      as [Hentry Hhas].
    rewrite (blockNo_spec _ bb n) in Hentry, Hhas by (by rewrite start_names). eexists. split; [exact Hentry|].
    apply (ran_address M DL Q K f _ (path ++ [n; m]) s0 _ _ s AI v n Hc Hw Hl Hsteps).
    apply elem_of_app. left. unfold visitedCode. rewrite bind_app, bind_single. apply elem_of_app. right.
    assert ((body (transform M DL Q K f (Build_Code [] [] (bodyOf M K F)))).*1 !! n = Some bb) as Hname.
    { destruct (transform_moves M DL Q K f AI Hs Hnds Hbv (Build_Code [] [] (bodyOf M K F))) as (c0 & Ha & Hu).
      rewrite (later_names _ _ _ _ _ _ _ _ Hu).
      rewrite (later_names M DL Q K f (none) c0 _ (moveAlloca_later M DL Q K f _ AI c0 (fun x => x))).
      by rewrite (later_names _ _ _ _ _ _ _ _ Ha), start_names. }
    rewrite list_lookup_fmap in Hname. destruct (body (transform _ _ _ _ _ _) !! n) as [bl|] eqn:Hbl; [|done].
    simpl in Hname. injection Hname as Hname. simpl. by apply (Forall_lookup_1 _ _ _ _ Hhas Hbl).
  - intros s0 HL Hz Hz16 Hsize Hroom.
    assert (allocaObject M DL K AI ∈ objs) as Ho.
    { unfold objs, frameObjects. rewrite !elem_of_app. right. right. by apply list_elem_of_fmap_2. }
    by destruct (objectAddress_spec K objs L HL (sp s0) Hz Hz16 Hsize Hroom _ Ho) as (_ & _ & ? & _).
Qed.

(** [int a[4]; int *p = &a[1]; goto end; end: q = phi(a); return;] with the array tagged. *)
Definition joinModule : IRModule := {|
  m_kind := fun p => match p with
    | 1%positive => KInst (IAlloca (TArray 4 (TInt 32)) (VConstInt (APInt 32 1)))
    | 2%positive => KInst (IGEP (TArray 4 (TInt 32)) (TInt 32) (VRef 1) [VConstInt (APInt 64 0); VConstInt (APInt 64 1)])
    | 3%positive => KInst (IBr None [VRef 22])
    | 4%positive => KInst (IPhi [VRef 1])
    | 5%positive => KInst (IRet None)
    | 20%positive => KFunction
    | 21%positive | 22%positive => KBasicBlock
    | _ => KOther end;
  m_type := m_type demoModule; getName := fun _ => String.EmptyString; users := fun _ => [];
  functions := [VRef 20]; globals := [];
  blocks := fun v => if decide (v = VRef 20) then [VRef 21; VRef 22] else [];
  insts := fun v => if decide (v = VRef 21) then [VRef 1; VRef 2; VRef 3]
                    else if decide (v = VRef 22) then [VRef 4; VRef 5] else [];
  fargs := fun _ => []; getParent := fun v => if decide (v ∈ [VRef 4; VRef 5]) then VRef 22 else VRef 21;
  getBBParent := fun _ => VRef 20; isDeclaration := fun _ => false; getCalledFunction := fun _ => None;
  predecessors := fun v => if decide (v = VRef 22) then [VRef 21] else [];
  stripPointerCasts := fun v => v; getFunctionNamed := fun _ => None |}.

Definition joinFrame : FrameInfo := {|
  incomingBlocks := fun v => if decide (v = VRef 4) then [VRef 21] else []; getPrefTypeAlign := getPrefTypeAlign demoFrame;
  getAlign := getAlign demoFrame; getParamAlign := getParamAlign demoFrame; isStackSave := fun _ => false;
  isStackRestore := fun _ => false; getMarkers := fun _ => []; hasStackProtector := false; ptrBits := 64 |}.

Definition joinFound : Found := Build_Found [VRef 1] [] [] [VRef 5] [].
Definition joinRun : option (bool * Code) :=
  @run demoSE sequentialLayout joinModule demoDL demoInfo joinFrame true (TG {[VRef 1]} ∅) 0 (VRef 20).
Definition joinRewritten : Code := from_option snd (Build_Code [] [] []) joinRun.
Definition joinNext : State -> Instr -> State := next 64 [] (fun _ => (0, 0)).

(** The state in which the run comes to the phi node, through both blocks. *)
Definition joinState (z : Z) : State :=
  fold_left joinNext (pre joinRewritten ++ post joinRewritten ++ visitedCode joinRewritten [0%nat])%list (demoStart z).

Lemma join_consistent : phis_consistent joinModule joinFrame.
Proof.
  intros [c|p] vals Hk; [done|]. simpl in Hk. repeat case_match; simplify_eq.
  intros r r' bb Hr Hr'. apply list_elem_of_singleton in Hr, Hr'. congruence.
Qed.

Lemma join_arrives z :
  arrives joinFrame joinFound joinRewritten [] 0 1 (demoStart z) (Phi (VRef 4) [(useReg (VRef 1) (VRef 4) 0, VRef 21)]) (VRef 4) (joinState z).
Proof.
  exists [], [StoreSP BasePointer; Orig (VRef 5) []]. split; [vm_compute; reflexivity|]. split; [done|]. split.
  - unfold joinState. rewrite <- (app_nil_r (visitedCode joinRewritten [0%nat])), (app_assoc (pre joinRewritten)). apply (steps_next 64 [] (fun _ => (0, 0))).
  - rewrite app_nil_r. intros y w Hy Hw Hin%list_elem_of_singleton. subst w.
    assert (forallb (fun y => negb (bool_decide (origin y = Some (VRef 5)))) (visitedCode joinRewritten [0%nat]) = true) as Hb
      by (vm_compute; reflexivity).
    rewrite forallb_forall in Hb. specialize (Hb y (proj1 (list_elem_of_In _ _) Hy)). rewrite Hw in Hb.
    by rewrite bool_decide_eq_true_2 in Hb.
Qed.

(** The phi node reads the array's address, 32 bytes below the realigned entry pointer. *)
Lemma tagged_alloca_relocated_witness :
  exists r, [(useReg (VRef 1) (VRef 4) 0, VRef 21)] !! 0%nat = Some (r, VRef 21) /\ regs (joinState 4112) r = 4064.
Proof.
  destruct (@tagged_alloca_relocated demoSE sequentialLayout joinModule demoDL demoInfo joinFrame (TG {[VRef 1]} ∅) 0 (VRef 20)
    joinFound true joinRewritten (VRef 1)) as (_ & _ & Hphi & _).
  - apply (bool_decide_eq_true_1 _). vm_compute. reflexivity.
  - apply (bool_decide_eq_true_1 _). vm_compute. reflexivity.
  - exact join_consistent.
  - apply list_elem_of_In. vm_compute. tauto.
  - reflexivity.
  - reflexivity.
  - simpl. set_solver.
  - vm_compute. reflexivity.
  - vm_compute. reflexivity.
  - destruct (Hphi [] 0%nat 1%nat (demoStart 4112) (VRef 4) [(useReg (VRef 1) (VRef 4) 0, VRef 21)] [VRef 1] 0%nat (VRef 21)
      (joinState 4112) (join_arrives 4112) eq_refl eq_refl eq_refl eq_refl) as (r & Hr & Ha).
    exists r. split; [exact Hr|]. rewrite Ha. vm_compute. reflexivity.
Defined.
