(* ===== verification/Machine.v ===== *)
(** * Machine instructions

    The part of LLVM's machine IR the load-hardening pass works on: registers and
    operands, instructions with the properties the pass queries, and the block under
    construction, a store of instructions by address with the block as the list of its
    addresses, so that a rewritten operand is seen by every holder of the pointer.
    [BuildMI] inserts before an instruction, or at the end of the block. *)
From stdpp Require Import base countable gmap sets list option strings.
From Stdlib Require Import ZArith Lia.
From S2P Require Import Prelude.

Inductive reg := NoRegister | RIP | RSP | RBP | EFLAGS | Phys (n : positive) | Virt (n : positive).

#[export] Instance reg_eq_dec : EqDecision reg.
Proof. solve_decision. Defined.

#[export] Instance reg_countable : Countable reg.
Proof.
  apply (inj_countable'
    (fun r => match r with
      | NoRegister => inl 1%positive | RIP => inl 2%positive | RSP => inl 3%positive | RBP => inl 4%positive
      | EFLAGS => inl 5%positive | Phys n => inr (inl n) | Virt n => inr (inr n) end)
    (fun s => match s with
      | inl 1%positive => NoRegister | inl 2%positive => RIP | inl 3%positive => RSP | inl 4%positive => RBP
      | inl _ => EFLAGS | inr (inl n) => Phys n | inr (inr n) => Virt n end)).
  by intros [].
Defined.

Definition isVirtual (r : reg) : bool := match r with Virt _ => true | _ => false end.

(** The register classes the pass names. *)
Inductive RegClass :=
| GR8 | GR16 | GR32 | GR64 | GR8_NOREX | GR16_NOREX | GR32_NOREX | GR64_NOREX | GR64_NOSP
| VR128 | VR256 | VR128X | VR256X | VR512 | OtherRC (n : positive).

#[export] Instance RegClass_eq_dec : EqDecision RegClass.
Proof. solve_decision. Defined.

(** The generated tables of the target, and its features. *)
Record TargetInfo := {
  getRegSizeInBits : RegClass -> Z;
  hasSuperClassEq : RegClass -> RegClass -> bool;
  hasVLX : bool;
  hasBMI2 : bool;
  has128ByteRedZone : bool;
  exposesReturnsTwice : bool;
  smallNonPIC : bool;              (* small code model, not position independent *)
}.

Inductive operand_kind := OReg (r : reg) | OFrameIndex (fi : Z) | OImm (z : Z) | OSym (s : string) | OMBB (b : positive).

Record MOperand := MO {
  mo_kind : operand_kind;
  isDef : bool;
  isImplicit : bool;
  isDead : bool;
  isKill : bool;
}.

Definition isReg (o : MOperand) : bool := match mo_kind o with OReg _ => true | _ => false end.
Definition isFI (o : MOperand) : bool := match mo_kind o with OFrameIndex _ => true | _ => false end.
Definition getReg (o : MOperand) : reg := match mo_kind o with OReg r => r | _ => NoRegister end.
Definition setReg (r : reg) (o : MOperand) : MOperand :=
  MO (OReg r) (isDef o) (isImplicit o) (isDead o) (isKill o).

Definition use (r : reg) : MOperand := MO (OReg r) false false false false.
Definition useKill (r : reg) : MOperand := MO (OReg r) false false false true.
Definition def (r : reg) : MOperand := MO (OReg r) true false false false.
Definition imm (z : Z) : MOperand := MO (OImm z) false false false false.
Definition sym (s : string) : MOperand := MO (OSym s) false false false false.
Definition mbb (b : positive) : MOperand := MO (OMBB b) false false false false.
(** The implicit definition of the flags, marked dead by [addRegisterDead], and live. *)
Definition deadFlags : MOperand := MO (OReg EFLAGS) true true true false.
Definition liveFlags : MOperand := MO (OReg EFLAGS) true true false false.

Record MInstr := MIn {
  opcode : string;
  asmString : option string;       (* of inline assembly: the symbol name of operand 0 *)
  isDebugInstr : bool;
  mayLoad : bool;
  mayStore : bool;
  isCall : bool;
  isBranch : bool;
  isReturn : bool;
  numExplicitDefs : nat;
  numDescDefs : nat;               (* getDesc().getNumDefs() *)
  memoryOperandNo : option nat;    (* getMemoryOperandNo plus getOperandBias *)
  isDataInvariantLoad : bool;
  isDataInvariant : bool;
  mi_ops : list MOperand;
}.

Definition withOps (ops : list MOperand) (i : MInstr) : MInstr :=
  MIn (opcode i) (asmString i) (isDebugInstr i) (mayLoad i) (mayStore i) (isCall i) (isBranch i) (isReturn i)
    (numExplicitDefs i) (numDescDefs i) (memoryOperandNo i) (isDataInvariantLoad i) (isDataInvariant i) ops.

(** An instruction the pass builds: one definition first when [d] is 1. *)
Definition built (op : string) (d : nat) (ops : list MOperand) : MInstr :=
  MIn op None false false false false false false d d None false true ops.
Definition builtLoad (op : string) (ops : list MOperand) : MInstr :=
  MIn op None false true false false false false 1 1 (Some 1%nat) true false ops.

Definition mi_uses (i : MInstr) : list MOperand := drop (numExplicitDefs i) (mi_ops i).
Definition mi_defs (i : MInstr) : list MOperand := take (numExplicitDefs i) (mi_ops i).

(** ** The block under construction *)
Record MState := MS {
  code : gmap positive MInstr;
  body : list positive;
  regClass : gmap reg RegClass;
  nextInstr : positive;
  nextReg : positive;
  stateReg : reg;                  (* PS->SSA.GetValueAtEndOfBlock(&MBB) *)
}.

(** Pure state passing. *)
Definition SM (A : Type) : Type := MState -> A * MState.
#[export] Instance SM_ret : MRet SM := fun A a s => (a, s).
#[export] Instance SM_bind : MBind SM := fun A B f m s => let '(a, s') := m s in f a s'.

Definition gets {A} (f : MState -> A) : SM A := fun s => (f s, s).
Definition when (b : bool) (m : SM unit) : SM unit := if b then m else mret tt.

Fixpoint mfor {A} (l : list A) (f : A -> SM unit) : SM unit :=
  match l with [] => mret tt | x :: l => f x ;; mfor l f end.

Definition dummyInstr : MInstr := built "" 0 [].
Definition instr (mi : positive) (s : MState) : MInstr := default dummyInstr (code s !! mi).

Definition createVirtualRegister (rc : RegClass) : SM reg := fun s =>
  let r := Virt (nextReg s) in
  (r, MS (code s) (body s) (<[r := rc]> (regClass s)) (nextInstr s) (Pos.succ (nextReg s)) (stateReg s)).

(** Inserting before an instruction of the list, or at its end. *)
Fixpoint insertBefore (x : positive) (pt : option positive) (l : list positive) : list positive :=
  match l with
  | [] => [x]
  | y :: l => if decide (pt = Some y) then x :: y :: l else y :: insertBefore x pt l
  end.

Definition BuildMI (pt : option positive) (i : MInstr) : SM positive := fun s =>
  let x := nextInstr s in
  (x, MS (<[x := i]> (code s)) (insertBefore x pt (body s)) (regClass s) (Pos.succ x) (nextReg s) (stateReg s)).

(** [std::next(MI)], where [None] is the end of the block, and the neighbours. *)
Definition getNextNode (mi : positive) : SM (option positive) := gets (fun s => nextIn (body s) mi).
Definition getPrevNode (mi : positive) : SM (option positive) := gets (fun s => prevIn (body s) mi None).

(** [MI.getOperand(k).setReg(r)]. *)
Definition updateInstr (mi : positive) (f : MInstr -> MInstr) : SM unit := fun s =>
  (tt, MS (alter f mi (code s)) (body s) (regClass s) (nextInstr s) (nextReg s) (stateReg s)).
Definition setOperandReg (mi : positive) (k : nat) (r : reg) : SM unit :=
  updateInstr mi (fun i => withOps (alter (setReg r) k (mi_ops i)) i).

Definition getOperand (mi : positive) (k : nat) : SM MOperand :=
  gets (fun s => nth k (mi_ops (instr mi s)) (imm 0)).

(** Replacing the uses of a register (definitions are kept), as [use_operands] lists
    them, except in one instruction, which gets another register. *)
Definition renameUse (from to : reg) (o : MOperand) : MOperand :=
  if isReg o && negb (isDef o) && bool_decide (getReg o = from) then setReg to o else o.
Definition renameReg (from to : reg) (o : MOperand) : MOperand :=
  if isReg o && bool_decide (getReg o = from) then setReg to o else o.
Definition mapCode (f : positive -> MInstr -> MInstr) : SM unit := fun s =>
  (tt, MS (map_imap (fun x i => Some (f x i)) (code s)) (body s) (regClass s) (nextInstr s) (nextReg s) (stateReg s)).
Definition mapOps (f : MOperand -> MOperand) (i : MInstr) : MInstr := withOps (f <$> mi_ops i) i.

(** [PS->SSA.AddAvailableValue(&MBB, r)]. *)
Definition setStateReg (r : reg) : SM unit := fun s =>
  (tt, MS (code s) (body s) (regClass s) (nextInstr s) (nextReg s) r).

Definition eraseInstr (mi : positive) : SM unit := fun s =>
  (tt, MS (code s) (filter (fun x => x <> mi) (body s)) (regClass s) (nextInstr s) (nextReg s) (stateReg s)).

(** ** Growing a block around one instruction

    The steps for an instruction [MI] insert new instructions right before it and right
    after it, and change operands; the block keeps its instructions in their order, and
    every pair of neighbours [MI] is not part of. *)

Lemma filter_all {A} (P : A -> Prop) `{forall x, Decision (P x)} (l : list A) : (forall x, x ∈ l -> P x) -> filter P l = l.
Proof.
  induction l as [|x l IH]; intros Hl; [done|]. rewrite filter_cons_True by (apply Hl; left).
  f_equal. apply IH. intros y Hy. apply Hl. by right.
Qed.

Lemma filter_none {A} (P : A -> Prop) `{forall x, Decision (P x)} (l : list A) : (forall x, x ∈ l -> ~ P x) -> filter P l = [].
Proof.
  induction l as [|x l IH]; intros Hl; [done|]. rewrite filter_cons_False by (apply Hl; left).
  apply IH. intros y Hy. apply Hl. by right.
Qed.

Lemma filter_ext_elem {A} (P Q : A -> Prop) `{forall x, Decision (P x)} `{forall x, Decision (Q x)} (l : list A) :
  (forall x, x ∈ l -> P x <-> Q x) -> filter P l = filter Q l.
Proof.
  induction l as [|x l IH]; intros Hl; [done|]. assert (P x <-> Q x) as Hx by (apply Hl; left).
  assert (filter P l = filter Q l) as Hr by (apply IH; intros y Hy; apply Hl; by right).
  rewrite !filter_cons. destruct (decide (P x)), (decide (Q x)); [by rewrite Hr|tauto|tauto|done].
Qed.

(** Neighbours that are both kept stay neighbours. *)
Lemma adjacent_filter {A} (P : A -> Prop) `{forall x, Decision (P x)} (l : list A) x y :
  adjacent l x y -> P x -> P y -> adjacent (filter P l) x y.
Proof.
  intros (a & b & ->) Hx Hy. exists (filter P a), (filter P b).
  by rewrite filter_app, !filter_cons_True.
Qed.

Lemma insertBefore_at x l1 p l2 : p ∉ l1 -> insertBefore x (Some p) (l1 ++ p :: l2) = l1 ++ x :: p :: l2.
Proof.
  induction l1 as [|y l1 IH]; intros Hp; simpl; [by rewrite decide_True|].
  rewrite decide_False by (intros [= ->]; apply Hp; left). f_equal. apply IH. set_solver.
Qed.

Lemma insertBefore_end x l : insertBefore x None l = l ++ [x].
Proof. induction l as [|y l IH]; simpl; [done|]. by rewrite IH. Qed.

Lemma nextIn_split (l1 l2 : list positive) x : NoDup (l1 ++ x :: l2) -> nextIn (l1 ++ x :: l2) x = head l2.
Proof.
  induction l1 as [|y l1 IH]; simpl; intros Hd; [by rewrite decide_True|].
  apply NoDup_cons in Hd as [Hy Hd]. rewrite decide_False by set_solver. by apply IH.
Qed.

Section Grow.
(** New instructions have addresses from [n0] on. *)
Variable n0 : positive.
Variable MI : positive.

(** [b] between [l1] and [l2] around [MI]. *)
Definition around (l1 l2 b : list positive) : Prop :=
  exists pre post, b = l1 ++ pre ++ MI :: post ++ l2 /\ Forall (fun x => n0 <= x)%positive (pre ++ post).

(** An insertion point at [MI] or before the rest [l2]. *)
Definition pt_ok (l2 : list positive) (pt : option positive) : Prop := pt = Some MI \/ pt = head l2.

Lemma around_insert l1 l2 b x pt :
  around l1 l2 b -> NoDup b -> pt_ok l2 pt -> (n0 <= x)%positive -> around l1 l2 (insertBefore x pt b).
Proof.
  intros (pre & post & -> & Hall) Hd Hpt Hx. apply Forall_app in Hall as [Hpre Hpost].
  destruct Hpt as [->| ->].
  - exists (pre ++ [x]), post. split.
    + rewrite (assoc_L (++)), insertBefore_at, <- !(assoc_L (++)); [done|].
      rewrite (assoc_L (++)) in Hd. apply NoDup_app in Hd as (_ & Hd & _). intros Hin. apply (Hd MI Hin). left.
    + rewrite !Forall_app. auto.
  - exists pre, (post ++ [x]). split; [|rewrite !Forall_app; auto].
    destruct l2 as [|y l2]; simpl.
    + rewrite insertBefore_end. by list_simplifier.
    + replace (l1 ++ pre ++ MI :: post ++ y :: l2) with ((l1 ++ pre ++ MI :: post) ++ y :: l2) in *
        by (by list_simplifier).
      rewrite insertBefore_at.
      * by list_simplifier.
      * apply NoDup_app in Hd as (_ & Hd & _). intros Hin. apply (Hd y Hin). left.
Qed.

Lemma around_start l1 l2 : around l1 l2 (l1 ++ MI :: l2).
Proof. exists [], []. split; [done|constructor]. Qed.

Lemma around_NoDup_insert (x : positive) pt b : NoDup b -> x ∉ b -> NoDup (insertBefore x pt b).
Proof.
  induction b as [|y b IH]; intros Hd Hx; simpl; [apply NoDup_singleton|].
  apply NoDup_cons in Hd as [Hy Hd]. case_decide.
  - apply NoDup_cons. split; [done|]. by apply NoDup_cons.
  - apply NoDup_cons. split; [|apply IH; [done|set_solver]].
    assert (forall b', y ∈ insertBefore x pt b' -> y = x \/ y ∈ b') as Hin.
    { clear. induction b' as [|z b' IH]; simpl; [set_solver|]. case_decide; set_solver. }
    intros [->|?]%Hin; [set_solver|done].
Qed.

Lemma elem_of_insertBefore (x y : positive) pt b : y ∈ insertBefore x pt b <-> y = x \/ y ∈ b.
Proof. induction b as [|z b IH]; simpl; [set_solver|]. case_decide; set_solver. Qed.

(** The instructions from before keep their order. *)
Lemma around_old l1 l2 b :
  around l1 l2 b -> filter (fun x => x < n0)%positive b = filter (fun x => x < n0)%positive (l1 ++ MI :: l2).
Proof.
  intros (pre & post & -> & Hall). apply Forall_app in Hall as [Hpre Hpost].
  assert (forall l, Forall (fun x => n0 <= x)%positive l -> filter (fun x => x < n0)%positive l = []) as Hnew.
  { intros l. induction 1 as [|x l Hx Hl IH]; [done|]. rewrite filter_cons_False by lia. exact IH. }
  rewrite !filter_app, (Hnew pre), !filter_cons by done. simpl. by rewrite filter_app, (Hnew post).
Qed.

(** Neighbours other than [MI] stay neighbours. *)
Lemma around_adjacent l1 l2 b x y :
  around l1 l2 b -> adjacent (l1 ++ MI :: l2) x y -> x <> MI -> y <> MI -> adjacent b x y.
Proof.
  intros (pre & post & -> & _) (a & c & Heq) Hx Hy.
  apply app_eq_inv in Heq as [(k & -> & Hk)|(k & -> & Hk)].
  - destruct k as [|z k]; simpl in Hk; [injection Hk as <- <-; done|]. injection Hk as <- Hk.
    destruct k as [|z k]; simpl in Hk; [injection Hk as <- _; done|]. injection Hk as <- ->.
    exists a, (k ++ pre ++ MI :: post ++ l2). by list_simplifier.
  - destruct k as [|z k]; simpl in Hk; [injection Hk as <- _; done|]. injection Hk as <- ->.
    exists (l1 ++ pre ++ MI :: post ++ k), c. by list_simplifier.
Qed.
End Grow.
