(* ===== verification/Slh.v ===== *)
(** * Selective speculative load hardening ([X86SpeculativeLoadHardening.cpp])

    The back end's end of the marker protocol: the first walk over a block collects the
    instructions to harden and the marker pairs the middle end put around unsafe address
    computations; addresses computed between two markers are hardened; the second walk
    hardens the marked accesses and, with the filter on, skips the unmarked ones; the
    markers are erased.  [tracePredStateThroughBlocksAndHarden] is modelled with the
    functions it calls, for the options that leave branch conditions and variable-timing
    instructions alone (-sbh, -sbhAll and -vtInstr off, their default): the sets
    [HardenCondition] and [HardenVTInstr] are then empty (SlhCond.v and SlhCondWalk.v have
    the walks with every option).  A null pointer that reaches
    [MBB.erase] is the result [None].  Counters and debug output are left out. *)
From stdpp Require Import base countable gmap sets list option strings.
From Stdlib Require Import ZArith Lia.
From S2P Require Import Prelude Machine.

Definition DUMMY_BEFORE : string := "addq 123456, %rax".
Definition DUMMY_AFTER : string := "addq 654321, %rax".

(** The command-line options. *)
Record Options := {
  EnablePostLoadHardening : bool;
  FenceCallAndRet : bool;
  HardenInterprocedurally : bool;
  HardenLoads : bool;
  HardenIndirectCallsAndJumps : bool;
  HardenFixedAddress : bool;
  HardenStoreAddress : bool;
  EnableFilter : bool;
  EnableStoreFilter : bool;
  HardenStandAloneGEPs : bool;
}.

Section Slh.
Context {orderInstrs : SetOrder positive} {orderNull : SetOrder (option positive)}.
Variable T : TargetInfo.
Variable Opt : Options.

(** What the block is: the flags live into it, and whether it has successors. *)
Variable liveInEFLAGS : bool.
Variable succ_empty : bool.
Variable PoisonReg : reg.

Definition getRegClass (r : reg) : SM RegClass := gets (fun s => default (OtherRC 1) (regClass s !! r)).
Definition regBytes (rc : RegClass) : Z := (getRegSizeInBits T rc / 8)%Z.

(** *** The flags *)
Definition findRegisterDefOperand (r : reg) (i : MInstr) : option MOperand :=
  head (filter (fun o => isReg o && isDef o && bool_decide (getReg o = r) = true) (mi_ops i)).

Definition killsRegister (r : reg) (i : MInstr) : bool :=
  existsb (fun o => isReg o && negb (isDef o) && isKill o && bool_decide (getReg o = r)) (mi_ops i).

Definition isEFLAGSDefLive (i : MInstr) : bool :=
  match findRegisterDefOperand EFLAGS i with Some DefOp => negb (isDead DefOp) | None => false end.

(** The instructions before [pt], last first. *)
Fixpoint flagsLive (l : list MInstr) : bool :=
  match l with
  | [] => liveInEFLAGS
  | MI :: l =>
    match findRegisterDefOperand EFLAGS MI with
    | Some DefOp => negb (isDead DefOp)
    | None => if killsRegister EFLAGS MI then false else flagsLive l
    end
  end.

Fixpoint before (pt : option positive) (l : list positive) : list positive :=
  match l with
  | [] => []
  | y :: l => if decide (pt = Some y) then [] else y :: before pt l
  end.

Definition isEFLAGSLive (pt : option positive) : SM bool :=
  gets (fun s => flagsLive ((fun x => instr x s) <$> reverse (before pt (body s)))).

Definition saveEFLAGS (InsertPt : option positive) : SM reg :=
  Reg ← createVirtualRegister GR32;
  BuildMI InsertPt (built "COPY" 1 [def Reg; use EFLAGS]) ;;
  mret Reg.

Definition restoreEFLAGS (InsertPt : option positive) (Reg : reg) : SM unit :=
  BuildMI InsertPt (built "COPY" 1 [def EFLAGS; use Reg]) ;; mret tt.

(** [saveEFLAGS] when the flags are live, else 0. *)
Definition saveIfLive (InsertPt : option positive) : SM (option reg) :=
  live ← isEFLAGSLive InsertPt;
  if (live : bool) then r ← saveEFLAGS InsertPt; mret (Some r) else mret None.
Definition restoreIf (InsertPt : option positive) (FlagsReg : option reg) : SM unit :=
  match FlagsReg with Some r => restoreEFLAGS InsertPt r | None => mret tt end.

(** *** Hardening a value *)
Definition NOREXRegClass (bytes : Z) : RegClass :=
  if (bytes =? 1)%Z then GR8_NOREX else if (bytes <=? 3)%Z then GR16_NOREX
  else if (bytes <=? 7)%Z then GR32_NOREX else GR64_NOREX.
Definition GPRRegClass (bytes : Z) : RegClass :=
  if (bytes =? 1)%Z then GR8 else if (bytes <=? 3)%Z then GR16 else if (bytes <=? 7)%Z then GR32 else GR64.

Definition canHardenRegister (Reg : reg) : SM bool :=
  RC ← getRegClass Reg;
  let RegBytes := regBytes RC in
  mret (if (8 <? RegBytes)%Z then false
        else if bool_decide (RC = NOREXRegClass RegBytes) then false
        else hasSuperClassEq T RC (GPRRegClass RegBytes)).

Definition OrOpCode (bytes : Z) : string :=
  if (bytes =? 1)%Z then "OR8rr" else if (bytes =? 2)%Z then "OR16rr" else if (bytes =? 4)%Z then "OR32rr" else "OR64rr".

(** The predicate state in a register as wide as the value. *)
Definition narrowState (InsertPt : option positive) (RC : RegClass) : SM reg :=
  StateReg ← gets stateReg;
  if (regBytes RC =? 8)%Z then mret StateReg
  else
    NarrowStateReg ← createVirtualRegister RC;
    BuildMI InsertPt (built "COPY" 1 [def NarrowStateReg; use StateReg]) ;;
    mret NarrowStateReg.

Definition hardenValueInRegister (Reg : reg) (InsertPt : option positive) : SM reg :=
  RC ← getRegClass Reg;
  StateReg ← narrowState InsertPt RC;
  FlagsReg ← saveIfLive InsertPt;
  NewReg ← createVirtualRegister RC;
  BuildMI InsertPt (built (OrOpCode (regBytes RC)) 1 [def NewReg; use StateReg; use Reg; deadFlags]) ;;
  restoreIf InsertPt FlagsReg ;;
  mret NewReg.

(** [MRI->getVRegDef]: the instruction that defines a register. *)
Definition getVRegDef (r : reg) : SM (option positive) :=
  gets (fun s => head (filter (fun x =>
    existsb (fun o => isReg o && isDef o && bool_decide (getReg o = r)) (mi_ops (instr x s)) = true) (body s))).

Definition hardenStandAloneGEP (MI : positive) : SM reg :=
  DefOp ← getOperand MI 0;
  let OldDefReg := getReg DefOp in
  DefRC ← getRegClass OldDefReg;
  UnhardenedReg ← createVirtualRegister DefRC;
  setOperandReg MI 0 UnhardenedReg ;;
  next ← getNextNode MI;
  HardenedReg ← hardenValueInRegister OldDefReg next;
  HardeningInst ← getVRegDef HardenedReg;
  mapCode (fun x i =>
    mapOps (renameUse OldDefReg (if decide (HardeningInst = Some x) then UnhardenedReg else HardenedReg)) i) ;;
  mret HardenedReg.

Definition hardenPostLoad (MI : positive) : SM reg :=
  DefOp ← getOperand MI 0;
  let OldDefReg := getReg DefOp in
  DefRC ← getRegClass OldDefReg;
  UnhardenedReg ← createVirtualRegister DefRC;
  setOperandReg MI 0 UnhardenedReg ;;
  next ← getNextNode MI;
  HardenedReg ← hardenValueInRegister UnhardenedReg next;
  mapCode (fun _ i => mapOps (renameReg OldDefReg HardenedReg) i) ;;
  mret HardenedReg.

Definition hardenValueInCondition (MI : positive) (OpIdx : nat) : SM reg :=
  Op ← getOperand MI OpIdx;
  let oldReg := getReg Op in
  FlagsReg ← saveIfLive (Some MI);
  RC ← getRegClass oldReg;
  StateReg ← narrowState (Some MI) RC;
  HardenedReg ← createVirtualRegister RC;
  BuildMI (Some MI) (built (OrOpCode (regBytes RC)) 1 [def HardenedReg; use oldReg; use StateReg; deadFlags]) ;;
  setOperandReg MI OpIdx HardenedReg ;;
  restoreIf (Some MI) FlagsReg ;;
  mret HardenedReg.

(** *** Hardening an address *)

(** A register the predicate state is merged into, through the vector unit, with an
    or, or with a shift when the flags are live. *)
Definition mergeVector (InsertPt : option positive) (Is128Bit Is256Bit : bool) (StateReg TmpReg OpReg : reg)
    (OpRC : RegClass) : SM unit :=
  if negb (hasVLX T) && (hasSuperClassEq T OpRC VR128 || hasSuperClassEq T OpRC VR256) then
    VStateReg ← createVirtualRegister VR128;
    BuildMI InsertPt (built "VMOV64toPQIrr" 1 [def VStateReg; use StateReg]) ;;
    VBStateReg ← createVirtualRegister OpRC;
    BuildMI InsertPt (built (if Is128Bit then "VPBROADCASTQrr" else "VPBROADCASTQYrr") 1 [def VBStateReg; use VStateReg]) ;;
    BuildMI InsertPt (built (if Is128Bit then "VPORrr" else "VPORYrr") 1 [def TmpReg; use VBStateReg; use OpReg]) ;;
    mret tt
  else
    VStateReg ← createVirtualRegister OpRC;
    BuildMI InsertPt (built (if Is128Bit then "VPBROADCASTQrZ128rr" else if Is256Bit then "VPBROADCASTQrZ256rr"
                             else "VPBROADCASTQrZrr") 1 [def VStateReg; use StateReg]) ;;
    BuildMI InsertPt (built (if Is128Bit then "VPORQZ128rr" else if Is256Bit then "VPORQZ256rr" else "VPORQZrr") 1
                        [def TmpReg; use VStateReg; use OpReg]) ;;
    mret tt.

Definition mergeState (InsertPt : option positive) (EFLAGSLive : bool) (StateReg TmpReg OpReg : reg) (OpRC : RegClass)
    : SM unit :=
  if negb (hasVLX T) && (hasSuperClassEq T OpRC VR128 || hasSuperClassEq T OpRC VR256) then
    mergeVector InsertPt (hasSuperClassEq T OpRC VR128) false StateReg TmpReg OpReg OpRC
  else if hasSuperClassEq T OpRC VR128X || hasSuperClassEq T OpRC VR256X || hasSuperClassEq T OpRC VR512 then
    mergeVector InsertPt (hasSuperClassEq T OpRC VR128X) (hasSuperClassEq T OpRC VR256X) StateReg TmpReg OpReg OpRC
  else if negb EFLAGSLive then
    BuildMI InsertPt (built "OR64rr" 1 [def TmpReg; use StateReg; use OpReg; deadFlags]) ;; mret tt
  else
    BuildMI InsertPt (built "SHRX64rr" 1 [def TmpReg; use OpReg; use StateReg]) ;; mret tt.

(** The operands of the address that can be hardened: the base unless it is a frame
    index, the stack or instruction pointer or missing, and the index unless it is
    missing or the same register. *)
Definition hardenOperands (k : nat) (BaseMO IndexMO : MOperand) : list nat :=
  let base := if isFI BaseMO then []
              else if bool_decide (getReg BaseMO = RSP \/ getReg BaseMO = RIP \/ getReg BaseMO = NoRegister) then []
              else [k] in
  base ++ (if negb (bool_decide (getReg IndexMO = NoRegister)) &&
              (bool_decide (base = []) || negb (bool_decide (getReg BaseMO = getReg IndexMO)))
           then [(k + 2)%nat] else []).

(** [erase_if]: operands whose register was checked before take the hardened one. *)
Fixpoint reuseChecked (MI : positive) (HardenOpRegs : list nat) (AddrRegToHardenedReg : gmap reg reg) : SM (list nat) :=
  match HardenOpRegs with
  | [] => mret []
  | k :: ops =>
    Op ← getOperand MI k;
    match AddrRegToHardenedReg !! getReg Op with
    | None => rest ← reuseChecked MI ops AddrRegToHardenedReg; mret (k :: rest)
    | Some h => setOperandReg MI k h ;; reuseChecked MI ops AddrRegToHardenedReg
    end
  end.

Fixpoint hardenOps (MI : positive) (EFLAGSLive : bool) (StateReg : reg) (ops : list nat)
    (AddrRegToHardenedReg : gmap reg reg) : SM (gmap reg reg) :=
  match ops with
  | [] => mret AddrRegToHardenedReg
  | k :: ops =>
    Op ← getOperand MI k;
    let OpReg := getReg Op in
    OpRC ← getRegClass OpReg;
    TmpReg ← createVirtualRegister OpRC;
    mergeState (Some MI) EFLAGSLive StateReg TmpReg OpReg OpRC ;;
    setOperandReg MI k TmpReg ;;
    hardenOps MI EFLAGSLive StateReg ops (<[OpReg := TmpReg]> AddrRegToHardenedReg)
  end.

Definition hardenLoadAddr (MI : positive) (k : nat) (AddrRegToHardenedReg : gmap reg reg) : SM (gmap reg reg) :=
  EFLAGSLive ← isEFLAGSLive (Some MI);
  BaseMO ← getOperand MI k;
  IndexMO ← getOperand MI (k + 2)%nat;
  HardenOpRegs ← reuseChecked MI (hardenOperands k BaseMO IndexMO) AddrRegToHardenedReg;
  if bool_decide (HardenOpRegs = []) then mret AddrRegToHardenedReg
  else
    StateReg ← gets stateReg;
    FlagsReg ← (if EFLAGSLive && negb (hasBMI2 T) then r ← saveEFLAGS (Some MI); mret (Some r) else mret None);
    let EFLAGSLive := EFLAGSLive && hasBMI2 T in
    m ← hardenOps MI EFLAGSLive StateReg HardenOpRegs AddrRegToHardenedReg;
    restoreIf (Some MI) FlagsReg ;;
    mret m.

Definition addrBase (i : MInstr) (k : nat) : MOperand := nth k (mi_ops i) (imm 0).
Definition addrIndex (i : MInstr) (k : nat) : MOperand := nth (k + 2) (mi_ops i) (imm 0).

(** The base and index registers an address depends on; [NoRegister] for none. *)
Definition BaseReg (i : MInstr) (k : nat) : reg :=
  if negb (isFI (addrBase i k)) && negb (bool_decide (getReg (addrBase i k) = RIP)) then getReg (addrBase i k)
  else NoRegister.
Definition IndexReg (i : MInstr) (k : nat) : reg := getReg (addrIndex i k).

Definition hardenFixedAddress (MI : positive) (special : bool) : SM unit :=
  StateReg ← gets stateReg;
  FlagsReg ← saveIfLive (Some MI);
  i ← gets (instr MI);
  let orTo r := BuildMI (Some MI) (built "OR64rr" 1 [def r; use r; use StateReg; deadFlags]) ;; mret tt in
  (if (special : bool) then orTo RSP
   else match memoryOperandNo i with
        | Some k => if isFI (addrBase i k) then orTo RBP
                    else if bool_decide (getReg (addrBase i k) = RSP) then orTo RSP else mret tt
        | None => mret tt
        end) ;;
  restoreIf (Some MI) FlagsReg.

(** The loop over the operands of a store; the count of hardened ones is compared after
    every register use. *)
Fixpoint hardenStoreOps (MI : positive) (n : nat) (k : nat) (hardened tobeHarden : nat) : SM bool :=
  match n with
  | O => mret false
  | S n =>
    Op ← getOperand MI k;
    if negb (isReg Op) || isDef Op then hardenStoreOps MI n (S k) hardened tobeHarden
    else
      can ← canHardenRegister (getReg Op);
      if negb (isVirtual (getReg Op) && can) then hardenStoreOps MI n (S k) hardened tobeHarden
      else
        hardenValueInCondition MI k ;;
        if decide (S hardened = tobeHarden) then mret true
        else hardenStoreOps MI n (S k) (S hardened) tobeHarden
  end.

Definition hardenStore (MI : positive) : SM bool :=
  i ← gets (instr MI);
  match memoryOperandNo i with
  | None => mret false
  | Some k =>
    canBase ← canHardenRegister (getReg (addrBase i k));
    canIndex ← canHardenRegister (getReg (addrIndex i k));
    let base := negb (bool_decide (BaseReg i k = NoRegister)) && isVirtual (getReg (addrBase i k)) && canBase in
    let index := negb (bool_decide (IndexReg i k = NoRegister)) && isVirtual (getReg (addrIndex i k)) && canIndex in
    hardenStoreOps MI (length (mi_ops i)) 0 0 ((if (base : bool) then 1 else 0) + (if (index : bool) then 1 else 0))
  end.

(** *** Returns and calls *)
Definition mergePredStateIntoSP (InsertPt : option positive) (PredStateReg : reg) : SM unit :=
  TmpReg ← createVirtualRegister GR64_NOSP;
  BuildMI InsertPt (built "SHL64ri" 1 [def TmpReg; useKill PredStateReg; imm 47; deadFlags]) ;;
  BuildMI InsertPt (built "OR64rr" 1 [def RSP; use RSP; useKill TmpReg; deadFlags]) ;;
  mret tt.

Definition extractPredStateFromSP (InsertPt : option positive) : SM reg :=
  PredStateReg ← createVirtualRegister GR64_NOSP;
  TmpReg ← createVirtualRegister GR64_NOSP;
  BuildMI InsertPt (built "COPY" 1 [def TmpReg; use RSP]) ;;
  BuildMI InsertPt (built "SAR64ri" 1
    [def PredStateReg; useKill TmpReg; imm (getRegSizeInBits T GR64_NOSP - 1); deadFlags]) ;;
  mret PredStateReg.

Definition hardenReturnInstr (MI : positive) : SM unit :=
  if FenceCallAndRet Opt then mret tt
  else StateReg ← gets stateReg; mergePredStateIntoSP (Some MI) StateReg.

Definition LFENCE : MInstr := built "LFENCE" 0 [].

(** The address of a label in a register. *)
Definition addressOf (InsertPt : option positive) (r : reg) (label : string) : SM unit :=
  BuildMI InsertPt (if smallNonPIC T then built "MOV64ri32" 1 [def r; sym label]
                    else built "LEA64r" 1 [def r; use RIP; imm 1; use NoRegister; sym label; use NoRegister]) ;;
  mret tt.

(** The state after the call: the callee's, or the poison when the return address differs. *)
Definition updateState (InsertPt : option positive) (UpdatedStateReg NewStateReg : reg) : SM unit :=
  BuildMI InsertPt (built "CMOV64rr" 1 [def UpdatedStateReg; useKill NewStateReg; use PoisonReg; imm 5; useKill EFLAGS]) ;;
  setStateReg UpdatedStateReg.

(** After the call: the expected return address, the callee's state, and the test. *)
Definition checkReturn (InsertPt : option positive) (Expected : option reg) : SM unit :=
  ExpectedRetAddrReg ← (match Expected with
    | Some r => mret r
    | None =>
      r ← createVirtualRegister GR64;
      BuildMI InsertPt (builtLoad "MOV64rm" [def r; use RSP; imm 1; use NoRegister; imm (-8); use NoRegister]) ;;
      mret r
    end);
  NewStateReg ← extractPredStateFromSP InsertPt;
  (if smallNonPIC T then
     BuildMI InsertPt (built "CMP64ri32" 0 [useKill ExpectedRetAddrReg; sym "slh_ret_addr"; liveFlags]) ;; mret tt
   else
     ActualRetAddrReg ← createVirtualRegister GR64;
     BuildMI InsertPt (built "LEA64r" 1 [def ActualRetAddrReg; use RIP; imm 1; use NoRegister; sym "slh_ret_addr"; use NoRegister]) ;;
     BuildMI InsertPt (built "CMP64rr" 0 [useKill ExpectedRetAddrReg; useKill ActualRetAddrReg; liveFlags]) ;; mret tt) ;;
  UpdatedStateReg ← createVirtualRegister GR64_NOSP;
  updateState InsertPt UpdatedStateReg NewStateReg.

Definition tracePredStateThroughCall (MI : positive) : SM unit :=
  i ← gets (instr MI);
  next ← getNextNode MI;
  if FenceCallAndRet Opt then
    if isReturn i then mret tt else BuildMI next LFENCE ;; mret tt
  else
    StateReg ← gets stateReg;
    mergePredStateIntoSP (Some MI) StateReg ;;
    if isReturn i || (bool_decide (next = None) && succ_empty) then mret tt
    else
      Expected ← (if negb (has128ByteRedZone T) || exposesReturnsTwice T then
                    r ← createVirtualRegister GR64;
                    addressOf (Some MI) r "slh_ret_addr" ;; mret (Some r)
                  else mret None);
      checkReturn next Expected.

Definition farOpcodes : list string :=
  ["FARCALL16m"; "FARCALL32m"; "FARCALL64m"; "FARJMP16m"; "FARJMP32m"; "FARJMP64m"]%string.

Definition hardenIndirectCallOrJumpInstr (MI : positive) (AddrRegToHardenedReg : gmap reg reg) : SM (gmap reg reg) :=
  i ← gets (instr MI);
  if bool_decide (opcode i ∈ farOpcodes) then mret AddrRegToHardenedReg
  else
    TargetOp ← getOperand MI 0;
    if negb (isReg TargetOp) then mret AddrRegToHardenedReg
    else
      let OldTargetReg := getReg TargetOp in
      HardenedTargetReg ← (match AddrRegToHardenedReg !! OldTargetReg with
                           | Some h => mret h
                           | None => hardenValueInRegister OldTargetReg (Some MI)
                           end);
      setOperandReg MI 0 HardenedTargetReg ;;
      mret (<[OldTargetReg := HardenedTargetReg]> AddrRegToHardenedReg).

(** *** Sinking *)

(** The instructions that use a register, over the function. *)
Definition use_instructions (r : reg) (s : MState) : list positive :=
  filter (fun x => existsb (fun o => isReg o && negb (isDef o) && bool_decide (getReg o = r)) (mi_ops (instr x s)) = true)
    (order (dom (code s))).

(** [Some None]: no use needs its own check; [None]: hardening cannot sink. *)
Fixpoint singleUse (uses : list positive) (DefReg : reg) (HardenedInstrs : gset positive)
    (SingleUseMI : option positive) : SM (option (option positive)) :=
  match uses with
  | [] => mret (Some SingleUseMI)
  | UseMI :: uses =>
    i ← gets (instr UseMI);
    if decide (UseMI ∈ HardenedInstrs) then
      if negb (isDataInvariantLoad i) || isEFLAGSDefLive i then singleUse uses DefReg HardenedInstrs SingleUseMI
      else match memoryOperandNo i with
           | Some k =>
             if (isReg (addrBase i k) && bool_decide (getReg (addrBase i k) = DefReg)) ||
                (isReg (addrIndex i k) && bool_decide (getReg (addrIndex i k) = DefReg)) then mret None
             else singleUse uses DefReg HardenedInstrs SingleUseMI
           | None => singleUse uses DefReg HardenedInstrs SingleUseMI
           end
    else
      inBlock ← gets (fun s => bool_decide (UseMI ∈ body s));
      let UseDefReg := getReg (nth 0 (mi_ops i) (imm 0)) in
      can ← canHardenRegister UseDefReg;
      if bool_decide (is_Some SingleUseMI) then mret None
      else if negb (isDataInvariant i) || negb inBlock || isEFLAGSDefLive i then mret None
      else if (1 <? numDescDefs i)%nat then mret None
      else if negb (isVirtual UseDefReg) || negb can then mret None
      else singleUse uses DefReg HardenedInstrs (Some UseMI)
  end.

(** The walk along single uses; the bound is on its length. *)
Fixpoint sinkPostLoadHardenedInst (fuel : nat) (MI : positive) (HardenedInstrs : gset positive) : SM (option positive) :=
  match fuel with
  | O => mret (Some MI)
  | S n =>
    i ← gets (instr MI);
    let DefReg := getReg (nth 0 (mi_ops i) (imm 0)) in
    uses ← gets (use_instructions DefReg);
    SingleUse ← singleUse uses DefReg HardenedInstrs None;
    match SingleUse with
    | None => mret (Some MI)
    | Some None => mret None
    | Some (Some MI') => sinkPostLoadHardenedInst n MI' HardenedInstrs
    end
  end.

(** *** The first walk over a block *)
Record Scan := {
  HardenPostLoad : gset positive;
  HardenLoadAddr : gset positive;
  HardenStoreAddr : gset positive;
  HardenFixedAddressRBP : gset positive;
  DummyInstr : gset (option positive);
  StandAloneGEPDummyInstr : gset (option positive);
  HardenStandAloneGEP : gset positive;
  HardenedAddrRegs : gset reg;
  LoadDepRegs : gset reg;
}.

Definition emptyScan : Scan := Build_Scan ∅ ∅ ∅ ∅ ∅ ∅ ∅ ∅ ∅.

Definition isMarker (m : string) (i : MInstr) : bool := bool_decide (asmString i = Some m).

(** From a begin marker on: the number of instructions up to the end marker, the last
    one that is no debug instruction, and the end marker, null when there is none. *)
Fixpoint findAfter (s : MState) (l : list positive) (instCountBetween : nat) (last_MI : option positive)
    : nat * option positive * option positive :=
  match l with
  | [] => (instCountBetween, last_MI, None)
  | x :: l =>
    if isMarker DUMMY_AFTER (instr x s) then (instCountBetween, last_MI, Some x)
    else findAfter s l (S instCountBetween) (if isDebugInstr (instr x s) then last_MI else Some x)
  end.

Definition scanMarker (s : MState) (MI : positive) (rest : list positive) (c : Scan) : Scan :=
  if isMarker DUMMY_BEFORE (instr MI s) then
    let '(instCountBetween, last_MI, MI_next) := findAfter s rest 0 None in
    if (0 <? instCountBetween)%nat then
      Build_Scan (HardenPostLoad c) (HardenLoadAddr c) (HardenStoreAddr c) (HardenFixedAddressRBP c) (DummyInstr c)
        ({[Some MI; MI_next]} ∪ StandAloneGEPDummyInstr c)
        (match last_MI with Some x => {[x]} ∪ HardenStandAloneGEP c | None => HardenStandAloneGEP c end)
        (HardenedAddrRegs c) (LoadDepRegs c)
    else
      Build_Scan (HardenPostLoad c) (HardenLoadAddr c) (HardenStoreAddr c) (HardenFixedAddressRBP c)
        ({[Some MI; MI_next]} ∪ DummyInstr c) (StandAloneGEPDummyInstr c) (HardenStandAloneGEP c)
        (HardenedAddrRegs c) (LoadDepRegs c)
  else c.

Definition defRegs (i : MInstr) : gset reg := list_to_set (getReg <$> filter (fun o => isReg o = true) (mi_defs i)).

(** Everything defined from a load-dependent register depends on the load. *)
Definition propagateDep (i : MInstr) (c : Scan) : Scan :=
  if existsb (fun Op => isReg Op && bool_decide (getReg Op ∈ LoadDepRegs c)) (mi_uses i) then
    Build_Scan (HardenPostLoad c) (HardenLoadAddr c) (HardenStoreAddr c) (HardenFixedAddressRBP c) (DummyInstr c)
      (StandAloneGEPDummyInstr c) (HardenStandAloneGEP c) (HardenedAddrRegs c) (defRegs i ∪ LoadDepRegs c)
  else c.

Definition withStore (MI : positive) (c : Scan) : Scan :=
  Build_Scan (HardenPostLoad c) (HardenLoadAddr c) ({[MI]} ∪ HardenStoreAddr c) (HardenFixedAddressRBP c) (DummyInstr c)
    (StandAloneGEPDummyInstr c) (HardenStandAloneGEP c) (HardenedAddrRegs c) (LoadDepRegs c).

(** An address without registers; the stack pointer as a base counts as a register, so
    only frame indices get here. *)
Definition withFixed (MI : positive) (i : MInstr) (k : nat) (c : Scan) : Scan :=
  if HardenFixedAddress Opt then
    Build_Scan (HardenPostLoad c) (HardenLoadAddr c) (HardenStoreAddr c ∖ {[MI]})
      (if isFI (addrBase i k) && bool_decide (HardenFixedAddressRBP c = ∅) then {[MI]} else HardenFixedAddressRBP c)
      (DummyInstr c) (StandAloneGEPDummyInstr c) (HardenStandAloneGEP c) (HardenedAddrRegs c) (LoadDepRegs c)
  else c.

Definition withPostLoad (MI : positive) (r : reg) (c : Scan) : Scan :=
  Build_Scan ({[MI]} ∪ HardenPostLoad c) (HardenLoadAddr c) (HardenStoreAddr c) (HardenFixedAddressRBP c) (DummyInstr c)
    (StandAloneGEPDummyInstr c) (HardenStandAloneGEP c) ({[r]} ∪ HardenedAddrRegs c) (LoadDepRegs c).

Definition regSet (r : reg) : gset reg := if decide (r = NoRegister) then ∅ else {[r]}.
Definition withAddr (MI : positive) (i : MInstr) (k : nat) (c : Scan) : Scan :=
  Build_Scan (HardenPostLoad c) ({[MI]} ∪ HardenLoadAddr c) (HardenStoreAddr c) (HardenFixedAddressRBP c) (DummyInstr c)
    (StandAloneGEPDummyInstr c) (HardenStandAloneGEP c)
    (regSet (BaseReg i k) ∪ regSet (IndexReg i k) ∪ HardenedAddrRegs c) (defRegs i ∪ LoadDepRegs c).

(** Post-load hardening is possible and no address register is to be hardened. *)
Definition postLoadable (i : MInstr) (k : nat) (can : bool) (c : Scan) : bool :=
  EnablePostLoadHardening Opt && isDataInvariantLoad i && negb (isEFLAGSDefLive i) && (numDescDefs i =? 1)%nat &&
  isReg (nth 0 (mi_ops i) (imm 0)) && can &&
  negb (bool_decide (BaseReg i k ∈ HardenedAddrRegs c)) && negb (bool_decide (IndexReg i k ∈ HardenedAddrRegs c)).

Definition canHardenIn (s : MState) (r : reg) : bool := (canHardenRegister r s).1.

(** One access with the memory operands at [k]. *)
Definition scanAddress (s : MState) (MI : positive) (i : MInstr) (k : nat) (c : Scan) : Scan :=
  if bool_decide (BaseReg i k = NoRegister) && bool_decide (IndexReg i k = NoRegister) then withFixed MI i k c
  else if (negb (bool_decide (BaseReg i k = NoRegister)) && bool_decide (BaseReg i k ∈ LoadDepRegs c)) ||
          (negb (bool_decide (IndexReg i k = NoRegister)) && bool_decide (IndexReg i k ∈ LoadDepRegs c)) then c
  else
    let r := getReg (nth 0 (mi_ops i) (imm 0)) in
    if postLoadable i k (canHardenIn s r) c then withPostLoad MI r c
    else withAddr MI i k c.

Definition scanAccess (s : MState) (MI : positive) (i : MInstr) (c : Scan) : Scan :=
  if negb (mayLoad i) && negb (HardenStoreAddress Opt && mayStore i) then c
  else if bool_decide (opcode i = "MFENCE"%string) then c
  else
    let c := if HardenStoreAddress Opt && (mayStore i && negb (mayLoad i)) then withStore MI c else c in
    match memoryOperandNo i with
    | None => c
    | Some k => scanAddress s MI i k c
    end.

(** The walk ends at a fence. *)
Fixpoint scanBlock (s : MState) (l : list positive) (c : Scan) : Scan :=
  match l with
  | [] => c
  | MI :: rest =>
    let i := instr MI s in
    let c := propagateDep i (scanMarker s MI rest c) in
    if bool_decide (opcode i = "LFENCE"%string) then c
    else scanBlock s rest (scanAccess s MI i c)
  end.

(** *** The second walk *)
Record Walk := {
  w_post : gset positive;           (* HardenPostLoad *)
  w_addr : gset positive;           (* HardenLoadAddr *)
  w_store : gset positive;          (* HardenStoreAddr *)
  w_fixed : gset positive;          (* HardenFixedAddressRBP *)
  w_regs : gmap reg reg;            (* AddrRegToHardenedReg *)
  w_hardened : gset (option positive);   (* DummyInstrHardenedBySLH *)
  w_rsp : bool;                     (* hardened_RSP *)
}.

Definition isPrefixedByDummies (MI : positive) : SM bool :=
  prevMI ← getPrevNode MI;
  match prevMI with
  | Some p => i ← gets (instr p); mret (isMarker DUMMY_AFTER i)
  | None => mret false
  end.

Definition markAsProtected (MI : positive) (w : Walk) : SM Walk :=
  prefixed ← isPrefixedByDummies MI;
  if negb prefixed then mret w
  else
    prevMI ← getPrevNode MI;
    prevPrevMI ← (match prevMI with Some p => getPrevNode p | None => mret None end);
    mret {| w_post := w_post w; w_addr := w_addr w; w_store := w_store w; w_fixed := w_fixed w; w_regs := w_regs w;
            w_hardened := {[prevMI; prevPrevMI]} ∪ w_hardened w; w_rsp := w_rsp w |}.

Definition w_set_regs (m : gmap reg reg) (w : Walk) : Walk :=
  Build_Walk (w_post w) (w_addr w) (w_store w) (w_fixed w) m (w_hardened w) (w_rsp w).
Definition w_set_post (p : gset positive) (w : Walk) : Walk :=
  Build_Walk p (w_addr w) (w_store w) (w_fixed w) (w_regs w) (w_hardened w) (w_rsp w).
Definition w_drop_addr (MI : positive) (w : Walk) : Walk :=
  Build_Walk (w_post w) (w_addr w ∖ {[MI]}) (w_store w) (w_fixed w) (w_regs w) (w_hardened w) (w_rsp w).
Definition w_drop_store (MI : positive) (w : Walk) : Walk :=
  Build_Walk (w_post w) (w_addr w) (w_store w ∖ {[MI]}) (w_fixed w) (w_regs w) (w_hardened w) (w_rsp w).
Definition w_drop_fixed (MI : positive) (w : Walk) : Walk :=
  Build_Walk (w_post w) (w_addr w) (w_store w) (w_fixed w ∖ {[MI]}) (w_regs w) (w_hardened w) (w_rsp w).
Definition w_set_rsp (w : Walk) : Walk :=
  Build_Walk (w_post w) (w_addr w) (w_store w) (w_fixed w) (w_regs w) (w_hardened w) true.

(** The filter skips an access no end marker precedes, unless it is a store the store
    filter does not cover or is on another list. *)
Definition filtered (MI : positive) (prefixed : bool) (w : Walk) : bool :=
  EnableFilter Opt && negb prefixed &&
  (if EnableStoreFilter Opt then negb (bool_decide (MI ∈ w_fixed w))
   else negb (bool_decide (MI ∈ w_store w)) && negb (bool_decide (MI ∈ w_fixed w))).

(** An access on [HardenLoadAddr]. *)
Definition visitAddr (MI : positive) (w : Walk) : SM Walk :=
  let w := w_drop_addr MI w in
  prefixed ← isPrefixedByDummies MI;
  if filtered MI prefixed w then mret w
  else
    w ← markAsProtected MI w;
    if decide (MI ∈ w_store w) then hardenStore MI ;; mret (w_drop_store MI w)
    else
      i ← gets (instr MI);
      match memoryOperandNo i with
      | Some k => m ← hardenLoadAddr MI k (w_regs w); mret (w_set_regs m w)
      | None => mret w
      end.

(** A load on [HardenPostLoad]. *)
Definition visitPost (fuel : nat) (MI : positive) (w : Walk) : SM Walk :=
  let w := w_drop_store MI (w_set_post (w_post w ∖ {[MI]}) w) in
  i ← gets (instr MI);
  SunkMI ← (if isDataInvariantLoad i && negb (isEFLAGSDefLive i) then sinkPostLoadHardenedInst fuel MI (w_post w)
            else mret (Some MI));
  match SunkMI with
  | None => mret w
  | Some x =>
    if decide (x = MI) then
      HardenedReg ← hardenPostLoad MI;
      mret (w_set_regs (<[HardenedReg := HardenedReg]> (w_regs w)) w)
    else mret (w_set_post ({[x]} ∪ w_post w) w)
  end.

Definition visitFixed (MI : positive) (w : Walk) : SM Walk :=
  if decide (MI ∈ w_fixed w) then
    w ← markAsProtected MI (w_drop_fixed MI w);
    hardenFixedAddress MI false ;; mret w
  else mret w.

Definition visitStore (MI : positive) (w : Walk) : SM Walk :=
  if decide (MI ∈ w_store w) then
    w ← markAsProtected MI (w_drop_store MI w);
    ok ← hardenStore MI;
    if negb ok && negb (w_rsp w) then hardenFixedAddress MI true ;; mret (w_set_rsp w) else mret w
  else mret w.

Definition visitIndirect (MI : positive) (w : Walk) : SM Walk :=
  i ← gets (instr MI);
  if (isCall i || isBranch i) && HardenIndirectCallsAndJumps Opt then
    m ← hardenIndirectCallOrJumpInstr MI (w_regs w); mret (w_set_regs m w)
  else mret w.

Definition visitInterprocedural (MI : positive) : SM unit :=
  i ← gets (instr MI);
  if negb (HardenInterprocedurally Opt) then mret tt
  else if negb (isCall i) && negb (isReturn i) then mret tt
  else if isReturn i && negb (isCall i) then hardenReturnInstr MI
  else tracePredStateThroughCall MI.

Definition visitInstr (fuel : nat) (MI : positive) (w : Walk) : SM Walk :=
  if HardenLoads Opt then
    if decide (MI ∈ w_addr w) then visitAddr MI w
    else if decide (MI ∈ w_post w) then visitPost fuel MI w
    else
      w ← visitFixed MI w;
      w ← visitStore MI w;
      w ← visitIndirect MI w;
      visitInterprocedural MI ;; mret w
  else visitInterprocedural MI ;; mret w.

(** The walk over the block.  The instructions the steps insert come after the current
    one only behind a load or a call; they are in no set and are neither calls, branches
    nor returns, so the walk over the instructions of the start is the same. *)
Fixpoint walkBlock (fuel : nat) (l : list positive) (w : Walk) : SM Walk :=
  match l with
  | [] => mret w
  | MI :: l => w ← visitInstr fuel MI w; walkBlock fuel l w
  end.

(** *** A block *)
Fixpoint hardenGEPs (l : list positive) (m : gmap reg reg) : SM (gmap reg reg) :=
  match l with
  | [] => mret m
  | MI :: l => HardenedReg ← hardenStandAloneGEP MI; hardenGEPs l (<[HardenedReg := HardenedReg]> m)
  end.

(** [MBB.erase] of each pointer of a set; null is not an instruction. *)
Definition eraseAllInstrs (l : list (option positive)) : SM unit :=
  mfor l (fun x => match x with Some x => eraseInstr x | None => mret tt end).

Definition hardenBlock (fuel : nat) : SM (option Walk) :=
  s ← gets (fun s => s);
  let c := if HardenLoads Opt then scanBlock s (body s) emptyScan else emptyScan in
  m ← (if HardenStandAloneGEPs Opt then hardenGEPs (order (HardenStandAloneGEP c)) ∅ else mret ∅);
  if decide (None ∈ StandAloneGEPDummyInstr c) then mret None
  else
    eraseAllInstrs (order (StandAloneGEPDummyInstr c)) ;;
    l ← gets body;
    w ← walkBlock fuel l (Build_Walk (HardenPostLoad c) (HardenLoadAddr c) (HardenStoreAddr c) (HardenFixedAddressRBP c) m ∅ false);
    if decide (None ∈ w_hardened w ∪ DummyInstr c) then mret None
    else
      eraseAllInstrs (order (w_hardened w)) ;;
      eraseAllInstrs (order (DummyInstr c ∖ w_hardened w)) ;;
      mret (Some w).

End Slh.
