(* ===== verification/SlhSteps.v ===== *)
(** * Steps of the hardening pass

    [StepInv] is what an invariant of the block under construction has to survive: a new
    register, a new instruction at a permitted place, a changed operand of the current
    instruction, a new predicate state.  Every function that hardens an instruction then
    keeps it.  The first instance says that a block only grows around the current
    instruction. *)
From stdpp Require Import base countable gmap sets list option strings.
From Stdlib Require Import ZArith Lia.
From S2P Require Import Prelude Machine Slh.

Definition keeps (I : MState -> Prop) {A} (m : SM A) : Prop := forall s, I s -> I (m s).2.

Class StepInv (MI : positive) (pts : option positive -> Prop) (I : MState -> Prop) := {
  si_create rc : keeps I (createVirtualRegister rc);
  si_build pt i : pts pt -> asmString i = None -> keeps I (BuildMI pt i);
  si_operand k r : keeps I (setOperandReg MI k r);
  si_state PoisonReg pt r ns : pts pt -> keeps I (updateState PoisonReg pt r ns);
  si_here : pts (Some MI) }.

Section Keeps.
Variable I : MState -> Prop.

Lemma keeps_ret {A} (a : A) : keeps I (mret a).
Proof. by intros s. Qed.

Lemma keeps_bind {A B} (m : SM A) (f : A -> SM B) : keeps I m -> (forall a, keeps I (f a)) -> keeps I (m ≫= f).
Proof. intros Hm Hf s Hs. unfold mbind, SM_bind. specialize (Hm s Hs). destruct (m s) as [a s']. by apply Hf. Qed.

Lemma keeps_gets {A} (f : MState -> A) : keeps I (gets f).
Proof. by intros s. Qed.
End Keeps.

Create HintDb keeps discriminated.
#[export] Hint Resolve keeps_ret keeps_gets : keeps.
#[export] Hint Extern 1 (keeps _ (createVirtualRegister _)) => apply si_create : keeps.
#[export] Hint Extern 1 (keeps _ (setOperandReg _ _ _)) => apply si_operand : keeps.

(** Takes a step apart into the primitive ones. *)
Ltac keep :=
  repeat first
    [ progress intros
    | solve [eauto 4 with keeps]
    | match goal with
      | |- keeps _ (_ ≫= _) => apply keeps_bind
      | |- keeps _ (match ?x with _ => _ end) => destruct x eqn:?
      | |- keeps ?I (BuildMI _ _) =>
        let H := constr:(_ : StepInv _ _ I) in
        apply (si_build (StepInv := H)); [solve [assumption | apply (si_here (StepInv := H)) | auto with keeps]|
          solve [reflexivity | repeat case_match; reflexivity]]
      | |- keeps ?I (updateState _ _ _ _) =>
        let H := constr:(_ : StepInv _ _ I) in
        apply (si_state (StepInv := H)); solve [assumption | apply (si_here (StepInv := H)) | auto with keeps]
      end ].

Section KeepsSteps.
Context {orderInstrs : SetOrder positive}.
Variable T : TargetInfo.
Variable Opt : Options.
Variable liveInEFLAGS succ_empty : bool.
Context {MI : positive} {pts : option positive -> Prop} {I : MState -> Prop}.
Context {HI : StepInv MI pts I}.
Variable PoisonReg : reg.
Lemma keeps_saveIfLive pt : pts pt -> keeps I (saveIfLive liveInEFLAGS pt).
Proof. intros Hpt. unfold saveIfLive, saveEFLAGS, isEFLAGSLive. keep. Qed.

Lemma keeps_restoreIf pt r : pts pt -> keeps I (restoreIf pt r).
Proof. intros Hpt. unfold restoreIf, restoreEFLAGS. keep. Qed.

Lemma keeps_narrowState pt rc : pts pt -> keeps I (narrowState T pt rc).
Proof. intros Hpt. unfold narrowState. keep. Qed.

#[local] Hint Resolve keeps_saveIfLive keeps_restoreIf keeps_narrowState : keeps.
#[local] Hint Extern 1 (pts (Some _)) => apply si_here : keeps.

Lemma keeps_hardenValueInRegister r pt : pts pt -> keeps I (hardenValueInRegister T liveInEFLAGS r pt).
Proof. intros Hpt. unfold hardenValueInRegister, getRegClass. keep. Qed.
#[local] Hint Resolve keeps_hardenValueInRegister : keeps.

Lemma keeps_hardenValueInCondition k : keeps I (hardenValueInCondition T liveInEFLAGS MI k).
Proof. unfold hardenValueInCondition, getRegClass, getOperand. keep. Qed.
#[local] Hint Resolve keeps_hardenValueInCondition : keeps.

Lemma keeps_mergeState fl a b c rc : keeps I (mergeState T (Some MI) fl a b c rc).
Proof. unfold mergeState, mergeVector. keep. Qed.
#[local] Hint Resolve keeps_mergeState : keeps.

Lemma keeps_hardenOps fl st ops m : keeps I (hardenOps T MI fl st ops m).
Proof. revert m. induction ops as [|k ops IH]; intros m; simpl; [apply keeps_ret|]. unfold getRegClass, getOperand. keep. Qed.

Lemma keeps_reuseChecked ops m : keeps I (reuseChecked MI ops m).
Proof. induction ops as [|k ops IH]; simpl; [apply keeps_ret|]. unfold getOperand. keep. Qed.
#[local] Hint Resolve keeps_hardenOps keeps_reuseChecked : keeps.

Lemma keeps_hardenLoadAddr k m : keeps I (hardenLoadAddr T liveInEFLAGS MI k m).
Proof. unfold hardenLoadAddr, isEFLAGSLive, getOperand, saveEFLAGS. keep. Qed.

Lemma keeps_hardenFixedAddress sp : keeps I (hardenFixedAddress liveInEFLAGS MI sp).
Proof. unfold hardenFixedAddress. keep. Qed.

Lemma keeps_hardenStoreOps n k a b : keeps I (hardenStoreOps T liveInEFLAGS MI n k a b).
Proof.
  revert k a. induction n as [|n IH]; intros k a; simpl; [apply keeps_ret|].
  unfold getOperand, canHardenRegister, getRegClass. keep.
Qed.
#[local] Hint Resolve keeps_hardenStoreOps keeps_hardenFixedAddress keeps_hardenLoadAddr : keeps.

Lemma keeps_hardenStore : keeps I (hardenStore T liveInEFLAGS MI).
Proof. unfold hardenStore, canHardenRegister, getRegClass. keep. Qed.

Lemma keeps_mergePredStateIntoSP r : keeps I (mergePredStateIntoSP (Some MI) r).
Proof. unfold mergePredStateIntoSP. keep. Qed.

Lemma keeps_extractPredStateFromSP pt : pts pt -> keeps I (extractPredStateFromSP T pt).
Proof. intros Hpt. unfold extractPredStateFromSP. keep. Qed.
#[local] Hint Resolve keeps_hardenStore keeps_mergePredStateIntoSP keeps_extractPredStateFromSP : keeps.

Lemma keeps_checkReturn pt e : pts pt -> keeps I (checkReturn T PoisonReg pt e).
Proof. intros Hpt. unfold checkReturn. keep. Qed.

Lemma keeps_hardenIndirect m : keeps I (hardenIndirectCallOrJumpInstr T liveInEFLAGS MI m).
Proof. unfold hardenIndirectCallOrJumpInstr, getOperand. keep. Qed.

Lemma keeps_singleUse l r H o : keeps I (singleUse T l r H o).
Proof. revert o. induction l as [|x l IH]; intros o; simpl; [apply keeps_ret|]. unfold canHardenRegister, getRegClass. keep. Qed.
#[local] Hint Resolve keeps_checkReturn keeps_hardenIndirect keeps_singleUse : keeps.

Lemma keeps_sink fuel x H : keeps I (sinkPostLoadHardenedInst T fuel x H).
Proof. revert x. induction fuel as [|n IH]; intros x; simpl; [apply keeps_ret|]. keep. Qed.
#[local] Hint Resolve keeps_sink : keeps.
End KeepsSteps.

#[export] Hint Resolve keeps_saveIfLive keeps_restoreIf keeps_narrowState keeps_hardenValueInRegister
  keeps_hardenStore keeps_hardenFixedAddress keeps_hardenLoadAddr keeps_mergePredStateIntoSP
  keeps_checkReturn keeps_hardenIndirect keeps_sink : keeps.

(** ** A block grows around the current instruction *)
Section Around.
Variable n0 MI : positive.
Variable l1 l2 : list positive.
Variable s0 : MState.
(** Nothing was inserted after [MI] yet. *)
Variable front : bool.

(** What an instruction is, its operands apart. *)
Definition sig (i : MInstr) : MInstr := withOps [] i.

Record inv (s : MState) : Prop := {
  inv_body : around n0 MI l1 l2 (body s);
  inv_dup : NoDup (body s);
  inv_bound : forall x, x ∈ body s -> (x < nextInstr s)%positive;
  inv_n0 : (n0 <= nextInstr s)%positive;
  inv_old : forall x, (x < n0)%positive -> sig (instr x s) = sig (instr x s0);
  inv_new : forall x, (n0 <= x)%positive -> asmString (instr x s) = None;
  inv_next : front = true -> nextIn (body s) MI = head l2 }.

(** The insertion points: before [MI], and before what follows. *)
Definition at_pt (pt : option positive) : Prop := pt = Some MI \/ (front = false /\ pt = head l2).

Lemma instr_insert x i s b rc ni nr st y :
  instr y (MS (<[x := i]> (code s)) b rc ni nr st) = if decide (y = x) then i else instr y s.
Proof.
  unfold instr. simpl. case_decide as Hy; [subst; by rewrite lookup_insert_eq|by rewrite lookup_insert_ne].
Qed.

Lemma nextIn_insertBefore x b : x <> MI -> nextIn (insertBefore x (Some MI) b) MI = nextIn b MI.
Proof.
  intros Hx. induction b as [|y b IH]; simpl; [by rewrite decide_False|].
  destruct (decide (y = MI)) as [->|Hy].
  - rewrite decide_True by done. simpl. by rewrite decide_False, decide_True.
  - rewrite decide_False by congruence. simpl. by rewrite decide_False.
Qed.

Lemma keeps_BuildMI pt i : at_pt pt -> asmString i = None -> keeps inv (BuildMI pt i).
Proof.
  intros Hpt Hi s [Hb Hd Hx Hn Hold Hnew Hnext]. unfold BuildMI. simpl.
  assert (nextInstr s ∉ body s) as Hfresh by (intros Hin%Hx; lia).
  split; simpl.
  - apply around_insert; [done..| |done]. destruct Hpt as [|[_ ?]]; [by left|by right].
  - by apply around_NoDup_insert.
  - intros y [->|Hy%Hx]%elem_of_insertBefore; lia.
  - lia.
  - intros y Hy. rewrite instr_insert, decide_False by lia. by apply Hold.
  - intros y Hy. rewrite instr_insert. case_decide; [done|]. by apply Hnew.
  - intros Hf. destruct Hpt as [->|[? _]]; [|congruence]. rewrite nextIn_insertBefore; [by apply Hnext|].
    intros He. apply Hfresh. rewrite He. destruct Hb as (pre & post & -> & _). set_solver.
Qed.

(** A change of operands. *)
Definition operands_only (f : MInstr -> MInstr) : Prop := forall i, sig (f i) = sig i.

Lemma keeps_mapCode f : (forall x, operands_only (f x)) -> keeps inv (mapCode f).
Proof.
  intros Hf s [Hb Hd Hx Hn Hold Hnew Hnext]. unfold mapCode. simpl.
  assert (forall x, sig (instr x (MS (map_imap (fun x i => Some (f x i)) (code s)) (body s) (regClass s) (nextInstr s)
    (nextReg s) (stateReg s))) = sig (instr x s)) as Hsig.
  { intros x. unfold instr. simpl. rewrite map_lookup_imap. destruct (code s !! x); simpl; [apply Hf|done]. }
  split; simpl; try done.
  - intros x Hxn. rewrite Hsig. by apply Hold.
  - intros x Hxn. change (asmString (sig (instr x (MS (map_imap (fun x i => Some (f x i)) (code s)) (body s) (regClass s)
      (nextInstr s) (nextReg s) (stateReg s)))) = None). rewrite Hsig. by apply Hnew.
Qed.

Lemma keeps_updateInstr x f : operands_only f -> keeps inv (updateInstr x f).
Proof.
  intros Hf s [Hb Hd Hx Hn Hold Hnew Hnext]. unfold updateInstr. simpl.
  assert (forall y, sig (instr y (MS (alter f x (code s)) (body s) (regClass s) (nextInstr s) (nextReg s) (stateReg s))) =
    sig (instr y s)) as Hsig.
  { intros y. unfold instr. simpl. destruct (decide (x = y)) as [->|]; [|by rewrite lookup_alter_ne].
    rewrite lookup_alter_eq. destruct (code s !! y); simpl; [apply Hf|done]. }
  split; simpl; try done.
  - intros y Hy. rewrite Hsig. by apply Hold.
  - intros y Hy. change (asmString (sig (instr y (MS (alter f x (code s)) (body s) (regClass s) (nextInstr s) (nextReg s)
      (stateReg s)))) = None). rewrite Hsig. by apply Hnew.
Qed.

Lemma keeps_setOperandReg x k r : keeps inv (setOperandReg x k r).
Proof. apply keeps_updateInstr. by intros i. Qed.

#[export] Instance inv_StepInv : StepInv MI at_pt inv.
Proof.
  split.
  - intros rc s []. by split.
  - apply keeps_BuildMI.
  - apply keeps_setOperandReg.
  - intros P pt r ns Hpt. apply keeps_bind; [by apply keeps_BuildMI|]. intros _ s []. by split.
  - by left.
Qed.

Lemma keeps_rename f : keeps inv (mapCode (fun x i => mapOps (f x) i)).
Proof. apply keeps_mapCode. by intros x i. Qed.
End Around.

#[export] Hint Resolve keeps_rename inv_StepInv : keeps.

(** What a step does from the point it looks up, by the instance for [at_pt]. *)
Lemma keeps_create n0 MI l1 l2 s0 front rc : keeps (inv n0 MI l1 l2 s0 front) (createVirtualRegister rc).
Proof. apply (si_create (MI := MI) (pts := at_pt MI l2 front)). Qed.

Lemma keeps_operand n0 MI l1 l2 s0 front k r : keeps (inv n0 MI l1 l2 s0 front) (setOperandReg MI k r).
Proof. apply keeps_setOperandReg. Qed.
#[export] Hint Resolve keeps_create keeps_operand : keeps.
#[export] Hint Extern 1 (at_pt _ _ _ (Some _)) => left; reflexivity : keeps.
#[export] Hint Extern 1 (at_pt _ _ _ (head _)) => right; split; reflexivity : keeps.



(** Steps that insert after [MI], from the point they look up first. *)
Section Moves.
Context {orderInstrs : SetOrder positive} {orderNull : SetOrder (option positive)}.
Variable T : TargetInfo.
Variable Opt : Options.
Variable liveInEFLAGS succ_empty : bool.
Variable PoisonReg : reg.
Variable n0 MI : positive.
Variable l1 l2 : list positive.
Variable s0 : MState.
Abbreviation inv' := (inv n0 MI l1 l2 s0).
Abbreviation keeps' front := (keeps (inv n0 MI l1 l2 s0 front)).

Definition moves {A} (m : SM A) : Prop := forall s, inv' true s -> inv' false (m s).2.

Lemma inv_moves s : inv' true s -> inv' false s.
Proof. intros []. by split. Qed.

Lemma moves_keeps {A} (m : SM A) : keeps' false m -> moves m.
Proof. intros Hm s Hs. by apply Hm, inv_moves. Qed.

Lemma moves_front {A} (m : SM A) : keeps' true m -> moves m.
Proof. intros Hm s Hs. by apply inv_moves, Hm. Qed.

Lemma moves_bind {A B} (m : SM A) (f : A -> SM B) : keeps' true m -> (forall a, moves (f a)) -> moves (m ≫= f).
Proof. intros Hm Hf s Hs. unfold mbind, SM_bind. specialize (Hm s Hs). destruct (m s) as [a s']. by apply Hf. Qed.

Lemma moves_next {B} (f : option positive -> SM B) : moves (f (head l2)) -> moves (getNextNode MI ≫= f).
Proof.
  intros Hf s Hs. unfold getNextNode, gets, mbind, SM_bind. rewrite (inv_next _ _ _ _ _ _ _ Hs) by done. by apply Hf.
Qed.

Lemma moves_hardenPostLoad : moves (hardenPostLoad T liveInEFLAGS MI).
Proof.
  unfold hardenPostLoad, getOperand, getRegClass.
  repeat (apply moves_bind; [solve [auto with keeps]|intros]). apply moves_next, moves_keeps. keep.
Qed.

Lemma moves_hardenStandAloneGEP : moves (hardenStandAloneGEP T liveInEFLAGS MI).
Proof.
  unfold hardenStandAloneGEP, getOperand, getRegClass, getVRegDef.
  repeat (apply moves_bind; [solve [auto with keeps]|intros]). apply moves_next, moves_keeps. keep.
Qed.

Lemma moves_tracePredStateThroughCall : moves (tracePredStateThroughCall T Opt succ_empty PoisonReg MI).
Proof.
  unfold tracePredStateThroughCall. apply moves_bind; [eauto with keeps|intros i]. apply moves_next.
  destruct (FenceCallAndRet Opt); [apply moves_keeps; unfold LFENCE; keep|].
  apply moves_bind; [eauto with keeps|intros st]. apply moves_bind; [eauto with keeps|intros _].
  case_match; apply moves_keeps; unfold addressOf; keep.
Qed.
End Moves.

