(* ===== verification/SlhMarkers.v ===== *)
(** * The markers of the hardening pass

    The pass on a block whose markers come in pairs: the scan finds exactly the pairs, the
    walk over the block keeps neighbouring pairs together and recognises them, and at the
    end exactly the markers are gone. *)
From stdpp Require Import base countable gmap sets list option strings.
From Stdlib Require Import ZArith Lia.
From S2P Require Import Prelude Machine Slh SlhSteps.

(** *** Visiting one instruction *)
Section Visit.
Context {orderInstrs : SetOrder positive} {orderNull : SetOrder (option positive)}.
Variable T : TargetInfo.
Variable Opt : Options.
Variable liveInEFLAGS succ_empty : bool.
Variable PoisonReg : reg.
Variable n0 MI : positive.
Variable l1 l2 : list positive.
Variable s0 : MState.
(** The marker pairs still in the block. *)
Variable DP : list (positive * positive).

(** What can be on a list of the walk. *)
Definition active (i : MInstr) : bool := mayLoad i || mayStore i || isDataInvariant i.

Definition marked : gset (option positive) := list_to_set (DP ≫= fun '(b, e) => [Some b; Some e]).

Definition walk_ok (w : Walk) : Prop :=
  (forall x, x ∈ w_addr w ∪ w_post w ∪ w_store w ∪ w_fixed w -> (x < n0)%positive -> active (instr x s0) = true) /\
  w_hardened w ⊆ marked.

Hypothesis HDP : forall b e, (b, e) ∈ DP -> adjacent (l1 ++ MI :: l2) b e /\ b <> MI /\ e <> MI.
Hypothesis Hend : forall e, e ∈ l1 ++ MI :: l2 -> (e < n0)%positive -> isMarker DUMMY_AFTER (instr e s0) = true ->
  exists b, (b, e) ∈ DP.

Abbreviation inv' := (inv n0 MI l1 l2 s0).
Abbreviation keeps' front := (keeps (inv n0 MI l1 l2 s0 front)).
Abbreviation moves' := (moves n0 MI l1 l2 s0).

Lemma sig_marker m i j : sig i = sig j -> isMarker m i = isMarker m j.
Proof. intros Hs. unfold isMarker. change (asmString i) with (asmString (sig i)). by rewrite Hs. Qed.

Lemma sig_active i j : sig i = sig j -> active i = active j.
Proof. intros Hs. change (active i) with (active (sig i)). by rewrite Hs. Qed.

Lemma elem_of_marked b e : (b, e) ∈ DP -> Some b ∈ marked /\ Some e ∈ marked.
Proof.
  intros Hin. unfold marked. rewrite !elem_of_list_to_set, !list_elem_of_bind.
  split; exists (b, e); split; [left|done|right; left|done].
Qed.

(** An end marker before the instruction is the second of a pair. *)
Lemma prefixed_pair front s :
  inv' front s -> (isPrefixedByDummies MI s).1 = true ->
  exists b e, (b, e) ∈ DP /\ prevIn (body s) MI None = Some e /\ prevIn (body s) e None = Some b.
Proof.
  intros [Hb Hd Hx Hn Hold Hnew _]. unfold isPrefixedByDummies, getPrevNode, gets, mbind, SM_bind. simpl.
  destruct (prevIn (body s) MI None) as [e|] eqn:He; [|done]. simpl. intros Hm.
  assert (e < n0)%positive as Hlt.
  { destruct (decide (e < n0)%positive) as [|Hge]; [done|]. unfold isMarker in Hm. rewrite (Hnew e) in Hm by lia. done. }
  assert (e ∈ l1 ++ MI :: l2) as Hin.
  { assert (e ∈ filter (fun x => x < n0)%positive (body s)) as Hf.
    { apply list_elem_of_filter. split; [done|]. apply prevIn_adjacent in He; [|done]. destruct He as [[? _]|Ha]; [done|].
      by apply adjacent_elem in Ha as [? _]. }
    rewrite (around_old _ _ _ _ _ Hb) in Hf. by apply list_elem_of_filter in Hf as [_ ?]. }
  rewrite (sig_marker _ _ _ (Hold e Hlt)) in Hm. destruct (Hend e Hin Hlt Hm) as [b Hbe].
  exists b, e. split_and!; [done..|]. destruct (HDP b e Hbe) as (Ha & Hb1 & He1).
  apply prevIn_adjacent; [done|]. right. by eapply around_adjacent.
Qed.

Definition okm (front front' : bool) (m : SM Walk) : Prop :=
  forall s, inv' front s -> inv' front' (m s).2 /\ walk_ok (m s).1.

Lemma okm_ret front w : walk_ok w -> okm front front (mret w).
Proof. by intros Hw s Hs. Qed.

Lemma okm_weaken m : okm true true m -> okm true false m.
Proof. intros Hm s Hs. destruct (Hm s Hs). split; [by apply inv_moves|done]. Qed.

Lemma okm_bind front f' (m : SM Walk) k :
  okm front front m -> (forall w, walk_ok w -> okm front f' (k w)) -> okm front f' (m ≫= k).
Proof.
  intros Hm Hk s Hs. unfold mbind, SM_bind. destruct (Hm s Hs) as [H1 H2]. destruct (m s) as [w s']. by apply Hk.
Qed.

Lemma okm_keeps {A} front f' (m : SM A) k : keeps' front m -> (forall a, okm front f' (k a)) -> okm front f' (m ≫= k).
Proof. intros Hm Hk s Hs. unfold mbind, SM_bind. specialize (Hm s Hs). destruct (m s) as [a s']. by apply Hk. Qed.

Lemma okm_result {A} front f' (Q : A -> Prop) (m : SM A) k :
  (forall s, inv' front s -> inv' front (m s).2 /\ Q (m s).1) -> (forall a, Q a -> okm front f' (k a)) -> okm front f' (m ≫= k).
Proof.
  intros Hm Hk s Hs. unfold mbind, SM_bind. destruct (Hm s Hs) as [H1 H2]. destruct (m s) as [a s']. by apply Hk.
Qed.

Lemma okm_moves {A} (m : SM A) k : moves' m -> (forall a, okm false false (k a)) -> okm true false (m ≫= k).
Proof. intros Hm Hk s Hs. unfold mbind, SM_bind. specialize (Hm s Hs). destruct (m s) as [a s']. by apply Hk. Qed.

Lemma okm_markAsProtected front w : walk_ok w -> okm front front (markAsProtected MI w).
Proof.
  intros [Hsets Hh] s Hs. unfold markAsProtected, mbind, SM_bind.
  pose proof (prefixed_pair front s Hs) as Hp.
  assert ((isPrefixedByDummies MI s).2 = s) as Heq.
  { unfold isPrefixedByDummies, getPrevNode, gets, mbind, SM_bind. simpl. by destruct (prevIn (body s) MI None). }
  destruct (isPrefixedByDummies MI s) as [b s'] eqn:Hb. simpl in Heq, Hp. subst s'.
  destruct b; simpl; [|by split].
  destruct (Hp eq_refl) as (b & e & Hbe & He & Hb'). unfold getPrevNode, gets. simpl. rewrite He. simpl. rewrite Hb'.
  split; [done|]. split; [exact Hsets|]. simpl. destruct (elem_of_marked b e Hbe). set_solver.
Qed.

Lemma walk_ok_regs m w : walk_ok w -> walk_ok (w_set_regs m w).
Proof. done. Qed.
Lemma walk_ok_drop_addr x w : walk_ok w -> walk_ok (w_drop_addr x w).
Proof. intros [Hs Hh]. split; [|done]. simpl. intros y Hy. apply Hs. set_solver. Qed.
Lemma walk_ok_drop_store x w : walk_ok w -> walk_ok (w_drop_store x w).
Proof. intros [Hs Hh]. split; [|done]. simpl. intros y Hy. apply Hs. set_solver. Qed.
Lemma walk_ok_drop_fixed x w : walk_ok w -> walk_ok (w_drop_fixed x w).
Proof. intros [Hs Hh]. split; [|done]. simpl. intros y Hy. apply Hs. set_solver. Qed.
Lemma walk_ok_rsp w : walk_ok w -> walk_ok (w_set_rsp w).
Proof. done. Qed.
Lemma walk_ok_post p w :
  walk_ok w -> (forall x, x ∈ p -> x ∈ w_post w \/ ((x < n0)%positive -> active (instr x s0) = true)) -> walk_ok (w_set_post p w).
Proof.
  intros [Hs Hh] Hp. split; [|done]. simpl. intros y Hy Hlt.
  destruct (decide (y ∈ p)) as [Hin|Hin]; [|apply Hs; [set_solver|done]].
  destruct (Hp y Hin) as [?|Hact]; [apply Hs; [set_solver|done]|by apply Hact].
Qed.

#[local] Hint Resolve okm_ret walk_ok_regs walk_ok_drop_addr walk_ok_drop_store walk_ok_drop_fixed walk_ok_rsp
  okm_markAsProtected : keeps.

Lemma keeps_isPrefixed front : keeps' front (isPrefixedByDummies MI).
Proof. unfold isPrefixedByDummies, getPrevNode. keep. Qed.
#[local] Hint Resolve keeps_isPrefixed : keeps.

Lemma okm_visitAddr w : walk_ok w -> okm true true (visitAddr T Opt liveInEFLAGS MI w).
Proof.
  intros Hw. unfold visitAddr. apply okm_keeps; [eauto 4 with keeps|intros p].
  destruct (filtered Opt MI p _); [eauto 4 with keeps|]. apply okm_bind; [eauto 4 with keeps|intros w' Hw'].
  case_decide; (apply okm_keeps; [eauto 4 with keeps|intros a]); [eauto 4 with keeps|].
  destruct (memoryOperandNo a); [|eauto 4 with keeps]. apply okm_keeps; eauto 4 with keeps.
Qed.

Lemma okm_visitFixed w : walk_ok w -> okm true true (visitFixed liveInEFLAGS MI w).
Proof.
  intros Hw. unfold visitFixed. case_decide; [|eauto 4 with keeps].
  apply okm_bind; [eauto 4 with keeps|intros w' Hw']. apply okm_keeps; eauto 4 with keeps.
Qed.

Lemma okm_visitStore w : walk_ok w -> okm true true (visitStore T liveInEFLAGS MI w).
Proof.
  intros Hw. unfold visitStore. case_decide; [|eauto 4 with keeps].
  apply okm_bind; [eauto 4 with keeps|intros w' Hw']. apply okm_keeps; [eauto 4 with keeps|intros a].
  destruct (negb a && _); [apply okm_keeps|]; eauto 4 with keeps.
Qed.

Lemma okm_visitIndirect w : walk_ok w -> okm true true (visitIndirect T Opt liveInEFLAGS MI w).
Proof.
  intros Hw. unfold visitIndirect. apply okm_keeps; [eauto 4 with keeps|intros i].
  case_match; [|eauto 4 with keeps]. apply okm_keeps; eauto 4 with keeps.
Qed.

Lemma moves_visitInterprocedural : moves' (visitInterprocedural T Opt succ_empty PoisonReg MI).
Proof.
  unfold visitInterprocedural. apply moves_bind; [eauto 4 with keeps|intros i].
  destruct (HardenInterprocedurally Opt); cbn [negb]; [|apply moves_keeps; eauto 4 with keeps].
  destruct (negb (isCall i) && negb (isReturn i)); [apply moves_keeps; eauto 4 with keeps|].
  destruct (isReturn i && negb (isCall i)); [|apply moves_tracePredStateThroughCall].
  apply moves_keeps. unfold hardenReturnInstr. keep.
Qed.

(** What the sinking stops at can be on a list. *)
Lemma singleUse_active front uses r H o s x :
  inv' front s -> (forall y, o = Some y -> (y < n0)%positive -> active (instr y s0) = true) ->
  (singleUse T uses r H o s).1 = Some (Some x) -> (x < n0)%positive -> active (instr x s0) = true.
Proof.
  intros Hs. revert o. induction uses as [|y uses IH]; intros o Ho; simpl.
  - intros [= ->]. by apply Ho.
  - unfold mbind, SM_bind, gets, canHardenRegister, getRegClass, gets, mbind, SM_bind. simpl.
    case_decide as HyH.
    + case_match; [by apply IH|]. destruct (memoryOperandNo (instr y s)) as [k|]; [|by apply IH].
      case_match; [done|by apply IH].
    + case_match; [done|]. destruct (isDataInvariant (instr y s)) eqn:Hy; cbn [negb orb]; [|done].
      case_match; [done|]. case_match; [done|]. case_match; [done|]. apply IH. intros z [= ->] Hz.
      rewrite <- (sig_active _ _ (inv_old _ _ _ _ _ _ _ Hs z Hz)). unfold active. rewrite Hy. by rewrite !orb_true_r.
Qed.

(** Looking for uses changes nothing. *)
Lemma singleUse_state uses r H o s : (singleUse T uses r H o s).2 = s.
Proof.
  revert o. induction uses as [|y uses IH]; intros o; simpl; [done|].
  unfold mbind, SM_bind, gets, canHardenRegister, getRegClass, gets, mbind, SM_bind. simpl.
  repeat case_match; simplify_eq; try done; by rewrite ?IH.
Qed.

Lemma sink_active front fuel H s x y :
  inv' front s -> ((x < n0)%positive -> active (instr x s0) = true) ->
  (sinkPostLoadHardenedInst T fuel x H s).1 = Some y -> y = x \/ ((y < n0)%positive -> active (instr y s0) = true).
Proof.
  intros Hs. revert x. induction fuel as [|n IH]; intros x Hx; cbn [sinkPostLoadHardenedInst].
  - intros [= ->]. by left.
  - unfold gets, mbind, SM_bind. set (r := getReg _). set (us := use_instructions r s).
    pose proof (singleUse_active front us r H None s) as Ha. pose proof (singleUse_state us r H None s) as Hst.
    destruct (singleUse T us r H None s) as [[[z|]|] s']; simpl in *; subst s'; intros Hy.
    + right. intros Hlt. destruct (IH z) as [->|Hz]; [by apply Ha|exact Hy| |by apply Hz]. by apply (Ha z).
    + done.
    + injection Hy as ->. by left.
Qed.

Lemma okm_visitPost fuel w :
  walk_ok w -> MI ∈ w_post w -> okm true false (visitPost T liveInEFLAGS fuel MI w).
Proof.
  intros Hw HMI. unfold visitPost. apply okm_keeps; [eauto 4 with keeps|intros i].
  set (w1 := w_drop_store MI (w_set_post (w_post w ∖ {[MI]}) w)).
  assert (walk_ok w1) as Hw1.
  { apply walk_ok_drop_store, walk_ok_post; [done|]. intros x Hx. left. set_solver. }
  apply okm_result with (fun o => forall y, o = Some y -> y = MI \/ ((y < n0)%positive -> active (instr y s0) = true)).
  - intros s Hs. split.
    + assert (keeps' true (if isDataInvariantLoad i && negb (isEFLAGSDefLive i)
        then sinkPostLoadHardenedInst T fuel MI (w_post w1) else mret (Some MI))) as Hk by (case_match; eauto 4 with keeps).
      by apply Hk.
    + intros y. case_match; [|intros [= ->]; by left].
      eapply (sink_active true fuel (w_post w1) s MI); [done|]. intros Hlt. apply Hw; [set_solver|done].
  - intros [x|] Hx; [|by apply okm_weaken, okm_ret]. case_decide as Hxm.
    + apply okm_moves; [apply moves_hardenPostLoad|]. eauto 4 with keeps.
    + apply okm_weaken, okm_ret, walk_ok_post; [done|]. intros y [->%elem_of_singleton|Hy]%elem_of_union; [|by left].
      right. by destruct (Hx x eq_refl).
Qed.

Lemma okm_visitInstr fuel w :
  walk_ok w -> okm true false (visitInstr T Opt liveInEFLAGS succ_empty PoisonReg fuel MI w).
Proof.
  intros Hw. unfold visitInstr.
  assert (forall w, walk_ok w -> okm true false (visitInterprocedural T Opt succ_empty PoisonReg MI ;; mret w)) as Hip.
  { intros w' Hw'. apply okm_moves; [apply moves_visitInterprocedural|]. eauto 4 with keeps. }
  destruct (HardenLoads Opt); [|by apply Hip].
  case_decide; [by apply okm_weaken, okm_visitAddr|]. case_decide; [by apply okm_visitPost|].
  apply okm_bind; [by apply okm_visitFixed|intros w1 Hw1]. apply okm_bind; [by apply okm_visitStore|intros w2 Hw2].
  apply okm_bind; [by apply okm_visitIndirect|intros w3 Hw3]. by apply Hip.
Qed.
End Visit.

(** *** The walk over a block *)
Section Block.
Context {orderInstrs : SetOrder positive} {orderNull : SetOrder (option positive)}.
Variable T : TargetInfo.
Variable Opt : Options.
Variable liveInEFLAGS succ_empty : bool.
Variable PoisonReg : reg.
Variable n0 : positive.
Variable s0 : MState.
Variable DP : list (positive * positive).

Definition aMarker (i : MInstr) : bool := isMarker DUMMY_BEFORE i || isMarker DUMMY_AFTER i.

(** The markers are inline assembly without memory accesses, flow or data flow. *)
Definition quietMarker (i : MInstr) : bool := negb (active i) && negb (isCall i || isBranch i || isReturn i).

Hypothesis HDP : forall b e, (b, e) ∈ DP ->
  (b < n0)%positive /\ (e < n0)%positive /\ aMarker (instr b s0) = true /\ aMarker (instr e s0) = true.
Hypothesis Hquiet : forall x, (x < n0)%positive -> aMarker (instr x s0) = true -> quietMarker (instr x s0) = true.

(** The block during the walk: [L] are the instructions it had at its start. *)
Record block_inv (L : list positive) (s : MState) : Prop := {
  bi_dup : NoDup (body s);
  bi_bound : forall x, x ∈ body s -> (x < nextInstr s)%positive;
  bi_n0 : (n0 <= nextInstr s)%positive;
  bi_sig : forall x, (x < n0)%positive -> sig (instr x s) = sig (instr x s0);
  bi_new : forall x, (n0 <= x)%positive -> asmString (instr x s) = None;
  bi_old : filter (fun x => x < n0)%positive (body s) = L;
  bi_pairs : forall b e, (b, e) ∈ DP -> adjacent (body s) b e }.

Lemma block_inv_enter L s MI l1 l2 :
  block_inv L s -> body s = l1 ++ MI :: l2 -> inv n0 MI l1 l2 s0 true s.
Proof using Type.
  clear Hquiet HDP. intros [Hd Hb Hn Hs Hnew Hold Hp] Heq. split; try done.
  - rewrite Heq. apply around_start.
  - intros _. rewrite Heq in Hd |- *. by apply nextIn_split.
Qed.

Lemma block_inv_leave L s s' MI l1 l2 :
  block_inv L s -> body s = l1 ++ MI :: l2 -> (forall b e, (b, e) ∈ DP -> b <> MI /\ e <> MI) ->
  inv n0 MI l1 l2 s0 false s' -> block_inv L s'.
Proof using Type.
  clear Hquiet HDP. intros [Hd Hb Hn Hs Hnew Hold Hp] Heq Hne [Hb' Hd' Hx' Hn' Hold' Hnew' _]. split; try done.
  - rewrite (around_old _ _ _ _ _ Hb'), <- Heq. done.
  - intros b e Hbe. destruct (Hne b e Hbe). eapply around_adjacent; [done| |done..]. rewrite <- Heq. by apply Hp.
Qed.

Lemma sig_aMarker i j : sig i = sig j -> aMarker i = aMarker j.
Proof using Type. clear. intros Hs. unfold aMarker. by rewrite (sig_marker _ _ _ Hs), (sig_marker DUMMY_AFTER _ _ Hs). Qed.

Lemma sig_quiet i j : sig i = sig j -> quietMarker i = quietMarker j.
Proof using Type. clear. intros Hs. change (quietMarker i) with (quietMarker (sig i)). by rewrite Hs. Qed.

(** Every end marker left closes a pair. *)
Definition ends_paired (L : list positive) : Prop :=
  forall e, e ∈ L -> isMarker DUMMY_AFTER (instr e s0) = true -> exists b, (b, e) ∈ DP.

(** A marker is skipped. *)
Lemma visitInstr_marker fuel MI w L s :
  block_inv L s -> walk_ok n0 s0 DP w -> (MI < n0)%positive -> aMarker (instr MI s0) = true ->
  visitInstr T Opt liveInEFLAGS succ_empty PoisonReg fuel MI w s = (w, s).
Proof.
  intros Hs [Hw _] Hlt Hm. pose proof (Hquiet MI Hlt Hm) as Hq. pose proof Hq as Hq'.
  apply andb_true_iff in Hq as [Hact%negb_true_iff _].
  assert (MI ∉ w_addr w ∪ w_post w ∪ w_store w ∪ w_fixed w) as Hn by (intros Hin; specialize (Hw MI Hin Hlt); congruence).
  rewrite <- (sig_quiet _ _ (bi_sig _ _ Hs MI Hlt)) in Hq'. unfold quietMarker in Hq'.
  apply andb_true_iff in Hq' as [_ Hf%negb_true_iff]. rewrite !orb_false_iff in Hf. destruct Hf as [[Hc Hbr] Hr].
  assert (visitInterprocedural T Opt succ_empty PoisonReg MI s = (tt, s)) as Hip.
  { unfold visitInterprocedural, gets, mbind, SM_bind. rewrite Hc, Hr. by destruct (HardenInterprocedurally Opt). }
  unfold visitInstr. rewrite !decide_False by set_solver. unfold visitFixed, visitStore. rewrite !decide_False by set_solver.
  destruct (HardenLoads Opt); unfold mbind, SM_bind, mret, SM_ret; simpl.
  - rewrite decide_False by set_solver. unfold visitIndirect, gets, mbind, SM_bind. rewrite Hc, Hbr. simpl. by rewrite Hip.
  - by rewrite Hip.
Qed.

Lemma split_unique (a b c d : list positive) x :
  a ++ x :: b = c ++ x :: d -> NoDup (a ++ x :: b) -> a = c /\ b = d.
Proof using Type.
  clear. revert c. induction a as [|y a IH]; intros [|z c]; simpl; intros [= ->] Hd; [done|..].
  - subst b. exfalso. apply NoDup_cons in Hd as [Hx _]. set_solver.
  - exfalso. apply NoDup_cons in Hd as [Hx _]. set_solver.
  - apply NoDup_cons in Hd as [_ Hd]. by destruct (IH c) as [-> ->].
Qed.

Lemma inv_grows MI l1 l2 front s s' :
  inv n0 MI l1 l2 s0 front s' -> body s = l1 ++ MI :: l2 -> forall x, x ∈ body s -> x ∈ body s'.
Proof using Type.
  clear. intros [(pre & post & Hb & _) _ _ _ _ _ _] Heq x. rewrite Heq, Hb. set_solver.
Qed.

Lemma visitInstr_block fuel MI w L s :
  block_inv L s -> ends_paired L -> walk_ok n0 s0 DP w -> MI ∈ body s ->
  let r := visitInstr T Opt liveInEFLAGS succ_empty PoisonReg fuel MI w s in
  block_inv L r.2 /\ walk_ok n0 s0 DP r.1 /\ (forall x, x ∈ body s -> x ∈ body r.2) /\
  forall l1 l2, body s = l1 ++ MI :: l2 -> exists l1', body r.2 = l1' ++ l2.
Proof.
  intros Hs He Hw Hin r. destruct (decide ((MI < n0)%positive /\ aMarker (instr MI s0) = true)) as [[Hlt Hm]|Hm].
  { unfold r. rewrite (visitInstr_marker fuel MI w L) by done. split_and!; [done..|]. intros l1 l2 Heq.
    exists (l1 ++ [MI]). cbn [snd]. rewrite Heq. by list_simplifier. }
  pose proof Hin as (l1 & l2 & Heq)%list_elem_of_split. pose proof (block_inv_enter L s MI l1 l2 Hs Heq) as Hinv.
  assert (forall b e, (b, e) ∈ DP -> b <> MI /\ e <> MI) as Hne.
  { intros b e Hbe. destruct (HDP b e Hbe) as (? & ? & Hb & He'). split; intros ->; by apply Hm. }
  destruct (okm_visitInstr T Opt liveInEFLAGS succ_empty PoisonReg n0 MI l1 l2 s0 DP) with (fuel := fuel) (w := w) (s := s)
    as [H1 H2]; [| |done|done|].
  - intros b e Hbe. rewrite <- Heq. split; [by apply (bi_pairs _ _ Hs)|by apply Hne].
  - intros e Hin' Hlt' Hme. rewrite <- Heq in Hin'. apply (He e); [|done]. rewrite <- (bi_old _ _ Hs).
    by apply list_elem_of_filter.
  - split_and!; [by eapply block_inv_leave|done|by eapply inv_grows|]. intros l1' l2' Heq'.
    destruct (split_unique l1 l2 l1' l2' MI) as [-> ->]; [by rewrite <- Heq, <- Heq'|rewrite <- Heq; apply Hs|].
    destruct (inv_body _ _ _ _ _ _ _ H1) as (a & b & Hb & _). fold r in Hb. exists (l1' ++ a ++ MI :: b). rewrite Hb.
    by list_simplifier.
Qed.

Lemma walkBlock_ok fuel l w L s :
  block_inv L s -> ends_paired L -> walk_ok n0 s0 DP w -> (forall x, x ∈ l -> x ∈ body s) ->
  let r := walkBlock T Opt liveInEFLAGS succ_empty PoisonReg fuel l w s in
  block_inv L r.2 /\ walk_ok n0 s0 DP r.1.
Proof.
  revert w s. induction l as [|MI l IH]; intros w s Hs He Hw Hl; cbn [walkBlock]; [done|].
  destruct (visitInstr_block fuel MI w L s Hs He Hw) as (H1 & H2 & H3 & _); [apply Hl; left|]. unfold mbind, SM_bind.
  destruct (visitInstr _ _ _ _ _ _ _ _ _) as [w' s']. apply IH; [done..|]. intros x Hx. apply H3, Hl. by right.
Qed.

(** The stand-alone computations are hardened in place. *)
Lemma hardenGEPs_ok l m L s :
  block_inv L s -> (forall x, x ∈ l -> x ∈ L) -> (forall b e, (b, e) ∈ DP -> b ∉ l /\ e ∉ l) ->
  block_inv L (hardenGEPs T liveInEFLAGS l m s).2.
Proof using Type.
  clear Hquiet HDP.
  revert m s. induction l as [|MI l IH]; intros m s Hs Hl Hne; cbn [hardenGEPs]; [done|].
  assert (MI ∈ L) as Hin by (apply Hl; left). rewrite <- (bi_old _ _ Hs) in Hin. apply list_elem_of_filter in Hin as [Hlt Hin].
  apply list_elem_of_split in Hin as (l1 & l2 & Heq). pose proof (block_inv_enter L s MI l1 l2 Hs Heq) as Hinv.
  pose proof (moves_hardenStandAloneGEP T liveInEFLAGS n0 MI l1 l2 s0 s Hinv) as Hinv'. unfold mbind, SM_bind.
  destruct (hardenStandAloneGEP T liveInEFLAGS MI s) as [r s']. apply IH; [|set_solver|].
  - eapply block_inv_leave; [exact Hs|done| |exact Hinv']. intros b e Hbe. destruct (Hne b e Hbe). set_solver.
  - intros b e Hbe. destruct (Hne b e Hbe). set_solver.
Qed.

Lemma eraseAllInstrs_body l s :
  (eraseAllInstrs l s).2 =
  MS (code s) (filter (fun x => Some x ∉ l) (body s)) (regClass s) (nextInstr s) (nextReg s) (stateReg s).
Proof using Type.
  clear. unfold eraseAllInstrs. revert s. induction l as [|o l IH]; intros s; simpl.
  - rewrite filter_all; [by destruct s|]. intros x _ Hx. by apply elem_of_nil in Hx.
  - unfold mbind, SM_bind. destruct o as [y|]; simpl; rewrite IH; simpl; f_equal.
    + rewrite list_filter_filter. apply list_filter_iff. intros x. rewrite elem_of_cons. naive_solver.
    + apply list_filter_iff. intros x. rewrite elem_of_cons. naive_solver.
Qed.
End Block.

(** ** The scan and the markers *)
Section ScanLemmas.
Variable T : TargetInfo.
Variable Opt : Options.
Variable s : MState.

(** A block of marker pairs and other instructions. *)
Inductive seg :=
| Plain (x : positive)
| Pair (b : positive) (mid : list positive) (e : positive).

Definition flat (g : seg) : list positive :=
  match g with Plain x => [x] | Pair b mid e => b :: mid ++ [e] end.

Definition seg_ok (g : seg) : Prop :=
  match g with
  | Plain x => aMarker (instr x s) = false
  | Pair b mid e => isMarker DUMMY_BEFORE (instr b s) = true /\ isMarker DUMMY_AFTER (instr e s) = true /\
                    forall x, x ∈ mid -> aMarker (instr x s) = false
  end.

(** The pairs around nothing, and the others. *)
Definition emptyPair (g : seg) : list (positive * positive) := match g with Pair b [] e => [(b, e)] | _ => [] end.
Definition fullPair (g : seg) : list (positive * positive) := match g with Pair b (_ :: _) e => [(b, e)] | _ => [] end.

(** The last instruction of a list that is not debug information. *)
Definition lastReal (l : list positive) : option positive :=
  last (filter (fun x => isDebugInstr (instr x s) = false) l).
Definition segGEP (g : seg) : gset positive :=
  match g with Pair b mid e => match lastReal mid with Some x => {[x]} | None => ∅ end | _ => ∅ end.

Definition someSet (l : list (positive * positive)) : gset (option positive) :=
  list_to_set (l ≫= fun '(b, e) => [Some b; Some e]).

(** What the scan knows about markers. *)
Definition marks (c : Scan) := (DummyInstr c, StandAloneGEPDummyInstr c, HardenStandAloneGEP c).

Lemma marks_propagate i c : marks (propagateDep i c) = marks c.
Proof. unfold propagateDep. by case_match. Qed.

Lemma marks_access MI i c : marks (scanAccess T Opt s MI i c) = marks c.
Proof.
  unfold scanAccess, scanAddress, withFixed, withPostLoad, withAddr.
  repeat case_match; done.
Qed.

Lemma scanMarker_other MI rest c : isMarker DUMMY_BEFORE (instr MI s) = false -> scanMarker s MI rest c = c.
Proof. intros Hm. unfold scanMarker. by rewrite Hm. Qed.

Definition no_fence (l : list positive) : Prop := forall x, x ∈ l -> opcode (instr x s) <> "LFENCE"%string.

(** Instructions that begin nothing. *)
Lemma scan_others l1 l2 c :
  (forall x, x ∈ l1 -> isMarker DUMMY_BEFORE (instr x s) = false) -> no_fence l1 ->
  exists c', scanBlock T Opt s (l1 ++ l2) c = scanBlock T Opt s l2 c' /\ marks c' = marks c.
Proof.
  revert c. induction l1 as [|x l1 IH]; intros c Hl Hf; [by exists c|]. cbn [scanBlock app].
  rewrite scanMarker_other by (apply Hl; left). rewrite bool_decide_false by (apply Hf; left).
  destruct (IH (scanAccess T Opt s x (instr x s) (propagateDep (instr x s) c))) as (c' & Hc & Hm).
  - intros y Hy. apply Hl. by right.
  - intros y Hy. apply Hf. by right.
  - exists c'. split; [done|]. by rewrite Hm, marks_access, marks_propagate.
Qed.

Lemma before_not_after i : isMarker DUMMY_BEFORE i = true -> isMarker DUMMY_AFTER i = false.
Proof.
  unfold isMarker. rewrite bool_decide_eq_true, bool_decide_eq_false. intros ->. discriminate.
Qed.

Lemma findAfter_spec mid e l n o :
  isMarker DUMMY_AFTER (instr e s) = true -> (forall x, x ∈ mid -> aMarker (instr x s) = false) ->
  findAfter s (mid ++ e :: l) n o =
    ((n + length mid)%nat, match lastReal mid with Some x => Some x | None => o end, Some e).
Proof.
  intros He. unfold lastReal. revert n o. induction mid as [|x mid IH]; intros n o Hm; cbn [findAfter app].
  - rewrite He. simpl. by rewrite Nat.add_0_r.
  - assert (aMarker (instr x s) = false) as Hx by (apply Hm; left).
    apply orb_false_iff in Hx as [_ ->]. rewrite IH by (intros y Hy; apply Hm; by right).
    replace (S n + length mid)%nat with (n + length (x :: mid))%nat by (simpl; lia). f_equal. f_equal. rewrite filter_cons. destruct (isDebugInstr (instr x s)).
    + by rewrite decide_False.
    + rewrite decide_True by done. rewrite last_cons. by destruct (last _).
Qed.

Lemma scan_pair b mid e rest c :
  isMarker DUMMY_BEFORE (instr b s) = true -> isMarker DUMMY_AFTER (instr e s) = true ->
  (forall x, x ∈ mid -> aMarker (instr x s) = false) ->
  let c1 := scanMarker s b ((mid ++ [e]) ++ rest) c in
  DummyInstr c1 = someSet (emptyPair (Pair b mid e)) ∪ DummyInstr c /\
  StandAloneGEPDummyInstr c1 = someSet (fullPair (Pair b mid e)) ∪ StandAloneGEPDummyInstr c /\
  HardenStandAloneGEP c1 = segGEP (Pair b mid e) ∪ HardenStandAloneGEP c.
Proof.
  intros Hb He Hmid c1. unfold c1, scanMarker. rewrite Hb, <- (assoc_L (++)). simpl app.
  rewrite (findAfter_spec mid e) by done. clear. unfold someSet, segGEP. destruct mid as [|x mid].
  - simpl. split_and!; [|by rewrite (left_id_L ∅ (∪))..]. by rewrite (right_id_L ∅ (∪)).
  - destruct (lastReal (x :: mid)) as [y|]; simpl; (split_and!; [by rewrite (left_id_L ∅ (∪))|by rewrite (right_id_L ∅ (∪))|]);
      by rewrite ?(left_id_L ∅ (∪)).
Qed.

Lemma scan_segs segs c :
  Forall seg_ok segs -> no_fence (segs ≫= flat) ->
  marks (scanBlock T Opt s (segs ≫= flat) c) =
    (someSet (segs ≫= emptyPair) ∪ DummyInstr c, someSet (segs ≫= fullPair) ∪ StandAloneGEPDummyInstr c,
     ⋃ (segGEP <$> segs) ∪ HardenStandAloneGEP c).
Proof.
  intros Hall. revert c. induction Hall as [|g segs Hg Hall IH]; intros c Hf.
  { simpl. unfold marks, someSet. simpl. by rewrite !(left_id_L ∅ (∪)). }
  assert (no_fence (segs ≫= flat)) as Hf' by (intros x Hx; apply Hf; simpl; set_solver).
  change ((g :: segs) ≫= flat) with (flat g ++ (segs ≫= flat)) in *.
  change ((g :: segs) ≫= emptyPair) with (emptyPair g ++ (segs ≫= emptyPair)).
  change ((g :: segs) ≫= fullPair) with (fullPair g ++ (segs ≫= fullPair)).
  rewrite fmap_cons, union_list_cons. unfold someSet. rewrite !bind_app, !list_to_set_app_L.
  destruct g as [x|b mid e].
  - destruct (scan_others [x] (segs ≫= flat) c) as (c' & Hc & Hm).
    + intros y ->%list_elem_of_singleton. by apply orb_false_iff in Hg as [? _].
    + intros y Hy. apply Hf. simpl. set_solver.
    + cbn [flat]. rewrite Hc, IH by done. unfold marks in Hm. injection Hm as -> -> ->.
      simpl. by rewrite !(left_id_L ∅ (∪)).
  - destruct Hg as (Hb & He & Hmid). cbn [flat]. change ((b :: mid ++ [e]) ++ (segs ≫= flat)) with (b :: (mid ++ [e]) ++ (segs ≫= flat)).
    cbn [scanBlock]. rewrite bool_decide_false by (apply Hf; left).
    set (c1 := scanMarker s b ((mid ++ [e]) ++ (segs ≫= flat)) c).
    destruct (scan_others (mid ++ [e]) (segs ≫= flat)
      (scanAccess T Opt s b (instr b s) (propagateDep (instr b s) c1))) as (c' & Hc & Hm).
    + intros y [Hy| ->%list_elem_of_singleton]%elem_of_app; [by apply Hmid, orb_false_iff in Hy as [? _]|].
      destruct (isMarker DUMMY_BEFORE (instr e s)) eqn:Hbe; [|done]. apply before_not_after in Hbe. congruence.
    + intros y Hy. apply Hf. simpl. set_solver.
    + rewrite Hc, IH by done. rewrite marks_access, marks_propagate in Hm.
      destruct (scan_pair b mid e (segs ≫= flat) c Hb He Hmid) as (H1 & H2 & H3). fold c1 in H1, H2, H3.
      unfold marks in Hm. injection Hm as -> -> ->. rewrite H1, H2, H3, !(assoc_L (∪)).
      unfold someSet. by rewrite (comm_L (∪) (list_to_set (_ ≫= _)) (list_to_set (emptyPair _ ≫= _))),
        (comm_L (∪) (list_to_set (_ ≫= _)) (list_to_set (fullPair _ ≫= _))), (comm_L (∪) (⋃ _) (segGEP _)).
Qed.

(** Only memory accesses are put on a list. *)
Definition on_lists (c : Scan) : gset positive :=
  HardenPostLoad c ∪ HardenLoadAddr c ∪ HardenStoreAddr c ∪ HardenFixedAddressRBP c.

Lemma on_lists_marker MI rest c : on_lists (scanMarker s MI rest c) = on_lists c.
Proof. unfold scanMarker. repeat case_match; done. Qed.

Lemma on_lists_propagate i c : on_lists (propagateDep i c) = on_lists c.
Proof. unfold propagateDep. by case_match. Qed.

Lemma on_lists_access MI i c :
  on_lists (scanAccess T Opt s MI i c) ⊆ on_lists c \/
  (active i = true /\ on_lists (scanAccess T Opt s MI i c) ⊆ {[MI]} ∪ on_lists c).
Proof.
  unfold scanAccess. destruct (negb (mayLoad i) && _) eqn:Hm; [by left|].
  case_match; [by left|]. right. split.
  { unfold active. apply andb_false_iff in Hm as [->%negb_false_iff|Hst%negb_false_iff]; [done|].
    apply andb_true_iff in Hst as [_ ->]. by rewrite orb_true_r. }
  clear. unfold on_lists, scanAddress, withFixed, withPostLoad, withAddr, withStore.
  repeat case_match; simpl; set_solver.
Qed.

Lemma scan_lists l c x :
  x ∈ on_lists (scanBlock T Opt s l c) -> x ∈ on_lists c \/ (x ∈ l /\ active (instr x s) = true).
Proof.
  revert c. induction l as [|y l IH]; intros c Hx; cbn [scanBlock] in Hx; [by left|].
  pose proof (on_lists_marker y l c) as Hm. pose proof (on_lists_propagate (instr y s) (scanMarker s y l c)) as Hp.
  revert Hx. case_match; [rewrite Hp, Hm; by left|]. intros [Hx|[Hx Ha]]%IH; [|right; split; [by right|done]].
  destruct (on_lists_access y (instr y s) (propagateDep (instr y s) (scanMarker s y l c))) as [Hs|[Hy Hs]];
    apply Hs in Hx; rewrite Hp, Hm in Hx; [by left|].
  apply elem_of_union in Hx as [->%elem_of_singleton|Hx]; [right; split; [left|done]|by left].
Qed.
End ScanLemmas.

(** ** The markers go, the program stays *)
Section Markers.
Context {orderInstrs : SetOrder positive} {orderNull : SetOrder (option positive)}.
Variable T : TargetInfo.
Variable Opt : Options.
Variable liveInEFLAGS succ_empty : bool.
Variable PoisonReg : reg.
Variable s : MState.
Variable segs : list seg.

(** A block as the pass finds it: each instruction once, no instruction at a new address. *)
Record block_wf : Prop := {
  wf_dup : NoDup (body s);
  wf_bound : forall x, x ∈ body s -> (x < nextInstr s)%positive;
  wf_new : forall x, (nextInstr s <= x)%positive -> code s !! x = None;
  wf_segs : body s = segs ≫= flat;
  wf_ok : Forall (seg_ok s) segs;
  wf_fence : no_fence s (body s);
  wf_quiet : forall x, aMarker (instr x s) = true -> quietMarker (instr x s) = true }.
Hypothesis Hwf : block_wf.

Abbreviation n0 := (nextInstr s).
Abbreviation D := (segs ≫= emptyPair).
Abbreviation F := (segs ≫= fullPair).

(** What a pair of one or the other kind is. *)
Lemma elem_of_someSet l o : o ∈ someSet l <-> exists b e, (b, e) ∈ l /\ (o = Some b \/ o = Some e).
Proof using Type.
  clear. unfold someSet. rewrite elem_of_list_to_set, list_elem_of_bind. split.
  - intros ([b e] & Ho & Hl). exists b, e. set_solver.
  - intros (b & e & Hl & Ho). exists (b, e). set_solver.
Qed.

Lemma empty_pair b e :
  (b, e) ∈ D -> isMarker DUMMY_BEFORE (instr b s) = true /\ isMarker DUMMY_AFTER (instr e s) = true /\ adjacent (body s) b e.
Proof using Hwf.
  intros (g & Hg & Hin)%list_elem_of_bind. rewrite (wf_segs Hwf).
  pose proof (proj1 (Forall_forall _ _) (wf_ok Hwf) g Hin) as Hok.
  destruct g as [x|b' [|y mid] e']; simpl in Hg; try by apply elem_of_nil in Hg.
  apply list_elem_of_singleton in Hg as [= -> ->]. destruct Hok as (Hb & He & _). split_and!; [done..|].
  apply list_elem_of_split in Hin as (g1 & g2 & ->). exists (g1 ≫= flat), (g2 ≫= flat).
  by rewrite bind_app, bind_cons.
Qed.

Lemma marker_not_both x : aMarker (instr x s) = true -> x ∈ body s -> Some x ∈ someSet D \/ Some x ∈ someSet F.
Proof using Hwf.
  intros Hm. rewrite (wf_segs Hwf). intros (g & Hx & Hg)%list_elem_of_bind.
  pose proof (proj1 (Forall_forall _ _) (wf_ok Hwf) g Hg) as Hok.
  destruct g as [y|b mid e]; simpl in Hx; [apply list_elem_of_singleton in Hx as ->; simpl in Hok; congruence|].
  destruct Hok as (Hb & He & Hmid).
  assert (x = b \/ x = e) as Hbe.
  { apply elem_of_cons in Hx as [->|[Hx| ->%list_elem_of_singleton]%elem_of_app]; [by left| |by right].
    specialize (Hmid x Hx). congruence. }
  destruct mid as [|z mid]; [left|right]; apply elem_of_someSet; exists b, e;
    (split; [apply list_elem_of_bind; eexists; split; [|exact Hg]; left|]); destruct Hbe as [->| ->]; auto.
Qed.

Lemma full_pair b e :
  (b, e) ∈ F -> isMarker DUMMY_BEFORE (instr b s) = true /\ isMarker DUMMY_AFTER (instr e s) = true /\
    exists y z, aMarker (instr y s) = false /\ aMarker (instr z s) = false /\ adjacent (body s) b y /\ adjacent (body s) z e.
Proof using Hwf.
  intros (g & Hg & Hin)%list_elem_of_bind. rewrite (wf_segs Hwf).
  pose proof (proj1 (Forall_forall _ _) (wf_ok Hwf) g Hin) as Hok.
  destruct g as [x|b' [|y mid] e']; simpl in Hg; try by apply elem_of_nil in Hg.
  apply list_elem_of_singleton in Hg as [= -> ->]. destruct Hok as (Hb & He & Hmid). split_and!; [done..|].
  apply list_elem_of_split in Hin as (g1 & g2 & ->).
  destruct (exists_last (l := y :: mid)) as (mid' & z & Hz); [done|]. exists y, z. split_and!.
  - apply Hmid. left.
  - apply Hmid. rewrite Hz. set_solver.
  - exists (g1 ≫= flat), (mid ++ [e'] ++ (g2 ≫= flat)). rewrite bind_app, bind_cons. simpl. by list_simplifier.
  - exists ((g1 ≫= flat) ++ b' :: mid'), (g2 ≫= flat). rewrite bind_app, bind_cons. cbn [flat]. rewrite Hz.
    by list_simplifier.
Qed.

Lemma adjacent_next l (x y z : positive) : NoDup l -> adjacent l x y -> adjacent l x z -> y = z.
Proof using Type.
  clear. intros Hd Hy%(nextIn_adjacent _ _ _ Hd) Hz%(nextIn_adjacent _ _ _ Hd). congruence.
Qed.
Lemma adjacent_prev l (x y z : positive) : NoDup l -> adjacent l y x -> adjacent l z x -> y = z.
Proof using Type.
  clear. intros Hd Hy Hz.
  assert (prevIn l x None = Some y) as H1 by (apply prevIn_adjacent; auto).
  assert (prevIn l x None = Some z) as H2 by (apply prevIn_adjacent; auto). congruence.
Qed.

Lemma pairs_disjoint x : Some x ∈ someSet D -> Some x ∈ someSet F -> False.
Proof using Hwf.
  intros (b & e & (Hb & He & Ha)%empty_pair & Hx)%elem_of_someSet
         (b' & e' & (Hb' & He' & y & z & Hy & Hz & Hby & Hze)%full_pair & Hx')%elem_of_someSet.
  assert (aMarker (instr b s) = true) as Hmb by (unfold aMarker; by rewrite Hb).
  assert (aMarker (instr e s) = true) as Hme by (unfold aMarker; rewrite He; by rewrite orb_true_r).
  destruct Hx as [[= <-]|[= <-]], Hx' as [[= <-]|[= <-]].
  - pose proof (adjacent_next _ _ _ _ (wf_dup Hwf) Ha Hby). congruence.
  - apply before_not_after in Hb. congruence.
  - apply before_not_after in Hb'. congruence.
  - pose proof (adjacent_prev _ _ _ _ (wf_dup Hwf) Ha Hze). congruence.
Qed.

Lemma paired_marker x : Some x ∈ someSet D \/ Some x ∈ someSet F -> aMarker (instr x s) = true.
Proof using Hwf.
  unfold aMarker. intros [(b & e & (Hb & He & _)%empty_pair & [[= <-]|[= <-]])%elem_of_someSet|
    (b & e & (Hb & He & _)%full_pair & [[= <-]|[= <-]])%elem_of_someSet]; rewrite ?Hb, ?He, ?orb_true_r; done.
Qed.

Lemma gep_in_block x : x ∈ ⋃ (segGEP s <$> segs) -> x ∈ body s /\ aMarker (instr x s) = false.
Proof using Hwf.
  rewrite elem_of_union_list. intros (X & (g & -> & Hg)%list_elem_of_fmap & Hx).
  pose proof (proj1 (Forall_forall _ _) (wf_ok Hwf) g Hg) as Hok. destruct g as [y|b mid e]; simpl in Hx; [set_solver|].
  unfold lastReal in Hx. destruct (last _) as [y|] eqn:Hl; [|set_solver]. apply elem_of_singleton in Hx as ->.
  apply last_Some in Hl as [l' Hl].
  assert (y ∈ mid) as Hy.
  { assert (y ∈ filter (fun x => isDebugInstr (instr x s) = false) mid) as Hf by (rewrite Hl; set_solver).
    by apply list_elem_of_filter in Hf as [_ ?]. }
  split; [|by apply Hok]. rewrite (wf_segs Hwf). apply list_elem_of_bind. exists (Pair b mid e). split; [|done].
  simpl. set_solver.
Qed.

Lemma none_not_some l : None ∉ someSet l.
Proof using Type. clear. intros (b & e & _ & [|])%elem_of_someSet; done. Qed.

Lemma start_inv DP : (forall b e, (b, e) ∈ DP -> adjacent (body s) b e) -> block_inv n0 s DP (body s) s.
Proof using Hwf.
  intros HDP. split; [apply Hwf|apply Hwf|done|done| |apply filter_all, Hwf|done].
  intros x Hx. unfold instr. by rewrite (wf_new Hwf x Hx).
Qed.

Lemma pairs_markers b e : (b, e) ∈ D ->
  (b < n0)%positive /\ (e < n0)%positive /\ aMarker (instr b s) = true /\ aMarker (instr e s) = true.
Proof using Hwf.
  intros Hbe. destruct (empty_pair b e Hbe) as (Hb & He & Ha). apply adjacent_elem in Ha as [H1 H2].
  split_and!; [by apply Hwf..| |]; unfold aMarker; rewrite ?Hb, ?He, ?orb_true_r; done.
Qed.

(** Erasing others keeps the pairs. *)
Lemma erase_inv DP L s1 l :
  block_inv n0 s DP L s1 -> (forall b e, (b, e) ∈ DP -> Some b ∉ l /\ Some e ∉ l) ->
  block_inv n0 s DP (filter (fun x => Some x ∉ l) L) (eraseAllInstrs l s1).2.
Proof using Type.
  clear. intros [Hd Hb Hn Hs Hnew Hold Hp] Hl. rewrite eraseAllInstrs_body. split; simpl; try done.
  - by apply NoDup_filter.
  - intros x [_ Hx]%list_elem_of_filter. by apply Hb.
  - rewrite <- Hold, !list_filter_filter. apply list_filter_iff. tauto.
  - intros b e Hbe. apply adjacent_filter; [by apply Hp|by apply (Hl b e)..].
Qed.

(** The scan of the whole block. *)
Definition blockScan : Scan := scanBlock T Opt s (body s) emptyScan.

Lemma blockScan_marks :
  DummyInstr blockScan = someSet D /\ StandAloneGEPDummyInstr blockScan = someSet F /\
  HardenStandAloneGEP blockScan = ⋃ (segGEP s <$> segs).
Proof using Hwf.
  pose proof (scan_segs T Opt s segs emptyScan (wf_ok Hwf)) as Hs. unfold blockScan.
  pose proof (wf_fence Hwf) as Hf. rewrite (wf_segs Hwf) in Hf |- *. specialize (Hs Hf). unfold marks in Hs.
  injection Hs as -> -> ->. simpl. by rewrite !(right_id_L ∅ (∪)).
Qed.

Definition startWalk (m : gmap reg reg) : Walk :=
  Build_Walk (HardenPostLoad blockScan) (HardenLoadAddr blockScan) (HardenStoreAddr blockScan)
    (HardenFixedAddressRBP blockScan) m ∅ false.

Lemma list_of_block m x :
  x ∈ w_addr (startWalk m) ∪ w_post (startWalk m) ∪ w_store (startWalk m) ∪ w_fixed (startWalk m) ->
  x ∈ body s /\ active (instr x s) = true.
Proof using Type.
  clear. intros Hx. destruct (scan_lists T Opt s (body s) emptyScan x) as [Hn|]; [|set_solver|done].
  unfold on_lists. simpl in Hx. unfold blockScan in Hx. set_solver.
Qed.

Lemma startWalk_ok m : walk_ok n0 s D (startWalk m).
Proof using Hwf.
  split; [|set_solver]. intros x Hx _. by apply (list_of_block m).
Qed.

(** The instructions left when the stand-alone markers are erased. *)
Definition walked : list positive := filter (fun x => Some x ∉ order (someSet F)) (body s).

Lemma walked_paired : ends_paired s D walked.
Proof using Hwf.
  intros e [Hn He]%list_elem_of_filter Hm.
  assert (aMarker (instr e s) = true) as Ha by (unfold aMarker; rewrite Hm; apply orb_true_r).
  destruct (marker_not_both e Ha He) as [(b & e' & Hbe & [[= <-]|[= <-]])%elem_of_someSet|Hf].
  - destruct (empty_pair _ _ Hbe) as (Hb & _). apply before_not_after in Hb. congruence.
  - by exists b.
  - by destruct Hn; apply elem_of_order.
Qed.

Lemma forget_pairs L s1 : block_inv n0 s D L s1 -> block_inv n0 s [] L s1.
Proof using Type. clear. intros []. split; [done..|]. by intros b e Hbe%elem_of_nil. Qed.

Hypothesis Hloads : HardenLoads Opt = true.

(** The state in which the second walk starts, and the checked registers it starts with. *)
Definition gepPhase : gmap reg reg * MState :=
  hardenGEPs T liveInEFLAGS (if HardenStandAloneGEPs Opt then order (HardenStandAloneGEP blockScan) else []) ∅ s.
Definition walkStart : MState := (eraseAllInstrs (order (someSet F)) gepPhase.2).2.

(** The state after the walk, without the markers. *)
Definition eraseMarks (w : Walk) (s1 : MState) : MState :=
  (eraseAllInstrs (order (someSet D ∖ w_hardened w)) (eraseAllInstrs (order (w_hardened w)) s1).2).2.

(** Neighbours that are neither hardened alone nor erased are neighbours in it. *)
Lemma walkStart_pairs DP :
  (forall b e, (b, e) ∈ DP -> adjacent (body s) b e /\
    forall x, x = b \/ x = e -> x ∉ ⋃ (segGEP s <$> segs) /\ Some x ∉ someSet F) ->
  block_inv n0 s DP walked walkStart.
Proof using Hwf.
  intros Hp. destruct blockScan_marks as (_ & _ & HG).
  assert (forall x, x ∈ (if HardenStandAloneGEPs Opt then order (HardenStandAloneGEP blockScan) else []) ->
    x ∈ ⋃ (segGEP s <$> segs)) as Hg.
  { intros x. destruct (HardenStandAloneGEPs Opt); [|intros []%elem_of_nil]. by rewrite HG, elem_of_order. }
  apply erase_inv.
  - apply hardenGEPs_ok; [apply start_inv; intros b e Hbe; by apply Hp|intros x Hx; by apply gep_in_block, Hg|].
    intros b e Hbe. destruct (Hp b e Hbe) as [_ Hn].
    destruct (Hn b (or_introl eq_refl)), (Hn e (or_intror eq_refl)). auto.
  - intros b e Hbe. destruct (Hp b e Hbe) as [_ Hn]. rewrite !elem_of_order.
    destruct (Hn b (or_introl eq_refl)), (Hn e (or_intror eq_refl)). auto.
Qed.

Lemma walkStart_inv : block_inv n0 s D walked walkStart.
Proof using Hwf.
  apply walkStart_pairs. intros b e Hbe. split; [by apply empty_pair|]. intros x Hx.
  destruct (pairs_markers b e Hbe) as (_ & _ & Hb & He). split.
  - intros [_ Hn]%gep_in_block. destruct Hx; subst; congruence.
  - intros HF. apply (pairs_disjoint x); [|done]. apply elem_of_someSet. exists b, e. split; [done|]. destruct Hx; subst; auto.
Qed.

Lemma hardenBlock_steps fuel :
  let r := walkBlock T Opt liveInEFLAGS succ_empty PoisonReg fuel (body walkStart) (startWalk gepPhase.1) walkStart in
  hardenBlock T Opt liveInEFLAGS succ_empty PoisonReg fuel s = (Some r.1, eraseMarks r.1 r.2) /\
  block_inv n0 s D walked r.2 /\ w_hardened r.1 ⊆ someSet D.
Proof using Hwf Hloads.
  destruct (walkBlock_ok T Opt liveInEFLAGS succ_empty PoisonReg n0 s D) with (fuel := fuel) (l := body walkStart)
    (w := startWalk gepPhase.1) (L := walked) (s := walkStart) as [Hinv [_ Hh]];
    [exact pairs_markers|intros x _; apply (wf_quiet Hwf)|exact walkStart_inv|exact walked_paired|apply startWalk_ok|done|].
  intros r. split_and!; [|done|done]. unfold hardenBlock, gets, mbind, SM_bind. rewrite Hloads. fold blockScan.
  destruct blockScan_marks as (HD & HF & _).
  assert ((if HardenStandAloneGEPs Opt then hardenGEPs T liveInEFLAGS (order (HardenStandAloneGEP blockScan)) ∅ else mret ∅) s =
    gepPhase) as -> by (unfold gepPhase; by destruct (HardenStandAloneGEPs Opt)).
  subst r. unfold walkStart in *. destruct gepPhase as [m s1]. simpl in *.
  rewrite HF. rewrite decide_False by apply none_not_some.
  destruct (eraseAllInstrs (order (someSet F)) s1) as [[] s2]. simpl in *. fold (startWalk m).
  destruct (walkBlock T Opt liveInEFLAGS succ_empty PoisonReg fuel (body s2) (startWalk m) s2) as [w s3]. simpl in Hh |- *.
  rewrite HD. assert (w_hardened w ⊆ someSet D) as Hh' by exact Hh.
  rewrite decide_False by (intros [Hn|Hn]%elem_of_union; [apply Hh' in Hn|]; by apply none_not_some in Hn).
  unfold eraseMarks. destruct (eraseAllInstrs (order (w_hardened w)) s3) as [[] s4]. simpl.
  by destruct (eraseAllInstrs (order (someSet D ∖ w_hardened w)) s4) as [[] s5].
Qed.

Lemma hardenBlock_runs fuel :
  exists w s', hardenBlock T Opt liveInEFLAGS succ_empty PoisonReg fuel s = (Some w, s') /\
    block_inv n0 s [] (filter (fun x => aMarker (instr x s) = false) (body s)) s'.
Proof using Hwf Hloads.
  destruct (hardenBlock_steps fuel) as (-> & Hinv & Hh). set (r := walkBlock _ _ _ _ _ _ _ _ _) in *.
  eexists _, _. split; [done|]. unfold eraseMarks. set (w := r.1) in *.
  assert (forall (l : list (option positive)) (b e : positive), (b, e) ∈ @nil (positive * positive) -> Some b ∉ l /\ Some e ∉ l) as Hnil by (by intros l b e Hbe%elem_of_nil).
  pose proof (erase_inv [] walked r.2 (order (w_hardened w)) (forget_pairs _ _ Hinv) (Hnil _)) as Hinv3.
  pose proof (erase_inv [] _ _ (order (someSet D ∖ w_hardened w)) Hinv3 (Hnil _)) as Hinv4.
  assert (filter (fun x => aMarker (instr x s) = false) (body s) =
    filter (fun x => Some x ∉ order (someSet D ∖ w_hardened w)) (filter (fun x => Some x ∉ order (w_hardened w)) walked)) as ->; [|done].
  unfold walked. rewrite !list_filter_filter. apply filter_ext_elem. intros x Hx. rewrite !elem_of_order. split.
  - intros Hm. assert (forall P : Prop, (P -> Some x ∈ someSet D \/ Some x ∈ someSet F) -> ~ P) as Hno.
    { intros P HP HPx. apply HP, paired_marker in HPx. congruence. }
    split_and!; apply Hno; set_solver.
  - intros [[H1 H2] H3]. destruct (aMarker (instr x s)) eqn:Hm; [|done].
    destruct (marker_not_both x Hm Hx) as [Hd|Hf]; [|done]. destruct (decide (Some x ∈ w_hardened w)); set_solver.
Qed.
End Markers.
