(* ===== verification/SlhFenced.v ===== *)
(** * Checked registers

    What the second walk of the hardening pass leaves of a fenced access.  A register
    carries the predicate state when it is the state at the block's start, the state
    after a call, or a copy of one; it is checked when an inserted instruction merges such
    a register into it.  The walk keeps what it inserted, so that a register once checked
    stays checked, and the instruction that checks it comes before its users. *)
From stdpp Require Import base countable gmap sets list option strings.
From Stdlib Require Import ZArith Lia.
From S2P Require Import Prelude Machine Slh SlhSteps SlhMarkers.

Definition mergeOpcodes : list string :=
  ["OR8rr"; "OR16rr"; "OR32rr"; "OR64rr"; "SHRX64rr"; "VPORrr"; "VPORYrr"; "VPORQZ128rr"; "VPORQZ256rr"; "VPORQZrr"]%string.
Definition copyOpcodes : list string :=
  ["COPY"; "VMOV64toPQIrr"; "VPBROADCASTQrr"; "VPBROADCASTQYrr"; "VPBROADCASTQrZ128rr"; "VPBROADCASTQrZ256rr";
   "VPBROADCASTQrZrr"]%string.

Section Checked.
(** The addresses and registers from here on are new, and the state at the start. *)
Variable n0 r0 : positive.
Variable st0 : reg.

Definition inserted (s : MState) (y : positive) (i : MInstr) : Prop :=
  (n0 <= y)%positive /\ y ∈ body s /\ code s !! y = Some i.

Inductive stateful (s : MState) : reg -> Prop :=
| st_entry : stateful s st0
| st_call y i r ops :
    inserted s y i -> opcode i = "CMOV64rr"%string -> mi_ops i = def r :: ops -> stateful s r
| st_copy y i r r' :
    inserted s y i -> opcode i ∈ copyOpcodes -> mi_ops i = [def r; use r'] -> stateful s r' -> stateful s r.

Lemma stateful_incl s s' r : (forall y i, inserted s y i -> inserted s' y i) -> stateful s r -> stateful s' r.
Proof.
  intros Hi. induction 1 as [|y i r ops Hj%Hi|y i r r' Hj%Hi Ho Hm _ IH]; [constructor|by eapply st_call|by eapply st_copy].
Qed.

(** [h] is a new register that [y] computes from [a] and the state. *)
Definition checks (s : MState) (y : positive) (a h : reg) : Prop :=
  exists i st, inserted s y i /\ opcode i ∈ mergeOpcodes /\ head (mi_ops i) = Some (def h) /\
    use a ∈ mi_ops i /\ use st ∈ mi_ops i /\ stateful s st /\ exists n, h = Virt n /\ (r0 <= n)%positive.

Record good (s : MState) : Prop := {
  gd_bound : forall y, y ∈ body s -> (y < nextInstr s)%positive;
  gd_n0 : (n0 <= nextInstr s)%positive;
  gd_r0 : (r0 <= nextReg s)%positive;
  gd_state : stateful s (stateReg s) }.

(** From one state to a later one: at most the instruction [E] changed. *)
Record grows (E : option positive) (s s' : MState) : Prop := {
  gr_good : good s';
  gr_next : (nextInstr s <= nextInstr s')%positive;
  gr_code : forall y, (y < nextInstr s)%positive -> E <> Some y -> code s' !! y = code s !! y;
  gr_body : body s `sublist_of` body s' }.

Definition oldOnly (E : option positive) : Prop := forall x, E = Some x -> (x < n0)%positive.

Lemma grows_refl E s : good s -> grows E s s.
Proof. by split. Qed.

Lemma grows_trans E s s' s'' : grows E s s' -> grows E s' s'' -> grows E s s''.
Proof.
  intros [G1 N1 C1 B1] [G2 N2 C2 B2]. split; [done|lia| |by trans (body s')].
  intros y Hy HE. rewrite C2 by (lia || done). by apply C1.
Qed.

Lemma grows_weaken E s s' : grows None s s' -> grows E s s'.
Proof. intros [G N C B]. split; [done..| |done]. intros y Hy _. by apply C. Qed.

Section Mono.
Context {E : option positive} {s s' : MState}.
Hypothesis HE : oldOnly E.
Hypothesis Hs : good s.
Hypothesis Hg : grows E s s'.

Lemma inserted_mono y i : inserted s y i -> inserted s' y i.
Proof.
  intros (Hn & Hb & Hc). pose proof (gd_bound _ Hs y Hb) as Hlt. split_and!; [done| |].
  - eapply (sublist_subseteq _ _ (gr_body _ _ _ Hg)), Hb.
  - rewrite (gr_code _ _ _ Hg); [done..|]. intros ->. pose proof (HE y eq_refl). lia.
Qed.

Lemma stateful_mono r : stateful s r -> stateful s' r.
Proof. apply stateful_incl, inserted_mono. Qed.

Lemma checks_mono y a h : checks s y a h -> checks s' y a h.
Proof.
  intros (i & st & Hi%inserted_mono & Ho & Hh & Ha & Hu & Hst%stateful_mono & Hn).
  exists i, st. by split_and!.
Qed.
End Mono.

Lemma stateful_same s s' r : body s' = body s -> code s' = code s -> stateful s r -> stateful s' r.
Proof. intros Hb Hc. apply stateful_incl. intros y i. unfold inserted. by rewrite Hb, Hc. Qed.

(** ** Steps *)
Definition wp {A} (m : SM A) (Q : A -> MState -> Prop) (s : MState) : Prop := Q (m s).1 (m s).2.

Lemma wp_bind {A B} (m : SM A) (f : A -> SM B) Q s : wp m (fun a s' => wp (f a) Q s') s -> wp (m ≫= f) Q s.
Proof. unfold wp, mbind, SM_bind. by destruct (m s). Qed.

Lemma wp_ret {A} (a : A) (Q : A -> MState -> Prop) s : Q a s -> wp (mret a) Q s.
Proof. done. Qed.

Lemma wp_gets {A} (f : MState -> A) (Q : A -> MState -> Prop) s : Q (f s) s -> wp (gets f) Q s.
Proof. done. Qed.

Lemma wp_mono {A} (m : SM A) (Q Q' : A -> MState -> Prop) s : wp m Q s -> (forall a s', Q a s' -> Q' a s') -> wp m Q' s.
Proof. unfold wp. auto. Qed.

Lemma insertBefore_sublist x pt l : l `sublist_of` insertBefore x pt l.
Proof.
  induction l as [|y l IH]; simpl; [constructor; constructor|]. case_decide; [by constructor|by apply sublist_skip].
Qed.

Lemma wp_build pt i (Q : positive -> MState -> Prop) s :
  good s -> (forall y s', grows None s s' -> inserted s' y i -> stateReg s' = stateReg s -> Q y s') -> wp (BuildMI pt i) Q s.
Proof.
  intros Hs HQ. unfold wp, BuildMI. simpl. destruct Hs as [Hb Hn Hr Hst].
  match goal with |- Q _ ?s' => set (s1 := s') end.
  assert (forall P : Prop, (stateful s1 (stateReg s) -> grows None s s1) -> (grows None s s1 -> P) -> P) as Hcut.
  { intros P Hg HP. apply HP, Hg.
    apply (stateful_incl s); [|done]. intros y j (Hy & Hyb & Hyc). split_and!; [done|by apply elem_of_insertBefore; right|].
    simpl. rewrite lookup_insert_ne; [done|]. specialize (Hb y Hyb). lia. }
  apply Hcut.
  - intros Hst'. split; simpl; [split; simpl; [|lia|done|exact Hst']|lia| |apply insertBefore_sublist].
    + intros y [->|Hy%Hb]%elem_of_insertBefore; lia.
    + intros y Hy _. rewrite lookup_insert_ne; [done|lia].
  - intros Hg. apply HQ; [done| |done]. split_and!; [done|apply elem_of_insertBefore; by left|].
    simpl. by rewrite lookup_insert_eq.
Qed.

Lemma wp_create rc (Q : reg -> MState -> Prop) s :
  good s -> (forall n s', (r0 <= n)%positive -> grows None s s' -> stateReg s' = stateReg s -> Q (Virt n) s') ->
  wp (createVirtualRegister rc) Q s.
Proof.
  intros [Hb Hn Hr Hst] HQ. unfold wp, createVirtualRegister. simpl. apply HQ; [done| |done].
  split; simpl; [split; simpl; [done|done|lia|]|done|done|done].
  by apply (stateful_same s).
Qed.

Lemma old_None : oldOnly None.
Proof. by intros x. Qed.

(** Carries what is known of a state over to the next one. *)
Ltac advance Hg G :=
  let s := match type of G with grows _ ?s _ => s end in
  repeat match goal with
  | H : inserted s _ _ |- _ => apply (inserted_mono old_None Hg G) in H
  | H : stateful s _ |- _ => apply (stateful_mono old_None Hg G) in H
  | H : checks s _ _ _ |- _ => apply (checks_mono old_None Hg G) in H
  | H : grows None ?s0 s |- _ => apply (fun H => grows_trans _ _ _ _ H G) in H
  end.

(** One primitive step. *)
Ltac step :=
  match goal with
  | |- wp (_ ≫= _) _ _ => apply wp_bind
  | |- wp (gets _) _ _ => apply wp_gets
  | |- wp (mret _) _ _ => apply wp_ret
  | Hs : good ?s |- wp (createVirtualRegister _) _ ?s =>
    apply wp_create; [exact Hs|]; let G := fresh "G" in let H := fresh "Hs" in
    intros ? ? ? G ?; pose proof (gr_good _ _ _ G) as H; advance Hs G
  | Hs : good ?s |- wp (BuildMI _ _) _ ?s =>
    apply wp_build; [exact Hs|]; let G := fresh "G" in let H := fresh "Hs" in
    intros ? ? G ? ?; pose proof (gr_good _ _ _ G) as H; advance Hs G
  end; cbn beta.

(** A call of a function that is known to grow the block. *)
Ltac call L :=
  lazymatch goal with
  | |- wp (_ ≫= _) _ _ => apply wp_bind; call L
  | Hs : good ?s |- wp _ _ ?s =>
    eapply wp_mono; [apply L; assumption|]; let G := fresh "G" in let H := fresh "Hs" in
    intros ? ? G; cbn beta in G |- *;
    first [pose proof (gr_good _ _ _ G) as H; advance Hs G
          |let F := fresh "F" in destruct G as [G F]; pose proof (gr_good _ _ _ G) as H; advance Hs G]
  end.

Lemma saveIfLive_ok lf pt s : good s -> wp (saveIfLive lf pt) (fun _ s' => grows None s s') s.
Proof.
  intros Hs. unfold saveIfLive, isEFLAGSLive, saveEFLAGS. repeat step. case_match; repeat step; [done|by apply grows_refl].
Qed.

Lemma restoreIf_ok pt r s : good s -> wp (restoreIf pt r) (fun _ s' => grows None s s') s.
Proof.
  intros Hs. unfold restoreIf, restoreEFLAGS. destruct r; repeat step; [done|by apply grows_refl].
Qed.

Lemma copied s y i r r' :
  inserted s y i -> opcode i ∈ copyOpcodes -> mi_ops i = [def r; use r'] -> stateful s r' -> stateful s r.
Proof. apply st_copy. Qed.

Section Ops.
Variable T : TargetInfo.
Variable lf : bool.

Lemma narrowState_ok pt rc s : good s -> wp (narrowState T pt rc) (fun r s' => grows None s s' /\ stateful s' r) s.
Proof.
  intros Hs. pose proof (gd_state _ Hs) as Hst. unfold narrowState. repeat step. case_match; repeat step.
  - split; [by apply grows_refl|done].
  - split; [done|]. eapply st_copy; [done|set_solver|done|done].
Qed.

Lemma or_merges b : OrOpCode b ∈ mergeOpcodes.
Proof. unfold OrOpCode. repeat case_match; set_solver. Qed.

Lemma checks_intro s y i a n st :
  inserted s y i -> opcode i ∈ mergeOpcodes -> head (mi_ops i) = Some (def (Virt n)) -> use a ∈ mi_ops i ->
  use st ∈ mi_ops i -> stateful s st -> (r0 <= n)%positive -> checks s y a (Virt n).
Proof. intros. exists i, st. split_and!; eauto. Qed.

Lemma hardenValueInRegister_ok r pt s :
  good s -> wp (hardenValueInRegister T lf r pt) (fun h s' => grows None s s' /\ exists y, checks s' y r h) s.
Proof.
  intros Hs. unfold hardenValueInRegister, getRegClass. do 2 step.
  call narrowState_ok. call saveIfLive_ok. repeat step. call restoreIf_ok. repeat step.
  split; [done|]. eexists. eapply (checks_intro _ _ _ _ _ a); [done|apply or_merges|done|set_solver|set_solver|done..].
Qed.

(** By one of the inserted instructions. *)
Ltac copies :=
  match goal with
  | H : inserted _ _ _ |- stateful _ _ =>
    eapply (st_copy _ _ _ _ _ H); [solve [cbn [opcode built]; repeat case_match; set_solver]|reflexivity|]
  end.

Lemma mergeVector_ok pt b1 b2 st n a rc s :
  good s -> stateful s st -> (r0 <= n)%positive ->
  wp (mergeVector T pt b1 b2 st (Virt n) a rc) (fun _ s' => grows None s s' /\ exists y, checks s' y a (Virt n)) s.
Proof.
  intros Hs Hst Hn. unfold mergeVector. case_match; repeat step; (split; [done|]; eexists;
    eapply checks_intro; [eassumption|solve [cbn [opcode built]; repeat case_match; set_solver]|reflexivity|set_solver|
      right; left| |done]); repeat (done || copies).
Qed.

Lemma mergeState_ok pt fl st n a rc s :
  good s -> stateful s st -> (r0 <= n)%positive ->
  wp (mergeState T pt fl st (Virt n) a rc) (fun _ s' => grows None s s' /\ exists y, checks s' y a (Virt n)) s.
Proof.
  intros Hs Hst Hn. unfold mergeState.
  case_match; [by apply mergeVector_ok|]. case_match; [by apply mergeVector_ok|].
  case_match; repeat step; (split; [done|]; eexists;
    eapply (checks_intro _ _ _ _ _ st); [done|set_solver|done|set_solver|set_solver|done..]).
Qed.

(** *** Operands of the current instruction *)
Variable MI : positive.
Hypothesis HMI : (MI < n0)%positive.
(** The registers checked before the walk. *)
Variable m0 : gmap reg reg.

Definition opReg (s : MState) (j : nat) : reg := getReg (nth j (mi_ops (instr MI s)) (imm 0)).

Definition map_ok (s : MState) (m : gmap reg reg) : Prop :=
  forall a h, m !! a = Some h -> m0 !! a = Some h \/ exists y, checks s y a h.

Lemma old_MI : oldOnly (Some MI).
Proof using HMI. by intros x [= <-]. Qed.

Lemma map_ok_mono s s' m : good s -> grows (Some MI) s s' -> map_ok s m -> map_ok s' m.
Proof using HMI.
  intros Hs Hg Hm a h [H0|[y Hy]]%Hm; [by left|]. right. exists y. by apply (checks_mono old_MI Hs Hg).
Qed.

Lemma map_ok_insert s m a h : map_ok s m -> (exists y, checks s y a h) -> map_ok s (<[a := h]> m).
Proof using Type.
  clear. intros Hm Hh b h' [[<- <-]|[Hne Hb]]%lookup_insert_Some; [by right|by apply Hm].
Qed.

Lemma opReg_same s s' j : good s -> MI ∈ body s -> grows None s s' -> opReg s' j = opReg s j.
Proof using Type.
  clear. intros Hs Hin Hg. unfold opReg, instr. rewrite (gr_code _ _ _ Hg); [done|by apply Hs|done].
Qed.

Lemma opReg_set s j r : opReg s j <> NoRegister -> opReg (setOperandReg MI j r s).2 j = r.
Proof using Type.
  clear. unfold opReg, instr, setOperandReg, updateInstr. simpl. rewrite lookup_alter_eq.
  destruct (code s !! MI) as [i|]; simpl; [|by destruct j].
  intros Hj. destruct (mi_ops i !! j) as [o|] eqn:Ho; [|by rewrite (nth_overflow (mi_ops i)) in Hj by (by apply lookup_ge_None)].
  rewrite (nth_lookup_Some _ j (imm 0) (setReg r o)); [done|]. by rewrite list_lookup_alter_eq, Ho.
Qed.

Lemma opReg_set_ne s j j' r : j <> j' -> opReg (setOperandReg MI j r s).2 j' = opReg s j'.
Proof using Type.
  clear. intros Hj. unfold opReg, instr, setOperandReg, updateInstr. simpl. rewrite lookup_alter_eq.
  destruct (code s !! MI) as [i|]; simpl; [|done]. rewrite !nth_lookup, list_lookup_alter_ne by done. done.
Qed.

Lemma setOperandReg_grows j r s : good s -> grows (Some MI) s (setOperandReg MI j r s).2.
Proof using HMI.
  intros Hs. unfold setOperandReg, updateInstr. simpl.
  match goal with |- grows _ _ ?s' => set (s1 := s') end.
  destruct Hs as [Hb Hn Hr Hst]. split; simpl; [split; try done; simpl|done| |done].
  - apply (stateful_incl s); [|done]. intros y i (Hy & Hyb & Hc). split_and!; [done..|]. simpl. rewrite lookup_alter_ne; [done|]. lia.
  - intros y _ Hy. rewrite lookup_alter_ne; [done|]. congruence.
Qed.

(** What a step leaves of the operands: those in [ops] are checked or known. *)
Definition known (s' : MState) (a h : reg) : Prop := m0 !! a = Some h \/ exists y, checks s' y a h.

Record hardenedOps (s s' : MState) (m' : gmap reg reg) (ops : list nat) : Prop := {
  hd_grows : grows (Some MI) s s';
  hd_map : map_ok s' m';
  hd_other j : j ∉ ops -> opReg s' j = opReg s j;
  hd_ops j : j ∈ ops -> known s' (opReg s j) (opReg s' j) }.

Lemma known_mono s s' a h : good s -> grows (Some MI) s s' -> known s a h -> known s' a h.
Proof using HMI. intros Hs Hg [H0|[y Hy]]; [by left|]. right. exists y. by apply (checks_mono old_MI Hs Hg). Qed.

Lemma hardened_nil s m : good s -> map_ok s m -> hardenedOps s s m [].
Proof using Type. intros Hs Hm. split; [by apply grows_refl|done|done|by intros j Hj%elem_of_nil]. Qed.

Lemma hardened_cons s s1 s2 m1 m2 k ops :
  hardenedOps s s1 m1 [k] -> hardenedOps s1 s2 m2 ops -> k ∉ ops -> hardenedOps s s2 m2 (k :: ops).
Proof using HMI.
  intros [G1 M1 O1 H1] [G2 M2 O2 H2] Hk. split; [by eapply grows_trans|done|..].
  - intros j Hj. rewrite O2, O1; [done|set_solver..].
  - intros j [->|Hj]%elem_of_cons.
    + rewrite O2 by done. apply (known_mono s1); [apply G1|done|]. apply H1. left.
    + rewrite <- (O1 j) by set_solver. by apply H2.
Qed.

Lemma hardened_set s s1 m k h :
  good s -> MI ∈ body s -> grows None s s1 -> opReg s k <> NoRegister -> map_ok s m -> known s1 (opReg s k) h ->
  hardenedOps s (setOperandReg MI k h s1).2 (<[opReg s k := h]> m) [k] /\ hardenedOps s (setOperandReg MI k h s1).2 m [k].
Proof using HMI.
  intros Hs Hin Hg Hk Hm Hh. pose proof (gr_good _ _ _ Hg) as Hs1. pose proof (setOperandReg_grows k h s1 Hs1) as Hset.
  pose proof (grows_trans _ _ _ _ (grows_weaken _ _ _ Hg) Hset) as Hg2.
  pose proof (known_mono _ _ _ _ Hs1 Hset Hh) as Hh2. pose proof (map_ok_mono _ _ _ Hs Hg2 Hm) as Hm2.
  assert (forall j, j ∉ [k] -> opReg (setOperandReg MI k h s1).2 j = opReg s j) as Ho.
  { intros j Hj. rewrite opReg_set_ne by set_solver. by apply opReg_same. }
  assert (forall j, j ∈ [k] -> known (setOperandReg MI k h s1).2 (opReg s j) (opReg (setOperandReg MI k h s1).2 j)) as Hops.
  { intros j ->%list_elem_of_singleton. rewrite opReg_set; [done|]. by rewrite (opReg_same s). }
  split; split; try done. intros a b [[<- <-]|[_ Hab]]%lookup_insert_Some; [done|by apply Hm2].
Qed.

Lemma grows_in E s s' x : grows E s s' -> x ∈ body s -> x ∈ body s'.
Proof using Type. intros Hg. by apply (sublist_subseteq _ _ (gr_body _ _ _ Hg)). Qed.

(** An operand merged with the state right before the instruction. *)
Lemma hardenValueInCondition_ok k s :
  good s -> MI ∈ body s ->
  wp (hardenValueInCondition T lf MI k) (fun h s' => grows (Some MI) s s' /\ (exists y, checks s' y (opReg s k) h) /\
    code s' !! MI = (fun i => withOps (alter (setReg h) k (mi_ops i)) i) <$> code s !! MI) s.
Proof using HMI.
  intros Hs Hin. unfold hardenValueInCondition, getRegClass, getOperand. repeat step. call saveIfLive_ok. repeat step.
  call narrowState_ok. repeat step. unfold wp at 1. cbn beta.
  match goal with |- wp (restoreIf _ _ ≫= _) _ (setOperandReg MI k (Virt ?n) ?s2).2 =>
    assert (good s2) as Hg2 by assumption; pose proof (setOperandReg_grows k (Virt n) s2 Hg2) as Gset;
    assert (exists y, checks s2 y (opReg s k) (Virt n)) as [z Hz];
      [eexists; eapply (checks_intro _ _ _ _ _ a0); [done|apply or_merges|done|set_solver|set_solver|done..]|];
    assert (code s2 !! MI = code s !! MI) as Hc;
      [match goal with G : grows None s s2 |- _ => apply (gr_code _ _ _ G); [by apply Hs|done] end|];
    apply (checks_mono old_MI Hg2 Gset) in Hz
  end.
  pose proof (gr_good _ _ _ Gset) as Hset. apply wp_bind. eapply wp_mono; [by apply restoreIf_ok|]. intros ? s5 G5. cbn beta in G5. apply wp_ret.
  split_and!.
  - eapply grows_trans; [|by apply grows_weaken]. eapply grows_trans; [apply grows_weaken|exact Gset]. done.
  - exists z. by apply (checks_mono old_None Hset G5).
  - rewrite (gr_code _ _ _ G5); [|apply Hset; apply (grows_in _ _ _ _ Gset)|done].
    + unfold setOperandReg, updateInstr. simpl. by rewrite lookup_alter_eq, Hc.
    + match goal with G : grows None s ?s2 |- MI ∈ body ?s2 => by apply (grows_in _ _ _ _ G) end.
Qed.

Lemma hardenOps_ok fl st ops m s :
  good s -> MI ∈ body s -> stateful s st -> NoDup ops -> (forall j, j ∈ ops -> opReg s j <> NoRegister) -> map_ok s m ->
  wp (hardenOps T MI fl st ops m) (fun m' s' => hardenedOps s s' m' ops) s.
Proof using HMI.
  intros Hs Hin Hst Hnd Hreg Hm. revert m s Hs Hin Hst Hreg Hm. induction Hnd as [|k ops Hk Hnd IH]; intros m s Hs Hin Hst Hreg Hm;
    cbn [hardenOps].
  { by apply wp_ret, hardened_nil. }
  unfold getRegClass, getOperand. repeat step. call mergeState_ok.
  destruct (hardened_set s s'0 m k (Virt n)) as [Hset _]; [done..|apply Hreg; left|done|by right|].
  apply wp_bind. unfold wp at 1.
  pose proof (hd_grows _ _ _ _ Hset) as Gset. eapply wp_mono; [apply IH|].
  - apply Gset.
  - by apply (grows_in _ _ _ _ Gset).
  - apply (stateful_mono old_MI Hs1); [by apply setOperandReg_grows|done].
  - intros j Hj. rewrite (hd_other _ _ _ _ Hset); [apply Hreg; by right|set_solver].
  - apply Hset.
  - intros m' s2 H2. by eapply hardened_cons.
Qed.

Lemma reuseChecked_ok ops m s :
  good s -> MI ∈ body s -> NoDup ops -> (forall j, j ∈ ops -> opReg s j <> NoRegister) -> map_ok s m ->
  wp (reuseChecked MI ops m) (fun rest s' => exists done, done ++ rest ≡ₚ ops /\ hardenedOps s s' m done) s.
Proof using HMI.
  intros Hs Hin Hnd Hreg Hm. revert s Hs Hin Hreg Hm. induction Hnd as [|k ops Hk Hnd IH]; intros s Hs Hin Hreg Hm;
    cbn [reuseChecked].
  { apply wp_ret. exists []. split; [done|by apply hardened_nil]. }
  unfold getOperand. do 2 step. destruct (m !! _) as [h|] eqn:Hh.
  - destruct (hardened_set s s m k h) as [_ Hset]; [done..|by apply grows_refl|apply Hreg; left|done|by apply Hm|].
    apply wp_bind. unfold wp at 1. pose proof (hd_grows _ _ _ _ Hset) as Gset. eapply wp_mono; [apply IH|].
    + apply Gset.
    + by apply (grows_in _ _ _ _ Gset).
    + intros j Hj. rewrite (hd_other _ _ _ _ Hset); [apply Hreg; by right|set_solver].
    + apply Hset.
    + intros rest s2 (dn & Hp & H2). exists (k :: dn). split; [simpl; by rewrite Hp|].
      eapply hardened_cons; [done..|]. intros Hkd. apply Hk. rewrite <- Hp. set_solver.
  - apply wp_bind. eapply wp_mono; [apply IH; [done..| |done]; intros j Hj; apply Hreg; by right|].
    intros rest s2 (dn & Hp & H2). apply wp_ret. exists dn. split; [|done]. by rewrite <- Hp, Permutation_middle.
Qed.

Lemma hardened_app s s1 s2 m1 m2 a b :
  hardenedOps s s1 m1 a -> hardenedOps s1 s2 m2 b -> (forall j, j ∈ a -> j ∉ b) -> hardenedOps s s2 m2 (a ++ b).
Proof using HMI.
  intros [G1 M1 O1 H1] [G2 M2 O2 H2] Hab. split; [by eapply grows_trans|done|..].
  - intros j Hj. rewrite O2, O1; [done|set_solver..].
  - intros j [Hj|Hj]%elem_of_app.
    + rewrite O2 by auto. apply (known_mono s1); [apply G1|done|]. by apply H1.
    + rewrite <- (O1 j) by (intros Ha; by apply (Hab j)). by apply H2.
Qed.

Lemma hardened_perm s s' m a b : a ≡ₚ b -> hardenedOps s s' m a -> hardenedOps s s' m b.
Proof using Type. intros Hp [G M O Hh]. split; [done..| |]; intros j; rewrite <- Hp; auto. Qed.

Lemma hardened_after s s1 s2 m a : MI ∈ body s -> hardenedOps s s1 m a -> grows None s1 s2 -> hardenedOps s s2 m a.
Proof using HMI.
  intros Hin [G M O Hh] Hg. pose proof (gr_good _ _ _ G) as Hs1.
  assert (forall j, opReg s2 j = opReg s1 j) as Hsame by (intros j; apply opReg_same; [done|by eapply grows_in|done]).
  pose proof (grows_weaken (Some MI) _ _ Hg) as Hg'. split.
  - by eapply grows_trans.
  - by apply (map_ok_mono s1).
  - intros j Hj. rewrite Hsame. by apply O.
  - intros j Hj. rewrite Hsame. apply (known_mono s1); auto.
Qed.

Lemma hardenOperands_NoDup k b x : NoDup (hardenOperands k b x).
Proof using Type.
  clear. unfold hardenOperands. assert (k ∉ [k + 2]%nat) as Hk by (intros Hk%list_elem_of_singleton; lia).
  repeat case_match; simpl; repeat constructor; auto using not_elem_of_nil.
Qed.

Lemma hardenOperands_regs s k j :
  j ∈ hardenOperands k (addrBase (instr MI s) k) (addrIndex (instr MI s) k) -> opReg s j <> NoRegister.
Proof using Type.
  clear. unfold hardenOperands, opReg, addrBase, addrIndex. intros [Hj|Hj]%elem_of_app.
  - case_match; [by apply elem_of_nil in Hj|]. case_bool_decide as Hb; [by apply elem_of_nil in Hj|].
    apply list_elem_of_singleton in Hj as ->. tauto.
  - case_match eqn:Hc; [|by apply elem_of_nil in Hj]. apply list_elem_of_singleton in Hj as ->.
    apply andb_true_iff in Hc as [Hc _]. by apply negb_true_iff, bool_decide_eq_false in Hc.
Qed.

Lemma hardenLoadAddr_ok k m s :
  good s -> MI ∈ body s -> map_ok s m ->
  wp (hardenLoadAddr T lf MI k m) (fun m' s' =>
    hardenedOps s s' m' (hardenOperands k (addrBase (instr MI s) k) (addrIndex (instr MI s) k))) s.
Proof using HMI.
  intros Hs Hin Hm. unfold hardenLoadAddr, isEFLAGSLive, getOperand. repeat step.
  change (nth k (mi_ops (instr MI s)) (imm 0)) with (addrBase (instr MI s) k).
  change (nth (k + 2) (mi_ops (instr MI s)) (imm 0)) with (addrIndex (instr MI s) k).
  set (ops := hardenOperands _ _ _). pose proof (hardenOperands_NoDup k (addrBase (instr MI s) k) (addrIndex (instr MI s) k)) as Hnd.
  pose proof (hardenOperands_regs s k) as Hregs. fold ops in Hnd, Hregs.
  eapply wp_mono; [by apply reuseChecked_ok|]. intros rest s1 (dn & Hp & H1). cbn beta.
  case_bool_decide as Hr.
  { subst rest. apply wp_ret. apply (hardened_perm _ _ _ dn); [|done]. by rewrite <- Hp, (right_id_L [] (++)). }
  pose proof (gr_good _ _ _ (hd_grows _ _ _ _ H1)) as Hs1. repeat step.
  assert (wp (if flagsLive lf ((fun x => instr x s) <$> reverse (before (Some MI) (body s))) && negb (hasBMI2 T)
    then r ← saveEFLAGS (Some MI); mret (Some r) else mret None) (fun _ s' => grows None s1 s') s1) as Hsave.
  { unfold saveEFLAGS. case_match; repeat step; [done|by apply grows_refl]. }
  eapply wp_mono; [exact Hsave|]. intros fl s2 G2. cbn beta. pose proof (hardened_after _ _ _ _ _ Hin H1 G2) as H2.
  pose proof (gr_good _ _ _ G2) as Hs2. pose proof (grows_in _ _ _ MI (hd_grows _ _ _ _ H2) Hin) as Hin2.
  pose proof Hnd as Hnd'. rewrite <- Hp in Hnd'. apply NoDup_app in Hnd' as (_ & Hdisj & Hnd').
  apply wp_bind. eapply wp_mono.
  { apply hardenOps_ok; [done..| |done| |apply H2].
    - apply (stateful_mono old_None Hs1 G2), Hs1.
    - intros j Hj. rewrite (hd_other _ _ _ _ H2); [apply Hregs; rewrite <- Hp; set_solver|]. intros Hd. by apply (Hdisj j). }
  intros m3 s3 H3. cbn beta. pose proof (gr_good _ _ _ (hd_grows _ _ _ _ H3)) as Hs3.
  apply wp_bind. eapply wp_mono; [by apply restoreIf_ok|]. intros ? s4 G4. apply wp_ret.
  apply (hardened_after s s3); [done| |done]. apply (hardened_perm _ _ _ _ _ Hp). by eapply hardened_app.
Qed.

Lemma hardenIndirect_ok m s :
  good s -> MI ∈ body s -> map_ok s m ->
  wp (hardenIndirectCallOrJumpInstr T lf MI m) (fun m' s' => grows (Some MI) s s' /\ map_ok s' m') s.
Proof using HMI.
  intros Hs Hin Hm. unfold hardenIndirectCallOrJumpInstr, getOperand. repeat step.
  case_match; [apply wp_ret; split; [by apply grows_refl|done]|]. repeat step.
  case_match; [apply wp_ret; split; [by apply grows_refl|done]|].
  fold (opReg s 0). apply wp_bind. eapply wp_mono with (Q := fun h s1 => grows None s s1 /\ known s1 (opReg s 0) h).
  { destruct (m !! _) as [h|] eqn:Hh; [apply wp_ret; split; [by apply grows_refl|by apply Hm]|].
    eapply wp_mono; [by apply hardenValueInRegister_ok|]. intros h s1 [G [y Hy]]. split; [done|]. right. by exists y. }
  intros h s1 [G Hk]. apply wp_bind. unfold wp at 1. pose proof (setOperandReg_grows 0 h s1 (gr_good _ _ _ G)) as Gs.
  pose proof (grows_trans _ _ _ _ (grows_weaken _ _ _ G) Gs) as G2. apply wp_ret. split; [done|].
  pose proof (map_ok_mono _ _ _ Hs G2 Hm) as Hm2. intros a b [[<- <-]|[_ Hab]]%lookup_insert_Some; [|by apply Hm2].
  by apply (known_mono s1 _ _ _ (gr_good _ _ _ G) Gs).
Qed.

(** The steps that only grow the block. *)
#[export] Instance grows_StepInv s0 : StepInv MI (fun _ => True) (fun s => grows (Some MI) s0 s).
Proof using HMI.
  split; [..|done].
  - intros rc s Hg. apply (wp_create rc (fun _ s' => grows (Some MI) s0 s')); [apply Hg|].
    intros n s' _ G _. eapply grows_trans; [done|by apply grows_weaken].
  - intros pt i _ _ s Hg. apply (wp_build pt i (fun _ s' => grows (Some MI) s0 s')); [apply Hg|].
    intros y s' G _ _. eapply grows_trans; [done|by apply grows_weaken].
  - intros k r s Hg. eapply grows_trans; [done|]. apply setOperandReg_grows, Hg.
  - intros P pt r ns _ s Hg. unfold updateState.
    apply (wp_bind (BuildMI pt _) _ (fun _ s' => grows (Some MI) s0 s')), wp_build; [apply Hg|].
    intros y s1 G Hi _. unfold wp, setStateReg. simpl. eapply grows_trans; [exact Hg|]. apply grows_weaken.
    eapply grows_trans; [exact G|]. destruct (gr_good _ _ _ G) as [Hb Hn Hr Hst].
    split; simpl; [split; simpl; [done..|]|done|done|done].
    apply (stateful_same s1); [done|done|]. by eapply st_call.
Qed.

(** *** Visits *)
Section Visits.
Context {orderInstrs : SetOrder positive} {orderNull : SetOrder (option positive)}.
Variable Opt : Options.
Variable succ_empty : bool.
Variable PoisonReg : reg.

(** What the visit of [MI] leaves of the lists. *)
Record visited (s : MState) (w : Walk) (s' : MState) (w' : Walk) : Prop := {
  vs_grows : grows (Some MI) s s';
  vs_map : map_ok s' (w_regs w');
  vs_post : w_post w' = w_post w;
  vs_addr x : x <> MI -> x ∈ w_addr w -> x ∈ w_addr w';
  vs_store : w_store w' ⊆ w_store w }.

Lemma visited_refl s w : good s -> map_ok s (w_regs w) -> visited s w s w.
Proof using Type. intros Hs Hm. split; [by apply grows_refl|done..]. Qed.

Lemma visited_trans s w s1 w1 s2 w2 : visited s w s1 w1 -> visited s1 w1 s2 w2 -> visited s w s2 w2.
Proof using Type.
  intros [G1 M1 P1 A1 S1] [G2 M2 P2 A2 S2]. split; [by eapply grows_trans|done|by rewrite P2|auto|by trans (w_store w1)].
Qed.

Lemma visited_grows s w s1 w1 s2 : visited s w s1 w1 -> grows (Some MI) s1 s2 -> visited s w s2 w1.
Proof using HMI.
  intros [G1 M1 P1 A1 S1] G2. split; [by eapply grows_trans| |done..]. by apply (map_ok_mono s1); [apply G1| |].
Qed.

(** A step that only grows the block. *)
Lemma wp_keeps {A} (m : SM A) (Q : A -> MState -> Prop) s :
  keeps (fun s' => grows (Some MI) s s') m -> good s -> (forall a s', grows (Some MI) s s' -> Q a s') -> wp m Q s.
Proof using Type. intros Hk Hs HQ. apply HQ, Hk, grows_refl, Hs. Qed.

Lemma wp_markAsProtected w (Q : Walk -> MState -> Prop) s :
  (forall h, Q (Build_Walk (w_post w) (w_addr w) (w_store w) (w_fixed w) (w_regs w) h (w_rsp w)) s) ->
  wp (markAsProtected MI w) Q s.
Proof using Type.
  clear. intros HQ. assert (wp (isPrefixedByDummies MI) (fun _ s' => s' = s) s) as Hp.
  { unfold isPrefixedByDummies, getPrevNode. apply wp_bind, wp_gets. by destruct (prevIn _ _ _). }
  unfold markAsProtected. apply wp_bind. eapply wp_mono; [exact Hp|]. intros b s' ->. cbn beta.
  destruct b; simpl; [|apply wp_ret; destruct w; apply HQ]. unfold getPrevNode. apply wp_bind, wp_gets, wp_bind.
  destruct (prevIn _ _ _); [apply wp_gets|]; apply wp_ret, HQ.
Qed.

Lemma visited_lists s w w' :
  good s -> map_ok s (w_regs w) -> w_regs w' = w_regs w -> w_post w' = w_post w ->
  (forall x, x <> MI -> x ∈ w_addr w -> x ∈ w_addr w') -> w_store w' ⊆ w_store w -> visited s w s w'.
Proof using Type. intros Hs Hm Hr Hp Ha Hst. split; [by apply grows_refl|by rewrite Hr|done..]. Qed.

Abbreviation visits m w s := (wp m (fun w' s' => visited s w s' w') s).

Lemma visitFixed_ok w s : good s -> map_ok s (w_regs w) -> visits (visitFixed lf MI w) w s.
Proof using HMI.
  intros Hs Hm. unfold visitFixed. case_decide; [|apply wp_ret, visited_refl; done].
  apply wp_bind, wp_markAsProtected. intros h. apply wp_bind, wp_keeps; [|done|].
  - apply (keeps_hardenFixedAddress lf (HI := grows_StepInv s)).
  - intros _ s' G. apply wp_ret. eapply visited_grows; [|done]. by apply visited_lists.
Qed.

Lemma visitStore_ok w s : good s -> map_ok s (w_regs w) -> visits (visitStore T lf MI w) w s.
Proof using HMI.
  intros Hs Hm. unfold visitStore. case_decide; [|apply wp_ret, visited_refl; done].
  apply wp_bind, wp_markAsProtected. intros h. set (w1 := Build_Walk _ _ _ _ _ _ _).
  assert (visited s w s w1) as H1 by (apply visited_lists; simpl; try done; set_solver).
  apply wp_bind, wp_keeps; [apply (keeps_hardenStore T lf (HI := grows_StepInv s))|done|]. intros ok s1 G1.
  pose proof (visited_grows _ _ _ _ _ H1 G1) as H2. case_match; [|by apply wp_ret].
  apply wp_bind, wp_keeps; [apply (keeps_hardenFixedAddress lf (HI := grows_StepInv s1))|apply G1|]. intros ? s2 G2. apply wp_ret.
  eapply visited_grows in G2; [|exact H2]. destruct G2. by split.
Qed.

Lemma visitIndirect_ok w s : good s -> MI ∈ body s -> map_ok s (w_regs w) -> visits (visitIndirect T Opt lf MI w) w s.
Proof using HMI.
  intros Hs Hin Hm. unfold visitIndirect. apply wp_bind, wp_gets. case_match; [|apply wp_ret, visited_refl; done].
  apply wp_bind. eapply wp_mono; [by apply hardenIndirect_ok|]. intros m' s' [G M]. apply wp_ret. by split.
Qed.

Lemma visitInterprocedural_ok s :
  good s -> wp (visitInterprocedural T Opt succ_empty PoisonReg MI) (fun _ s' => grows (Some MI) s s') s.
Proof using HMI.
  intros Hs. apply wp_keeps; [|done|done].
  unfold visitInterprocedural, hardenReturnInstr, tracePredStateThroughCall, addressOf, getNextNode, LFENCE.
  pose proof (grows_StepInv s) as HI. keep. by apply (keeps_checkReturn T (HI := HI)).
Qed.

Lemma visitAddr_ok w s : good s -> MI ∈ body s -> map_ok s (w_regs w) -> visits (visitAddr T Opt lf MI w) w s.
Proof using HMI.
  intros Hs Hin Hm. unfold visitAddr, isPrefixedByDummies, getPrevNode. set (w1 := w_drop_addr MI w).
  assert (visited s w s w1) as H1 by (apply visited_lists; simpl; try done; set_solver).
  apply wp_bind, wp_bind, wp_gets. eapply (wp_mono _ (fun _ s' => s' = s)); [by destruct (prevIn _ _ _)|]. intros p ? ->.
  case_match; [by apply wp_ret|]. apply wp_bind, wp_markAsProtected. intros h. set (w2 := Build_Walk _ _ _ _ _ _ _).
  assert (visited s w s w2) as H2 by (eapply visited_trans; [exact H1|]; by apply visited_lists).
  case_decide.
  - apply wp_bind, wp_keeps; [apply (keeps_hardenStore T lf (HI := grows_StepInv s))|done|]. intros ok s1 G1. apply wp_ret.
    pose proof (visited_grows _ _ _ _ _ H2 G1) as [G M P A S]. split; [done..|]. simpl in *. set_solver.
  - apply wp_bind, wp_gets. destruct (memoryOperandNo _) as [k|]; [|by apply wp_ret].
    apply wp_bind. eapply wp_mono; [by apply (hardenLoadAddr_ok k)|]. intros m' s' [G M _ _]. apply wp_ret.
    destruct H2 as [_ _ P A S]. by split.
Qed.

Lemma visitInstr_ok fuel w s :
  good s -> MI ∈ body s -> map_ok s (w_regs w) -> MI ∉ w_post w ->
  visits (visitInstr T Opt lf succ_empty PoisonReg fuel MI w) w s.
Proof using HMI.
  intros Hs Hin Hm Hpost. unfold visitInstr.
  assert (forall w1 s1, visited s w s1 w1 ->
    wp (visitInterprocedural T Opt succ_empty PoisonReg MI ;; mret w1) (fun w' s' => visited s w s' w') s1) as Hip.
  { intros w1 s1 H1. apply wp_bind. eapply wp_mono; [by apply visitInterprocedural_ok, (vs_grows _ _ _ _ H1)|].
    intros ? s2 G2. apply wp_ret. by eapply visited_grows. }
  destruct (HardenLoads Opt); [|by apply Hip, visited_refl].
  case_decide; [by apply visitAddr_ok|]. rewrite decide_False by done.
  apply wp_bind. eapply wp_mono; [by apply visitFixed_ok|]. intros w1 s1 H1. apply wp_bind.
  eapply wp_mono; [apply visitStore_ok; apply H1|]. intros w2 s2 H2. pose proof (visited_trans _ _ _ _ _ _ H1 H2) as H12.
  apply wp_bind. eapply wp_mono; [apply visitIndirect_ok; [apply H2| |apply H2]; by apply (grows_in _ _ _ _ (vs_grows _ _ _ _ H12))|].
  intros w3 s3 H3. apply Hip. by eapply visited_trans.
Qed.
End Visits.
End Ops.
End Checked.

(** ** A fenced access in the walk *)
Section Fenced.
Context {orderInstrs : SetOrder positive} {orderNull : SetOrder (option positive)}.
Variable T : TargetInfo.
Variable Opt : Options.
Variable lf succ_empty : bool.
Variable PoisonReg : reg.
Variable fuel : nat.
(** The state at the start of the walk, the marker pairs and the registers checked before. *)
Variable s0 : MState.
Variable D : list (positive * positive).
Variable m0 : gmap reg reg.

Abbreviation n0 := (nextInstr s0).
Abbreviation Good := (good n0 (nextReg s0) (stateReg s0)).
Abbreviation Grows := (grows n0 (nextReg s0) (stateReg s0)).
Abbreviation Checks := (checks n0 (nextReg s0) (stateReg s0)).
Abbreviation Map_ok := (map_ok n0 (nextReg s0) (stateReg s0) m0).
Abbreviation Visited := (visited n0 (nextReg s0) (stateReg s0)).
Abbreviation visit := (visitInstr T Opt lf succ_empty PoisonReg fuel).
Abbreviation walk := (walkBlock T Opt lf succ_empty PoisonReg fuel).

Hypothesis HDP : forall b e, (b, e) ∈ D ->
  (b < n0)%positive /\ (e < n0)%positive /\ aMarker (instr b s0) = true /\ aMarker (instr e s0) = true.
Hypothesis Hquiet : forall x, (x < n0)%positive -> aMarker (instr x s0) = true -> quietMarker (instr x s0) = true.
Hypothesis Hends : ends_paired s0 D (body s0).
Hypothesis Hbound : forall x, x ∈ body s0 -> (x < n0)%positive.

(** What holds with [l] still to be visited. *)
Record walking (l : list positive) (w : Walk) (s : MState) : Prop := {
  wk_inv : block_inv n0 s0 D (body s0) s;
  wk_walk : walk_ok n0 s0 D w;
  wk_rest : exists l1, body s = l1 ++ l;
  wk_old : forall x, x ∈ l -> (x < n0)%positive;
  wk_good : Good s;
  wk_map : Map_ok s (w_regs w);
  wk_post : w_post w = ∅ }.

Lemma walking_visit MI l w s :
  walking (MI :: l) w s -> walking l (visit MI w s).1 (visit MI w s).2 /\ Visited MI m0 s w (visit MI w s).2 (visit MI w s).1.
Proof using All.
  intros [Hi Hw [l1 Hl] Ho Hg Hm Hp]. assert (MI ∈ body s) as Hin by (rewrite Hl; set_solver).
  assert (Visited MI m0 s w (visit MI w s).2 (visit MI w s).1) as Hv.
  { apply visitInstr_ok; [apply Ho; left|done..|]. rewrite Hp. set_solver. }
  split; [|exact Hv]. destruct (visitInstr_block T Opt lf succ_empty PoisonReg n0 s0 D HDP Hquiet fuel MI w (body s0) s Hi Hends Hw Hin)
    as (Hi' & Hw' & _ & Hr). destruct Hv as [G M P A S]. split; try done.
  - by apply (Hr l1 l).
  - intros x Hx. apply Ho. by right.
  - apply G.
  - by rewrite P.
Qed.

(** A visited part: other instructions keep their place, their operands and their list. *)
Record passed (l : list positive) (w : Walk) (s : MState) (w' : Walk) (s' : MState) : Prop := {
  ps_body : body s `sublist_of` body s';
  ps_code x : x ∉ l -> (x < n0)%positive -> instr x s' = instr x s;
  ps_checks y a h : Checks s y a h -> Checks s' y a h;
  ps_addr x : x ∉ l -> x ∈ w_addr w -> x ∈ w_addr w';
  ps_store : w_store w' ⊆ w_store w }.

Lemma walking_walk l l2 w s :
  walking (l ++ l2) w s -> walking l2 (walk l w s).1 (walk l w s).2 /\ passed l w s (walk l w s).1 (walk l w s).2.
Proof using All.
  revert w s. induction l as [|MI l IH]; intros w s Hwk; cbn [walkBlock app]; [done|].
  unfold mbind, SM_bind. destruct (walking_visit MI (l ++ l2) w s Hwk) as [Hwk' [G M P A S]].
  pose proof (wk_good _ _ _ Hwk) as Hg. pose proof (wk_old _ _ _ Hwk MI ltac:(left)) as HMI.
  destruct (visit MI w s) as [w1 s1]. simpl in *. destruct (IH w1 s1 Hwk') as [Hwk2 [B2 C2 K2 A2 S2]]. split; [done|]. split.
  - trans (body s1); [apply G|done].
  - intros x Hx Hlt. rewrite C2 by (done || set_solver). unfold instr. rewrite (gr_code _ _ _ _ _ _ G); [done|..|].
    + pose proof (gd_n0 _ _ _ _ Hg). lia.
    + intros [= ->]. set_solver.
  - intros y a h Hc. apply K2. eapply (checks_mono _ _ _ (E := Some MI)); [by intros ? [= <-]|exact Hg|exact G|done].
  - intros x Hx Ha. apply A2; [set_solver|]. apply A; [set_solver|done].
  - by trans (w_store w1).
Qed.

(** *** The access itself *)
Variable x e : positive.
Variable k : nat.

(** Every inserted instruction is before [x]. *)
Definition settled (s : MState) : Prop := x ∈ body s /\ forall y, y ∈ body s -> (n0 <= y)%positive -> [y; x] `sublist_of` body s.

Lemma insertBefore_pair y (l : list positive) : x ∈ l -> [y; x] `sublist_of` insertBefore y (Some x) l.
Proof using Type.
  clear. induction l as [|z l IH]; intros Hx; simpl; [by apply elem_of_nil in Hx|]. case_decide as Hz.
  - injection Hz as ->. do 2 constructor. apply sublist_nil_l.
  - apply sublist_cons. apply IH. apply elem_of_cons in Hx as [->|]; [done|done].
Qed.

Lemma settled_StepInv : StepInv x (eq (Some x)) settled.
Proof using Type.
  clear. assert (forall i, keeps settled (BuildMI (Some x) i)) as Hb.
  { intros i s [Hx Hs]. unfold BuildMI. split; simpl; [apply elem_of_insertBefore; by right|].
    intros y [->|Hy]%elem_of_insertBefore Hn; [by apply insertBefore_pair|].
    trans (body s); [by apply Hs|apply insertBefore_sublist]. }
  split; [..|done].
  - by intros rc s Hs.
  - intros pt i <- _. apply Hb.
  - by intros j r s Hs.
  - intros P pt r ns <-. unfold updateState. apply keeps_bind; [apply Hb|]. by intros _ s Hs.
Qed.

(** Every operand of the address ends in a register that was checked before the walk, or
    that an earlier instruction of the block computes from the old one and the state. *)
Definition address_checked (i : MInstr) (s : MState) : Prop :=
  forall j, j ∈ hardenOperands k (addrBase i k) (addrIndex i k) ->
    let a := getReg (nth j (mi_ops i) (imm 0)) in let h := getReg (nth j (mi_ops (instr x s)) (imm 0)) in
    m0 !! a = Some h \/ exists y, Checks s y a h /\ [y; x] `sublist_of` body s.

Lemma visitAddr_fenced l1 l w s :
  walking (x :: l) w s -> body s = (l1 ++ [e]) ++ x :: l -> isMarker DUMMY_AFTER (instr e s) = true ->
  x ∉ w_store w -> memoryOperandNo (instr x s) = Some k ->
  address_checked (instr x s) (visitAddr T Opt lf x w s).2.
Proof using Type.
  clear HDP Hquiet Hends Hbound. intros [Hi Hw _ Ho Hg Hm Hp] Hb He Hst Hk.
  assert (NoDup (body s)) as Hd by apply Hi. assert (x ∈ body s) as Hin by (rewrite Hb; set_solver).
  assert (prevIn (body s) x None = Some e) as Hprev.
  { apply prevIn_adjacent; [done|]. right. exists l1, l. rewrite Hb. by list_simplifier. }
  assert (forall y, y ∈ body s -> (n0 <= y)%positive -> [y; x] `sublist_of` body s) as Hset.
  { intros y Hy Hn. rewrite Hb in Hy |- *. apply elem_of_app in Hy as [Hy|Hy].
    - apply list_elem_of_split in Hy as (a & b & ->). rewrite <- (assoc_L (++)). simpl.
      apply sublist_inserts_l. constructor. apply sublist_inserts_l. constructor. apply sublist_nil_l.
    - specialize (Ho y Hy). lia. }
  assert (isPrefixedByDummies x s = (true, s)) as Hpref.
  { unfold isPrefixedByDummies, getPrevNode, gets, mbind, SM_bind. simpl. rewrite Hprev. simpl. by rewrite He. }
  assert (forall Q, wp (hardenLoadAddr T lf x k (w_regs w)) (fun _ s' => Q s') s -> Q (visitAddr T Opt lf x w s).2) as Hrun.
  { intros Q HQ. enough (wp (visitAddr T Opt lf x w) (fun _ s' => Q s') s) by done. unfold visitAddr.
    apply wp_bind. unfold wp at 1. rewrite Hpref. simpl fst. simpl snd.
    assert (filtered Opt x true (w_drop_addr x w) = false) as -> by (unfold filtered; by rewrite andb_false_r).
    apply wp_bind, wp_markAsProtected. intros h. rewrite decide_False by done. apply wp_bind, wp_gets. rewrite Hk.
    apply wp_bind. eapply wp_mono; [exact HQ|]. done. }
  intros j Hj a h.
  pose proof (hardenLoadAddr_ok n0 (nextReg s0) (stateReg s0) T lf x (Ho x ltac:(left)) m0 k (w_regs w) s Hg Hin Hm) as Hok.
  destruct (Hrun (fun s' => exists m', hardenedOps n0 (nextReg s0) (stateReg s0) x m0 s s' m'
    (hardenOperands k (addrBase (instr x s) k) (addrIndex (instr x s) k)))) as [m' [G M O Hops]].
  { eapply wp_mono; [exact Hok|]. intros m' s' Hh. by exists m'. }
  specialize (Hops j Hj). fold a h in Hops.
  destruct Hops as [|[y Hy]]; [by left|]. right. exists y. split; [exact Hy|].
  destruct Hy as (i & st & (Hyn & Hyb & _) & _).
  assert (settled (visitAddr T Opt lf x w s).2) as [_ Hs]; [|by apply Hs].
  apply (Hrun settled), (keeps_hardenLoadAddr T lf (HI := settled_StepInv)). by split.
Qed.

Lemma address_checked_passed i l w s w' s' :
  passed l w s w' s' -> x ∉ l -> (x < n0)%positive -> address_checked i s -> address_checked i s'.
Proof using Type.
  clear. intros [B C K _ _] Hx Hlt Ha j Hj. cbv zeta. rewrite (C x Hx Hlt).
  destruct (Ha j Hj) as [|(y & Hy & Hs)]; [by left|]. right. exists y. split; [by apply K|by trans (body s)].
Qed.

Lemma walkBlock_app l1 l2 w s : walk (l1 ++ l2) w s = walk l2 (walk l1 w s).1 (walk l1 w s).2.
Proof using Type.
  clear. revert w s. induction l1 as [|y l1 IH]; intros w s; cbn [walkBlock app]; [done|].
  unfold mbind, SM_bind. by destruct (visit y w s).
Qed.

Lemma walk_fenced la lb w :
  walking (la ++ e :: x :: lb) w s0 -> NoDup (la ++ e :: x :: lb) -> HardenLoads Opt = true ->
  isMarker DUMMY_AFTER (instr e s0) = true -> x ∈ w_addr w -> x ∉ w_store w -> memoryOperandNo (instr x s0) = Some k ->
  address_checked (instr x s0) (walk (la ++ e :: x :: lb) w s0).2.
Proof using All.
  intros Hwk Hd Hl He Hxa Hxs Hk. apply NoDup_app in Hd as (_ & Hda & [Hde [Hdx Hd]%NoDup_cons]%NoDup_cons).
  assert (x ∉ la /\ e ∉ la) as [Hxla Hela] by (split; intros Hin; apply (Hda _ Hin); set_solver).
  pose proof (wk_old _ _ _ Hwk x ltac:(set_solver)) as Hx0. pose proof (wk_old _ _ _ Hwk e ltac:(set_solver)) as He0.
  rewrite walkBlock_app. destruct (walking_walk la (e :: x :: lb) w s0 Hwk) as [Hwk1 [B1 C1 _ A1 S1]].
  destruct (walk la w s0) as [w1 s1]. simpl in *. cbn [walkBlock]. unfold mbind, SM_bind.
  pose proof (walking_visit e (x :: lb) w1 s1 Hwk1) as [Hwk2 _].
  assert (visit e w1 s1 = (w1, s1)) as Hmark.
  { apply (visitInstr_marker T Opt lf succ_empty PoisonReg n0 s0 D HDP Hquiet fuel e w1 (body s0)); [apply Hwk1..|done|].
    unfold aMarker. rewrite He. apply orb_true_r. }
  rewrite Hmark in Hwk2 |- *. simpl in Hwk2.
  destruct (wk_rest _ _ _ Hwk1) as [l1 Hb1].
  pose proof (visitAddr_fenced l1 lb w1 s1 Hwk2) as Hf. pose proof (walking_visit x lb w1 s1 Hwk2) as [Hwk3 _].
  assert (visit x w1 s1 = visitAddr T Opt lf x w1 s1) as Hv.
  { unfold visitInstr. rewrite Hl, decide_True; [done|]. by apply A1. }
  rewrite Hv in Hwk3 |- *. rewrite (C1 x) in Hf by done. rewrite (C1 e) in Hf by done.
  destruct (visitAddr T Opt lf x w1 s1) as [w2 s2]. simpl in Hf, Hwk3.
  destruct (walking_walk lb [] w2 s2) as [_ Hpass]; [by rewrite app_nil_r|].
  eapply address_checked_passed; [exact Hpass|done..|]. apply Hf; try done; [rewrite Hb1; by list_simplifier|set_solver].
Qed.
End Fenced.
