(* ===== verification/SlhGep.v ===== *)
(** * Stand-alone address computations

    What [hardenStandAloneGEP] does to a block: the computation gets a new result, a new
    instruction right behind it merges the predicate state into that result, and every
    other reader of the old result, in the block and beyond, reads the merged one. *)
From stdpp Require Import base countable gmap sets list option strings.
From Stdlib Require Import ZArith Lia.
From S2P Require Import Prelude Machine Slh SlhFenced.

Section StandAlone.
Variable T : TargetInfo.
Variable lf : bool.

(** Every register of the code, and the state, came from [createVirtualRegister]. *)
Definition below (s : MState) : Prop :=
  (forall z i o n, code s !! z = Some i -> o ∈ mi_ops i -> getReg o = Virt n -> (n < nextReg s)%positive) /\
  (forall n, stateReg s = Virt n -> (n < nextReg s)%positive).

(** Looks an address up among the inserted instructions. *)
Ltac inserts H :=
  repeat (apply lookup_insert_Some in H as [[<- <-]|[? H]]).

(** The instruction that checks a register: the state it reads, and that no other
    instruction defines the result. *)
Definition checked_by (s s' : MState) (pt : option positive) (r : reg) (y : positive) (st : reg) (n : positive) : Prop :=
  (nextReg s <= n)%positive /\ (nextInstr s <= y)%positive /\
  (exists news, y ∈ news /\ Forall (fun z => nextInstr s <= z)%positive news /\
    body s' = foldl (fun b z => insertBefore z pt b) (body s) news) /\
  (exists op, op ∈ mergeOpcodes /\ code s' !! y = Some (built op 1 [def (Virt n); use st; use r; deadFlags])) /\
  (st = stateReg s \/ exists z m, z <> y /\ st = Virt m /\ (nextReg s <= m)%positive /\
    code s' !! z = Some (built "COPY" 1 [def st; use (stateReg s)])) /\
  (forall z, (z < nextInstr s)%positive -> code s' !! z = code s !! z) /\
  (forall z i o, code s' !! z = Some i -> o ∈ mi_ops i -> isDef o = true -> getReg o = Virt n -> z = y).

Lemma hardenValueInRegister_exact r pt s : below s ->
  exists y st n, (hardenValueInRegister T lf r pt s).1 = Virt n /\ checked_by s (hardenValueInRegister T lf r pt s).2 pt r y st n.
Proof.
  intros (Hreg & Hst). unfold checked_by.
  unfold hardenValueInRegister, getRegClass, narrowState, saveIfLive, isEFLAGSLive, saveEFLAGS, restoreIf, restoreEFLAGS,
    gets, mbind, SM_bind, mret, SM_ret.
  set (RC := default _ _). set (op := OrOpCode _). pose proof (or_merges (regBytes T RC)) as Hop. fold op in Hop.
  set (p := nextInstr s). set (q := nextReg s).
  destruct (regBytes T RC =? 8)%Z; simpl; destruct (flagsLive lf _); simpl;
    [exists (Pos.succ p), (stateReg s), (Pos.succ q)|exists p, (stateReg s), q
    |exists (Pos.succ (Pos.succ p)), (Virt q), (Pos.succ (Pos.succ q))|exists (Pos.succ p), (Virt q), (Pos.succ q)].
  all: (split; [reflexivity|]; split_and!; [lia|lia| | | | |]).
  all: unfold p, q in *; clear p q.
  all: try (exists op; split; [done|repeat first [rewrite lookup_insert_eq|rewrite lookup_insert_ne by lia]; done]).
  all: try (by left).
  all: lazymatch goal with
    | |- exists news, _ /\ _ /\ insertBefore ?a _ (insertBefore ?b _ (insertBefore ?c _ (insertBefore ?d _ _))) = _ =>
      exists [d; c; b; a]; split_and!; [set_solver|repeat constructor; lia|done]
    | |- exists news, _ /\ _ /\ insertBefore ?a _ (insertBefore ?b _ (insertBefore ?c _ _)) = _ =>
      exists [c; b; a]; split_and!; [set_solver|repeat constructor; lia|done]
    | |- exists news, _ /\ _ /\ insertBefore ?a _ (insertBefore ?b _ _) = _ =>
      exists [b; a]; split_and!; [set_solver|repeat constructor; lia|done]
    | |- exists news, _ /\ _ /\ insertBefore ?a _ _ = _ =>
      exists [a]; split_and!; [set_solver|repeat constructor; lia|done]
    | _ => idtac
    end.
  all: try (right; exists (nextInstr s), (nextReg s); split_and!;
    [lia|done|lia|repeat first [rewrite lookup_insert_eq|rewrite lookup_insert_ne by lia]; done]).
  all: try (intros z Hz; rewrite !lookup_insert_ne by lia; done).
  all: intros z i o Hz Ho Hd Hn; inserts Hz; try done;
    try (pose proof (Hreg _ _ _ _ Hz Ho Hn); lia);
    simpl in Ho; set_unfold in Ho; destruct_or!; subst o; unfold getReg, def, use, deadFlags in Hd, Hn; simpl in Hd, Hn; try discriminate; simplify_eq; lia.
Qed.

Lemma inserted_after l1 l2 n news :
  NoDup (l1 ++ l2) -> (forall x, x ∈ l2 -> (x < n)%positive) -> Forall (fun z => n <= z)%positive news ->
  foldl (fun b z => insertBefore z (head l2) b) (l1 ++ l2) news = l1 ++ news ++ l2.
Proof.
  intros Hd Hl Hn. assert (forall a, (forall y, head l2 = Some y -> y ∉ l1 ++ a) ->
    foldl (fun b z => insertBefore z (head l2) b) (l1 ++ a ++ l2) news = l1 ++ (a ++ news) ++ l2) as Hgen.
  { induction Hn as [|z news Hz Hn IH]; intros a Ha; simpl; [by rewrite app_nil_r|].
    assert (insertBefore z (head l2) (l1 ++ a ++ l2) = l1 ++ (a ++ [z]) ++ l2) as ->.
    { destruct l2 as [|y l2]; simpl; [rewrite insertBefore_end; by list_simplifier|].
      rewrite (assoc_L (++)), insertBefore_at by (by apply Ha). by list_simplifier. }
    rewrite IH; [by list_simplifier|]. intros y Hy Hin. apply (Ha y Hy). rewrite (assoc_L (++)) in Hin.
    apply elem_of_app in Hin as [Hin| ->%list_elem_of_singleton]; [done|]. exfalso.
    assert (z < n)%positive by (apply Hl; destruct l2; simplify_eq/=; left). lia. }
  apply (Hgen []). intros y Hy Hin. rewrite app_nil_r in Hin. apply NoDup_app in Hd as (_ & Hd & _).
  apply (Hd y Hin). destruct l2; simplify_eq/=. left.
Qed.

Lemma head_filter {A} (P : A -> Prop) `{forall x, Decision (P x)} (l : list A) y :
  y ∈ l -> P y -> (forall z, z ∈ l -> P z -> z = y) -> head (filter P l) = Some y.
Proof.
  intros Hy HP Hu. destruct (filter P l) as [|z l'] eqn:Hf.
  - assert (y ∈ filter P l) as Hin by (by apply list_elem_of_filter). rewrite Hf in Hin. by apply elem_of_nil in Hin.
  - assert (z ∈ filter P l) as [HPz Hz]%list_elem_of_filter by (rewrite Hf; left). simpl. f_equal. by apply Hu.
Qed.

Definition reads (r : reg) (o : MOperand) : bool := isReg o && negb (isDef o) && bool_decide (getReg o = r).

(** The check of a stand-alone computation, in the state [s'] after it. *)
Record standalone (s : MState) (MI : positive) (l1 l2 : list positive) (old h : reg) (s' : MState) : Prop := {
  (** The computation has a new result [u], which a new instruction right behind it checks. *)
  sa_check : exists u y st news op ops, h <> u /\ u = Virt (nextReg s) /\
    body s' = l1 ++ MI :: news ++ l2 /\ y ∈ news /\ (forall z, z ∈ news -> (nextInstr s <= z)%positive) /\
    mi_ops (instr MI s) = def old :: ops /\ mi_ops (instr MI s') = def u :: (renameUse old h <$> ops) /\
    op ∈ mergeOpcodes /\ mi_ops (instr y s') = [def h; use st; use u; deadFlags] /\ opcode (instr y s') = op /\
    (st = stateReg s \/ exists z, mi_ops (instr z s') = [def st; use (stateReg s)] /\ opcode (instr z s') = "COPY"%string);
  (** Every other use of the old result, in the block and beyond, reads the checked one. *)
  sa_others z : (z < nextInstr s)%positive -> z <> MI -> instr z s' = mapOps (renameUse old h) (instr z s);
  sa_uses z o : o ∈ mi_ops (instr z s') -> reads old o = false }.

Lemma renameUse_reads old to o : to <> old -> reads old (renameUse old to o) = false.
Proof.
  intros Hto. unfold reads, renameUse. destruct (isReg o && negb (isDef o) && bool_decide (getReg o = old)) eqn:Hr; [|done].
  unfold isReg, getReg, setReg. simpl. rewrite bool_decide_false by done. by rewrite andb_false_r.
Qed.

Lemma renameUse_id old to o : reads old o = false -> renameUse old to o = o.
Proof. unfold reads, renameUse. by intros ->. Qed.

Lemma reads_use old r : r <> old -> reads old (use r) = false.
Proof. intros Hr. unfold reads. simpl. by rewrite bool_decide_false. Qed.

(** The computation [MI], with result [old], in its block. *)
Variable MI : positive.
Variable s : MState.
Variable l1 l2 : list positive.
Variable old : reg.
Variable i : MInstr.
Variable ops : list MOperand.
Hypothesis Hbelow : below s.
Hypothesis Hd : NoDup (body s).
Hypothesis Hb : forall x, x ∈ body s -> (x < nextInstr s)%positive.
Hypothesis Hbody : body s = l1 ++ MI :: l2.
Hypothesis Hi : code s !! MI = Some i.
Hypothesis Hops : mi_ops i = def old :: ops.
Hypothesis Hold : old <> stateReg s.

Abbreviation u := (Virt (nextReg s)).

(** The state in which the result is unhardened. *)
Definition unhardened : MState :=
  (setOperandReg MI 0 u (MS (code s) (body s) (<[u := default (OtherRC 1) (regClass s !! old)]> (regClass s))
    (nextInstr s) (Pos.succ (nextReg s)) (stateReg s))).2.

Lemma old_below n : old = Virt n -> (n < nextReg s)%positive.
Proof using Hbelow Hi Hops. intros Hn. apply (proj1 Hbelow MI i (def old)); [done|rewrite Hops; left|done]. Qed.

Lemma code_unhardened z : code unhardened !! z = if decide (z = MI) then Some (withOps (def u :: ops) i) else code s !! z.
Proof using Hi Hops.
  unfold unhardened, setOperandReg, updateInstr. simpl. case_decide as Hz; [|by rewrite lookup_alter_ne].
  subst z. rewrite lookup_alter_eq, Hi. simpl. by rewrite Hops.
Qed.

Lemma below_unhardened : below unhardened.
Proof using Hbelow Hi Hops.
  destruct Hbelow as [Hreg Hst]. split; [|intros n Hn; simpl; pose proof (Hst n Hn); lia].
  intros z j o n Hz Ho Hn. rewrite code_unhardened in Hz. simpl. case_decide; simplify_eq; [|pose proof (Hreg z j o n Hz Ho Hn); lia].
  simpl in Ho. apply elem_of_cons in Ho as [->|Ho]; [injection Hn as <-; lia|].
  assert (n < nextReg s)%positive; [|lia]. apply (Hreg MI i o); [done|rewrite Hops; by right|done].
Qed.

Lemma check_body s' old' y st n :
  checked_by unhardened s' (head l2) old' y st n ->
  exists news, y ∈ news /\ Forall (fun z => nextInstr s <= z)%positive news /\ body s' = l1 ++ MI :: news ++ l2.
Proof using All.
  intros (_ & _ & (news & Hy & Hn & Hbs) & _). exists news. split_and!; [done..|].
  change (body unhardened) with (body s) in Hbs. rewrite Hbs, Hbody.
  replace (l1 ++ MI :: l2) with ((l1 ++ [MI]) ++ l2) by (by list_simplifier).
  rewrite (inserted_after _ _ (nextInstr s)); [by list_simplifier|rewrite Hbody in Hd; by list_simplifier
    |intros x Hx; apply Hb; rewrite Hbody; set_solver|done].
Qed.

(** The run: the check, and the new readers. *)
Lemma hardenStandAloneGEP_run :
  exists y st n, let sC := (hardenValueInRegister T lf old (head l2) unhardened).2 in
    checked_by unhardened sC (head l2) old y st n /\
    hardenStandAloneGEP T lf MI s = (Virt n, (mapCode (fun x i =>
      mapOps (renameUse old (if decide (Some y = Some x) then u else Virt n)) i) sC).2).
Proof using All.
  destruct (hardenValueInRegister_exact old (head l2) unhardened below_unhardened) as (y & st & n & Hres & Hck).
  exists y, st, n. split; [exact Hck|]. destruct (check_body _ _ _ _ _ Hck) as (news & Hy & _ & HbC).
  destruct Hck as (_ & _ & _ & (op & _ & Hyc) & _ & _ & Huniq).
  assert (nextIn (body s) MI = head l2) as Hnext by (rewrite Hbody in Hd |- *; by apply nextIn_split).
  assert (mi_ops (instr MI s) = def old :: ops) as Hops' by (unfold instr; by rewrite Hi).
  unfold hardenStandAloneGEP, getOperand, getRegClass, createVirtualRegister, getNextNode, getVRegDef, gets, mbind, SM_bind.
  cbn beta iota. rewrite Hops'. cbn [nth getReg def mo_kind]. change (setOperandReg MI 0 u _) with (tt, unhardened).
  cbn beta iota. change (body unhardened) with (body s). rewrite Hnext.
  destruct (hardenValueInRegister T lf old (head l2) unhardened) as [h sC]. simpl in Hres, HbC, Hyc, Huniq. subst h.
  rewrite (head_filter _ _ y); [done|rewrite HbC; set_solver|..].
  - unfold instr. rewrite Hyc. simpl. by rewrite bool_decide_true.
  - intros z _ Hz. unfold instr in Hz. destruct (code sC !! z) as [j|] eqn:Hj; [|done]. simpl in Hz.
    apply existsb_exists in Hz as (o & Ho%list_elem_of_In & [[_ Hdef]%andb_true_iff Hr%bool_decide_eq_true]%andb_true_iff).
    by apply (Huniq z j o).
Qed.

Lemma hardenStandAloneGEP_exact :
  (MI < nextInstr s)%positive ->
  standalone s MI l1 l2 old (hardenStandAloneGEP T lf MI s).1 (hardenStandAloneGEP T lf MI s).2.
Proof using All.
  intros HMI. destruct hardenStandAloneGEP_run as (y & st & n & Hck & ->). cbn [fst snd].
  set (sC := (hardenValueInRegister T lf old (head l2) unhardened).2) in *. set (sD := (mapCode _ sC).2).
  destruct (check_body _ _ _ _ _ Hck) as (news & Hynews & Hnews & HbC).
  destruct Hck as (Hn & Hyn & _ & (op & Hop & Hy) & Hstate & Hsame & _). simpl in Hn, Hyn, Hstate, Hsame.
  assert (forall z, instr z sD = mapOps (renameUse old (if decide (Some y = Some z) then u else Virt n)) (instr z sC)) as HD.
  { intros z. unfold sD, mapCode, instr. simpl. rewrite map_lookup_imap. by destruct (code sC !! z). }
  assert (u <> old) as Huo by (intros Hu; pose proof (old_below _ (eq_sym Hu)); lia).
  assert (Virt n <> old) as Hno by (intros Hu; pose proof (old_below _ (eq_sym Hu)); lia).
  assert (st <> old) as Hsto.
  { destruct Hstate as [->|(z & m & _ & -> & Hm & _)]; [done|]. intros Hu. pose proof (old_below _ (eq_sym Hu)). lia. }
  split.
  - exists u, y, st, news, op, ops. split_and!; try done.
    + intros [= ->]. lia.
    + intros z Hz. exact (proj1 (Forall_forall _ _) Hnews z Hz).
    + unfold instr. by rewrite Hi.
    + rewrite HD, decide_False by (intros [= ->]; lia). unfold instr. by rewrite Hsame, code_unhardened, decide_True.
    + rewrite HD, decide_True by done. unfold instr. rewrite Hy. simpl.
      rewrite (renameUse_id _ _ (use st)) by by apply reads_use. unfold renameUse at 2. simpl. by rewrite bool_decide_true.
    + rewrite HD. unfold instr. by rewrite Hy.
    + destruct Hstate as [->|(z & m & Hz & _ & _ & Hcz)]; [by left|right]. exists z.
      rewrite HD, decide_False by congruence. unfold instr. rewrite Hcz. split; [|done]. simpl.
      by rewrite (renameUse_id _ _ (use (stateReg s))) by by apply reads_use.
  - intros z Hz Hne. rewrite HD, decide_False by (intros [= ->]; lia). unfold instr. by rewrite Hsame, code_unhardened, decide_False.
  - intros z o. rewrite HD. intros (o' & -> & _)%list_elem_of_fmap. apply renameUse_reads. by case_decide.
Qed.
End StandAlone.
