(* ===== verification/SlhHarden.v ===== *)
(** * What the hardening pass guarantees

    The end of the marker protocol: the markers leave no trace, the accesses the middle end
    fenced read and write through checked addresses, and a computed address is checked for
    all its users.  At the end, blocks on which the protocol does not hold what its
    comments say. *)
From stdpp Require Import base countable gmap sets list option strings.
From Stdlib Require Import ZArith Lia.
From S2P Require Import Prelude Machine Slh SlhSteps SlhMarkers SlhFenced SlhGep.

(** ** The accesses the scan selects *)
Section Select.
Variable T : TargetInfo.
Variable Opt : Options.
Variable s : MState.

(** A memory access whose address has registers. *)
Definition addressed (i : MInstr) : Prop :=
  exists k, memoryOperandNo i = Some k /\ (BaseReg i k <> NoRegister \/ IndexReg i k <> NoRegister).

(** Registers computed from what an access in [l] loads. *)
Inductive loadDep (l : list positive) (r : reg) : Prop :=
| ld_load a y b : l = a ++ y :: b -> addressed (instr y s) -> r ∈ defRegs (instr y s) -> loadDep l r
| ld_flow a y b o : l = a ++ y :: b -> o ∈ mi_uses (instr y s) -> isReg o = true -> loadDep a (getReg o) ->
    r ∈ defRegs (instr y s) -> loadDep l r.

Lemma loadDep_app l l' r : loadDep l r -> loadDep (l ++ l') r.
Proof.
  intros [a y b -> Ha Hr|a y b o -> Ho Hro Ha Hr].
  - eapply (ld_load _ _ a y (b ++ l')); [by list_simplifier|done..].
  - eapply (ld_flow _ _ a y (b ++ l') o); [by list_simplifier|done..].
Qed.

Lemma scanMarker_dep MI rest c : LoadDepRegs (scanMarker s MI rest c) = LoadDepRegs c.
Proof. unfold scanMarker. repeat case_match; done. Qed.

Lemma propagateDep_dep a y c r :
  (forall r, r ∈ LoadDepRegs c -> loadDep a r) -> r ∈ LoadDepRegs (propagateDep (instr y s) c) ->
  loadDep a r \/ (r ∈ defRegs (instr y s) /\ loadDep (a ++ [y]) r).
Proof.
  intros Hc. unfold propagateDep. case_match eqn:Hex; [|intros Hr; left; by apply Hc].
  simpl. intros [Hr|Hr]%elem_of_union; [|left; by apply Hc]. right. split; [done|].
  apply existsb_exists in Hex as (o & Ho%list_elem_of_In & [Hro Hd%bool_decide_eq_true]%andb_true_iff).
  eapply (ld_flow _ _ a y [] o); auto.
Qed.

Lemma scanAccess_dep MI c r :
  r ∈ LoadDepRegs (scanAccess T Opt s MI (instr MI s) c) ->
  r ∈ LoadDepRegs c \/ (addressed (instr MI s) /\ r ∈ defRegs (instr MI s)).
Proof.
  unfold scanAccess. case_match; [by left|]. case_match; [by left|].
  destruct (memoryOperandNo (instr MI s)) as [k|] eqn:Hk; [|case_match; by left].
  unfold scanAddress. case_match eqn:Hreg.
  { unfold withFixed, withStore. repeat case_match; by left. }
  assert (addressed (instr MI s)) as Ha.
  { exists k. split; [done|]. apply andb_false_iff in Hreg as [?%bool_decide_eq_false|?%bool_decide_eq_false]; auto. }
  unfold withPostLoad, withAddr, withStore. repeat case_match; simpl; set_solver.
Qed.

(** What the scan took for load-dependent is. *)
Lemma scan_loadDep l a l2 c :
  (forall r, r ∈ LoadDepRegs c -> loadDep a r) -> no_fence s l ->
  exists c', scanBlock T Opt s (l ++ l2) c = scanBlock T Opt s l2 c' /\ forall r, r ∈ LoadDepRegs c' -> loadDep (a ++ l) r.
Proof.
  revert a c. induction l as [|y l IH]; intros a c Hc Hf.
  { exists c. by rewrite app_nil_r. }
  cbn [scanBlock app]. rewrite bool_decide_false by (apply Hf; left).
  destruct (IH (a ++ [y]) (scanAccess T Opt s y (instr y s) (propagateDep (instr y s) (scanMarker s y (l ++ l2) c))))
    as (c' & Hs & Hd).
  - intros r [Hr|[Ha Hr]]%scanAccess_dep.
    + apply (propagateDep_dep a) in Hr as [Hr|[_ Hr]]; [by apply loadDep_app|done|]. intros r'. rewrite scanMarker_dep. apply Hc.
    + eapply (ld_load _ _ a y []); done.
  - intros z Hz. apply Hf. by right.
  - exists c'. split; [exact Hs|]. intros r Hr. specialize (Hd r Hr). by rewrite <- (assoc_L (++)) in Hd.
Qed.

(** The list only grows. *)
Lemma scan_addr_mono l c x : x ∈ HardenLoadAddr c -> x ∈ HardenLoadAddr (scanBlock T Opt s l c).
Proof.
  revert c. induction l as [|y l IH]; intros c Hx; cbn [scanBlock]; [done|].
  assert (x ∈ HardenLoadAddr (propagateDep (instr y s) (scanMarker s y l c))) as Hp.
  { unfold propagateDep, scanMarker. repeat case_match; done. }
  case_match; [done|]. apply IH. unfold scanAccess, scanAddress, withFixed, withPostLoad, withAddr, withStore.
  repeat case_match; simpl; set_solver.
Qed.

Lemma scan_post_mono l c x : x ∈ HardenPostLoad c -> x ∈ HardenPostLoad (scanBlock T Opt s l c).
Proof.
  revert c. induction l as [|y l IH]; intros c Hx; cbn [scanBlock]; [done|].
  assert (x ∈ HardenPostLoad (propagateDep (instr y s) (scanMarker s y l c))) as Hp.
  { unfold propagateDep, scanMarker. repeat case_match; done. }
  case_match; [done|]. apply IH. unfold scanAccess, scanAddress, withFixed, withPostLoad, withAddr, withStore.
  repeat case_match; simpl; set_solver.
Qed.

(** Loads are not on the list of stores. *)
Lemma scan_store_loads l c x :
  (x ∈ HardenStoreAddr c -> mayLoad (instr x s) = false) -> x ∈ HardenStoreAddr (scanBlock T Opt s l c) ->
  mayLoad (instr x s) = false.
Proof.
  revert c. induction l as [|y l IH]; intros c Hc; cbn [scanBlock]; [done|].
  assert (HardenStoreAddr (propagateDep (instr y s) (scanMarker s y l c)) = HardenStoreAddr c) as Hp.
  { unfold propagateDep, scanMarker. repeat case_match; done. }
  case_match; [by rewrite Hp|]. apply IH. rewrite <- Hp in Hc. revert Hc. generalize (propagateDep (instr y s) (scanMarker s y l c)).
  intros c' Hc. unfold scanAccess. case_match; [done|]. case_match; [done|].
  assert (forall c2 i k, HardenStoreAddr (scanAddress T Opt s y i k c2) ⊆ HardenStoreAddr c2) as Hsub.
  { intros c2 i k. unfold scanAddress, withFixed, withPostLoad, withAddr. repeat case_match; simpl; set_solver. }
  destruct (memoryOperandNo _); [intros Hx%Hsub|intros Hx]; revert Hx; (case_match eqn:Hst; [|exact Hc]);
    rewrite !andb_true_iff, negb_true_iff in Hst; destruct Hst as [_ [_ Hml]];
    (intros [->%elem_of_singleton|Hx]%elem_of_union; [done|by apply Hc]).
Qed.

(** A load is selected unless its address comes from an access before it. *)
Lemma scan_selects a x b k :
  no_fence s (a ++ [x]) -> mayLoad (instr x s) = true ->
  opcode (instr x s) <> "MFENCE"%string -> memoryOperandNo (instr x s) = Some k -> addressed (instr x s) ->
  (forall r, r = BaseReg (instr x s) k \/ r = IndexReg (instr x s) k ->
    r = NoRegister \/ (~ loadDep a r /\ r ∉ defRegs (instr x s))) ->
  x ∈ HardenLoadAddr (scanBlock T Opt s (a ++ x :: b) emptyScan) \/ x ∈ HardenPostLoad (scanBlock T Opt s (a ++ x :: b) emptyScan).
Proof.
  intros Hf Hml Hmf Hk (k' & Hk' & Hreg) Hdep. rewrite Hk in Hk'. injection Hk' as <-.
  destruct (scan_loadDep a [] (x :: b) emptyScan) as (c & -> & Hc); [set_solver|intros y Hy; apply Hf; set_solver|].
  cbn [scanBlock]. rewrite bool_decide_false by (apply Hf; set_solver).
  set (c1 := propagateDep _ _).
  set (c2 := scanAccess _ _ _ _ _ _).
  cut (x ∈ HardenLoadAddr c2 \/ x ∈ HardenPostLoad c2); [intros [H|H]; [left; by apply scan_addr_mono|right; by apply scan_post_mono]|]. subst c2.
  assert (forall r, r = BaseReg (instr x s) k \/ r = IndexReg (instr x s) k ->
    negb (bool_decide (r = NoRegister)) && bool_decide (r ∈ LoadDepRegs c1) = false) as Hno.
  { intros r Hr. destruct (Hdep r Hr) as [->|[Hn Hd]]; [by rewrite bool_decide_true|].
    apply andb_false_iff. right. apply bool_decide_eq_false. intros Hin.
    apply (propagateDep_dep a) in Hin as [Hin|[Hin _]]; [done..|]. intros r'. rewrite scanMarker_dep. apply Hc. }
  unfold scanAccess. rewrite Hml. cbn [negb andb]. rewrite bool_decide_false by done. rewrite andb_false_r, andb_false_r, Hk.
  unfold scanAddress. case_match eqn:H1.
  { apply andb_true_iff in H1 as [?%bool_decide_eq_true ?%bool_decide_eq_true]. by destruct Hreg. }
  rewrite (Hno _ (or_introl eq_refl)), (Hno _ (or_intror eq_refl)). cbn [orb]. case_match; simpl; [right|left]; set_solver.
Qed.
End Select.

(** ** A begin marker without an end *)
Section Unmatched.
Variable T : TargetInfo.
Variable Opt : Options.
Variable s : MState.

Lemma findAfter_none l n o : (forall y, y ∈ l -> isMarker DUMMY_AFTER (instr y s) = false) -> (findAfter s l n o).2 = None.
Proof.
  revert n o. induction l as [|y l IH]; intros n o Hl; cbn [findAfter]; [done|].
  rewrite Hl by left. apply IH. intros z Hz. apply Hl. by right.
Qed.

(** The pointers of markers only accumulate. *)
Definition markerSet (c : Scan) : gset (option positive) := DummyInstr c ∪ StandAloneGEPDummyInstr c.

Lemma markerSet_marks c c' : marks c = marks c' -> markerSet c = markerSet c'.
Proof. unfold marks, markerSet. by intros [= -> ->]. Qed.

Lemma scan_markerSet l c o : o ∈ markerSet c -> o ∈ markerSet (scanBlock T Opt s l c).
Proof.
  revert c. induction l as [|y l IH]; intros c Ho; cbn [scanBlock]; [done|].
  assert (o ∈ markerSet (propagateDep (instr y s) (scanMarker s y l c))) as Hm.
  { rewrite (markerSet_marks _ _ (marks_propagate _ _)). revert Ho. unfold markerSet, scanMarker.
    repeat case_match; simpl; set_solver. }
  case_match; [done|]. apply IH. by rewrite (markerSet_marks _ _ (marks_access T Opt s _ _ _)).
Qed.

Lemma scan_unmatched l1 b l2 c :
  no_fence s l1 -> isMarker DUMMY_BEFORE (instr b s) = true ->
  (forall y, y ∈ l2 -> isMarker DUMMY_AFTER (instr y s) = false) ->
  None ∈ markerSet (scanBlock T Opt s (l1 ++ b :: l2) c).
Proof.
  intros Hf Hb Hl. revert c. induction l1 as [|y l1 IH]; intros c; cbn [scanBlock app].
  - assert (None ∈ markerSet (propagateDep (instr b s) (scanMarker s b l2 c))) as Hm.
    { rewrite (markerSet_marks _ _ (marks_propagate _ _)). unfold markerSet, scanMarker. rewrite Hb.
      pose proof (findAfter_none l2 0 None Hl) as Hn. destruct (findAfter s l2 0 None) as [[n o] e]. simpl in Hn. subst e.
      case_match; simpl; set_solver. }
    case_match; [done|]. apply scan_markerSet. by rewrite (markerSet_marks _ _ (marks_access T Opt s _ _ _)).
  - rewrite bool_decide_false by (apply Hf; left). apply IH. intros z Hz. apply Hf. by right.
Qed.
End Unmatched.

(** ** The walk on a block with markers *)
Section Access.
Context {orderInstrs : SetOrder positive} {orderNull : SetOrder (option positive)}.
Variable T : TargetInfo.
Variable Opt : Options.
Variable lf succ_empty : bool.
Variable PoisonReg : reg.
Variable s : MState.
Variable segs : list seg.
Hypothesis Hwf : block_wf s segs.

Abbreviation n0 := (nextInstr s).
Abbreviation D := (segs ≫= emptyPair).
Abbreviation s1 := (walkStart T Opt lf s segs).
Abbreviation m0 := (gepPhase T Opt lf s).1.

(** A block without post-load hardening has no load on that list. *)
Lemma scan_no_post l c :
  EnablePostLoadHardening Opt = false -> HardenPostLoad (scanBlock T Opt s l c) = HardenPostLoad c.
Proof using Type.
  clear. intros Hp. revert c. induction l as [|y l IH]; intros c; cbn [scanBlock]; [done|].
  assert (HardenPostLoad (propagateDep (instr y s) (scanMarker s y l c)) = HardenPostLoad c) as Hm.
  { unfold propagateDep, scanMarker. repeat case_match; done. }
  case_match; [done|]. rewrite IH, <- Hm.
  unfold scanAccess, scanAddress, postLoadable, withFixed, withAddr, withStore. rewrite Hp. simpl. repeat case_match; done.
Qed.

(** An old instruction is what it was, but for its operands. *)
Lemma walkStart_sig x : (x < n0)%positive -> sig (instr x s1) = sig (instr x s).
Proof using Hwf. apply (bi_sig _ _ _ _ _ (walkStart_inv T Opt lf s segs Hwf)). Qed.

Lemma walkStart_marker x : aMarker (instr x s1) = true -> (x < n0)%positive /\ aMarker (instr x s) = true.
Proof using Hwf.
  intros Hm. destruct (decide (x < n0)%positive) as [Hx|Hx].
  - split; [done|]. by rewrite <- (sig_aMarker _ _ (walkStart_sig x Hx)).
  - unfold aMarker, isMarker in Hm. by rewrite (bi_new _ _ _ _ _ (walkStart_inv T Opt lf s segs Hwf)) in Hm by lia.
Qed.

Lemma walk_pairs b e : (b, e) ∈ D ->
  (b < nextInstr s1)%positive /\ (e < nextInstr s1)%positive /\ aMarker (instr b s1) = true /\ aMarker (instr e s1) = true.
Proof using Hwf.
  intros (Hb & He & Hmb & Hme)%(pairs_markers s segs Hwf).
  pose proof (bi_n0 _ _ _ _ _ (walkStart_inv T Opt lf s segs Hwf)).
  split_and!; [lia|lia|by rewrite (sig_aMarker _ _ (walkStart_sig b Hb))|by rewrite (sig_aMarker _ _ (walkStart_sig e He))].
Qed.

Lemma walk_quiet x : (x < nextInstr s1)%positive -> aMarker (instr x s1) = true -> quietMarker (instr x s1) = true.
Proof using Hwf.
  intros _ [Hx Hm]%walkStart_marker. rewrite (sig_quiet _ _ (walkStart_sig x Hx)). by apply (wf_quiet _ _ Hwf).
Qed.

Lemma walk_ends : ends_paired s1 D (body s1).
Proof using Hwf.
  intros e Hin Hm. assert (aMarker (instr e s1) = true) as Ha by (unfold aMarker; rewrite Hm; apply orb_true_r).
  apply walkStart_marker in Ha as [Hlt _]. apply (walked_paired s segs Hwf).
  - rewrite <- (bi_old _ _ _ _ _ (walkStart_inv T Opt lf s segs Hwf)). by apply list_elem_of_filter.
  - by rewrite <- (sig_marker _ _ _ (walkStart_sig e Hlt)).
Qed.

Lemma walking_start l :
  HardenPostLoad (blockScan T Opt s) = ∅ -> body s1 = l ->
  walking s1 D m0 l (startWalk T Opt s m0) s1.
Proof using Hwf.
  intros Hp <-. pose proof (walkStart_inv T Opt lf s segs Hwf) as [Hd Hb Hn Hs Hnew Hold Hpairs]. split.
  - split; try done; [intros x Hx; apply Hnew; lia|]. by apply filter_all.
  - split; [|set_solver]. intros x [Hx Ha]%list_of_block _. rewrite (sig_active _ _ (walkStart_sig x (wf_bound _ _ Hwf x Hx))). done.
  - by exists [].
  - done.
  - split; [done|done|done|constructor].
  - intros a h Ha. by left.
  - exact Hp.
Qed.

Lemma filter_sublist {A} (P : A -> Prop) `{forall x, Decision (P x)} (l l' : list A) :
  l `sublist_of` l' -> filter P l `sublist_of` filter P l'.
Proof using Type.
  clear. induction 1 as [|x l l' Hl IH|x l l' Hl IH]; [done|..]; rewrite !filter_cons; [|by case_decide; [apply sublist_cons|]].
  case_decide; [by apply sublist_skip|done].
Qed.

(** Erasing the markers takes nothing from the checks. *)
Lemma address_checked_erased x k i w s2 :
  w_hardened w ⊆ someSet D -> Some x ∉ someSet D -> address_checked s1 m0 x k i s2 ->
  address_checked s1 m0 x k i (eraseMarks segs w s2).
Proof using Hwf.
  intros Hh Hx Ha j Hj. unfold eraseMarks. rewrite !eraseAllInstrs_body. cbv zeta.
  destruct (Ha j Hj) as [|(y & Hy & Hs)]; [by left|]. right. exists y.
  assert (forall y, (nextInstr s1 <= y)%positive -> Some y ∉ someSet D) as Hnew.
  { intros z Hz (b & e & (H1 & H2 & _)%walk_pairs & [[= <-]|[= <-]])%elem_of_someSet; lia. }
  pose proof Hy as (_ & _ & (Hyn & _) & _).
  assert (forall z, Some z ∉ someSet D -> Some z ∉ order (w_hardened w) /\ Some z ∉ order (someSet D ∖ w_hardened w)) as Hkeep.
  { intros z Hz. rewrite !elem_of_order. set_solver. }
  split.
  - destruct Hy as (i' & st & Hi & Ho & Hd & Hu & Hu' & Hst & Hr). exists i', st.
    assert (forall z j, inserted (nextInstr s1) s2 z j -> inserted (nextInstr s1) (eraseMarks segs w s2) z j) as Hins.
    { intros z j' (Hz & Hb & Hc). unfold eraseMarks. rewrite !eraseAllInstrs_body. split_and!; [done| |done].
      apply list_elem_of_filter. split; [by apply Hkeep, Hnew|]. apply list_elem_of_filter. split; [by apply Hkeep, Hnew|done]. }
    unfold eraseMarks in Hins. rewrite !eraseAllInstrs_body in Hins.
    split_and!; try done; [by apply Hins|by eapply stateful_incl].
  - simpl. destruct (Hkeep y (Hnew y Hyn)), (Hkeep x Hx).
    rewrite <- (filter_all (fun z => Some z ∉ order (someSet D ∖ w_hardened w)) [y; x]) by set_solver.
    rewrite <- (filter_all (fun z => Some z ∉ order (w_hardened w)) [y; x]) by set_solver.
    by do 2 apply filter_sublist.
Qed.

(** What follows an empty pair is not hardened alone. *)
Lemma after_pair_no_gep b e x : (b, e) ∈ D -> adjacent (body s) e x -> x ∉ ⋃ (segGEP s <$> segs).
Proof using Hwf.
  intros (Hb & He & _)%(empty_pair s segs Hwf) Ha. rewrite elem_of_union_list.
  intros (X & (g & -> & Hg)%list_elem_of_fmap & Hx).
  pose proof (proj1 (Forall_forall _ _) (wf_ok _ _ Hwf) g Hg) as Hok. destruct g as [y|b' mid e']; simpl in Hx; [set_solver|].
  destruct Hok as (Hb' & _ & Hmid). unfold lastReal in Hx.
  destruct (last _) as [y|] eqn:Hl; [|set_solver]. apply elem_of_singleton in Hx as ->.
  apply last_Some_elem_of, list_elem_of_filter in Hl as [_ Hl].
  assert (exists p, adjacent (body s) p y /\ isMarker DUMMY_AFTER (instr p s) = false) as (p & Hp & Hpm).
  { apply list_elem_of_split in Hg as (g1 & g2 & Hg). apply list_elem_of_split in Hl as (a & c & ->).
    rewrite (wf_segs _ _ Hwf), Hg, bind_app, bind_cons. cbn [flat].
    destruct (exists_last (l := b' :: a)) as (a' & p & Hpa); [done|]. exists p. split.
    - exists ((g1 ≫= flat) ++ a'), (c ++ [e'] ++ (g2 ≫= flat)).
      change (b' :: (a ++ y :: c) ++ [e']) with ((b' :: a) ++ (y :: c) ++ [e']) || idtac.
      replace (b' :: (a ++ y :: c) ++ [e']) with ((b' :: a) ++ y :: c ++ [e']) by (by list_simplifier). rewrite Hpa.
      by list_simplifier.
    - assert (p ∈ b' :: a) as [->|Hin]%elem_of_cons by (rewrite Hpa; set_solver); [by apply before_not_after|].
      assert (aMarker (instr p s) = false) as Hm by (apply Hmid; set_solver). by apply orb_false_iff in Hm as [_ ?]. }
  pose proof (adjacent_prev _ _ _ _ (wf_dup _ _ Hwf) Ha Hp). congruence.
Qed.

Lemma fenced_in_walk fuel b e x k :
  HardenLoads Opt = true -> HardenPostLoad (blockScan T Opt s) = ∅ -> (b, e) ∈ D -> adjacent (body s) e x ->
  x ∈ HardenLoadAddr (blockScan T Opt s) -> x ∉ HardenStoreAddr (blockScan T Opt s) ->
  memoryOperandNo (instr x s) = Some k ->
  exists w s', hardenBlock T Opt lf succ_empty PoisonReg fuel s = (Some w, s') /\ address_checked s1 m0 x k (instr x s1) s'.
Proof using Hwf.
  intros Hl Hp Hbe Ha Hx Hxs Hk.
  destruct (list_of_block T Opt s ∅ x) as [Hin Hact]; [simpl; set_solver|].
  assert (aMarker (instr x s) = false) as Hxm.
  { destruct (aMarker (instr x s)) eqn:Hm; [|done]. apply (wf_quiet _ _ Hwf), andb_true_iff in Hm as [Hm _].
    by rewrite Hact in Hm. }
  assert (forall l, (forall y, Some y ∈ someSet l -> aMarker (instr y s) = true) -> Some x ∉ someSet l) as Hno.
  { intros l Hm Hxl%Hm. congruence. }
  pose proof (wf_bound _ _ Hwf x Hin) as Hxlt.
  destruct (pairs_markers s segs Hwf b e Hbe) as (_ & Helt & _ & Hem).
  assert (block_inv n0 s [(e, x)] (walked s segs) s1) as Hex.
  { apply (walkStart_pairs T Opt lf s segs Hwf). intros b' e' [= -> ->]%list_elem_of_singleton. split; [done|].
    intros y [->| ->]; split.
    - intros [_ Hm]%(gep_in_block s segs Hwf). congruence.
    - intros HF. apply (pairs_disjoint s segs Hwf e); [|done]. apply elem_of_someSet. exists b, e. auto.
    - by apply (after_pair_no_gep b e).
    - apply Hno. intros y Hy. apply (paired_marker s segs Hwf). by right. }
  pose proof (bi_pairs _ _ _ _ _ Hex e x ltac:(left)) as (la & lb & Hb).
  assert (isMarker DUMMY_AFTER (instr e s) = true) as He by (by apply (empty_pair s segs Hwf b e)).
  destruct (hardenBlock_steps T Opt lf succ_empty PoisonReg s segs Hwf Hl fuel) as (Hr & _ & Hh).
  eexists _, _. split; [exact Hr|]. apply address_checked_erased; [exact Hh|apply Hno; intros y Hy; apply (paired_marker s segs Hwf); auto|].
  rewrite Hb. apply walk_fenced with (D := D) (e := e); try done.
  - exact walk_pairs.
  - exact walk_quiet.
  - exact walk_ends.
  - apply Hex.
  - by apply walking_start.
  - rewrite <- Hb. apply Hex.
  - rewrite (sig_marker _ _ _ (walkStart_sig e Helt)). done.
  - change (memoryOperandNo (instr x s1)) with (memoryOperandNo (sig (instr x s1))). by rewrite walkStart_sig.
Qed.
End Access.

(** ** A block *)
Definition marker (m : string) : MInstr := MIn "INLINEASM" (Some m) false false false false false false 0 0 None false false [].
Definition load (d b : reg) : MInstr :=
  MIn "MOV64rm" None false true false false false false 1 1 (Some 1%nat) true false
    [def d; use b; imm 1; use NoRegister; imm 0; use NoRegister].
Definition store (b v : reg) : MInstr :=
  MIn "MOV64mr" None false false true false false false 0 0 (Some 0%nat) false false
    [use b; imm 1; use NoRegister; imm 0; use NoRegister; use v].

(** A fenced load, an address computation between markers, and a store there. *)
Definition demoCode : gmap positive MInstr :=
  list_to_map [(1, marker DUMMY_BEFORE); (2, marker DUMMY_AFTER); (3, load (Virt 1) (Virt 2));
    (4, marker DUMMY_BEFORE); (5, built "LEA64r" 1 [def (Virt 3); use (Virt 2); imm 1; use NoRegister; imm 8; use NoRegister]);
    (6, marker DUMMY_AFTER); (7, store (Virt 3) (Virt 1))]%positive.
Definition demoState : MState :=
  MS demoCode [1; 2; 3; 4; 5; 6; 7]%positive (list_to_map [(Virt 1, GR64); (Virt 2, GR64); (Virt 3, GR64); (Virt 9, GR64_NOSP)])
    8 10 (Virt 9).
Definition demoTarget : TargetInfo :=
  {| getRegSizeInBits := fun rc => (match rc with GR8 | GR8_NOREX => 8 | GR16 | GR16_NOREX => 16 | GR32 | GR32_NOREX => 32
       | GR64 | GR64_NOREX | GR64_NOSP => 64 | VR128 | VR128X => 128 | VR256 | VR256X => 256 | VR512 => 512
       | OtherRC _ => 80 end)%Z;
     hasSuperClassEq := fun a b => bool_decide (a = b); hasVLX := false; hasBMI2 := false; has128ByteRedZone := false;
     exposesReturnsTwice := false; smallNonPIC := true |}.
Definition demoOptions : Options :=
  {| EnablePostLoadHardening := false; FenceCallAndRet := false; HardenInterprocedurally := true; HardenLoads := true;
     HardenIndirectCallsAndJumps := true; HardenFixedAddress := false; HardenStoreAddress := false; EnableFilter := true;
     EnableStoreFilter := true; HardenStandAloneGEPs := true |}.
Definition demoSegs : list seg := [Pair 1 [] 2; Plain 3; Pair 4 [5] 6; Plain 7]%positive.

Lemma demo_body x : is_Some (demoCode !! x) -> x ∈ body demoState.
Proof. intros [i Hi]. apply elem_of_list_to_map_2 in Hi. change (x ∈ body demoState) with (x ∈ ([1; 2; 3; 4; 5; 6; 7]%positive)). set_unfold. naive_solver. Qed.

Lemma demo_wf : block_wf demoState demoSegs.
Proof.
  assert (forall (P : positive -> Prop), P 1%positive -> P 2%positive -> P 3%positive -> P 4%positive -> P 5%positive ->
    P 6%positive -> P 7%positive -> forall x, x ∈ body demoState -> P x) as Hcase.
  { intros P **. set_unfold. naive_solver. }
  split.
  - apply (bool_decide_unpack _). vm_compute. done.
  - apply Hcase; vm_compute; done.
  - intros x Hx. apply eq_None_not_Some. intros Hs%demo_body. revert x Hs Hx. apply (Hcase (fun x => (8 <= x)%positive -> False)); lia.
  - reflexivity.
  - repeat constructor; try reflexivity; set_solver.
  - unfold no_fence. apply Hcase; vm_compute; discriminate.
  - intros x Hm. assert (x ∈ body demoState) as Hx.
    { apply demo_body. unfold instr in Hm. simpl in Hm. destruct (demoCode !! x); [done|discriminate]. }
    revert x Hx Hm.
    apply (Hcase (fun x => aMarker (instr x demoState) = true -> quietMarker (instr x demoState) = true)); vm_compute; done.
Qed.

(** ** The markers leave no trace *)

(** C25: with load hardening on and on a block without an [LFENCE] whose markers come in
    pairs, hardening erases exactly the markers (behind an [LFENCE] they stay,
    [markers_behind_fence_stay]).  The pass hands no null pointer to [MBB.erase] whatever
    the order the pointer sets are walked in; the block it leaves has the instructions that
    are no markers in their order, with new ones between them, it has no marker, and of an
    instruction that was there only operands changed. *)
Theorem markers_erased {orderInstrs : SetOrder positive} {orderNull : SetOrder (option positive)} T Opt liveInEFLAGS
    succ_empty PoisonReg s segs fuel :
  block_wf s segs -> HardenLoads Opt = true ->
  exists w s', hardenBlock T Opt liveInEFLAGS succ_empty PoisonReg fuel s = (Some w, s') /\
    filter (fun x => x < nextInstr s)%positive (body s') = filter (fun x => aMarker (instr x s) = false) (body s) /\
    (forall x, x ∈ body s' -> aMarker (instr x s') = false) /\
    (forall x, (x < nextInstr s)%positive -> withOps [] (instr x s') = withOps [] (instr x s)).
Proof.
  intros Hwf Hl. destruct (hardenBlock_runs T Opt liveInEFLAGS succ_empty PoisonReg s segs Hwf Hl fuel) as (w & s' & Hr & Hinv).
  exists w, s'. destruct Hinv as [_ _ _ Hsig Hnew Hold _]. split_and!; [done..| |exact Hsig].
  intros x Hx. destruct (decide (x < nextInstr s)%positive) as [Hlt|Hge].
  - assert (x ∈ filter (fun x => x < nextInstr s)%positive (body s')) as Hf by (by apply list_elem_of_filter).
    rewrite Hold in Hf. apply list_elem_of_filter in Hf as [Hf _]. by rewrite (sig_aMarker _ _ (Hsig x Hlt)).
  - unfold aMarker, isMarker. by rewrite Hnew by lia.
Qed.

Lemma markers_erased_witness :
  filter (fun x => x < 8)%positive (body (hardenBlock (orderInstrs := elementsOrder _) (orderNull := elementsOrder _)
    demoTarget demoOptions false false NoRegister 10 demoState).2) = [3; 5; 7]%positive.
Proof.
  destruct (markers_erased (orderInstrs := elementsOrder _) (orderNull := elementsOrder _) demoTarget demoOptions false false
    NoRegister demoState demoSegs 10) as (w & s' & Hr & Hold & _); [exact demo_wf|reflexivity|].
  rewrite Hr. exact Hold.
Defined.

(** ** Fenced accesses are checked *)

(** C7: a fenced load that does not depend on an earlier access of its block reads through a
    checked address, when the pass checks addresses and not loaded values.  The conditions:
    load hardening is on; the markers of the block come in pairs and the block has no
    [LFENCE]; the scan has put no load of the block on the list of post-load checks (which
    is so when that option, on by default, is off); the load directly follows an empty pair
    of markers and its address has a register; and no register of the address depends on
    an access of the block before the load, for the scan leaves such loads without a check
    (dependent_fenced_load_unchecked).  Then, for every order of the pointer sets, every
    operand of its address that is hardened holds, in the block the pass leaves, a new
    register that an instruction before the load computes from the register it had and the
    predicate state, or that the hardening of a stand-alone computation produced. *)
Theorem fenced_access_checked {orderInstrs : SetOrder positive} {orderNull : SetOrder (option positive)} T Opt liveInEFLAGS
    succ_empty PoisonReg s segs fuel b e x k l1 l2 :
  block_wf s segs -> HardenLoads Opt = true -> HardenPostLoad (blockScan T Opt s) = ∅ ->
  Pair b [] e ∈ segs -> body s = l1 ++ e :: x :: l2 ->
  mayLoad (instr x s) = true -> opcode (instr x s) <> "MFENCE"%string ->
  memoryOperandNo (instr x s) = Some k -> addressed (instr x s) ->
  (forall r, r = BaseReg (instr x s) k \/ r = IndexReg (instr x s) k ->
    r = NoRegister \/ (~ loadDep s (l1 ++ [e]) r /\ r ∉ defRegs (instr x s))) ->
  let s1 := walkStart T Opt liveInEFLAGS s segs in
  exists w s', hardenBlock T Opt liveInEFLAGS succ_empty PoisonReg fuel s = (Some w, s') /\
    forall j, j ∈ hardenOperands k (addrBase (instr x s1) k) (addrIndex (instr x s1) k) ->
      let old := getReg (nth j (mi_ops (instr x s1)) (imm 0)) in
      let new := getReg (nth j (mi_ops (instr x s')) (imm 0)) in
      (gepPhase T Opt liveInEFLAGS s).1 !! old = Some new \/
      exists y, checks (nextInstr s1) (nextReg s1) (stateReg s1) s' y old new /\ [y; x] `sublist_of` body s'.
Proof.
  intros Hwf Hl Hp Hpair Hb Hml Hmf Hk Ha Hdep s1.
  assert (body s = (l1 ++ [e]) ++ x :: l2) as Hb' by (rewrite Hb; by list_simplifier).
  destruct (fenced_in_walk T Opt liveInEFLAGS succ_empty PoisonReg s segs Hwf fuel b e x k Hl Hp) as (w & s' & Hr & Hc);
    [| | | |done|by exists w, s'].
  - apply list_elem_of_bind. exists (Pair b [] e). split; [left|done].
  - by exists l1, l2.
  - unfold blockScan in Hp |- *. rewrite Hb' in Hp |- *.
    destruct (scan_selects T Opt s (l1 ++ [e]) x l2 k) as [|Hx]; try done; [|rewrite Hp in Hx; set_solver].
    intros y Hy. apply (wf_fence _ _ Hwf). rewrite Hb. set_solver.
  - intros Hx%scan_store_loads; [congruence|]. simpl. set_solver.
Qed.

Lemma fenced_access_checked_witness :
  let s1 := walkStart (orderInstrs := elementsOrder _) (orderNull := elementsOrder _) demoTarget demoOptions false demoState
    demoSegs in
  exists w s', hardenBlock (orderInstrs := elementsOrder _) (orderNull := elementsOrder _) demoTarget demoOptions false false
      NoRegister 10 demoState = (Some w, s') /\
    exists y, checks (nextInstr s1) (nextReg s1) (stateReg s1) s' y (Virt 2) (Virt 12) /\ [y; 3%positive] `sublist_of` body s'.
Proof.
  intros s1.
  destruct (fenced_access_checked (orderInstrs := elementsOrder _) (orderNull := elementsOrder _) demoTarget demoOptions false
    false NoRegister demoState demoSegs 10 1 2 3 1 [1%positive] [4; 5; 6; 7]%positive) as (w & s' & Hr & Hc); try reflexivity.
  - exact demo_wf.
  - left.
  - vm_compute. discriminate.
  - exists 1%nat. split; [reflexivity|left]. vm_compute. discriminate.
  - assert (forall a r, (forall y, y ∈ a -> y = 1 \/ y = 2)%positive -> ~ loadDep demoState a r) as Hno.
    { intros a r Ha [a' y b' -> _ Hr|a' y b' o -> _ _ _ Hr]; destruct (Ha y) as [->| ->]; (set_solver || by vm_compute in Hr). }
    intros r [->| ->]; [right|left; reflexivity]. split; [apply Hno; set_solver|]. apply (bool_decide_unpack _). by vm_compute.
  - exists w, s'. split; [exact Hr|]. destruct (Hc 1%nat) as [Hm|Hy]; [left| |].
    + exfalso. vm_compute in Hm. discriminate.
    + replace s' with (hardenBlock (orderInstrs := elementsOrder _) (orderNull := elementsOrder _) demoTarget demoOptions
        false false NoRegister 10 demoState).2 in Hy |- * by (rewrite Hr; reflexivity). exact Hy.
Defined.

(** ** Computed addresses are checked for every reader *)




(** ** What the protocol does not survive *)

(** A begin marker whose end marker is not in the same block makes the pass erase a
    null pointer, whatever the options (loads being hardened) and whatever follows it,
    unless a fence earlier in the block ended the scan: the search for the end stops at the
    end of the block and the null it ends with is put on the list of markers. *)
Theorem unmatched_marker_erases_null {orderInstrs : SetOrder positive} {orderNull : SetOrder (option positive)} T Opt
    liveInEFLAGS succ_empty PoisonReg fuel s l1 b l2 :
  HardenLoads Opt = true -> body s = l1 ++ b :: l2 -> no_fence s l1 ->
  isMarker DUMMY_BEFORE (instr b s) = true ->
  (forall y, y ∈ l2 -> isMarker DUMMY_AFTER (instr y s) = false) ->
  (hardenBlock T Opt liveInEFLAGS succ_empty PoisonReg fuel s).1 = None.
Proof.
  intros Hl Hb Hf Hm Ha. pose proof (scan_unmatched T Opt s l1 b l2 emptyScan Hf Hm Ha) as Hn. rewrite <- Hb in Hn.
  unfold hardenBlock, gets, mbind, SM_bind. rewrite Hl. set (c := scanBlock T Opt s (body s) emptyScan) in *.
  match goal with |- (let '(_, _) := ?r in _).1 = _ => destruct r as [m s1] end.
  case_decide as Hg; [done|].
  destruct (eraseAllInstrs _ s1) as [[] s2]. destruct (walkBlock _ _ _ _ _ _ _ _ _) as [w s3].
  rewrite decide_True; [done|]. apply elem_of_union in Hn as [Hn|Hn]; [set_solver|done].
Qed.

(** The demo block without its last end marker. *)
Definition halfState : MState :=
  MS demoCode [1; 2; 3; 4; 5; 7]%positive (regClass demoState) 8 10 (Virt 9).

Lemma unmatched_marker_erases_null_witness :
  (hardenBlock (orderInstrs := elementsOrder _) (orderNull := elementsOrder _) demoTarget demoOptions false false
    NoRegister 10 halfState).1 = None.
Proof.
  apply (unmatched_marker_erases_null demoTarget demoOptions false false NoRegister 10 halfState [1; 2; 3]%positive 4
    [5; 7]%positive); [reflexivity|reflexivity| |reflexivity|].
  - intros y Hy. set_unfold in Hy. destruct_or!; subst y; vm_compute; discriminate.
  - intros y Hy. set_unfold in Hy. destruct_or!; subst y; reflexivity.
Defined.

(** Blocks on which a fenced access stays unchecked. *)
Definition blockOf (l : list (positive * MInstr)) : MState :=
  MS (list_to_map l) l.*1 (regClass demoState) 20 30 (Virt 9).
Definition harden (s : MState) : MState :=
  (hardenBlock (orderInstrs := elementsOrder _) (orderNull := elementsOrder _) demoTarget demoOptions false false
    NoRegister 10 s).2.

(** The address of the fenced load comes from an earlier load.  The scan takes the earlier
    one for checked and leaves the fenced one out; the filter then leaves the earlier one
    unchecked, since it is not fenced: nothing is checked. *)
Lemma dependent_fenced_load_unchecked :
  let s := blockOf [(1, load (Virt 1) (Virt 2)); (2, marker DUMMY_BEFORE); (3, marker DUMMY_AFTER);
    (4, load (Virt 3) (Virt 1))]%positive in
  (fun x => (x, mi_ops (instr x (harden s)))) <$> body (harden s) =
  [(1, mi_ops (load (Virt 1) (Virt 2))); (4, mi_ops (load (Virt 3) (Virt 1)))]%positive.
Proof. vm_compute. reflexivity. Qed.

(** Debug information between the markers: the pair counts as one around an address
    computation, but there is none, and it is erased before the access behind it is
    visited. *)
Lemma debug_between_markers_unchecked :
  let dbg := MIn "DBG_VALUE" None true false false false false false 0 0 None false false [use (Virt 2)] in
  let s := blockOf [(1, marker DUMMY_BEFORE); (2, dbg); (3, marker DUMMY_AFTER); (4, load (Virt 1) (Virt 2))]%positive in
  (fun x => (x, mi_ops (instr x (harden s)))) <$> body (harden s) =
  [(2, mi_ops dbg); (4, mi_ops (load (Virt 1) (Virt 2)))]%positive.
Proof. vm_compute. reflexivity. Qed.

(** A fence ends the scan: a pair behind it is not collected and stays in the code. *)
Lemma markers_behind_fence_stay :
  let s := blockOf [(1, built "LFENCE" 0 []); (2, marker DUMMY_BEFORE); (3, marker DUMMY_AFTER);
    (4, load (Virt 1) (Virt 2))]%positive in
  body (harden s) = [1; 2; 3; 4]%positive.
Proof. vm_compute. reflexivity. Qed.
