(* ===== verification/SlhStack.v ===== *)
(** * The predicate state in the stack pointer

    Execution of the code [mergePredStateIntoSP], [extractPredStateFromSP] and
    [tracePredStateThroughCall] insert, on 64-bit values in Z: the state put into the high
    bits of the stack pointer is the state taken out again, in a callee or behind a call,
    wherever the stack has moved to, and a call that returns to another address than its
    own poisons the state. *)
From stdpp Require Import base countable gmap sets list option strings.
From Stdlib Require Import ZArith Lia.
From S2P Require Import Prelude Machine Slh SlhGep SlhHarden.

(** ** The inserted instructions *)

(** Registers hold 64-bit values; the flag is the zero flag. *)
Record CPU := { regs : reg -> Z; ZF : bool }.

Definition wrap64 (z : Z) : Z := (z mod 2 ^ 64)%Z.
Definition signed64 (z : Z) : Z := if (z <? 2 ^ 63)%Z then z else (z - 2 ^ 64)%Z.
Definition shl64 (a k : Z) : Z := wrap64 (Z.shiftl a k).
Definition sar64 (a k : Z) : Z := wrap64 (Z.shiftr (signed64 a) k).

Section Execution.
(** The addresses of labels, and the words in memory. *)
Variable symbol : string -> Z.
Variable memory : Z -> Z.

Definition setr (r : reg) (v : Z) (c : CPU) : CPU :=
  {| regs := fun x => if decide (x = r) then v else regs c x; ZF := ZF c |}.
Definition setf (b : bool) (c : CPU) : CPU := {| regs := regs c; ZF := b |}.
Definition arith (d : reg) (v : Z) (c : CPU) : CPU := setf (v =? 0)%Z (setr d v c).

Definition kinds (i : MInstr) : list operand_kind := mo_kind <$> mi_ops i.

(** One instruction the pass inserts; [None] for any other. *)
Definition exec1 (c : CPU) (i : MInstr) : option CPU :=
  match opcode i, kinds i with
  | "COPY", [OReg d; OReg a] => Some (setr d (regs c a) c)
  | "SHL64ri", [OReg d; OReg a; OImm k; _] => Some (arith d (shl64 (regs c a) k) c)
  | "SAR64ri", [OReg d; OReg a; OImm k; _] => Some (arith d (sar64 (regs c a) k) c)
  | "OR64rr", [OReg d; OReg a; OReg b; _] => Some (arith d (Z.lor (regs c a) (regs c b)) c)
  | "MOV64ri32", [OReg d; OSym l] => Some (setr d (symbol l) c)
  | "LEA64r", [OReg d; OReg RIP; OImm 1; OReg NoRegister; OSym l; OReg NoRegister] => Some (setr d (symbol l) c)
  | "MOV64rm", [OReg d; OReg b; OImm 1; OReg NoRegister; OImm disp; OReg NoRegister] =>
    Some (setr d (memory (wrap64 (regs c b + disp))) c)
  | "CMP64ri32", [OReg a; OSym l; _] => Some (setf (regs c a =? symbol l)%Z c)
  | "CMP64rr", [OReg a; OReg b; _] => Some (setf (regs c a =? regs c b)%Z c)
  | "CMOV64rr", [OReg d; OReg a; OReg b; OImm 5; _] => Some (setr d (if ZF c then regs c a else regs c b) c)
  | _, _ => None
  end%string.

Fixpoint exec (c : CPU) (l : list MInstr) : option CPU :=
  match l with [] => Some c | i :: l => match exec1 c i with Some c => exec c l | None => None end end.

Lemma exec_app c l1 l2 : exec c (l1 ++ l2) = match exec c l1 with Some c => exec c l2 | None => None end.
Proof. revert c. induction l1 as [|i l1 IH]; intros c; [done|]. simpl. destruct (exec1 c i); [apply IH|done]. Qed.
End Execution.

(** ** The state as a value *)

(** No misspeculation is 0, misspeculation all ones; in the stack pointer the state is
    the 17 high bits, which are clear in the address of a stack. *)
Definition mask (b : bool) : Z := if b then (2 ^ 64 - 1)%Z else 0%Z.
Definition withState (b : bool) (sp : Z) : Z := if b then (sp + (2 ^ 64 - 2 ^ 47))%Z else sp.
Definition stackAddress (sp : Z) : Prop := (0 <= sp < 2 ^ 47)%Z.

Lemma lor_high a k n : (0 <= a < 2 ^ n)%Z -> (0 <= n)%Z -> Z.lor a (k * 2 ^ n) = (a + k * 2 ^ n)%Z.
Proof.
  intros Ha Hn. assert (Z.land a (k * 2 ^ n) = 0)%Z as Hz.
  { apply Z.bits_inj'. intros i Hi. rewrite Z.land_spec, Z.bits_0. destruct (Z.ltb_spec i n) as [Hlt|Hge].
    - by rewrite Z.mul_pow2_bits_low, andb_false_r.
    - rewrite <- (Z.mod_small a (2 ^ n)) by done. by rewrite Z.mod_pow2_bits_high. }
  rewrite Z.add_nocarry_lxor by done. by rewrite Z.lxor_lor.
Qed.

Lemma merge_sp a b sp : stackAddress sp -> Z.lor (withState a sp) (shl64 (mask b) 47) = withState (a || b) sp.
Proof.
  intros Hsp. assert (shl64 (mask b) 47 = if b then (2 ^ 17 - 1) * 2 ^ 47 else 0)%Z as -> by (by destruct b).
  unfold withState. assert (2 ^ 64 - 2 ^ 47 = (2 ^ 17 - 1) * 2 ^ 47)%Z as -> by done.
  unfold stackAddress in Hsp. destruct a, b; simpl; rewrite ?Z.lor_0_r; try done; [|by apply lor_high].
  rewrite <- lor_high by lia. by rewrite <- Z.lor_assoc, Z.lor_diag.
Qed.

Lemma extract_sp b sp : stackAddress sp -> sar64 (withState b sp) 63 = mask b.
Proof.
  intros Hsp. unfold stackAddress in Hsp. unfold sar64, signed64, withState. destruct b.
  - assert (sp + (2 ^ 64 - 2 ^ 47) <? 2 ^ 63 = false)%Z as -> by (apply Z.ltb_ge; lia).
    rewrite Z.shiftr_div_pow2 by done. assert ((sp + (2 ^ 64 - 2 ^ 47) - 2 ^ 64) / 2 ^ 63 = -1)%Z as ->; [|done].
    symmetry. apply (Z.div_unique_pos _ _ _ (sp - 2 ^ 47 + 2 ^ 63)); lia.
  - assert (sp <? 2 ^ 63 = true)%Z as -> by (apply Z.ltb_lt; lia).
    rewrite Z.shiftr_div_pow2 by done. by rewrite Z.div_small by lia.
Qed.

(** ** What an operation inserts *)

(** Going from [s] to [s'], the instructions [il] are inserted at [pt], in their order,
    at the fresh addresses [zs], and nothing else changes in the code. *)
Record inserts (pt : option positive) (il : list MInstr) (zs : list positive) (s s' : MState) : Prop := {
  ins_body : body s' = foldl (fun b z => insertBefore z pt b) (body s) zs;
  ins_code : Forall2 (fun z i => code s' !! z = Some i) zs il;
  ins_old z : (z < nextInstr s)%positive -> code s' !! z = code s !! z;
  ins_fresh : Forall (fun z => nextInstr s <= z < nextInstr s')%positive zs;
  ins_nodup : NoDup zs;
  ins_next : (nextInstr s <= nextInstr s')%positive }.

Lemma inserts_nil pt s s' : code s' = code s -> body s' = body s -> nextInstr s' = nextInstr s -> inserts pt [] [] s s'.
Proof. intros Hc Hb Hn. constructor; simpl; rewrite ?Hc, ?Hb, ?Hn; try done. apply NoDup_nil_2. Qed.

(** Code that is in place stays. *)
Lemma code_kept zs (il : list MInstr) s s' : Forall2 (fun z i => code s !! z = Some i) zs il -> Forall (fun z => z < nextInstr s)%positive zs ->
  (forall z, (z < nextInstr s)%positive -> code s' !! z = code s !! z) -> Forall2 (fun z i => code s' !! z = Some i) zs il.
Proof.
  intros HC HF HO. induction HC as [|z i zs il Hz _ IH]; [constructor|].
  apply Forall_cons in HF as [Hzf HF]. constructor; [|by apply IH]. by rewrite HO.
Qed.

Lemma inserts_app pt iz1 iz2 zs1 zs2 s s1 s2 :
  inserts pt iz1 zs1 s s1 -> inserts pt iz2 zs2 s1 s2 -> inserts pt (iz1 ++ iz2) (zs1 ++ zs2) s s2.
Proof.
  intros [B1 C1 O1 F1 D1 N1] [B2 C2 O2 F2 D2 N2]. constructor.
  - by rewrite B2, B1, foldl_app.
  - apply Forall2_app; [|done]. apply (code_kept _ _ s1); [done| |done]. eapply Forall_impl; [exact F1|]. simpl. lia.
  - intros z Hz. rewrite O2 by lia. by apply O1.
  - apply Forall_app. split; eapply Forall_impl; [exact F1| |exact F2|]; simpl; lia.
  - apply NoDup_app. rewrite Forall_forall in F1, F2. split_and!; [done| |done].
    intros z H1%F1 H2%F2. lia.
  - lia.
Qed.

Lemma inserts_cons pt i il zs s s1 s2 :
  s1 = (BuildMI pt i s).2 -> inserts pt il zs s1 s2 -> inserts pt (i :: il) (nextInstr s :: zs) s s2.
Proof.
  intros -> H. apply (inserts_app pt [i] il [nextInstr s] zs s (BuildMI pt i s).2); [|done]. constructor; simpl.
  - done.
  - constructor; [by rewrite lookup_insert_eq|constructor].
  - intros z Hz. by rewrite lookup_insert_ne by lia.
  - constructor; [lia|constructor].
  - apply NoDup_singleton.
  - lia.
Qed.

Lemma inserts_nodup pt il zs s s' l : inserts pt il zs s s' -> NoDup l -> (forall x, x ∈ l -> x < nextInstr s)%positive ->
  NoDup (zs ++ l).
Proof.
  intros [_ _ _ F D _] Hd Hl. apply NoDup_app. split_and!; [done| |done]. rewrite Forall_forall in F.
  intros z H1%F H2%Hl. lia.
Qed.

(** In front of an instruction, and behind it. *)
Lemma inserts_front MI il zs s s' l1 l2 : inserts (Some MI) il zs s s' -> MI ∉ l1 ->
  (MI < nextInstr s)%positive -> body s = l1 ++ MI :: l2 -> body s' = l1 ++ zs ++ MI :: l2.
Proof.
  intros [B _ _ F _ _] Hl Hlt Hb. rewrite B, Hb. clear B Hb.
  assert (Forall (fun z => MI <> z) zs) as Hz by (eapply Forall_impl; [exact F|]; simpl; intros; lia). clear F Hlt.
  revert l1 Hl. induction Hz as [|z zs Hz _ IH]; intros l1 Hl; [done|]. simpl. rewrite insertBefore_at by done.
  rewrite (cons_middle z l1), (assoc_L (++)), IH by set_solver. by list_simplifier.
Qed.

Lemma inserts_behind il zs s s' l1 l2 : inserts (head l2) il zs s s' -> NoDup (l1 ++ l2) ->
  (forall x, x ∈ l2 -> x < nextInstr s)%positive -> body s = l1 ++ l2 -> body s' = l1 ++ zs ++ l2.
Proof.
  intros [B _ _ F _ _] Hd Hl Hb. rewrite B, Hb. apply (inserted_after l1 l2 (nextInstr s)); [done|done|].
  eapply Forall_impl; [exact F|]. simpl. lia.
Qed.

Section Sp.
Variable T : TargetInfo.
Hypothesis H64 : getRegSizeInBits T GR64_NOSP = 64%Z.

Definition mergeCode (StateReg TmpReg : reg) : list MInstr :=
  [built "SHL64ri" 1 [def TmpReg; useKill StateReg; imm 47; deadFlags];
   built "OR64rr" 1 [def RSP; use RSP; useKill TmpReg; deadFlags]].
Definition extractCode (StateReg TmpReg : reg) : list MInstr :=
  [built "COPY" 1 [def TmpReg; use RSP];
   built "SAR64ri" 1 [def StateReg; useKill TmpReg; imm (getRegSizeInBits T GR64_NOSP - 1); deadFlags]].

Lemma merge_inserts pt r s : exists zs s', mergePredStateIntoSP pt r s = (tt, s') /\
  inserts pt (mergeCode r (Virt (nextReg s))) zs s s' /\ nextReg s' = Pos.succ (nextReg s) /\ stateReg s' = stateReg s.
Proof.
  eexists _, _. split; [reflexivity|]. split; [|done]. unfold mergeCode.
  eapply inserts_cons; [reflexivity|]. eapply inserts_cons; [reflexivity|]. by apply inserts_nil.
Qed.

Lemma extract_inserts pt s : exists zs s', extractPredStateFromSP T pt s = (Virt (nextReg s), s') /\
  inserts pt (extractCode (Virt (nextReg s)) (Virt (Pos.succ (nextReg s)))) zs s s' /\
  nextReg s' = Pos.succ (Pos.succ (nextReg s)) /\ stateReg s' = stateReg s.
Proof.
  eexists _, _. split; [reflexivity|]. split; [|done]. unfold extractCode.
  eapply inserts_cons; [reflexivity|]. eapply inserts_cons; [reflexivity|]. by apply inserts_nil.
Qed.

Section Values.
Variable symbol : string -> Z.
Variable memory : Z -> Z.

Lemma merge_exec c r q a v sp : stackAddress sp -> regs c RSP = withState a sp -> regs c r = mask v ->
  exists c1, exec symbol memory c (mergeCode r (Virt q)) = Some c1 /\ regs c1 RSP = withState (a || v) sp /\
    forall x, x <> RSP -> x <> Virt q -> regs c1 x = regs c x.
Proof.
  intros Hsp Ha Hv. eexists. split; [reflexivity|]. simpl. split.
  - rewrite decide_True by done. by rewrite Ha, Hv, merge_sp.
  - intros x Hx Hq. by rewrite !decide_False.
Qed.

Lemma extract_exec c p q w sp : p <> q -> stackAddress sp -> regs c RSP = withState w sp ->
  exists c1, exec symbol memory c (extractCode (Virt p) (Virt q)) = Some c1 /\ regs c1 (Virt p) = mask w /\
    forall x, x <> Virt p -> x <> Virt q -> regs c1 x = regs c x.
Proof.
  intros Hpq Hsp Hw. unfold extractCode. rewrite H64. eexists. split; [reflexivity|]. simpl. split.
  - rewrite decide_True, decide_True by done. by rewrite Hw, extract_sp.
  - intros x Hx Hq. by rewrite !decide_False.
Qed.
End Values.
End Sp.

(** C23: what [mergePredStateIntoSP] puts into the stack pointer, [extractPredStateFromSP]
    gets back: run in any two states of the pass (caller and callee, or the two sides of a
    call), they insert code at their points such that, whatever state the stack pointer
    already carries, the merged pointer still addresses the same place, poisoned when the
    pointer or the state was, and from a pointer with this poison at any other place of
    the stack the extracted state is all ones exactly when it is poisoned. *)
Theorem state_roundtrip T pt1 pt2 StateReg s t symbol memory c a v sp :
  getRegSizeInBits T GR64_NOSP = 64%Z -> stackAddress sp -> regs c RSP = withState a sp -> regs c StateReg = mask v ->
  exists zs1 il1 zs2 il2 c1,
    inserts pt1 il1 zs1 s (mergePredStateIntoSP pt1 StateReg s).2 /\
    inserts pt2 il2 zs2 t (extractPredStateFromSP T pt2 t).2 /\
    exec symbol memory c il1 = Some c1 /\ regs c1 RSP = withState (a || v) sp /\
    forall c2 d, stackAddress (sp + d) -> regs c2 RSP = wrap64 (regs c1 RSP + d) ->
      exists c3, exec symbol memory c2 il2 = Some c3 /\ regs c3 (extractPredStateFromSP T pt2 t).1 = mask (a || v) /\
        regs c3 RSP = regs c2 RSP.
Proof.
  intros H64 Hsp Ha Hv. destruct (merge_inserts pt1 StateReg s) as (zs1 & s' & E1 & I1 & _).
  destruct (extract_inserts T pt2 t) as (zs2 & t' & E2 & I2 & _). rewrite E1, E2. simpl.
  destruct (merge_exec symbol memory c StateReg (nextReg s) a v sp) as (c1 & X1 & R1 & _); [done..|].
  eexists zs1, _, zs2, _, c1. split_and!; [exact I1|exact I2|exact X1|exact R1|].
  intros c2 d Hd H2. assert (regs c2 RSP = withState (a || v) (sp + d)) as H2'.
  { rewrite H2, R1. unfold wrap64, withState, stackAddress in *. destruct (a || v); rewrite Z.mod_small; lia. }
  destruct (extract_exec T H64 symbol memory c2 (nextReg t) (Pos.succ (nextReg t)) (a || v) (sp + d)) as (c3 & X3 & R3 & K3);
    [lia|done|done|]. exists c3. split_and!; [exact X3|exact R3|]. by rewrite K3.
Qed.

(** ** Calls *)
Abbreviation q1 s := (Pos.succ (nextReg s)).
Abbreviation q2 s := (Pos.succ (q1 s)).
Abbreviation q3 s := (Pos.succ (q2 s)).
Abbreviation q4 s := (Pos.succ (q3 s)).

Section Calls.
Variable T : TargetInfo.
Hypothesis H64 : getRegSizeInBits T GR64_NOSP = 64%Z.
Variable symbol : string -> Z.
Variable memory : Z -> Z.
Variable PoisonReg : reg.

Abbreviation label := "slh_ret_addr"%string.

Definition labelCode (r : reg) : MInstr :=
  if smallNonPIC T then built "MOV64ri32" 1 [def r; sym label]
  else built "LEA64r" 1 [def r; use RIP; imm 1; use NoRegister; sym label; use NoRegister].
Definition loadCode (r : reg) : MInstr :=
  builtLoad "MOV64rm" [def r; use RSP; imm 1; use NoRegister; imm (-8); use NoRegister].
Definition compareCode (r a : reg) : list MInstr :=
  if smallNonPIC T then [built "CMP64ri32" 0 [useKill r; sym label; liveFlags]]
  else [built "LEA64r" 1 [def a; use RIP; imm 1; use NoRegister; sym label; use NoRegister];
        built "CMP64rr" 0 [useKill r; useKill a; liveFlags]].
Definition selectCode (u p : reg) : MInstr :=
  built "CMOV64rr" 1 [def u; useKill p; use PoisonReg; imm 5; useKill EFLAGS].

(** The return address that was expected, behind the call. *)
Definition expected (Expected : option reg) (c : CPU) : Z :=
  match Expected with Some r => regs c r | None => memory (wrap64 (regs c RSP - 8)) end.

Definition oldIn (s : MState) (r : reg) : Prop := forall n, r = Virt n -> (n < nextReg s)%positive.

Lemma oldIn_ne s r n : oldIn s r -> (nextReg s <= n)%positive -> r <> Virt n.
Proof. intros Hr Hn ->. specialize (Hr n eq_refl). lia. Qed.

Lemma compare_exec c r a : r <> a -> exists c1, exec symbol memory c (compareCode r a) = Some c1 /\
  ZF c1 = (regs c r =? symbol label)%Z /\ forall x, x <> a -> regs c1 x = regs c x.
Proof.
  intros Hra. unfold compareCode. destruct (smallNonPIC T); (eexists; split; [reflexivity|]); simpl.
  - done.
  - split; [|intros x Hx; by rewrite decide_False]. by rewrite decide_False, decide_True.
Qed.

Ltac checks :=
  split; [repeat (eapply inserts_cons; [reflexivity|]); by apply inserts_nil|];
  split; [done|]; split_and!; try done; lia.

Lemma check_inserts pt Expected s : exists zs load r p t a u,
  inserts pt (load ++ extractCode T (Virt p) (Virt t) ++ compareCode r (Virt a) ++ [selectCode (Virt u) (Virt p)]) zs s
    (checkReturn T PoisonReg pt Expected s).2 /\
  stateReg (checkReturn T PoisonReg pt Expected s).2 = Virt u /\
  match Expected with Some r' => r = r' /\ load = [] | None => r = Virt (nextReg s) /\ load = [loadCode r] end /\
  (nextReg s <= p < t)%positive /\ (t < a <= u)%positive /\ (Expected = None -> (nextReg s < p)%positive).
Proof.
  unfold checkReturn, updateState, compareCode, selectCode, gets, mbind, SM_bind, mret, SM_ret.
  destruct Expected as [r|]; destruct (smallNonPIC T).
  - eexists _, [], r, (nextReg s), (q1 s), (q2 s), (q2 s). checks.
  - eexists _, [], r, (nextReg s), (q1 s), (q2 s), (q3 s). checks.
  - eexists _, [loadCode (Virt (nextReg s))], (Virt (nextReg s)), (q1 s), (q2 s), (q3 s), (q3 s). checks.
  - eexists _, [loadCode (Virt (nextReg s))], (Virt (nextReg s)), (q1 s), (q2 s), (q3 s), (q4 s). checks.
Qed.

(** The code behind a call, from the values at the return. *)
Lemma check_exec c w sp Expected load r p t a u (n : positive) :
  match Expected with Some r' => r = r' /\ load = [] | None => r = Virt n /\ load = [loadCode r] end ->
  (Expected = None -> n < p)%positive -> (p < t < a)%positive ->
  (forall k, r = Virt k -> k < p)%positive -> (forall k, PoisonReg = Virt k -> k < n /\ k < p)%positive ->
  stackAddress sp -> regs c RSP = withState w sp -> regs c PoisonReg = mask true ->
  exists c3, exec symbol memory c (load ++ extractCode T (Virt p) (Virt t) ++ compareCode r (Virt a) ++ [selectCode (Virt u) (Virt p)])
      = Some c3 /\ regs c3 (Virt u) = mask (w || negb (expected Expected c =? symbol label)%Z).
Proof.
  intros Hr Hn Hpt Hrp Hpp Hsp Hw Hpoison.
  assert (exists c1, exec symbol memory c load = Some c1 /\ regs c1 RSP = regs c RSP /\ regs c1 PoisonReg = regs c PoisonReg /\
    regs c1 r = expected Expected c) as (c1 & X1 & S1 & P1 & R1).
  { destruct Expected as [r'|]; destruct Hr as [-> ->]; [by exists c|]. eexists. split; [reflexivity|]. simpl.
    split; [done|]. rewrite (decide_True (P := Virt n = Virt n)) by done. split; [|done].
    rewrite decide_False; [done|]. intros E. destruct (Hpp _ E). lia. }
  rewrite exec_app, X1. destruct (extract_exec T H64 symbol memory c1 p t w sp) as (c2 & X2 & V2 & K2); [lia|done|by rewrite S1|].
  rewrite exec_app, X2. destruct (compare_exec c2 r (Virt a)) as (c3 & X3 & F3 & K3).
  { intros E. specialize (Hrp _ E). lia. }
  rewrite exec_app, X3. eexists. split; [reflexivity|]. simpl. rewrite decide_True by done. rewrite F3.
  rewrite (K3 (Virt p)), V2 by (intros [=]; lia).
  rewrite (K2 r), R1 by (intros E; specialize (Hrp _ E); lia).
  rewrite (K3 PoisonReg), (K2 PoisonReg), P1, Hpoison by (intros E; destruct (Hpp _ E); lia).
  destruct (expected Expected c =? symbol label)%Z; simpl; [by rewrite orb_false_r|by rewrite orb_true_r].
Qed.
End Calls.

(** The code in front of a call, and the state of the pass there. *)
Definition savesReturn (T : TargetInfo) : bool := negb (has128ByteRedZone T) || exposesReturnsTwice T.
Definition savedIn (T : TargetInfo) (s : MState) : option reg := if savesReturn T then Some (Virt (q1 s)) else None.

Lemma call_front_inserts T Opt succ_empty PoisonReg MI s l1 l2 i :
  FenceCallAndRet Opt = false -> code s !! MI = Some i -> isReturn i = false -> body s = l1 ++ MI :: l2 -> NoDup (body s) ->
  l2 <> [] \/ succ_empty = false ->
  exists zs s2, tracePredStateThroughCall T Opt succ_empty PoisonReg MI s = checkReturn T PoisonReg (head l2) (savedIn T s) s2 /\
    inserts (Some MI) (mergeCode (stateReg s) (Virt (nextReg s)) ++ if savesReturn T then [labelCode T (Virt (q1 s))] else [])
      zs s s2 /\
    nextReg s2 = if savesReturn T then q2 s else q1 s.
Proof.
  intros HF Hi Hret Hbody Hnd Hnext.
  assert (nextIn (body s) MI = head l2) as Hni by (rewrite Hbody; apply nextIn_split; by rewrite <- Hbody).
  assert (bool_decide (@head positive l2 = None) && succ_empty = false) as Hcont.
  { destruct Hnext as [Hl| ->]; [|apply andb_false_r]. by destruct l2. }
  unfold tracePredStateThroughCall, savedIn, gets, getNextNode, instr, mbind, SM_bind, mret, SM_ret.
  rewrite Hi, HF. simpl. rewrite Hni, Hret, Hcont. simpl. change (negb (has128ByteRedZone T) || exposesReturnsTwice T) with (savesReturn T).
  destruct (savesReturn T); simpl; (eexists _, _; split; [reflexivity|]; split; [|done]).
  - repeat (eapply inserts_cons; [reflexivity|]). by apply inserts_nil.
  - repeat (eapply inserts_cons; [reflexivity|]). by apply inserts_nil.
Qed.

Lemma call_front_exec T symbol memory c st s a v sp : stackAddress sp -> regs c RSP = withState a sp -> regs c st = mask v ->
  exists c1, exec symbol memory c (mergeCode st (Virt (nextReg s)) ++ if savesReturn T then [labelCode T (Virt (q1 s))] else []) = Some c1 /\
    regs c1 RSP = withState (a || v) sp /\ (savesReturn T = true -> expected memory (savedIn T s) c1 = symbol "slh_ret_addr"%string).
Proof.
  intros Hsp Ha Hv. destruct (merge_exec symbol memory c st (nextReg s) a v sp) as (c1 & X1 & R1 & _); [done..|].
  rewrite exec_app, X1. unfold savedIn. destruct (savesReturn T); [|by exists c1].
  eexists. unfold labelCode. split; [destruct (smallNonPIC T); reflexivity|]. simpl. split; [done|]. intros _. by rewrite decide_True.
Qed.

(** C24: a call that may return, without fences, is surrounded by new code and nothing
    else changes.  In front of it the state is merged into the stack pointer, which keeps
    its address; the return address, where it is saved in a register, is the one of this
    call.  Behind it, whatever the callee did to the registers, the new state of the block
    is all ones when the stack pointer comes back poisoned or the return address differs
    from this call's, and zero otherwise. *)
Theorem call_checked T Opt succ_empty PoisonReg MI s l1 l2 i :
  getRegSizeInBits T GR64_NOSP = 64%Z -> FenceCallAndRet Opt = false ->
  code s !! MI = Some i -> isReturn i = false -> body s = l1 ++ MI :: l2 -> NoDup (body s) ->
  (forall x, x ∈ body s -> x < nextInstr s)%positive -> l2 <> [] \/ succ_empty = false -> oldIn s PoisonReg ->
  exists zs1 il1 zs2 il2 s', tracePredStateThroughCall T Opt succ_empty PoisonReg MI s = (tt, s') /\
    body s' = l1 ++ zs1 ++ MI :: zs2 ++ l2 /\
    Forall2 (fun z i => code s' !! z = Some i) (zs1 ++ zs2) (il1 ++ il2) /\
    (forall z, (z < nextInstr s)%positive -> code s' !! z = code s !! z) /\
    forall symbol memory c a v sp, stackAddress sp -> regs c RSP = withState a sp -> regs c (stateReg s) = mask v ->
      exists c1, exec symbol memory c il1 = Some c1 /\ regs c1 RSP = withState (a || v) sp /\
        (savesReturn T = true -> expected memory (savedIn T s) c1 = symbol "slh_ret_addr"%string) /\
        forall c2 w sp2, stackAddress sp2 -> regs c2 RSP = withState w sp2 -> regs c2 PoisonReg = mask true ->
          exists c3, exec symbol memory c2 il2 = Some c3 /\
            regs c3 (stateReg s') = mask (w || negb (expected memory (savedIn T s) c2 =? symbol "slh_ret_addr"%string)%Z).
Proof.
  intros H64 HF Hi Hret Hbody Hnd Hlt Hnext Hp.
  destruct (call_front_inserts T Opt succ_empty PoisonReg MI s l1 l2 i) as (zs1 & s2 & Hrun & I1 & Hq); [done..|].
  destruct (check_inserts T PoisonReg (head l2) (savedIn T s) s2) as (zs2 & load & r & p & t & a' & u & I2 & Hu & Hr & Hpt & Hta & Hlp).
  assert (MI ∉ l1 /\ MI ∈ body s) as [HMI HMI'].
  { rewrite Hbody in *. apply NoDup_app in Hnd as (_ & Hd & _). split; [|set_solver]. intros Hin. apply (Hd MI Hin). left. }
  pose proof (inserts_front MI _ _ _ _ l1 l2 I1 HMI (Hlt MI HMI') Hbody) as B1.
  destruct (checkReturn T PoisonReg (head l2) (savedIn T s) s2) as [[] s'] eqn:E. simpl in I2, Hu.
  eexists zs1, _, zs2, _, s'. split_and!; [done| | | |].
  - rewrite (inserts_behind _ zs2 s2 s' (l1 ++ zs1 ++ [MI]) l2 I2); [by list_simplifier| | |by rewrite B1; list_simplifier].
    + assert (l1 ++ zs1 ++ [MI] ++ l2 ≡ₚ zs1 ++ l1 ++ MI :: l2) as HP by (simpl; solve_Permutation).
      rewrite <- !(assoc_L (++)), HP. eapply inserts_nodup; [exact I1|by rewrite <- Hbody|by rewrite <- Hbody].
    + intros x Hx. destruct I1. assert (x < nextInstr s)%positive by (apply Hlt; rewrite Hbody; set_solver). lia.
  - apply Forall2_app; [|apply (ins_code _ _ _ _ _ I2)]. apply (code_kept _ _ s2); [apply (ins_code _ _ _ _ _ I1)| |apply (ins_old _ _ _ _ _ I2)].
    eapply Forall_impl; [apply (ins_fresh _ _ _ _ _ I1)|simpl; lia].
  - intros z Hz. rewrite (ins_old _ _ _ _ _ I2), (ins_old _ _ _ _ _ I1); [done|done|]. destruct I1; lia.
  - intros symbol memory c a v sp Hsp Ha Hv.
    destruct (call_front_exec T symbol memory c (stateReg s) s a v sp) as (c1 & X1 & R1 & S1); [done..|].
    exists c1. split_and!; [exact X1|done|done|]. intros c2 w sp2 Hsp2 Hw Hpoison. rewrite Hu.
    eapply (check_exec T H64 symbol memory PoisonReg c2 w sp2 (savedIn T s) load r p t a' u (nextReg s2)); try done.
    + lia.
    + intros k ->. unfold savedIn in Hr, Hlp. destruct (savesReturn T); destruct Hr as [Hr _]; injection Hr as ->; [lia|]. by apply Hlp.
    + intros k Hk. specialize (Hp k Hk). destruct (savesReturn T); lia.
Qed.

(** ** A call and a return *)
Module StackExample.

Definition CALL : MInstr := MIn "CALL64pcrel32" None false false false true false false 0 0 None false false [sym "f"].
Definition RET64 : MInstr := MIn "RET64" None false true false false false true 0 0 None false false [].
Definition callBlock : MState :=
  MS (list_to_map [(1, CALL); (2, RET64)]%positive) [1; 2]%positive {[Virt 1 := GR64_NOSP; Virt 2 := GR64_NOSP]} 3 3 (Virt 1).

(** Misspeculation, with the stack at address 4096; the poison is in register 2. *)
Definition labels : string -> Z := fun _ => 77%Z.
Definition cpu (sp : Z) : CPU :=
  {| regs := fun r => if decide (r = RSP) then sp else if decide (r = Virt 1 \/ r = Virt 2) then mask true else 0%Z; ZF := false |}.

Lemma state_roundtrip_witness : exists zs1 il1 zs2 il2 c1,
  inserts (Some 1%positive) il1 zs1 callBlock (mergePredStateIntoSP (Some 1%positive) (Virt 1) callBlock).2 /\
  inserts None il2 zs2 callBlock (extractPredStateFromSP demoTarget None callBlock).2 /\
  exec labels (fun _ => 0%Z) (cpu 4096) il1 = Some c1 /\ regs c1 RSP = withState true 4096 /\
  forall c2 d, stackAddress (4096 + d) -> regs c2 RSP = wrap64 (regs c1 RSP + d) ->
    exists c3, exec labels (fun _ => 0%Z) c2 il2 = Some c3 /\
      regs c3 (extractPredStateFromSP demoTarget None callBlock).1 = mask true /\ regs c3 RSP = regs c2 RSP.
Proof.
  apply (state_roundtrip demoTarget (Some 1%positive) None (Virt 1) callBlock callBlock labels (fun _ => 0%Z) (cpu 4096)
    false true 4096); [reflexivity|split; [discriminate|reflexivity]|reflexivity|reflexivity].
Defined.

(** The call returns to the address of another label: the state is poisoned. *)
Lemma call_checked_witness : exists il2 s',
  tracePredStateThroughCall demoTarget demoOptions false (Virt 2) 1 callBlock = (tt, s') /\
  length (body s') = 9 /\
  exists c3, exec labels (fun _ => 0%Z) (setr (Virt 4) 5 (cpu 4096)) il2 = Some c3 /\ regs c3 (stateReg s') = mask true.
Proof.
  destruct (call_checked demoTarget demoOptions false (Virt 2) 1 callBlock [] [2%positive] CALL)
    as (zs1 & il1 & zs2 & il2 & s' & Hrun & Hbody & _ & _ & Hexec);
    [reflexivity|reflexivity|reflexivity|reflexivity|reflexivity|change (NoDup [1; 2]%positive); by apply (bool_decide_unpack _)
    |intros x Hx; change (x ∈ [1; 2]%positive) in Hx; change (x < 3)%positive; set_unfold in Hx; lia|by left|intros n [= <-]; reflexivity|].
  exists il2, s'. split; [exact Hrun|]. split.
  - replace s' with (tracePredStateThroughCall demoTarget demoOptions false (Virt 2) 1 callBlock).2 by (by rewrite Hrun). reflexivity.
  - destruct (Hexec labels (fun _ => 0%Z) (cpu 4096) false true 4096%Z) as (c1 & _ & _ & _ & Hret);
      [split; [discriminate|reflexivity]|reflexivity|reflexivity|].
    destruct (Hret (setr (Virt 4) 5 (cpu 4096)) false 4096%Z) as (c3 & X3 & R3);
      [split; [discriminate|reflexivity]|reflexivity|reflexivity|]. exists c3. split; [exact X3|exact R3].
Defined.
End StackExample.
