(* ===== verification/SlhCfg.v ===== *)
(** * The control flow of the load hardening ([X86SpeculativeLoadHardening.cpp])

    A machine function: a store of instructions by address, the blocks in their layout
    order, and the values the SSA updater of the predicate state has been given.  The
    checks on the edges ([collectBlockCondInfo], [splitEdge],
    [tracePredStateThroughCFG]), on indirect branches, the fences on edges, the unfolding
    of loading calls and [runOnMachineFunction], which composes them with the walk over
    each block of Slh.v.  A failed assertion, a fatal error and a null pointer that is
    dereferenced are the failures of the monad [FM].

    Predecessors are computed from the successor lists, where LLVM keeps both; their
    order numbers fresh registers and nothing else.  Branch probabilities, debug
    locations, call site entries and counters are left out. *)
From stdpp Require Import base countable gmap sets list option strings sorting.
From Stdlib Require Import ZArith Lia.
From S2P Require Import Prelude Machine Slh.

(** ** Functions *)
Record MBlock := MB {
  instrs : list positive;
  successors : list positive;
  liveins : list reg;
  isEHPad : bool;
  hasAddressTaken : bool;
}.

Record FState := FS {
  f_code : gmap positive MInstr;
  layout : list positive;
  blocks : gmap positive MBlock;
  f_regClass : gmap reg RegClass;
  f_nextInstr : positive;
  f_nextReg : positive;
  nextBlock : positive;
  available : gmap positive reg;   (* PS->SSA.AddAvailableValue *)
}.

Definition with_code (c : gmap positive MInstr) (s : FState) : FState :=
  FS c (layout s) (blocks s) (f_regClass s) (f_nextInstr s) (f_nextReg s) (nextBlock s) (available s).
Definition with_blocks (m : gmap positive MBlock) (s : FState) : FState :=
  FS (f_code s) (layout s) m (f_regClass s) (f_nextInstr s) (f_nextReg s) (nextBlock s) (available s).
Definition with_available (a : gmap positive reg) (s : FState) : FState :=
  FS (f_code s) (layout s) (blocks s) (f_regClass s) (f_nextInstr s) (f_nextReg s) (nextBlock s) a.

Definition emptyBlock : MBlock := MB [] [] [] false false.
Definition block (b : positive) (s : FState) : MBlock := default emptyBlock (blocks s !! b).
Definition f_instr (mi : positive) (s : FState) : MInstr := default dummyInstr (f_code s !! mi).

Definition set_instrs (l : list positive) (B : MBlock) : MBlock :=
  MB l (successors B) (liveins B) (isEHPad B) (hasAddressTaken B).
Definition set_successors (l : list positive) (B : MBlock) : MBlock :=
  MB (instrs B) l (liveins B) (isEHPad B) (hasAddressTaken B).
Definition set_liveins (l : list reg) (B : MBlock) : MBlock :=
  MB (instrs B) (successors B) l (isEHPad B) (hasAddressTaken B).
Definition set_addressTaken (B : MBlock) : MBlock :=
  MB (instrs B) (successors B) (liveins B) (isEHPad B) true.

(** [layout] neighbours and predecessors, one per edge. *)
Definition layoutNext (b : positive) (s : FState) : option positive := nextIn (layout s) b.
Definition predecessors (b : positive) (s : FState) : list positive :=
  concat ((fun p => const p <$> filter (fun x => x = b) (successors (block p s))) <$> layout s).
Definition pred_size (b : positive) (s : FState) : nat := length (predecessors b s).

(** ** State passing with failure *)
Inductive Failure := AssertFailed | FatalError | NullDereferenced.

#[export] Instance Failure_eq_dec : EqDecision Failure.
Proof. solve_decision. Defined.

Definition FM (A : Type) : Type := FState -> Failure + (A * FState).
#[export] Instance FM_ret : MRet FM := fun A a s => inr (a, s).
#[export] Instance FM_bind : MBind FM := fun A B f m s =>
  match m s with inl e => inl e | inr (a, s') => f a s' end.

Definition fget {A} (f : FState -> A) : FM A := fun s => inr (f s, s).
Definition fmodify (f : FState -> FState) : FM unit := fun s => inr (tt, f s).
Definition fail {A} (e : Failure) : FM A := fun _ => inl e.
Definition assert (b : bool) : FM unit := if b then mret tt else fail AssertFailed.
Definition fwhen (b : bool) (m : FM unit) : FM unit := if b then m else mret tt.

Fixpoint ffor {A} (l : list A) (f : A -> FM unit) : FM unit :=
  match l with [] => mret tt | x :: l => f x ;; ffor l f end.

(** ** Changes of a function *)
Definition f_createVirtualRegister (rc : RegClass) : FM reg := fun s =>
  let r := Virt (f_nextReg s) in
  inr (r, FS (f_code s) (layout s) (blocks s) (<[r := rc]> (f_regClass s)) (f_nextInstr s)
            (Pos.succ (f_nextReg s)) (nextBlock s) (available s)).

Definition updateBlock (b : positive) (f : MBlock -> MBlock) : FM unit :=
  fmodify (fun s => with_blocks (alter f b (blocks s)) s).

(** [BuildMI(MBB, pt, ...)]. *)
Definition BuildIn (b : positive) (pt : option positive) (i : MInstr) : FM positive := fun s =>
  let x := f_nextInstr s in
  inr (x, FS (<[x := i]> (f_code s)) (layout s)
            (alter (fun B => set_instrs (insertBefore x pt (instrs B)) B) b (blocks s))
            (f_regClass s) (Pos.succ x) (f_nextReg s) (nextBlock s) (available s)).

Definition f_updateInstr (mi : positive) (f : MInstr -> MInstr) : FM unit :=
  fmodify (fun s => with_code (alter f mi (f_code s)) s).

(** [PS->SSA.AddAvailableValue(&MBB, r)]. *)
Definition AddAvailableValue (b : positive) (r : reg) : FM unit :=
  fmodify (fun s => with_available (<[b := r]> (available s)) s).

(** [MF.insert(std::next(MBB), MF.CreateMachineBasicBlock())]. *)
Fixpoint insertAfter (x b : positive) (l : list positive) : list positive :=
  match l with [] => [x] | y :: l => if decide (y = b) then y :: x :: l else y :: insertAfter x b l end.

Definition createBlockAfter (b : positive) : FM positive := fun s =>
  let n := nextBlock s in
  inr (n, FS (f_code s) (insertAfter n b (layout s)) (<[n := emptyBlock]> (blocks s)) (f_regClass s)
            (f_nextInstr s) (f_nextReg s) (Pos.succ n) (available s)).

Definition addLiveIn (b : positive) (r : reg) : FM unit :=
  updateBlock b (fun B => set_liveins (liveins B ++ [r]) B).
Definition addSuccessor (b x : positive) : FM unit :=
  updateBlock b (fun B => set_successors (successors B ++ [x]) B).

(** The first occurrence of [x] becomes [y]. *)
Fixpoint replaceFirst (x y : positive) (l : list positive) : list positive :=
  match l with [] => [] | z :: l => if decide (z = x) then y :: l else z :: replaceFirst x y l end.

(** [MBB.replaceSuccessor(Old, New)] and [MBB.splitSuccessor(Old, New)], for a new block,
    which is no successor yet. *)
Definition replaceSuccessor (b Old New : positive) : FM unit :=
  l ← fget (fun s => successors (block b s));
  assert (bool_decide (Old ∈ l)) ;;
  updateBlock b (fun B => set_successors (replaceFirst Old New (successors B)) B).
Definition splitSuccessor (b Old New : positive) : FM unit :=
  l ← fget (fun s => successors (block b s));
  assert (bool_decide (Old ∈ l)) ;;
  addSuccessor b New.

(** ** What the pass reads of instructions *)

(** The target's tables: terminators, the condition of a branch ([None] is
    [COND_INVALID]) and the opposite condition. *)
Record CfgTarget := {
  isTerminator : MInstr -> bool;
  getCondFromBranch : MInstr -> option Z;
  GetOppositeBranchCondition : Z -> Z;
}.

Definition COND_NE : Z := 5.

Definition getMBB (o : MOperand) : option positive := match mo_kind o with OMBB b => Some b | _ => None end.
Definition setMBB (b : positive) (o : MOperand) : MOperand :=
  MO (OMBB b) (isDef o) (isImplicit o) (isDead o) (isKill o).

(** The block of operand 0 of a branch. *)
Definition branchTarget (i : MInstr) : option positive :=
  match mi_ops i with o :: _ => getMBB o | [] => None end.
Definition setBranchTarget (b : positive) (i : MInstr) : MInstr :=
  withOps (alter (setMBB b) 0%nat (mi_ops i)) i.

Definition isOpcode (op : string) (i : MInstr) : bool := bool_decide (opcode i = op).
Definition isPHI (i : MInstr) : bool := isOpcode "PHI" i.

Definition builtBranch (op : string) (ops : list MOperand) : MInstr :=
  MIn op None false false false false true false 0 0 None false true ops.
Definition JMP_1 (b : positive) : MInstr := builtBranch "JMP_1" [mbb b].

(** The operands of a PHI behind the definition, in pairs of a value and a block. *)
Fixpoint phiPairs (l : list MOperand) : list (MOperand * MOperand) :=
  match l with v :: b :: l => (v, b) :: phiPairs l | _ => [] end.
Fixpoint unpair (l : list (MOperand * MOperand)) : list MOperand :=
  match l with (v, b) :: l => v :: b :: unpair l | [] => [] end.
Definition phiOps (f : list (MOperand * MOperand) -> list (MOperand * MOperand)) (i : MInstr) : MInstr :=
  match mi_ops i with
  | d :: l => withOps (d :: unpair (f (phiPairs l))) i
  | [] => i
  end.

(** The longest prefix whose elements satisfy a test. *)
Fixpoint prefixWhile {A} (p : A -> bool) (l : list A) : list A :=
  match l with [] => [] | x :: l => if p x then x :: prefixWhile p l else [] end.

Definition phis (b : positive) (s : FState) : list positive :=
  prefixWhile (fun x => isPHI (f_instr x s)) (instrs (block b s)).

(** ** [splitEdge] *)

(** The entry of [MBB] in a PHI is handed to the new block, or copied for it when other
    edges remain. *)
Fixpoint replaceEntry (MBB NewMBB : positive) (l : list (MOperand * MOperand)) : list (MOperand * MOperand) :=
  match l with
  | [] => []
  | (OpV, OpMBB) :: l =>
    if decide (getMBB OpMBB = Some MBB) then (OpV, setMBB NewMBB OpMBB) :: l
    else (OpV, OpMBB) :: replaceEntry MBB NewMBB l
  end.

Definition splitEntry (MBB NewMBB : positive) (SuccCount : Z) (l : list (MOperand * MOperand)) :
    list (MOperand * MOperand) :=
  match list_find (fun p => getMBB p.2 = Some MBB) l with
  | None => l
  | Some (_, (OpV, _)) => if (SuccCount =? 1)%Z then replaceEntry MBB NewMBB l else l ++ [(OpV, mbb NewMBB)]
  end.

Definition isSuccessor (MBB Succ : positive) (s : FState) : bool := bool_decide (Succ ∈ successors (block MBB s)).
Definition isLayoutSuccessor (MBB Succ : positive) (s : FState) : bool := bool_decide (layoutNext MBB s = Some Succ).

(** The branch goes to the new block; a broken fallthrough gets a jump of its own.  The
    result is the new [UncondBr]. *)
Definition redirect (MBB NewMBB Succ : positive) (Br UncondBr : option positive) : FM (option positive) :=
  match Br with
  | Some Br =>
    i ← fget (f_instr Br);
    assert (bool_decide (branchTarget i = Some Succ)) ;;
    f_updateInstr Br (setBranchTarget NewMBB) ;;
    UncondBr ← (match UncondBr with
      | Some u => mret (Some u)
      | None =>
        next ← fget (layoutNext NewMBB);
        match next with
        | None => fail NullDereferenced
        | Some OldLayoutSucc =>
          isSucc ← fget (isSuccessor MBB OldLayoutSucc);
          assert isSucc ;;
          u ← BuildIn MBB None (JMP_1 OldLayoutSucc);
          mret (Some u)
        end
      end);
    falls ← fget (isLayoutSuccessor NewMBB Succ);
    (if falls : bool then mret tt else BuildIn NewMBB None (JMP_1 Succ) ;; mret tt) ;;
    mret UncondBr
  | None =>
    assert (bool_decide (UncondBr = None)) ;;
    falls ← fget (isLayoutSuccessor NewMBB Succ);
    assert falls ;;
    mret UncondBr
  end.

Definition splitEdge (MBB Succ : positive) (SuccCount : Z) (Br UncondBr : option positive) :
    FM (positive * option positive) :=
  ehPad ← fget (fun s => isEHPad (block Succ s));
  assert (negb ehPad) ;;
  NewMBB ← createBlockAfter MBB;
  UncondBr ← redirect MBB NewMBB Succ Br UncondBr;
  (if (SuccCount =? 1)%Z then replaceSuccessor MBB Succ NewMBB else splitSuccessor MBB Succ NewMBB) ;;
  addSuccessor NewMBB Succ ;;
  l ← fget (phis Succ);
  ffor l (fun MI => f_updateInstr MI (phiOps (splitEntry MBB NewMBB SuccCount))) ;;
  live ← fget (fun s => liveins (block Succ s));
  ffor live (fun LI => addLiveIn NewMBB LI) ;;
  mret (NewMBB, UncondBr).

(** ** [canonicalizePHIOperands] *)

(** One entry per predecessor, the first. *)
Fixpoint firstEntries (Preds : list (option positive)) (l : list (MOperand * MOperand)) : list (MOperand * MOperand) :=
  match l with
  | [] => []
  | (OpV, OpMBB) :: l =>
    if decide (getMBB OpMBB ∈ Preds) then firstEntries Preds l
    else (OpV, OpMBB) :: firstEntries (getMBB OpMBB :: Preds) l
  end.

Definition canonicalizePHIOperands : FM unit :=
  l ← fget layout;
  ffor l (fun b =>
    p ← fget (phis b);
    ffor p (fun MI => f_updateInstr MI (phiOps (firstEntries [])))).

(** ** [hasVulnerableLoad] *)
Fixpoint vulnerableIn (l : list MInstr) : bool :=
  match l with
  | [] => false
  | MI :: l =>
    if isOpcode "LFENCE" MI then false
    else if negb (mayLoad MI) then vulnerableIn l
    else if isOpcode "MFENCE" MI then vulnerableIn l
    else true
  end.
Definition hasVulnerableLoad (s : FState) : bool :=
  existsb (fun b => vulnerableIn ((fun x => f_instr x s) <$> instrs (block b s))) (layout s).

Section Cfg.
Variable C : CfgTarget.
Variable T : TargetInfo.

Definition isTerm (s : FState) (x : positive) : bool := isTerminator C (f_instr x s).

(** [MBB.terminators()]. *)
Definition terminators (b : positive) (s : FState) : list positive :=
  reverse (prefixWhile (isTerm s) (reverse (instrs (block b s)))).

(** ** [hardenEdgesWithLFENCE] *)

(** The new element of a [SmallSetVector] goes to its end. *)
Definition setInsert (l : list positive) (x : positive) : list positive :=
  if decide (x ∈ l) then l else l ++ [x].

Definition edgeBlocks (s : FState) : list positive :=
  foldl (fun Blocks b =>
    if (length (successors (block b s)) <=? 1)%nat then Blocks
    else match head (terminators b s) with
      | None => Blocks
      | Some TermIt =>
        if negb (isBranch (f_instr TermIt s)) then Blocks
        else foldl setInsert Blocks (filter (fun x => isEHPad (block x s) = false) (successors (block b s)))
      end) [] (layout s).

(** [SkipPHIsAndLabels(begin())]; [isLabel] tells labels, [isDebug] what
    [SkipPHIsLabelsAndDebug] skips too. *)
Variable isLabel : MInstr -> bool.
Fixpoint skipWhile (p : positive -> bool) (l : list positive) : option positive :=
  match l with [] => None | x :: l => if p x then skipWhile p l else Some x end.
Definition SkipPHIsAndLabels (b : positive) (s : FState) : option positive :=
  skipWhile (fun x => isPHI (f_instr x s) || isLabel (f_instr x s)) (instrs (block b s)).
Definition SkipPHIsLabelsAndDebug (b : positive) (s : FState) : option positive :=
  skipWhile (fun x => isPHI (f_instr x s) || isLabel (f_instr x s) || isDebugInstr (f_instr x s)) (instrs (block b s)).

Definition hardenEdgesWithLFENCE : FM unit :=
  Blocks ← fget edgeBlocks;
  ffor Blocks (fun b => pt ← fget (SkipPHIsAndLabels b); BuildIn b pt LFENCE ;; mret tt).

(** ** [collectBlockCondInfo] *)
Record BlockCondInfo := BCI {
  info_MBB : positive;
  CondBrs : list positive;
  UncondBr : option positive;
}.

(** Backwards over the instructions of a block. *)
Fixpoint walkTerminators (s : FState) (l : list positive) (conds : list positive) (uncond : option positive) :
    list positive * option positive :=
  match l with
  | [] => (conds, uncond)
  | MI :: l =>
    if negb (isTerm s MI) then (conds, uncond)
    else if negb (isBranch (f_instr MI s)) then ([], uncond)
    else if isOpcode "JMP_1" (f_instr MI s) then walkTerminators s l [] (Some MI)
    else match getCondFromBranch C (f_instr MI s) with
      | None => walkTerminators s l [] (Some MI)
      | Some _ => walkTerminators s l (conds ++ [MI]) uncond
      end
  end.

Definition blockCondInfo (s : FState) (b : positive) : option BlockCondInfo :=
  if (length (successors (block b s)) <=? 1)%nat then None
  else
    let '(conds, uncond) := walkTerminators s (reverse (instrs (block b s))) [] None in
    match conds with [] => None | _ :: _ => Some (BCI b conds uncond) end.

Definition collectBlockCondInfo (s : FState) : list BlockCondInfo := omap (blockCondInfo s) (layout s).

(** ** [tracePredStateThroughCFG] *)
Variable InitialReg PoisonReg : reg.

Definition cmovOf (Updated Cur : reg) (Cond : Z) (kill : bool) : MInstr :=
  built "CMOV64rr" 1 [def Updated; use Cur; use PoisonReg; imm Cond; if kill then useKill EFLAGS else use EFLAGS].

(** The sequence of cmovs; the first is to be rewritten into SSA form. *)
Fixpoint insertCMovs (CheckingMBB : positive) (InsertPt : option positive) (LiveEFLAGS : bool) (back : option Z)
    (CurStateReg : reg) (Conds : list Z) : FM (list positive * reg) :=
  match Conds with
  | [] => mret ([], CurStateReg)
  | Cond :: Conds =>
    UpdatedStateReg ← f_createVirtualRegister GR64_NOSP;
    CMovI ← BuildIn CheckingMBB InsertPt
      (cmovOf UpdatedStateReg CurStateReg Cond (negb LiveEFLAGS && bool_decide (back = Some Cond)));
    '(CMovs, r) ← insertCMovs CheckingMBB InsertPt LiveEFLAGS back UpdatedStateReg Conds;
    mret (if decide (CurStateReg = InitialReg) then CMovI :: CMovs else CMovs, r)
  end.

Definition buildChecks (CheckingMBB : positive) (LiveEFLAGS : bool) (Conds : list Z) : FM (list positive) :=
  (if LiveEFLAGS then mret tt else addLiveIn CheckingMBB EFLAGS) ;;
  l ← fget (fun s => instrs (block CheckingMBB s));
  phi ← fget (fun s => match l with x :: _ => isPHI (f_instr x s) | [] => false end);
  assert (negb phi) ;;
  '(CMovs, CurStateReg) ← insertCMovs CheckingMBB (head l) LiveEFLAGS (last Conds) InitialReg Conds;
  AddAvailableValue CheckingMBB CurStateReg ;;
  mret CMovs.

Definition BuildCheckingBlockForSuccAndConds (MBB Succ : positive) (SuccCount : Z) (Br UncondBr : option positive)
    (Conds : list Z) : FM (option positive * list positive) :=
  preds ← fget (pred_size Succ);
  '(CheckingMBB, UncondBr) ←
    (if (SuccCount =? 1)%Z && (preds =? 1)%nat then mret (Succ, UncondBr)
     else splitEdge MBB Succ SuccCount Br UncondBr);
  LiveEFLAGS ← fget (fun s => bool_decide (EFLAGS ∈ liveins (block Succ s)));
  CMovs ← buildChecks CheckingMBB LiveEFLAGS Conds;
  mret (UncondBr, CMovs).

Definition countOf (SuccCounts : gmap positive Z) (x : positive) : Z := default 0%Z (SuccCounts !! x).
Definition bump (d : Z) (x : positive) (SuccCounts : gmap positive Z) : gmap positive Z :=
  <[x := (countOf SuccCounts x + d)%Z]> SuccCounts.

Definition orNull {A} (o : option A) : FM A :=
  match o with Some a => mret a | None => fail NullDereferenced end.

Fixpoint countSuccs (conds : list positive) (SuccCounts : gmap positive Z) : FM (gmap positive Z) :=
  match conds with
  | [] => mret SuccCounts
  | CondBr :: conds =>
    i ← fget (f_instr CondBr);
    Succ ← orNull (branchTarget i);
    countSuccs conds (bump 1 Succ SuccCounts)
  end.

Fixpoint traceCondBrs (MBB : positive) (conds : list positive) (SuccCounts : gmap positive Z)
    (UncondBr : option positive) (UncondCodeSeq : list Z) (CMovs : list positive) :
    FM (gmap positive Z * option positive * list Z * list positive) :=
  match conds with
  | [] => mret (SuccCounts, UncondBr, UncondCodeSeq, CMovs)
  | CondBr :: conds =>
    i ← fget (f_instr CondBr);
    Succ ← orNull (branchTarget i);
    Cond ← orNull (getCondFromBranch C i);
    '(UncondBr, CMovs') ← BuildCheckingBlockForSuccAndConds MBB Succ (countOf SuccCounts Succ) (Some CondBr) UncondBr
      [GetOppositeBranchCondition C Cond];
    traceCondBrs MBB conds (bump (-1) Succ SuccCounts) UncondBr (UncondCodeSeq ++ [Cond]) (CMovs ++ CMovs')
  end.

(** [std::unique] on a sorted sequence. *)
Fixpoint uniqueAdjacent (l : list Z) : list Z :=
  match l with
  | x :: l' => match l' with
    | y :: _ => if (x =? y)%Z then uniqueAdjacent l' else x :: uniqueAdjacent l'
    | [] => [x]
    end
  | [] => []
  end.
Definition sortUnique (l : list Z) : list Z := uniqueAdjacent (merge_sort Z.le l).

(** The successor without a condition: the target of the jump, no block behind an
    indirect branch, the block that follows otherwise. *)
Definition unconditionalSuccessor (Info : BlockCondInfo) : FM (option positive) :=
  match UncondBr Info with
  | Some u => i ← fget (f_instr u); mret (if isOpcode "JMP_1" i then branchTarget i else None)
  | None => next ← fget (layoutNext (info_MBB Info)); n ← orNull next; mret (Some n)
  end.

Definition traceBlock (Info : BlockCondInfo) : FM (list positive) :=
  let MBB := info_MBB Info in
  UncondSucc ← unconditionalSuccessor Info;
  SuccCounts ← countSuccs (CondBrs Info) (match UncondSucc with Some u => bump 1 u ∅ | None => ∅ end);
  '(SuccCounts, UncondBr, UncondCodeSeq, CMovs) ← traceCondBrs MBB (CondBrs Info) SuccCounts (UncondBr Info) [] [];
  match UncondSucc with
  | None => mret CMovs
  | Some u =>
    assert (countOf SuccCounts u =? 1)%Z ;;
    '(_, CMovs') ← BuildCheckingBlockForSuccAndConds MBB u 1 UncondBr UncondBr (sortUnique UncondCodeSeq);
    mret (CMovs ++ CMovs')
  end.

Fixpoint tracePredStateThroughCFG (Infos : list BlockCondInfo) : FM (list positive) :=
  match Infos with
  | [] => mret []
  | Info :: Infos =>
    CMovs ← traceBlock Info;
    CMovs' ← tracePredStateThroughCFG Infos;
    mret (CMovs ++ CMovs')
  end.

(** ** [unfoldCallAndJumpLoads]

    The class of the register an unfolded load defines, and the instructions that load
    it and use it, are the target's. *)
Variable unfoldedRegClass : string -> option RegClass.
Variable unfoldMemoryOperand : MInstr -> reg -> option (list MInstr).

Definition unfoldedOpcodes : list string :=
  ["CALL16m"; "CALL16m_NT"; "CALL32m"; "CALL32m_NT"; "CALL64m"; "CALL64m_NT"; "JMP16m"; "JMP16m_NT"; "JMP32m";
   "JMP32m_NT"; "JMP64m"; "JMP64m_NT"; "TAILJMPm64"; "TAILJMPm64_REX"; "TAILJMPm"; "TCRETURNmi64"; "TCRETURNmi"]%string.

Definition eraseFrom (b x : positive) : FM unit :=
  updateBlock b (fun B => set_instrs (filter (fun y => y <> x) (instrs B)) B).

Definition unfoldInstr (b MI : positive) : FM unit :=
  i ← fget (f_instr MI);
  if negb (isCall i) && negb (isBranch i) then mret tt
  else if negb (mayLoad i) then mret tt
  else if bool_decide (opcode i ∈ farOpcodes) then mret tt
  else if bool_decide (opcode i ∈ unfoldedOpcodes) then
    match unfoldedRegClass (opcode i) with
    | None => fail FatalError
    | Some rc =>
      Reg ← f_createVirtualRegister rc;
      match unfoldMemoryOperand i Reg with
      | None => fail AssertFailed
      | Some NewMIs => ffor NewMIs (fun NewMI => BuildIn b (Some MI) NewMI ;; mret tt) ;; eraseFrom b MI
      end
    end
  else fail FatalError.

Definition unfoldCallAndJumpLoads : FM unit :=
  l ← fget layout;
  ffor l (fun b => is_ ← fget (fun s => instrs (block b s)); ffor is_ (unfoldInstr b)).

(** ** [tracePredStateThroughIndirectBranches] *)

(** What the walk over the terminators collects: the register with the target, the
    blocks that end in an indirect branch, and their successors. *)
Record IndirectInfo := {
  TargetAddr : gmap positive reg;
  IndirectTerminatedMBBs : gset positive;
  IndirectTargetMBBs : gset positive;
}.

Definition memoryJumps : list string :=
  ["JMP16m"; "JMP16m_NT"; "JMP32m"; "JMP32m_NT"; "JMP64m"; "JMP64m_NT"]%string.

Definition lastInstr (b : positive) (s : FState) : option positive :=
  head (filter (fun x => isDebugInstr (f_instr x s) = false) (reverse (instrs (block b s)))).

Definition indirectBlock (b : positive) (w : IndirectInfo) (s : FState) : Failure + IndirectInfo :=
  match lastInstr b s with
  | None => inr w
  | Some TI =>
    let i := f_instr TI s in
    if negb (isTerminator C i) || negb (isBranch i) then inr w
    else if bool_decide (opcode i ∈ memoryJumps) then inl FatalError
    else if isOpcode "JMP16r" i || isOpcode "JMP32r" i then inl FatalError
    else if negb (isOpcode "JMP64r" i) then inr w
    else if existsb (fun x => negb (isDebugInstr (f_instr x s)) && negb (bool_decide (x = TI))) (terminators b s)
      then inl FatalError
    else inr {| TargetAddr := <[b := getReg (nth 0 (mi_ops i) (imm 0))]> (TargetAddr w);
                IndirectTerminatedMBBs := {[b]} ∪ IndirectTerminatedMBBs w;
                IndirectTargetMBBs := list_to_set (successors (block b s)) ∪ IndirectTargetMBBs w |}
  end.

Fixpoint indirectBlocks (l : list positive) (w : IndirectInfo) (s : FState) : Failure + IndirectInfo :=
  match l with
  | [] => inr w
  | b :: l => match indirectBlock b w s with inl e => inl e | inr w => indirectBlocks l w s end
  end.

(** The address of a block in a register. *)
Definition addressOfBlock (r : reg) (b : positive) : MInstr :=
  if smallNonPIC T then built "MOV64ri32" 1 [def r; mbb b]
  else built "LEA64r" 1 [def r; use RIP; imm 1; use NoRegister; mbb b; use NoRegister].

(** A predecessor that ends otherwise gets this block's address as its target. *)
Definition installTarget (b Pred : positive) (Terminated : gset positive) (a : gmap positive reg) :
    FM (gmap positive reg) :=
  if decide (Pred ∈ Terminated) then mret a
  else
    only ← fget (fun s => forallb (fun Succ => isEHPad (block Succ s) || bool_decide (Succ = b)) (successors (block Pred s)));
    if negb only then fail FatalError
    else
      InsertPt ← fget (fun s => head (terminators Pred s));
      TargetReg ← f_createVirtualRegister GR64;
      BuildIn Pred InsertPt (addressOfBlock TargetReg b) ;;
      mret (<[Pred := TargetReg]> a).

Fixpoint installTargets (b : positive) (preds : list positive) (Terminated : gset positive) (a : gmap positive reg) :
    FM (gmap positive reg) :=
  match preds with
  | [] => mret a
  | Pred :: preds => a ← installTarget b Pred Terminated a; installTargets b preds Terminated a
  end.

(** [GetValueInMiddleOfBlock] of LLVM's SSA updater, given its available values. *)
Variable GetValueInMiddleOfBlock : gmap positive reg -> positive -> FState -> reg * FState.
Definition valueInMiddle (a : gmap positive reg) (b : positive) : FM reg :=
  fun s => inr (GetValueInMiddleOfBlock a b s).

(** The comparison of the target with the block's address. *)
Definition compareTarget (b : positive) (InsertPt : option positive) (TargetReg : reg) : FM unit :=
  if smallNonPIC T then
    BuildIn b InsertPt (built "CMP64ri32" 0 [useKill TargetReg; mbb b; liveFlags]) ;; mret tt
  else
    AddrReg ← f_createVirtualRegister GR64;
    BuildIn b InsertPt (addressOfBlock AddrReg b) ;;
    BuildIn b InsertPt (built "CMP64rr" 0 [useKill TargetReg; useKill AddrReg; liveFlags]) ;; mret tt.

Definition checkTarget (b : positive) (Terminated : gset positive) (a : gmap positive reg) :
    FM (gmap positive reg * positive) :=
  ehPad ← fget (fun s => isEHPad (block b s));
  assert (negb ehPad) ;;
  live ← fget (fun s => bool_decide (EFLAGS ∈ liveins (block b s)));
  assert (negb live) ;;
  preds ← fget (predecessors b);
  a ← installTargets b preds Terminated a;
  TargetReg ← valueInMiddle a b;
  updateBlock b set_addressTaken ;;
  InsertPt ← fget (SkipPHIsLabelsAndDebug b);
  compareTarget b InsertPt TargetReg ;;
  UpdatedStateReg ← f_createVirtualRegister GR64_NOSP;
  CMovI ← BuildIn b InsertPt (cmovOf UpdatedStateReg InitialReg COND_NE true);
  AddAvailableValue b UpdatedStateReg ;;
  mret (a, CMovI).

Fixpoint checkTargets (l : list positive) (w : IndirectInfo) (a : gmap positive reg) : FM (list positive) :=
  match l with
  | [] => mret []
  | b :: l =>
    if decide (b ∈ IndirectTargetMBBs w) then
      '(a, CMovI) ← checkTarget b (IndirectTerminatedMBBs w) a;
      CMovs ← checkTargets l w a;
      mret (CMovI :: CMovs)
    else checkTargets l w a
  end.

Definition tracePredStateThroughIndirectBranches : FM (list positive) :=
  f_createVirtualRegister GR64 ;;
  l ← fget layout;
  w ← (fun s => match indirectBlocks l {| TargetAddr := ∅; IndirectTerminatedMBBs := ∅; IndirectTargetMBBs := ∅ |} s with
                | inl e => inl e | inr w => inr (w, s) end);
  if decide (IndirectTargetMBBs w = ∅) then mret []
  else checkTargets l w (TargetAddr w).
End Cfg.

(** ** [runOnMachineFunction] *)

(** An operation of one block, run in the function. *)
Definition inBlock {A} (b : positive) (StateReg : reg) (m : SM A) : FM (A * reg) := fun s =>
  let '(a, s') := m (MS (f_code s) (instrs (block b s)) (f_regClass s) (f_nextInstr s) (f_nextReg s) StateReg) in
  inr ((a, stateReg s'),
       FS (code s') (layout s) (alter (set_instrs (body s')) b (blocks s)) (regClass s') (nextInstr s') (nextReg s')
         (nextBlock s) (available s)).

Section Run.
Context {orderInstrs : SetOrder positive} {orderNull : SetOrder (option positive)}.
Variable C : CfgTarget.
Variable T : TargetInfo.
Variable Opt : Options.
Variable isLabel : MInstr -> bool.
Variable unfoldedRegClass : string -> option RegClass.
Variable unfoldMemoryOperand : MInstr -> reg -> option (list MInstr).
Variable GetValueInMiddleOfBlock : gmap positive reg -> positive -> FState -> reg * FState.
Variable GetValueAtEndOfBlock : gmap positive reg -> positive -> FState -> reg * FState.

(** The remaining options and the function's attribute. *)
Variable EnableSpeculativeLoadHardening HardenEdgesWithLFENCE RemoveAllHardening : bool.
Variable hasFnAttribute : bool.

(** The loop over the blocks of [tracePredStateThroughBlocksAndHarden]; the updater is
    asked for the block's state once, before the block. *)
Definition hardenBlockIn (fuel : nat) (PoisonReg : reg) (b : positive) : FM unit :=
  a ← fget available;
  StateReg ← (fun s => inr (GetValueAtEndOfBlock a b s));
  B ← fget (block b);
  '(w, StateReg') ← inBlock b StateReg
    (hardenBlock T Opt (bool_decide (EFLAGS ∈ liveins B)) (bool_decide (successors B = [])) PoisonReg fuel);
  match w with
  | None => fail NullDereferenced
  | Some _ => if decide (StateReg' = StateReg) then mret tt else AddAvailableValue b StateReg'
  end.

Definition tracePredStateThroughBlocksAndHarden (fuel : nat) (PoisonReg : reg) : FM unit :=
  l ← fget layout; ffor l (hardenBlockIn fuel PoisonReg).

(** The block an instruction is in. *)
Definition parentOf (x : positive) (s : FState) : option positive :=
  head (filter (fun b => x ∈ instrs (block b s)) (layout s)).

(** [PS->SSA.RewriteUse] for every use of the initial state in the cmovs. *)
Definition rewriteCMov (InitialReg : reg) (CMovI : positive) : FM unit :=
  i ← fget (f_instr CMovI);
  if existsb (fun o => isReg o && bool_decide (getReg o = InitialReg)) (mi_ops i) then
    b ← fget (parentOf CMovI);
    b ← orNull b;
    a ← fget available;
    r ← valueInMiddle GetValueInMiddleOfBlock a b;
    f_updateInstr CMovI (mapOps (renameReg InitialReg r))
  else mret tt.

(** The initial state: the caller's, taken from the stack pointer, or zero. *)
Definition initialState (Entry : positive) (InsertPt : option positive) : FM reg :=
  if HardenInterprocedurally Opt && negb (FenceCallAndRet Opt) then
    '(r, _) ← inBlock Entry NoRegister (extractPredStateFromSP T InsertPt);
    mret r
  else
    InitialReg ← f_createVirtualRegister GR64_NOSP;
    PredStateSubReg ← f_createVirtualRegister GR32;
    BuildIn Entry InsertPt (built "MOV32r0" 1 [def PredStateSubReg; deadFlags]) ;;
    BuildIn Entry InsertPt (built "SUBREG_TO_REG" 1 [def InitialReg; imm 0; use PredStateSubReg; sym "sub_32bit"]) ;;
    mret InitialReg.

(** Entries through an exception take the state of the code that throws. *)
Definition recaptureAtPads (InitialReg : reg) : FM unit :=
  l ← fget layout;
  ffor l (fun b =>
    ehPad ← fget (fun s => isEHPad (block b s));
    if negb ehPad then mret tt
    else
      pt ← fget (SkipPHIsAndLabels isLabel b);
      '(r, _) ← inBlock b NoRegister (extractPredStateFromSP T pt);
      AddAvailableValue b r).

(** Tracing the state through the function, from the entry on. *)
Definition traceFunction (fuel : nat) (Infos : list BlockCondInfo) (Entry : positive) (InitialReg PoisonReg : reg) :
    FM unit :=
  canonicalizePHIOperands ;;
  AddAvailableValue Entry InitialReg ;;
  CMovs ← tracePredStateThroughCFG C InitialReg PoisonReg Infos;
  fwhen (HardenInterprocedurally Opt) (recaptureAtPads InitialReg) ;;
  IndirectBrCMovs ← (if HardenIndirectCallsAndJumps Opt then
      unfoldCallAndJumpLoads unfoldedRegClass unfoldMemoryOperand ;;
      tracePredStateThroughIndirectBranches C T isLabel InitialReg PoisonReg GetValueInMiddleOfBlock
    else mret []);
  fwhen (negb RemoveAllHardening) (tracePredStateThroughBlocksAndHarden fuel PoisonReg) ;;
  ffor (CMovs ++ IndirectBrCMovs) (rewriteCMov InitialReg).

Definition runOnMachineFunction (fuel : nat) : FM bool :=
  l ← fget layout;
  if negb EnableSpeculativeLoadHardening && negb hasFnAttribute then mret false
  else match l with
  | [] => mret false
  | Entry :: _ =>
    if HardenEdgesWithLFENCE then hardenEdgesWithLFENCE C isLabel ;; mret true
    else
      EntryInsertPt ← fget (SkipPHIsLabelsAndDebug isLabel Entry);
      HasVulnerableLoad ← fget hasVulnerableLoad;
      Infos ← fget (collectBlockCondInfo C);
      PoisonReg ← f_createVirtualRegister GR64_NOSP;
      BuildIn Entry EntryInsertPt (built "MOV64ri32" 1 [def PoisonReg; imm (-1)]) ;;
      (if HasVulnerableLoad && FenceCallAndRet Opt then BuildIn Entry EntryInsertPt LFENCE ;; mret tt else mret tt) ;;
      if FenceCallAndRet Opt && bool_decide (Infos = []) then mret true
      else
        InitialReg ← initialState Entry EntryInsertPt;
        traceFunction fuel Infos Entry InitialReg PoisonReg ;;
        mret true
  end.
End Run.
