(* ===== verification/SlhEdges.v ===== *)
(** * The checks on the edges: operations

    Weakest preconditions for the monad of SlhCfg.v, the structure every operation keeps
    ([structured]), and what [splitEdge], [buildChecks] and
    [BuildCheckingBlockForSuccAndConds] do to a function. *)
From stdpp Require Import base countable gmap sets list option strings sorting.
From Stdlib Require Import ZArith Lia.
From S2P Require Import Prelude Machine Slh SlhCfg.

(** ** Weakest preconditions *)
Definition wp {A} (m : FM A) (s : FState) (Q : A -> FState -> Prop) : Prop :=
  match m s with inl _ => False | inr (a, s') => Q a s' end.

Lemma fwp_bind {A B} (m : FM A) (f : A -> FM B) s Q : wp m s (fun a s' => wp (f a) s' Q) -> wp (m ≫= f) s Q.
Proof. unfold wp, mbind, FM_bind. destruct (m s) as [e|[a s']]; [done|auto]. Qed.

Lemma wp_bind2 {A B D} (m1 : FM A) (m2 : FM B) (k : B -> FM D) s Q :
  wp (m1 ;; m2) s (fun b s' => wp (k b) s' Q) -> wp (m1 ;; (m2 ≫= k)) s Q.
Proof. unfold wp, mbind, FM_bind. destruct (m1 s) as [e|[a s1]]; [done|]. destruct (m2 s1) as [e|[b s2]]; [done|auto]. Qed.

Lemma fwp_mono {A} (m : FM A) s (Q R : A -> FState -> Prop) :
  wp m s Q -> (forall a s', Q a s' -> R a s') -> wp m s R.
Proof. unfold wp. destruct (m s) as [e|[a s']]; auto. Qed.

Lemma fwp_ret {A} (a : A) s (Q : A -> FState -> Prop) : Q a s -> wp (mret a) s Q.
Proof. auto. Qed.

Lemma wp_get {A} (f : FState -> A) s (Q : A -> FState -> Prop) : Q (f s) s -> wp (fget f) s Q.
Proof. auto. Qed.

Lemma wp_assert b s (Q : unit -> FState -> Prop) : b = true -> Q tt s -> wp (assert b) s Q.
Proof. intros ->. auto. Qed.

Lemma wp_run {A} (m : FM A) s Q : wp m s Q -> exists a s', m s = inr (a, s') /\ Q a s'.
Proof. unfold wp. destruct (m s) as [e|[a s']]; [done|eauto]. Qed.

Lemma wp_ffor {A} (l : list A) (f : A -> FM unit) (I : list A -> FState -> Prop) s :
  I [] s ->
  (forall l1 x l2 s1, l = l1 ++ x :: l2 -> I l1 s1 -> wp (f x) s1 (fun _ s2 => I (l1 ++ [x]) s2)) ->
  wp (ffor l f) s (fun _ s' => I l s').
Proof.
  intros H0 Hs. enough (forall l2 l1 s1, l = l1 ++ l2 -> I l1 s1 -> wp (ffor l2 f) s1 (fun _ s' => I l s'))
    as H by exact (H l [] s eq_refl H0).
  induction l2 as [|x l2 IH]; intros l1 s1 Hl HI; simpl.
  - rewrite app_nil_r in Hl. subst. exact HI.
  - apply fwp_bind. eapply fwp_mono; [exact (Hs _ _ _ _ Hl HI)|]. intros [] s2 H2. cbn beta in *.
    apply (IH (l1 ++ [x])); [by rewrite <- (assoc_L (++))|done].
Qed.

Ltac wp_step :=
  lazymatch goal with
  | |- wp (mbind _ _) _ _ => apply fwp_bind
  | |- wp (mret _) _ _ => apply fwp_ret
  | |- wp (fget _) _ _ => apply wp_get; cbn beta
  | |- wp (assert _) _ _ => apply wp_assert
  end.

(** ** Reading a changed function *)
Lemma block_alter x b f (m : gmap positive MBlock) : x ∈ dom m \/ x <> b ->
  default emptyBlock (alter f b m !! x) = if decide (x = b) then f (default emptyBlock (m !! x)) else default emptyBlock (m !! x).
Proof.
  intros Hd. destruct (decide (x = b)) as [->|Hx]; [|by rewrite lookup_alter_ne by done].
  destruct Hd as [Hd|]; [|done]. apply elem_of_dom in Hd as [B HB]. by rewrite lookup_alter_eq, HB.
Qed.

Lemma dom_alter_blocks (f : MBlock -> MBlock) b (m : gmap positive MBlock) : dom (alter f b m) = dom m.
Proof. apply dom_alter_L. Qed.

Lemma elem_of_insertAfter x b l y : y ∈ insertAfter x b l <-> y ∈ l \/ y = x.
Proof. induction l as [|z l IH]; simpl; [set_solver|]. case_decide; set_solver. Qed.

Lemma NoDup_insertAfter x b l : NoDup l -> x ∉ l -> NoDup (insertAfter x b l).
Proof.
  induction l as [|z l IH]; simpl; intros Hd Hx; [apply NoDup_singleton|]. apply NoDup_cons in Hd as [Hz Hd].
  case_decide as Hb; rewrite !NoDup_cons; [set_solver|]. rewrite elem_of_insertAfter. split; [set_solver|].
  apply IH; [done|set_solver].
Qed.

Lemma nextIn_insertAfter x b l y : NoDup l -> x ∉ l -> b ∈ l ->
  nextIn (insertAfter x b l) y = if decide (y = b) then Some x else if decide (y = x) then nextIn l b else nextIn l y.
Proof.
  induction l as [|z l IH]; simpl; intros Hd Hx Hb; [set_solver|]. apply NoDup_cons in Hd as [Hz Hd].
  destruct (decide (z = b)) as [->|Hzb]; simpl.
  - repeat case_decide; subst; done || set_solver.
  - assert (b ∈ l) as Hb' by set_solver. rewrite IH by set_solver.
    destruct l as [|w l]; [set_solver|]. simpl.
    repeat case_decide; subst; done || set_solver.
Qed.

Lemma elem_of_replaceFirst x y l z : z ∈ l -> z <> x -> z ∈ replaceFirst x y l.
Proof. induction l as [|w l IH]; simpl; [set_solver|]. case_decide; set_solver. Qed.

Lemma replaceFirst_elem x y l z : z ∈ replaceFirst x y l -> z ∈ l \/ z = y.
Proof. induction l as [|w l IH]; simpl; [set_solver|]. case_decide; set_solver. Qed.

Lemma replaceFirst_new x y l : x ∈ l -> y ∈ replaceFirst x y l.
Proof. induction l as [|w l IH]; simpl; [set_solver|]. case_decide; set_solver. Qed.

(** Prefixes. *)
Lemma prefixWhile_app_stop {A} (p : A -> bool) l m :
  forallb p l = false -> prefixWhile p (l ++ m) = prefixWhile p l.
Proof. induction l as [|x l IH]; simpl; [done|]. destruct (p x); simpl; [|done]. intros. f_equal. auto. Qed.

Lemma prefixWhile_app_all {A} (p : A -> bool) l m :
  forallb p l = true -> prefixWhile p (l ++ m) = l ++ prefixWhile p m.
Proof.
  induction l as [|x l IH]; simpl; [done|]. destruct (p x); simpl; [|done]. intros. f_equal. auto.
Qed.

Lemma prefixWhile_app_none {A} (p : A -> bool) l m :
  Forall (fun x => p x = false) m -> prefixWhile p (l ++ m) = prefixWhile p l.
Proof.
  intros Hm. induction l as [|x l IH]; simpl; [|by rewrite IH].
  destruct Hm as [|y m Hy]; simpl; [done|by rewrite Hy].
Qed.

Lemma prefixWhile_ext {A} (p q : A -> bool) l : (forall x, x ∈ l -> p x = q x) -> prefixWhile p l = prefixWhile q l.
Proof.
  induction l as [|x l IH]; simpl; intros He; [done|]. rewrite (He x) by left.
  rewrite IH by (intros; apply He; by right). done.
Qed.

Lemma prefixWhile_prefix {A} (p : A -> bool) l : exists r, l = prefixWhile p l ++ r.
Proof. induction l as [|x l [r IH]]; simpl; [by exists []|]. destruct (p x); [exists r; simpl; by f_equal|by exists (x :: l)]. Qed.

Lemma prefixWhile_sat {A} (p : A -> bool) l x : x ∈ prefixWhile p l -> p x = true /\ x ∈ l.
Proof.
  induction l as [|y l IH]; simpl; [set_solver|]. destruct (p y) eqn:E; [|set_solver].
  intros [->|?]%elem_of_cons; [split; [done|left]|]. destruct IH; [done|]. split; [done|by right].
Qed.

(** ** The target's tables, as documented *)
Class TargetLaws (C : CfgTarget) : Prop := {
  term_jmp b : isTerminator C (JMP_1 b) = true;
  term_cmov p r cur c k : isTerminator C (cmovOf p r cur c k) = false;
  term_phi i : isPHI i = true -> isTerminator C i = false;
  term_ops i ops : isTerminator C (withOps ops i) = isTerminator C i;
  cond_target i b : getCondFromBranch C (setBranchTarget b i) = getCondFromBranch C i;
}.

(** The registers an instruction defines. *)
Definition defsOf (i : MInstr) : list reg := getReg <$> filter (fun o => isReg o && isDef o = true) (mi_ops i).

Lemma elem_of_defsOf r i : r ∈ defsOf i <-> exists o, o ∈ mi_ops i /\ isReg o = true /\ isDef o = true /\ getReg o = r.
Proof.
  unfold defsOf. rewrite list_elem_of_fmap. setoid_rewrite list_elem_of_filter. setoid_rewrite andb_true_iff. naive_solver.
Qed.

Lemma defsOf_setBranchTarget b i r : r ∈ defsOf (setBranchTarget b i) -> r ∈ defsOf i.
Proof.
  rewrite !elem_of_defsOf. intros (o & Ho & Hr & Hd & <-). unfold setBranchTarget in Ho. simpl in Ho.
  destruct (mi_ops i) as [|o' l]; simpl in Ho; [by apply elem_of_nil in Ho|].
  apply elem_of_cons in Ho as [->|Ho]; [done|]. exists o. split; [by right|done].
Qed.

Lemma elem_of_unpair o l : o ∈ unpair l <-> exists p, p ∈ l /\ (o = p.1 \/ o = p.2).
Proof.
  induction l as [|[v b] l IH]; simpl; [set_solver|]. rewrite !elem_of_cons, IH. split.
  - intros [->|[->|(p & Hp & Ho)]]; [exists (v, b)|exists (v, b)|exists p]; rewrite elem_of_cons; simpl; auto.
  - intros (p & Hp & Ho). apply elem_of_cons in Hp as [->|Hp]; [simpl in Ho; tauto|]. right. right. eauto.
Qed.

Lemma elem_of_phiPairs p l : p ∈ phiPairs l -> p.1 ∈ l /\ p.2 ∈ l.
Proof.
  assert (forall n l, (length l <= n)%nat -> p ∈ phiPairs l -> p.1 ∈ l /\ p.2 ∈ l) as H; [|by eapply H].
  clear l. induction n as [|n IH]; intros [|v [|b l]]; simpl; try (intros; set_solver || lia).
  intros Hl. rewrite elem_of_cons. intros [->|Hp]; simpl; [set_solver|].
  destruct (IH l) as [? ?]; [lia|done|]. set_solver.
Qed.

(** A change of a PHI's entries that adds no value it did not have adds no definition. *)
Definition entriesFrom (f : list (MOperand * MOperand) -> list (MOperand * MOperand)) : Prop :=
  forall l p o, p ∈ f l -> o = p.1 \/ o = p.2 -> isReg o = true -> exists q, q ∈ l /\ (o = q.1 \/ o = q.2).

Lemma defsOf_phiOps f i r : entriesFrom f -> r ∈ defsOf (phiOps f i) -> r ∈ defsOf i.
Proof.
  intros Hf. rewrite !elem_of_defsOf. intros (o & Ho & Hr & Hd & <-). exists o. split; [|done].
  unfold phiOps in Ho. destruct (mi_ops i) as [|d l] eqn:E; [by rewrite E in Ho|]. simpl in Ho.
  apply elem_of_cons in Ho as [->|Ho]; [left|]. right.
  apply elem_of_unpair in Ho as (p & Hp & Ho). destruct (Hf _ _ _ Hp Ho Hr) as (q & Hq & Ho').
  apply elem_of_phiPairs in Hq as [? ?]. destruct Ho' as [-> | ->]; done.
Qed.

Lemma replaceEntry_from b n : entriesFrom (replaceEntry b n).
Proof.
  intros l p o. induction l as [|[v m] l IH]; simpl; [by intros ?%elem_of_nil|]. case_decide.
  - rewrite elem_of_cons. intros [->|Hp] Ho Hr; simpl in *.
    + destruct Ho as [-> | ->]; [exists (v, m); rewrite elem_of_cons; auto|]. done.
    + exists p. rewrite elem_of_cons. auto.
  - rewrite elem_of_cons. intros [->|Hp] Ho Hr.
    + exists (v, m). rewrite elem_of_cons. auto.
    + destruct (IH Hp Ho Hr) as (q & Hq & ?). exists q. rewrite elem_of_cons. auto.
Qed.

Lemma splitEntry_from b n c : entriesFrom (splitEntry b n c).
Proof.
  intros l p o. unfold splitEntry. destruct (list_find _ l) as [[k [v m]]|] eqn:E; [|eauto].
  destruct (c =? 1)%Z; [apply replaceEntry_from|]. rewrite elem_of_app, list_elem_of_singleton.
  intros [Hp| ->] Ho Hr; [eauto|]. apply list_find_Some in E as (Hl & _ & _). simpl in Ho.
  destruct Ho as [-> | ->]; [|done]. exists (v, m). split; [by eapply list_elem_of_lookup_2|auto].
Qed.

Lemma firstEntries_from P : entriesFrom (firstEntries P).
Proof.
  intros l. revert P. induction l as [|[v m] l IH]; intros P p o; simpl; [by intros ?%elem_of_nil|].
  assert (forall Q, p ∈ firstEntries Q l -> o = p.1 \/ o = p.2 -> isReg o = true ->
    exists q, q ∈ (v, m) :: l /\ (o = q.1 \/ o = q.2)) as H.
  { intros Q Hp Ho Hr. destruct (IH Q _ _ Hp Ho Hr) as (q & Hq & ?). exists q. rewrite elem_of_cons. auto. }
  case_decide; [apply H|]. rewrite elem_of_cons. intros [->|Hp]; [|by apply (H _ Hp)].
  intros Ho _. exists (v, m). rewrite elem_of_cons. auto.
Qed.

(** ** What every operation keeps *)
Record structured (s : FState) : Prop := {
  st_layout : NoDup (layout s);
  st_dom b : b ∈ dom (blocks s) <-> b ∈ layout s;
  st_block b : b ∈ layout s -> (b < nextBlock s)%positive;
  st_instrs b : b ∈ layout s -> NoDup (instrs (block b s));
  st_disjoint b1 b2 x : b1 ∈ layout s -> b2 ∈ layout s -> x ∈ instrs (block b1 s) -> x ∈ instrs (block b2 s) -> b1 = b2;
  st_code b x : b ∈ layout s -> x ∈ instrs (block b s) -> x ∈ dom (f_code s);
  st_instr x : x ∈ dom (f_code s) -> (x < f_nextInstr s)%positive;
  st_regs x i k : f_code s !! x = Some i -> Virt k ∈ defsOf i -> (k < f_nextReg s)%positive;
}.

Definition keeps {A} (m : FM A) : Prop := forall s, structured s ->
  match m s with inl _ => True | inr (_, s') => structured s' end.

Lemma fkeeps_bind {A B} (m : FM A) (f : A -> FM B) : keeps m -> (forall a, keeps (f a)) -> keeps (m ≫= f).
Proof.
  intros Hm Hf s Hs. unfold mbind, FM_bind. specialize (Hm s Hs). destruct (m s) as [e|[a s']]; [done|].
  exact (Hf a s' Hm).
Qed.

Lemma fkeeps_ret {A} (a : A) : keeps (mret a).
Proof. intros s Hs. done. Qed.
Lemma keeps_get {A} (f : FState -> A) : keeps (fget f).
Proof. intros s Hs. done. Qed.
Lemma keeps_fail {A} e : keeps (fail (A := A) e).
Proof. intros s Hs. done. Qed.
Lemma keeps_assert b : keeps (assert b).
Proof. intros s Hs. by destruct b. Qed.
Lemma keeps_ffor {A} (l : list A) f : (forall x, keeps (f x)) -> keeps (ffor l f).
Proof. intros Hf. induction l as [|x l IH]; [apply fkeeps_ret|]. apply fkeeps_bind; auto. Qed.

Lemma keeps_wp {A} (m : FM A) s Q : keeps m -> structured s -> wp m s Q -> wp m s (fun a s' => Q a s' /\ structured s').
Proof. intros Hk Hs. specialize (Hk s Hs). unfold wp. destruct (m s) as [e|[a s']]; auto. Qed.

Lemma structured_in s b : structured s -> b ∈ layout s -> b ∈ dom (blocks s).
Proof. intros Hs Hb. by apply st_dom. Qed.
#[export] Hint Resolve structured_in : msv.

Lemma NoDup_insertBefore (x : positive) pt l : NoDup l -> x ∉ l -> NoDup (insertBefore x pt l).
Proof. intros. by apply around_NoDup_insert. Qed.

(** The state after [BuildIn]. *)
Definition afterBuild (b : positive) (pt : option positive) (i : MInstr) (s : FState) : FState :=
  FS (<[f_nextInstr s := i]> (f_code s)) (layout s)
    (alter (fun B => set_instrs (insertBefore (f_nextInstr s) pt (instrs B)) B) b (blocks s))
    (f_regClass s) (Pos.succ (f_nextInstr s)) (f_nextReg s) (nextBlock s) (available s).

Lemma wp_BuildIn b pt i s Q : Q (f_nextInstr s) (afterBuild b pt i s) -> wp (BuildIn b pt i) s Q.
Proof. done. Qed.

Lemma instrs_afterBuild b pt i s x : structured s -> x ∈ layout s ->
  instrs (block x (afterBuild b pt i s)) =
  if decide (x = b) then insertBefore (f_nextInstr s) pt (instrs (block x s)) else instrs (block x s).
Proof.
  intros Hs Hx. unfold afterBuild, block. simpl. rewrite block_alter by (left; by apply st_dom). by case_decide.
Qed.

Lemma fresh_instr s : structured s -> f_nextInstr s ∉ dom (f_code s).
Proof. intros Hs Hx%(st_instr s Hs). lia. Qed.

Lemma structured_afterBuild b pt i s : structured s -> (forall k, Virt k ∈ defsOf i -> (k < f_nextReg s)%positive) ->
  structured (afterBuild b pt i s).
Proof.
  intros Hs Hi. assert (f_nextInstr s ∉ dom (f_code s)) as Hfresh by by apply fresh_instr.
  assert (forall x y, x ∈ layout s -> y ∈ instrs (block x s) -> y <> f_nextInstr s) as Hold
    by (intros x y Hx Hy ->; apply Hfresh; by eapply st_code).
  assert (forall x, x ∈ layout s -> instrs (block x (afterBuild b pt i s)) =
    if decide (x = b) then insertBefore (f_nextInstr s) pt (instrs (block x s)) else instrs (block x s)) as Hb
    by (intros; by apply instrs_afterBuild).
  unfold afterBuild in *.
  constructor; simpl.
  - apply Hs.
  - intros x. rewrite dom_alter_blocks. apply Hs.
  - apply Hs.
  - intros x Hx. rewrite Hb by done. case_decide; [|by apply Hs]. apply NoDup_insertBefore; [by apply Hs|].
    intros Hin. by eapply Hold.
  - intros b1 b2 x H1 H2. rewrite !Hb by done. repeat case_decide; subst; rewrite ?elem_of_insertBefore; auto.
    + intros [->|?] ?; [by destruct (Hold b2 (f_nextInstr s))|]. by eapply (st_disjoint s Hs).
    + intros ? [->|?]; [by destruct (Hold b1 (f_nextInstr s))|]. by eapply (st_disjoint s Hs).
    + intros. by eapply (st_disjoint s Hs).
  - intros x y Hx. rewrite Hb by done. rewrite dom_insert. case_decide; rewrite ?elem_of_insertBefore.
    + intros [->|?]; [set_solver|]. apply elem_of_union_r. by eapply (st_code s Hs).
    + intros ?. apply elem_of_union_r. by eapply (st_code s Hs).
  - intros x. rewrite dom_insert, elem_of_union, elem_of_singleton. intros [->|?%(st_instr s Hs)]; lia.
  - intros x j k. destruct (decide (x = f_nextInstr s)) as [->|Hx].
    + rewrite lookup_insert_eq. intros [= <-] Hk. by apply Hi.
    + rewrite lookup_insert_ne by done. apply Hs.
Qed.


Lemma keeps_BuildIn b pt i : (forall k, Virt k ∉ defsOf i) -> keeps (BuildIn b pt i).
Proof. intros Hi s Hs. apply structured_afterBuild; [done|]. intros k Hk. by apply Hi in Hk. Qed.

Lemma fkeeps_updateInstr mi f : (forall i r, r ∈ defsOf (f i) -> r ∈ defsOf i) -> keeps (f_updateInstr mi f).
Proof.
  intros Hf s Hs. simpl. destruct Hs as [? ? ? ? ? Hc ? Hr]. constructor; simpl; auto.
  - intros b x Hb Hx. rewrite dom_alter_L. by eapply Hc.
  - intros x. rewrite dom_alter_L. auto.
  - intros x i k. destruct (decide (x = mi)) as [->|Hx].
    + rewrite lookup_alter_eq. intros (j & Hj & ->)%fmap_Some Hk. by apply Hf, (Hr mi j) in Hk.
    + rewrite lookup_alter_ne by done. apply Hr.
Qed.

Lemma keeps_updateBlock b f : (forall B, instrs (f B) = instrs B) -> keeps (updateBlock b f).
Proof.
  intros Hf s Hs. simpl.
  assert (forall x, x ∈ layout s -> instrs (default emptyBlock (alter f b (blocks s) !! x)) = instrs (block x s)) as Hb.
  { intros x Hx. rewrite block_alter by (left; by apply st_dom). unfold block. case_decide; [apply Hf|done]. }
  constructor; simpl; unfold block in *; simpl; try apply Hs.
  - intros x. rewrite dom_alter_blocks. apply Hs.
  - intros x Hx. rewrite Hb by done. by apply Hs.
  - intros b1 b2 x H1 H2. rewrite !Hb by done. intros. by eapply (st_disjoint s Hs).
  - intros x y Hx. rewrite Hb by done. intros. by eapply (st_code s Hs).
Qed.

Lemma keeps_createBlockAfter b : keeps (createBlockAfter b).
Proof.
  intros s Hs. unfold createBlockAfter. cbn beta iota zeta.
  assert (nextBlock s ∉ layout s) as Hn by (intros Hx%(st_block s Hs); lia).
  assert (forall x, default emptyBlock (<[nextBlock s := emptyBlock]> (blocks s) !! x) =
    if decide (x = nextBlock s) then emptyBlock else block x s) as Hl.
  { intros x. case_decide as E; [subst; by rewrite lookup_insert_eq|by rewrite lookup_insert_ne by done]. }
  constructor; simpl; unfold block in *; simpl; try apply Hs.
  - apply NoDup_insertAfter; [apply Hs|done].
  - intros x. rewrite dom_insert, elem_of_union, elem_of_singleton, elem_of_insertAfter, (st_dom s Hs). naive_solver.
  - intros x. rewrite elem_of_insertAfter. intros [?%(st_block s Hs)| ->]; lia.
  - intros x. rewrite elem_of_insertAfter, Hl. intros Hx. case_decide; [constructor|]. apply Hs. naive_solver.
  - intros b1 b2 x. rewrite !elem_of_insertAfter, !Hl. intros H1 H2.
    repeat case_decide; subst; simpl; try (intros; by set_solver). intros. eapply (st_disjoint s Hs); naive_solver.
  - intros x y. rewrite elem_of_insertAfter, Hl. intros H1. case_decide; simpl; [by intros ?%elem_of_nil|].
    intros. eapply (st_code s Hs); naive_solver.
Qed.

(** ** Growing blocks *)

(** Only instructions were added, to the blocks of [P]. *)
Record extends (P : positive -> Prop) (s s' : FState) : Prop := {
  ex_layout : layout s' = layout s;
  ex_nextBlock : nextBlock s' = nextBlock s;
  ex_available : available s' = available s;
  ex_dom : dom (blocks s') = dom (blocks s);
  ex_block x : ~ P x -> block x s' = block x s;
  ex_attr x : set_instrs [] (block x s') = set_instrs [] (block x s);
  ex_code x i : f_code s !! x = Some i -> f_code s' !! x = Some i;
  ex_nextInstr : (f_nextInstr s <= f_nextInstr s')%positive;
  ex_nextReg : (f_nextReg s <= f_nextReg s')%positive;
}.

Lemma extends_refl P s : extends P s s.
Proof. by constructor. Qed.

Lemma extends_trans P s1 s2 s3 : extends P s1 s2 -> extends P s2 s3 -> extends P s1 s3.
Proof.
  intros H1 H2. constructor.
  - by rewrite (ex_layout _ _ _ H2), (ex_layout _ _ _ H1).
  - by rewrite (ex_nextBlock _ _ _ H2), (ex_nextBlock _ _ _ H1).
  - by rewrite (ex_available _ _ _ H2), (ex_available _ _ _ H1).
  - by rewrite (ex_dom _ _ _ H2), (ex_dom _ _ _ H1).
  - intros x Hx. by rewrite (ex_block _ _ _ H2), (ex_block _ _ _ H1).
  - intros x. by rewrite (ex_attr _ _ _ H2), (ex_attr _ _ _ H1).
  - intros x i Hx. by apply (ex_code _ _ _ H2), (ex_code _ _ _ H1).
  - pose proof (ex_nextInstr _ _ _ H1). pose proof (ex_nextInstr _ _ _ H2). lia.
  - pose proof (ex_nextReg _ _ _ H1). pose proof (ex_nextReg _ _ _ H2). lia.
Qed.

Lemma extends_mono (P Q : positive -> Prop) s s' : (forall x, P x -> Q x) -> extends P s s' -> extends Q s s'.
Proof. intros HPQ []. constructor; auto. Qed.

Lemma extends_build b pt i s : structured s -> b ∈ layout s -> extends (fun x => x = b) s (afterBuild b pt i s).
Proof.
  intros Hs Hb. constructor; unfold afterBuild; simpl; try done; try lia.
  - apply dom_alter_blocks.
  - intros x Hx. unfold block. simpl. by rewrite lookup_alter_ne by done.
  - intros x. unfold block. simpl. destruct (decide (x = b)) as [->|Hx]; [|by rewrite lookup_alter_ne by done].
    rewrite block_alter by (left; by apply st_dom). by rewrite decide_True.
  - intros x j Hx. rewrite lookup_insert_ne; [done|]. intros <-. apply (fresh_instr s Hs). by apply elem_of_dom.
Qed.

(** A new register. *)
Definition afterReg (rc : RegClass) (s : FState) : FState :=
  FS (f_code s) (layout s) (blocks s) (<[Virt (f_nextReg s) := rc]> (f_regClass s)) (f_nextInstr s)
    (Pos.succ (f_nextReg s)) (nextBlock s) (available s).

Lemma structured_afterReg rc s : structured s -> structured (afterReg rc s).
Proof.
  intros []. constructor; simpl; auto. intros x i k Hx Hk. specialize (st_regs0 x i k Hx Hk). lia.
Qed.

Lemma extends_afterReg P rc s : extends P s (afterReg rc s).
Proof. constructor; simpl; try done; lia. Qed.

(** ** The sequence of cmovs *)
Section Ops.
Context (C : CfgTarget) {HC : TargetLaws C}.
Variable InitialReg PoisonReg : reg.

(** A register older than the fresh ones. *)
Definition oldReg (r : reg) (s : FState) : Prop := forall k, r = Virt k -> (k < f_nextReg s)%positive.

Fixpoint cmovChain (m : gmap positive MInstr) (xs : list positive) (cur : reg) (conds : list Z) (rs : list reg) : Prop :=
  match xs, conds, rs with
  | [], [], [] => True
  | x :: xs, c :: conds, r :: rs => (exists k, m !! x = Some (cmovOf PoisonReg r cur c k)) /\ cmovChain m xs r conds rs
  | _, _, _ => False
  end.

Lemma cmovChain_mono m m' xs cur conds rs :
  (forall x i, x ∈ xs -> isPHI i = false -> isTerminator C i = false -> m !! x = Some i -> m' !! x = Some i) ->
  cmovChain m xs cur conds rs -> cmovChain m' xs cur conds rs.
Proof.
  revert cur conds rs. induction xs as [|x xs IH]; intros cur [|c conds] [|r rs] Hm; simpl; try done.
  intros [[k Hx] Hc]. split.
  - exists k. apply Hm; [left|done|apply term_cmov|done].
  - apply IH; [|done]. intros y i Hy. apply Hm. by right.
Qed.

Lemma cmovChain_elem m xs cur conds rs x : cmovChain m xs cur conds rs -> x ∈ xs ->
  exists r p c k, m !! x = Some (cmovOf PoisonReg r p c k).
Proof.
  revert cur conds rs. induction xs as [|y xs IH]; intros cur [|c conds] [|r rs]; simpl; try done; [set_solver|].
  intros [[k Hx] Hc]. rewrite elem_of_cons. intros [->|Hin]; [eauto|by eapply IH].
Qed.

(** Fresh registers, in the order they were made. *)
Definition freshRegs (s s' : FState) (rs : list reg) : Prop :=
  NoDup rs /\ forall r, r ∈ rs -> exists k, r = Virt k /\ (f_nextReg s <= k < f_nextReg s')%positive.

Lemma insertCMovs_spec chk l0 live back conds cur pre s :
  structured s -> chk ∈ layout s -> instrs (block chk s) = pre ++ l0 -> oldReg cur s -> oldReg InitialReg s ->
  wp (insertCMovs InitialReg PoisonReg chk (head l0) live back cur conds) s (fun '(CMovs, r) s' =>
    structured s' /\ extends (fun x => x = chk) s s' /\
    exists xs rs, instrs (block chk s') = pre ++ xs ++ l0 /\ cmovChain (f_code s') xs cur conds rs /\
      r = default cur (last rs) /\ freshRegs s s' rs /\ (forall x, x ∈ xs -> x ∉ dom (f_code s)) /\
      CMovs = if decide (cur = InitialReg) then take 1 xs else []).
Proof.
  revert cur pre s. induction conds as [|c conds IH]; intros cur pre s Hs Hchk Hl Hcur Hinit; simpl.
  - apply fwp_ret. split; [done|]. split; [apply extends_refl|]. exists [], [].
    repeat split; simpl; try done; try constructor; try (intros ? ?%elem_of_nil; done). by case_decide.
  - wp_step. change (wp (f_createVirtualRegister GR64_NOSP) s ?Q) with (Q (Virt (f_nextReg s)) (afterReg GR64_NOSP s)).
    cbn beta. set (s1 := afterReg GR64_NOSP s). assert (structured s1) as Hs1 by by apply structured_afterReg.
    set (r := Virt (f_nextReg s)). wp_step. apply wp_BuildIn. set (i := cmovOf _ _ _ _ _).
    set (s2 := afterBuild chk (head l0) i s1).
    assert (structured s2) as Hs2.
    { apply structured_afterBuild; [done|]. intros k. unfold i, cmovOf, defsOf. simpl.
      destruct (_ && _); simpl; rewrite list_elem_of_singleton; intros [= ->]; simpl; lia. }
    assert (extends (fun x => x = chk) s s2) as He.
    { eapply extends_trans; [apply extends_afterReg|by apply extends_build]. }
    assert (instrs (block chk s2) = (pre ++ [f_nextInstr s]) ++ l0) as Hl2.
    { unfold s2. rewrite instrs_afterBuild, decide_True by done. change (block chk s1) with (block chk s). rewrite Hl.
      pose proof (st_instrs s Hs chk Hchk) as Hd. rewrite Hl in Hd. apply NoDup_app in Hd as (_ & Hd & _).
      destruct l0 as [|y l0]; simpl.
      - rewrite insertBefore_end. by rewrite !app_nil_r.
      - rewrite insertBefore_at; [by rewrite <- (assoc_L (++))|]. intros Hy. apply (Hd y Hy). left. }
    wp_step. eapply fwp_mono; [apply (IH r (pre ++ [f_nextInstr s]) s2)|].
    + done.
    + done.
    + done.
    + intros k [= <-]. simpl. lia.
    + intros k Hk. apply Hinit in Hk. simpl. lia.
    + intros [CMovs r'] s3 (Hs3 & He3 & xs & rs & Hi3 & Hch & -> & [Hnd Hfr] & Hx & ->). apply fwp_ret.
      split; [done|]. split; [by eapply extends_trans|]. exists (f_nextInstr s :: xs), (r :: rs).
      assert (r <> InitialReg) as Hne by (intros Heq; specialize (Hinit _ (eq_sym Heq)); lia).
      split_and!.
      * rewrite Hi3. by rewrite <- !(assoc_L (++)).
      * split; [|done]. eexists. apply (ex_code _ _ _ He3). simpl. by rewrite lookup_insert_eq.
      * rewrite last_cons. by destruct (last rs).
      * split.
        -- constructor; [|done]. intros (k & [= <-] & Hk)%Hfr. simpl in Hk. lia.
        -- intros q. rewrite elem_of_cons. pose proof (ex_nextReg _ _ _ He3) as Hn. simpl in Hn.
           intros [->|(k & -> & Hk)%Hfr]; eexists; (split; [done|]); simpl in *; lia.
      * intros x. rewrite elem_of_cons. intros [->|Hin]; [by apply (fresh_instr s Hs)|].
        intros Hd. apply (Hx x Hin). simpl. rewrite dom_insert. by apply elem_of_union_r.
      * rewrite (decide_False (P := r = InitialReg)) by done. by case_decide.
Qed.

(** ** Redirecting a branch *)

(** A jump that was added, in the code [m]. *)
Definition addedJump (s : FState) (m : gmap positive MInstr) (x t : positive) : Prop :=
  x ∉ dom (f_code s) /\ m !! x = Some (JMP_1 t).

Definition retarget (Br : option positive) (n : positive) (s : FState) : FState :=
  match Br with Some br => with_code (alter (setBranchTarget n) br (f_code s)) s | None => s end.

Lemma structured_retarget Br n s : structured s -> structured (retarget Br n s).
Proof.
  intros Hs. destruct Br as [br|]; [|done].
  exact (fkeeps_updateInstr br _ (fun i r => defsOf_setBranchTarget n i r) s Hs).
Qed.

Lemma dom_retarget Br n s : dom (f_code (retarget Br n s)) = dom (f_code s).
Proof. destruct Br; [apply dom_alter_L|done]. Qed.

Lemma no_defs_JMP t k : Virt k ∉ defsOf (JMP_1 t).
Proof. unfold defsOf. simpl. apply not_elem_of_nil. Qed.

Lemma structured_addJump b t s : structured s -> structured (afterBuild b None (JMP_1 t) s).
Proof. intros Hs. apply structured_afterBuild; [done|]. intros k Hk. by apply no_defs_JMP in Hk. Qed.

Lemma instrs_addJump b t s : structured s -> b ∈ layout s ->
  instrs (block b (afterBuild b None (JMP_1 t) s)) = instrs (block b s) ++ [f_nextInstr s].
Proof. intros. by rewrite instrs_afterBuild, decide_True, insertBefore_end by done. Qed.

(** What a redirection needs of the branch, of [UncondBr] and of the layout. *)
Definition redirectable (b n Succ : positive) (Br U : option positive) (s : FState) : Prop :=
  match Br with
  | Some br => br ∈ dom (f_code s) /\ branchTarget (f_instr br s) = Some Succ /\
      (U = None -> exists old, layoutNext n s = Some old /\ old ∈ successors (block b s))
  | None => U = None /\ layoutNext n s = Some Succ
  end.

(** What it adds to the block and to the new one. *)
Definition redirected (b n Succ : positive) (Br U U' : option positive) (s : FState) (m : gmap positive MInstr)
    (us vs : list positive) : Prop :=
  ((us = [] /\ U' = U /\ (Br = None \/ is_Some U)) \/
   (exists u old, us = [u] /\ U' = Some u /\ U = None /\ is_Some Br /\ layoutNext n s = Some old /\ addedJump s m u old)) /\
  ((vs = [] /\ layoutNext n s = Some Succ) \/ (exists v, vs = [v] /\ addedJump s m v Succ /\ v ∉ us)).

(** The jump of the new block. *)
Lemma newJump_spec n Succ (falls : bool) s (Q : unit -> FState -> Prop) :
  structured s -> n ∈ layout s ->
  (falls = true -> Q tt s) ->
  (falls = false -> Q tt (afterBuild n None (JMP_1 Succ) s)) ->
  wp (if falls then mret tt else BuildIn n None (JMP_1 Succ) ;; mret tt) s Q.
Proof. intros Hs Hn Ht Hf. destruct falls; [by apply fwp_ret, Ht|]. wp_step. apply wp_BuildIn, fwp_ret. by apply Hf. Qed.

Lemma redirect_spec b n Succ Br U s :
  structured s -> b ∈ layout s -> n ∈ layout s -> n <> b -> instrs (block n s) = [] ->
  redirectable b n Succ Br U s ->
  wp (redirect b n Succ Br U) s (fun U' s' =>
    structured s' /\ extends (fun x => x = b \/ x = n) (retarget Br n s) s' /\
    exists us vs, instrs (block b s') = instrs (block b s) ++ us /\ instrs (block n s') = vs /\
      redirected b n Succ Br U U' s (f_code s') us vs).
Proof.
  intros Hs Hb Hn Hnb Hempty Hok. unfold redirect. destruct Br as [br|]; simpl in Hok.
  - destruct Hok as (Hbr & Ht & Hold). wp_step. wp_step. wp_step. wp_step; [by apply bool_decide_eq_true|].
    wp_step. change (wp (f_updateInstr br _) s ?Q) with (Q tt (retarget (Some br) n s)). cbn beta.
    set (s1 := retarget (Some br) n s). assert (structured s1) as Hs1 by by apply structured_retarget.
    assert (dom (f_code s1) = dom (f_code s)) as Hd by apply dom_retarget.
    wp_step. destruct U as [u|].
    + apply fwp_ret. wp_step. wp_step. wp_step. apply newJump_spec; [done|done|..].
      * intros Hf%bool_decide_eq_true. apply fwp_ret. split; [done|]. split; [apply extends_refl|].
        exists [], []. rewrite app_nil_r. split_and!; [done|done|]. split; left; split_and!; eauto.
      * intros _. apply fwp_ret. split; [by apply structured_addJump|].
        split; [eapply extends_mono; [|by apply extends_build]; simpl; auto|].
        exists [], [f_nextInstr s1]. rewrite app_nil_r. split_and!.
        -- by rewrite instrs_afterBuild, decide_False by done.
        -- rewrite instrs_addJump by done. change (block n s1) with (block n s). by rewrite Hempty.
        -- split; [left; split_and!; eauto|]. right. eexists. split; [done|]. split; [|by apply not_elem_of_nil].
           split; [rewrite <- Hd; by apply fresh_instr|]. simpl. by rewrite lookup_insert_eq.
    + destruct Hold as (old & Hnext & Hsucc); [done|]. wp_step. wp_step.
      change (layoutNext n s1) with (layoutNext n s). rewrite Hnext. wp_step. wp_step. wp_step.
      wp_step; [by apply bool_decide_eq_true|]. wp_step. apply wp_BuildIn. apply fwp_ret.
      set (s2 := afterBuild b None (JMP_1 old) s1). assert (structured s2) as Hs2 by by apply structured_addJump.
      assert (extends (fun x => x = b \/ x = n) s1 s2) as He
        by (eapply extends_mono; [|by apply extends_build]; simpl; auto).
      assert (f_nextInstr s1 ∉ dom (f_code s)) as Hfr by (rewrite <- Hd; by apply fresh_instr).
      wp_step. wp_step. wp_step. apply newJump_spec; [done|done|..].
      * intros Hf%bool_decide_eq_true. apply fwp_ret. split; [done|]. split; [done|].
        exists [f_nextInstr s1], []. split_and!.
        -- unfold s2. by rewrite instrs_addJump by done.
        -- unfold s2. rewrite instrs_afterBuild, decide_False by done. exact Hempty.
        -- split; [|left; split; [done|exact Hf]]. right. exists (f_nextInstr s1), old. split_and!; [done|done|done|by eexists|done|].
           split; [done|]. apply lookup_insert_eq.
      * intros _. apply fwp_ret. split; [by apply structured_addJump|].
        split; [eapply extends_trans; [exact He|]; eapply extends_mono; [|by apply extends_build]; simpl; auto|].
        exists [f_nextInstr s1], [f_nextInstr s2]. split_and!.
        -- rewrite instrs_afterBuild, decide_False by done. unfold s2. by rewrite instrs_addJump by done.
        -- rewrite instrs_addJump by done. unfold s2. rewrite instrs_afterBuild, decide_False by done.
           change (block n s1) with (block n s). by rewrite Hempty.
        -- split.
           ++ right. exists (f_nextInstr s1), old. split_and!; [done|done|done|by eexists|done|]. split; [done|].
              change (f_code (afterBuild n None (JMP_1 Succ) s2) !! f_nextInstr s1 = Some (JMP_1 old)).
              eapply ex_code; [by apply (extends_build n None _ s2)|]. simpl. by rewrite lookup_insert_eq.
           ++ right. eexists. split; [done|]. split; [|rewrite list_elem_of_singleton; simpl; lia].
              split; [|simpl; by rewrite lookup_insert_eq]. intros Hx. apply (fresh_instr s2 Hs2).
              unfold s2. simpl. rewrite dom_insert. apply elem_of_union_r. by rewrite dom_alter_L.
  - destruct Hok as (-> & Hnext). wp_step. wp_step; [done|]. wp_step. wp_step. wp_step.
    wp_step; [by apply bool_decide_eq_true|]. apply fwp_ret. split; [done|]. split; [apply extends_refl|].
    exists [], []. rewrite app_nil_r. split_and!; [done|done|]. split; left; split_and!; auto.
Qed.

(** ** Splitting an edge *)

(** An instruction that was there: unless it is the redirected branch or a PHI it is the same. *)
Definition changed (Br : option positive) (n x : positive) (i i' : MInstr) : Prop :=
  i' = i \/ (Br = Some x /\ i' = setBranchTarget n i) \/ (isPHI i = true /\ exists f, entriesFrom f /\ i' = phiOps f i).

Lemma updateInstrs_spec l f s :
  NoDup l ->
  wp (ffor l (fun MI => f_updateInstr MI f)) s (fun _ s' => exists m, s' = with_code m s /\
    forall x, m !! x = if decide (x ∈ l) then f <$> f_code s !! x else f_code s !! x).
Proof using Type.
  clear C HC InitialReg PoisonReg.
  intros Hd. eapply fwp_mono; [apply (wp_ffor l _ (fun l1 s' => exists m, s' = with_code m s /\
    forall x, m !! x = if decide (x ∈ l1) then f <$> f_code s !! x else f_code s !! x))|auto].
  - exists (f_code s). split; [by destruct s|]. intros x. rewrite decide_False; [done|apply not_elem_of_nil].
  - intros l1 x l2 s1 Hl (m & -> & Hm). exists (alter f x m). split; [done|]. intros y.
    assert (x ∉ l1) as Hx.
    { rewrite Hl in Hd. apply NoDup_app in Hd as (_ & Hd & _). intros Hx. apply (Hd x Hx). left. }
    destruct (decide (y = x)) as [->|Hy].
    + rewrite lookup_alter_eq, Hm, decide_False, decide_True by set_solver. done.
    + rewrite lookup_alter_ne, Hm by done.
      destruct (decide (y ∈ l1)); [rewrite decide_True by set_solver|rewrite decide_False by set_solver]; done.
Qed.

Lemma addLiveIns_spec n l s :
  n ∈ dom (blocks s) ->
  wp (ffor l (addLiveIn n)) s (fun _ s' => exists m, s' = with_blocks m s /\ dom m = dom (blocks s) /\
    forall x, default emptyBlock (m !! x) = if decide (x = n) then set_liveins (liveins (block n s) ++ l) (block n s) else block x s).
Proof.
  intros Hn. eapply fwp_mono; [apply (wp_ffor l _ (fun l1 s' => exists m, s' = with_blocks m s /\ dom m = dom (blocks s) /\
    forall x, default emptyBlock (m !! x) = if decide (x = n) then set_liveins (liveins (block n s) ++ l1) (block n s) else block x s))|auto].
  - exists (blocks s). split; [by destruct s|]. split; [done|]. intros x. case_decide; [subst|done].
    rewrite app_nil_r. unfold block. by destruct (default _ _).
  - intros l1 r l2 s1 _ (m & -> & Hd & Hm). unfold addLiveIn. eexists. split; [done|].
    split; [simpl; rewrite dom_alter_blocks; done|]. intros x.
    simpl. rewrite block_alter by (destruct (decide (x = n)); [left; subst; by rewrite Hd|by right]).
    rewrite !Hm. case_decide as E; [|done]. unfold set_liveins. simpl. by rewrite <- (assoc_L (++)).
Qed.

Lemma isPHI_terminator i : isTerminator C i = true -> isPHI i = false.
Proof. intros Ht. destruct (isPHI i) eqn:E; [|done]. by rewrite (term_phi i E) in Ht. Qed.

Lemma isPHI_withOps ops i : isPHI (withOps ops i) = isPHI i.
Proof. done. Qed.

Lemma isPHI_phiOps f i : isPHI (phiOps f i) = isPHI i.
Proof. unfold phiOps. by destruct (mi_ops i). Qed.

Lemma isTerminator_phiOps f i : isTerminator C (phiOps f i) = isTerminator C i.
Proof. unfold phiOps. destruct (mi_ops i); [done|apply term_ops]. Qed.

Lemma isTerminator_retarget n i : isTerminator C (setBranchTarget n i) = isTerminator C i.
Proof. apply term_ops. Qed.

Lemma changed_defs Br n x i i' r : changed Br n x i i' -> r ∈ defsOf i' -> r ∈ defsOf i.
Proof.
  intros [->|[[_ ->]|(_ & f & Hf & ->)]]; [done|apply defsOf_setBranchTarget|by apply defsOf_phiOps].
Qed.

Lemma changed_terminator Br n x i i' : changed Br n x i i' -> isTerminator C i' = isTerminator C i.
Proof.
  intros [->|[[_ ->]|(_ & f & _ & ->)]]; [done|apply isTerminator_retarget|apply isTerminator_phiOps].
Qed.

Lemma changed_isPHI Br n x i i' : changed Br n x i i' -> isPHI i' = isPHI i.
Proof. intros [->|[[_ ->]|(_ & f & _ & ->)]]; [done|done|apply isPHI_phiOps]. Qed.

(** What splitting the edge from [b] to [Succ] does; [n] is the new block. *)
Record edgeSplit (b Succ : positive) (cnt : Z) (Br U : option positive) (s : FState) (n : positive) (U' : option positive)
    (s' : FState) : Prop := {
  sp_n : n = nextBlock s;
  sp_layout : layout s' = insertAfter n b (layout s);
  sp_nextBlock : nextBlock s' = Pos.succ n;
  sp_available : available s' = available s;
  sp_nextInstr : (f_nextInstr s <= f_nextInstr s')%positive;
  sp_nextReg : (f_nextReg s <= f_nextReg s')%positive;
  sp_other x : x ∈ layout s -> x <> b -> block x s' = block x s;
  sp_pad : isEHPad (block b s') = isEHPad (block b s);
  sp_kept t : t ∈ successors (block b s) -> t ∈ successors (block b s') \/ (t = Succ /\ cnt = 1%Z);
  sp_added t : t ∈ successors (block b s') -> t ∈ successors (block b s) \/ t = n;
  sp_new : n ∈ successors (block b s');
  sp_succ : successors (block n s') = [Succ];
  sp_code x i : f_code s !! x = Some i -> exists i', f_code s' !! x = Some i' /\ changed Br n x i i';
  sp_br br i : Br = Some br -> f_code s !! br = Some i -> isPHI i = false -> f_code s' !! br = Some (setBranchTarget n i);
  sp_instrs : exists us vs, instrs (block b s') = instrs (block b s) ++ us /\ instrs (block n s') = vs /\
    ((us = [] /\ U' = U /\ (Br = None \/ is_Some U)) \/
     (exists u old, us = [u] /\ U' = Some u /\ U = None /\ is_Some Br /\ layoutNext b s = Some old /\
        addedJump s (f_code s') u old)) /\
    ((vs = [] /\ layoutNext b s = Some Succ) \/ (exists v, vs = [v] /\ addedJump s (f_code s') v Succ /\ v ∉ us));
}.

(** What splitting needs. *)
Definition splittable (b Succ : positive) (Br U : option positive) (s : FState) : Prop :=
  b ∈ layout s /\ Succ ∈ layout s /\ isEHPad (block Succ s) = false /\ Succ ∈ successors (block b s) /\
  match Br with
  | Some br => br ∈ dom (f_code s) /\ branchTarget (f_instr br s) = Some Succ /\ isTerm C s br = true /\
      (U = None -> exists old, layoutNext b s = Some old /\ old ∈ successors (block b s))
  | None => U = None /\ layoutNext b s = Some Succ
  end.

Lemma keeps_redirect b n Succ Br U : keeps (redirect b n Succ Br U).
Proof.
  unfold redirect. destruct Br as [br|].
  - apply fkeeps_bind; [apply keeps_get|intros i]. apply fkeeps_bind; [apply keeps_assert|intros _].
    apply fkeeps_bind; [apply fkeeps_updateInstr, defsOf_setBranchTarget|intros _].
    apply fkeeps_bind.
    + destruct U; [apply fkeeps_ret|]. apply fkeeps_bind; [apply keeps_get|intros [old|]]; [|apply keeps_fail].
      apply fkeeps_bind; [apply keeps_get|intros q]. apply fkeeps_bind; [apply keeps_assert|intros _].
      apply fkeeps_bind; [apply keeps_BuildIn, no_defs_JMP|intros u; apply fkeeps_ret].
    + intros U'. apply fkeeps_bind; [apply keeps_get|intros q]. apply fkeeps_bind; [|intros _; apply fkeeps_ret].
      destruct q; [apply fkeeps_ret|]. apply fkeeps_bind; [apply keeps_BuildIn, no_defs_JMP|intros _; apply fkeeps_ret].
  - apply fkeeps_bind; [apply keeps_assert|intros _]. apply fkeeps_bind; [apply keeps_get|intros q].
    apply fkeeps_bind; [apply keeps_assert|intros _]. apply fkeeps_ret.
Qed.

Lemma keeps_splitEdge b Succ cnt Br U : keeps (splitEdge b Succ cnt Br U).
Proof.
  unfold splitEdge. apply fkeeps_bind; [apply keeps_get|intros e]. apply fkeeps_bind; [apply keeps_assert|intros _].
  apply fkeeps_bind; [apply keeps_createBlockAfter|intros n]. apply fkeeps_bind; [apply keeps_redirect|intros U'].
  apply fkeeps_bind.
  { destruct (cnt =? 1)%Z; (apply fkeeps_bind; [apply keeps_get|intros l]; apply fkeeps_bind; [apply keeps_assert|intros _];
      by apply keeps_updateBlock). }
  intros _. apply fkeeps_bind; [by apply keeps_updateBlock|intros _]. apply fkeeps_bind; [apply keeps_get|intros l].
  apply fkeeps_bind.
  { apply keeps_ffor. intros x. apply fkeeps_updateInstr. intros i r. apply defsOf_phiOps, splitEntry_from. }
  intros _. apply fkeeps_bind; [apply keeps_get|intros live]. apply fkeeps_bind; [|intros _; apply fkeeps_ret].
  apply keeps_ffor. intros r. by apply keeps_updateBlock.
Qed.

Lemma block_updateBlock b f s x : b ∈ dom (blocks s) ->
  block x (with_blocks (alter f b (blocks s)) s) = if decide (x = b) then f (block b s) else block x s.
Proof.
  intros Hb. unfold block. simpl. rewrite block_alter; [by case_decide; subst|].
  destruct (decide (x = b)); [left; by subst|by right].
Qed.

Lemma wp_updateBlock b f s Q : Q tt (with_blocks (alter f b (blocks s)) s) -> wp (updateBlock b f) s Q.
Proof. done. Qed.

(** The successors of the block and of the new one. *)
Lemma successors_spec b Succ cnt n s :
  structured s -> b ∈ layout s -> n ∈ layout s -> n <> b -> Succ ∈ successors (block b s) -> successors (block n s) = [] ->
  wp ((if (cnt =? 1)%Z then replaceSuccessor b Succ n else splitSuccessor b Succ n) ;; addSuccessor n Succ) s
    (fun _ s' => exists m L, s' = with_blocks m s /\ dom m = dom (blocks s) /\
      (forall x, block x s' = if decide (x = n) then set_successors [Succ] (block n s)
                              else if decide (x = b) then set_successors L (block b s) else block x s) /\
      n ∈ L /\ (forall t, t ∈ successors (block b s) -> t ∈ L \/ (t = Succ /\ cnt = 1%Z)) /\
      (forall t, t ∈ L -> t ∈ successors (block b s) \/ t = n)).
Proof.
  intros Hs Hb Hn Hnb Hsucc Hempty.
  assert (forall L, dom (blocks (with_blocks (alter (set_successors L) b (blocks s)) s)) = dom (blocks s)) as Hd
    by (intros; apply dom_alter_blocks).
  assert (forall f, exists L, L = f (successors (block b s)) /\
    alter (fun B => set_successors (f (successors B)) B) b (blocks s) = alter (set_successors L) b (blocks s)) as HL.
  { intros f. eexists. split; [done|]. apply map_eq. intros x. destruct (decide (x = b)) as [->|Hx].
    - rewrite !lookup_alter_eq. unfold block. by destruct (blocks s !! b).
    - by rewrite !lookup_alter_ne by done. }
  assert (forall L, n ∈ L -> (forall t, t ∈ successors (block b s) -> t ∈ L \/ (t = Succ /\ cnt = 1%Z)) ->
    (forall t, t ∈ L -> t ∈ successors (block b s) \/ t = n) ->
    wp (addSuccessor n Succ) (with_blocks (alter (set_successors L) b (blocks s)) s) (fun _ s' =>
      exists m L, s' = with_blocks m s /\ dom m = dom (blocks s) /\
      (forall x, block x s' = if decide (x = n) then set_successors [Succ] (block n s)
                              else if decide (x = b) then set_successors L (block b s) else block x s) /\
      n ∈ L /\ (forall t, t ∈ successors (block b s) -> t ∈ L \/ (t = Succ /\ cnt = 1%Z)) /\
      (forall t, t ∈ L -> t ∈ successors (block b s) \/ t = n))) as H.
  { intros L Hin Hk Ha. apply wp_updateBlock. do 2 eexists. split; [done|]. split; [|split; [|done]].
    - rewrite dom_alter_blocks. by rewrite Hd.
    - intros x. rewrite block_updateBlock by (rewrite Hd; by apply st_dom).
      rewrite !block_updateBlock by (by apply st_dom). case_decide as Hx; [|done].
      rewrite decide_False by done. by rewrite Hempty. }
  wp_step. unfold replaceSuccessor, splitSuccessor. destruct (cnt =? 1)%Z eqn:E; (wp_step; wp_step; wp_step; wp_step; [by apply bool_decide_eq_true|]; apply wp_updateBlock).
  - destruct (HL (replaceFirst Succ n)) as (L & EL & ->). apply H; subst L.
    + by apply replaceFirst_new.
    + intros t Ht. destruct (decide (t = Succ)) as [->|Hne]; [right; split; [done|by apply Z.eqb_eq]|].
      left. by apply elem_of_replaceFirst.
    + apply replaceFirst_elem.
  - destruct (HL (fun l => l ++ [n])) as (L & EL & ->). apply H; subst L; set_solver.
Qed.

Lemma splitEdge_spec b Succ cnt Br U s :
  structured s -> splittable b Succ Br U s ->
  wp (splitEdge b Succ cnt Br U) s (fun '(n, U') s' => structured s' /\ edgeSplit b Succ cnt Br U s n U' s').
Proof.
  intros Hs (Hb & HSin & Hpad & Hsucc & Hok).
  eapply fwp_mono; [apply keeps_wp with (Q := fun '(n, U') s' => edgeSplit b Succ cnt Br U s n U' s')|];
    [apply keeps_splitEdge|done| |by intros [n U'] s' [? ?]].
  unfold splitEdge. wp_step. wp_step. wp_step. wp_step; [by rewrite Hpad|]. wp_step.
  pose proof (keeps_createBlockAfter b s Hs) as Hs1. unfold wp at 1. unfold createBlockAfter in *. cbn beta iota zeta in *.
  set (n := nextBlock s) in *. set (s1 := FS _ _ _ _ _ _ _ _) in *.
  assert (n ∉ layout s) as Hn by (intros Hx%(st_block s Hs); unfold n in *; lia).
  assert (n <> b) as Hnb by (intros Heq; subst b; done).
  assert (forall x, block x s1 = if decide (x = n) then emptyBlock else block x s) as Hblock1.
  { intros x. unfold block. simpl. case_decide as E; [subst; by rewrite lookup_insert_eq|by rewrite lookup_insert_ne by done]. }
  assert (forall x, layoutNext x s1 = if decide (x = b) then Some n else if decide (x = n) then layoutNext b s else layoutNext x s) as Hnext1.
  { intros x. apply nextIn_insertAfter; [apply Hs|done|done]. }
  assert (forall x, x ∈ layout s1 <-> x ∈ layout s \/ x = n) as Hlay1 by (intros; apply elem_of_insertAfter).
  assert (n ∈ layout s1) as Hn1 by (apply Hlay1; auto). assert (b ∈ layout s1) as Hb1 by (apply Hlay1; auto).
  wp_step. eapply fwp_mono; [apply (redirect_spec b n Succ Br U s1 Hs1 Hb1 Hn1 Hnb)|].
  { rewrite Hblock1. by rewrite decide_True. }
  { unfold redirectable. destruct Br as [br|].
    - destruct Hok as (? & ? & _ & Hold). split_and!; [done|done|]. intros HU. destruct (Hold HU) as (old & Ho & Hin).
      exists old. rewrite Hnext1, decide_False, decide_True by done. split; [done|]. rewrite Hblock1.
      by rewrite decide_False by done.
    - destruct Hok as [HU Ho]. split; [done|]. by rewrite Hnext1, decide_False, decide_True. }
  intros U' s2 (Hs2 & He & us & vs & Hus & Hvs & Hred).
  assert (layout s2 = layout s1) as Hlay2 by (rewrite (ex_layout _ _ _ He); by destruct Br).
  assert (forall x, set_instrs [] (block x s2) = set_instrs [] (block x s1)) as Hattr2
    by (intros x; rewrite (ex_attr _ _ _ He); by destruct Br).
  assert (forall x, successors (block x s2) = successors (block x s1)) as Hsucc2
    by (intros x; exact (f_equal successors (Hattr2 x))).
  rewrite <- Hlay2 in Hn1, Hb1.
  assert (n ∈ dom (blocks s2)) as Hnd2 by (by apply st_dom).
  assert (b ∈ dom (blocks s2)) as Hbd2 by (by apply st_dom).
  apply wp_bind2. eapply fwp_mono; [apply (successors_spec b Succ cnt n s2 Hs2 Hb1 Hn1 Hnb)|].
  { rewrite Hsucc2, Hblock1. by rewrite decide_False by done. }
  { rewrite Hsucc2, Hblock1. by rewrite decide_True. }
  intros _ s3 (m3 & L & -> & Hd3 & Hblock3 & HnL & HkL & HaL). cbn beta.
  set (s3 := with_blocks m3 s2) in *.
  wp_step. wp_step. wp_step.
  assert (NoDup (phis Succ s3)) as Hphis.
  { unfold phis. set (l := instrs (block Succ s3)).
    assert (NoDup l) as Hl.
    { assert (l = instrs (block Succ s2)) as -> by (unfold l; rewrite Hblock3; repeat case_decide; subst; done).
      apply Hs2. rewrite Hlay2. apply Hlay1. auto. }
    destruct (prefixWhile_prefix (fun x => isPHI (f_instr x s3)) l) as [r Hr]. rewrite Hr in Hl.
    by apply NoDup_app in Hl as (? & _ & _). }
  eapply fwp_mono; [apply (updateInstrs_spec _ _ _ Hphis)|]. intros _ s4 (m4 & -> & Hm4). cbn beta.
  wp_step. wp_step. wp_step. eapply fwp_mono; [apply addLiveIns_spec; simpl; rewrite Hd3; done|].
  intros _ s5 (m5 & -> & Hd5 & Hm5). cbn beta. apply fwp_ret.
  assert (forall x, x ∈ phis Succ s3 -> exists i, f_code s2 !! x = Some i /\ isPHI i = true) as Hphi.
  { intros x Hx. apply prefixWhile_sat in Hx as [Hx _]. unfold f_instr in Hx. simpl in Hx.
    destruct (f_code s2 !! x) as [i|]; [eauto|done]. }
  assert (forall x i, f_code s2 !! x = Some i -> isPHI i = false -> m4 !! x = Some i) as Hkeep.
  { intros x i Hx Hi. rewrite Hm4. case_decide as E; [|done]. destruct (Hphi x E) as (j & Hj & Hp). simpl in Hx. congruence. }
  assert (forall x i, f_code s !! x = Some i ->
    f_code s2 !! x = Some (if decide (Br = Some x) then setBranchTarget n i else i)) as Hc2.
  { intros x i Hx. apply (ex_code _ _ _ He). destruct Br as [br|]; simpl; [|done].
    destruct (decide (br = x)) as [->|Hne]; [rewrite decide_True, lookup_alter_eq, Hx by done; done|].
    rewrite decide_False, lookup_alter_ne by congruence. done. }
  assert (forall x t, addedJump s1 (f_code s2) x t -> addedJump s m4 x t) as Hjump.
  { intros x t [Hx Hj]. split; [done|]. by apply Hkeep. }
  assert (forall x, x ∈ layout s -> x <> b -> x <> n /\ block x s2 = block x s) as Hoth2.
  { intros x Hx Hxb. assert (x <> n) as Hxn by (intros ->; done). split; [done|].
    rewrite (ex_block _ _ _ He) by naive_solver. assert (block x (retarget Br n s1) = block x s1) as -> by (by destruct Br).
    rewrite Hblock1. by rewrite decide_False. }
  assert (forall x, block x (with_blocks m5 (with_code m4 s3)) =
    if decide (x = n) then set_liveins (liveins (block n s3) ++ liveins (block Succ s3)) (block n s3) else block x s3) as Hblock5
    by (intros x; exact (Hm5 x)).
  constructor; simpl.
  - done.
  - by rewrite Hlay2.
  - rewrite (ex_nextBlock _ _ _ He). by destruct Br.
  - rewrite (ex_available _ _ _ He). by destruct Br.
  - pose proof (ex_nextInstr _ _ _ He) as H. by destruct Br.
  - pose proof (ex_nextReg _ _ _ He) as H. by destruct Br.
  - intros x Hx Hxb. destruct (Hoth2 x Hx Hxb) as [Hxn Hb2]. rewrite Hblock5, decide_False, Hblock3 by done.
    by rewrite !decide_False by done.
  - rewrite Hblock5, decide_False, Hblock3, decide_False, decide_True by done.
    change (isEHPad (block b s2) = isEHPad (block b s)). transitivity (isEHPad (block b s1)); [exact (f_equal isEHPad (Hattr2 b))|].
    rewrite Hblock1. by rewrite decide_False by done.
  - intros t Ht. rewrite Hblock5, decide_False, Hblock3, decide_False, decide_True by done. apply HkL.
    rewrite Hsucc2, Hblock1. by rewrite decide_False by done.
  - intros t. rewrite Hblock5, decide_False, Hblock3, decide_False, decide_True by done. intros Ht.
    apply HaL in Ht. rewrite Hsucc2, Hblock1 in Ht. by rewrite decide_False in Ht by done.
  - by rewrite Hblock5, decide_False, Hblock3, decide_False, decide_True by done.
  - by rewrite Hblock5, decide_True, Hblock3, decide_True by done.
  - intros x i Hx. specialize (Hc2 x i Hx). rewrite Hm4. simpl. rewrite Hc2.
    destruct (decide (x ∈ phis Succ s3)) as [E|E].
    + destruct (Hphi x E) as (j & Hj & Hp). rewrite Hc2 in Hj. simplify_eq/=. eexists. split; [done|].
      case_decide as HBr.
      * exfalso. rewrite HBr in Hok. destruct Hok as (_ & _ & Ht & _). unfold isTerm, f_instr in Ht. rewrite Hx in Ht.
        apply isPHI_terminator in Ht. change (isPHI i = true) in Hp. simpl in Ht. congruence.
      * right. right. split; [done|]. eexists. split; [apply splitEntry_from|done].
    + eexists. split; [done|]. case_decide; [right; left; auto|by left].
  - intros br i HBr Hx Hi. apply Hkeep; [|done]. rewrite (Hc2 br i Hx). by rewrite decide_True.
  - exists us, vs. rewrite !Hblock5, decide_False, decide_True, !Hblock3 by done.
    rewrite decide_False, !decide_True by done. simpl. split_and!.
    + rewrite Hus, Hblock1. by rewrite decide_False.
    + done.
    + destruct Hred as [[(-> & -> & H)|(u & old & -> & -> & -> & HBr & Ho & Hj)] _]; [left; auto|]. right.
      exists u, old. rewrite Hnext1, decide_False, decide_True in Ho by done. split_and!; auto; by apply Hjump.
    + destruct Hred as [_ [[-> Ho]|(v & -> & Hj & Hv)]].
      * left. rewrite Hnext1, decide_False, decide_True in Ho by done. auto.
      * right. exists v. split_and!; auto; by apply Hjump.
Qed.

(** ** Inserting the checks *)
Record checksBuilt (chk : positive) (conds : list Z) (s : FState) (CMovs : list positive) (s' : FState) : Prop := {
  cb_layout : layout s' = layout s;
  cb_nextBlock : nextBlock s' = nextBlock s;
  cb_nextInstr : (f_nextInstr s <= f_nextInstr s')%positive;
  cb_nextReg : (f_nextReg s <= f_nextReg s')%positive;
  cb_other x : x <> chk -> block x s' = block x s;
  cb_successors : successors (block chk s') = successors (block chk s);
  cb_pad : isEHPad (block chk s') = isEHPad (block chk s);
  cb_code x i : f_code s !! x = Some i -> f_code s' !! x = Some i;
  cb_cmovs : exists xs rs, instrs (block chk s') = xs ++ instrs (block chk s) /\
    cmovChain (f_code s') xs InitialReg conds rs /\ freshRegs s s' rs /\ (forall x, x ∈ xs -> x ∉ dom (f_code s)) /\
    available s' = <[chk := default InitialReg (last rs)]> (available s) /\ CMovs = take 1 xs;
}.

Lemma buildChecks_spec chk live conds s :
  structured s -> chk ∈ layout s -> oldReg InitialReg s ->
  match instrs (block chk s) with x :: _ => isPHI (f_instr x s) = false | [] => True end ->
  wp (buildChecks InitialReg PoisonReg chk live conds) s (fun CMovs s' => structured s' /\ checksBuilt chk conds s CMovs s').
Proof.
  intros Hs Hchk Hinit Hphi. unfold buildChecks.
  assert (forall s1 l, structured s1 -> f_code s1 = f_code s -> layout s1 = layout s -> nextBlock s1 = nextBlock s ->
    f_nextInstr s1 = f_nextInstr s -> f_nextReg s1 = f_nextReg s -> available s1 = available s ->
    (forall x, block x s1 = if decide (x = chk) then set_liveins l (block chk s) else block x s) ->
    wp (l ← fget (fun s => instrs (block chk s));
        phi ← fget (fun s => match l with x :: _ => isPHI (f_instr x s) | [] => false end);
        assert (negb phi) ;;
        '(CMovs, CurStateReg) ← insertCMovs InitialReg PoisonReg chk (head l) live (last conds) InitialReg conds;
        AddAvailableValue chk CurStateReg ;;
        mret CMovs) s1 (fun CMovs s' => structured s' /\ checksBuilt chk conds s CMovs s')) as H.
  { intros s1 l Hs1 Hc Hlay Hnb Hni Hnr Hav Hbl.
    assert (instrs (block chk s1) = instrs (block chk s)) as Hi by (rewrite Hbl, decide_True by done; done).
    wp_step. wp_step. wp_step. wp_step. wp_step.
    assert ((match instrs (block chk s1) with x :: _ => isPHI (f_instr x s1) | [] => false end) = false) as ->.
    { rewrite Hi. destruct (instrs (block chk s)); [done|]. unfold f_instr. by rewrite Hc. }
    wp_step; [done|]. wp_step.
    assert (oldReg InitialReg s1) as Hinit1 by (intros k Hk; rewrite Hnr; by apply Hinit).
    eapply fwp_mono; [apply (insertCMovs_spec chk (instrs (block chk s1)) live (last conds) conds InitialReg [] s1);
      [done|by rewrite Hlay|done|done|done]|].
    intros [CMovs r] s2 (Hs2 & He & xs & rs & Hi2 & Hch & -> & Hfr & Hx & ->). cbn beta iota.
    wp_step. change (wp (AddAvailableValue chk ?r) s2 ?Q) with (Q tt (with_available (<[chk := r]> (available s2)) s2)).
    cbn beta. apply fwp_ret. split; [by destruct Hs2; constructor|].
    pose proof (ex_attr _ _ _ He chk) as Ha. rewrite Hbl, decide_True in Ha by done.
    constructor; simpl.
    - by rewrite (ex_layout _ _ _ He).
    - by rewrite (ex_nextBlock _ _ _ He).
    - pose proof (ex_nextInstr _ _ _ He). lia.
    - pose proof (ex_nextReg _ _ _ He). lia.
    - intros x Hxc. change (block x s2 = block x s). rewrite (ex_block _ _ _ He), Hbl by done. by rewrite decide_False.
    - exact (f_equal successors Ha).
    - exact (f_equal isEHPad Ha).
    - intros x i Hxi. apply (ex_code _ _ _ He). by rewrite Hc.
    - exists xs, rs. rewrite decide_True by done. split_and!; [|done| |intros; rewrite <- Hc; auto| |done].
      + change (instrs (block chk s2) = xs ++ instrs (block chk s)). by rewrite Hi2, Hi.
      + destruct Hfr as [Hnd Hfr]. split; [done|]. intros q Hq. destruct (Hfr q Hq) as (k & -> & Hk). exists k.
        split; [done|]. simpl. lia.
      + rewrite (ex_available _ _ _ He). by rewrite Hav. }
  destruct live.
  - wp_step. apply fwp_ret. apply (H s (liveins (block chk s))); try done. intros x. case_decide as E; [subst|done].
    by destruct (block chk s).
  - wp_step. apply wp_updateBlock. apply (H _ (liveins (block chk s) ++ [EFLAGS])); try done.
    + exact (keeps_updateBlock chk (fun B => set_liveins (liveins B ++ [EFLAGS]) B) (fun B => eq_refl) s Hs).
    + intros x. rewrite block_updateBlock by (by apply st_dom). done.
Qed.
End Ops.
