(* ===== verification/SlhChecked.v ===== *)
(** * The checks on the edges: every branch of a function

    One edge at a time ([edgeStep]), what a checked edge is ([checkedEdge]) and why later
    steps keep it, the loops over the branches of a block and over the blocks, and the
    theorem that every edge of an analysed branch runs through a check. *)
From stdpp Require Import base countable gmap sets list option strings sorting.
From Stdlib Require Import ZArith Lia.
From S2P Require Import Prelude Machine Slh SlhCfg SlhEdges.

(** ** Terminators *)
Section Terms.
Context (C : CfgTarget) {HC : TargetLaws C}.

Definition termsOf (p : positive -> bool) (l : list positive) : list positive :=
  reverse (prefixWhile p (reverse l)).

Lemma terminators_termsOf b s : terminators C b s = termsOf (isTerm C s) (instrs (block b s)).
Proof. done. Qed.

Lemma termsOf_ext p q l : (forall x, x ∈ l -> p x = q x) -> termsOf p l = termsOf q l.
Proof.
  intros He. unfold termsOf. f_equal. apply prefixWhile_ext. intros x Hx. apply He. by rewrite elem_of_reverse in Hx.
Qed.

Lemma termsOf_app_pre p pre l : (forall x, x ∈ pre -> p x = false) -> termsOf p (pre ++ l) = termsOf p l.
Proof.
  intros Hp. unfold termsOf. rewrite reverse_app, prefixWhile_app_none; [done|].
  apply Forall_elem. intros x Hx. apply Hp. by rewrite elem_of_reverse in Hx.
Qed.

Lemma prefixWhile_app_sat {A} (p : A -> bool) l m : (forall x, x ∈ l -> p x = true) -> prefixWhile p (l ++ m) = l ++ prefixWhile p m.
Proof.
  induction l as [|x l IH]; simpl; intros Hl; [done|]. rewrite (Hl x) by left. f_equal. apply IH.
  intros y Hy. apply Hl. by right.
Qed.

Lemma termsOf_app_post p l post : (forall x, x ∈ post -> p x = true) -> termsOf p (l ++ post) = termsOf p l ++ post.
Proof.
  intros Hp. unfold termsOf. rewrite reverse_app, prefixWhile_app_sat.
  - by rewrite reverse_app, reverse_involutive.
  - intros x Hx. apply Hp. by rewrite elem_of_reverse in Hx.
Qed.

Lemma elem_of_termsOf p l x : x ∈ termsOf p l -> x ∈ l /\ p x = true.
Proof.
  unfold termsOf. rewrite elem_of_reverse. intros [? Hx]%prefixWhile_sat. by rewrite elem_of_reverse in Hx.
Qed.

Lemma elem_of_terminators b s x : x ∈ terminators C b s -> x ∈ instrs (block b s) /\ isTerm C s x = true.
Proof. apply elem_of_termsOf. Qed.
End Terms.

(** ** One edge *)
Section Step.
Context (C : CfgTarget) {HC : TargetLaws C}.
Variable InitialReg PoisonReg : reg.

(** Where an edge leaves: a branch, or the end of the block. *)
Definition goesTo (b : positive) (Br : option positive) (c : positive) (s : FState) : Prop :=
  match Br with
  | Some br => branchTarget (f_instr br s) = Some c
  | None => layoutNext b s = Some c
  end.

(** A block with nothing but a way to [t]. *)
Definition leadsTo (c t : positive) (s : FState) : Prop :=
  (terminators C c s = [] /\ layoutNext c s = Some t) \/
  (exists v, terminators C c s = [v] /\ f_instr v s = JMP_1 t).

Record edgeStep (b Succ : positive) (cnt : Z) (Br U : option positive) (conds : list Z) (s : FState)
    (U' : option positive) (CMovs : list positive) (c : positive) (us : list positive) (s' : FState) : Prop := {
  es_layout x : x ∈ layout s' <-> x ∈ layout s \/ x = c;
  es_c : (c = Succ /\ cnt = 1%Z /\ pred_size Succ s = 1%nat) \/ c ∉ layout s;
  es_next x : x ∈ layout s -> x <> b -> layoutNext x s' = layoutNext x s;
  es_nextReg : (f_nextReg s <= f_nextReg s')%positive;
  es_available x : x <> c -> available s' !! x = available s !! x;
  es_code x i : f_code s !! x = Some i -> exists i', f_code s' !! x = Some i' /\ changed Br c x i i';
  es_goes : goesTo b Br c s';
  es_instrs x : x ∈ layout s -> exists pre, instrs (block x s') = pre ++ instrs (block x s) ++ (if decide (x = b) then us else []) /\
    (x <> c -> pre = []) /\ (forall y, y ∈ pre -> isTerm C s' y = false /\ isPHI (f_instr y s') = false);
  es_us : (us = [] /\ U' = U /\ (is_Some U \/ Br = None \/ layoutNext b s' = layoutNext b s)) \/
    (exists u old, us = [u] /\ U' = Some u /\ U = None /\ is_Some Br /\ layoutNext b s = Some old /\ addedJump s (f_code s') u old);
  es_checks : exists xs rs rest, instrs (block c s') = xs ++ rest /\ cmovChain PoisonReg (f_code s') xs InitialReg conds rs /\
    freshRegs s s' rs /\ available s' !! c = Some (default InitialReg (last rs)) /\ CMovs = take 1 xs /\
    (forall y r, y ∈ rest -> r ∈ defsOf (f_instr y s') -> oldReg r s);
  es_leads : c = Succ \/ leadsTo c Succ s';
  es_other x : x ∈ layout s -> x <> b -> successors (block x s') = successors (block x s);
  es_pad x : x ∈ layout s -> isEHPad (block x s') = isEHPad (block x s);
  es_kept t : t ∈ successors (block b s) ->
    t ∈ successors (block b s') \/ (t = Succ /\ cnt = 1%Z /\ c ∉ layout s /\ t ∈ successors (block c s'));
}.

Lemma defsOf_JMP t r : r ∉ defsOf (JMP_1 t).
Proof. unfold defsOf. simpl. apply not_elem_of_nil. Qed.

Lemma defs_old s b y r : structured s -> b ∈ layout s -> y ∈ instrs (block b s) -> r ∈ defsOf (f_instr y s) -> oldReg r s.
Proof.
  intros Hs Hb Hy Hr k ->. pose proof (st_code s Hs b y Hb Hy) as [i Hi]%elem_of_dom.
  unfold f_instr in Hr. rewrite Hi in Hr. by eapply (st_regs s Hs).
Qed.

Lemma cmovChain_plain m s xs cur conds rs y :
  cmovChain PoisonReg m xs cur conds rs -> f_code s = m -> y ∈ xs -> isTerm C s y = false /\ isPHI (f_instr y s) = false.
Proof.
  intros Hc <- Hy. edestruct (cmovChain_elem C) as (r & p & c & k & Hi); [exact Hc|exact Hy|]. unfold isTerm, f_instr.
  rewrite Hi. split; [apply term_cmov|done].
Qed.

(** The first instruction of a block with one predecessor is no PHI. *)
Definition phiFree (Succ : positive) (s : FState) : Prop :=
  pred_size Succ s = 1%nat -> match instrs (block Succ s) with x :: _ => isPHI (f_instr x s) = false | [] => True end.

Lemma inline_step b Succ Br U conds s :
  structured s -> splittable C b Succ Br U s -> oldReg InitialReg s -> phiFree Succ s -> pred_size Succ s = 1%nat ->
  forall live, wp (CMovs ← buildChecks InitialReg PoisonReg Succ live conds; mret (U, CMovs)) s (fun '(U', CMovs) s' =>
    structured s' /\ exists c us, edgeStep b Succ 1 Br U conds s U' CMovs c us s').
Proof.
  intros Hs (Hb & HS & Hpad & Hsucc & Hok) Hinit Hphi Hpred live. wp_step.
  eapply fwp_mono; [apply (buildChecks_spec InitialReg PoisonReg Succ live conds s Hs HS Hinit (Hphi Hpred))|].
  intros CMovs s' [Hs' Hcb]. cbn beta. apply fwp_ret. split; [done|]. exists Succ, [].
  destruct (cb_cmovs _ _ _ _ _ _ _ Hcb) as (xs & rs & Hi & Hch & Hfr & Hx & Hav & ->).
  assert (forall x, instrs (block x s') = (if decide (x = Succ) then xs else []) ++ instrs (block x s)) as Hins.
  { intros x. case_decide as E; [by subst|]. by rewrite (cb_other _ _ _ _ _ _ _ Hcb). }
  constructor.
  - intros x. rewrite (cb_layout _ _ _ _ _ _ _ Hcb). naive_solver.
  - by left.
  - intros x _ _. unfold layoutNext. by rewrite (cb_layout _ _ _ _ _ _ _ Hcb).
  - apply (cb_nextReg _ _ _ _ _ _ _ Hcb).
  - intros x Hxc. rewrite Hav. by rewrite lookup_insert_ne.
  - intros x i Hxi. exists i. split; [by apply (cb_code _ _ _ _ _ _ _ Hcb)|by left].
  - unfold goesTo. destruct Br as [br|].
    + destruct Hok as (Hbr & Ht & _). apply elem_of_dom in Hbr as [i Hbr]. unfold f_instr in *. rewrite Hbr in Ht.
      by rewrite (cb_code _ _ _ _ _ _ _ Hcb _ _ Hbr).
    + unfold layoutNext. rewrite (cb_layout _ _ _ _ _ _ _ Hcb). apply Hok.
  - intros x Hxl. exists (if decide (x = Succ) then xs else []). rewrite Hins. split_and!.
    + case_decide; case_decide; by rewrite ?app_nil_r.
    + intros. by rewrite decide_False.
    + intros y. case_decide; [|by intros ?%elem_of_nil]. intros Hy. by eapply cmovChain_plain.
  - left. split_and!; [done|done|]. right. right. unfold layoutNext. by rewrite (cb_layout _ _ _ _ _ _ _ Hcb).
  - exists xs, rs, (instrs (block Succ s)). split_and!; [done|done|done| |done|].
    + rewrite Hav. by rewrite lookup_insert_eq.
    + intros y r Hy Hr. pose proof (st_code s Hs Succ y HS Hy) as [i Hyi]%elem_of_dom.
      apply (defs_old s Succ y r); [done|done|done|]. unfold f_instr in *. rewrite Hyi.
      by rewrite (cb_code _ _ _ _ _ _ _ Hcb _ _ Hyi) in Hr.
  - by left.
  - intros x _ _. destruct (decide (x = Succ)) as [->|E]; [apply (cb_successors _ _ _ _ _ _ _ Hcb)|].
    by rewrite (cb_other _ _ _ _ _ _ _ Hcb).
  - intros x _. destruct (decide (x = Succ)) as [->|E]; [apply (cb_pad _ _ _ _ _ _ _ Hcb)|].
    by rewrite (cb_other _ _ _ _ _ _ _ Hcb).
  - intros t Ht. left. destruct (decide (b = Succ)) as [->|E]; [by rewrite (cb_successors _ _ _ _ _ _ _ Hcb)|].
    by rewrite (cb_other _ _ _ _ _ _ _ Hcb).
Qed.

Lemma changed_mono Br n x i i' m' : changed Br n x i i' -> m' = i' -> changed Br n x i m'.
Proof. by intros ? ->. Qed.

Lemma split_step b Succ cnt Br U conds s :
  structured s -> splittable C b Succ Br U s -> oldReg InitialReg s ->
  wp ('(c, U') ← splitEdge b Succ cnt Br U;
      live ← fget (fun s => bool_decide (EFLAGS ∈ liveins (block Succ s)));
      CMovs ← buildChecks InitialReg PoisonReg c live conds;
      mret (U', CMovs)) s (fun '(U', CMovs) s' =>
    structured s' /\ exists c us, edgeStep b Succ cnt Br U conds s U' CMovs c us s').
Proof.
  intros Hs Hsp Hinit. pose proof Hsp as (Hb & HS & Hpad & Hsucc & Hok).
  wp_step. eapply fwp_mono; [by apply (splitEdge_spec C)|]. intros [n U'] s1 [Hs1 Hes]. cbn beta iota.
  wp_step. wp_step. set (live := bool_decide _). wp_step.
  destruct (sp_instrs _ _ _ _ _ _ _ _ _ Hes) as (us & vs & Hus & Hvs & Hu & Hv).
  assert (nextBlock s ∉ layout s) as Hnew by (intros Hx%(st_block s Hs); lia).
  assert (n = nextBlock s) as Hn by apply (sp_n _ _ _ _ _ _ _ _ _ Hes). rewrite <- Hn in Hnew.
  assert (n <> b) as Hnb by (intros ->; done).
  assert (forall x, x ∈ layout s1 <-> x ∈ layout s \/ x = n) as Hlay
    by (intros x; rewrite (sp_layout _ _ _ _ _ _ _ _ _ Hes); apply elem_of_insertAfter).
  assert (forall x, layoutNext x s1 = if decide (x = b) then Some n else if decide (x = n) then layoutNext b s else layoutNext x s) as Hnext.
  { intros x. unfold layoutNext. rewrite (sp_layout _ _ _ _ _ _ _ _ _ Hes). apply nextIn_insertAfter; [apply Hs|done|done]. }
  assert (forall v, v ∈ vs -> f_code s1 !! v = Some (JMP_1 Succ)) as Hvsc.
  { intros v Hin. destruct Hv as [[-> _]|(w & -> & [_ Hj] & _)]; [by apply elem_of_nil in Hin|].
    by apply list_elem_of_singleton in Hin as ->. }
  eapply fwp_mono; [apply (buildChecks_spec InitialReg PoisonReg n live conds s1 Hs1)|].
  { apply Hlay. auto. }
  { intros k Hk. pose proof (Hinit k Hk). pose proof (sp_nextReg _ _ _ _ _ _ _ _ _ Hes). lia. }
  { rewrite Hvs. destruct vs as [|v vs]; [done|]. unfold f_instr. by rewrite Hvsc by left. }
  intros CMovs s' [Hs' Hcb]. cbn beta. apply fwp_ret. split; [done|]. exists n, us.
  destruct (cb_cmovs _ _ _ _ _ _ _ Hcb) as (xs & rs & Hi & Hch & Hfr & Hx & Hav & ->).
  assert (forall x, x <> n -> block x s' = block x s1) as Hoth by apply (cb_other _ _ _ _ _ _ _ Hcb).
  assert (layout s' = layout s1) as Hlay' by apply (cb_layout _ _ _ _ _ _ _ Hcb).
  assert (forall x, layoutNext x s' = layoutNext x s1) as Hnext' by (intros; unfold layoutNext; by rewrite Hlay').
  assert (forall x t, addedJump s (f_code s1) x t -> addedJump s (f_code s') x t) as Hjump.
  { intros x t [Hd Hj]. split; [done|]. by apply (cb_code _ _ _ _ _ _ _ Hcb). }
  assert (terminators C n s' = vs) as Htn.
  { rewrite terminators_termsOf, Hi, Hvs, termsOf_app_pre.
    - destruct Hv as [[-> _]|(v & -> & Hj & _)]; [done|]. apply Hjump in Hj as [_ Hj].
      assert (isTerm C s' v = true) as Ht by (unfold isTerm, f_instr; rewrite Hj; apply term_jmp).
      unfold termsOf. change (reverse [v]) with [v]. simpl. by rewrite Ht.
    - intros y Hy. by eapply cmovChain_plain. }
  constructor.
  - intros x. by rewrite Hlay'.
  - by right.
  - intros x Hxl Hxb. rewrite Hnext', Hnext, !decide_False; [done|by intros ->|done].
  - pose proof (cb_nextReg _ _ _ _ _ _ _ Hcb). pose proof (sp_nextReg _ _ _ _ _ _ _ _ _ Hes). lia.
  - intros x Hxc. rewrite Hav, lookup_insert_ne by done. by rewrite (sp_available _ _ _ _ _ _ _ _ _ Hes).
  - intros x i Hxi. destruct (sp_code _ _ _ _ _ _ _ _ _ Hes x i Hxi) as (i' & Hi' & Hch').
    exists i'. split; [|done]. by apply (cb_code _ _ _ _ _ _ _ Hcb).
  - unfold goesTo. destruct Br as [br|].
    + destruct Hok as (Hbr & Ht & Hterm & _). apply elem_of_dom in Hbr as [i Hbr].
      unfold isTerm, f_instr in Hterm, Ht. rewrite Hbr in Hterm, Ht. simpl in Hterm, Ht.
      pose proof (sp_br _ _ _ _ _ _ _ _ _ Hes br i eq_refl Hbr (isPHI_terminator C i Hterm)) as Hj.
      unfold f_instr. rewrite (cb_code _ _ _ _ _ _ _ Hcb _ _ Hj). simpl. unfold branchTarget, setBranchTarget in *.
      destruct (mi_ops i); [done|]. done.
    + by rewrite Hnext', Hnext, decide_True.
  - intros x Hxl. assert (x <> n) as Hxn by (intros ->; done). exists []. rewrite Hoth by done. simpl. split_and!; [|done|].
    + destruct (decide (x = b)) as [->|Hxb]; [done|]. rewrite app_nil_r. by rewrite (sp_other _ _ _ _ _ _ _ _ _ Hes).
    + by intros y ?%elem_of_nil.
  - destruct Hu as [(-> & -> & [->|HU])|(u & old & -> & -> & -> & HBr & Ho & Hj)].
    + left. auto.
    + left. auto.
    + right. exists u, old. split_and!; auto.
  - exists xs, rs, vs. split_and!; [by rewrite Hi, Hvs|done| | |done|].
    + destruct Hfr as [Hnd Hfr]. split; [done|]. intros r Hr. destruct (Hfr r Hr) as (k & -> & Hk). exists k. split; [done|].
      pose proof (sp_nextReg _ _ _ _ _ _ _ _ _ Hes). lia.
    + rewrite Hav. by rewrite lookup_insert_eq.
    + intros y r Hy Hr. pose proof (Hvsc y Hy) as Hyj. unfold f_instr in Hr.
      rewrite (cb_code _ _ _ _ _ _ _ Hcb _ _ Hyj) in Hr. by apply defsOf_JMP in Hr.
  - right. unfold leadsTo. rewrite Htn, Hnext', Hnext, decide_False, decide_True by done.
    destruct Hv as [[-> Ho]|(v & -> & Hj & _)]; [by left|right]. exists v. split; [done|].
    apply Hjump in Hj as [_ Hj]. unfold f_instr. by rewrite Hj.
  - intros x Hxl Hxb. assert (x <> n) as Hxn by (intros ->; done). rewrite Hoth by done. by rewrite (sp_other _ _ _ _ _ _ _ _ _ Hes).
  - intros x Hxl. assert (x <> n) as Hxn by (intros ->; done). rewrite Hoth by done.
    destruct (decide (x = b)) as [->|Hxb]; [apply (sp_pad _ _ _ _ _ _ _ _ _ Hes)|]. by rewrite (sp_other _ _ _ _ _ _ _ _ _ Hes).
  - intros t Ht. rewrite Hoth by done. destruct (sp_kept _ _ _ _ _ _ _ _ _ Hes t Ht) as [?|[-> ->]]; [by left|].
    right. split_and!; [done|done|done|]. rewrite (cb_successors _ _ _ _ _ _ _ Hcb), (sp_succ _ _ _ _ _ _ _ _ _ Hes). left.
Qed.

(** A step succeeds and leaves the edge behind a check. *)
Lemma edge_step b Succ cnt Br U conds s :
  structured s -> splittable C b Succ Br U s -> oldReg InitialReg s -> phiFree Succ s ->
  wp (BuildCheckingBlockForSuccAndConds InitialReg PoisonReg b Succ cnt Br U conds) s (fun '(U', CMovs) s' =>
    structured s' /\ exists c us, edgeStep b Succ cnt Br U conds s U' CMovs c us s').
Proof.
  intros Hs Hsp Hinit Hphi. unfold BuildCheckingBlockForSuccAndConds. wp_step. wp_step.
  destruct ((cnt =? 1)%Z && (pred_size Succ s =? 1)%nat) eqn:E.
  - apply andb_true_iff in E as [->%Z.eqb_eq Hp%Nat.eqb_eq]. wp_step. apply fwp_ret. cbn beta iota. wp_step. wp_step.
    by apply inline_step.
  - exact (split_step b Succ cnt Br U conds s Hs Hsp Hinit).
Qed.
End Step.

(** ** A checked edge and what keeps it *)
Section Checked.
Context (C : CfgTarget) {HC : TargetLaws C}.
Variable InitialReg PoisonReg : reg.

(** The function before, whose blocks the new ones are told from. *)
Variable s0 : FState.

(** The edge of [b] that leaves at [Br] enters [c], which checks [conds] and is, or only
    leads to, [t]; [cm] lists the cmovs that read the initial state. *)
Record checkedEdge (s : FState) (cm : list positive) (b : positive) (Br : option positive) (t : positive)
    (conds : list Z) (c : positive) : Prop := {
  ck_goes : goesTo b Br c s;
  ck_in : c ∈ layout s;
  ck_leads : (c = t /\ t ∈ successors (block b s)) \/ (c ∉ layout s0 /\ leadsTo C c t s);
  ck_checks : exists xs rs rest, instrs (block c s) = xs ++ rest /\
    cmovChain PoisonReg (f_code s) xs InitialReg conds rs /\ NoDup rs /\
    (forall r, r ∈ rs -> r <> InitialReg /\ r <> PoisonReg /\ isVirtual r = true) /\
    (forall y r, y ∈ rest -> r ∈ defsOf (f_instr y s) -> r ∉ rs) /\
    available s !! c = Some (default InitialReg (last rs)) /\ (forall x, x ∈ take 1 xs -> x ∈ cm);
}.

(** What holds between the steps. *)
Record tracing (s : FState) : Prop := {
  tr_structured : structured s;
  tr_old x : x ∈ layout s0 -> x ∈ layout s;
  tr_code x : x ∈ dom (f_code s0) -> x ∈ dom (f_code s);
  tr_initial : oldReg InitialReg s;
  tr_poison : oldReg PoisonReg s;
  tr_phis x : x ∈ layout s0 ->
    match instrs (block x s) with y :: _ => isPHI (f_instr y s) = true | [] => False end ->
    exists p1 p2, p1 <> p2 /\ p1 ∈ layout s /\ p2 ∈ layout s /\ x ∈ successors (block p1 s) /\ x ∈ successors (block p2 s);
}.

Lemma elem_of_predecessors x p s : p ∈ predecessors x s <-> p ∈ layout s /\ x ∈ successors (block p s).
Proof.
  unfold predecessors. rewrite list_elem_of_In, in_concat. setoid_rewrite in_map_iff. split.
  - intros (l & (q & <- & Hq%list_elem_of_In) & Hp%list_elem_of_In). apply list_elem_of_fmap in Hp as (y & -> & Hy).
    apply list_elem_of_filter in Hy as [-> Hy]. done.
  - intros [Hp Hx]. eexists. split; [exists p; split; [done|by apply list_elem_of_In]|].
    apply list_elem_of_In, list_elem_of_fmap. exists x. split; [done|]. by apply list_elem_of_filter.
Qed.

Lemma two_predecessors x p1 p2 s : p1 <> p2 -> p1 ∈ layout s -> p2 ∈ layout s ->
  x ∈ successors (block p1 s) -> x ∈ successors (block p2 s) -> pred_size x s <> 1%nat.
Proof.
  intros Hne H1 H2 Hx1 Hx2 Hp. unfold pred_size in Hp.
  assert (p1 ∈ predecessors x s) as Hp1 by by apply elem_of_predecessors.
  assert (p2 ∈ predecessors x s) as Hp2 by by apply elem_of_predecessors.
  destruct (predecessors x s) as [|p [|q l]]; simpl in Hp; [lia| |lia]. set_solver.
Qed.

Lemma tracing_phiFree s x : tracing s -> x ∈ layout s0 -> phiFree x s.
Proof.
  intros Ht Hx Hp. destruct (instrs (block x s)) as [|y l] eqn:E; [done|].
  destruct (isPHI (f_instr y s)) eqn:Ey; [|done].
  destruct (tr_phis s Ht x Hx) as (p1 & p2 & Hne & ?); [by rewrite E|]. exfalso.
  eapply (two_predecessors x p1 p2 s); naive_solver.
Qed.

Section OneStep.
Context (s s' : FState) (cm CMovs : list positive).
Context (b Succ c : positive) (cnt : Z) (Br U U' : option positive) (conds : list Z) (us : list positive).
Hypothesis Ht : tracing s.
Hypothesis Hstep : edgeStep C InitialReg PoisonReg b Succ cnt Br U conds s U' CMovs c us s'.
Hypothesis Hb : b ∈ layout s0.
Hypothesis HSucc : Succ ∈ layout s0.
Hypothesis Hedge : Succ ∈ successors (block b s).
Hypothesis HBr : forall br, Br = Some br -> br ∈ instrs (block b s) /\ isTerm C s br = true.
Hypothesis Hs' : structured s'.

Lemma step_changed x i : f_code s !! x = Some i -> exists i', f_code s' !! x = Some i' /\ changed Br c x i i'.
Proof. exact (es_code _ _ _ _ _ _ _ _ _ _ _ _ _ _ _ Hstep x i). Qed.

Lemma step_isTerm x : x ∈ dom (f_code s) -> isTerm C s' x = isTerm C s x.
Proof.
  intros [i Hi]%elem_of_dom. destruct (step_changed x i Hi) as (i' & Hi' & Hc). unfold isTerm, f_instr. rewrite Hi, Hi'.
  simpl. by eapply changed_terminator.
Qed.

Lemma step_isPHI x : x ∈ dom (f_code s) -> isPHI (f_instr x s') = isPHI (f_instr x s).
Proof.
  intros [i Hi]%elem_of_dom. destruct (step_changed x i Hi) as (i' & Hi' & Hc). unfold f_instr. rewrite Hi, Hi'.
  simpl. by eapply changed_isPHI.
Qed.

(** A terminator, or any other instruction but a PHI, is the same unless it is the branch. *)
Lemma step_same x i : f_code s !! x = Some i -> isPHI i = false -> Br <> Some x -> f_code s' !! x = Some i.
Proof.
  intros Hi Hp Hn. destruct (step_changed x i Hi) as (i' & Hi' & [->|[[? _]|[? _]]]); [done|done|congruence].
Qed.


Lemma step_old x : x ∈ layout s0 -> x ∈ layout s.
Proof. apply Ht. Qed.

Lemma step_terms x : x ∈ layout s -> terminators C x s' = terminators C x s ++ (if decide (x = b) then us else []).
Proof.
  intros Hx. pose proof (es_instrs _ _ _ _ _ _ _ _ _ _ _ _ _ _ _ Hstep x Hx) as (pre & Hi & _ & Hpre).
  rewrite !terminators_termsOf, Hi. rewrite termsOf_app_pre by (intros y Hy; by apply Hpre).
  rewrite termsOf_app_post.
  - f_equal. apply termsOf_ext. intros y Hy. apply step_isTerm. by eapply (st_code s (tr_structured s Ht)).
  - intros y Hy. case_decide; [|by apply elem_of_nil in Hy].
    destruct (es_us _ _ _ _ _ _ _ _ _ _ _ _ _ _ _ Hstep) as [(-> & _)|(u & old & -> & _ & _ & _ & _ & _ & Hj)];
      [by apply elem_of_nil in Hy|]. apply list_elem_of_singleton in Hy as ->.
    unfold isTerm, f_instr. rewrite Hj. apply term_jmp.
Qed.

(** Another edge's check is not this step's check block. *)
Lemma step_apart b1 Br1 t1 conds1 c1 : checkedEdge s cm b1 Br1 t1 conds1 c1 -> b1 ∈ layout s0 ->
  (b1 = b -> c1 = t1 -> t1 <> Succ) -> c1 <> c.
Proof.
  intros Hck Hb1 Hsep Heq.
  destruct (es_c _ _ _ _ _ _ _ _ _ _ _ _ _ _ _ Hstep) as [(-> & _ & Hp)|Hnew]; subst c1.
  - destruct (ck_leads _ _ _ _ _ _ _ Hck) as [[-> Hin]|[Hn _]]; [|done].
    destruct (decide (b1 = b)) as [->|Hne]; [by apply Hsep|].
    eapply (two_predecessors _ b1 b s); [done|by apply step_old|by apply step_old|done|done|done].
  - apply Hnew, (ck_in _ _ _ _ _ _ _ Hck).
Qed.

Lemma step_checked b1 Br1 t1 conds1 c1 : checkedEdge s cm b1 Br1 t1 conds1 c1 -> b1 ∈ layout s0 ->
  (b1 = b -> c1 = t1 -> t1 <> Succ) -> (Br1 = None -> b1 <> b) ->
  (forall br1, Br1 = Some br1 -> br1 ∈ instrs (block b1 s) /\ isTerm C s br1 = true /\ Br <> Some br1) ->
  checkedEdge s' (cm ++ CMovs) b1 Br1 t1 conds1 c1.
Proof.
  intros Hck Hb1 Hsep Hfall HBr1. pose proof (step_apart b1 Br1 t1 conds1 c1 Hck Hb1 Hsep) as Hcc.
  pose proof (tr_structured s Ht) as Hs. pose proof (ck_in _ _ _ _ _ _ _ Hck) as Hc1.
  pose proof (es_instrs _ _ _ _ _ _ _ _ _ _ _ _ _ _ _ Hstep c1 Hc1) as (pre & Hi1 & Hpre & _).
  rewrite (Hpre Hcc) in Hi1. simpl in Hi1.
  assert (forall y, y ∈ instrs (block c1 s) -> is_Some (f_code s !! y)) as Hcode
    by (intros y Hy; apply elem_of_dom; by eapply (st_code s Hs)).
  constructor.
  - pose proof (ck_goes _ _ _ _ _ _ _ Hck) as Hg. destruct Br1 as [br1|]; simpl in *.
    + destruct (HBr1 br1 eq_refl) as (Hin & Hterm & Hne).
      pose proof (st_code s Hs b1 br1 (step_old b1 Hb1) Hin) as [i Hi]%elem_of_dom.
      unfold isTerm, f_instr in *. rewrite Hi in *. simpl in *.
      by rewrite (step_same br1 i Hi (isPHI_terminator C i Hterm) Hne).
    + rewrite (es_next _ _ _ _ _ _ _ _ _ _ _ _ _ _ _ Hstep); [done|by apply step_old|by apply Hfall].
  - apply (es_layout _ _ _ _ _ _ _ _ _ _ _ _ _ _ _ Hstep). by left.
  - destruct (ck_leads _ _ _ _ _ _ _ Hck) as [[-> Hin]|[Hn Hl]].
    + left. split; [done|]. destruct (decide (b1 = b)) as [->|Hne].
      * destruct (es_kept _ _ _ _ _ _ _ _ _ _ _ _ _ _ _ Hstep t1 Hin) as [?|(-> & _)]; [done|]. by destruct (Hsep eq_refl eq_refl).
      * rewrite (es_other _ _ _ _ _ _ _ _ _ _ _ _ _ _ _ Hstep); [done|by apply step_old|done].
    + right. split; [done|]. assert (c1 <> b) as Hc1b by (intros ->; done).
      assert (terminators C c1 s' = terminators C c1 s) as Htm
        by (rewrite (step_terms c1 Hc1), decide_False, app_nil_r by done; done).
      unfold leadsTo. rewrite Htm. rewrite (es_next _ _ _ _ _ _ _ _ _ _ _ _ _ _ _ Hstep) by done.
      destruct Hl as [?|(v & Hv & Hj)]; [by left|right]. exists v. split; [done|].
      assert (v ∈ instrs (block c1 s)) as Hvin by (eapply (elem_of_terminators C); rewrite Hv; left).
      destruct (Hcode v Hvin) as [i Hi]. unfold f_instr in *. rewrite Hi in Hj. simpl in Hj. subst i.
      rewrite (step_same v _ Hi); [done|done|]. intros HBrv. destruct (HBr v HBrv) as [Hvb _].
      apply Hc1b. eapply (st_disjoint s Hs); [done|by apply step_old|done|done].
  - destruct (ck_checks _ _ _ _ _ _ _ Hck) as (xs & rs & rest & Hi & Hch & Hnd & Hrs & Hrest & Hav & Hcm).
    exists xs, rs, (rest ++ (if decide (c1 = b) then us else [])). split_and!; [|..|done|done| | |].
    + rewrite Hi1, Hi. by rewrite <- (assoc_L (++)).
    + eapply (cmovChain_mono C); [|exact Hch]. intros x i _ Hp Htm Hx. apply (step_same x i Hx Hp). intros HBrx.
      destruct (HBr x HBrx) as [_ Htb]. unfold isTerm, f_instr in Htb. rewrite Hx in Htb. simpl in Htb. congruence.
    + intros y r Hy Hr. apply elem_of_app in Hy as [Hy|Hy].
      * apply (Hrest y r Hy). assert (y ∈ instrs (block c1 s)) as Hyc by (rewrite Hi; set_solver).
        destruct (Hcode y Hyc) as [i Hyi]. destruct (step_changed y i Hyi) as (i' & Hi' & Hcg).
        unfold f_instr in *. rewrite Hyi. rewrite Hi' in Hr. simpl in *. by eapply changed_defs.
      * exfalso. case_decide; [|by apply elem_of_nil in Hy].
        destruct (es_us _ _ _ _ _ _ _ _ _ _ _ _ _ _ _ Hstep) as [(-> & _)|(u & old & -> & _ & _ & _ & _ & _ & Hj)];
          [by apply elem_of_nil in Hy|]. apply list_elem_of_singleton in Hy as ->.
        unfold f_instr in Hr. rewrite Hj in Hr. by apply defsOf_JMP in Hr.
    + rewrite (es_available _ _ _ _ _ _ _ _ _ _ _ _ _ _ _ Hstep) by done. done.
    + intros x Hx. apply elem_of_app. left. by apply Hcm.
Qed.

(** The step's own edge. *)
Lemma step_new : checkedEdge s' (cm ++ CMovs) b Br Succ conds c.
Proof.
  constructor.
  - apply (es_goes _ _ _ _ _ _ _ _ _ _ _ _ _ _ _ Hstep).
  - apply (es_layout _ _ _ _ _ _ _ _ _ _ _ _ _ _ _ Hstep). by right.
  - destruct (es_c _ _ _ _ _ _ _ _ _ _ _ _ _ _ _ Hstep) as [(-> & _)|Hnew].
    + left. split; [done|]. destruct (es_kept _ _ _ _ _ _ _ _ _ _ _ _ _ _ _ Hstep Succ Hedge) as [?|(_ & _ & Hn & _)]; [done|].
      exfalso. by apply Hn, step_old.
    + right. split; [intros Hc; by apply Hnew, step_old|].
      destruct (es_leads _ _ _ _ _ _ _ _ _ _ _ _ _ _ _ Hstep) as [->|?]; [|done]. exfalso. by apply Hnew, step_old.
  - destruct (es_checks _ _ _ _ _ _ _ _ _ _ _ _ _ _ _ Hstep) as (xs & rs & rest & Hi & Hch & [Hnd Hfr] & Hav & -> & Hrest).
    exists xs, rs, rest. split_and!; [done|done|done| | |done|].
    + intros r Hr. destruct (Hfr r Hr) as (k & -> & Hk). split_and!; [intros Heq|intros Heq|done].
      * pose proof (tr_initial s Ht k (eq_sym Heq)). lia.
      * pose proof (tr_poison s Ht k (eq_sym Heq)). lia.
    + intros y r Hy Hr Hin. destruct (Hfr r Hin) as (k & -> & Hk). pose proof (Hrest y _ Hy Hr k eq_refl). lia.
    + intros x Hx. apply elem_of_app. by right.
Qed.

Lemma step_tracing : tracing s'.
Proof.
  pose proof (es_nextReg _ _ _ _ _ _ _ _ _ _ _ _ _ _ _ Hstep) as Hreg. constructor.
  - done.
  - intros x Hx. apply (es_layout _ _ _ _ _ _ _ _ _ _ _ _ _ _ _ Hstep). left. by apply step_old.
  - intros x Hx. apply (tr_code s Ht) in Hx as [i Hi]%elem_of_dom. destruct (step_changed x i Hi) as (i' & Hi' & _).
    apply elem_of_dom. eauto.
  - intros k Hk. pose proof (tr_initial s Ht k Hk). lia.
  - intros k Hk. pose proof (tr_poison s Ht k Hk). lia.
  - intros x Hx Hphi. pose proof (step_old x Hx) as Hxs.
    pose proof (es_instrs _ _ _ _ _ _ _ _ _ _ _ _ _ _ _ Hstep x Hxs) as (pre & Hi & _ & Hpre).
    assert (match instrs (block x s) with y :: _ => isPHI (f_instr y s) = true | [] => False end) as Hphi0.
    { rewrite Hi in Hphi. destruct pre as [|y pre]; simpl in Hphi.
      - destruct (instrs (block x s)) as [|y l] eqn:E; simpl in Hphi.
        + case_decide; [|done].
          destruct (es_us _ _ _ _ _ _ _ _ _ _ _ _ _ _ _ Hstep) as [(-> & _)|(u & old & -> & _ & _ & _ & _ & _ & Hj)]; [done|].
          unfold f_instr in Hphi. by rewrite Hj in Hphi.
        + rewrite step_isPHI in Hphi; [done|]. eapply (st_code s (tr_structured s Ht) x); [done|]. rewrite E. left.
      - destruct (Hpre y) as [_ Hn]; [left|]. congruence. }
    destruct (tr_phis s Ht x Hx Hphi0) as (p1 & p2 & Hne & H1 & H2 & Hx1 & Hx2).
    assert (forall p, p ∈ layout s -> x ∈ successors (block p s) ->
      exists q, q ∈ layout s' /\ x ∈ successors (block q s') /\ (q = p \/ (p = b /\ q = c /\ c ∉ layout s))) as Hq.
    { intros p Hp Hxp. destruct (decide (p = b)) as [->|Hpb].
      - destruct (es_kept _ _ _ _ _ _ _ _ _ _ _ _ _ _ _ Hstep x Hxp) as [?|(_ & _ & Hn & ?)].
        + exists b. split; [apply (es_layout _ _ _ _ _ _ _ _ _ _ _ _ _ _ _ Hstep)|]; auto.
        + exists c. split; [apply (es_layout _ _ _ _ _ _ _ _ _ _ _ _ _ _ _ Hstep)|]; auto.
      - exists p. rewrite (es_other _ _ _ _ _ _ _ _ _ _ _ _ _ _ _ Hstep) by done.
        split; [apply (es_layout _ _ _ _ _ _ _ _ _ _ _ _ _ _ _ Hstep)|]; auto. }
    destruct (Hq p1 H1 Hx1) as (q1 & ? & ? & Hq1). destruct (Hq p2 H2 Hx2) as (q2 & ? & ? & Hq2).
    exists q1, q2. split_and!; try done. naive_solver.
Qed.
End OneStep.
(** *** What a step on [b] leaves of the other blocks *)
Record others (b : positive) (s s' : FState) (cm cm' : list positive) : Prop := {
  ot_layout x : x ∈ layout s -> x ∈ layout s';
  ot_terms x : x ∈ layout s0 -> x <> b -> terminators C x s' = terminators C x s;
  ot_instr x y : x ∈ layout s0 -> x <> b -> y ∈ terminators C x s -> f_instr y s' = f_instr y s;
  ot_next x : x ∈ layout s0 -> x <> b -> layoutNext x s' = layoutNext x s;
  ot_succ x : x ∈ layout s0 -> x <> b -> successors (block x s') = successors (block x s);
  ot_pad x : x ∈ layout s0 -> isEHPad (block x s') = isEHPad (block x s);
  ot_checked b1 Br1 t1 conds1 c1 : b1 ∈ layout s0 -> b1 <> b ->
    (forall br1, Br1 = Some br1 -> br1 ∈ terminators C b1 s) ->
    checkedEdge s cm b1 Br1 t1 conds1 c1 -> checkedEdge s' cm' b1 Br1 t1 conds1 c1;
}.

Lemma others_refl b s cm : others b s s cm cm.
Proof. by constructor. Qed.

Lemma others_trans b s1 s2 s3 cm1 cm2 cm3 : others b s1 s2 cm1 cm2 -> others b s2 s3 cm2 cm3 -> others b s1 s3 cm1 cm3.
Proof.
  intros H1 H2. constructor.
  - intros x Hx. by eapply ot_layout, ot_layout.
  - intros x Hx Hb. by rewrite (ot_terms _ _ _ _ _ H2), (ot_terms _ _ _ _ _ H1).
  - intros x y Hx Hb Hy. rewrite (ot_instr _ _ _ _ _ H2 x y), (ot_instr _ _ _ _ _ H1 x y); try done.
    by rewrite (ot_terms _ _ _ _ _ H1).
  - intros x Hx Hb. by rewrite (ot_next _ _ _ _ _ H2), (ot_next _ _ _ _ _ H1).
  - intros x Hx Hb. by rewrite (ot_succ _ _ _ _ _ H2), (ot_succ _ _ _ _ _ H1).
  - intros x Hx. by rewrite (ot_pad _ _ _ _ _ H2), (ot_pad _ _ _ _ _ H1).
  - intros b1 Br1 t1 conds1 c1 Hb1 Hne Hbr Hck. apply (ot_checked _ _ _ _ _ H2); [done|done| |].
    + intros br1 E. rewrite (ot_terms _ _ _ _ _ H1) by done. by apply Hbr.
    + by apply (ot_checked _ _ _ _ _ H1).
Qed.

Lemma step_others s s' cm CMovs b Succ c cnt Br U U' conds us :
  tracing s -> edgeStep C InitialReg PoisonReg b Succ cnt Br U conds s U' CMovs c us s' -> b ∈ layout s0 ->
  Succ ∈ layout s0 -> Succ ∈ successors (block b s) ->
  (forall br, Br = Some br -> br ∈ instrs (block b s) /\ isTerm C s br = true) -> structured s' ->
  others b s s' cm (cm ++ CMovs).
Proof.
  intros Ht Hstep Hb HS Hedge HBr Hs'. pose proof (tr_structured s Ht) as Hs.
  assert (forall x y, x ∈ layout s0 -> x <> b -> y ∈ terminators C x s -> y ∈ instrs (block x s) /\ isTerm C s y = true /\ Br <> Some y) as Hy.
  { intros x y Hx Hxb Hy. apply elem_of_terminators in Hy as [Hy Htm]. split_and!; [done|done|]. intros HBry.
    destruct (HBr y HBry) as [Hyb _]. apply Hxb. eapply (st_disjoint s Hs); [by apply (tr_old s Ht)|by apply (tr_old s Ht)|done|done]. }
  constructor.
  - intros x Hx. apply (es_layout _ _ _ _ _ _ _ _ _ _ _ _ _ _ _ Hstep). by left.
  - intros x Hx Hxb. erewrite step_terms; [|exact Ht|exact Hstep|by apply (tr_old s Ht)]. by rewrite decide_False, app_nil_r.
  - intros x y Hx Hxb Hyx. destruct (Hy x y Hx Hxb Hyx) as (Hyi & Htm & Hne).
    pose proof (st_code s Hs x y (tr_old s Ht x Hx) Hyi) as [i Hi]%elem_of_dom. unfold isTerm, f_instr in *.
    rewrite Hi in *. simpl in *. erewrite step_same; [done|exact Hstep|done| |done]. by apply (isPHI_terminator C).
  - intros x Hx Hxb. apply (es_next _ _ _ _ _ _ _ _ _ _ _ _ _ _ _ Hstep); [by apply (tr_old s Ht)|done].
  - intros x Hx Hxb. apply (es_other _ _ _ _ _ _ _ _ _ _ _ _ _ _ _ Hstep); [by apply (tr_old s Ht)|done].
  - intros x Hx. apply (es_pad _ _ _ _ _ _ _ _ _ _ _ _ _ _ _ Hstep). by apply (tr_old s Ht).
  - intros b1 Br1 t1 conds1 c1 Hb1 Hne Hbr Hck. eapply step_checked; try done.
    intros br1 E. by apply (Hy b1 br1), Hbr.
Qed.
End Checked.


(** ** What [collectBlockCondInfo] collects *)
Section Info.
Context (C : CfgTarget) {HC : TargetLaws C}.

(** A conditional branch. *)
Definition isCondBr (s : FState) (x : positive) : Prop :=
  isTerm C s x = true /\ isBranch (f_instr x s) = true /\ isOpcode "JMP_1" (f_instr x s) = false /\
  is_Some (getCondFromBranch C (f_instr x s)).

Definition isUncondBr (s : FState) (x : positive) : Prop :=
  isTerm C s x = true /\
  (isOpcode "JMP_1" (f_instr x s) = true \/ getCondFromBranch C (f_instr x s) = None).

Lemma walkTerminators_spec s l conds U conds' U' :
  walkTerminators C s l conds U = (conds', U') -> conds' <> [] ->
  let ts := prefixWhile (isTerm C s) l in
  (conds' = conds ++ ts /\ U' = U /\ Forall (isCondBr s) ts) \/
  (exists a u, ts = a ++ u :: conds' /\ U' = Some u /\ isUncondBr s u /\ Forall (isCondBr s) conds').
Proof.
  revert conds U. induction l as [|x l IH]; intros conds U; simpl.
  - intros [= <- <-] _. left. by rewrite app_nil_r.
  - destruct (isTerm C s x) eqn:Ht; simpl; [|intros [= <- <-] _; left; by rewrite app_nil_r].
    destruct (isBranch (f_instr x s)) eqn:Hb; simpl; [|by intros [= <- <-]].
    assert (isUncondBr s x -> walkTerminators C s l [] (Some x) = (conds', U') -> conds' <> [] ->
      exists a u, x :: prefixWhile (isTerm C s) l = a ++ u :: conds' /\ U' = Some u /\ isUncondBr s u /\ Forall (isCondBr s) conds') as H.
    { intros Hx Hw Hne. destruct (IH [] (Some x) Hw Hne) as [(-> & -> & Hc)|(a & u & -> & Hu)].
      - exists [], x. done.
      - exists (x :: a), u. done. }
    destruct (isOpcode "JMP_1" (f_instr x s)) eqn:Hj.
    + intros Hw Hne. right. apply H; [|done|done]. split; auto.
    + destruct (getCondFromBranch C (f_instr x s)) as [c|] eqn:Hc.
      * intros Hw Hne. assert (isCondBr s x) as Hx by (split_and!; rewrite ?Hc; eauto).
        destruct (IH _ _ Hw Hne) as [(-> & -> & Hc')|(a & u & -> & Hu)].
        -- left. rewrite <- (assoc_L (++)). simpl. split_and!; [done|done|]. by constructor.
        -- right. exists (x :: a), u. done.
      * intros Hw Hne. right. apply H; [|done|done]. split; auto.
Qed.

(** The terminators of a collected block: its conditional branches, in the reverse of the
    order they are listed in, then what [UncondBr] points to. *)
Lemma blockCondInfo_spec s b info : blockCondInfo C s b = Some info ->
  info_MBB info = b /\ CondBrs info <> [] /\ Forall (isCondBr s) (CondBrs info) /\
  exists rest, terminators C b s = reverse (CondBrs info) ++ rest /\
    match UncondBr info with
    | None => rest = []
    | Some u => isUncondBr s u /\ exists r, rest = u :: r
    end.
Proof.
  unfold blockCondInfo. destruct (length _ <=? 1)%nat; [done|].
  destruct (walkTerminators C s (reverse (instrs (block b s))) [] None) as [conds U] eqn:Hw.
  intros Hi. assert (conds <> []) as Hne by (by destruct conds).
  assert (info = BCI b conds U) as -> by (by destruct conds; simplify_eq). simpl.
  unfold terminators.
  destruct (walkTerminators_spec _ _ _ _ _ _ Hw Hne) as [(-> & -> & Hc)|(a & u & -> & -> & Hu & Hc)].
  - split_and!; [done|done|done|]. exists []. by rewrite app_nil_r.
  - split_and!; [done|done|done|]. exists (u :: reverse a). rewrite reverse_app, reverse_cons. rewrite <- (assoc_L (++)). eauto.
Qed.
End Info.
