(* ===== verification/SlhTrace.v ===== *)
(** * The checks on the edges: the loops and the theorem

    The loop over the conditional branches of a block, the step for its remaining
    successor, the loop over the collected blocks, and what the result is for every edge
    of the function: [edges_checked]. *)
From stdpp Require Import base countable gmap sets list option strings sorting.
From Stdlib Require Import ZArith Lia.
From S2P Require Import Prelude Machine Slh SlhCfg SlhEdges SlhChecked.

(** ** Functions the pass is run on *)

(** The successor of a collected block without a condition. *)
Definition uncondTarget (s : FState) (info : BlockCondInfo) : option positive :=
  match UncondBr info with
  | Some u => if isOpcode "JMP_1" (f_instr u s) then branchTarget (f_instr u s) else None
  | None => layoutNext (info_MBB info) s
  end.

(** What the machine verifier checks: blocks and instructions are where they say, the
    branches of a block go to its successors, PHIs are in blocks with several
    predecessors, and no branch enters an exception pad. *)
Record wellFormed (C : CfgTarget) (s : FState) : Prop := {
  wf_structured : structured s;
  wf_layout b t : b ∈ layout s -> t ∈ successors (block b s) -> t ∈ layout s;
  wf_cond b info br : b ∈ layout s -> blockCondInfo C s b = Some info -> br ∈ CondBrs info ->
    exists t, branchTarget (f_instr br s) = Some t /\ t ∈ successors (block b s) /\ isEHPad (block t s) = false;
  wf_uncond b info : b ∈ layout s -> blockCondInfo C s b = Some info ->
    match uncondTarget s info with
    | Some t => t ∈ successors (block b s) /\ isEHPad (block t s) = false
    | None => exists u, UncondBr info = Some u /\ isOpcode "JMP_1" (f_instr u s) = false
    end;
  wf_phis x : x ∈ layout s ->
    match instrs (block x s) with y :: _ => isPHI (f_instr y s) = true | [] => False end ->
    exists p1 p2, p1 <> p2 /\ p1 ∈ layout s /\ p2 ∈ layout s /\ x ∈ successors (block p1 s) /\ x ∈ successors (block p2 s);
}.

Section Trace.
Context (C : CfgTarget) {HC : TargetLaws C}.
Variable InitialReg PoisonReg : reg.
Variable s0 : FState.
Hypothesis Hwf : wellFormed C s0.

Abbreviation tracing := (tracing InitialReg PoisonReg s0).
Abbreviation checkedEdge := (checkedEdge C InitialReg PoisonReg s0).
Abbreviation others := (others C InitialReg PoisonReg s0).

(** The number of edges to [x] that are left. *)
Definition remaining (conds : list positive) (x : positive) : nat :=
  length (filter (fun br => branchTarget (f_instr br s0) = Some x) conds).

Section Block.
Variable b : positive.
Variable info : BlockCondInfo.
Hypothesis Hb : b ∈ layout s0.
Hypothesis Hinfo : blockCondInfo C s0 b = Some info.

Abbreviation usucc := (uncondTarget s0 info).

(** Where the walk over the block's branches stands: [D] lists the branches behind it with
    the blocks they now enter, [conds] the ones ahead, [post] what was added to the end
    of the block. *)
Record loopInv (s : FState) (cm : list positive) (D : list (positive * positive)) (conds : list positive)
    (U : option positive) (cnt : gmap positive Z) (post : list positive) : Prop := {
  li_tracing : tracing s;
  li_done br c : (br, c) ∈ D -> br ∈ terminators C b s0 /\
    exists t cc, branchTarget (f_instr br s0) = Some t /\ getCondFromBranch C (f_instr br s0) = Some cc /\
      checkedEdge s cm b (Some br) t [GetOppositeBranchCondition C cc] c /\ (c = t -> countOf cnt t = 0%Z);
  li_conds br : br ∈ conds -> br ∈ terminators C b s0 /\ isCondBr C s0 br /\ f_instr br s = f_instr br s0 /\
    exists t, branchTarget (f_instr br s0) = Some t /\ t ∈ successors (block b s0) /\ isEHPad (block t s0) = false;
  li_nodup : NoDup (D.*1 ++ conds);
  li_cnt x : countOf cnt x = (Z.of_nat (remaining conds x) + (if decide (usucc = Some x) then 1 else 0))%Z;
  li_succ x : (0 < countOf cnt x)%Z -> x ∈ successors (block b s);
  li_pads x : x ∈ layout s0 -> isEHPad (block x s) = isEHPad (block x s0);
  li_terms : terminators C b s = terminators C b s0 ++ post;
  li_post : (post = [] /\ U = UncondBr info /\ (U = None -> layoutNext b s = layoutNext b s0)) \/
    (exists u old, UncondBr info = None /\ U = Some u /\ post = [u] /\ usucc = Some old /\
       f_code s !! u = Some (JMP_1 old) /\ u ∉ dom (f_code s0));
  li_uncond u : UncondBr info = Some u -> f_instr u s = f_instr u s0 /\ u ∉ D.*1 ++ conds;
  li_kinds y : y ∈ terminators C b s0 ->
    getCondFromBranch C (f_instr y s) = getCondFromBranch C (f_instr y s0) /\ opcode (f_instr y s) = opcode (f_instr y s0);
}.

Lemma info_MBB_b : info_MBB info = b.
Proof. by apply (blockCondInfo_spec C s0 b info Hinfo). Qed.

Lemma terminator_dom y : y ∈ terminators C b s0 -> y ∈ dom (f_code s0).
Proof. intros [Hy _]%elem_of_terminators. by eapply (st_code s0 (wf_structured C s0 Hwf) b). Qed.

Lemma uncondBr_terminator u : UncondBr info = Some u -> u ∈ terminators C b s0.
Proof.
  intros Hu. destruct (blockCondInfo_spec C s0 b info Hinfo) as (_ & _ & _ & rest & -> & Hr). rewrite Hu in Hr.
  destruct Hr as (_ & r & ->). set_solver.
Qed.

Lemma term_in s post y : terminators C b s = terminators C b s0 ++ post -> y ∈ terminators C b s0 ->
  y ∈ instrs (block b s) /\ isTerm C s y = true.
Proof. intros Ht Hy. apply (elem_of_terminators C). rewrite Ht. set_solver. Qed.

Lemma countOf_bump d t cnt x : countOf (bump d t cnt) x = (countOf cnt x + (if decide (x = t) then d else 0))%Z.
Proof.
  unfold bump. destruct (decide (x = t)) as [->|Hx]; unfold countOf at 1.
  - by rewrite lookup_insert_eq.
  - rewrite lookup_insert_ne by done. unfold countOf. lia.
Qed.

Lemma remaining_cons br conds t x : branchTarget (f_instr br s0) = Some t ->
  Z.of_nat (remaining (br :: conds) x) = (Z.of_nat (remaining conds x) + (if decide (x = t) then 1 else 0))%Z.
Proof.
  intros Ht. unfold remaining. destruct (decide (x = t)) as [->|Hx].
  - rewrite filter_cons_True by done. simpl. lia.
  - rewrite filter_cons_False by congruence. lia.
Qed.

(** One conditional branch is ready to be split. *)
Lemma cond_ready s cm D br conds U cnt post t :
  loopInv s cm D (br :: conds) U cnt post -> branchTarget (f_instr br s0) = Some t ->
  splittable C b t (Some br) U s /\ (0 < countOf cnt t)%Z /\ t ∈ layout s0.
Proof.
  intros Hli Ht. destruct (li_conds _ _ _ _ _ _ _ Hli br) as (Hbr & (Htm & _) & Hsame & t' & Ht' & Hts & Hpad); [left|].
  rewrite Ht in Ht'. injection Ht' as <-.
  assert (t ∈ layout s0) as Htl by (by eapply (wf_layout C s0 Hwf)).
  assert (0 < countOf cnt t)%Z as Hc.
  { rewrite (li_cnt _ _ _ _ _ _ _ Hli), (remaining_cons _ _ t) by done. rewrite decide_True by done. case_decide; lia. }
  pose proof (li_tracing _ _ _ _ _ _ _ Hli) as Htr.
  destruct (term_in s post br (li_terms _ _ _ _ _ _ _ Hli) Hbr) as [Hin Htm'].
  split; [|done]. split_and!.
  - by apply (tr_old _ _ _ _ Htr).
  - by apply (tr_old _ _ _ _ Htr).
  - by rewrite (li_pads _ _ _ _ _ _ _ Hli).
  - by apply (li_succ _ _ _ _ _ _ _ Hli).
  - eapply (st_code s (tr_structured _ _ _ _ Htr) b); [by apply (tr_old _ _ _ _ Htr)|done].
  - by rewrite Hsame.
  - done.
  - intros HU. destruct (li_post _ _ _ _ _ _ _ Hli) as [(-> & HU0 & Hnext)|(u & old & _ & HU' & _)]; [|congruence].
    rewrite (Hnext HU). pose proof (wf_uncond C s0 Hwf b info Hb Hinfo) as Hw.
    assert (usucc = layoutNext b s0) as Hus by (unfold uncondTarget; rewrite <- HU0, HU, info_MBB_b; done).
    destruct usucc as [o|] eqn:E; [|destruct Hw as (u & Hu & _); congruence].
    exists o. split; [by rewrite <- Hus|]. apply (li_succ _ _ _ _ _ _ _ Hli).
    rewrite (li_cnt _ _ _ _ _ _ _ Hli). rewrite E, decide_True by done. lia.
Qed.

Lemma step_us_code s s' Br U conds U' CMovs c us t cnt u :
  edgeStep C InitialReg PoisonReg b t cnt Br U conds s U' CMovs c us s' -> us = [u] ->
  exists old, layoutNext b s = Some old /\ U = None /\ U' = Some u /\ u ∉ dom (f_code s) /\ f_code s' !! u = Some (JMP_1 old).
Proof.
  intros Hstep Hus. destruct (es_us _ _ _ _ _ _ _ _ _ _ _ _ _ _ _ Hstep) as [(-> & _)|(v & old & -> & -> & -> & _ & Ho & Hd & Hj)]; [done|].
  injection Hus as ->. eauto 10.
Qed.

(** The code of the function before stays, but for what is changed. *)
Lemma kept_code s s' Br U conds U' CMovs c us t cnt y :
  edgeStep C InitialReg PoisonReg b t cnt Br U conds s U' CMovs c us s' -> y ∈ dom (f_code s) -> isTerm C s y = true ->
  Br <> Some y -> f_instr y s' = f_instr y s.
Proof.
  intros Hstep [i Hi]%elem_of_dom Htm Hne. unfold isTerm, f_instr in *. rewrite Hi in *. simpl in Htm.
  erewrite step_same; [done|exact Hstep|done|by apply (isPHI_terminator C)|done].
Qed.

Lemma kept_kind s s' Br U conds U' CMovs c us t cnt y :
  edgeStep C InitialReg PoisonReg b t cnt Br U conds s U' CMovs c us s' -> y ∈ dom (f_code s) -> isTerm C s y = true ->
  getCondFromBranch C (f_instr y s') = getCondFromBranch C (f_instr y s) /\ opcode (f_instr y s') = opcode (f_instr y s).
Proof.
  intros Hstep [i Hi]%elem_of_dom Htm. destruct (es_code _ _ _ _ _ _ _ _ _ _ _ _ _ _ _ Hstep y i Hi) as (i' & Hi' & Hc).
  unfold isTerm, f_instr in *. rewrite Hi, Hi' in *. simpl in *. apply (isPHI_terminator C) in Htm.
  destruct Hc as [->|[[_ ->]|[Hp _]]]; [done| |congruence]. split; [apply cond_target|done].
Qed.

Lemma cond_step s cm D br conds U cnt post t cc s' U' CMovs c us :
  loopInv s cm D (br :: conds) U cnt post -> branchTarget (f_instr br s0) = Some t ->
  getCondFromBranch C (f_instr br s0) = Some cc ->
  edgeStep C InitialReg PoisonReg b t (countOf cnt t) (Some br) U [GetOppositeBranchCondition C cc] s U' CMovs c us s' ->
  structured s' ->
  loopInv s' (cm ++ CMovs) (D ++ [(br, c)]) conds U' (bump (-1) t cnt) (post ++ us) /\ others b s s' cm (cm ++ CMovs).
Proof.
  intros Hli Ht Hcc Hstep Hs'. destruct (cond_ready _ _ _ _ _ _ _ _ _ Hli Ht) as ((Hbs & _ & _ & Hedge & Hbrd & _ & Hbrt & _) & Hcnt & Htl).
  pose proof (li_tracing _ _ _ _ _ _ _ Hli) as Htr. pose proof (li_terms _ _ _ _ _ _ _ Hli) as Hterms.
  assert (forall y, y ∈ terminators C b s0 -> y ∈ instrs (block b s) /\ isTerm C s y = true) as Hin by (intros; by eapply term_in).
  assert (forall y, y ∈ terminators C b s0 -> y ∈ dom (f_code s)) as Hdom.
  { intros y Hy. eapply (st_code s (tr_structured _ _ _ _ Htr) b); [done|by apply Hin]. }
  assert (br ∈ terminators C b s0) as Hbr by (apply (li_conds _ _ _ _ _ _ _ Hli); left).
  assert (forall br', Some br = Some br' -> br' ∈ instrs (block b s) /\ isTerm C s br' = true) as HBr
    by (intros br' [= <-]; by apply Hin).
  pose proof (li_nodup _ _ _ _ _ _ _ Hli) as Hnd.
  assert (br ∉ D.*1 /\ br ∉ conds) as [HbrD Hbrc].
  { apply NoDup_app in Hnd as (_ & Hd & Hn). apply NoDup_cons in Hn as [? _]. split; [|done]. intros HD. apply (Hd br HD). left. }
  split; [|by eapply step_others]. constructor.
  - eapply step_tracing; eauto.
  - intros br1 c1 [Hin1|Hin1]%elem_of_app.
    + destruct (li_done _ _ _ _ _ _ _ Hli br1 c1 Hin1) as (Hbr1 & t1 & cc1 & Ht1 & Hcc1 & Hck & H0). split; [done|].
      assert (br1 <> br) as Hne by (intros ->; apply HbrD, list_elem_of_fmap; by exists (br, c1)).
      assert (c1 = t1 -> t1 <> t) as Hsep by (intros E ->; specialize (H0 E); lia).
      exists t1, cc1. split_and!; [done|done| |].
      * eapply step_checked; try done. intros br' [= <-]. split_and!; [by apply Hin|by apply Hin|congruence].
      * intros E. rewrite countOf_bump, H0 by done. rewrite decide_False by auto. lia.
    + apply list_elem_of_singleton in Hin1 as [= -> ->]. split; [done|]. exists t, cc. split_and!; [done|done| |].
      * eapply step_new; eauto.
      * intros ->. rewrite countOf_bump, decide_True by done.
        destruct (es_c _ _ _ _ _ _ _ _ _ _ _ _ _ _ _ Hstep) as [(_ & -> & _)|Hn]; [lia|]. exfalso.
        by apply Hn, (tr_old _ _ _ _ Htr).
  - intros br' Hbr'. destruct (li_conds _ _ _ _ _ _ _ Hli br') as (H1 & H2 & H3 & H4); [by right|].
    split_and!; [done|done| |done]. rewrite <- H3. eapply kept_code; [exact Hstep|by apply Hdom|by apply Hin|]. congruence.
  - rewrite fmap_app. simpl. by rewrite <- (assoc_L (++)).
  - intros x. rewrite countOf_bump, (li_cnt _ _ _ _ _ _ _ Hli), (remaining_cons _ _ t) by done. case_decide; lia.
  - intros x Hx. rewrite countOf_bump in Hx.
    destruct (es_kept _ _ _ _ _ _ _ _ _ _ _ _ _ _ _ Hstep x) as [?|(-> & E & _)]; [|done|].
    + apply (li_succ _ _ _ _ _ _ _ Hli). case_decide; lia.
    + rewrite E, decide_True in Hx by done. lia.
  - intros x Hx. rewrite (es_pad _ _ _ _ _ _ _ _ _ _ _ _ _ _ _ Hstep) by (by apply (tr_old _ _ _ _ Htr)).
    by apply (li_pads _ _ _ _ _ _ _ Hli).
  - erewrite (step_terms C); [|exact Htr|exact Hstep|done]. rewrite decide_True, Hterms by done. by rewrite <- (assoc_L (++)).
  - destruct (li_post _ _ _ _ _ _ _ Hli) as [(-> & HU & Hnext)|(u & old & HU0 & -> & -> & Hus & Hj & Hud)].
    + destruct (es_us _ _ _ _ _ _ _ _ _ _ _ _ _ _ _ Hstep) as [(-> & -> & Hor)|(u & old & -> & -> & -> & _ & Ho & Hd & Hj)].
      * left. split_and!; [done|done|]. intros E. rewrite <- (Hnext E). destruct Hor as [[? ?]|[?|?]]; congruence.
      * right. exists u, old. split_and!; try done.
        -- unfold uncondTarget. rewrite <- HU, info_MBB_b, <- Ho. symmetry. by apply Hnext.
        -- intros Hx. by apply Hd, (tr_code _ _ _ _ Htr).
    + right. destruct (es_us _ _ _ _ _ _ _ _ _ _ _ _ _ _ _ Hstep) as [(-> & -> & Hor)|(v & old' & -> & -> & ? & _)]; [|done].
      exists u, old. split_and!; try done. eapply step_same; [exact Hstep|done|done|]. intros [= ->].
      by apply Hud, terminator_dom.
  - intros u Hu. destruct (li_uncond _ _ _ _ _ _ _ Hli u Hu) as [Hsame Hnot]. split.
    + rewrite <- Hsame. assert (u ∈ terminators C b s0) as Hut by by apply uncondBr_terminator.
      eapply kept_code; [exact Hstep|by apply Hdom|by apply Hin|]. intros [= ->]. apply Hnot. set_solver.
    + rewrite fmap_app. simpl. rewrite <- (assoc_L (++)). done.
  - intros y Hy. destruct (li_kinds _ _ _ _ _ _ _ Hli y Hy) as [<- <-].
    eapply kept_kind; [exact Hstep|by apply Hdom|by apply Hin].
Qed.

(** The conditions of a list of branches. *)
Definition condCodes (conds : list positive) : list Z := omap (fun br => getCondFromBranch C (f_instr br s0)) conds.

Lemma traceCondBrs_spec cm0 conds s acc D U cnt post seq :
  loopInv s (cm0 ++ acc) D conds U cnt post ->
  wp (traceCondBrs C InitialReg PoisonReg b conds cnt U seq acc) s (fun '(cnt', U', seq', acc') s' =>
    exists D' post', loopInv s' (cm0 ++ acc') D' [] U' cnt' post' /\ D'.*1 = D.*1 ++ conds /\
      seq' = seq ++ condCodes conds /\ others b s s' (cm0 ++ acc) (cm0 ++ acc')).
Proof.
  revert s acc D U cnt post seq. induction conds as [|br conds IH]; intros s acc D U cnt post seq Hli.
  - apply fwp_ret. exists D, post. rewrite !app_nil_r. split_and!; [done|done|done|apply others_refl].
  - destruct (li_conds _ _ _ _ _ _ _ Hli br) as (Hbr & (_ & _ & _ & cc & Hcc) & Hsame & t & Ht & _); [left|].
    destruct (cond_ready _ _ _ _ _ _ _ _ _ Hli Ht) as (Hsp & Hcnt & Htl).
    pose proof (li_tracing _ _ _ _ _ _ _ Hli) as Htr.
    cbn [traceCondBrs]. wp_step. wp_step. rewrite Hsame, Ht, Hcc. wp_step. apply fwp_ret. wp_step. apply fwp_ret. wp_step.
    eapply fwp_mono; [apply (edge_step C)|].
    + apply (tr_structured _ _ _ _ Htr).
    + exact Hsp.
    + apply (tr_initial _ _ _ _ Htr).
    + by eapply tracing_phiFree.
    + intros [U' CMovs] s1 (Hs1 & c & us & Hstep). cbn beta iota.
      destruct (cond_step _ _ _ _ _ _ _ _ _ _ _ _ _ _ _ Hli Ht Hcc Hstep Hs1) as [Hli' Hot].
      rewrite <- (assoc_L (++)) in Hli', Hot.
      eapply fwp_mono; [apply (IH _ _ _ _ _ _ (seq ++ [cc]) Hli')|].
      intros [[[cnt' U''] seq'] acc'] s2 (D' & post' & Hli2 & HD & -> & Hot2). exists D', post'. split_and!.
      * done.
      * rewrite HD, fmap_app. simpl. by rewrite <- (assoc_L (++)).
      * unfold condCodes. simpl. rewrite Hcc. by rewrite <- (assoc_L (++)).
      * by eapply others_trans.
Qed.

(** Counting the edges. *)
Lemma countSuccs_spec conds s cnt :
  (forall br, br ∈ conds -> f_instr br s = f_instr br s0 /\ is_Some (branchTarget (f_instr br s0))) ->
  wp (countSuccs conds cnt) s (fun cnt' s' => s' = s /\ forall x, countOf cnt' x = (countOf cnt x + Z.of_nat (remaining conds x))%Z).
Proof.
  revert cnt. induction conds as [|br conds IH]; intros cnt Hc.
  - apply fwp_ret. split; [done|]. intros x. unfold remaining. simpl. lia.
  - destruct (Hc br) as [Hsame [t Ht]]; [left|]. cbn [countSuccs]. wp_step. wp_step. rewrite Hsame, Ht. wp_step. apply fwp_ret.
    eapply fwp_mono; [apply IH; intros; apply Hc; by right|]. intros cnt' s' [-> Hcnt]. split; [done|].
    intros x. rewrite Hcnt, countOf_bump, (remaining_cons _ _ t) by done. case_decide; lia.
Qed.

(** ** A traced block *)

(** Every branch of the block and its remaining successor are checked; [U] and [post]
    say how the latter is reached. *)
Definition blockChecked (s : FState) (cm : list positive) : Prop :=
  exists U post,
    terminators C b s = terminators C b s0 ++ post /\
    (forall y, y ∈ terminators C b s0 ->
       getCondFromBranch C (f_instr y s) = getCondFromBranch C (f_instr y s0) /\ opcode (f_instr y s) = opcode (f_instr y s0)) /\
    (forall br, br ∈ CondBrs info -> exists c t cc, branchTarget (f_instr br s0) = Some t /\
       getCondFromBranch C (f_instr br s0) = Some cc /\
       checkedEdge s cm b (Some br) t [GetOppositeBranchCondition C cc] c) /\
    match usucc with
    | Some u => exists c, checkedEdge s cm b U u (sortUnique (condCodes (CondBrs info))) c /\
        ((post = [] /\ U = UncondBr info) \/
         (UncondBr info = None /\ exists j, U = Some j /\ post = [j] /\ isOpcode "JMP_1" (f_instr j s) = true))
    | None => post = []
    end.

Lemma blockChecked_others s s' cm cm' b' : b' <> b -> others b' s s' cm cm' -> blockChecked s cm -> blockChecked s' cm'.
Proof.
  intros Hne Hot (U & post & Ht & Hk & Hc & Hu).
  assert (forall y, y ∈ terminators C b s -> f_instr y s' = f_instr y s) as Hsame
    by (intros; eapply (ot_instr _ _ _ _ _ _ _ _ _ Hot b); [done|congruence|done]).
  assert (terminators C b s' = terminators C b s) as Ht' by (apply (ot_terms _ _ _ _ _ _ _ _ _ Hot); [done|congruence]).
  assert (forall y, y ∈ terminators C b s0 \/ y ∈ post -> y ∈ terminators C b s) as Hin by (intros; rewrite Ht; set_solver).
  exists U, post. split_and!.
  - by rewrite Ht'.
  - intros y Hy. rewrite Hsame by auto. by apply Hk.
  - intros br Hbr. destruct (Hc br Hbr) as (c & t & cc & H1 & H2 & Hck). exists c, t, cc. split_and!; [done|done|].
    apply (ot_checked _ _ _ _ _ _ _ _ _ Hot); [done|congruence| |done]. intros br1 [= <-]. apply Hin. left.
    destruct (blockCondInfo_spec C s0 b info Hinfo) as (_ & _ & _ & rest & -> & _).
    apply elem_of_app. left. by apply elem_of_reverse.
  - destruct usucc as [u|]; [|done]. destruct Hu as (c & Hck & Hor). exists c. split.
    + apply (ot_checked _ _ _ _ _ _ _ _ _ Hot); [done|congruence| |done]. intros br1 E. apply Hin.
      destruct Hor as [[_ HU]|(_ & j & HU & -> & _)].
      * left. apply uncondBr_terminator. congruence.
      * right. assert (br1 = j) as -> by congruence. by apply list_elem_of_singleton.
    + destruct Hor as [?|(? & j & -> & -> & Hj)]; [by left|right]. split; [done|]. exists j. split_and!; [done|done|].
      rewrite Hsame; [done|]. apply Hin. right. by apply list_elem_of_singleton.
Qed.

Definition padsKept (s : FState) : Prop := forall x, x ∈ layout s0 -> isEHPad (block x s) = isEHPad (block x s0).

(** The branch of the remaining successor is ready to be split. *)
Lemma uncond_ready s cm D U cnt post u :
  loopInv s cm D [] U cnt post -> usucc = Some u ->
  splittable C b u U U s /\ u ∈ layout s0 /\ countOf cnt u = 1%Z /\
  (forall br, U = Some br -> br ∈ instrs (block b s) /\ isTerm C s br = true /\ br ∉ D.*1 /\ isOpcode "JMP_1" (f_instr br s) = true).
Proof.
  intros Hli Hu. pose proof (li_tracing _ _ _ _ _ _ _ Hli) as Htr. pose proof (li_terms _ _ _ _ _ _ _ Hli) as Hterms.
  pose proof (wf_uncond C s0 Hwf b info Hb Hinfo) as Hw. rewrite Hu in Hw. destruct Hw as [Hus Hpad].
  assert (u ∈ layout s0) as Hul by (by eapply (wf_layout C s0 Hwf)).
  assert (countOf cnt u = 1%Z) as Hcnt.
  { rewrite (li_cnt _ _ _ _ _ _ _ Hli), decide_True by done. done. }
  assert (forall br, U = Some br -> br ∈ instrs (block b s) /\ isTerm C s br = true /\ br ∉ D.*1 /\
    isOpcode "JMP_1" (f_instr br s) = true /\ branchTarget (f_instr br s) = Some u) as HU.
  { intros br ->. destruct (li_post _ _ _ _ _ _ _ Hli) as [(-> & HU & _)|(v & old & HU & [= <-] & -> & Ho & Hj & Hd)].
    - assert (br ∈ terminators C b s0) as Hbr by by apply uncondBr_terminator.
      destruct (li_uncond _ _ _ _ _ _ _ Hli br (eq_sym HU)) as [-> Hnot]. rewrite app_nil_r in Hnot.
      destruct (term_in s [] br Hterms Hbr). unfold uncondTarget in Hu. rewrite <- HU in Hu.
      destruct (isOpcode "JMP_1" (f_instr br s0)); [|done]. done.
    - assert (br ∈ terminators C b s) as [? ?]%elem_of_terminators by (rewrite Hterms; set_solver).
      unfold f_instr. rewrite Hj. simpl. split_and!; [done|done| |done|change (Some old = Some u); congruence].
      intros ((br' & c) & -> & Hin)%list_elem_of_fmap. destruct (li_done _ _ _ _ _ _ _ Hli br' c Hin) as [Ht _].
      by apply Hd, terminator_dom. }
  split; [|split_and!; [done|done|intros; naive_solver]]. split_and!.
  - by apply (tr_old _ _ _ _ Htr).
  - by apply (tr_old _ _ _ _ Htr).
  - by rewrite (li_pads _ _ _ _ _ _ _ Hli).
  - apply (li_succ _ _ _ _ _ _ _ Hli). lia.
  - destruct U as [br|].
    + destruct (HU br eq_refl) as (Hin & Htm & _ & _ & Ht). split_and!; [|done|done|done].
      eapply (st_code s (tr_structured _ _ _ _ Htr) b); [by apply (tr_old _ _ _ _ Htr)|done].
    + split; [done|]. destruct (li_post _ _ _ _ _ _ _ Hli) as [(_ & HU0 & Hnext)|(v & old & _ & ? & _)]; [|done].
      rewrite (Hnext eq_refl). unfold uncondTarget in Hu. by rewrite <- HU0, info_MBB_b in Hu.
Qed.

Lemma uncond_step s cm D U cnt post u :
  loopInv s cm D [] U cnt post -> usucc = Some u -> D.*1 = CondBrs info ->
  wp (BuildCheckingBlockForSuccAndConds InitialReg PoisonReg b u 1 U U (sortUnique (condCodes (CondBrs info)))) s
    (fun '(_, CMovs) s' => tracing s' /\ padsKept s' /\ blockChecked s' (cm ++ CMovs) /\ others b s s' cm (cm ++ CMovs)).
Proof.
  intros Hli Hu HD. destruct (uncond_ready _ _ _ _ _ _ _ Hli Hu) as (Hsp & Hul & Hcnt & HU).
  pose proof (li_tracing _ _ _ _ _ _ _ Hli) as Htr. pose proof (li_terms _ _ _ _ _ _ _ Hli) as Hterms.
  eapply fwp_mono; [apply (edge_step C)|].
  - apply (tr_structured _ _ _ _ Htr).
  - exact Hsp.
  - apply (tr_initial _ _ _ _ Htr).
  - by eapply tracing_phiFree.
  - intros [U' CMovs] s' (Hs' & c & us & Hstep). pose proof Hsp as (Hbs & _ & _ & Hedge & _).
    assert (forall br, U = Some br -> br ∈ instrs (block b s) /\ isTerm C s br = true) as HBr by naive_solver.
    assert (forall y, y ∈ terminators C b s -> y ∈ dom (f_code s) /\ isTerm C s y = true) as Hdom.
    { intros y [Hy ?]%elem_of_terminators. split; [|done]. by eapply (st_code s (tr_structured _ _ _ _ Htr) b). }
    split_and!.
    + by eapply step_tracing.
    + intros x Hx. rewrite (es_pad _ _ _ _ _ _ _ _ _ _ _ _ _ _ _ Hstep) by (by apply (tr_old _ _ _ _ Htr)).
      by apply (li_pads _ _ _ _ _ _ _ Hli).
    + exists U, post. split_and!.
      * erewrite (step_terms C); [|exact Htr|exact Hstep|done]. rewrite decide_True, Hterms by done.
        destruct (es_us _ _ _ _ _ _ _ _ _ _ _ _ _ _ _ Hstep) as [(-> & _)|(v & old & _ & _ & -> & [? ?] & _)]; [|done].
        by rewrite app_nil_r.
      * intros y Hy. destruct (li_kinds _ _ _ _ _ _ _ Hli y Hy) as [<- <-].
        assert (y ∈ terminators C b s) as [??]%Hdom by (rewrite Hterms; set_solver). by eapply kept_kind.
      * intros br Hbr. rewrite <- HD in Hbr. apply list_elem_of_fmap in Hbr as ((br' & c1) & -> & Hin). simpl.
        destruct (li_done _ _ _ _ _ _ _ Hli br' c1 Hin) as (Hbr' & t1 & cc1 & Ht1 & Hcc1 & Hck & H0).
        exists c1, t1, cc1. split_and!; [done|done|].
        eapply step_checked; try done.
        -- intros _ E ->. specialize (H0 E). lia.
        -- intros br1 [= <-]. destruct (term_in s post br' Hterms Hbr'). split_and!; [done|done|]. intros E.
           destruct (HU _ E) as (_ & _ & Hnot & _). apply Hnot, list_elem_of_fmap. by exists (br', c1).
      * rewrite Hu. exists c. split; [by eapply step_new|].
        destruct (li_post _ _ _ _ _ _ _ Hli) as [(-> & HU0 & _)|(v & old & HU0 & -> & -> & _ & Hj & _)]; [by left|right].
        split; [done|]. exists v. split_and!; [done|done|].
        destruct (HBr v eq_refl) as [Hvi Hvt].
        assert (v ∈ terminators C b s) as [Hvd _]%Hdom by (rewrite Hterms; set_solver).
        destruct (kept_kind _ _ _ _ _ _ _ _ _ _ _ v Hstep Hvd Hvt) as [_ Hop]. unfold isOpcode. rewrite Hop.
        unfold f_instr. by rewrite Hj.
    + by eapply step_others.
Qed.

(** A block no step has worked on. *)
Record untouched (s : FState) : Prop := {
  un_terms : terminators C b s = terminators C b s0;
  un_instr y : y ∈ terminators C b s0 -> f_instr y s = f_instr y s0;
  un_next : layoutNext b s = layoutNext b s0;
  un_succ : successors (block b s) = successors (block b s0);
}.

Lemma remaining_pos conds x : (0 < remaining conds x)%nat -> exists br, br ∈ conds /\ branchTarget (f_instr br s0) = Some x.
Proof.
  unfold remaining. destruct (filter _ conds) as [|br l] eqn:E; simpl; [lia|]. intros _. exists br.
  assert (br ∈ filter (fun br => branchTarget (f_instr br s0) = Some x) conds) as [? ?]%list_elem_of_filter
    by (rewrite E; left). done.
Qed.

Lemma NoDup_termsOf p l : NoDup l -> NoDup (termsOf p l).
Proof.
  intros Hl. unfold termsOf. rewrite reverse_Permutation. destruct (prefixWhile_prefix p (reverse l)) as [r Hr].
  assert (NoDup (reverse l)) as Hn by by rewrite reverse_Permutation.
  rewrite Hr in Hn. by apply NoDup_app in Hn as (? & _ & _).
Qed.

Lemma info_conds br : br ∈ CondBrs info -> br ∈ terminators C b s0 /\ isCondBr C s0 br.
Proof.
  destruct (blockCondInfo_spec C s0 b info Hinfo) as (_ & _ & Hc & rest & -> & _). intros Hbr. split.
  - apply elem_of_app. left. by apply elem_of_reverse.
  - by apply (Forall_elem_of _ _ _ Hc).
Qed.

Lemma info_nodup : NoDup (CondBrs info) /\ (forall u, UncondBr info = Some u -> u ∉ CondBrs info).
Proof.
  assert (NoDup (terminators C b s0)) as Hn.
  { rewrite terminators_termsOf. apply NoDup_termsOf. by apply (st_instrs s0 (wf_structured C s0 Hwf)). }
  destruct (blockCondInfo_spec C s0 b info Hinfo) as (_ & _ & _ & rest & Ht & Hr). rewrite Ht in Hn.
  apply NoDup_app in Hn as (Hn & Hd & _). rewrite reverse_Permutation in Hn. split; [done|].
  intros u Hu Hin. rewrite Hu in Hr. destruct Hr as (_ & r & ->). apply (Hd u); [by apply elem_of_reverse|left].
Qed.

Lemma loop_start s cm cnt :
  tracing s -> padsKept s -> untouched s ->
  (forall x, countOf cnt x = (Z.of_nat (remaining (CondBrs info) x) + (if decide (usucc = Some x) then 1 else 0))%Z) ->
  loopInv s cm [] (CondBrs info) (UncondBr info) cnt [].
Proof.
  intros Htr Hp Hu Hcnt. destruct info_nodup as [Hnd Hnu]. constructor; try done.
  - intros br c Hin. by apply elem_of_nil in Hin.
  - intros br Hbr. destruct (info_conds br Hbr) as [Ht Hc]. split_and!; [done|done|by apply (un_instr s Hu)|].
    by apply (wf_cond C s0 Hwf b info).
  - intros x Hx. rewrite (un_succ s Hu). rewrite Hcnt in Hx. case_decide as E.
    + pose proof (wf_uncond C s0 Hwf b info Hb Hinfo) as Hw. rewrite E in Hw. apply Hw.
    + destruct (remaining_pos (CondBrs info) x) as (br & Hbr & Ht); [lia|].
      destruct (wf_cond C s0 Hwf b info br Hb Hinfo Hbr) as (t & Ht' & Hts & _). by simplify_eq.
  - rewrite (un_terms s Hu). by rewrite app_nil_r.
  - left. split_and!; [done|done|]. intros _. apply Hu.
  - intros u E. split; [|simpl; by apply Hnu]. apply (un_instr s Hu). by apply uncondBr_terminator.
  - intros y Hy. by rewrite (un_instr s Hu y Hy).
Qed.

Lemma unconditionalSuccessor_spec s : untouched s -> wp (unconditionalSuccessor info) s (fun o s' => o = usucc /\ s' = s).
Proof.
  intros Hu. pose proof (wf_uncond C s0 Hwf b info Hb Hinfo) as Hw. unfold unconditionalSuccessor, uncondTarget in *.
  rewrite info_MBB_b in *. destruct (UncondBr info) as [u|] eqn:E.
  - wp_step. wp_step. apply fwp_ret. by rewrite (un_instr s Hu u) by (by apply uncondBr_terminator).
  - wp_step. wp_step. rewrite (un_next s Hu). wp_step. destruct (layoutNext b s0) as [n|]; [|naive_solver].
    apply fwp_ret. by apply fwp_ret.
Qed.

Lemma traceBlock_spec s cm :
  tracing s -> padsKept s -> untouched s ->
  wp (traceBlock C InitialReg PoisonReg info) s (fun CMovs s' =>
    tracing s' /\ padsKept s' /\ blockChecked s' (cm ++ CMovs) /\ others b s s' cm (cm ++ CMovs)).
Proof.
  intros Htr Hp Hu. unfold traceBlock. wp_step. eapply fwp_mono; [by apply unconditionalSuccessor_spec|].
  intros o s1 [-> ->]. wp_step. eapply fwp_mono; [apply countSuccs_spec|].
  { intros br Hbr. destruct (info_conds br Hbr) as [Ht _]. split; [by apply (un_instr s Hu)|].
    destruct (wf_cond C s0 Hwf b info br Hb Hinfo Hbr) as (t & -> & _). eauto. }
  intros cnt s2 [-> Hcnt]. wp_step. rewrite info_MBB_b.
  assert (loopInv s (cm ++ []) [] (CondBrs info) (UncondBr info) cnt []) as Hli.
  { apply loop_start; [done|done|done|]. intros x. rewrite Hcnt. destruct usucc as [u|];
      [|rewrite decide_False by done; unfold countOf; rewrite lookup_empty; simpl; lia].
    rewrite countOf_bump. unfold countOf. rewrite lookup_empty. simpl. repeat case_decide; simplify_eq; lia. }
  eapply fwp_mono; [by eapply (traceCondBrs_spec cm)|]. rewrite app_nil_r.
  intros [[[cnt' U] seq] acc] s2 (D & post & Hli' & HD & -> & Hot). cbn beta iota. simpl in HD.
  destruct usucc as [u|] eqn:Eu.
  - destruct (uncond_ready _ _ _ _ _ _ _ Hli' Eu) as (_ & _ & Hc1 & _).
    wp_step. wp_step; [by rewrite Hc1|]. wp_step. eapply fwp_mono; [by apply (uncond_step _ _ _ _ _ _ _ Hli' Eu)|].
    intros [U' CMovs] s3 (Htr3 & Hp3 & Hbc & Hot3). apply fwp_ret. rewrite (assoc_L (++)).
    split_and!; [done|done|done|by eapply others_trans].
  - apply fwp_ret. split_and!; [exact (li_tracing _ _ _ _ _ _ _ Hli')|exact (li_pads _ _ _ _ _ _ _ Hli')| |done].
    exists U, post. split_and!; [exact (li_terms _ _ _ _ _ _ _ Hli')|exact (li_kinds _ _ _ _ _ _ _ Hli')| |].
    + intros br Hbr. rewrite <- HD in Hbr. apply list_elem_of_fmap in Hbr as ((br' & c) & -> & Hin).
      destruct (li_done _ _ _ _ _ _ _ Hli' br' c Hin) as (_ & t & cc & ? & ? & ? & _). eauto 10.
    + rewrite Eu. destruct (li_post _ _ _ _ _ _ _ Hli') as [(-> & _)|(v & old & _ & _ & _ & ? & _)]; [done|congruence].
Qed.
End Block.

(** ** All the blocks *)
Lemma traceBlocks_spec Infos s cm :
  tracing s -> padsKept s -> NoDup (info_MBB <$> Infos) ->
  (forall info, info ∈ Infos -> info_MBB info ∈ layout s0 /\ blockCondInfo C s0 (info_MBB info) = Some info /\ untouched (info_MBB info) s) ->
  wp (tracePredStateThroughCFG C InitialReg PoisonReg Infos) s (fun CMovs s' =>
    (forall info, info ∈ Infos -> blockChecked (info_MBB info) info s' (cm ++ CMovs)) /\
    (forall b, b ∈ layout s0 -> b ∉ info_MBB <$> Infos -> untouched b s -> untouched b s') /\
    (forall b info, b ∈ layout s0 -> b ∉ info_MBB <$> Infos -> blockCondInfo C s0 b = Some info ->
       blockChecked b info s cm -> blockChecked b info s' (cm ++ CMovs))).
Proof.
  revert s cm. induction Infos as [|info Infos IH]; intros s cm Htr Hp Hnd Hi.
  - apply fwp_ret. rewrite app_nil_r. split_and!; [intros info Hin; by apply elem_of_nil in Hin|done|done].
  - destruct (Hi info) as (Hb & Hinfo & Hu); [left|]. apply NoDup_cons in Hnd as [Hnin Hnd].
    set (b := info_MBB info) in *.
    assert (forall b' s1 s2 cm1 cm2, b' ∈ layout s0 -> b' <> b -> others b s1 s2 cm1 cm2 -> untouched b' s1 -> untouched b' s2) as Hun.
    { intros b' s1 s2 cm1 cm2 Hb' Hne Hot [Ht Hy Hn Hs]. constructor.
      - by rewrite (ot_terms _ _ _ _ _ _ _ _ _ Hot).
      - intros y Hyin. rewrite (ot_instr _ _ _ _ _ _ _ _ _ Hot b' y); [by apply Hy|done|done|by rewrite Ht].
      - by rewrite (ot_next _ _ _ _ _ _ _ _ _ Hot).
      - by rewrite (ot_succ _ _ _ _ _ _ _ _ _ Hot). }
    cbn [tracePredStateThroughCFG]. wp_step. eapply fwp_mono; [by apply (traceBlock_spec b info Hb Hinfo s cm)|].
    intros CMovs s1 (Htr1 & Hp1 & Hbc & Hot). wp_step. eapply fwp_mono; [apply (IH s1 (cm ++ CMovs) Htr1 Hp1 Hnd)|].
    { intros info' Hin. destruct (Hi info') as (Hb' & Hinfo' & Hu'); [by right|]. split_and!; [done|done|].
      eapply Hun; [done| |done|done]. intros E. apply Hnin. fold b. rewrite <- E. by apply list_elem_of_fmap_2. }
    intros CMovs' s2 (Hall & Hunt & Hkept). apply fwp_ret. rewrite (assoc_L (++)). split_and!.
    + intros info' [->|Hin]%elem_of_cons; [|by apply Hall]. by apply Hkept.
    + intros b' Hb' Hn Hu'. simpl in Hn. apply not_elem_of_cons in Hn as [Hne Hn]. apply Hunt; [done|done|by eapply Hun].
    + intros b' info' Hb' Hn Hi' Hbc'. simpl in Hn. apply not_elem_of_cons in Hn as [Hne Hn].
      apply Hkept; [done|done|done|]. eapply blockChecked_others; [exact Hb'|exact Hi'| |exact Hot|exact Hbc']. by intros E; apply Hne.
Qed.
End Trace.
