(* ===== verification/SlhPoison.v ===== *)
(** * The checks on the edges: what they do to the predicate state

    The edges a block can be left through, in the order its terminators are tried, the
    value of the predicate state behind the checks of a block, and the theorem on
    [tracePredStateThroughCFG]: every edge out of an analysed branch passes a check that
    keeps the state on the edge the flags select.  On another edge it poisons the state when
    the condition it tests does not hold, as is always the case in a block with one
    condition. *)
From stdpp Require Import base countable gmap sets list option strings sorting.
From Stdlib Require Import ZArith Lia.
From S2P Require Import Prelude Machine Slh SlhCfg SlhEdges SlhChecked SlhTrace.

(** Sorting and dropping duplicates keeps the conditions. *)
Lemma elem_of_uniqueAdjacent l x : x ∈ uniqueAdjacent l <-> x ∈ l.
Proof.
  induction l as [|y l IH]; [done|]. cbn [uniqueAdjacent]. destruct l as [|z l]; [done|].
  destruct (y =? z)%Z eqn:E; [apply Z.eqb_eq in E as ->|]; rewrite ?elem_of_cons, IH, !elem_of_cons; naive_solver.
Qed.

Lemma elem_of_sortUnique l x : x ∈ sortUnique l <-> x ∈ l.
Proof. unfold sortUnique. rewrite elem_of_uniqueAdjacent. by rewrite merge_sort_Permutation. Qed.

Lemma existsb_ext (p : Z -> bool) l1 l2 : (forall x, x ∈ l1 <-> x ∈ l2) -> existsb p l1 = existsb p l2.
Proof.
  intros Hx. apply eq_bool_prop_intro. rewrite !Is_true_true, !existsb_exists.
  split; intros (x & Hin & Hp); exists x; (split; [|done]); apply list_elem_of_In, Hx; by apply list_elem_of_In.
Qed.

Lemma forallb_negb (p : Z -> bool) l : forallb (fun c => negb (p c)) l = negb (existsb p l).
Proof. induction l as [|x l IH]; [done|]. simpl. rewrite IH. by destruct (p x). Qed.

Section Semantics.
Context (C : CfgTarget).
Variable InitialReg PoisonReg : reg.

(** The edges behind a list of terminators: a condition and a block. *)
Fixpoint edgesFrom (s : FState) (b : positive) (l : list positive) : list (option Z * positive) :=
  match l with
  | [] => match layoutNext b s with Some n => [(None, n)] | None => [] end
  | x :: l =>
    if isOpcode "JMP_1" (f_instr x s) then match branchTarget (f_instr x s) with Some t => [(None, t)] | None => [] end
    else match getCondFromBranch C (f_instr x s), branchTarget (f_instr x s) with
      | Some c, Some t => (Some c, t) :: edgesFrom s b l
      | _, _ => []
      end
  end.

Definition edges (s : FState) (b : positive) : list (option Z * positive) := edgesFrom s b (terminators C b s).

(** Execution at the head of a block: registers with a known value, and the flags until
    they are defined again.  The initial register stands for the state on entry, the
    value the SSA updater puts in its place. *)
Context {Flags : Type} (holds : Z -> Flags -> bool).

Definition getImm (o : MOperand) : Z := match mo_kind o with OImm z => z | _ => 0%Z end.

Definition cmovResult (env : gmap reg Z) (fl : option Flags) (i : MInstr) : option (reg * option Z) :=
  match (if isOpcode "CMOV64rr" i then mi_ops i else []), fl with
  | d :: a :: p :: cc :: _, Some f =>
    if isReg d && isDef d then Some (getReg d, env !! getReg (if holds (getImm cc) f then p else a)) else None
  | _, _ => None
  end.

Definition execInstr (st : gmap reg Z * option Flags) (i : MInstr) : gmap reg Z * option Flags :=
  let '(env, fl) := st in
  let env' := foldr delete env (defsOf i) in
  (match cmovResult env fl i with Some (d, w) => partial_alter (fun _ => w) d env' | None => env' end,
   if decide (EFLAGS ∈ defsOf i) then None else fl).

(** The state a block hands on, entered with state [v] and flags [f]. *)
Definition stateAfter (s : FState) (c : positive) (f : Flags) (v : Z) : option Z :=
  match available s !! c with
  | Some r => (foldl execInstr (<[PoisonReg := (-1)%Z]> {[InitialReg := v]}, Some f)
                 ((fun x => f_instr x s) <$> instrs (block c s))).1 !! r
  | None => Some v
  end.

(** What the check of an edge tests: that the edge's own condition holds or, on the edge
    taken last, that none of the block's does. *)
Definition checkPasses (conds : list Z) (c : option Z) (f : Flags) : bool :=
  match c with
  | Some c => holds c f
  | None => forallb (fun c => negb (holds c f)) conds
  end.

(** The edge execution takes: the terminators are tried in order. *)
Fixpoint selected (es : list (option Z * positive)) (f : Flags) : option nat :=
  match es with
  | [] => None
  | (None, _) :: _ => Some 0%nat
  | (Some c, _) :: es => if holds c f then Some 0%nat else S <$> selected es f
  end.

Lemma edgesFrom_shape s b l : exists cs last,
  edgesFrom s b l = ((fun p => (Some p.1, p.2)) <$> cs) ++ last /\ (last = [] \/ exists t, last = [(None, t)]).
Proof.
  induction l as [|x l (cs & lst & He & Hl)]; cbn [edgesFrom].
  - exists [], (match layoutNext b s with Some n => [(None, n)] | None => [] end). split; [done|].
    destruct (layoutNext b s); eauto.
  - destruct (isOpcode "JMP_1" (f_instr x s)).
    + exists [], (match branchTarget (f_instr x s) with Some t => [(None, t)] | None => [] end). split; [done|].
      destruct (branchTarget (f_instr x s)); eauto.
    + destruct (getCondFromBranch C (f_instr x s)) as [c|]; [|by exists [], []; auto].
      destruct (branchTarget (f_instr x s)) as [t|]; [|by exists [], []; auto].
      exists ((c, t) :: cs), lst. by rewrite He.
Qed.

(** The check of the edge that is taken passes. *)
Lemma selected_passes s b f i e :
  selected (edges s b) f = Some i -> edges s b !! i = Some e -> checkPasses (omap fst (edges s b)) e.1 f = true.
Proof.
  unfold edges. destruct (edgesFrom_shape s b (terminators C b s)) as (cs & lst & -> & Hl).
  assert (omap fst (((fun p : Z * positive => (Some p.1, p.2)) <$> cs) ++ lst) = cs.*1) as ->.
  { rewrite omap_app. assert (omap fst lst = []) as -> by (by destruct Hl as [->|[t ->]]). rewrite app_nil_r.
    induction cs as [|[c t] cs IH]; [done|]. cbn. by rewrite IH. }
  assert (forall conds, (forall c, c ∈ conds -> c ∈ cs.*1 \/ holds c f = false) ->
    selected (((fun p : Z * positive => (Some p.1, p.2)) <$> cs) ++ lst) f = Some i ->
    (((fun p : Z * positive => (Some p.1, p.2)) <$> cs) ++ lst) !! i = Some e -> checkPasses conds e.1 f = true) as H.
  { revert i. induction cs as [|[c t] cs IH]; intros i conds Hc Hs He.
    - destruct Hl as [->|[t ->]]; [done|]. simpl in Hs. injection Hs as <-. simpl in He. injection He as <-. simpl.
      apply forallb_forall. intros x Hx%list_elem_of_In. destruct (Hc x Hx) as [?%elem_of_nil| ->]; done.
    - simpl in Hs. destruct (holds c f) eqn:Eh; [injection Hs as <-; simpl in He; by injection He as <-|].
      destruct (selected _ f) as [j|] eqn:Ej; [|done]. injection Hs as <-. apply (IH j); [|done|done].
      intros x Hx. destruct (Hc x Hx) as [[->|?]%elem_of_cons|?]; auto. }
  apply H. auto.
Qed.

(** With one condition the check of the other edge does not pass. *)
Lemma selected_only s b f i j e c :
  omap fst (edges s b) = [c] -> selected (edges s b) f = Some i -> edges s b !! j = Some e -> j <> i ->
  checkPasses [c] e.1 f = false.
Proof.
  unfold edges. destruct (edgesFrom_shape s b (terminators C b s)) as (cs & lst & -> & Hl).
  rewrite omap_app. assert (omap fst lst = []) as -> by (by destruct Hl as [->|[t ->]]). rewrite app_nil_r.
  destruct cs as [|[c1 t1] [|[c2 t2] cs]]; [done| |done]. simpl. intros [= <-].
  destruct Hl as [->|[t ->]]; simpl; destruct (holds c1 f) eqn:Eh; try done; intros [= <-] He Hj;
    destruct j as [|[|j]]; try done; injection He as <-; simpl; by rewrite ?Eh.
Qed.

Lemma foldr_delete_notin (env : gmap reg Z) l r : r ∉ l -> foldr delete env l !! r = env !! r.
Proof.
  induction l as [|q l IH]; [done|]. intros [Hq Hr]%not_elem_of_cons. simpl.
  rewrite lookup_delete_ne by done. by apply IH.
Qed.

Lemma execInstr_keeps st i r : r ∉ defsOf i -> (execInstr st i).1 !! r = st.1 !! r.
Proof.
  destruct st as [env fl]. intros Hr. unfold execInstr. cbn [fst].
  destruct (cmovResult env fl i) as [[d w]|] eqn:E; [|by apply foldr_delete_notin].
  rewrite lookup_partial_alter_ne; [by apply foldr_delete_notin|]. intros ->. apply Hr, elem_of_defsOf.
  unfold cmovResult in E. destruct (if isOpcode "CMOV64rr" i then mi_ops i else []) as [|d' [|a [|p [|cc l]]]] eqn:Eops;
    try done. destruct fl; [|done]. destruct (isReg d' && isDef d') eqn:Ed; [|done].
  apply andb_true_iff in Ed as [? ?]. injection E as <- _. exists d'. split_and!; [|done|done|done].
  destruct (isOpcode "CMOV64rr" i); [rewrite Eops; left|done].
Qed.

Lemma execs_keep st l r : (forall i, i ∈ l -> r ∉ defsOf i) -> (foldl execInstr st l).1 !! r = st.1 !! r.
Proof.
  revert st. induction l as [|i l IH]; intros st Hl; [done|]. simpl. rewrite IH by (intros; apply Hl; by right).
  apply execInstr_keeps. apply Hl. left.
Qed.

Lemma defsOf_cmov r cur c k : defsOf (cmovOf PoisonReg r cur c k) = [r].
Proof. unfold defsOf, cmovOf. simpl. by destruct k. Qed.

(** One check. *)
Lemma exec_cmov env f r cur c k :
  r <> EFLAGS -> execInstr (env, Some f) (cmovOf PoisonReg r cur c k) =
    (partial_alter (fun _ => env !! (if holds c f then PoisonReg else cur)) r (delete r env), Some f).
Proof.
  intros Hr. unfold execInstr. rewrite defsOf_cmov. rewrite decide_False by (intros ?%list_elem_of_singleton; congruence).
  unfold cmovResult. assert (isOpcode "CMOV64rr" (cmovOf PoisonReg r cur c k) = true) as -> by done.
  cbn. by destruct (holds c f).
Qed.

#[local] Arguments execInstr : simpl never.

(** The sequence of checks: poison if any condition holds, the state on entry otherwise. *)
Lemma exec_chain s xs cur conds rs env f v :
  cmovChain PoisonReg (f_code s) xs cur conds rs -> NoDup rs -> cur ∉ rs -> PoisonReg ∉ rs -> EFLAGS ∉ rs ->
  env !! cur = Some v -> env !! PoisonReg = Some (-1)%Z ->
  exists env', foldl execInstr (env, Some f) ((fun x => f_instr x s) <$> xs) = (env', Some f) /\
    env' !! default cur (last rs) = Some (if existsb (fun c => holds c f) conds then -1 else v)%Z.
Proof.
  revert cur conds rs env v. induction xs as [|x xs IH]; intros cur [|c conds] [|r rs] env v; cbn [cmovChain]; try done.
  - intros _ _ _ _ _ Hv _. exists env. done.
  - intros [[k Hx] Hch] [Hr Hnd]%NoDup_cons [Hcur Hcurs]%not_elem_of_cons [Hp Hps]%not_elem_of_cons
      [He Hes]%not_elem_of_cons Hv Hpv.
    rewrite fmap_cons. cbn [foldl].
    assert (f_instr x s = cmovOf PoisonReg r cur c k) as -> by (unfold f_instr; by rewrite Hx).
    rewrite exec_cmov by done.
    destruct (IH r conds rs (partial_alter (fun _ => env !! (if holds c f then PoisonReg else cur)) r (delete r env))
      (if holds c f then -1 else v)%Z) as (env' & -> & Hres); try done.
    + rewrite lookup_partial_alter_eq. by destruct (holds c f).
    + rewrite lookup_partial_alter_ne, lookup_delete_ne by done. done.
    + exists env'. split; [done|].
      assert (default cur (last (r :: rs)) = default r (last rs)) as -> by (rewrite last_cons; by destruct (last rs)).
      rewrite Hres. f_equal. simpl. destruct (holds c f); simpl; [by destruct (existsb _ _)|done].
Qed.

(** The state behind a checked edge. *)
Lemma checkedEdge_state s0 s cm b Br t conds c f v :
  checkedEdge C InitialReg PoisonReg s0 s cm b Br t conds c -> InitialReg <> PoisonReg -> conds <> [] ->
  stateAfter s c f v = Some (if existsb (fun c => holds c f) conds then -1 else v)%Z.
Proof.
  intros Hck Hne Hconds. destruct (ck_checks _ _ _ _ _ _ _ _ _ _ _ Hck) as (xs & rs & rest & Hi & Hch & Hnd & Hrs & Hrest & Hav & _).
  unfold stateAfter. rewrite Hav, Hi, fmap_app, foldl_app.
  destruct (exec_chain s xs InitialReg conds rs (<[PoisonReg := (-1)%Z]> {[InitialReg := v]}) f v) as (env & -> & Hres).
  - done.
  - done.
  - intros Hin. by destruct (Hrs _ Hin).
  - intros Hin. by destruct (Hrs _ Hin) as (_ & ? & _).
  - intros Hin. by destruct (Hrs _ Hin) as (_ & _ & ?).
  - rewrite lookup_insert_ne by done. apply lookup_singleton_eq.
  - apply lookup_insert_eq.
  - destruct rs as [|r rs].
    + by destruct xs, conds.
    + rewrite execs_keep; [exact Hres|]. intros i Hin Hd. apply list_elem_of_fmap in Hin as (y & -> & Hy).
      apply (Hrest y _ Hy Hd). assert (is_Some (last (r :: rs))) as [q Hq] by (by apply last_is_Some).
      rewrite Hq. simpl. by apply last_Some_elem_of.
Qed.

(** *** From a checked block to its edges *)
Lemma edgesFrom_app (P : option Z * positive -> option Z * positive -> Prop) s s' b cs rest rest' :
  (forall br, br ∈ cs -> isOpcode "JMP_1" (f_instr br s) = false /\ opcode (f_instr br s') = opcode (f_instr br s) /\
     exists cc t c, getCondFromBranch C (f_instr br s) = Some cc /\ getCondFromBranch C (f_instr br s') = Some cc /\
       branchTarget (f_instr br s) = Some t /\ branchTarget (f_instr br s') = Some c /\ P (Some cc, t) (Some cc, c)) ->
  Forall2 P (edgesFrom s b rest) (edgesFrom s' b rest') ->
  Forall2 P (edgesFrom s b (cs ++ rest)) (edgesFrom s' b (cs ++ rest')).
Proof.
  intros Hcs Hr. induction cs as [|br cs IH]; [done|]. cbn [app edgesFrom].
  destruct (Hcs br) as (Hj & Hop & cc & t & c & Hc & Hc' & Ht & Ht' & HP); [left|].
  assert (isOpcode "JMP_1" (f_instr br s') = false) as -> by (unfold isOpcode in *; by rewrite Hop).
  rewrite Hj, Hc, Hc', Ht, Ht'. constructor; [done|]. apply IH. intros. apply Hcs. by right.
Qed.

Lemma edgesFrom_conds s b cs rest :
  (forall br, br ∈ cs -> isOpcode "JMP_1" (f_instr br s) = false /\ is_Some (branchTarget (f_instr br s)) /\
     is_Some (getCondFromBranch C (f_instr br s))) ->
  omap fst (edgesFrom s b (cs ++ rest)) = condCodes C s cs ++ omap fst (edgesFrom s b rest).
Proof.
  intros Hcs. induction cs as [|br cs IH]; [done|]. cbn [app edgesFrom].
  destruct (Hcs br) as (-> & [t ->] & [cc Hc]); [left|]. rewrite Hc. unfold condCodes. simpl. rewrite Hc. simpl. f_equal.
  apply IH. intros. apply Hcs. by right.
Qed.

Lemma leadsTo_edges s c t : leadsTo C c t s -> edges s c = [(None, t)].
Proof.
  unfold edges. intros [[-> Hn]|(v & -> & Hj)]; simpl; [by rewrite Hn|]. rewrite Hj. done.
Qed.

(** An edge of the function before, and what it has become. *)
Definition edgeChecked (s s' : FState) (CMovs : list positive) (b : positive) (e e' : option Z * positive) : Prop :=
  e'.1 = e.1 /\
  (e'.2 = e.2 \/ (e'.2 ∉ layout s /\ edges s' e'.2 = [(None, e.2)])) /\
  (exists x, head (instrs (block e'.2 s')) = Some x /\ x ∈ CMovs) /\
  (forall f v, stateAfter s' e'.2 f v = Some (if checkPasses (omap fst (edges s b)) e.1 f then v else -1)%Z).

Lemma checkedEdge_edge s s' cm b Br t conds c e :
  checkedEdge C InitialReg PoisonReg s s' cm b Br t conds c -> InitialReg <> PoisonReg -> conds <> [] ->
  (forall f, checkPasses (omap fst (edges s b)) e f = negb (existsb (fun c => holds c f) conds)) ->
  edgeChecked s s' cm b (e, t) (e, c).
Proof.
  intros Hck Hne Hconds He. split_and!; simpl.
  - done.
  - destruct (ck_leads _ _ _ _ _ _ _ _ _ _ _ Hck) as [[-> _]|[? Hl]]; [by left|right]. split; [done|]. by apply leadsTo_edges.
  - destruct (ck_checks _ _ _ _ _ _ _ _ _ _ _ Hck) as ([|x xs] & rs & rest & Hi & Hch & _ & _ & _ & _ & Hcm).
    + by destruct conds, rs.
    + exists x. rewrite Hi. split; [done|]. apply Hcm. left.
  - intros f v. rewrite (checkedEdge_state _ _ _ _ _ _ _ _ f v Hck Hne Hconds), He. by destruct (existsb _ _).
Qed.
End Semantics.

(** ** The theorem *)

(** The opposite of a branch's condition, as documented. *)
Class CondLaws (C : CfgTarget) {Flags : Type} (holds : Z -> Flags -> bool) : Prop :=
  opposite_holds i c f : getCondFromBranch C i = Some c -> holds (GetOppositeBranchCondition C c) f = negb (holds c f).

Section Result.
Context (C : CfgTarget) {HC : TargetLaws C} {Flags : Type} (holds : Z -> Flags -> bool) {HF : CondLaws C holds}.
Variable InitialReg PoisonReg : reg.

Abbreviation edges := (edges C).
Abbreviation edgeChecked := (edgeChecked C InitialReg PoisonReg holds).
Abbreviation stateAfter := (stateAfter InitialReg PoisonReg holds).

Lemma blockChecked_edges s s' cm b info :
  wellFormed C s -> InitialReg <> PoisonReg -> b ∈ layout s -> blockCondInfo C s b = Some info ->
  blockChecked C InitialReg PoisonReg s b info s' cm -> Forall2 (edgeChecked s s' cm b) (edges s b) (edges s' b).
Proof.
  intros Hwf Hne Hb Hinfo (U & post & Hterms & Hkinds & Hcond & Hu).
  destruct (blockCondInfo_spec C s b info Hinfo) as (HMBB & Hnil & Hall & rest & Ht & Hrest).
  assert (forall br, br ∈ reverse (CondBrs info) -> br ∈ terminators C b s /\ isCondBr C s br) as Hbr
    by (intros br Hin; apply (info_conds C s b info Hinfo); by rewrite elem_of_reverse in Hin).
  assert (omap fst (edges s b) = condCodes C s (reverse (CondBrs info)) ++ omap fst (edgesFrom C s b rest)) as Hcodes.
  { unfold SlhPoison.edges. rewrite Ht. apply edgesFrom_conds. intros br Hin. destruct (Hbr br Hin) as (_ & _ & _ & Hj & Hc).
    split_and!; [done| |done]. rewrite elem_of_reverse in Hin.
    destruct (wf_cond C s Hwf b info br Hb Hinfo Hin) as (t & -> & _). eauto. }
  unfold SlhPoison.edges at 1 2. rewrite Hterms, Ht, <- (assoc_L (++)). apply edgesFrom_app.
  - intros br Hin. destruct (Hbr br Hin) as (Hbt & _ & _ & Hj & Hc). destruct (Hkinds br Hbt) as [Hk Hop].
    rewrite elem_of_reverse in Hin. destruct (Hcond br Hin) as (c & t & cc & Htt & Hcc & Hck).
    split_and!; [done|done|]. exists cc, t, c. split_and!; [done|by rewrite Hk|done|exact (ck_goes _ _ _ _ _ _ _ _ _ _ _ Hck)|].
    eapply checkedEdge_edge; [exact Hck|done|done|]. intros f. simpl. rewrite orb_false_r.
    rewrite (opposite_holds (f_instr br s)) by done. by rewrite negb_involutive.
  - assert (forall c u, checkedEdge C InitialReg PoisonReg s s' cm b U u (sortUnique (condCodes C s (CondBrs info))) c ->
      omap fst (edgesFrom C s b rest) = [] -> edgeChecked s s' cm b (None, u) (None, c)) as Hlast.
    { intros c u Hck Hnone. eapply checkedEdge_edge; [exact Hck|done| |].
      - destruct (CondBrs info) as [|br l] eqn:E; [done|]. destruct (Hcond br) as (_ & _ & cc & _ & Hcc & _); [left|]. intros Hs.
        assert (cc ∈ sortUnique (condCodes C s (br :: l))) as Hcin; [|rewrite Hs in Hcin; by apply elem_of_nil in Hcin].
        apply elem_of_sortUnique. unfold condCodes. simpl. rewrite Hcc. left.
      - intros f. cbn [checkPasses]. rewrite forallb_negb. f_equal. apply existsb_ext. intros x.
        rewrite elem_of_sortUnique, Hcodes, Hnone, app_nil_r. unfold condCodes. rewrite !list_elem_of_omap.
        by setoid_rewrite elem_of_reverse. }
    assert (UncondBr info = None -> rest = []) as Hrest0 by (intros E; by rewrite E in Hrest).
    unfold uncondTarget in Hu. destruct (UncondBr info) as [u0|] eqn:EU.
    + destruct Hrest as ([Htu Hor] & r & ->).
      assert (u0 ∈ terminators C b s) as Hu0 by (rewrite Ht; set_solver).
      destruct (Hkinds u0 Hu0) as [Hk Hop].
      assert (isOpcode "JMP_1" (f_instr u0 s') = isOpcode "JMP_1" (f_instr u0 s)) as Hj' by (unfold isOpcode; by rewrite Hop).
      cbn [app edgesFrom]. rewrite Hj'. destruct (isOpcode "JMP_1" (f_instr u0 s)) eqn:Ej.
      * destruct (branchTarget (f_instr u0 s)) as [t|] eqn:Etarget.
        -- destruct Hu as (c & Hck & [[-> ->]|[? _]]); [|done].
           pose proof (ck_goes _ _ _ _ _ _ _ _ _ _ _ Hck) as Hg. simpl in Hg. rewrite Hg. constructor; [|constructor].
           apply Hlast; [done|]. cbn [edgesFrom]. by rewrite Ej, Etarget.
        -- pose proof (wf_uncond C s Hwf b info Hb Hinfo) as Hw. unfold uncondTarget in Hw. rewrite EU, Ej, Etarget in Hw.
           destruct Hw as (u & [= <-] & ?). congruence.
      * destruct Hor as [?|Hnone]; [congruence|]. rewrite Hk, Hnone. constructor.
    + rewrite (Hrest0 eq_refl) in *. rewrite HMBB in Hu. destruct (layoutNext b s) as [n|] eqn:En.
      * destruct Hu as (c & Hck & Hor). pose proof (ck_goes _ _ _ _ _ _ _ _ _ _ _ Hck) as Hg.
        assert (omap fst (edgesFrom C s b []) = []) as Hnone by (simpl; by rewrite En).
        destruct Hor as [[-> ->]|(_ & j & -> & -> & Hj)]; simpl in *; rewrite En.
        -- rewrite Hg. constructor; [|constructor]. by apply Hlast.
        -- rewrite Hj, Hg. constructor; [|constructor]. by apply Hlast.
      * pose proof (wf_uncond C s Hwf b info Hb Hinfo) as Hw. unfold uncondTarget in Hw. rewrite EU, HMBB, En in Hw. naive_solver.
Qed.

(** The states behind the edges, by the edge that is taken. *)
Lemma edges_states s s' cm b : Forall2 (edgeChecked s s' cm b) (edges s b) (edges s' b) ->
  Forall2 (edgeChecked s s' cm b) (edges s b) (edges s' b) /\
  forall f i, selected holds (edges s b) f = Some i ->
    (forall e', edges s' b !! i = Some e' -> forall v, stateAfter s' e'.2 f v = Some v) /\
    (length (omap fst (edges s b)) = 1 ->
     forall j e', edges s' b !! j = Some e' -> j <> i -> forall v, stateAfter s' e'.2 f v = Some (-1)%Z).
Proof.
  intros H. split; [done|]. intros f i Hi. split.
  - intros e' He' v. destruct (Forall2_lookup_r _ _ _ _ _ H He') as (e & He & _ & _ & _ & ->).
    by rewrite (selected_passes C holds s b f i e).
  - intros H1 j e' He' Hj v. destruct (Forall2_lookup_r _ _ _ _ _ H He') as (e & He & _ & _ & _ & ->).
    destruct (omap fst (edges s b)) as [|c [|]] eqn:Ec; try done. by rewrite (selected_only C holds s b f i j e c).
Qed.

(** C5: on a well-formed function with fresh state registers the tracing of the predicate
    state fails no assertion, and afterwards every edge out of an analysed branch block (to
    the target of one of its direct branches, or to the next block), in the order the
    terminators are tried and with its condition, enters a check: the old target, or a new
    block whose only way out is the old target.  The check starts with one of the returned
    cmovs; it hands on the state it got when the edge's own condition holds (on the last
    edge, when none does) and the poison otherwise.  So the state survives on the edge the
    flags select, and in a block with one condition every other edge poisons it.  In a block
    with more conditions another edge keeps the state when its own condition holds too,
    see [second_branch_unchecked].  An entry through an indirect branch is no edge here; a
    check in a block that both enter applies to it as well, see [indirect_entry_poisoned].
    The blocks that are not analysed keep their edges. *)
Theorem edges_checked s :
  wellFormed C s -> oldReg InitialReg s -> oldReg PoisonReg s -> InitialReg <> PoisonReg ->
  exists CMovs s', tracePredStateThroughCFG C InitialReg PoisonReg (collectBlockCondInfo C s) s = inr (CMovs, s') /\
    (forall b info, b ∈ layout s -> blockCondInfo C s b = Some info ->
       Forall2 (edgeChecked s s' CMovs b) (edges s b) (edges s' b) /\
       forall f i, selected holds (edges s b) f = Some i ->
         (forall e', edges s' b !! i = Some e' -> forall v, stateAfter s' e'.2 f v = Some v) /\
         (length (omap fst (edges s b)) = 1 ->
          forall j e', edges s' b !! j = Some e' -> j <> i -> forall v, stateAfter s' e'.2 f v = Some (-1)%Z)) /\
    (forall b, b ∈ layout s -> blockCondInfo C s b = None -> edges s' b = edges s b).
Proof.
  intros Hwf Hi Hp Hne.
  assert (tracing InitialReg PoisonReg s s) as Htr by (constructor; try done; [apply Hwf|apply Hwf]).
  assert (forall b, untouched C s b s) as Hun by (intros b; by constructor).
  assert (forall info, info ∈ collectBlockCondInfo C s -> info_MBB info ∈ layout s /\ blockCondInfo C s (info_MBB info) = Some info) as Hin.
  { intros info (b & Hb & Hinfo)%list_elem_of_omap. destruct (blockCondInfo_spec C s b info Hinfo) as (-> & _). done. }
  assert (forall b, b ∈ info_MBB <$> collectBlockCondInfo C s <-> b ∈ layout s /\ is_Some (blockCondInfo C s b)) as HMBB.
  { intros b. rewrite list_elem_of_fmap. split.
    - intros (info & -> & Hinfo). destruct (Hin info Hinfo) as [? ->]. eauto.
    - intros [Hb [info Hinfo]]. exists info. destruct (blockCondInfo_spec C s b info Hinfo) as (-> & _).
      split; [done|]. apply list_elem_of_omap. eauto. }
  assert (NoDup (info_MBB <$> collectBlockCondInfo C s)) as Hnd.
  { assert (forall l : list positive, info_MBB <$> omap (blockCondInfo C s) l = filter (fun b => is_Some (blockCondInfo C s b)) l) as Hf.
    { induction l as [|b l IH]; [done|]. csimpl. destruct (blockCondInfo C s b) as [info|] eqn:E.
      - rewrite filter_cons_True by (rewrite E; eauto). csimpl. rewrite IH.
        destruct (blockCondInfo_spec C s b info E) as (-> & _). done.
      - rewrite filter_cons_False by (rewrite E; by intros [? ?]). done. }
    unfold collectBlockCondInfo. rewrite Hf. apply NoDup_filter. apply Hwf. }
  pose proof (traceBlocks_spec C InitialReg PoisonReg s Hwf (collectBlockCondInfo C s) s [] Htr (fun x _ => eq_refl) Hnd) as Hw.
  apply wp_run in Hw as (CMovs & s' & Hrun & Hall & Hunt & _); [|intros info Hinfo; destruct (Hin info Hinfo); eauto].
  exists CMovs, s'. split_and!; [done| |].
  - intros b info Hb Hinfo. apply edges_states. eapply blockChecked_edges; [done|done|done|exact Hinfo|].
    destruct (blockCondInfo_spec C s b info Hinfo) as (HM & _).
    assert (info ∈ collectBlockCondInfo C s) as Hc by (apply list_elem_of_omap; eauto).
    specialize (Hall info Hc). rewrite HM in Hall. exact Hall.
  - intros b Hb Hinfo. assert (untouched C s b s') as [Ht Hy Hn _].
    { apply Hunt; [done| |apply Hun]. rewrite HMBB, Hinfo. by intros [_ [? ?]]. }
    unfold SlhPoison.edges. rewrite Ht.
    assert (forall l, (forall y, y ∈ l -> y ∈ terminators C b s) -> edgesFrom C s' b l = edgesFrom C s b l) as H; [|by apply H].
    induction l as [|y l IH]; intros Hl; simpl; [by rewrite Hn|]. rewrite Hy by (apply Hl; left).
    rewrite IH; [done|]. intros z Hz. apply Hl. by right.
Qed.
End Result.

(** ** A function with a branch over a block

    Block 1 compares and branches to block 3 or falls into block 2, which loads and falls
    into block 3, where a PHI joins them. *)
Module Example.

(** The conditions as the target numbers them: an odd one is the opposite of the even one
    before it. *)
Definition Flags : Type := Z -> bool.
Definition holds (c : Z) (f : Flags) : bool := xorb (Z.odd c) (f (Z.div2 c)).

Definition target : CfgTarget := {|
  isTerminator i := bool_decide (opcode i ∈ ["JCC_1"; "JMP_1"; "JMP64r"; "RET64"]%string);
  getCondFromBranch i := if isOpcode "JCC_1" i then Some (getImm (nth 1 (mi_ops i) (imm 0))) else None;
  GetOppositeBranchCondition c := Z.lxor c 1;
|}.

#[export] Instance target_laws : TargetLaws target.
Proof.
  constructor; try done.
  - intros i Hi. unfold isPHI, isOpcode in Hi. apply bool_decide_eq_true in Hi. simpl. rewrite Hi. done.
  - intros i b. unfold getCondFromBranch. simpl. unfold isOpcode. simpl. case_bool_decide; [|done].
    by destruct (mi_ops i).
Qed.

#[export] Instance target_conds : CondLaws target holds.
Proof.
  intros i c f _. unfold holds. simpl.
  assert (Z.odd (Z.lxor c 1) = negb (Z.odd c)) as ->.
  { rewrite <- !Z.bit0_odd, Z.lxor_spec. simpl. by rewrite xorb_true_r. }
  assert (Z.div2 (Z.lxor c 1) = Z.div2 c) as ->.
  { apply Z.bits_inj'. intros n Hn. rewrite !Z.div2_spec, !Z.shiftr_spec, Z.lxor_spec by lia.
    assert (Z.testbit 1 (n + 1) = false) as ->; [|by rewrite xorb_false_r].
    apply Z.bits_above_log2; simpl; lia. }
  by rewrite negb_xorb_l.
Qed.

Definition JCC_1 (t : positive) (c : Z) : MInstr := builtBranch "JCC_1" [mbb t; imm c].
Definition RET : MInstr := MIn "RET64" None false false false false true true 0 0 None false true [].

Definition start : FState :=
  FS (list_to_map [(1, built "CMP64rr" 0 [use (Virt 1); use (Virt 2); liveFlags]);
                   (2, JCC_1 3 4);
                   (3, builtLoad "MOV64rm" [def (Virt 3); use (Virt 1); imm 1; use NoRegister; imm 0; use NoRegister]);
                   (4, built "PHI" 1 [def (Virt 4); use (Virt 1); mbb 1; use (Virt 3); mbb 2]);
                   (5, RET)]%positive)
     [1; 2; 3]%positive
     (list_to_map [(1, MB [1; 2] [3; 2] [] false false);
                   (2, MB [3] [3] [] false false);
                   (3, MB [4; 5] [] [] false false)]%positive)
     ∅ 6 7 4 ∅.

Ltac each H := repeat (apply elem_of_cons in H as [H|H]; [simplify_eq/=|]); [..|by apply elem_of_nil in H].

Lemma start_code x i : f_code start !! x = Some i -> (x, i) ∈
  [(1, built "CMP64rr" 0 [use (Virt 1); use (Virt 2); liveFlags]);
   (2, JCC_1 3 4);
   (3, builtLoad "MOV64rm" [def (Virt 3); use (Virt 1); imm 1; use NoRegister; imm 0; use NoRegister]);
   (4, built "PHI" 1 [def (Virt 4); use (Virt 1); mbb 1; use (Virt 3); mbb 2]);
   (5, RET)]%positive.
Proof. apply elem_of_list_to_map_2. Qed.

Lemma start_structured : structured start.
Proof.
  assert (dom (blocks start) = {[1; 2; 3]}%positive) as Hb by done.
  assert (dom (f_code start) = {[1; 2; 3; 4; 5]}%positive) as Hc by done.
  constructor.
  - simpl. repeat constructor; set_solver.
  - intros b. rewrite Hb. simpl. set_solver.
  - simpl. intros b H. each H; lia.
  - simpl. intros b H. each H; cbn; repeat constructor; set_solver.
  - simpl. intros b1 b2 x H1 H2. each H1; each H2; cbn; set_solver.
  - rewrite Hc. simpl. intros b x H. each H; cbn; set_solver.
  - intros x. rewrite Hc. simpl. intros H. rewrite !elem_of_union, !elem_of_singleton in H. simpl. lia.
  - intros x i k H%start_code. each H; cbn; intros Hk; each Hk; cbn in Hk; simplify_eq; lia.
Qed.

Lemma start_wellFormed : wellFormed target start.
Proof.
  constructor.
  - exact start_structured.
  - simpl. intros b t H. each H; cbn; set_solver.
  - simpl. intros b info br H. each H; vm_compute blockCondInfo; try done. intros [= <-] Hbr. each Hbr. exists 3%positive.
    split_and!; [done|set_solver|done].
  - simpl. intros b info H. each H; vm_compute blockCondInfo; try done. intros [= <-]. cbn. split; [set_solver|done].
  - simpl. intros x H. each H; cbn; try done. intros _. exists 1%positive, 2%positive. cbn. set_solver.
Qed.

Lemma edges_checked_witness :
  wellFormed target start /\ exists CMovs s',
    tracePredStateThroughCFG target (Virt 5) (Virt 6) (collectBlockCondInfo target start) start = inr (CMovs, s') /\
    (forall b info, b ∈ layout start -> blockCondInfo target start b = Some info ->
       Forall2 (edgeChecked target (Virt 5) (Virt 6) holds start s' CMovs b) (edges target start b) (edges target s' b) /\
       forall f i, selected holds (edges target start b) f = Some i ->
         (forall e', edges target s' b !! i = Some e' -> forall v, stateAfter (Virt 5) (Virt 6) holds s' e'.2 f v = Some v) /\
         (length (omap fst (edges target start b)) = 1 ->
          forall j e', edges target s' b !! j = Some e' -> j <> i ->
            forall v, stateAfter (Virt 5) (Virt 6) holds s' e'.2 f v = Some (-1)%Z)) /\
    (forall b, b ∈ layout start -> blockCondInfo target start b = None -> edges target s' b = edges target start b).
Proof.
  split; [exact start_wellFormed|].
  apply (edges_checked target holds (Virt 5) (Virt 6) start start_wellFormed); [| |done].
  - intros k [= <-]. done.
  - intros k [= <-]. done.
Defined.

(** The run: block 4 is new, between blocks 1 and 2. *)
Example start_traced :
  match tracePredStateThroughCFG target (Virt 5) (Virt 6) (collectBlockCondInfo target start) start with
  | inr (_, s') => edges target s' 1 = [(Some 4%Z, 4%positive); (None, 2%positive)] /\ edges target s' 4 = [(None, 3%positive)] /\
      layout s' = [1; 4; 2; 3]%positive
  | inl _ => False
  end.
Proof. vm_compute. done. Qed.

(** ** What the checks do not see *)

Definition oneBlock (l : list MInstr) (succ : list positive) (lay : list positive) : FState :=
  FS (list_to_map (imap (fun k i => (Pos.of_succ_nat k, i)) l)) lay
     (list_to_map ((1%positive, MB (imap (fun k _ => Pos.of_succ_nat k) l) succ [] false false) ::
                   ((fun b => (b, MB [] [] [] false false)) <$> tail lay)))
     ∅ (Pos.of_succ_nat (length l)) 7 5 ∅.

(** Two conditional branches: NE to block 2, then NP to block 3. *)
Definition twoBranches : FState :=
  oneBlock [built "UCOMISDrr" 0 [use (Virt 1); use (Virt 2); liveFlags]; JCC_1 2 5; JCC_1 3 11]
    [2; 3; 4]%positive [1; 4; 2; 3]%positive.
Definition unequal : Flags := fun _ => false.

(** The operands compare unequal and ordered: the first branch is to be taken.  Past it,
    the second one leaves for block 3 with the state as it was, since its check tests the
    second condition only. *)
Lemma second_branch_unchecked :
  holds 5 unequal = true /\
  match tracePredStateThroughCFG target (Virt 5) (Virt 6) (collectBlockCondInfo target twoBranches) twoBranches with
  | inr (_, s') => edges target s' 1 = [(Some 5%Z, 2%positive); (Some 11%Z, 3%positive); (None, 4%positive)] /\
      stateAfter (Virt 5) (Virt 6) holds s' 3 unequal 0 = Some 0%Z
  | inl _ => False
  end.
Proof. vm_compute. done. Qed.

(** A conditional branch in front of an indirect one that can reach the same block. *)
Definition sharedTarget : FState :=
  oneBlock [built "CMP64rr" 0 [use (Virt 1); use (Virt 2); liveFlags]; JCC_1 2 4; builtBranch "JMP64r" [use (Virt 3)]]
    [2; 3]%positive [1; 2; 3]%positive.

(** Block 2 is one successor with one predecessor, so the check of the conditional edge is
    put into it: entered through the indirect branch, as the flags demand, it poisons. *)
Lemma indirect_entry_poisoned :
  holds 4 unequal = false /\
  match tracePredStateThroughCFG target (Virt 5) (Virt 6) (collectBlockCondInfo target sharedTarget) sharedTarget with
  | inr (_, s') => edges target s' 1 = [(Some 4%Z, 2%positive)] /\
      stateAfter (Virt 5) (Virt 6) holds s' 2 unequal 0 = Some (-1)%Z
  | inl _ => False
  end.
Proof. vm_compute. done. Qed.
End Example.
