(* ===== verification/SlhEntry.v ===== *)
(** * Fences on edges, PHI operands and loading calls

    [hardenEdgesWithLFENCE] fences exactly the blocks a branch with several successors
    can enter; [canonicalizePHIOperands] leaves one entry per predecessor;
    [unfoldCallAndJumpLoads] leaves no call or branch that loads, but far ones. *)
From stdpp Require Import base countable gmap sets list option strings sorting.
From Stdlib Require Import ZArith Lia.
From S2P Require Import Prelude Machine Slh SlhCfg SlhEdges SlhChecked SlhTrace SlhPoison.

(** ** Insertion points *)
Lemma skipWhile_split p l : exists pre post, l = pre ++ post /\ (forall y, y ∈ pre -> p y = true) /\
  skipWhile p l = head post /\ (forall y, head post = Some y -> p y = false).
Proof.
  induction l as [|x l (pre & post & -> & Hpre & Hs & Hh)]; simpl.
  - exists [], []. split_and!; [done|intros y Hy; by apply elem_of_nil in Hy|done|done].
  - destruct (p x) eqn:E.
    + exists (x :: pre), post. split_and!; [done| |done|done]. intros y [->|Hy]%elem_of_cons; auto.
    + exists [], (x :: pre ++ post). split_and!; [done|intros y Hy; by apply elem_of_nil in Hy|done|]. by intros y [= <-].
Qed.

Lemma insertBefore_head x pre post : NoDup (pre ++ post) -> insertBefore x (head post) (pre ++ post) = pre ++ x :: post.
Proof.
  intros Hd. destruct post as [|y post]; simpl.
  - by rewrite insertBefore_end, app_nil_r.
  - apply insertBefore_at. apply NoDup_app in Hd as (_ & Hd & _). intros Hy. apply (Hd y Hy). left.
Qed.

(** Instructions are only added, and the code stays. *)
Lemma afterBuild_code b pt i s x j : structured s -> f_code s !! x = Some j -> f_code (afterBuild b pt i s) !! x = Some j.
Proof.
  intros Hs Hx. simpl. rewrite lookup_insert_ne; [done|]. intros <-. apply (fresh_instr s Hs), elem_of_dom. eauto.
Qed.

(** ** Fences on edges *)
Section Fences.
Context (C : CfgTarget) (isLabel : MInstr -> bool).

(** A block that a branch block with several successors can enter, and no pad. *)
Definition branchEntered (s : FState) (b : positive) : Prop :=
  exists p, p ∈ layout s /\ (1 < length (successors (block p s)))%nat /\ b ∈ successors (block p s) /\
    isEHPad (block b s) = false /\ exists t, head (terminators C p s) = Some t /\ isBranch (f_instr t s) = true.

Lemma elem_of_setInsert l x y : y ∈ setInsert l x <-> y ∈ l \/ y = x.
Proof. unfold setInsert. case_decide; set_solver. Qed.

Lemma NoDup_setInsert l x : NoDup l -> NoDup (setInsert l x).
Proof.
  unfold setInsert. case_decide; [done|]. intros Hl. apply NoDup_app. split_and!; [done| |apply NoDup_singleton].
  intros y Hy ->%list_elem_of_singleton. done.
Qed.

Lemma elem_of_setInserts l k y : y ∈ foldl setInsert l k <-> y ∈ l \/ y ∈ k.
Proof. revert l. induction k as [|x k IH]; intros l; simpl; [set_solver|]. rewrite IH, elem_of_setInsert. set_solver. Qed.

Lemma NoDup_setInserts l k : NoDup l -> NoDup (foldl setInsert l k).
Proof. revert l. induction k as [|x k IH]; intros l Hl; simpl; [done|]. by apply IH, NoDup_setInsert. Qed.

Lemma edgeBlocks_spec s : NoDup (edgeBlocks C s) /\ forall b, b ∈ edgeBlocks C s <-> branchEntered s b.
Proof.
  unfold edgeBlocks, branchEntered. set (step := fun Blocks b => _).
  enough (forall l acc, NoDup acc -> NoDup (foldl step acc l) /\ forall b, b ∈ foldl step acc l <-> b ∈ acc \/
    exists p, p ∈ l /\ (1 < length (successors (block p s)))%nat /\ b ∈ successors (block p s) /\
      isEHPad (block b s) = false /\ exists t, head (terminators C p s) = Some t /\ isBranch (f_instr t s) = true) as H.
  { destruct (H (layout s) [] (NoDup_nil_2)) as [Hn Hb]. split; [done|]. intros b. rewrite Hb. set_solver. }
  induction l as [|p l IH]; intros acc Ha; simpl; [set_solver|].
  assert (NoDup (step acc p) /\ forall b, b ∈ step acc p <-> b ∈ acc \/ ((1 < length (successors (block p s)))%nat /\
    b ∈ successors (block p s) /\ isEHPad (block b s) = false /\ exists t, head (terminators C p s) = Some t /\ isBranch (f_instr t s) = true)) as [Hn Hb].
  { unfold step. destruct (length (successors (block p s)) <=? 1)%nat eqn:El.
    - apply Nat.leb_le in El. split; [done|]. intros b. split; [auto|]. intros [?|(? & _)]; [done|lia].
    - apply Nat.leb_gt in El. destruct (head (terminators C p s)) as [t|]; [|split; [done|intros b; split; [auto|intros [?|(_ & _ & _ & t & ? & ?)]; [done|congruence]]]].
      destruct (isBranch (f_instr t s)) eqn:Et; simpl; [|split; [done|intros b; split; [auto|intros [?|(_ & _ & _ & t' & ? & ?)]; [done|congruence]]]].
      split; [by apply NoDup_setInserts|]. intros b. rewrite elem_of_setInserts, list_elem_of_filter. split; [intros [?|[? ?]]; eauto 10|intros [?|(_ & ? & ? & _)]; auto]. }
  destruct (IH (step acc p) Hn) as [Hn' Hb']. split; [done|]. intros b. rewrite Hb', Hb. set_solver.
Qed.

(** A fence behind the PHIs and labels of a block. *)
Definition fenced (s s' : FState) (b : positive) : Prop :=
  exists pre x post, instrs (block b s) = pre ++ post /\ instrs (block b s') = pre ++ x :: post /\ f_instr x s' = LFENCE /\
    (forall y, y ∈ pre -> isPHI (f_instr y s) || isLabel (f_instr y s) = true) /\
    (forall y, head post = Some y -> isPHI (f_instr y s) || isLabel (f_instr y s) = false).

(** C26: with -lfence the pass fails no step and puts one fence, behind the PHIs and labels,
    into exactly the blocks that a block ending in a branch with several successors can
    enter and that are no exception pads; all other instructions stay in place. *)
Theorem edges_fenced s : structured s -> (forall b t, b ∈ layout s -> t ∈ successors (block b s) -> t ∈ layout s) ->
  exists s', hardenEdgesWithLFENCE C isLabel s = inr (tt, s') /\ layout s' = layout s /\
    (forall x i, f_code s !! x = Some i -> f_code s' !! x = Some i) /\
    (forall b, b ∈ layout s -> branchEntered s b -> fenced s s' b) /\
    (forall b, b ∈ layout s -> ~ branchEntered s b -> block b s' = block b s).
Proof.
  intros Hs Hsucc. destruct (edgeBlocks_spec s) as [Hnd Hel].
  assert (wp (hardenEdgesWithLFENCE C isLabel) s (fun _ s' => structured s' /\ layout s' = layout s /\
    (forall x i, f_code s !! x = Some i -> f_code s' !! x = Some i) /\
    (forall b, b ∈ layout s -> (b ∈ edgeBlocks C s -> fenced s s' b) /\ (b ∉ edgeBlocks C s -> block b s' = block b s)))) as Hw.
  { unfold hardenEdgesWithLFENCE. wp_step. wp_step.
    apply (wp_ffor (edgeBlocks C s) _ (fun l s' => structured s' /\ layout s' = layout s /\
      (forall x i, f_code s !! x = Some i -> f_code s' !! x = Some i) /\
      (forall b, b ∈ layout s -> (b ∈ l -> fenced s s' b) /\ (b ∉ l -> block b s' = block b s)))).
    - split_and!; [done|done|done|]. intros b _. split; [by intros ?%elem_of_nil|done].
    - intros l1 b l2 s1 Hl (Hs1 & Hlay & Hcode & Hbl).
      assert (b ∈ layout s) as Hb.
      { assert (b ∈ edgeBlocks C s) as (p & Hp & _ & Hbp & _)%Hel by (rewrite Hl; set_solver). by apply (Hsucc p). }
      assert (b ∉ l1) as Hbl1.
      { rewrite Hl in Hnd. apply NoDup_app in Hnd as (_ & Hd & _). intros Hin. apply (Hd b Hin). left. }
      pose proof (proj2 (Hbl b Hb) Hbl1) as Hbb.
      assert (forall c y, c ∈ layout s -> y ∈ instrs (block c s) -> f_instr y s1 = f_instr y s) as Hsame.
      { intros c y Hc Hy. pose proof (st_code s Hs c y Hc Hy) as [i Hi]%elem_of_dom. unfold f_instr. by rewrite Hi, (Hcode y i Hi). }
      wp_step. wp_step. wp_step. apply wp_BuildIn, fwp_ret. unfold SkipPHIsAndLabels. rewrite Hbb.
      set (q := fun x => isPHI (f_instr x s1) || isLabel (f_instr x s1)).
      destruct (skipWhile_split q (instrs (block b s))) as (pre & post & Hpp & Hpre & -> & Hh).
      set (s2 := afterBuild b (head post) LFENCE s1).
      assert (forall y, y ∈ instrs (block b s) -> f_instr y s1 = f_instr y s) as Hsb by (intros y Hy; by eapply Hsame).
      split_and!.
      + apply structured_afterBuild; [done|]. intros k Hk. unfold defsOf in Hk. simpl in Hk. by apply elem_of_nil in Hk.
      + done.
      + intros x i Hx. by apply afterBuild_code, Hcode.
      + intros c Hc. destruct (decide (c = b)) as [->|Hne].
        * split; [intros _|set_solver]. exists pre, (f_nextInstr s1), post. split_and!.
          -- done.
          -- unfold s2. rewrite instrs_afterBuild, decide_True by (try done; by rewrite Hlay). rewrite Hbb, Hpp.
             apply insertBefore_head. rewrite <- Hpp. by apply Hs.
          -- unfold f_instr, s2. simpl. by rewrite lookup_insert_eq.
          -- intros y Hy. rewrite <- Hsb by (rewrite Hpp; set_solver). by apply Hpre.
          -- intros y Hy. rewrite <- Hsb; [by apply Hh|]. rewrite Hpp. destruct post; simplify_eq/=. set_solver.
        * specialize (Hbl c Hc).
          assert (block c s2 = block c s1) as Hcs by (apply (extends_build b); [done|by rewrite Hlay|done]).
          split; [intros Hin|intros Hnin; rewrite Hcs; apply Hbl; set_solver].
          assert (c ∈ l1) as Hin' by set_solver. apply Hbl in Hin'. clear Hbl.
          destruct Hin' as (pre' & x & post' & H1 & H2 & H3 & H4 & H5). exists pre', x, post'. rewrite Hcs. split_and!; try done.
          assert (x ∈ dom (f_code s1)) as [i Hi]%elem_of_dom
            by (eapply (st_code s1 Hs1 c); [by rewrite Hlay|rewrite H2; set_solver]).
          unfold f_instr in *. rewrite Hi in H3. unfold s2. by rewrite (afterBuild_code b _ _ _ _ _ Hs1 Hi). }
  apply wp_run in Hw as ([] & s' & Hrun & _ & Hlay & Hcode & Hbl). exists s'. split_and!; [done|done|done| |].
  - intros b Hb He. by apply (Hbl b Hb), Hel.
  - intros b Hb He. apply (Hbl b Hb). by rewrite Hel.
Qed.
End Fences.

(** ** PHI operands *)
Definition entryBlock (p : MOperand * MOperand) : option positive := getMBB p.2.

(** The entries that stay are the first of their block. *)
Lemma elem_of_firstEntries P l p : p ∈ firstEntries P l <->
  exists l1 l2, l = l1 ++ p :: l2 /\ entryBlock p ∉ P /\ entryBlock p ∉ entryBlock <$> l1.
Proof.
  revert P. induction l as [|[v m] l IH]; intros P; simpl.
  - split; [by intros ?%elem_of_nil|]. intros (l1 & l2 & Hl & _). by destruct l1.
  - assert (forall Q : list (option positive), (exists l1 l2, l = l1 ++ p :: l2 /\ entryBlock p ∉ Q /\ entryBlock p ∉ entryBlock <$> l1) ->
      entryBlock p ∉ P -> entryBlock p <> getMBB m ->
      exists (l1 l2 : list (MOperand * MOperand)), (v, m) :: l = l1 ++ p :: l2 /\ entryBlock p ∉ P /\ entryBlock p ∉ entryBlock <$> l1) as Hcons.
    { intros Q (l1 & l2 & -> & _ & Hn) HP Hm. exists ((v, m) :: l1), l2. split_and!; [done|done|]. csimpl.
      apply not_elem_of_cons. split; [exact Hm|done]. }
    case_decide as HP.
    + rewrite IH. split.
      * intros (l1 & l2 & Hl & HpP & Hn). apply (Hcons P); [eauto|done|]. by intros E; rewrite E in HpP.
      * intros (l1 & l2 & Hl & HpP & Hn). destruct l1 as [|q l1]; simplify_eq/=; [done|].
        exists l1, l2. split_and!; [done|done|]. intros H. apply Hn. by right.
    + rewrite elem_of_cons, IH. split.
      * intros [->|(l1 & l2 & Hl & HpP & Hn)].
        -- exists [], l. split_and!; [done|done|apply not_elem_of_nil].
        -- apply not_elem_of_cons in HpP as [Hm HpP]. apply (Hcons (getMBB m :: P)); [|done|done].
           exists l1, l2. split_and!; [done|apply not_elem_of_cons; done|done].
      * intros (l1 & l2 & Hl & HpP & Hn). destruct l1 as [|q l1]; simplify_eq/=; [by left|right].
        csimpl in Hn. apply not_elem_of_cons in Hn as [Hm Hn]. exists l1, l2. split_and!; [done|apply not_elem_of_cons; done|done].
Qed.

Lemma NoDup_firstEntries P l : NoDup (entryBlock <$> firstEntries P l).
Proof.
  revert P. induction l as [|[v m] l IH]; intros P; simpl; [constructor|]. case_decide; [apply IH|]. csimpl.
  constructor; [|apply IH]. intros (q & Hq & Hin)%list_elem_of_fmap.
  apply elem_of_firstEntries in Hin as (l1 & l2 & _ & Hn & _). apply Hn. rewrite <- Hq. left.
Qed.

Lemma phiPairs_unpair l : phiPairs (unpair l) = l.
Proof. induction l as [|[v m] l IH]; simpl; [done|]. by rewrite IH. Qed.

Lemma elem_of_phis b s x : x ∈ phis b s -> x ∈ instrs (block b s) /\ isPHI (f_instr x s) = true.
Proof. intros [? ?]%prefixWhile_sat. done. Qed.

Lemma NoDup_phis b s : structured s -> b ∈ layout s -> NoDup (phis b s).
Proof.
  intros Hs Hb. unfold phis. destruct (prefixWhile_prefix (fun x => isPHI (f_instr x s)) (instrs (block b s))) as [r Hr].
  pose proof (st_instrs s Hs b Hb) as Hn. rewrite Hr in Hn. by apply NoDup_app in Hn as (? & _ & _).
Qed.

Definition phiIn (s : FState) (l : list positive) (x : positive) : bool :=
  existsb (fun b => bool_decide (x ∈ phis b s)) l.

Lemma phiIn_spec s l x : phiIn s l x = true <-> exists b, b ∈ l /\ x ∈ phis b s.
Proof.
  unfold phiIn. rewrite existsb_exists. setoid_rewrite bool_decide_eq_true. setoid_rewrite list_elem_of_In at 2.
  split; intros (b & ? & ?); exists b; (split; [by apply list_elem_of_In|done]) || done.
Qed.

Lemma phis_owner s b b' x : structured s -> b ∈ layout s -> b' ∈ layout s -> x ∈ phis b s -> x ∈ phis b' s -> b = b'.
Proof. intros Hs Hb Hb' [? _]%elem_of_phis [? _]%elem_of_phis. by eapply (st_disjoint s Hs). Qed.

(** [canonicalizePHIOperands] changes the PHIs at the head of the blocks, and nothing else:
    of each PHI's entries exactly the first of every predecessor stay. *)
Lemma phis_canonical s : structured s ->
  exists m, canonicalizePHIOperands s = inr (tt, with_code m s) /\
    (forall b x d l, b ∈ layout s -> x ∈ phis b s -> mi_ops (f_instr x s) = d :: unpair l ->
       exists i, m !! x = Some i /\ mi_ops i = d :: unpair (firstEntries [] l) /\ opcode i = opcode (f_instr x s)) /\
    (forall x, (forall b, b ∈ layout s -> x ∉ phis b s) -> m !! x = f_code s !! x).
Proof.
  intros Hs. set (f := phiOps (firstEntries [])).
  assert (wp canonicalizePHIOperands s (fun _ s' => exists m, s' = with_code m s /\ forall x, m !! x =
    if phiIn s (layout s) x then f <$> f_code s !! x else f_code s !! x)) as Hw.
  { unfold canonicalizePHIOperands. wp_step. wp_step.
    apply (wp_ffor (layout s) _ (fun l s' => exists m, s' = with_code m s /\ forall x, m !! x =
      if phiIn s l x then f <$> f_code s !! x else f_code s !! x)).
    - exists (f_code s). split; [by destruct s|]. done.
    - intros l1 b l2 s1 Hl (m & -> & Hm). wp_step. wp_step.
      assert (b ∈ layout s) as Hb by (rewrite Hl; set_solver).
      assert (phis b (with_code m s) = phis b s) as Hphi.
      { apply prefixWhile_ext. intros x _. unfold f_instr. simpl. rewrite Hm. destruct (phiIn s l1 x); [|done].
        destruct (f_code s !! x) as [i|]; [|done]. simpl. unfold f, phiOps. by destruct (mi_ops i). }
      rewrite Hphi. eapply fwp_mono; [apply updateInstrs_spec; by apply NoDup_phis|].
      intros _ s2 (m2 & -> & Hm2). exists m2. split; [done|]. intros x. rewrite Hm2. simpl. rewrite Hm.
      assert (phiIn s (l1 ++ [b]) x = phiIn s l1 x || bool_decide (x ∈ phis b s)) as ->
        by (unfold phiIn; rewrite existsb_app; simpl; by rewrite orb_false_r).
      destruct (decide (x ∈ phis b s)) as [Hx|Hx]; [|rewrite bool_decide_eq_false_2, orb_false_r by done; done].
      rewrite bool_decide_eq_true_2, orb_true_r by done. destruct (phiIn s l1 x) eqn:E; [|done].
      apply phiIn_spec in E as (b' & Hb' & Hx'). exfalso.
      assert (b' = b) as -> by (eapply (phis_owner s); [done|rewrite Hl; set_solver|done|done|done]).
      pose proof (st_layout s Hs) as Hn. rewrite Hl in Hn. apply NoDup_app in Hn as (_ & Hd & _). apply (Hd b Hb'). left. }
  apply wp_run in Hw as ([] & s' & Hrun & m & -> & Hm). exists m. split_and!; [done| |].
  - intros b x d l Hb Hx Hops. pose proof (elem_of_phis b s x Hx) as [Hi _].
    pose proof (st_code s Hs b x Hb Hi) as [i Hxi]%elem_of_dom. unfold f_instr in *. rewrite Hxi in *. simpl in *.
    assert (phiIn s (layout s) x = true) as E by (apply phiIn_spec; eauto).
    exists (f i). rewrite Hm, Hxi, E. split_and!; [done| |].
    + unfold f, phiOps. rewrite Hops. simpl. by rewrite phiPairs_unpair.
    + unfold f, phiOps. by rewrite Hops.
  - intros x Hx. rewrite Hm. destruct (phiIn s (layout s) x) eqn:E; [|done].
    apply phiIn_spec in E as (b & Hb & Hin). by destruct (Hx b Hb).
Qed.

(** ** Loading calls and branches *)
Section Unfold.
Variable unfoldedRegClass : string -> option RegClass.
Variable unfoldMemoryOperand : MInstr -> reg -> option (list MInstr).

(** A call or branch that loads its target. *)
Definition loadingBranch (i : MInstr) : bool := (isCall i || isBranch i) && mayLoad i.
Definition supported (i : MInstr) : bool :=
  negb (loadingBranch i) || bool_decide (opcode i ∈ farOpcodes) || bool_decide (opcode i ∈ unfoldedOpcodes).

(** The target's unfolding, as documented: it knows the opcodes the pass lists, and splits
    an instruction into a load of a register and a call or branch that loads no more. *)
Class UnfoldLaws : Prop := {
  unfold_class op : op ∈ unfoldedOpcodes -> is_Some (unfoldedRegClass op);
  unfold_operand i r : opcode i ∈ unfoldedOpcodes -> loadingBranch i = true ->
    exists l, unfoldMemoryOperand i r = Some l /\
      forall j, j ∈ l -> loadingBranch j = false /\ (forall q, q ∈ defsOf j -> q = r \/ q ∈ defsOf i);
}.
Context {HU : UnfoldLaws}.

Lemma ffor_app {A} (l1 l2 : list A) (f : A -> FM unit) s :
  ffor (l1 ++ l2) f s = match ffor l1 f s with inl e => inl e | inr (_, s') => ffor l2 f s' end.
Proof.
  revert s. induction l1 as [|x l1 IH]; intros s; [done|]. simpl. unfold mbind, FM_bind.
  destruct (f x s) as [e|[[] s1]]; [done|]. apply IH.
Qed.

(** Adding a run of instructions before one. *)
Lemma buildBefore_spec b x pre post NewMIs s :
  structured s -> b ∈ layout s -> instrs (block b s) = pre ++ x :: post ->
  (forall j k, j ∈ NewMIs -> Virt k ∈ defsOf j -> (k < f_nextReg s)%positive) ->
  wp (ffor NewMIs (fun NewMI => BuildIn b (Some x) NewMI ;; mret tt)) s (fun _ s' =>
    structured s' /\ extends (fun y => y = b) s s' /\ exists ys, instrs (block b s') = pre ++ ys ++ x :: post /\
      Forall2 (fun y j => f_code s' !! y = Some j) ys NewMIs).
Proof.
  intros Hs Hb Hi Hdefs.
  apply (wp_ffor NewMIs _ (fun l s' => structured s' /\ extends (fun y => y = b) s s' /\
    exists ys, instrs (block b s') = pre ++ ys ++ x :: post /\ Forall2 (fun y j => f_code s' !! y = Some j) ys l)).
  - split_and!; [done|apply extends_refl|]. exists []. split; [done|constructor].
  - intros l1 j l2 s1 Hl (Hs1 & He & ys & Hy & Hc). wp_step. apply wp_BuildIn, fwp_ret.
    assert (b ∈ layout s1) as Hb1 by (by rewrite (ex_layout _ _ _ He)).
    set (s2 := afterBuild b (Some x) j s1).
    assert (extends (fun y => y = b) s1 s2) as He2 by by apply extends_build.
    split_and!.
    + apply structured_afterBuild; [done|]. intros k Hk. pose proof (ex_nextReg _ _ _ He).
      assert (k < f_nextReg s)%positive by (apply (Hdefs j k); [rewrite Hl; set_solver|done]). lia.
    + by eapply extends_trans.
    + exists (ys ++ [f_nextInstr s1]). split.
      * unfold s2. rewrite instrs_afterBuild, decide_True, Hy by done.
        pose proof (st_instrs s1 Hs1 b Hb1) as Hn. rewrite Hy in Hn. rewrite (assoc_L (++)) in Hn. rewrite (assoc_L (++)).
        rewrite insertBefore_at; [by rewrite <- !(assoc_L (++))|].
        apply NoDup_app in Hn as (_ & Hd & _). intros Hin. apply (Hd x Hin). left.
      * apply Forall2_app; [|repeat constructor; simpl; by rewrite lookup_insert_eq].
        eapply Forall2_impl; [exact Hc|]. intros y i Hyi. by apply (ex_code _ _ _ He2).
Qed.

Lemma loadingBranch_cases i : (if negb (isCall i) && negb (isBranch i) then true else negb (mayLoad i)) = negb (loadingBranch i).
Proof. unfold loadingBranch. by destruct (isCall i), (isBranch i), (mayLoad i). Qed.

(** One instruction of a block. *)
Lemma unfoldInstr_spec b x pre post s :
  structured s -> b ∈ layout s -> instrs (block b s) = pre ++ x :: post -> supported (f_instr x s) = true ->
  wp (unfoldInstr unfoldedRegClass unfoldMemoryOperand b x) s (fun _ s' =>
    structured s' /\ extends (fun y => y = b) s s' /\ exists mid, instrs (block b s') = pre ++ mid ++ post /\
      forall y, y ∈ mid -> loadingBranch (f_instr y s') = true -> opcode (f_instr y s') ∈ farOpcodes).
Proof.
  intros Hs Hb Hi Hsup. unfold unfoldInstr. wp_step. wp_step. set (i := f_instr x s) in *.
  assert (forall (Q : Prop), (loadingBranch i = true -> opcode i ∈ farOpcodes) ->
    structured s /\ extends (fun y => y = b) s s /\ exists mid, instrs (block b s) = pre ++ mid ++ post /\
      forall y, y ∈ mid -> loadingBranch (f_instr y s) = true -> opcode (f_instr y s) ∈ farOpcodes) as Hsame.
  { intros _ Hok. split_and!; [done|apply extends_refl|]. exists [x]. split; [done|].
    intros y ->%list_elem_of_singleton. exact Hok. }
  pose proof (loadingBranch_cases i) as Hcases.
  destruct (negb (isCall i) && negb (isBranch i)) eqn:E1.
  { apply fwp_ret, (Hsame True). intros E. by rewrite E in Hcases. }
  destruct (negb (mayLoad i)) eqn:E2; [apply fwp_ret, (Hsame True); intros E; by rewrite E in Hcases|].
  assert (loadingBranch i = true) as Hload by (by destruct (loadingBranch i)).
  case_bool_decide as Hfar; [apply fwp_ret, (Hsame True); done|].
  assert (opcode i ∈ unfoldedOpcodes) as Hun.
  { unfold supported in Hsup. rewrite Hload, (bool_decide_eq_false_2 (_ ∈ farOpcodes)) in Hsup by done.
    by apply bool_decide_eq_true in Hsup. }
  rewrite bool_decide_eq_true_2 by done. destruct (unfold_class (opcode i) Hun) as [rc ->].
  wp_step. change (wp (f_createVirtualRegister rc) s ?Q) with (Q (Virt (f_nextReg s)) (afterReg rc s)). cbn beta.
  set (s1 := afterReg rc s). assert (structured s1) as Hs1 by by apply structured_afterReg.
  destruct (unfold_operand i (Virt (f_nextReg s)) Hun Hload) as (NewMIs & -> & Hnew).
  assert (x ∈ dom (f_code s)) as Hx by (eapply (st_code s Hs b); [done|rewrite Hi; set_solver]).
  wp_step. eapply fwp_mono; [apply (buildBefore_spec b x pre post NewMIs s1 Hs1 Hb Hi)|].
  { intros j k Hj Hk. simpl. destruct (proj2 (Hnew j Hj) _ Hk) as [[= ->]|Hold]; [lia|].
    apply elem_of_dom in Hx as [i' Hi']. unfold i, f_instr in Hold. rewrite Hi' in Hold.
    pose proof (st_regs s Hs x i' k Hi' Hold). lia. }
  intros _ s2 (Hs2 & He & ys & Hy & Hc). unfold eraseFrom. apply wp_updateBlock.
  assert (b ∈ layout s2) as Hb2 by (by rewrite (ex_layout _ _ _ He)).
  pose proof (st_instrs s2 Hs2 b Hb2) as Hn. rewrite Hy in Hn.
  assert (filter (fun y => y <> x) (pre ++ ys ++ x :: post) = pre ++ ys ++ post) as Hf.
  { apply NoDup_app in Hn as (_ & Hd1 & Hn). apply NoDup_app in Hn as (_ & Hd2 & Hn). apply NoDup_cons in Hn as [Hxp _].
    rewrite !filter_app, filter_cons_False by naive_solver.
    rewrite !filter_all; [done|..]; intros y Hyin ->; [done| |].
    - apply (Hd2 x Hyin). left.
    - apply (Hd1 x Hyin). set_solver. }
  set (s3 := with_blocks _ s2).
  assert (forall y, block y s3 = if decide (y = b) then set_instrs (pre ++ ys ++ post) (block b s2) else block y s2) as Hblk.
  { intros y. unfold s3. rewrite block_updateBlock by (by apply st_dom). by rewrite Hy, Hf. }
  split_and!.
  - assert (forall y c, c ∈ layout s2 -> y ∈ instrs (block c s3) -> y ∈ instrs (block c s2)) as Hsub.
    { intros y c Hc'. rewrite Hblk. case_decide as E; [subst; simpl; rewrite Hy; set_solver|done]. }
    constructor; try apply Hs2.
    + intros c. unfold s3. simpl. rewrite dom_alter_blocks. apply Hs2.
    + intros c Hc'. rewrite Hblk. case_decide; [|by apply Hs2]. simpl. rewrite <- Hf. by apply NoDup_filter.
    + intros b1 b2 y H1 H2 Hy1 Hy2. eapply (st_disjoint s2 Hs2); eauto.
    + intros c y Hc' Hyc. eapply (st_code s2 Hs2 c); eauto.
  - eapply extends_trans; [apply extends_afterReg|]. eapply extends_trans; [exact He|]. constructor; try done; try lia.
    + unfold s3. simpl. apply dom_alter_blocks.
    + intros y Hyb. rewrite Hblk. by rewrite decide_False.
    + intros y. rewrite Hblk. by case_decide; subst.
  - exists ys. rewrite Hblk, decide_True by done. split; [done|]. intros y Hyin Hl.
    apply list_elem_of_lookup in Hyin as [k Hk]. destruct (Forall2_lookup_l _ _ _ _ _ Hc Hk) as (j & Hj & Hyj).
    apply list_elem_of_lookup_2 in Hj. destruct (Hnew j Hj) as [Hnl _].
    unfold f_instr in Hl. change (f_code s3) with (f_code s2) in Hl. rewrite Hyj in Hl. simpl in Hl. congruence.
Qed.

Lemma forallb_first {A} (p : A -> bool) l : forallb p l = false ->
  exists l1 x l2, l = l1 ++ x :: l2 /\ forallb p l1 = true /\ p x = false.
Proof.
  induction l as [|x l IH]; simpl; [done|]. destruct (p x) eqn:E; simpl.
  - intros (l1 & y & l2 & -> & H1 & H2)%IH. exists (x :: l1), y, l2. simpl. by rewrite E.
  - intros _. by exists [], x, l.
Qed.

Abbreviation unfold_ := (unfoldInstr unfoldedRegClass unfoldMemoryOperand).

(** Loads of a target are left in far calls and jumps only. *)
Definition okIn (s : FState) (y : positive) : Prop :=
  loadingBranch (f_instr y s) = true -> opcode (f_instr y s) ∈ farOpcodes.

Lemma extends_instr P s s' y : extends P s s' -> y ∈ dom (f_code s) -> f_instr y s' = f_instr y s.
Proof. intros He [i Hi]%elem_of_dom. unfold f_instr. by rewrite Hi, (ex_code _ _ _ He y i Hi). Qed.

(** A part [l1] of a block, from its start. *)
Lemma unfoldPart_spec b l1 l2 s :
  structured s -> b ∈ layout s -> instrs (block b s) = l1 ++ l2 -> forallb (fun x => supported (f_instr x s)) l1 = true ->
  wp (ffor l1 (unfold_ b)) s (fun _ s' => structured s' /\ extends (fun y => y = b) s s' /\
    exists done, instrs (block b s') = done ++ l2 /\ forall y, y ∈ done -> okIn s' y).
Proof.
  intros Hs Hb Hi Hsup. rewrite forallb_forall in Hsup.
  enough (wp (ffor l1 (unfold_ b)) s (fun _ s' => structured s' /\ extends (fun y => y = b) s s' /\
    exists done, instrs (block b s') = done ++ drop (length l1) l1 ++ l2 /\ forall y, y ∈ done -> okIn s' y)) as Hw.
  { eapply fwp_mono; [exact Hw|]. intros [] s' (? & ? & done & Hd & ?). rewrite drop_all in Hd. eauto 10. }
  apply (wp_ffor l1 _ (fun k s' => structured s' /\ extends (fun y => y = b) s s' /\
    exists done, instrs (block b s') = done ++ drop (length k) l1 ++ l2 /\ forall y, y ∈ done -> okIn s' y)).
  - split_and!; [done|apply extends_refl|]. exists []. split; [done|]. intros y Hy. by apply elem_of_nil in Hy.
  - intros k x k' s1 Hl (Hs1 & He & done & Hd & Hok).
    assert (drop (length k) l1 = x :: k') as Hdrop by (rewrite Hl; by rewrite drop_app_length).
    assert (drop (length (k ++ [x])) l1 = k') as Hdrop'.
    { rewrite Hl, length_app. simpl. rewrite (cons_middle x k k'), (assoc_L (++)). rewrite <- length_app with (l' := [x]).
      by rewrite drop_app_length. }
    rewrite Hdrop in Hd. rewrite Hdrop'. simpl in Hd.
    assert (b ∈ layout s1) as Hb1 by (by rewrite (ex_layout _ _ _ He)).
    assert (x ∈ instrs (block b s)) as Hx by (rewrite Hi, Hl; set_solver).
    eapply fwp_mono; [apply (unfoldInstr_spec b x done (k' ++ l2) s1 Hs1 Hb1 Hd)|].
    { rewrite (extends_instr _ _ _ _ He) by (by eapply (st_code s Hs b)). apply Hsup, list_elem_of_In. rewrite Hl. set_solver. }
    intros [] s2 (Hs2 & He2 & mid & Hmid & Hokm). split_and!; [by exact Hs2|by eapply extends_trans|].
    exists (done ++ mid). split; [rewrite Hmid; by rewrite <- (assoc_L (++))|].
    intros y [Hy|Hy]%elem_of_app; [|exact (Hokm y Hy)]. unfold okIn.
    rewrite (extends_instr _ _ _ _ He2) by (eapply (st_code s1 Hs1 b); [done|rewrite Hd; set_solver]). by apply Hok.
Qed.

(** An instruction the pass does not expect ends it. *)
Lemma unfold_fails b x s : supported (f_instr x s) = false -> unfold_ b x s = inl FatalError.
Proof.
  intros Hsup. unfold supported in Hsup. apply orb_false_iff in Hsup as [Hsup Hun]. apply orb_false_iff in Hsup as [Hload Hfar].
  apply negb_false_iff in Hload. unfold unfoldInstr, mbind, FM_bind, fget. cbn beta iota. unfold loadingBranch in Hload.
  apply andb_true_iff in Hload as [Hcb Hl].
  rewrite Hl, Hfar, Hun. simpl. apply orb_true_iff in Hcb as [-> | ->]; [done|]. by rewrite andb_false_r.
Qed.

Abbreviation unfoldBlock b := (is_ ← fget (fun s => instrs (block b s)); ffor is_ (unfold_ b)).

Definition blockSupported (s : FState) (b : positive) : bool :=
  forallb (fun x => supported (f_instr x s)) (instrs (block b s)).

Lemma unfoldBlock_ok b s : structured s -> b ∈ layout s -> blockSupported s b = true ->
  wp (unfoldBlock b) s (fun _ s' => structured s' /\ extends (fun y => y = b) s s' /\
    forall y, y ∈ instrs (block b s') -> okIn s' y).
Proof.
  intros Hs Hb Hsup. wp_step. wp_step.
  eapply fwp_mono; [apply (unfoldPart_spec b _ [] s Hs Hb (eq_sym (app_nil_r _)) Hsup)|].
  intros [] s' (? & ? & done & Hd & Hok). rewrite app_nil_r in Hd. subst. auto.
Qed.

Lemma unfoldBlock_fails b s : structured s -> b ∈ layout s -> blockSupported s b = false -> unfoldBlock b s = inl FatalError.
Proof.
  intros Hs Hb (l1 & x & l2 & Hl & H1 & H2)%forallb_first. unfold mbind at 1, FM_bind at 1, fget at 1. rewrite Hl at 1.
  rewrite ffor_app. destruct (wp_run _ _ _ (unfoldPart_spec b l1 (x :: l2) s Hs Hb Hl H1)) as ([] & s1 & -> & Hs1 & He & _).
  simpl. unfold mbind, FM_bind. rewrite unfold_fails; [done|].
  rewrite (extends_instr _ _ _ _ He); [done|]. eapply (st_code s Hs b); [done|rewrite Hl; set_solver].
Qed.

Lemma blockSupported_ext (P : positive -> Prop) s s' b : structured s -> extends P s s' -> b ∈ layout s -> ~ P b ->
  blockSupported s' b = blockSupported s b.
Proof.
  intros Hs He Hb Hn. unfold blockSupported. rewrite (ex_block _ _ _ He) by done.
  assert (forall l, (forall y, y ∈ l -> y ∈ instrs (block b s)) ->
    forallb (fun x => supported (f_instr x s')) l = forallb (fun x => supported (f_instr x s)) l) as H; [|by apply H].
  induction l as [|y l IH]; intros Hl; [done|]. simpl. rewrite IH by (intros; apply Hl; by right). f_equal. f_equal.
  apply (extends_instr _ _ _ _ He). eapply (st_code s Hs b); [done|]. apply Hl. left.
Qed.

(** The block behind a part of the layout is not in it. *)
Lemma layout_notin s l1 b l2 : structured s -> layout s = l1 ++ b :: l2 -> b ∉ l1.
Proof.
  intros Hs Hl Hin. pose proof (st_layout s Hs) as Hn. rewrite Hl in Hn. apply NoDup_app in Hn as (_ & Hd & _).
  apply (Hd b Hin). left.
Qed.

(** Blocks from the start of the layout. *)
Lemma unfoldBlocks_ok l1 l2 s : structured s -> layout s = l1 ++ l2 -> forallb (blockSupported s) l1 = true ->
  wp (ffor l1 (fun b => unfoldBlock b)) s (fun _ s' => structured s' /\ extends (fun y => y ∈ l1) s s' /\
    forall b y, b ∈ l1 -> y ∈ instrs (block b s') -> okIn s' y).
Proof.
  intros Hs Hlay Hsup. rewrite forallb_forall in Hsup.
  apply (wp_ffor l1 _ (fun k s' => structured s' /\ extends (fun y => y ∈ k) s s' /\
    forall b y, b ∈ k -> y ∈ instrs (block b s') -> okIn s' y)).
  - split_and!; [done|apply extends_refl|]. intros b y Hb. by apply elem_of_nil in Hb.
  - intros k b k' s1 Hl (Hs1 & He & Hok).
    assert (b ∈ layout s) as Hb by (rewrite Hlay, Hl; set_solver).
    assert (layout s1 = layout s) as Hlay1 by apply (ex_layout _ _ _ He).
    assert (b ∉ k) as Hbk by (eapply (layout_notin s k b (k' ++ l2)); [done|rewrite Hlay, Hl; by list_simplifier]).
    eapply fwp_mono; [apply (unfoldBlock_ok b s1 Hs1)|].
    + by rewrite Hlay1.
    + rewrite (blockSupported_ext _ _ _ b Hs He) by done. apply Hsup, list_elem_of_In. rewrite Hl. set_solver.
    + intros [] s2 (Hs2 & He2 & Hok2). split_and!; [done| |].
      * eapply extends_trans; [eapply extends_mono; [|exact He]|eapply extends_mono; [|exact He2]]; simpl; intros; subst; set_solver.
      * intros c y Hc Hy. destruct (decide (c = b)) as [->|Hne]; [by apply Hok2|].
        assert (c ∈ k) as Hck by set_solver. rewrite (ex_block _ _ _ He2) in Hy by done.
        unfold okIn. rewrite (extends_instr _ _ _ _ He2); [by apply (Hok c)|].
        eapply (st_code s1 Hs1 c); [|done]. rewrite Hlay1, Hlay, Hl. set_solver.
Qed.

(** C27: unfolding the loads of calls and branches succeeds exactly when every call and
    branch that loads is a far one or has one of the listed opcodes, and then the only
    calls and branches that still load are far ones; otherwise it is a fatal error. *)
Theorem loading_calls_unfolded s : structured s ->
  if forallb (blockSupported s) (layout s) then
    exists s', unfoldCallAndJumpLoads unfoldedRegClass unfoldMemoryOperand s = inr (tt, s') /\ layout s' = layout s /\
      forall b y, b ∈ layout s -> y ∈ instrs (block b s') ->
        loadingBranch (f_instr y s') = true -> opcode (f_instr y s') ∈ farOpcodes
  else unfoldCallAndJumpLoads unfoldedRegClass unfoldMemoryOperand s = inl FatalError.
Proof.
  intros Hs. assert (unfoldCallAndJumpLoads unfoldedRegClass unfoldMemoryOperand s = ffor (layout s) (fun b => unfoldBlock b) s)
    as -> by done.
  destruct (forallb (blockSupported s) (layout s)) eqn:E.
  - destruct (wp_run _ _ _ (unfoldBlocks_ok (layout s) [] s Hs (eq_sym (app_nil_r _)) E)) as ([] & s' & Hrun & Hs' & He & Hok).
    exists s'. split_and!; [exact Hrun|apply (ex_layout _ _ _ He)|exact Hok].
  - apply forallb_first in E as (l1 & b & l2 & Hl & H1 & H2). rewrite Hl, ffor_app.
    destruct (wp_run _ _ _ (unfoldBlocks_ok l1 (b :: l2) s Hs Hl H1)) as ([] & s1 & Hrun & Hs1 & He & _).
    rewrite Hrun. simpl. unfold mbind at 1, FM_bind at 1. rewrite unfoldBlock_fails; [done|done| |].
    + rewrite (ex_layout _ _ _ He), Hl. set_solver.
    + rewrite (blockSupported_ext _ _ _ b Hs He); [done|rewrite Hl; set_solver|]. exact (layout_notin s l1 b l2 Hs Hl).
Qed.
End Unfold.

(** ** Examples *)
Module EntryExample.
Import SlhPoison.Example.

(** Blocks 2 and 3 of the function that branches over block 2 are fenced. *)
Lemma edges_fenced_witness :
  structured start /\ exists s', hardenEdgesWithLFENCE target (fun _ => false) start = inr (tt, s') /\ layout s' = layout start /\
    (forall x i, f_code start !! x = Some i -> f_code s' !! x = Some i) /\
    (forall b, b ∈ layout start -> branchEntered target start b -> fenced (fun _ => false) start s' b) /\
    (forall b, b ∈ layout start -> ~ branchEntered target start b -> block b s' = block b start).
Proof.
  split; [exact start_structured|]. apply (edges_fenced target (fun _ => false) start start_structured).
  apply (wf_layout target start start_wellFormed).
Defined.

Example start_fenced : edgeBlocks target start = [3; 2]%positive.
Proof. vm_compute. done. Qed.

(** A call through memory. *)
Definition CALL64m : MInstr :=
  MIn "CALL64m" None false true false true false false 0 0 (Some 0%nat) false false
    [use (Virt 1); imm 1; use NoRegister; imm 8; use NoRegister].

Definition unfoldedClass (op : string) : option RegClass := if decide (op ∈ unfoldedOpcodes) then Some GR64 else None.
Definition unfoldOperand (i : MInstr) (r : reg) : option (list MInstr) :=
  Some [builtLoad "MOV64rm" (def r :: mi_ops i);
        MIn "CALL64r" None false false false (isCall i) (isBranch i) (isReturn i) 0 0 None false false [useKill r]].

#[export] Instance unfold_laws : UnfoldLaws unfoldedClass unfoldOperand.
Proof.
  constructor.
  - intros op Hop. unfold unfoldedClass. rewrite decide_True by done. eauto.
  - intros i r _ _. eexists. split; [done|]. intros j [->|[->|Hj]%elem_of_cons]%elem_of_cons; [..|by apply elem_of_nil in Hj].
    + split; [done|]. intros q. rewrite !elem_of_defsOf. intros (o & Ho & Hr & Hd & <-). simpl in Ho.
      apply elem_of_cons in Ho as [->|Ho]; [by left|right]. eauto.
    + split; [unfold loadingBranch; simpl; by rewrite andb_false_r|]. intros q Hq.
      unfold defsOf in Hq. simpl in Hq. by apply elem_of_nil in Hq.
Qed.

Definition caller : FState :=
  FS (list_to_map [(1, CALL64m); (2, RET)]%positive) [1]%positive
     (list_to_map [(1, MB [1; 2] [] [] false false)]%positive) ∅ 3 2 2 ∅.

Lemma caller_structured : structured caller.
Proof.
  assert (dom (blocks caller) = {[1]}%positive) as Hb by done.
  assert (dom (f_code caller) = {[1; 2]}%positive) as Hc by done.
  constructor.
  - simpl. repeat constructor; set_solver.
  - intros b. rewrite Hb. simpl. set_solver.
  - simpl. intros b H. each H; lia.
  - simpl. intros b H. each H; cbn; repeat constructor; set_solver.
  - simpl. intros b1 b2 x H1 H2. each H1; each H2; cbn; set_solver.
  - rewrite Hc. simpl. intros b x H. each H; cbn; set_solver.
  - intros x. rewrite Hc. rewrite !elem_of_union, !elem_of_singleton. simpl. lia.
  - intros x i k H. apply elem_of_list_to_map_2 in H. each H; cbn; intros Hk; by apply elem_of_nil in Hk.
Qed.

Lemma loading_calls_unfolded_witness :
  structured caller /\
  if forallb (blockSupported caller) (layout caller) then
    exists s', unfoldCallAndJumpLoads unfoldedClass unfoldOperand caller = inr (tt, s') /\ layout s' = layout caller /\
      forall b y, b ∈ layout caller -> y ∈ instrs (block b s') ->
        loadingBranch (f_instr y s') = true -> opcode (f_instr y s') ∈ farOpcodes
  else unfoldCallAndJumpLoads unfoldedClass unfoldOperand caller = inl FatalError.
Proof. split; [exact caller_structured|]. apply (loading_calls_unfolded unfoldedClass unfoldOperand caller caller_structured). Defined.

(** The load is in front of the call, which takes the register. *)
Example caller_unfolded :
  match unfoldCallAndJumpLoads unfoldedClass unfoldOperand caller with
  | inr (_, s') => opcode <$> ((fun x => f_instr x s') <$> instrs (block 1 s')) = ["MOV64rm"; "CALL64r"; "RET64"]%string
  | inl _ => False
  end.
Proof. vm_compute. done. Qed.
End EntryExample.
