(* ===== verification/SlhIndirect.v ===== *)
(** * The checks behind indirect branches

    [tracePredStateThroughIndirectBranches]: every block an indirect branch of the function
    can enter compares the branch's target with its own address and poisons the predicate
    state when they differ.  Predecessors that reach the block otherwise load its address.
    The SSA updater is a parameter with the laws of [UpdaterLaws]. *)
From stdpp Require Import base countable gmap sets list option strings.
From Stdlib Require Import ZArith Lia.
From S2P Require Import Prelude Machine Slh SlhHarden SlhCfg SlhEdges SlhChecked SlhTrace SlhPoison SlhEntry SlhStack.

(** ** Lists *)
Lemma insertBefore_app x pt (l1 l2 : list positive) : (forall y, y ∈ l1 -> pt <> Some y) ->
  insertBefore x pt (l1 ++ l2) = l1 ++ insertBefore x pt l2.
Proof.
  induction l1 as [|y l1 IH]; intros Hl; [done|]. simpl. rewrite decide_False by (apply Hl; left).
  f_equal. apply IH. intros z Hz. apply Hl. by right.
Qed.

Lemma termsOf_stop p l1 x l2 : p x = false -> termsOf p (l1 ++ x :: l2) = termsOf p l2.
Proof.
  intros Hx. unfold termsOf. f_equal. rewrite reverse_app, reverse_cons, <- (assoc_L (++)). simpl.
  destruct (forallb p (reverse l2)) eqn:E.
  - rewrite prefixWhile_app_all by done. simpl. rewrite Hx, app_nil_r. symmetry.
    rewrite <- (app_nil_r (reverse l2)) at 1. rewrite prefixWhile_app_all by done. by rewrite app_nil_r.
  - by apply prefixWhile_app_stop.
Qed.

(** ** What stays of a function *)
Section Indirect.
Context (C : CfgTarget) {HC : TargetLaws C}.
Variable T : TargetInfo.
Variable isLabel : MInstr -> bool.
Variable InitialReg PoisonReg : reg.

(** Instructions, registers and available values are only added. *)
Record grown (s s' : FState) : Prop := {
  gw_layout : layout s' = layout s;
  gw_successors x : successors (block x s') = successors (block x s);
  gw_liveins x : liveins (block x s') = liveins (block x s);
  gw_pad x : isEHPad (block x s') = isEHPad (block x s);
  gw_taken x : hasAddressTaken (block x s) = true -> hasAddressTaken (block x s') = true;
  gw_code x i : f_code s !! x = Some i -> f_code s' !! x = Some i;
  gw_instrs x y : y ∈ instrs (block x s) -> y ∈ instrs (block x s');
  gw_nextReg : (f_nextReg s <= f_nextReg s')%positive }.

Lemma grown_refl s : grown s s.
Proof. by split. Qed.

Lemma grown_trans s1 s2 s3 : grown s1 s2 -> grown s2 s3 -> grown s1 s3.
Proof.
  intros [L1 S1 V1 P1 T1 C1 I1 N1] [L2 S2 V2 P2 T2 C2 I2 N2].
  split; [by rewrite L2|intros x; by rewrite S2|intros x; by rewrite V2|intros x; by rewrite P2|auto..|lia].
Qed.

Lemma extends_grown P s s' : extends P s s' -> (forall x y, y ∈ instrs (block x s) -> y ∈ instrs (block x s')) -> grown s s'.
Proof.
  intros [L N A D B At Cd NI NR] Hi.
  assert (forall x, successors (block x s') = successors (block x s) /\ liveins (block x s') = liveins (block x s) /\
    isEHPad (block x s') = isEHPad (block x s) /\ hasAddressTaken (block x s') = hasAddressTaken (block x s)) as Ha.
  { intros x. specialize (At x). unfold set_instrs in At. by injection At. }
  split; try done; intros x; try apply Ha. by rewrite (proj2 (proj2 (proj2 (Ha x)))).
Qed.

Lemma grown_predecessors s s' b : grown s s' -> predecessors b s' = predecessors b s.
Proof.
  intros G. unfold predecessors. rewrite (gw_layout _ _ G). f_equal. apply list_fmap_ext. intros i p _.
  by rewrite (gw_successors _ _ G).
Qed.

Lemma grown_oldReg s s' r : grown s s' -> oldReg r s -> oldReg r s'.
Proof. intros G Hr k Hk. specialize (Hr k Hk). pose proof (gw_nextReg _ _ G). lia. Qed.

(** Building in front of what follows a prefix. *)
Lemma build_ok b pre post i s (Q : positive -> FState -> Prop) :
  structured s -> b ∈ layout s -> instrs (block b s) = pre ++ post ->
  (forall k, Virt k ∈ defsOf i -> (k < f_nextReg s)%positive) ->
  (forall x s', structured s' -> extends (fun y => y = b) s s' -> instrs (block b s') = pre ++ x :: post ->
    f_code s' !! x = Some i -> f_nextReg s' = f_nextReg s -> Q x s') ->
  wp (BuildIn b (head post) i) s Q.
Proof.
  intros Hs Hb Hi Hd HQ. apply wp_BuildIn. apply HQ.
  - by apply structured_afterBuild.
  - by apply extends_build.
  - rewrite instrs_afterBuild, decide_True, Hi by done. apply insertBefore_head. rewrite <- Hi. by apply Hs.
  - simpl. by rewrite lookup_insert_eq.
  - done.
Qed.

Lemma create_ok rc s (Q : reg -> FState -> Prop) : structured s ->
  (forall s', structured s' -> extends (fun _ => False) s s' -> blocks s' = blocks s ->
    f_nextReg s' = Pos.succ (f_nextReg s) -> Q (Virt (f_nextReg s)) s') ->
  wp (f_createVirtualRegister rc) s Q.
Proof.
  intros Hs HQ. change (Q (Virt (f_nextReg s)) (afterReg rc s)). apply HQ; [by apply structured_afterReg|apply extends_afterReg|done|done].
Qed.

Lemma extends_build_grown b s s' x pre post : structured s -> extends (fun y => y = b) s s' ->
  instrs (block b s) = pre ++ post -> instrs (block b s') = pre ++ x :: post -> grown s s'.
Proof.
  intros Hs He H1 H2. apply (extends_grown _ _ _ He). intros y z. destruct (decide (y = b)) as [->|Hy].
  - rewrite H1, H2. set_solver.
  - by rewrite (ex_block _ _ _ He).
Qed.

Lemma extends_create_grown s s' : extends (fun _ => False) s s' -> grown s s'.
Proof. intros He. apply (extends_grown _ _ _ He). intros x y. by rewrite (ex_block _ _ _ He x) by tauto. Qed.

(** ** Indirect branches *)

(** The block ends in [JMP64r] with the target in [q]. *)
Definition endsIndirect (s : FState) (p : positive) (q : reg) : Prop :=
  exists TI, lastInstr p s = Some TI /\ isTerminator C (f_instr TI s) = true /\ isBranch (f_instr TI s) = true /\
    isOpcode "JMP64r" (f_instr TI s) = true /\ q = getReg (nth 0 (mi_ops (f_instr TI s)) (imm 0)).

Lemma endsIndirect_unique s p q q' : endsIndirect s p q -> endsIndirect s p q' -> q = q'.
Proof. intros (TI & H & _ & _ & _ & ->) (TI' & H' & _ & _ & _ & ->). by rewrite H in H'; injection H' as <-. Qed.

Lemma indirectBlock_spec s b w w' : indirectBlock C b w s = inr w' ->
  (exists q, endsIndirect s b q /\ TargetAddr w' = <[b := q]> (TargetAddr w) /\
    IndirectTerminatedMBBs w' = {[b]} ∪ IndirectTerminatedMBBs w /\
    IndirectTargetMBBs w' = list_to_set (successors (block b s)) ∪ IndirectTargetMBBs w) \/
  (w' = w /\ forall q, ~ endsIndirect s b q).
Proof.
  unfold indirectBlock. destruct (lastInstr b s) as [TI|] eqn:EL;
    [|intros [= <-]; right; split; [done|]; intros q (TI & HL & _); congruence].
  assert (forall q, endsIndirect s b q -> isTerminator C (f_instr TI s) = true /\ isBranch (f_instr TI s) = true /\
    isOpcode "JMP64r" (f_instr TI s) = true) as Hno.
  { intros q (TI' & HL & ? & ? & ? & _). rewrite EL in HL. by injection HL as <-. }
  destruct (isTerminator C (f_instr TI s)) eqn:Ht; cbn [negb orb];
    [|intros [= <-]; right; split; [done|]; by intros q (? & _)%Hno].
  destruct (isBranch (f_instr TI s)) eqn:Hb; cbn [negb]; [|intros [= <-]; right; split; [done|]; by intros q (_ & ? & _)%Hno].
  case_match; [done|]. case_match; [done|].
  destruct (isOpcode "JMP64r" (f_instr TI s)) eqn:Hj; cbn [negb]; [|intros [= <-]; right; split; [done|]; by intros q (_ & _ & ?)%Hno].
  case_match; [done|]. intros [= <-]. left. eexists. split; [exists TI; by split_and!|]. done.
Qed.

Record collected (s : FState) (l : list positive) (w : IndirectInfo) : Prop := {
  co_terminated p : p ∈ IndirectTerminatedMBBs w <-> p ∈ l /\ exists q, endsIndirect s p q;
  co_addr p q : TargetAddr w !! p = Some q <-> p ∈ l /\ endsIndirect s p q;
  co_targets b : b ∈ IndirectTargetMBBs w <-> exists p, p ∈ IndirectTerminatedMBBs w /\ b ∈ successors (block p s) }.

Lemma indirectBlocks_spec s l w l0 w0 : indirectBlocks C l w0 s = inr w -> collected s l0 w0 -> collected s (l0 ++ l) w.
Proof.
  revert l0 w0. induction l as [|b l IH]; intros l0 w0; cbn [indirectBlocks].
  { intros [= <-]. by rewrite app_nil_r. }
  destruct (indirectBlock C b w0 s) as [e|w1] eqn:E; [done|]. intros Hw [HT HA HG].
  rewrite (cons_middle b l0). rewrite (assoc_L (++)). apply (IH _ w1 Hw).
  apply indirectBlock_spec in E as [(q & Hq & Ea & Et & Eg)|[-> Hno]].
  - split.
    + intros p. rewrite Et, elem_of_union, elem_of_singleton, HT. set_solver.
    + intros p q'. rewrite Ea. destruct (decide (p = b)) as [->|Hne].
      * rewrite lookup_insert_eq. split; [intros [= <-]; set_solver|]. intros [_ Hq']. f_equal. by eapply endsIndirect_unique.
      * rewrite lookup_insert_ne by done. rewrite HA. set_solver.
    + intros c. rewrite Eg, Et, elem_of_union, elem_of_list_to_set, HG. set_solver.
  - split; [| |done].
    + intros p. rewrite HT. set_solver.
    + intros p q. rewrite HA. set_solver.
Qed.

(** ** The blocks that are entered otherwise *)

(** [p] computes the address of [b] in [q]. *)
Definition addressed (s : FState) (b p : positive) (q : reg) : Prop :=
  exists x, x ∈ instrs (block p s) /\ f_code s !! x = Some (addressOfBlock T q b).

(** What is in front of an instruction that is no terminator stays. *)
Definition keepsHead (s s' : FState) (b : positive) : Prop :=
  forall l1 x l2, instrs (block b s) = l1 ++ x :: l2 -> isTerm C s x = false -> exists l2', instrs (block b s') = l1 ++ x :: l2'.

Lemma grown_instr s s' b y : structured s -> grown s s' -> b ∈ layout s -> y ∈ instrs (block b s) -> f_instr y s' = f_instr y s.
Proof.
  intros Hs G Hb Hy. pose proof (st_code s Hs b y Hb Hy) as [i Hi]%elem_of_dom. unfold f_instr.
  by rewrite Hi, (gw_code _ _ G y i Hi).
Qed.

Lemma keepsHead_trans s1 s2 s3 b : structured s1 -> grown s1 s2 -> b ∈ layout s1 ->
  keepsHead s1 s2 b -> keepsHead s2 s3 b -> keepsHead s1 s3 b.
Proof.
  intros Hs G Hb H1 H2 l1 x l2 Hi Hx. destruct (H1 l1 x l2 Hi Hx) as [l2' H2'].
  apply (H2 l1 x l2' H2'). unfold isTerm in *. rewrite (grown_instr s1 s2 b); [done..|]. rewrite Hi. set_solver.
Qed.

Lemma keepsHead_same s s' b : instrs (block b s') = instrs (block b s) -> keepsHead s s' b.
Proof. intros He l1 x l2 Hi _. exists l2. by rewrite He. Qed.

(** A step that adds code before terminators, or to the head of other blocks. *)
Record step (b0 : positive) (s s' : FState) : Prop := {
  sp_structured : structured s';
  sp_grown : grown s s';
  sp_available : available s' = available s;
  sp_head b : b <> b0 -> b ∈ layout s -> keepsHead s s' b }.

Lemma step_trans b0 s1 s2 s3 : structured s1 -> step b0 s1 s2 -> step b0 s2 s3 -> step b0 s1 s3.
Proof.
  intros Hs [S1 G1 A1 H1] [S2 G2 A2 H2]. split; [done|by eapply grown_trans|by rewrite A2|].
  intros b Hb Hl. eapply keepsHead_trans; [done|exact G1|done|by apply H1|]. apply H2; [done|]. by rewrite (gw_layout _ _ G1).
Qed.

Lemma step_refl b0 s : structured s -> step b0 s s.
Proof. intros Hs. split; [done|apply grown_refl|done|]. intros b _ _. by apply keepsHead_same. Qed.

Lemma addressed_grown s s' b p q : grown s s' -> addressed s b p q -> addressed s' b p q.
Proof. intros G (x & Hx & Hc). exists x. split; [by apply (gw_instrs _ _ G)|by apply (gw_code _ _ G)]. Qed.

Lemma defsOf_address q b : defsOf (addressOfBlock T q b) = [q].
Proof. unfold addressOfBlock, defsOf. by destruct (smallNonPIC T). Qed.

Lemma install_build Pred s s' x i : structured s -> Pred ∈ layout s -> structured s' ->
  s' = afterBuild Pred (head (terminators C Pred s)) i s -> x = f_nextInstr s ->
  grown s s' /\ x ∈ instrs (block Pred s') /\ f_code s' !! x = Some i /\ forall c, c ∈ layout s -> keepsHead s s' c.
Proof.
  intros Hs HP Hs' -> ->. pose proof (extends_build Pred (head (terminators C Pred s)) i s Hs HP) as He.
  assert (forall c, c ∈ layout s -> instrs (block c (afterBuild Pred (head (terminators C Pred s)) i s)) =
    if decide (c = Pred) then insertBefore (f_nextInstr s) (head (terminators C Pred s)) (instrs (block c s))
    else instrs (block c s)) as Hi by (intros; by apply instrs_afterBuild).
  split_and!.
  - apply (extends_grown _ _ _ He). intros y z. destruct (decide (y = Pred)) as [->|Hy].
    + rewrite Hi, decide_True by done. intros Hz. apply elem_of_insertBefore. by right.
    + by rewrite (ex_block _ _ _ He).
  - rewrite Hi, decide_True by done. apply elem_of_insertBefore. by left.
  - simpl. by rewrite lookup_insert_eq.
  - intros c Hc l1 y l2 Hl Hy. rewrite Hi by done. case_decide as E; [subst c|by exists l2].
    rewrite terminators_termsOf, Hl, termsOf_stop by done. rewrite (cons_middle y l1), (assoc_L (++)).
    rewrite insertBefore_app; [eexists; by rewrite <- (assoc_L (++))|].
    intros z Hz [= Hh]. assert (z ∈ l2) as Hz2.
    { apply (elem_of_termsOf (isTerm C s)). destruct (termsOf (isTerm C s) l2); [done|]. injection Hh as ->. left. }
    pose proof (st_instrs s Hs Pred HP) as Hd. rewrite Hl, (cons_middle y l1), (assoc_L (++)) in Hd.
    apply NoDup_app in Hd as (_ & Hd & _). by apply (Hd z).
Qed.

(** The predecessors the pass accepts. *)
Definition reachesOnly (s : FState) (b Pred : positive) : Prop :=
  forall Succ, Succ ∈ successors (block Pred s) -> isEHPad (block Succ s) = true \/ Succ = b.

Lemma installTarget_ok b0 b Pred Terminated a s :
  structured s -> Pred ∈ layout s -> (Pred ∉ Terminated -> reachesOnly s b Pred) ->
  wp (installTarget C T b Pred Terminated a) s (fun a' s' => step b0 s s' /\
    (forall p, p <> Pred -> a' !! p = a !! p) /\ (Pred ∈ Terminated -> a' = a) /\
    (Pred ∉ Terminated -> exists q, a' !! Pred = Some q /\ oldReg q s' /\ addressed s' b Pred q)).
Proof.
  intros Hs HP Honly. unfold installTarget. case_decide as HT; [apply fwp_ret; split_and!; [by apply step_refl|done..]|].
  wp_step. wp_step.
  assert (forallb (fun Succ => isEHPad (block Succ s) || bool_decide (Succ = b)) (successors (block Pred s)) = true) as ->.
  { apply forallb_forall. intros x Hx%list_elem_of_In. destruct (Honly HT x Hx) as [->| ->]; [done|].
    rewrite bool_decide_true by done. apply orb_true_r. }
  cbn [negb]. wp_step. wp_step. wp_step. apply create_ok; [done|]. intros s1 Hs1 He1 Hb1 Hn1.
  pose proof (extends_create_grown _ _ He1) as G1. wp_step. apply wp_BuildIn, fwp_ret.
  assert (head (terminators C Pred s) = head (terminators C Pred s1)) as Hterm.
  { f_equal. rewrite !terminators_termsOf. rewrite (ex_block _ _ _ He1 Pred) by tauto. apply termsOf_ext. intros y Hy.
    unfold isTerm. by rewrite (grown_instr s s1 Pred). }
  rewrite Hterm. set (s2 := afterBuild Pred _ _ s1).
  assert (Pred ∈ layout s1) as HP1 by (by rewrite (gw_layout _ _ G1)).
  assert (structured s2) as Hs2.
  { apply structured_afterBuild; [done|]. intros k. rewrite defsOf_address, list_elem_of_singleton. intros [= ->]. lia. }
  destruct (install_build Pred s1 s2 _ _ Hs1 HP1 Hs2 eq_refl eq_refl) as (G2 & Hx & Hc & Hh).
  split_and!.
  - split; [done|by eapply grown_trans|exact (ex_available _ _ _ He1)|]. intros c _ Hcl. eapply keepsHead_trans; [done|exact G1|done| |].
    + apply keepsHead_same. by rewrite (ex_block _ _ _ He1 c) by tauto.
    + apply Hh. by rewrite (gw_layout _ _ G1).
  - intros p Hp. by rewrite lookup_insert_ne.
  - done.
  - intros _. exists (Virt (f_nextReg s)). split; [apply lookup_insert_eq|]. split; [intros k [= <-]; simpl; lia|].
    eexists. split; [exact Hx|exact Hc].
Qed.

(** The value a predecessor has for the target. *)
Definition installed (s s' : FState) (b : positive) (Terminated : gset positive) (a a' : gmap positive reg) (p : positive) : Prop :=
  if decide (p ∈ Terminated) then a' !! p = a !! p
  else exists q, a' !! p = Some q /\ oldReg q s' /\ addressed s' b p q.

Lemma installTargets_ok b0 b Terminated preds a s : structured s ->
  (forall p, p ∈ preds -> p ∈ layout s /\ (p ∉ Terminated -> reachesOnly s b p)) ->
  wp (installTargets C T b preds Terminated a) s (fun a' s' => step b0 s s' /\
    (forall p, p ∈ Terminated -> a' !! p = a !! p) /\ (forall p, p ∈ preds -> installed s s' b Terminated a a' p) /\
    (forall p, p ∉ Terminated -> p ∉ preds -> a' !! p = a !! p)).
Proof.
  revert a s. induction preds as [|Pred preds IH]; intros a s Hs Hp; cbn [installTargets].
  { apply fwp_ret. split_and!; [by apply step_refl|done| |done]. by intros p ?%elem_of_nil. }
  destruct (Hp Pred) as [HPl HPo]; [left|]. wp_step. eapply fwp_mono; [by apply (installTarget_ok b0 b Pred Terminated a s)|].
  intros a1 s1 (S1 & Ho1 & HT1 & HN1). cbn beta. pose proof (sp_grown _ _ _ S1) as G1.
  eapply fwp_mono; [apply (IH a1 s1)|].
  - apply S1.
  - intros p Hin. rewrite (gw_layout _ _ G1). destruct (Hp p) as [? Hr]; [by right|]. split; [done|].
    intros HT Succ. rewrite (gw_successors _ _ G1), (gw_pad _ _ G1). by apply Hr.
  - intros a2 s2 (S2 & HT2 & Hi2 & Ho2). cbn beta. split_and!.
    + by eapply step_trans.
    + intros p HT. rewrite HT2 by done. destruct (decide (p = Pred)) as [->|Hne]; [by rewrite HT1|by apply Ho1].
    + intros p [->|Hin]%elem_of_cons.
      * unfold installed. case_decide as HT; [rewrite HT2 by done; by rewrite HT1|].
        destruct (decide (Pred ∈ preds)) as [Hin|Hnin].
        -- specialize (Hi2 Pred Hin). unfold installed in Hi2. by rewrite decide_False in Hi2.
        -- destruct (HN1 HT) as (q & Hq & Hold & Had). exists q. rewrite Ho2 by done. split; [done|].
           pose proof (sp_grown _ _ _ S2) as G2. split; [by eapply grown_oldReg|by eapply addressed_grown].
      * specialize (Hi2 p Hin). unfold installed in *. case_decide as HT; [|done]. rewrite Hi2.
        destruct (decide (p = Pred)) as [->|Hne]; [by rewrite HT1|by apply Ho1].
    + intros p HT [Hne Hnin]%not_elem_of_cons. rewrite Ho2 by done. by apply Ho1.
Qed.

(** ** Values at a block *)

(** Entered from [p], [r] has the value of [q]: it is [q], or a PHI of the block. *)
Definition carries (s : FState) (b p : positive) (r q : reg) : Prop :=
  r = q \/ exists x l, x ∈ instrs (block b s) /\ isPHI (f_instr x s) = true /\ mi_ops (f_instr x s) = def r :: l /\
    (exists v m, (v, m) ∈ phiPairs l /\ getMBB m = Some p) /\
    forall v m, (v, m) ∈ phiPairs l -> getMBB m = Some p -> getReg v = q.

Lemma carries_grown s s' b p r q : structured s -> grown s s' -> b ∈ layout s -> carries s b p r q -> carries s' b p r q.
Proof.
  intros Hs G Hb [->|(x & l & Hx & Hphi & Hops & Hex & Hv)]; [by left|]. right. exists x, l.
  rewrite (grown_instr s s' b x) by done. split_and!; [by apply (gw_instrs _ _ G)|done..].
Qed.

(** ** A checked block *)
Definition compareCode (b : positive) (TargetReg addr : reg) : list MInstr :=
  if smallNonPIC T then [built "CMP64ri32" 0 [useKill TargetReg; mbb b; liveFlags]]
  else [addressOfBlock T addr b; built "CMP64rr" 0 [useKill TargetReg; useKill addr; liveFlags]].
Definition checkCode (b : positive) (TargetReg addr r : reg) : list MInstr :=
  compareCode b TargetReg addr ++ [cmovOf PoisonReg r InitialReg COND_NE true].

Definition headInstr (i : MInstr) : bool := isPHI i || isLabel i || isDebugInstr i.

(** What a predecessor hands over: the target of its indirect branch, or the address of
    the block it branches to. *)
Definition sourceOf (s s' : FState) (b p : positive) (q : reg) : Prop :=
  endsIndirect s p q \/ (forall q', ~ endsIndirect s p q') /\ addressed s' b p q.

Record checkedBy (s' : FState) (b CMovI : positive) (TargetReg addr r : reg) : Prop := {
  cb_code : exists pre xs post, instrs (block b s') = pre ++ (xs ++ [CMovI]) ++ post /\
    (forall y, y ∈ pre -> headInstr (f_instr y s') = true) /\
    Forall2 (fun x i => f_code s' !! x = Some i) (xs ++ [CMovI]) (checkCode b TargetReg addr r);
  cb_fresh : addr <> TargetReg /\ addr <> InitialReg /\ addr <> PoisonReg;
  cb_available : available s' !! b = Some r;
  cb_taken : hasAddressTaken (block b s') = true }.

Definition targetChecked (s s' : FState) (b CMovI : positive) : Prop :=
  exists TargetReg addr r, checkedBy s' b CMovI TargetReg addr r /\
    forall p, p ∈ predecessors b s -> exists q, carries s' b p TargetReg q /\ sourceOf s s' b p q.

Lemma checkedBy_kept s s' b x TargetReg addr r : structured s -> grown s s' -> b ∈ layout s ->
  available s' !! b = available s !! b -> keepsHead s s' b -> checkedBy s b x TargetReg addr r -> checkedBy s' b x TargetReg addr r.
Proof.
  intros Hs G Hb Ha Hh [(pre & xs & post & Hi & Hpre & Hxs) Hf Hav Ht]. split; [|done|by rewrite Ha|by apply (gw_taken _ _ G)].
  apply Forall2_app_inv_r in Hxs as (xs1 & xs2 & H1 & H2 & Ex). apply Forall2_cons_inv_r in H2 as (x2 & l & Hx & Hl & ->).
  apply Forall2_nil_inv_r in Hl as ->. apply app_inj_tail in Ex as [<- <-].
  destruct (Hh (pre ++ xs) x post) as [post' Hi'].
  - rewrite Hi. by list_simplifier.
  - unfold isTerm, f_instr. rewrite Hx. apply term_cmov.
  - exists pre, xs, post'. split_and!.
    + rewrite Hi'. by list_simplifier.
    + intros y Hy. rewrite (grown_instr s s' b); [by apply Hpre|done..|]. rewrite Hi. set_solver.
    + apply Forall2_app; [|constructor; [by apply (gw_code _ _ G)|constructor]].
      eapply Forall2_impl; [exact H1|]. intros y i. apply (gw_code _ _ G).
Qed.

Lemma targetChecked_kept s s1 s2 b x : structured s1 -> grown s s1 -> grown s1 s2 -> b ∈ layout s1 ->
  available s2 !! b = available s1 !! b -> keepsHead s1 s2 b -> targetChecked s s1 b x -> targetChecked s s2 b x.
Proof.
  intros Hs G0 G Hb Ha Hh (TR & addr & r & Hc & Hp). exists TR, addr, r. split; [by apply (checkedBy_kept s1)|].
  intros p Hin. destruct (Hp p Hin) as (q & Hq & Hsrc). exists q. split; [by apply (carries_grown s1)|].
  destruct Hsrc as [He|[Hn Had]]; [by left|]. right. split; [done|]. by apply (addressed_grown s1).
Qed.

(** ** The code of one check *)
Lemma virt_old k s : oldReg (Virt k) s -> (k < f_nextReg s)%positive.
Proof. intros H. by apply H. Qed.

Lemma fresh_ne r s : oldReg r s -> Virt (f_nextReg s) <> r.
Proof. intros Hr <-. specialize (Hr _ eq_refl). lia. Qed.

Lemma compare_ok b pre post TargetReg s : structured s -> b ∈ layout s -> instrs (block b s) = pre ++ post ->
  oldReg TargetReg s -> oldReg InitialReg s -> oldReg PoisonReg s ->
  wp (compareTarget T b (head post) TargetReg) s (fun _ s' => structured s' /\ grown s s' /\ extends (fun y => y = b) s s' /\
    exists xs addr, instrs (block b s') = (pre ++ xs) ++ post /\
      (addr <> TargetReg /\ addr <> InitialReg /\ addr <> PoisonReg) /\
      Forall2 (fun x i => f_code s' !! x = Some i) xs (compareCode b TargetReg addr)).
Proof.
  intros Hs Hb Hi HT HI HP. unfold compareTarget, compareCode. destruct (smallNonPIC T) eqn:Esm.
  - wp_step. apply (build_ok b pre post); [done..|set_solver|]. intros x s' Hs' He Hi' Hc Hn. apply fwp_ret.
    split_and!; [done|by eapply extends_build_grown|done|]. exists [x], (Virt (f_nextReg s)). split_and!.
    + rewrite Hi'. by list_simplifier.
    + by apply fresh_ne.
    + by apply fresh_ne.
    + by apply fresh_ne.
    + by repeat constructor.
  - wp_step. apply create_ok; [done|]. intros s1 Hs1 He1 Hb1 Hn1. pose proof (extends_create_grown _ _ He1) as G1.
    assert (b ∈ layout s1) as Hbl1 by (by rewrite (gw_layout _ _ G1)).
    assert (instrs (block b s1) = pre ++ post) as Hi1 by (by rewrite (ex_block _ _ _ He1 b) by tauto).
    wp_step. apply (build_ok b pre post); [done..| |].
    { intros k. rewrite defsOf_address, list_elem_of_singleton. intros [= ->]. lia. }
    intros x s2 Hs2 He2 Hi2 Hc2 Hn2. pose proof (extends_build_grown _ _ _ _ _ _ Hs1 He2 Hi1 Hi2) as G2.
    rewrite (cons_middle x pre), (assoc_L (++)) in Hi2. wp_step.
    apply (build_ok b (pre ++ [x]) post); [done|by rewrite (gw_layout _ _ G2)|done|set_solver|].
    intros y s3 Hs3 He3 Hi3 Hc3 Hn3. pose proof (extends_build_grown _ _ _ _ _ _ Hs2 He3 Hi2 Hi3) as G3. apply fwp_ret.
    split_and!; [done|by eapply grown_trans, grown_trans| |].
    + eapply extends_trans; [|eapply extends_trans; [exact He2|exact He3]]. eapply extends_mono; [|exact He1]. by intros ? [].
    + exists [x; y], (Virt (f_nextReg s)). split_and!.
      * rewrite Hi3. by list_simplifier.
      * by apply fresh_ne.
      * by apply fresh_ne.
      * by apply fresh_ne.
      * constructor; [by apply (gw_code _ _ G3)|]. by repeat constructor.
Qed.

(** ** The SSA updater *)
Variable GetValueInMiddleOfBlock : gmap positive reg -> positive -> FState -> reg * FState.

(** Given a value for every predecessor, the updater returns a register that carries them,
    and adds at most PHIs at the head of the block. *)
Class UpdaterLaws : Prop :=
  updater_spec a b s : structured s -> b ∈ layout s -> predecessors b s <> [] ->
    (forall p, p ∈ predecessors b s -> exists q, a !! p = Some q /\ oldReg q s) ->
    let r := (GetValueInMiddleOfBlock a b s).1 in let s' := (GetValueInMiddleOfBlock a b s).2 in
    exists xs, structured s' /\ extends (fun y => y = b) s s' /\ oldReg r s' /\
      instrs (block b s') = xs ++ instrs (block b s) /\ (forall x, x ∈ xs -> isPHI (f_instr x s') = true) /\
      forall p q, p ∈ predecessors b s -> a !! p = Some q -> carries s' b p r q.
Context {HU : UpdaterLaws}.

(** ** One target *)
Lemma updateBlock_taken b s : structured s -> b ∈ layout s ->
  let s' := with_blocks (alter set_addressTaken b (blocks s)) s in
  structured s' /\ grown s s' /\ (forall c, instrs (block c s') = instrs (block c s)) /\ hasAddressTaken (block b s') = true.
Proof.
  intros Hs Hb s'. assert (forall c, block c s' = if decide (c = b) then set_addressTaken (block b s) else block c s) as Hblk.
  { intros c. apply block_updateBlock. by apply st_dom. }
  assert (forall c, instrs (block c s') = instrs (block c s)) as Hi by (intros c; rewrite Hblk; by case_decide; subst).
  split_and!; [|split; try done|done|by rewrite Hblk, decide_True].
  - exact (keeps_updateBlock b set_addressTaken (fun B => eq_refl) s Hs).
  - intros c. rewrite Hblk. by case_decide; subst.
  - intros c. rewrite Hblk. by case_decide; subst.
  - intros c. rewrite Hblk. by case_decide; subst.
  - intros c. rewrite Hblk. by case_decide; subst.
  - intros c y. by rewrite Hi.
Qed.

Lemma structured_available a s : structured s -> structured (with_available a s).
Proof. intros []. by split. Qed.

(** What the pass has collected of the function [s0]. *)
Record accepted (s0 : FState) (Terminated : gset positive) (b : positive) : Prop := {
  ac_pad : isEHPad (block b s0) = false;
  ac_live : EFLAGS ∉ liveins (block b s0);
  ac_only p : p ∈ predecessors b s0 -> p ∉ Terminated -> reachesOnly s0 b p }.

Record targets (s0 : FState) (Terminated : gset positive) (a : gmap positive reg) : Prop := {
  ta_ends p : p ∈ layout s0 -> p ∈ Terminated <-> exists q, endsIndirect s0 p q;
  ta_addr p : p ∈ Terminated -> exists q, a !! p = Some q /\ endsIndirect s0 p q /\ oldReg q s0 }.

Lemma checkTarget_ok s0 Terminated a b s :
  structured s -> grown s0 s -> b ∈ layout s0 -> predecessors b s0 <> [] -> accepted s0 Terminated b -> targets s0 Terminated a ->
  oldReg InitialReg s0 -> oldReg PoisonReg s0 ->
  wp (checkTarget C T isLabel InitialReg PoisonReg GetValueInMiddleOfBlock b Terminated a) s (fun r s' =>
    structured s' /\ grown s s' /\ targets s0 Terminated r.1 /\ targetChecked s0 s' b r.2 /\
    forall c, c <> b -> c ∈ layout s0 -> available s' !! c = available s !! c /\ keepsHead s s' c).
Proof using All.
  intros Hs G0 Hb Hpr [Hpad Hlive Honly] [Hends Haddr] HI HP.
  assert (b ∈ layout s) as Hbl by (by rewrite (gw_layout _ _ G0)).
  pose proof (grown_predecessors _ _ b G0) as Hpred.
  unfold checkTarget. wp_step. wp_step. wp_step. wp_step; [by rewrite (gw_pad _ _ G0), Hpad|].
  wp_step. wp_step. wp_step. wp_step; [by rewrite (gw_liveins _ _ G0), bool_decide_false|].
  wp_step. wp_step. wp_step. eapply fwp_mono.
  { apply (installTargets_ok b b Terminated _ a s Hs). intros p Hp. rewrite Hpred in Hp. split.
    - apply elem_of_predecessors in Hp as [Hp _]. by rewrite (gw_layout _ _ G0).
    - intros HT Succ. rewrite (gw_successors _ _ G0), (gw_pad _ _ G0). by apply (Honly p). }
  intros a1 s1 (S1 & HT1 & Hin1 & _). cbn beta. rewrite Hpred in Hin1. pose proof (sp_grown _ _ _ S1) as G1.
  pose proof (grown_trans _ _ _ G0 G1) as G01. pose proof (sp_structured _ _ _ S1) as Hs1.
  assert (forall p, p ∈ predecessors b s0 -> exists q, a1 !! p = Some q /\ oldReg q s1 /\ sourceOf s0 s1 b p q) as Hsrc.
  { intros p Hp. specialize (Hin1 p Hp). unfold installed in Hin1.
    assert (p ∈ layout s0) as Hpl by (by apply elem_of_predecessors in Hp as [? _]). case_decide as HT.
    - destruct (Haddr p HT) as (q & Hq & He & Ho). exists q. split_and!; [by rewrite Hin1|by eapply grown_oldReg|by left].
    - destruct Hin1 as (q & Hq & Ho & Had). exists q. split_and!; [done|done|]. right. split; [|done].
      intros q' Hq'. apply HT, (Hends p Hpl). by exists q'. }
  wp_step. unfold valueInMiddle. unfold wp at 1.
  destruct (updater_spec a1 b s1) as (xs & Hs2 & He2 & Hr2 & Hi2 & Hphi & Hcar).
  { done. } { by rewrite (gw_layout _ _ G01). } { by rewrite (grown_predecessors _ _ b G01). }
  { intros p. rewrite (grown_predecessors _ _ b G01). intros Hp. destruct (Hsrc p Hp) as (q & ? & ? & _). eauto. }
  rewrite (grown_predecessors _ _ b G01) in Hcar.
  destruct (GetValueInMiddleOfBlock a1 b s1) as [TargetReg s2]. cbn [fst snd] in *.
  assert (grown s1 s2) as G2.
  { apply (extends_grown _ _ _ He2). intros y z. destruct (decide (y = b)) as [->|Hy]; [rewrite Hi2; set_solver|].
    by rewrite (ex_block _ _ _ He2). }
  assert (b ∈ layout s2) as Hbl2 by (by rewrite (gw_layout _ _ G2), (gw_layout _ _ G01)).
  wp_step. apply wp_updateBlock. destruct (updateBlock_taken b s2 Hs2 Hbl2) as (Hs3 & G3 & Hi3 & Htk).
  set (s3 := with_blocks _ s2) in *. wp_step. wp_step. unfold SkipPHIsLabelsAndDebug.
  destruct (skipWhile_split (fun x => isPHI (f_instr x s3) || isLabel (f_instr x s3) || isDebugInstr (f_instr x s3))
    (instrs (block b s3))) as (pre & post & Hpp & Hpre & -> & _).
  pose proof (grown_trans _ _ _ G01 (grown_trans _ _ _ G2 G3)) as G03.
  assert (b ∈ layout s3) as Hbl3 by (by rewrite (gw_layout _ _ G03)).
  wp_step. eapply fwp_mono.
  { apply (compare_ok b pre post TargetReg s3 Hs3 Hbl3 Hpp); eapply grown_oldReg; [exact G3|done|exact G03|done|exact G03|done]. }
  intros [] s4 (Hs4 & G4 & He4 & ys & addr & Hi4 & Hfresh & Hys). cbn beta.
  wp_step. apply create_ok; [done|]. intros s5 Hs5 He5 Hb5 Hn5. pose proof (extends_create_grown _ _ He5) as G5.
  assert (instrs (block b s5) = (pre ++ ys) ++ post) as Hi5 by (by rewrite (ex_block _ _ _ He5 b) by tauto).
  assert (b ∈ layout s5) as Hbl5 by (by rewrite (gw_layout _ _ G5), (gw_layout _ _ G4)).
  wp_step. apply (build_ok b (pre ++ ys) post); [done..| |].
  { intros k. rewrite defsOf_cmov, list_elem_of_singleton. intros [= ->]. lia. }
  intros x s6 Hs6 He6 Hi6 Hc6 Hn6. pose proof (extends_build_grown _ _ _ _ _ _ Hs5 He6 Hi5 Hi6) as G6.
  wp_step. unfold AddAvailableValue, fmodify. unfold wp at 1. apply fwp_ret. cbn [fst].
  set (r := Virt (f_nextReg s4)) in *. set (s7 := with_available _ s6).
  assert (grown s6 s7) as G7 by by split.
  pose proof (grown_trans _ _ _ G4 (grown_trans _ _ _ G5 (grown_trans _ _ _ G6 G7))) as G37.
  pose proof (grown_trans _ _ _ (grown_trans _ _ _ G2 G3) G37) as G17.
  split_and!.
  - by apply structured_available.
  - by eapply grown_trans.
  - split; [done|]. intros p HT. rewrite (HT1 p HT). by apply Haddr.
  - exists TargetReg, addr, r. split.
    + split.
      * exists pre, ys, post. split_and!.
        -- change (instrs (block b s7)) with (instrs (block b s6)). rewrite Hi6. by list_simplifier.
        -- intros y Hy. unfold headInstr. rewrite (grown_instr s3 s7 b y); [by apply Hpre|done..|]. rewrite Hpp. set_solver.
        -- unfold checkCode. apply Forall2_app.
           ++ eapply Forall2_impl; [exact Hys|]. intros y i Hy. by apply (gw_code _ _ G7), (gw_code _ _ G6), (gw_code _ _ G5).
           ++ by repeat constructor.
      * done.
      * simpl. apply lookup_insert_eq.
      * apply (gw_taken _ _ G37). exact Htk.
    + intros p Hp. destruct (Hsrc p Hp) as (q & Hq & _ & Hq'). exists q. split.
      * apply (carries_grown s2); [done|by eapply grown_trans|done|]. by apply Hcar.
      * destruct Hq' as [|[? ?]]; [by left|]. right. split; [done|]. by apply (addressed_grown s1).
  - intros c Hc Hcl. assert (c ∈ layout s) as Hcs by (by rewrite (gw_layout _ _ G0)). split.
    + simpl. rewrite lookup_insert_ne by done. rewrite (ex_available _ _ _ He6), (ex_available _ _ _ He5), (ex_available _ _ _ He4).
      simpl. by rewrite (ex_available _ _ _ He2), (sp_available _ _ _ S1).
    + eapply keepsHead_trans; [done|exact G1|done|by apply S1|]. apply keepsHead_same.
      change (instrs (block c s7)) with (instrs (block c s6)).
      rewrite (ex_block _ _ _ He6 c), (ex_block _ _ _ He5 c), (ex_block _ _ _ He4 c) by tauto. rewrite Hi3.
      by rewrite (ex_block _ _ _ He2 c).
Qed.

(** ** All targets *)
Lemma checkTargets_ok s0 w l a s : structured s -> grown s0 s -> NoDup l ->
  (forall b, b ∈ l -> b ∈ layout s0 /\
     (b ∈ IndirectTargetMBBs w -> predecessors b s0 <> [] /\ accepted s0 (IndirectTerminatedMBBs w) b)) ->
  targets s0 (IndirectTerminatedMBBs w) a -> oldReg InitialReg s0 -> oldReg PoisonReg s0 ->
  wp (checkTargets C T isLabel InitialReg PoisonReg GetValueInMiddleOfBlock l w a) s (fun CMovs s' =>
    structured s' /\ grown s s' /\
    (forall c, c ∉ l -> c ∈ layout s0 -> available s' !! c = available s !! c /\ keepsHead s s' c) /\
    (forall b, b ∈ l -> b ∈ IndirectTargetMBBs w -> exists CMovI, CMovI ∈ CMovs /\ targetChecked s0 s' b CMovI)).
Proof using All.
  intros Hs G0 Hd Hl Ha HI HP. revert a s Hs G0 Ha. induction Hd as [|b l Hb Hd IH]; intros a s Hs G0 Ha; cbn [checkTargets].
  { apply fwp_ret. split_and!; [done|apply grown_refl| |by intros b ?%elem_of_nil]. intros c _ _. split; [done|by apply keepsHead_same]. }
  destruct (Hl b) as [Hbl Hbw]; [left|]. assert (forall c, c ∈ l -> _) as Hl' by (intros c Hc; apply (Hl c); by right).
  specialize (IH Hl'). case_decide as Hin.
  - destruct (Hbw Hin) as [Hpr Hac]. wp_step. eapply fwp_mono; [by apply (checkTarget_ok s0 _ a b s)|].
    intros [a1 CMovI] s1 (Hs1 & G1 & Ha1 & Hch & Hrest). cbn [fst snd] in *. cbn beta iota. wp_step.
    pose proof (grown_trans _ _ _ G0 G1) as G01.
    eapply fwp_mono; [by apply (IH a1 s1)|]. intros CMovs s2 (Hs2 & G2 & Hk2 & Hch2). cbn beta. apply fwp_ret. split_and!.
    + done.
    + by eapply grown_trans.
    + intros c [Hc Hcl]%not_elem_of_cons Hc0. destruct (Hrest c Hc Hc0) as [E1 K1]. destruct (Hk2 c Hcl Hc0) as [E2 K2].
      split; [by rewrite E2|]. eapply keepsHead_trans; [exact Hs|exact G1|by rewrite (gw_layout _ _ G0)|done|done].
    + intros c [->|Hc]%elem_of_cons Hcw.
      * destruct (Hk2 b Hb Hbl) as [E2 K2]. exists CMovI. split; [left|].
        apply (targetChecked_kept s0 s1 s2); [done..| |done|done|done]. by rewrite (gw_layout _ _ G01).
      * destruct (Hch2 c Hc Hcw) as (x & Hx & Hxc). exists x. split; [by right|done].
  - eapply fwp_mono; [by apply (IH a s)|]. intros CMovs s2 (Hs2 & G2 & Hk2 & Hch2). cbn beta. split_and!; [done|done| |].
    + intros c [Hc Hcl]%not_elem_of_cons. by apply Hk2.
    + intros c [->|Hc]%elem_of_cons Hcw; [done|by apply Hch2].
Qed.

(** ** What the code of a check computes *)

(** Addresses of blocks, and of labels and words in memory. *)
Variable addressOf : positive -> Z.
Variable symbol : string -> Z.
Variable memory : Z -> Z.

Definition blockExec1 (c : CPU) (i : MInstr) : option CPU :=
  match opcode i, kinds i with
  | "MOV64ri32", [OReg d; OMBB b] => Some (setr d (addressOf b) c)
  | "LEA64r", [OReg d; OReg RIP; OImm 1; OReg NoRegister; OMBB b; OReg NoRegister] => Some (setr d (addressOf b) c)
  | "CMP64ri32", [OReg a; OMBB b; _] => Some (setf (regs c a =? addressOf b)%Z c)
  | _, _ => exec1 symbol memory c i
  end%string.

Fixpoint blockExec (c : CPU) (l : list MInstr) : option CPU :=
  match l with [] => Some c | i :: l => match blockExec1 c i with Some c => blockExec c l | None => None end end.

(** The state behind the check. *)
Lemma blockExec_check b TargetReg addr r c : addr <> TargetReg /\ addr <> InitialReg /\ addr <> PoisonReg ->
  exists c', blockExec c (checkCode b TargetReg addr r) = Some c' /\
    regs c' r = (if decide (regs c TargetReg = addressOf b) then regs c InitialReg else regs c PoisonReg).
Proof.
  intros (H1 & H2 & H3). unfold checkCode, compareCode, addressOfBlock. destruct (smallNonPIC T); cbn.
  - eexists. split; [done|]. cbn. rewrite decide_True by done. destruct (Z.eqb_spec (regs c TargetReg) (addressOf b)).
    + by rewrite decide_True.
    + by rewrite decide_False.
  - eexists. split; [done|]. cbn. rewrite decide_True by done. rewrite (decide_False (P := TargetReg = addr)) by done.
    rewrite (decide_True (P := addr = addr)) by done. rewrite !(decide_False (P := _ = addr)) by done.
    destruct (Z.eqb_spec (regs c TargetReg) (addressOf b)).
    + by rewrite decide_True.
    + by rewrite decide_False.
Qed.

(** ** The whole function *)

Lemma indirectBlocks_reg rc l w s : indirectBlocks C l w (afterReg rc s) = indirectBlocks C l w s.
Proof.
  revert w. induction l as [|b l IH]; intros w; [done|]. cbn [indirectBlocks].
  change (indirectBlock C b w (afterReg rc s)) with (indirectBlock C b w s). by destruct (indirectBlock C b w s).
Qed.

Definition noIndirect : IndirectInfo := {| TargetAddr := ∅; IndirectTerminatedMBBs := ∅; IndirectTargetMBBs := ∅ |}.

Lemma collected_all s w : indirectBlocks C (layout s) noIndirect s = inr w -> collected s (layout s) w.
Proof.
  intros H. apply (indirectBlocks_spec s (layout s) w [] noIndirect H). split; [set_solver| |set_solver].
  intros p q. split; [done|]. by intros [?%elem_of_nil _].
Qed.

Lemma collected_entry s w b : collected s (layout s) w -> b ∈ IndirectTargetMBBs w -> predecessors b s <> [].
Proof.
  intros [HT _ HG] (p & Hp & Hb)%HG. apply HT in Hp as [Hp _]. intros He.
  assert (p ∈ predecessors b s) as Hin by (by apply elem_of_predecessors). rewrite He in Hin. by apply elem_of_nil in Hin.
Qed.

(** The branch can enter [b]. *)
Definition indirectTarget (s : FState) (b : positive) : Prop :=
  exists p q, p ∈ layout s /\ endsIndirect s p q /\ b ∈ successors (block p s).

Lemma indirectTarget_iff s w : collected s (layout s) w -> forall b, b ∈ IndirectTargetMBBs w <-> indirectTarget s b.
Proof.
  intros [HT _ HG] b. rewrite HG. split.
  - intros (p & Hp & Hb). apply HT in Hp as [Hp [q Hq]]. by exists p, q.
  - intros (p & q & Hp & Hq & Hb). exists p. split; [|done]. apply HT. split; [done|by exists q].
Qed.

Lemma targets_collected s w : collected s (layout s) w -> (forall p q, p ∈ layout s -> endsIndirect s p q -> oldReg q s) ->
  targets s (IndirectTerminatedMBBs w) (TargetAddr w).
Proof.
  intros [HT HA _] Hold. split.
  - intros p Hp. rewrite HT. naive_solver.
  - intros p [Hp [q Hq]]%HT. exists q. split_and!; [by apply HA|done|by apply (Hold p)].
Qed.

Lemma traceIndirect_ok s w : structured s -> indirectBlocks C (layout s) noIndirect s = inr w ->
  collected s (layout s) w -> targets s (IndirectTerminatedMBBs w) (TargetAddr w) ->
  (forall b, b ∈ IndirectTargetMBBs w -> accepted s (IndirectTerminatedMBBs w) b) ->
  oldReg InitialReg s -> oldReg PoisonReg s ->
  wp (tracePredStateThroughIndirectBranches C T isLabel InitialReg PoisonReg GetValueInMiddleOfBlock) s (fun CMovs s' =>
    structured s' /\ grown s s' /\
    forall b, b ∈ layout s -> b ∈ IndirectTargetMBBs w -> exists CMovI, CMovI ∈ CMovs /\ targetChecked s s' b CMovI).
Proof using All.
  intros Hs Hw Hcol Ht Hacc HI HP. unfold tracePredStateThroughIndirectBranches. wp_step.
  change (wp (f_createVirtualRegister GR64) s ?Q) with (Q (Virt (f_nextReg s)) (afterReg GR64 s)). cbn beta.
  pose proof (extends_create_grown _ _ (extends_afterReg _ GR64 s)) as G. wp_step. wp_step. wp_step. unfold wp at 1.
  change (layout (afterReg GR64 s)) with (layout s). rewrite indirectBlocks_reg. fold noIndirect. rewrite Hw.
  destruct (decide (IndirectTargetMBBs w = ∅)) as [E|E].
  - apply fwp_ret. split_and!; [by apply structured_afterReg|done|]. rewrite E. intros b _. set_solver.
  - eapply fwp_mono.
    { apply (checkTargets_ok s w (layout s) (TargetAddr w) (afterReg GR64 s)); try done.
      - by apply structured_afterReg.
      - by apply st_layout.
      - intros b Hb. split; [done|]. intros Hin. split; [by eapply collected_entry|by apply Hacc]. }
    intros CMovs s' (Hs' & G' & _ & Hch). split_and!; [done|by eapply grown_trans|exact Hch].
Qed.

(** C6: on a function whose indirect branches the pass accepts, [tracePredStateThroughIndirectBranches]
    succeeds, and every block an indirect branch can enter has, behind its PHIs, labels and
    debug instructions, the code of a check.  The register it compares has, from every
    predecessor, the target of that predecessor's indirect branch or, where it branches
    otherwise, the block's address computed there.  Executed, the check leaves the predicate
    state as it is when the target is the block's address and poisons it when it is not, and
    its cmov is returned for the rewriting into SSA form. *)
Theorem indirect_targets_checked s w : structured s -> indirectBlocks C (layout s) noIndirect s = inr w ->
  (forall p t, p ∈ layout s -> t ∈ successors (block p s) -> t ∈ layout s) ->
  (forall p q, p ∈ layout s -> endsIndirect s p q -> oldReg q s) ->
  (forall b, indirectTarget s b -> accepted s (IndirectTerminatedMBBs w) b) ->
  oldReg InitialReg s -> oldReg PoisonReg s ->
  exists CMovs s', tracePredStateThroughIndirectBranches C T isLabel InitialReg PoisonReg GetValueInMiddleOfBlock s = inr (CMovs, s') /\
    structured s' /\ grown s s' /\
    forall b, indirectTarget s b -> exists CMovI TargetReg addr r, CMovI ∈ CMovs /\ checkedBy s' b CMovI TargetReg addr r /\
      (forall p, p ∈ predecessors b s -> exists q, carries s' b p TargetReg q /\ sourceOf s s' b p q) /\
      forall c, exists c', blockExec c (checkCode b TargetReg addr r) = Some c' /\
        regs c' r = (if decide (regs c TargetReg = addressOf b) then regs c InitialReg else regs c PoisonReg).
Proof using All.
  intros Hs Hw Hsucc Hold Hacc HI HP. pose proof (collected_all s w Hw) as Hcol.
  pose proof (indirectTarget_iff s w Hcol) as Htgt.
  assert (forall b, indirectTarget s b -> b ∈ layout s) as Hlay by (intros b (p & q & Hp & _ & Hb); by apply (Hsucc p)).
  destruct (wp_run _ s _ (traceIndirect_ok s w Hs Hw Hcol (targets_collected s w Hcol Hold)
    (fun b Hb => Hacc b (proj1 (Htgt b) Hb)) HI HP)) as (CMovs & s' & Hrun & Hs' & G & Hch).
  exists CMovs, s'. split_and!; [done..|]. intros b Hb.
  destruct (Hch b (Hlay b Hb) (proj2 (Htgt b) Hb)) as (x & Hx & TR & addr & r & Hcb & Hp). exists x, TR, addr, r.
  split_and!; [done..|]. intros c. apply blockExec_check, Hcb.
Qed.

End Indirect.

(** ** A run *)
Module IndirectExample.
Import SlhPoison.Example.

(** An updater: the common value of the predecessors, or a PHI in front of the block. *)
Definition incoming (a : gmap positive reg) (b : positive) (s : FState) : list (MOperand * MOperand) :=
  (fun p => (use (default NoRegister (a !! p)), mbb p)) <$> predecessors b s.
Definition phiOf (a : gmap positive reg) (b : positive) (r : reg) (s : FState) : MInstr :=
  built "PHI" 1 (def r :: unpair (incoming a b s)).
Definition updater (a : gmap positive reg) (b : positive) (s : FState) : reg * FState :=
  match predecessors b s with
  | [] => (NoRegister, s)
  | p :: ps =>
    if forallb (fun p' => bool_decide (a !! p' = a !! p)) ps then (default NoRegister (a !! p), s)
    else (Virt (f_nextReg s), afterBuild b (head (instrs (block b s))) (phiOf a b (Virt (f_nextReg s)) s) (afterReg GR64 s))
  end.

Lemma defsOf_unpair a b s : forall o, o ∈ unpair (incoming a b s) -> isDef o = false.
Proof.
  unfold incoming. induction (predecessors b s) as [|p l IH]; intros o; cbn; [by intros ?%elem_of_nil|].
  rewrite !elem_of_cons. intros [->|[->|Ho]]; [done..|by apply IH].
Qed.

Lemma defsOf_phi a b r s k : k ∈ defsOf (phiOf a b r s) -> k = r.
Proof.
  intros (o & Ho & _ & Hd & <-)%elem_of_defsOf. apply elem_of_cons in Ho as [->|Ho]; [done|].
  by rewrite (defsOf_unpair a b s o Ho) in Hd.
Qed.

#[export] Instance updater_laws : UpdaterLaws updater.
Proof.
  intros a b s Hs Hb Hne Ha. unfold updater. destruct (predecessors b s) as [|p ps] eqn:Ep; [done|].
  destruct (forallb _ ps) eqn:E; cbn [fst snd].
  - exists []. split_and!; [done|apply extends_refl| |done|by intros x ?%elem_of_nil|].
    + destruct (Ha p) as (q & -> & Hq); [left|done].
    + intros p' q [->|Hp]%elem_of_cons Hq; left; [by rewrite Hq|].
      rewrite forallb_forall in E. specialize (E p' (proj1 (list_elem_of_In _ _) Hp)). apply bool_decide_eq_true in E.
      by rewrite <- E, Hq.
  - set (i := phiOf a b (Virt (f_nextReg s)) s). set (s1 := afterReg GR64 s).
    assert (structured s1) as Hs1 by by apply structured_afterReg.
    assert (structured (afterBuild b (head (instrs (block b s))) i s1)) as Hs2.
    { apply structured_afterBuild; [done|]. intros k Hk. apply defsOf_phi in Hk as [= ->]. simpl. lia. }
    assert (instrs (block b (afterBuild b (head (instrs (block b s))) i s1)) = f_nextInstr s :: instrs (block b s)) as Hi.
    { rewrite instrs_afterBuild, decide_True by done. apply (insertBefore_head _ []). by apply Hs. }
    assert (f_instr (f_nextInstr s) (afterBuild b (head (instrs (block b s))) i s1) = i) as Hf
      by (unfold f_instr; simpl; by rewrite lookup_insert_eq).
    exists [f_nextInstr s]. split_and!; [done| | |by rewrite Hi| |].
    + eapply extends_trans; [apply extends_afterReg|by apply extends_build].
    + intros k [= <-]. simpl. lia.
    + intros x ->%list_elem_of_singleton. by rewrite Hf.
    + intros p' q Hp Hq. right. exists (f_nextInstr s), (unpair (incoming a b s)). rewrite Hf, Hi.
      assert (forall v m, (v, m) ∈ incoming a b s <-> exists y, (v, m) = (use (default NoRegister (a !! y)), mbb y) /\ y ∈ predecessors b s) as Hin
        by (intros; unfold incoming; by rewrite list_elem_of_fmap).
      split_and!; [left|done|done|..]; rewrite phiPairs_unpair.
      * exists (use (default NoRegister (a !! p'))), (mbb p'). split; [|done]. apply Hin. exists p'. split; [done|]. by rewrite Ep.
      * intros v m (y & [= -> ->] & _)%Hin [= ->]. by rewrite Hq.
Qed.

Definition codeModel : TargetInfo := {|
  getRegSizeInBits := getRegSizeInBits demoTarget; hasSuperClassEq := hasSuperClassEq demoTarget; hasVLX := true; hasBMI2 := true;
  has128ByteRedZone := true; exposesReturnsTwice := false; smallNonPIC := false |}.

(** Block 1 goes to 2 or 3 through a register; block 2 falls to 3. *)
Definition dispatch : FState :=
  FS (list_to_map [(1, builtBranch "JMP64r" [use (Virt 1)]);
                   (2, builtBranch "JMP_1" [mbb 3]);
                   (3, RET)]%positive)
     [1; 2; 3]%positive
     (list_to_map [(1, MB [1] [2; 3] [] false false);
                   (2, MB [2] [3] [] false false);
                   (3, MB [3] [] [] false false)]%positive)
     ∅ 4 7 4 ∅.

Lemma dispatch_code x i : f_code dispatch !! x = Some i -> (x, i) ∈
  [(1, builtBranch "JMP64r" [use (Virt 1)]); (2, builtBranch "JMP_1" [mbb 3]); (3, RET)]%positive.
Proof. apply elem_of_list_to_map_2. Qed.

Lemma dispatch_structured : structured dispatch.
Proof.
  assert (dom (blocks dispatch) = {[1; 2; 3]}%positive) as Hb by done.
  assert (dom (f_code dispatch) = {[1; 2; 3]}%positive) as Hc by done.
  constructor.
  - simpl. repeat constructor; set_solver.
  - intros b. rewrite Hb. simpl. set_solver.
  - simpl. intros b H. each H; lia.
  - simpl. intros b H. each H; cbn; repeat constructor; set_solver.
  - simpl. intros b1 b2 x H1 H2. each H1; each H2; cbn; set_solver.
  - rewrite Hc. simpl. intros b x H. each H; cbn; set_solver.
  - intros x. rewrite Hc. simpl. intros H. rewrite !elem_of_union, !elem_of_singleton in H. simpl. lia.
  - intros x i k H%dispatch_code. each H; cbn; intros Hk; each Hk; cbn in Hk; simplify_eq; lia.
Qed.

Definition noLabel (i : MInstr) : bool := false.
Definition dispatchInfo : IndirectInfo :=
  match indirectBlocks target [1; 2; 3]%positive noIndirect dispatch with inr w => w | inl _ => noIndirect end.

Lemma dispatch_ends p q : p ∈ layout dispatch -> endsIndirect target dispatch p q -> p = 1%positive /\ q = Virt 1.
Proof. simpl. intros H (TI & HL & Ht & Hb & Hj & ->). each H; vm_compute in HL; injection HL as <-; done. Qed.

Lemma dispatch_targets b : indirectTarget target dispatch b -> b = 2%positive \/ b = 3%positive.
Proof. intros (p & q & Hp & Hq & Hb). destruct (dispatch_ends p q Hp Hq) as [-> ->]. simpl in Hb. each Hb; auto. Qed.

Lemma indirect_targets_checked_witness :
  structured dispatch /\ indirectBlocks target [1; 2; 3]%positive noIndirect dispatch = inr dispatchInfo /\
  exists CMovs s', tracePredStateThroughIndirectBranches target codeModel noLabel (Virt 5) (Virt 6) updater dispatch = inr (CMovs, s') /\
    structured s' /\ grown dispatch s' /\
    forall b, indirectTarget target dispatch b -> exists CMovI TargetReg addr r,
      CMovI ∈ CMovs /\ checkedBy codeModel noLabel (Virt 5) (Virt 6) s' b CMovI TargetReg addr r /\
      (forall p, p ∈ predecessors b dispatch -> exists q, carries s' b p TargetReg q /\ sourceOf target codeModel dispatch s' b p q) /\
      forall c, exists c', blockExec Zpos (fun _ => 0%Z) (fun _ => 0%Z) c (checkCode codeModel (Virt 5) (Virt 6) b TargetReg addr r) = Some c' /\
        regs c' r = (if decide (regs c TargetReg = Zpos b) then regs c (Virt 5) else regs c (Virt 6)).
Proof.
  split; [exact dispatch_structured|]. split; [by vm_compute|].
  apply (indirect_targets_checked target codeModel noLabel (Virt 5) (Virt 6) updater Zpos (fun _ => 0%Z) (fun _ => 0%Z) dispatch dispatchInfo).
  - exact dispatch_structured.
  - by vm_compute.
  - simpl. intros p t H Ht. each H; cbn in Ht; set_solver.
  - intros p q Hp Hq k. destruct (dispatch_ends p q Hp Hq) as [_ ->]. by intros [= <-].
  - intros b [->| ->]%dispatch_targets.
    + split; [done|cbn; set_solver|]. intros p Hp Hn. exfalso. apply Hn. vm_compute in Hp. each Hp. by vm_compute.
    + split; [done|cbn; set_solver|]. intros p Hp Hn Succ HS. vm_compute in Hp. each Hp.
      * exfalso. apply Hn. by vm_compute.
      * cbn in HS. right. set_solver.
  - intros k [= <-]. done.
  - intros k [= <-]. done.
Defined.

(** Block 3 gets a PHI of the target and of its own address as block 2 computes it. *)
Example dispatch_traced :
  match tracePredStateThroughIndirectBranches target codeModel noLabel (Virt 5) (Virt 6) updater dispatch with
  | inr (CMovs, s') => length CMovs = 2%nat /\
      (opcode ∘ (fun x => f_instr x s') <$> instrs (block 2 s')) = ["LEA64r"; "CMP64rr"; "CMOV64rr"; "LEA64r"; "JMP_1"]%string /\
      (opcode ∘ (fun x => f_instr x s') <$> instrs (block 3 s')) = ["PHI"; "LEA64r"; "CMP64rr"; "CMOV64rr"; "RET64"]%string
  | inl _ => False
  end.
Proof. vm_compute. done. Qed.
End IndirectExample.
