(* ===== verification/SlhCond.v ===== *)
(** * Branch conditions and variable-timing instructions

    The part of [X86SpeculativeLoadHardening.cpp] behind the options -sbh, -sbhAll and
    -vtInstr: the tables of opcodes, the search for the instruction that sets the flags of a
    conditional branch, [hardenBranch] and [hardenVariantTimingInstr].  The target's
    knowledge about floating point and about splitting a memory operand off is a parameter.
    Results are values of [Res]: the walks can hand null to [MBB.erase], a loop can run out
    of its bound, and an array can be indexed outside its bounds. *)
From stdpp Require Import base countable gmap sets list option strings.
From Stdlib Require Import ZArith Lia.
From S2P Require Import Prelude Machine Slh.

(** ** Outcomes *)
Inductive Res (A : Type) := Done (a : A) | NullErased | OutOfFuel | Undefined.
Arguments Done {A}.
Arguments NullErased {A}.
Arguments OutOfFuel {A}.
Arguments Undefined {A}.

Definition rbind {A B} (m : SM (Res A)) (f : A -> SM (Res B)) : SM (Res B) :=
  r ← m;
  match r with
  | Done a => f a
  | NullErased => mret NullErased
  | OutOfFuel => mret OutOfFuel
  | Undefined => mret Undefined
  end.

Declare Scope res_scope.
Delimit Scope res_scope with res.
Notation "x ⇐ m ; k" := (rbind m (fun x => k)) (at level 20, m at level 100, k at level 200, right associativity)
  : res_scope.
Open Scope res_scope.

(** ** The tables *)
Definition flagSet8 : list string :=
  ["CMP8rr"; "CMP8ri"; "CMP8ri8"; "CMP8mi"; "CMP8mi8"; "CMP8mr"; "CMP8rm"; "TEST8rr"; "TEST8ri"; "TEST8mi";
   "TEST8mr"; "OR8rr"; "OR8ri"; "OR8ri8"; "OR8mi"; "OR8mi8"; "OR8mr"; "OR8rm"; "AND8rr"; "AND8ri"; "AND8ri8";
   "AND8mi"; "AND8mi8"; "AND8mr"; "AND8rm"; "XOR8rr"; "XOR8ri"; "XOR8ri8"; "XOR8mi"; "XOR8mi8"; "XOR8mr";
   "XOR8rm"; "ADD8rr"; "ADD8ri"; "ADD8ri8"; "ADD8mi"; "ADD8mi8"; "ADD8mr"; "ADD8rm"; "ADC8rr"; "ADC8ri";
   "ADC8ri8"; "ADC8mi"; "ADC8mi8"; "ADC8mr"; "ADC8rm"; "SUB8rr"; "SUB8ri"; "SUB8ri8"; "SUB8mi"; "SUB8mi8";
   "SUB8mr"; "SUB8rm"; "SBB8rr"; "SBB8ri"; "SBB8ri8"; "SBB8mi"; "SBB8mi8"; "SBB8mr"; "SBB8rm"; "MUL8r"; "MUL8m";
   "IMUL8r"; "IMUL8m"; "DIV8r"; "DIV8m"; "IDIV8r"; "IDIV8m"; "INC8r"; "INC8m"; "DEC8r"; "DEC8m"; "NEG8r"; "NEG8m";
   "NOT8r"; "NOT8m"; "SHL8ri"; "SHR8ri"; "SHL8r1"; "SHR8r1"]%string.
Definition flagSet16 : list string :=
  ["CMP16rr"; "CMP16ri"; "CMP16ri8"; "CMP16mi"; "CMP16mi8"; "CMP16mr"; "CMP16rm"; "TEST16rr"; "TEST16ri";
   "TEST16mi"; "TEST16mr"; "BT16rr"; "BT16ri8"; "BT16mr"; "BT16mi8"; "OR16rr"; "OR16ri"; "OR16ri8"; "OR16mi";
   "OR16mi8"; "OR16mr"; "OR16rm"; "AND16rr"; "AND16ri"; "AND16ri8"; "AND16mi"; "AND16mi8"; "AND16mr"; "AND16rm";
   "XOR16rr"; "XOR16ri"; "XOR16ri8"; "XOR16mi"; "XOR16mi8"; "XOR16mr"; "XOR16rm"; "ADD16rr"; "ADD16ri";
   "ADD16ri8"; "ADD16mi"; "ADD16mi8"; "ADD16mr"; "ADD16rm"; "ADC16rr"; "ADC16ri"; "ADC16ri8"; "ADC16mi";
   "ADC16mi8"; "ADC16mr"; "ADC16rm"; "SUB16rr"; "SUB16ri"; "SUB16ri8"; "SUB16mi"; "SUB16mi8"; "SUB16mr";
   "SUB16rm"; "SBB16rr"; "SBB16ri"; "SBB16ri8"; "SBB16mi"; "SBB16mi8"; "SBB16mr"; "SBB16rm"; "MUL16r"; "MUL16m";
   "IMUL16r"; "IMUL16rr"; "IMUL16rm"; "IMUL16rri"; "IMUL16rri8"; "IMUL16rmi"; "IMUL16rmi8"; "DIV16r"; "DIV16m";
   "IDIV16r"; "INC16r"; "INC16m"; "DEC16r"; "DEC16m"; "NEG16r"; "NEG16m"; "NOT16r"; "NOT16m"; "SHL16ri";
   "SHR16ri"; "SHL16r1"; "SHR16r1"; "SHLD16rri8"; "SHRD16rri8"; "BSR16rr"; "BTS16ri8"]%string.
Definition flagSet32 : list string :=
  ["CMP32rr"; "CMP32ri"; "CMP32ri8"; "CMP32mi"; "CMP32mi8"; "CMP32mr"; "CMP32rm"; "TEST32rr"; "TEST32ri";
   "TEST32mi"; "TEST32mr"; "BT32rr"; "BT32ri8"; "BT32mr"; "BT32mi8"; "OR32rr"; "OR32ri"; "OR32ri8"; "OR32mi";
   "OR32mi8"; "OR32mr"; "OR32rm"; "AND32rr"; "AND32ri"; "AND32ri8"; "AND32mi"; "AND32mi8"; "AND32mr"; "AND32rm";
   "ANDN32rr"; "ANDN32rm"; "XOR32rr"; "XOR32ri"; "XOR32ri8"; "XOR32mi"; "XOR32mi8"; "XOR32mr"; "XOR32rm";
   "ADD32rr"; "ADD32ri"; "ADD32ri8"; "ADD32mi"; "ADD32mi8"; "ADD32mr"; "ADD32rm"; "ADC32rr"; "ADC32ri";
   "ADC32ri8"; "ADC32mi"; "ADC32mi8"; "ADC32mr"; "ADC32rm"; "SUB32rr"; "SUB32ri"; "SUB32ri8"; "SUB32mi";
   "SUB32mi8"; "SUB32mr"; "SUB32rm"; "SBB32rr"; "SBB32ri"; "SBB32ri8"; "SBB32mi"; "SBB32mi8"; "SBB32mr";
   "SBB32rm"; "ADCX32rr"; "ADCX32rm"; "ADOX32rr"; "ADOX32rm"; "MUL32r"; "MUL32m"; "IMUL32r"; "IMUL32rr";
   "IMUL32rm"; "IMUL32rri"; "IMUL32rri8"; "IMUL32rmi"; "IMUL32rmi8"; "DIV32r"; "DIV32m"; "IDIV32r"; "INC32r";
   "INC32m"; "DEC32r"; "DEC32m"; "NEG32r"; "NEG32m"; "NOT32r"; "NOT32m"; "SHL32ri"; "SHR32ri"; "SHL32r1";
   "SHR32r1"; "SHLD32rri8"; "SHRD32rri8"; "BLSR32rr"; "BTS32ri8"; "BLSR32rm"; "BZHI32rr"; "BZHI32rm"]%string.
Definition flagSet64 : list string :=
  ["CMP64rr"; "CMP64ri32"; "CMP64ri8"; "CMP64mi32"; "CMP64mi8"; "CMP64mr"; "CMP64rm"; "TEST64rr"; "TEST64ri32";
   "TEST64mr"; "TEST64mi32"; "BT64rr"; "BT64ri8"; "BT64mr"; "BT64mi8"; "OR64rr"; "OR64ri32"; "OR64ri8";
   "OR64mi32"; "OR64mi8"; "OR64mr"; "OR64rm"; "AND64rr"; "AND64ri32"; "AND64ri8"; "AND64mi32"; "AND64mi8";
   "AND64mr"; "AND64rm"; "ANDN64rr"; "ANDN64rm"; "XOR64rr"; "XOR64ri32"; "XOR64ri8"; "XOR64mi32"; "XOR64mi8";
   "XOR64mr"; "XOR64rm"; "ADD64rr"; "ADD64ri32"; "ADD64ri8"; "ADD64mi32"; "ADD64mi8"; "ADD64mr"; "ADD64rm";
   "ADC64rr"; "ADC64ri32"; "ADC64ri8"; "ADC64mi32"; "ADC64mi8"; "ADC64mr"; "ADC64rm"; "SUB64rr"; "SUB64ri32";
   "SUB64ri8"; "SUB64mi32"; "SUB64mi8"; "SUB64mr"; "SUB64rm"; "SBB64rr"; "SBB64ri32"; "SBB64ri8"; "SBB64mi32";
   "SBB64mi8"; "SBB64mr"; "SBB64rm"; "ADCX64rr"; "ADCX64rm"; "ADOX64rr"; "ADOX64rm"; "MUL64r"; "MUL64m";
   "IMUL64r"; "IMUL64rr"; "IMUL64rm"; "IMUL64rri32"; "IMUL64rri8"; "IMUL64rmi32"; "IMUL64rmi8"; "DIV64r";
   "DIV64m"; "IDIV64r"; "INC64r"; "INC64m"; "DEC64r"; "DEC64m"; "NEG64r"; "NEG64m"; "NOT64r"; "NOT64m"; "SHL64ri";
   "SHR64ri"; "SHL64r1"; "SHR64r1"; "SHLD64rri8"; "SHRD64rri8"; "BLSR64rr"; "BTS64ri8"; "BLSR64rm"; "BZHI64rr";
   "BZHI64rm"; "UCOMISDrr"; "UCOMISDrm"; "UCOMISSrr"; "UCOMISSrm"; "VCOMISDrr"; "VCOMISDrm"; "VCOMISSrr";
   "VCOMISSrm"; "VUCOMISDrr"; "VUCOMISDrm"; "VUCOMISSrr"; "VUCOMISSrm"; "VPTESTrr"; "VPTESTYrr"]%string.
Definition flagSetFixed : list string :=
  ["CMP8i8"; "CMP16i16"; "CMP32i32"; "CMP64i32"]%string.
Definition flagKeeping : list string :=
  ["CMOV16rr"; "CMOV16rm"; "CMOV32rr"; "CMOV32rm"; "CMOV64rr"; "CMOV64rm"; "SETCCr"; "SETCCm"]%string.
Definition repeated : list string :=
  ["REP_MOVSB_32"; "REP_MOVSW_32"; "REP_MOVSD_32"; "REP_MOVSQ_32"; "REP_MOVSB_64"; "REP_MOVSW_64"; "REP_MOVSD_64";
   "REP_MOVSQ_64"; "REP_STOSB_32"; "REP_STOSW_32"; "REP_STOSD_32"; "REP_STOSQ_32"; "REP_STOSB_64"; "REP_STOSW_64";
   "REP_STOSD_64"; "REP_STOSQ_64"; "REP_PREFIX"; "REPNE_PREFIX"]%string.
Definition divisions : list string :=
  ["DIV64r"; "IDIV64r"]%string.

(** [default: break] leads to 0. *)
Definition analyseFlagSetInstruction (op : string) : Z :=
  if bool_decide (op ∈ flagSet8) then 1
  else if bool_decide (op ∈ flagSet16) then 2
  else if bool_decide (op ∈ flagSet32) then 4
  else if bool_decide (op ∈ flagSet64) then 8
  else if bool_decide (op ∈ flagSetFixed) then 3
  else if bool_decide (op ∈ flagKeeping) then 5
  else 0.

Definition isFlagSet (op : string) : Z :=
  if bool_decide (op ∈ flagSetFixed) then 3 else if bool_decide (op ∈ flagKeeping) then 5 else 0.

Definition analyseVariantTimingInstruction (op : string) : Z :=
  if bool_decide (op ∈ repeated) then 1 else if bool_decide (op ∈ divisions) then 2 else 0.

(** ** The target and the options *)
Record CondTarget := {
  isConditionalBranch : MInstr -> bool;
  fpExceptions : MInstr -> bool;          (* getFlag(NoFPExcept) or mayRaiseFPException *)
  isRFP80 : RegClass -> bool;             (* RFP80RegClass or RFP80_7RegClass *)
  FR32 : RegClass;
  FR64 : RegClass;
  getOperandBias : MInstr -> nat;
  (* the opcode without the memory operand, and the class of the register the load fills *)
  getOpcodeAfterMemoryUnfold : string -> option (string * RegClass);
  (* the load unfoldMemoryOperand builds for a register *)
  unfoldedLoad : MInstr -> reg -> MInstr;
}.

Record CondOptions := {
  HardenOneBranchCondition : bool;        (* -sbh *)
  HardenAllBranchConditions : bool;       (* -sbhAll *)
  HardenVariantTimingInstr : bool;        (* -vtInstr *)
}.

(** The register numbers the pass keeps: none, the mark 1, or a register. *)
Inductive VTVal := VT0 | VT1 | VTReg (r : reg).
Inductive VTStep := VTReturn (v : VTVal) | VTContinue.

#[export] Instance VTVal_eq_dec : EqDecision VTVal.
Proof. solve_decision. Defined.

Definition RCX : reg := Phys 3.

Section Cond.
Variable T : TargetInfo.
Variable CT : CondTarget.
Variable Opt : Options.
Variable COpt : CondOptions.
Variable liveInEFLAGS : bool.

(** ** Selection *)

(** The flag and the description of an instruction do not depend on its operands. *)
Definition raisesFP (i : MInstr) : bool := fpExceptions CT (withOps [] i).

Definition usesFlags (i : MInstr) : bool :=
  existsb (fun o => isImplicit o && isReg o && bool_decide (getReg o = EFLAGS)) (mi_ops i).

(** The walk of [mayBranch], over the block from its end. *)
Fixpoint flagSetter (s : MState) (l : list positive) (HardenCondition : gset positive) : option positive :=
  match l with
  | [] => None
  | x :: l =>
    let MI_tmp := instr x s in
    if isBranch MI_tmp then flagSetter s l HardenCondition
    else if negb (usesFlags MI_tmp) then flagSetter s l HardenCondition
    else
      let Bytes := isFlagSet (opcode MI_tmp) in
      if (Bytes =? 5)%Z then flagSetter s l HardenCondition
      else if (Bytes =? 3)%Z then None
      else if bool_decide (x ∈ HardenCondition) then None
      else Some x
  end.

Definition mayBranch (s : MState) (MI : MInstr) (HardenCondition : gset positive) : option positive :=
  if negb (isConditionalBranch CT MI) then None
  else if negb (HardenOneBranchCondition COpt) && negb (HardenAllBranchConditions COpt) then None
  else flagSetter s (reverse (body s)) HardenCondition.

Definition mayVariant (MI : MInstr) : bool :=
  if negb (HardenVariantTimingInstr COpt) then false
  else raisesFP MI || negb (analyseVariantTimingInstruction (opcode MI) =? 0)%Z.

(** The first virtual register among the explicit operands is an x87 register. *)
Definition isX87 (s : MState) (MI : MInstr) : bool :=
  match head (filter (fun o => negb (isImplicit o) && isReg o && isVirtual (getReg o) = true) (mi_ops MI)) with
  | Some o => isRFP80 CT (getRegClass (getReg o) s).1
  | None => false
  end.

(** ** Variable-timing instructions *)

(** A copy of the state as wide as [Bytes] in a register of class [RC]. *)
Definition narrowTo (InsertPt : option positive) (Bytes : Z) (RC : RegClass) (StateReg : reg) : SM reg :=
  if (Bytes =? 8)%Z then mret StateReg
  else
    NarrowStateReg ← createVirtualRegister RC;
    BuildMI InsertPt (built "COPY" 1 [def NarrowStateReg; use StateReg]) ;;
    mret NarrowStateReg.

Definition isVector (RC : RegClass) : bool :=
  hasSuperClassEq T RC VR128 || hasSuperClassEq T RC VR256 || hasSuperClassEq T RC VR512.
Definition isVectorX (RC : RegClass) : bool :=
  hasSuperClassEq T RC VR128X || hasSuperClassEq T RC VR256X || hasSuperClassEq T RC VR512.

(** A vector register: the state is broadcast and merged with an or. *)
Definition hardenVector (MI : positive) (k : nat) (Reg : reg) (RC : RegClass) (Is128Bit Is256Bit : bool)
    (StateReg : reg) : SM VTVal :=
  EFLAGSLive ← isEFLAGSLive liveInEFLAGS (Some MI);
  FlagsReg ← (if EFLAGSLive && negb (hasBMI2 T) then r ← saveEFLAGS (Some MI); mret (Some r) else mret None);
  HardenedReg ← createVirtualRegister RC;
  mergeVector T (Some MI) Is128Bit Is256Bit StateReg HardenedReg Reg RC ;;
  setOperandReg MI k HardenedReg ;;
  restoreIf (Some MI) FlagsReg ;;
  mret (VTReg HardenedReg).

(** A scalar register: its bits go through a general register and back. *)
Definition hardenScalar (MI : positive) (k : nat) (Reg : reg) (RC : RegClass) (StateReg : reg) : SM VTVal :=
  let GR := if bool_decide (RC = FR32 CT) then GR32 else GR64 in
  generalReg ← createVirtualRegister GR;
  newReg ← createVirtualRegister GR;
  FlagsReg ← saveIfLive liveInEFLAGS (Some MI);
  BuildMI (Some MI) (built "COPY" 1 [def generalReg; use Reg]) ;;
  StateReg ← narrowTo (Some MI) (regBytes T RC) GR StateReg;
  BuildMI (Some MI) (built (if bool_decide (RC = FR32 CT) then "OR32rr" else "OR64rr") 1
    [def newReg; use generalReg; use StateReg; liveFlags]) ;;
  HardenedReg ← createVirtualRegister RC;
  BuildMI (Some MI) (built "COPY" 1 [def HardenedReg; use newReg]) ;;
  setOperandReg MI k HardenedReg ;;
  restoreIf (Some MI) FlagsReg ;;
  mret (VTReg HardenedReg).

Definition hardenFP (MI : positive) (k : nat) (Reg : reg) (RC : RegClass) (StateReg : reg) : SM VTVal :=
  if negb (bool_decide (RC = FR32 CT)) && negb (bool_decide (RC = FR64 CT)) && negb (isVector RC) then mret VT1
  else if negb (hasVLX T) && (hasSuperClassEq T RC VR128 || hasSuperClassEq T RC VR256) then
    hardenVector MI k Reg RC (hasSuperClassEq T RC VR128) false StateReg
  else if isVectorX RC then
    hardenVector MI k Reg RC (hasSuperClassEq T RC VR128X) (hasSuperClassEq T RC VR256X) StateReg
  else hardenScalar MI k Reg RC StateReg.

(** The count register of a repeated instruction. *)
Definition hardenRCX (MI : positive) (StateReg : reg) : SM unit :=
  FlagsReg ← saveIfLive liveInEFLAGS (Some MI);
  BuildMI (Some MI) (built "OR64rr" 1 [def RCX; use RCX; use StateReg; deadFlags]) ;;
  restoreIf (Some MI) FlagsReg.

(** One turn of the loop over the operands. *)
Definition vtStep (MI : positive) (AddrRegToHardenedReg : gmap reg VTVal) (k : nat) (special : bool) : SM VTStep :=
  let leave := if special then VTReturn VT0 else VTContinue in
  Op ← getOperand MI k;
  if negb (isReg Op) then mret leave
  else
    let Reg := getReg Op in
    if negb (isVirtual Reg) || isDef Op then mret leave
    else
      RC ← getRegClass Reg;
      StateReg ← gets stateReg;
      i ← gets (instr MI);
      if raisesFP i then v ← hardenFP MI k Reg RC StateReg; mret (VTReturn v)
      else if (analyseVariantTimingInstruction (opcode i) =? 1)%Z then hardenRCX MI StateReg ;; mret (VTReturn VT1)
      else if (analyseVariantTimingInstruction (opcode i) =? 2)%Z then
        can ← canHardenRegister T Reg;
        if negb can then mret VTContinue
        else if bool_decide (is_Some (AddrRegToHardenedReg !! Reg)) then mret (VTReturn VT1)
        else hardenValueInCondition T liveInEFLAGS MI k ;; mret (VTReturn VT1)
      else mret VTContinue.

(** Behind the loop.  [hardenFixedAddress] needs a memory operand, and builds nothing it
    could mark unless the base is a frame index or the stack pointer. *)
Definition vtFixed (MI : positive) : SM (Res VTVal) :=
  if HardenFixedAddress Opt then mret (Done VT1)
  else
    i ← gets (instr MI);
    match memoryOperandNo i with
    | Some k =>
      if isFI (addrBase i k) || bool_decide (getReg (addrBase i k) = RSP) then
        hardenFixedAddress liveInEFLAGS MI false ;; mret (Done VT1)
      else mret Undefined
    | None => mret Undefined
    end.

(** The loop; a special call sets [OpIdx] to [idx] at the start of every turn. *)
Fixpoint vtLoop (fuel : nat) (MI : positive) (AddrRegToHardenedReg : gmap reg VTVal) (idx : nat) (special : bool)
    (OpIdx : nat) : SM (Res VTVal) :=
  match fuel with
  | O => mret OutOfFuel
  | S n =>
    i ← gets (instr MI);
    if decide (OpIdx < length (mi_ops i)) then
      let OpIdx := if special then idx else OpIdx in
      r ← vtStep MI AddrRegToHardenedReg OpIdx special;
      match r with
      | VTReturn v => mret (Done v)
      | VTContinue => vtLoop n MI AddrRegToHardenedReg idx special (S OpIdx)
      end
    else vtFixed MI
  end.

Definition hardenVariantTimingInstr (fuel : nat) (MI : positive) (AddrRegToHardenedReg : gmap reg VTVal) (idx : nat)
    (special : bool) : SM (Res VTVal) :=
  vtLoop fuel MI AddrRegToHardenedReg idx special 0.

(** ** Branch conditions *)

(** The loop over the operands: the number hardened, and whether it returned. *)
Fixpoint hardenBranchOps (fuel n : nat) (MI : positive) (AddrRegToHardenedReg : gmap reg reg) (k hardened : nat)
    : SM (Res (nat * bool)) :=
  match n with
  | O => mret (Done (hardened, false))
  | S n =>
    Op ← getOperand MI k;
    i ← gets (instr MI);
    can ← canHardenRegister T (getReg Op);
    if negb (isReg Op) || isDef Op then hardenBranchOps fuel n MI AddrRegToHardenedReg (S k) hardened
    else
      let test hardened :=
        if HardenOneBranchCondition COpt && negb (hardened =? 0)%nat then mret (Done (hardened, true))
        else hardenBranchOps fuel n MI AddrRegToHardenedReg (S k) hardened in
      if raisesFP i then
        v ⇐ hardenVariantTimingInstr fuel MI (VTReg <$> AddrRegToHardenedReg) k true;
        test (if decide (v = VT0) then hardened else S hardened)
      else if negb (isVirtual (getReg Op) && can) then hardenBranchOps fuel n MI AddrRegToHardenedReg (S k) hardened
      else if bool_decide (is_Some (AddrRegToHardenedReg !! getReg Op)) then test (S hardened)
      else hardenValueInCondition T liveInEFLAGS MI k ;; test (S hardened)
  end.

Definition singleLoads : list string := ["VUCOMISSrm"; "VCOMISSrm"]%string.

(** The loaded value merged with the state: a general register, or a scalar through
    general registers. *)
Definition hardenLoaded (MI : positive) (oldOpCode : string) (OldReg : reg) (RC : RegClass) : SM reg :=
  StateReg ← gets stateReg;
  if negb (bool_decide (oldOpCode ∈ singleLoads)) then
    StateReg ← narrowTo (Some MI) (regBytes T RC) RC StateReg;
    HardenedReg ← createVirtualRegister RC;
    BuildMI (Some MI) (built (OrOpCode (regBytes T RC)) 1 [def HardenedReg; use OldReg; use StateReg; deadFlags]) ;;
    mret HardenedReg
  else
    HardenedReg ← createVirtualRegister RC;
    let GR := if bool_decide (RC = FR32 CT) then GR32 else GR64 in
    generalReg ← createVirtualRegister GR;
    newReg ← createVirtualRegister GR;
    BuildMI (Some MI) (built "COPY" 1 [def generalReg; use OldReg]) ;;
    StateReg ← narrowTo (Some MI) (regBytes T RC) GR StateReg;
    BuildMI (Some MI) (built (if bool_decide (RC = FR32 CT) then "OR32rr" else "OR64rr") 1
      [def newReg; use generalReg; use StateReg; deadFlags]) ;;
    BuildMI (Some MI) (built "COPY" 1 [def HardenedReg; use newReg]) ;;
    mret HardenedReg.

(** [setDesc] with the opcode that reads registers only. *)
Definition withDesc (op : string) (ops : list MOperand) (i : MInstr) : MInstr :=
  MIn op (asmString i) (isDebugInstr i) false (mayStore i) (isCall i) (isBranch i) (isReturn i) (numExplicitDefs i)
    (numDescDefs i) None (isDataInvariantLoad i) (isDataInvariant i) ops.

(** Where the memory operand starts: [getMemoryOperandNo] without the bias, or 2 behind a
    virtual definition. *)
Definition removeIndex (i : MInstr) (k : nat) : nat :=
  let o := nth 0 (mi_ops i) (imm 0) in
  if isReg o && isDef o && isVirtual (getReg o) then 2 else (k - getOperandBias CT i)%nat.

(** The memory operand replaced by a register. *)
Definition replaceMemory (at_ : nat) (HardenedReg : reg) (ops : list MOperand) : list MOperand :=
  alter (setReg HardenedReg) at_ (take at_ ops ++ drop (at_ + 4) ops).

(** A comparison with memory: the load is split off, and what it loads is hardened. *)
Definition hardenLoadedCondition (MI : positive) : SM (Res unit) :=
  i ← gets (instr MI);
  match getOpcodeAfterMemoryUnfold CT (opcode i), memoryOperandNo i with
  | Some (newCmpOpCode, RC), Some k =>
    if negb (bool_decide (regBytes T RC ∈ [1; 2; 4; 8]%Z)) then mret Undefined else
    newReg ← createVirtualRegister RC;
    BuildMI (Some MI) (unfoldedLoad CT i newReg) ;;
    FlagsReg ← saveIfLive liveInEFLAGS (Some MI);
    HardenedReg ← hardenLoaded MI (opcode i) newReg RC;
    restoreIf (Some MI) FlagsReg ;;
    let at_ := removeIndex i k in
    if isReg (nth (at_ + 4) (mi_ops i) (imm 0)) then
      updateInstr MI (fun i => withDesc newCmpOpCode (replaceMemory at_ HardenedReg (mi_ops i)) i) ;;
      mret (Done tt)
    else mret Undefined
  | _, _ => mret Undefined
  end.

Definition OrMemOpCode (bytes : Z) : option string :=
  if (bytes =? 1)%Z then Some "OR8mr"%string else if (bytes =? 2)%Z then Some "OR16mr"%string
  else if (bytes =? 4)%Z then Some "OR32mr"%string else if (bytes =? 8)%Z then Some "OR64mr"%string else None.

Definition builtStore (op : string) (ops : list MOperand) : MInstr :=
  MIn op None false true true false false false 0 0 (Some 0%nat) false false ops.

(** A read-modify-write instruction: the state is merged into the memory first. *)
Definition hardenStoredCondition (MI : positive) : SM (Res unit) :=
  FlagsReg ← saveIfLive liveInEFLAGS (Some MI);
  i ← gets (instr MI);
  let Bytes := analyseFlagSetInstruction (opcode i) in
  match OrMemOpCode Bytes with
  | None => mret Undefined
  | Some op =>
    StateReg ← gets stateReg;
    StateReg ← narrowTo (Some MI) Bytes (GPRRegClass Bytes) StateReg;
    BuildMI (Some MI) (builtStore op (take 5 (mi_ops i) ++ [use StateReg; deadFlags])) ;;
    restoreIf (Some MI) FlagsReg ;;
    mret (Done tt)
  end.

Definition hardenBranch (fuel : nat) (MI : positive) (AddrRegToHardenedReg : gmap reg reg) : SM (Res nat) :=
  i ← gets (instr MI);
  r ⇐ hardenBranchOps fuel (length (mi_ops i)) MI AddrRegToHardenedReg 0 0;
  let '(hardened, returned) := r in
  if returned || (2 <? hardened)%nat then mret (Done hardened)
  else if HardenFixedAddress Opt then mret (Done 1)
  else
    i ← gets (instr MI);
    if negb (mayLoad i) && negb (mayStore i) then
      can ← canHardenRegister T (getReg (nth 0 (mi_ops i) (imm 0)));
      mret (Done (if (hardened =? 0)%nat && negb can then 1 else hardened))
    else if negb (mayStore i) then _ ⇐ hardenLoadedCondition MI; mret (Done (S hardened))
    else _ ⇐ hardenStoredCondition MI; mret (Done (S hardened)).

End Cond.
