(* ===== verification/SlhCondWalk.v ===== *)
(** * The walks over a block with every option

    [tracePredStateThroughBlocksAndHarden] for one block, branch conditions and
    variable-timing instructions included: the first walk also collects the instructions
    that set the flags of conditional branches and those whose timing varies, and the
    second hardens them.  With the three options off the walks are those of [Slh]. *)
From stdpp Require Import base countable gmap sets list option strings.
From Stdlib Require Import ZArith Lia.
From S2P Require Import Prelude Machine Slh SlhCond.

Section CondWalk.
Context {orderInstrs : SetOrder positive} {orderNull : SetOrder (option positive)}.
Variable T : TargetInfo.
Variable CT : CondTarget.
Variable Opt : Options.
Variable COpt : CondOptions.
Variable liveInEFLAGS : bool.
Variable succ_empty : bool.
Variable PoisonReg : reg.

(** ** The first walk *)
Record ScanAll := {
  sa_scan : Scan;
  sa_cond : gset positive;           (* HardenCondition *)
  sa_vt : gset positive;             (* HardenVTInstr *)
  sa_x87 : option positive;          (* the x87 instruction a fence goes in front of *)
}.

Definition sa_set_scan (sc : Scan) (c : ScanAll) : ScanAll := Build_ScanAll sc (sa_cond c) (sa_vt c) (sa_x87 c).

Definition addCondition (MI_condition : option positive) (c : ScanAll) : ScanAll :=
  match MI_condition with
  | Some x => Build_ScanAll (sa_scan c) ({[x]} ∪ sa_cond c) (sa_vt c ∖ {[x]}) (sa_x87 c)
  | None => c
  end.

(** What the scan does with an instruction's store and memory operand. *)
Definition scanMemory (s : MState) (MI : positive) (i : MInstr) (c : Scan) : Scan :=
  let c := if HardenStoreAddress Opt && (mayStore i && negb (mayLoad i)) then withStore MI c else c in
  match memoryOperandNo i with
  | None => c
  | Some k => scanAddress T Opt s MI i k c
  end.

(** One instruction; the flag says that the walk goes on. *)
Definition scanAccessAll (s : MState) (MI : positive) (i : MInstr) (c : ScanAll) : ScanAll * bool :=
  let MI_condition := mayBranch CT COpt s i (sa_cond c) in
  if negb (mayLoad i) && bool_decide (MI_condition = None) && negb (mayVariant CT COpt i) &&
     negb (HardenStoreAddress Opt && mayStore i) then (c, true)
  else if bool_decide (opcode i = "MFENCE"%string) then (c, true)
  else
    let c := addCondition MI_condition c in
    if mayVariant CT COpt i && isX87 CT s i then (Build_ScanAll (sa_scan c) (sa_cond c) (sa_vt c) (Some MI), false)
    else
      let vt := if mayVariant CT COpt i then {[MI]} ∪ sa_vt c else sa_vt c in
      (Build_ScanAll (scanMemory s MI i (sa_scan c)) (sa_cond c) vt (sa_x87 c), true).

Fixpoint scanBlockAll (s : MState) (l : list positive) (c : ScanAll) : ScanAll :=
  match l with
  | [] => c
  | MI :: rest =>
    let i := instr MI s in
    let c := sa_set_scan (propagateDep i (scanMarker s MI rest (sa_scan c))) c in
    if bool_decide (opcode i = "LFENCE"%string) then c
    else
      let '(c, goes_on) := scanAccessAll s MI i c in
      if goes_on then scanBlockAll s rest c else c
  end.

(** ** The second walk *)
Record WalkAll := {
  wa_walk : Walk;
  wa_cond : gset positive;           (* HardenCondition *)
  wa_vt : gset positive;             (* HardenVTInstr *)
  wa_vtregs : gmap reg VTVal;        (* AddrRegToHardenedReg_VT *)
}.

Definition wa_set_walk (w : Walk) (a : WalkAll) : WalkAll := Build_WalkAll w (wa_cond a) (wa_vt a) (wa_vtregs a).
Definition wa_drop_cond (MI : positive) (a : WalkAll) : WalkAll :=
  Build_WalkAll (wa_walk a) (wa_cond a ∖ {[MI]}) (wa_vt a) (wa_vtregs a).
Definition wa_drop_vt (MI : positive) (a : WalkAll) : WalkAll :=
  Build_WalkAll (wa_walk a) (wa_cond a) (wa_vt a ∖ {[MI]}) (wa_vtregs a).
Definition wa_set_vtregs (m : gmap reg VTVal) (a : WalkAll) : WalkAll :=
  Build_WalkAll (wa_walk a) (wa_cond a) (wa_vt a) m.

(** A step of the walk of [Slh]. *)
Definition lift (m : Walk -> SM Walk) (a : WalkAll) : SM WalkAll := w ← m (wa_walk a); mret (wa_set_walk w a).

Definition inOtherHardenList (MI : positive) (a : WalkAll) : bool :=
  bool_decide (MI ∈ wa_cond a) || bool_decide (MI ∈ w_fixed (wa_walk a)) || bool_decide (MI ∈ wa_vt a).

Definition filteredAll (MI : positive) (prefixed : bool) (a : WalkAll) : bool :=
  EnableFilter Opt && negb prefixed &&
  (if EnableStoreFilter Opt then negb (inOtherHardenList MI a)
   else negb (bool_decide (MI ∈ w_store (wa_walk a))) && negb (inOtherHardenList MI a)).

(** Whether the walk goes on to the branch hardening behind an address or a load. *)
Definition toBranch (MI : positive) (a : WalkAll) : bool :=
  HardenAllBranchConditions COpt && bool_decide (MI ∈ wa_cond a).

Definition visitAddrAll (MI : positive) (a : WalkAll) : SM (WalkAll * bool) :=
  let a := wa_set_walk (w_drop_addr MI (wa_walk a)) a in
  prefixed ← isPrefixedByDummies MI;
  if filteredAll MI prefixed a then mret (a, false)
  else
    w ← markAsProtected MI (wa_walk a);
    if decide (MI ∈ w_store w) then hardenStore T liveInEFLAGS MI ;; mret (wa_set_walk (w_drop_store MI w) a, false)
    else
      i ← gets (instr MI);
      w ← (match memoryOperandNo i with
           | Some k => m ← hardenLoadAddr T liveInEFLAGS MI k (w_regs w); mret (w_set_regs m w)
           | None => mret w
           end);
      mret (wa_set_walk w a, toBranch MI a).

Definition visitPostAll (fuel : nat) (MI : positive) (a : WalkAll) : SM (WalkAll * bool) :=
  let w := wa_walk a in
  let w := w_drop_store MI (w_set_post (w_post w ∖ {[MI]}) w) in
  let a := if HardenOneBranchCondition COpt then wa_drop_cond MI a else a in
  i ← gets (instr MI);
  SunkMI ← (if isDataInvariantLoad i && negb (isEFLAGSDefLive i) then sinkPostLoadHardenedInst T fuel MI (w_post w)
            else mret (Some MI));
  match SunkMI with
  | None => mret (wa_set_walk w a, false)
  | Some x =>
    if decide (x = MI) then
      HardenedReg ← hardenPostLoad T liveInEFLAGS MI;
      mret (wa_set_walk (w_set_regs (<[HardenedReg := HardenedReg]> (w_regs w)) w) a, toBranch MI a)
    else mret (wa_set_walk (w_set_post ({[x]} ∪ w_post w) w) a, false)
  end.

(** The operands of a variable-timing instruction. *)
Fixpoint hardenVTOps (fuel n : nat) (MI : positive) (VT_idx : nat) (a : WalkAll) : SM (Res WalkAll) :=
  match n with
  | O => mret (Done a)
  | S n =>
    vt_tmpOp ← getOperand MI VT_idx;
    let tobeHardened := getReg vt_tmpOp in
    if negb (isReg vt_tmpOp) || negb (isVirtual tobeHardened) || isDef vt_tmpOp then hardenVTOps fuel n MI (S VT_idx) a
    else if bool_decide (is_Some (w_regs (wa_walk a) !! tobeHardened)) then hardenVTOps fuel n MI (S VT_idx) a
    else
      match wa_vtregs a !! tobeHardened with
      | Some VT1 => hardenVTOps fuel n MI (S VT_idx) a
      | Some (VTReg r) => setOperandReg MI VT_idx r ;; hardenVTOps fuel n MI (S VT_idx) a
      | _ =>
        vt_hardened ⇐ hardenVariantTimingInstr T CT Opt liveInEFLAGS fuel MI (wa_vtregs a) VT_idx true;
        hardenVTOps fuel n MI (S VT_idx)
          (if decide (vt_hardened = VT0) then a else wa_set_vtregs (<[tobeHardened := vt_hardened]> (wa_vtregs a)) a)
      end
  end.

(** The registers the instruction defines count as hardened afterwards. *)
Definition markDefs (i : MInstr) (m : gmap reg VTVal) : gmap reg VTVal :=
  foldl (fun m Def => if isReg Def then <[getReg Def := VT1]> m else m) m (mi_defs i).

Definition visitVT (fuel : nat) (MI : positive) (a : WalkAll) : SM (Res WalkAll) :=
  a ← lift (markAsProtected MI) (wa_drop_vt MI a);
  i ← gets (instr MI);
  a ⇐ hardenVTOps fuel (length (mi_ops i)) MI 0 a;
  i ← gets (instr MI);
  mret (Done (wa_set_vtregs (markDefs i (wa_vtregs a)) a)).

Definition visitCondition (fuel : nat) (MI : positive) (a : WalkAll) : SM (Res WalkAll) :=
  a ← lift (markAsProtected MI) (wa_drop_cond MI a);
  _ ⇐ hardenBranch T CT Opt COpt liveInEFLAGS fuel MI (w_regs (wa_walk a));
  mret (Done a).

(** Behind the lists of loads. *)
Definition visitRest (fuel : nat) (MI : positive) (a : WalkAll) : SM (Res WalkAll) :=
  a ← lift (visitFixed liveInEFLAGS MI) a;
  if decide (MI ∈ wa_cond a) then visitCondition fuel MI a
  else if decide (MI ∈ wa_vt a) then visitVT fuel MI a
  else
    a ← lift (visitStore T liveInEFLAGS MI) a;
    a ← lift (visitIndirect T Opt liveInEFLAGS MI) a;
    visitInterprocedural T Opt succ_empty PoisonReg MI ;; mret (Done a).

Definition visitInstrAll (fuel : nat) (MI : positive) (a : WalkAll) : SM (Res WalkAll) :=
  if HardenLoads Opt then
    r ← (if decide (MI ∈ w_addr (wa_walk a)) then visitAddrAll MI a else mret (a, true));
    let '(a, goes_on) := r in
    if negb goes_on then mret (Done a)
    else
      r ← (if decide (MI ∈ w_post (wa_walk a)) then visitPostAll fuel MI a else mret (a, true));
      let '(a, goes_on) := r in
      if negb goes_on then mret (Done a) else visitRest fuel MI a
  else visitInterprocedural T Opt succ_empty PoisonReg MI ;; mret (Done a).

Fixpoint walkBlockAll (fuel : nat) (l : list positive) (a : WalkAll) : SM (Res WalkAll) :=
  match l with
  | [] => mret (Done a)
  | MI :: l => a ⇐ visitInstrAll fuel MI a; walkBlockAll fuel l a
  end.

Definition fenceX87 (x87 : option positive) : SM unit :=
  match x87 with Some MI => BuildMI (Some MI) LFENCE ;; mret tt | None => mret tt end.

(** A block, with the lists of the first walk cleared at its end. *)
Definition hardenBlockAll (fuel : nat) : SM (Res WalkAll) :=
  s ← gets (fun s => s);
  let sa := if HardenLoads Opt then scanBlockAll s (body s) (Build_ScanAll emptyScan ∅ ∅ None)
            else Build_ScanAll emptyScan ∅ ∅ None in
  fenceX87 (sa_x87 sa) ;;
  let c := sa_scan sa in
  m ← (if HardenStandAloneGEPs Opt then hardenGEPs T liveInEFLAGS (order (HardenStandAloneGEP c)) ∅ else mret ∅);
  if decide (None ∈ StandAloneGEPDummyInstr c) then mret NullErased
  else
    eraseAllInstrs (order (StandAloneGEPDummyInstr c)) ;;
    l ← gets body;
    a ⇐ walkBlockAll fuel l (Build_WalkAll
      (Build_Walk (HardenPostLoad c) (HardenLoadAddr c) (HardenStoreAddr c) (HardenFixedAddressRBP c) m ∅ false)
      (sa_cond sa) (sa_vt sa) ∅);
    let h := w_hardened (wa_walk a) in
    if decide (None ∈ h ∪ DummyInstr c) then mret NullErased
    else
      eraseAllInstrs (order h) ;;
      eraseAllInstrs (order (DummyInstr c ∖ h)) ;;
      mret (Done a).
End CondWalk.
