(* ===== verification/SlhCondFacts.v ===== *)
(** * What hardening conditions and variable timing does

    With the three options off, the walks with every option are the walks of [Slh], so that
    what is shown there holds of the whole pass.  A register comparison gets every operand
    checked.  The loop of [hardenVariantTimingInstr] ends unless the operand it is called
    for stays as it is, and then never. *)
From stdpp Require Import base countable gmap sets list option strings.
From Stdlib Require Import ZArith Lia.
From S2P Require Import Prelude Machine Slh SlhSteps SlhMarkers SlhFenced SlhCond SlhCondWalk.

(** ** The options off *)
Section Off.
Context {orderInstrs : SetOrder positive} {orderNull : SetOrder (option positive)}.
Variable T : TargetInfo.
Variable CT : CondTarget.
Variable Opt : Options.
Variable COpt : CondOptions.
Variable liveInEFLAGS : bool.
Variable succ_empty : bool.
Variable PoisonReg : reg.
Hypothesis Hone : HardenOneBranchCondition COpt = false.
Hypothesis Hall : HardenAllBranchConditions COpt = false.
Hypothesis Hvt : HardenVariantTimingInstr COpt = false.

(** A walk without the lists of the three options. *)
Definition plain (w : Walk) : WalkAll := Build_WalkAll w ∅ ∅ ∅.
Definition plainScan (c : Scan) : ScanAll := Build_ScanAll c ∅ ∅ None.

Lemma scanAccessAll_off s MI i c :
  scanAccessAll T CT Opt COpt s MI i (plainScan c) = (plainScan (scanAccess T Opt s MI i c), true).
Proof using All.
  unfold scanAccessAll, mayBranch, mayVariant, scanAccess, scanMemory. rewrite Hone, Hall, Hvt. simpl.
  rewrite if_negb, bool_decide_true by (by case_match). destruct (isConditionalBranch CT i); simpl; rewrite !andb_true_r;
  (case_match; [done|]; case_match; done).
Qed.

Lemma scanBlockAll_off s l c : scanBlockAll T CT Opt COpt s l (plainScan c) = plainScan (scanBlock T Opt s l c).
Proof using All.
  revert c. induction l as [|MI l IH]; intros c; [done|]. cbn [scanBlockAll scanBlock].
  change (sa_set_scan ?x (plainScan c)) with (plainScan x). cbn [sa_scan plainScan]. case_match; [done|].
  change (Build_ScanAll ?x ∅ ∅ None) with (plainScan x). rewrite scanAccessAll_off. apply IH.
Qed.

(** A step of [Slh] with its result wrapped. *)
Definition same {A B} (f : A -> B) (m : SM A) (m' : SM B) : Prop := forall s, m' s = (f (m s).1, (m s).2).

Lemma same_bind {A A' B B'} (f : A -> A') (g : B -> B') m m' k k' :
  same f m m' -> (forall a, same g (k a) (k' (f a))) -> same g (m ≫= k) (m' ≫= k').
Proof using Type. intros Hm Hk s. unfold mbind, SM_bind. rewrite (Hm s). destruct (m s) as [a s1]. apply Hk. Qed.

Lemma same_step {A B B'} (g : B -> B') (m : SM A) k (k' : A -> SM B') :
  (forall a, same g (k a) (k' a)) -> same g (m ≫= k) (m ≫= k').
Proof using Type. intros Hk s. unfold mbind, SM_bind. destruct (m s) as [a s1]. apply Hk. Qed.

Lemma same_ret {A B} (f : A -> B) a : same f (mret a) (mret (f a)).
Proof using Type. by intros s. Qed.

Lemma same_rbind {A A' B B'} (f : A -> A') (g : B -> Res B') (m : SM A) (m' : SM (Res A')) k k' :
  same (fun a => Done (f a)) m m' -> (forall a, same g (k a) (k' (f a))) -> same g (m ≫= k) (rbind m' k').
Proof using Type. intros Hm Hk s. unfold rbind, mbind, SM_bind. rewrite (Hm s). destruct (m s) as [a s1]. apply Hk. Qed.

Lemma same_lift m w : same plain (m w) (lift m (plain w)).
Proof using Type. intros s. unfold lift, mbind, SM_bind. simpl. by destruct (m w s). Qed.

Lemma toBranch_off MI a : toBranch COpt MI a = false.
Proof using All. unfold toBranch. by rewrite Hall. Qed.

Lemma filteredAll_off MI p w : filteredAll Opt MI p (plain w) = filtered Opt MI p w.
Proof using Type.
  clear Hone Hall Hvt. unfold filteredAll, filtered, inOtherHardenList. simpl. by rewrite !bool_decide_false, !orb_false_r by set_solver.
Qed.

Lemma visitAddrAll_off MI w :
  same (fun w => (plain w, false)) (visitAddr T Opt liveInEFLAGS MI w) (visitAddrAll T Opt COpt liveInEFLAGS MI (plain w)).
Proof using All.
  unfold visitAddr, visitAddrAll. apply same_step. intros p.
  change (wa_set_walk ?w' (plain w)) with (plain w'). rewrite filteredAll_off. cbn [wa_walk plain].
  case_match; [apply (same_ret (fun w => (plain w, false)))|]. apply same_step. intros w1.
  case_decide; [apply same_step; intros ?; apply (same_ret (fun w => (plain w, false)))|].
  apply same_step. intros i. rewrite toBranch_off. intros s. unfold mbind, SM_bind.
  destruct (memoryOperandNo i); [|done]. by destruct (hardenLoadAddr _ _ _ _ _ s).
Qed.

Lemma visitPostAll_off fuel MI w :
  same (fun w => (plain w, false)) (visitPost T liveInEFLAGS fuel MI w) (visitPostAll T COpt liveInEFLAGS fuel MI (plain w)).
Proof using All.
  unfold visitPost, visitPostAll. rewrite Hone. apply same_step. intros i. apply same_step. intros [x|];
    [|apply (same_ret (fun w => (plain w, false)))].
  case_decide; [|apply (same_ret (fun w => (plain w, false)))]. apply same_step. intros r. rewrite toBranch_off.
  apply (same_ret (fun w => (plain w, false))).
Qed.

Lemma visitInstrAll_off fuel MI w :
  same (fun w => Done (plain w)) (visitInstr T Opt liveInEFLAGS succ_empty PoisonReg fuel MI w)
    (visitInstrAll T CT Opt COpt liveInEFLAGS succ_empty PoisonReg fuel MI (plain w)).
Proof using All.
  unfold visitInstr, visitInstrAll. destruct (HardenLoads Opt);
    [|apply same_step; intros ?; apply (same_ret (fun w => Done (plain w)))].
  cbn [wa_walk plain]. case_decide.
  { intros s. unfold mbind, SM_bind. rewrite visitAddrAll_off. done. }
  change ((mret (plain w, true) : SM _) ≫= ?k) with (k (plain w, true)). cbn [negb fst snd wa_walk plain].
  case_decide.
  { intros s. unfold mbind, SM_bind. rewrite visitPostAll_off. done. }
  change ((mret (plain w, true) : SM _) ≫= ?k) with (k (plain w, true)). cbn [negb].
  unfold visitRest. apply (same_bind plain); [apply same_lift|intros w1].
  rewrite !decide_False by (simpl; set_solver).
  apply (same_bind plain); [apply same_lift|intros w2]. apply (same_bind plain); [apply same_lift|intros w3].
  apply same_step. intros ?. apply (same_ret (fun w => Done (plain w))).
Qed.

Lemma walkBlockAll_off fuel l w :
  same (fun w => Done (plain w)) (walkBlock T Opt liveInEFLAGS succ_empty PoisonReg fuel l w)
    (walkBlockAll T CT Opt COpt liveInEFLAGS succ_empty PoisonReg fuel l (plain w)).
Proof using All.
  revert w. induction l as [|MI l IH]; intros w; cbn [walkBlock walkBlockAll].
  - apply (same_ret (fun w => Done (plain w))).
  - apply (same_rbind plain); [apply visitInstrAll_off|]. exact IH.
Qed.

Lemma hardenBlockAll_off fuel :
  same (fun r => match r with Some w => Done (plain w) | None => NullErased end)
    (hardenBlock T Opt liveInEFLAGS succ_empty PoisonReg fuel)
    (hardenBlockAll T CT Opt COpt liveInEFLAGS succ_empty PoisonReg fuel).
Proof using All.
  unfold hardenBlock, hardenBlockAll. apply same_step. intros s.
  assert ((if HardenLoads Opt then scanBlockAll T CT Opt COpt s (body s) (Build_ScanAll emptyScan ∅ ∅ None)
           else Build_ScanAll emptyScan ∅ ∅ None) =
          plainScan (if HardenLoads Opt then scanBlock T Opt s (body s) emptyScan else emptyScan)) as ->.
  { destruct (HardenLoads Opt); [apply scanBlockAll_off|done]. }
  generalize (if HardenLoads Opt then scanBlock T Opt s (body s) emptyScan else emptyScan). intros c.
  cbn [sa_scan sa_x87 sa_cond sa_vt plainScan fenceX87]. change ((mret tt : SM _) ≫= ?k) with (k tt). cbn beta.
  apply same_step. intros m. case_decide; [by intros ?|]. apply same_step. intros _. apply same_step. intros l.
  apply (same_rbind plain); [apply walkBlockAll_off|]. intros w. cbn [wa_walk plain].
  case_decide; [by intros ?|]. apply same_step. intros _. apply same_step. intros _. by intros s2.
Qed.
End Off.

(** with -sbh, -sbhAll and -vtInstr off, hardening a block with every option in the
    model is the hardening the other theorems are about: the same block, the same sets,
    and null reaches [MBB.erase] in the same cases; in particular no bound is missed. *)
Theorem options_off {orderInstrs : SetOrder positive} {orderNull : SetOrder (option positive)} T CT Opt COpt liveInEFLAGS
    succ_empty PoisonReg fuel s :
  HardenOneBranchCondition COpt = false -> HardenAllBranchConditions COpt = false ->
  HardenVariantTimingInstr COpt = false ->
  let r := hardenBlock T Opt liveInEFLAGS succ_empty PoisonReg fuel s in
  hardenBlockAll T CT Opt COpt liveInEFLAGS succ_empty PoisonReg fuel s =
    (match r.1 with Some w => Done (Build_WalkAll w ∅ ∅ ∅) | None => NullErased end, r.2).
Proof. intros Ho Ha Hv. by apply hardenBlockAll_off. Qed.

(** ** The operands of a comparison *)

(** The classes of the registers there were at the start. *)
Definition classes (s0 s : MState) : Prop :=
  (nextReg s0 <= nextReg s)%positive /\
  forall n, (n < nextReg s0)%positive -> regClass s !! Virt n = regClass s0 !! Virt n.

#[export] Instance classes_StepInv MI s0 : StepInv MI (fun _ => True) (classes s0).
Proof.
  split; [..|done].
  - intros rc s [Hn Hc]. unfold createVirtualRegister, classes. simpl. split; [simpl; lia|]. intros n Hlt.
    rewrite lookup_insert_ne; [by apply Hc|]. injection. lia.
  - by intros pt i _ _ s Hs.
  - by intros k r s Hs.
  - intros P pt r ns _. apply keeps_bind; [by intros s Hs|]. by intros _ s Hs.
Qed.

Section Condition.
Variable T : TargetInfo.
Variable CT : CondTarget.
Variable Opt : Options.
Variable COpt : CondOptions.
Variable liveInEFLAGS : bool.
Variable MI : positive.
Variable m : gmap reg reg.
Variable s0 : MState.

(** A block whose addresses and registers are bounded by the next ones. *)
Record start_ok : Prop := {
  so_body : forall y, y ∈ body s0 -> (y < nextInstr s0)%positive;
  so_in : MI ∈ body s0;
  so_regs : forall o n, o ∈ mi_ops (instr MI s0) -> getReg o = Virt n -> (n < nextReg s0)%positive }.

Hypothesis Hs0 : start_ok.
Hypothesis Hone : HardenOneBranchCondition COpt = false.
Hypothesis Hfp : raisesFP CT (instr MI s0) = false.

(** The operands [hardenBranch] merges with the state. *)
Definition toHarden (o : MOperand) : bool :=
  isReg o && negb (isDef o) && isVirtual (getReg o) && canHardenIn T s0 (getReg o) && bool_decide (m !! getReg o = None).

(** What becomes of an operand. *)
Definition conditionOperand (s : MState) (o o' : MOperand) : Prop :=
  if toHarden o then
    exists y h, o' = setReg h o /\ checks (nextInstr s0) (nextReg s0) (stateReg s0) s y (getReg o) h /\
      [y; MI] `sublist_of` body s
  else o' = o.

Abbreviation grown := (grows (nextInstr s0) (nextReg s0) (stateReg s0) (Some MI)).

Record upTo (k : nat) (s : MState) : Prop := {
  up_grows : grown s0 s;
  up_settled : settled s0 MI s;
  up_classes : classes s0 s;
  up_sig : withOps [] (instr MI s) = withOps [] (instr MI s0);
  up_len : length (mi_ops (instr MI s)) = length (mi_ops (instr MI s0));
  up_ops : forall j o, mi_ops (instr MI s0) !! j = Some o -> exists o', mi_ops (instr MI s) !! j = Some o' /\
    if decide (j < k)%nat then conditionOperand s o o' else o' = o }.

Lemma MI_old : oldOnly (nextInstr s0) (Some MI).
Proof using Hs0. intros x [= <-]. apply Hs0, Hs0. Qed.

Lemma start_good : good (nextInstr s0) (nextReg s0) (stateReg s0) s0.
Proof using Hs0. split; [apply Hs0|lia|lia|constructor]. Qed.

Lemma upTo_start : upTo 0 s0.
Proof using Hs0.
  split; try done.
  - apply grows_refl, start_good.
  - split; [apply Hs0|]. intros y Hy%Hs0 Hn. lia.
  - intros j o Ho. exists o. by split.
Qed.

(** An operand that stays. *)
Lemma upTo_skip k s : upTo k s -> (forall o, mi_ops (instr MI s0) !! k = Some o -> toHarden o = false) -> upTo (S k) s.
Proof using Type.
  clear. intros [G S C Hsig Hlen Ho] Hk. split; try done. intros j o Hj. destruct (Ho j o Hj) as (o' & Hj' & Hc).
  exists o'. split; [done|]. destruct (decide (j = k)) as [->|Hne].
  - rewrite decide_False in Hc by lia. rewrite decide_True by lia. unfold conditionOperand. by rewrite (Hk o).
  - destruct (decide (j < k)%nat); [rewrite decide_True by lia; exact Hc|by rewrite decide_False by lia].
Qed.

Lemma conditionOperand_mono s s' o o' : good (nextInstr s0) (nextReg s0) (stateReg s0) s -> grown s s' ->
  conditionOperand s o o' -> conditionOperand s' o o'.
Proof using Hs0.
  intros Hg G. unfold conditionOperand. destruct (toHarden o); [|done]. intros (y & h & -> & Hc & Hb).
  exists y, h. split_and!; [done|by apply (checks_mono _ _ _ MI_old Hg G)|trans (body s); [done|apply G]].
Qed.

(** An operand merged with the state. *)
Lemma upTo_harden k s o : upTo k s -> mi_ops (instr MI s0) !! k = Some o -> toHarden o = true ->
  wp (hardenValueInCondition T liveInEFLAGS MI k) (fun _ s' => upTo (S k) s') s.
Proof using Hs0.
  intros [G Hset Hcls Hsig Hlen Ho] Hk Ht. pose proof (gr_good _ _ _ _ _ _ G) as Hg.
  assert (MI ∈ body s) as Hin by apply Hset.
  pose proof (hardenValueInCondition_ok _ _ _ T liveInEFLAGS MI (MI_old MI eq_refl) k s Hg Hin) as Hok.
  pose proof (keeps_hardenValueInCondition T liveInEFLAGS (HI := settled_StepInv s0 MI) k s Hset) as Hset'.
  pose proof (keeps_hardenValueInCondition T liveInEFLAGS (HI := classes_StepInv MI s0) k s Hcls) as Hcls'.
  unfold wp in *. destruct (hardenValueInCondition T liveInEFLAGS MI k s) as [h s']. simpl in *.
  destruct Hok as (G' & (y & Hy) & Hcode).
  destruct (Ho k o Hk) as (o1 & Ho1 & Heq). rewrite decide_False in Heq by lia. subst o1.
  assert (is_Some (code s !! MI)) as [i Hi].
  { unfold instr in Ho1. destruct (code s !! MI); [done|]. by destruct k. }
  rewrite Hi in Hcode. simpl in Hcode. assert (instr MI s = i) as Hin1 by (unfold instr; by rewrite Hi).
  assert (instr MI s' = withOps (alter (setReg h) k (mi_ops i)) i) as Hin' by (unfold instr; by rewrite Hcode).
  rewrite Hin1 in *.
  split; [by eapply grows_trans|done|done|by rewrite Hin'|by rewrite Hin'; simpl; rewrite length_alter|].
  intros j oj Hj. destruct (Ho j oj Hj) as (oj' & Hj' & Hc). rewrite Hin'. cbn [mi_ops withOps].
  destruct (decide (j = k)) as [->|Hne].
  - rewrite list_lookup_alter_eq, Ho1. simpl. eexists. split; [done|]. rewrite decide_True by lia.
    assert (oj = o) as -> by congruence. unfold conditionOperand. rewrite Ht. exists y, h. split; [done|].
    assert (opReg MI s k = getReg o) as Hreg.
    { unfold opReg. rewrite Hin1. by rewrite (nth_lookup_Some _ _ _ _ Ho1). }
    rewrite Hreg in Hy. split; [done|]. destruct Hy as (iy & st & (Hyn & Hyb & _) & _). by apply Hset'.
  - rewrite list_lookup_alter_ne by done. exists oj'. split; [done|].
    destruct (decide (j < k)%nat); [|by rewrite decide_False by lia]. rewrite decide_True by lia.
    by apply (conditionOperand_mono s).
Qed.

(** The registers of the operands can be hardened when they could at the start. *)
Lemma canHarden_start k s o : upTo k s -> mi_ops (instr MI s0) !! k = Some o -> isVirtual (getReg o) = true ->
  canHardenRegister T (getReg o) s = (canHardenIn T s0 (getReg o), s).
Proof using Hs0.
  intros Hu Ho Hv. destruct (getReg o) as [| | | | |n|n] eqn:Hr; try done.
  assert (n < nextReg s0)%positive as Hn by (eapply (so_regs Hs0); [by eapply list_elem_of_lookup_2|done]).
  unfold canHardenIn, canHardenRegister, getRegClass, gets, mbind, SM_bind. simpl.
  by rewrite (proj2 (up_classes _ _ Hu) n Hn).
Qed.

Lemma hardenBranchOps_ok fuel n k hardened s : upTo k s -> (n + k = length (mi_ops (instr MI s0)))%nat ->
  wp (hardenBranchOps T CT Opt COpt liveInEFLAGS fuel n MI m k hardened)
    (fun r s' => (exists hd, r = Done (hd, false)) /\ upTo (n + k) s') s.
Proof using All.
  revert k hardened s. induction n as [|n IH]; intros k hardened s Hu Hlen; cbn [hardenBranchOps].
  { apply wp_ret. split; [by eexists|done]. }
  assert (is_Some (mi_ops (instr MI s0) !! k)) as [o Hk] by (apply lookup_lt_is_Some; lia).
  destruct (up_ops _ _ Hu k o Hk) as (o' & Hk' & Heq). rewrite decide_False in Heq by lia. subst o'.
  unfold getOperand. apply wp_bind, wp_gets, wp_bind, wp_gets, wp_bind. rewrite (nth_lookup_Some _ _ _ _ Hk').
  assert (raisesFP CT (instr MI s) = false) as Hfps.
  { unfold raisesFP. by rewrite (up_sig _ _ Hu). }
  replace (S n + k)%nat with (n + S k)%nat in * by lia.
  assert (forall hd s', upTo (S k) s' -> wp (if HardenOneBranchCondition COpt && negb (hd =? 0)%nat then mret (Done (hd, true))
      else hardenBranchOps T CT Opt COpt liveInEFLAGS fuel n MI m (S k) hd)
    (fun r s' => (exists hd, r = Done (hd, false)) /\ upTo (n + S k) s') s') as Htest.
  { intros hd s' Hu'. rewrite Hone. simpl. by apply IH. }
  unfold wp at 1. cbn beta.
  assert ((canHardenRegister T (getReg o) s).2 = s) as -> by done. set (can := (canHardenRegister T (getReg o) s).1).
  destruct (negb (isReg o) || isDef o) eqn:Hro.
  { apply IH; [|done]. apply upTo_skip; [done|]. intros ? [= <-]%(eq_trans (eq_sym Hk)).
    unfold toHarden. by destruct (isReg o), (isDef o). }
  rewrite Hfps. destruct (negb (isVirtual (getReg o) && can)) eqn:Hcan.
  { apply IH; [|done]. apply upTo_skip; [done|]. intros ? [= <-]%(eq_trans (eq_sym Hk)). unfold toHarden.
    destruct (isVirtual (getReg o)) eqn:Hv; [|by rewrite andb_false_r].
    unfold can in Hcan. rewrite (canHarden_start k s o Hu Hk Hv) in Hcan. simpl in Hcan. apply negb_true_iff in Hcan.
    rewrite Hcan. by rewrite andb_false_r. }
  apply negb_false_iff, andb_true_iff in Hcan as [Hv Hcan]. unfold can in Hcan.
  rewrite (canHarden_start k s o Hu Hk Hv) in Hcan. simpl in Hcan.
  case_bool_decide as Hm.
  { apply Htest, upTo_skip; [done|]. intros ? [= <-]%(eq_trans (eq_sym Hk)). unfold toHarden.
    rewrite (bool_decide_false (m !! _ = None)); [by rewrite andb_false_r|]. by destruct Hm as [? ->]. }
  apply wp_bind. eapply wp_mono; [apply (upTo_harden k s o Hu Hk)|intros ? s1 Hu1; by apply Htest].
  unfold toHarden. rewrite Hv, Hcan, bool_decide_true by (by apply eq_None_not_Some).
  by destruct (isReg o), (isDef o).
Qed.
End Condition.

(** ** The loop over the operands of a variable-timing instruction *)
Section Loop.
Variable T : TargetInfo.
Variable CT : CondTarget.
Variable Opt : Options.
Variable liveInEFLAGS : bool.

(** A turn for operand [k] changes nothing and does not return. *)
Definition turns (s : MState) (MI : positive) (k : nat) : bool :=
  let i := instr MI s in
  let o := nth k (mi_ops i) (imm 0) in
  isReg o && isVirtual (getReg o) && negb (isDef o) && negb (raisesFP CT i) &&
  (if (analyseVariantTimingInstruction (opcode i) =? 1)%Z then false
   else if (analyseVariantTimingInstruction (opcode i) =? 2)%Z then negb (canHardenIn T s (getReg o))
   else true).

Lemma vtStep_cases MI m k special s :
  let r := vtStep T CT liveInEFLAGS MI m k special s in
  (r = (VTContinue, s) /\ (special = true -> turns s MI k = true)) \/
  (exists v, r.1 = VTReturn v /\ turns s MI k = false).
Proof.
  unfold vtStep, turns, getOperand, gets, mbind, SM_bind. cbn beta iota zeta.
  destruct (isReg _) eqn:Hr; cbn [negb andb]; [|destruct special; [right; by eexists|left; by split]].
  destruct (isVirtual _) eqn:Hv; cbn [negb andb orb]; [|destruct special; [right; by eexists|left; by split]].
  destruct (isDef _) eqn:Hd; cbn [negb andb]; [destruct special; [right; by eexists|left; by split]|].
  unfold getRegClass, gets. cbn beta iota zeta. destruct (raisesFP CT _); cbn [negb andb].
  { right. destruct (hardenFP _ _ _ _ _ _ _ _ s). by eexists. }
  destruct (_ =? 1)%Z. { right. destruct (hardenRCX _ _ _ s). by eexists. }
  destruct (_ =? 2)%Z; [|left; by split]. unfold canHardenIn.
  pose proof (eq_refl : (canHardenRegister T (getReg (nth k (mi_ops (instr MI s)) (imm 0))) s).2 = s) as Hs.
  destruct (canHardenRegister _ _ s) as [can s1]. simpl in Hs. subst s1. cbn [fst].
  destruct can; cbn [negb]; [|left; by split]. right. case_match; [by eexists|].
  destruct (hardenValueInCondition _ _ _ _ s). by eexists.
Qed.

Lemma vtFixed_fuel MI s : (vtFixed Opt liveInEFLAGS MI s).1 <> OutOfFuel.
Proof.
  unfold vtFixed. destruct (HardenFixedAddress Opt); [done|]. unfold gets, mbind, SM_bind. cbn beta iota.
  destruct (memoryOperandNo _); [|done]. case_match; [|done]. by destruct (hardenFixedAddress _ _ _ s).
Qed.

Abbreviation loop := (vtLoop T CT Opt liveInEFLAGS).

Lemma vtLoop_turns fuel MI m idx k s :
  turns s MI idx = true -> (k <= S idx)%nat -> (S idx < length (mi_ops (instr MI s)))%nat ->
  loop fuel MI m idx true k s = (OutOfFuel, s).
Proof.
  intros Ht Hk Hlen. revert k Hk. induction fuel as [|n IH]; intros k Hk; cbn [vtLoop]; [done|].
  unfold mbind, SM_bind, gets. cbn beta iota. rewrite decide_True by lia.
  destruct (vtStep_cases MI m idx true s) as [[-> _]|(v & _ & Hv)]; [|congruence]. by apply IH.
Qed.

Lemma vtLoop_special n MI m idx s :
  (idx < length (mi_ops (instr MI s)))%nat -> turns s MI idx = false \/ ~ (S idx < length (mi_ops (instr MI s)))%nat ->
  (loop (S (S n)) MI m idx true 0 s).1 <> OutOfFuel.
Proof.
  intros Hidx Hno. cbn [vtLoop]. unfold mbind, SM_bind, gets. cbn beta iota. rewrite decide_True by lia.
  destruct (vtStep_cases MI m idx true s) as [[-> Ht]|(v & Hv & _)].
  - rewrite decide_False; [apply vtFixed_fuel|]. destruct Hno as [Hno|Hno]; [|done]. by rewrite Ht in Hno.
  - destruct (vtStep _ _ _ _ _ _ _ s) as [r s1]. simpl in Hv. by subst r.
Qed.

Lemma vtLoop_all fuel MI m idx k s :
  (length (mi_ops (instr MI s)) < fuel + k)%nat -> (k <= length (mi_ops (instr MI s)))%nat ->
  (loop fuel MI m idx false k s).1 <> OutOfFuel.
Proof.
  revert k. induction fuel as [|n IH]; intros k Hf Hk; cbn [vtLoop]; [lia|].
  unfold mbind, SM_bind, gets. cbn beta iota. case_decide; [|apply vtFixed_fuel].
  destruct (vtStep_cases MI m k false s) as [[-> _]|(v & Hv & _)]; [apply IH; lia|].
  destruct (vtStep _ _ _ _ _ _ _ s) as [r s1]. simpl in Hv. by subst r.
Qed.
End Loop.

(** C29: a call for one operand loops forever exactly when the turn for that operand leaves
    it alone and it is not the last one, because every turn starts with that operand again;
    otherwise two turns are enough.  A call for all operands always ends. *)
Theorem variable_timing_ends T CT Opt liveInEFLAGS fuel MI m idx s :
  (2 <= fuel)%nat -> (idx < length (mi_ops (instr MI s)))%nat ->
  ((hardenVariantTimingInstr T CT Opt liveInEFLAGS fuel MI m idx true s).1 = OutOfFuel <->
    turns T CT s MI idx = true /\ (S idx < length (mi_ops (instr MI s)))%nat) /\
  ((length (mi_ops (instr MI s)) < fuel)%nat ->
    (hardenVariantTimingInstr T CT Opt liveInEFLAGS fuel MI m idx false s).1 <> OutOfFuel).
Proof.
  intros Hf Hidx. split; [|intros Hlen; apply vtLoop_all; lia]. unfold hardenVariantTimingInstr. split.
  - intros Hr. destruct fuel as [|[|n]]; [lia..|].
    destruct (turns T CT s MI idx) eqn:Ht, (decide (S idx < length (mi_ops (instr MI s)))%nat) as [Hl|Hl]; [done|..];
      exfalso; revert Hr; apply vtLoop_special; auto.
  - intros [Ht Hl]. rewrite vtLoop_turns by (done || lia). done.
Qed.

(** C28: with -sbhAll a comparison of registers has every operand checked.  [hardenBranch]
    returns for every bound, and each register operand that is read, is virtual, has a
    class that can be hardened and was not hardened before is replaced by a new register
    that an instruction before the comparison computes from the old one and the predicate
    state; the other operands stay as they are, those hardened before included. *)
Theorem condition_operands_checked T CT Opt COpt liveInEFLAGS fuel MI m s :
  start_ok MI s -> HardenOneBranchCondition COpt = false -> raisesFP CT (instr MI s) = false ->
  mayLoad (instr MI s) = false -> mayStore (instr MI s) = false ->
  exists hardened s', hardenBranch T CT Opt COpt liveInEFLAGS fuel MI m s = (Done hardened, s') /\
    forall j o, mi_ops (instr MI s) !! j = Some o ->
      exists o', mi_ops (instr MI s') !! j = Some o' /\ conditionOperand T MI m s s' o o'.
Proof.
  intros Hs Hone Hfp Hl Hst. unfold hardenBranch, rbind.
  pose proof (hardenBranchOps_ok T CT Opt COpt liveInEFLAGS MI m s Hs Hone Hfp fuel (length (mi_ops (instr MI s))) 0 0 s
    (upTo_start T MI m s Hs) ltac:(lia)) as Hok.
  unfold wp, mbind, SM_bind, gets in *. cbn beta iota. rewrite Nat.add_0_r in Hok.
  destruct (hardenBranchOps _ _ _ _ _ _ _ _ _ _ _ s) as [r s']. simpl in Hok. destruct Hok as [[hd ->] Hu].
  assert (forall hd' : nat, exists (hardened : nat) s'', (Done hd', s') = (Done hardened, s'') /\
    forall j o, mi_ops (instr MI s) !! j = Some o ->
      exists o', mi_ops (instr MI s'') !! j = Some o' /\ conditionOperand T MI m s s'' o o') as Hend.
  { intros hd'. exists hd', s'. split; [done|]. intros j o Hj. destruct (up_ops _ _ _ _ _ _ Hu j o Hj) as (o' & Ho' & Hc).
    exists o'. split; [done|]. rewrite decide_True in Hc; [done|]. by eapply lookup_lt_Some. }
  assert (mayLoad (instr MI s') = false /\ mayStore (instr MI s') = false) as [Hl' Hst'].
  { pose proof (up_sig _ _ _ _ _ _ Hu) as Hsig. split.
    - change (mayLoad (withOps [] (instr MI s')) = false). by rewrite Hsig.
    - change (mayStore (withOps [] (instr MI s')) = false). by rewrite Hsig. }
  cbn [orb]. case_match; [apply Hend|]. case_match; [apply Hend|]. rewrite Hl', Hst'. cbn [negb andb].
  unfold canHardenRegister, getRegClass, gets, mbind, SM_bind. cbn beta iota. apply Hend.
Qed.

(** ** Blocks *)
Module CondExample.

Definition target : TargetInfo :=
  {| getRegSizeInBits := fun rc => (match rc with GR8 | GR8_NOREX => 8 | GR16 | GR16_NOREX => 16 | GR32 | GR32_NOREX => 32
       | GR64 | GR64_NOREX | GR64_NOSP => 64 | VR128 | VR128X => 128 | VR256 | VR256X => 256 | VR512 => 512
       | OtherRC 2 => 32 | OtherRC 3 => 64 | OtherRC _ => 80 end)%Z;
     hasSuperClassEq := fun a b => bool_decide (a = b); hasVLX := false; hasBMI2 := false; has128ByteRedZone := false;
     exposesReturnsTwice := false; smallNonPIC := true |}.

(** The load of a memory operand at 0 or 1. *)
Definition loadOf (op : string) (i : MInstr) (r : reg) : MInstr :=
  let k := default 0%nat (memoryOperandNo i) in
  MIn op None false true false false false false 1 1 (Some 1%nat) true false (def r :: take 5 (drop k (mi_ops i))).
Definition condTarget : CondTarget :=
  {| isConditionalBranch := fun i => bool_decide (opcode i = "JCC_1"%string);
     fpExceptions := fun i => bool_decide (opcode i ∈ ["UCOMISDrm"; "UCOMISDrr"; "ADDSDrr"]%string);
     isRFP80 := fun rc => bool_decide (rc = OtherRC 4); FR32 := OtherRC 2; FR64 := OtherRC 3;
     getOperandBias := fun _ => 0%nat;
     getOpcodeAfterMemoryUnfold := fun op =>
       if bool_decide (op = "CMP64rm"%string) then Some ("CMP64rr"%string, GR64)
       else if bool_decide (op = "BLSR64rm"%string) then Some ("BLSR64rr"%string, GR64)
       else if bool_decide (op = "UCOMISDrm"%string) then Some ("UCOMISDrr"%string, OtherRC 3) else None;
     unfoldedLoad := fun i r => loadOf (if bool_decide (opcode i = "UCOMISDrm"%string) then "MOVSDrm_alt" else "MOV64rm") i r |}.

Definition options : Options :=
  {| EnablePostLoadHardening := false; FenceCallAndRet := false; HardenInterprocedurally := true; HardenLoads := true;
     HardenIndirectCallsAndJumps := true; HardenFixedAddress := false; HardenStoreAddress := false; EnableFilter := false;
     EnableStoreFilter := false; HardenStandAloneGEPs := true |}.
Definition off : CondOptions := Build_CondOptions false false false.
Definition sbhAll : CondOptions := Build_CondOptions false true false.
Definition vtInstr : CondOptions := Build_CondOptions false false true.

Definition load (d b : reg) : MInstr :=
  MIn "MOV64rm" None false true false false false false 1 1 (Some 1%nat) true false
    [def d; use b; imm 1; use NoRegister; imm 0; use NoRegister].
Definition compare (a b : reg) : MInstr := built "CMP64rr" 0 [use a; use b; liveFlags].
Definition jcc : MInstr := MIn "JCC_1" None false false false false true false 0 0 None false false [mbb 2; imm 4; use EFLAGS].
Definition divide (r : reg) : MInstr :=
  MIn "DIV64r" None false false false false false false 0 0 None false false
    [use r; MO (OReg (Phys 1)) true true false false; liveFlags; MO (OReg (Phys 1)) false true false false].

(** The predicate state is in register 9; 5 is a register without REX, 6 a scalar. *)
Definition blockOf (l : list (positive * MInstr)) : MState :=
  MS (list_to_map l) l.*1
    (list_to_map [(Virt 1, GR64); (Virt 2, GR64); (Virt 3, GR64); (Virt 5, GR64_NOREX); (Virt 6, OtherRC 3); (Virt 9, GR64_NOSP)])
    20 30 (Virt 9).
Definition harden (COpt : CondOptions) (fuel : nat) : MState -> Res WalkAll * MState :=
  hardenBlockAll (orderInstrs := elementsOrder _) (orderNull := elementsOrder _) target condTarget options COpt false false
    NoRegister fuel.
Definition regsOf (x : positive) (s : MState) : list reg := getReg <$> filter (fun o => isReg o = true) (mi_ops (instr x s)).

Definition comparison : MState := blockOf [(1, compare (Virt 1) (Virt 2)); (2, jcc)]%positive.

Lemma options_off_witness :
  harden off 10 comparison =
    (match (hardenBlock (orderInstrs := elementsOrder _) (orderNull := elementsOrder _) target options false false NoRegister
              10 comparison).1 with Some w => Done (Build_WalkAll w ∅ ∅ ∅) | None => NullErased end,
     (hardenBlock (orderInstrs := elementsOrder _) (orderNull := elementsOrder _) target options false false NoRegister
        10 comparison).2).
Proof.
  apply (options_off (orderInstrs := elementsOrder _) (orderNull := elementsOrder _) target condTarget options off false false
    NoRegister 10 comparison); reflexivity.
Defined.

Lemma condition_operands_checked_witness :
  exists hardened s', hardenBranch target condTarget options sbhAll false 0 1 ∅ comparison = (Done hardened, s') /\
    exists o', mi_ops (instr 1 s') !! 0%nat = Some o' /\ exists y h, o' = setReg h (use (Virt 1)) /\
      checks 20 30 (Virt 9) s' y (Virt 1) h /\ [y; 1]%positive `sublist_of` body s'.
Proof.
  destruct (condition_operands_checked target condTarget options sbhAll false 0 1 ∅ comparison) as (hd & s' & Hr & Hops);
    try reflexivity.
  - split.
    + intros y Hy. change (y ∈ [1; 2]%positive) in Hy. set_unfold in Hy. destruct_or!; subst y; vm_compute; done.
    + vm_compute. left.
    + intros o n Ho Hn. change (o ∈ mi_ops (compare (Virt 1) (Virt 2))) in Ho. unfold compare in Ho. simpl in Ho.
      set_unfold in Ho. destruct_or!; subst o; vm_compute in Hn; try discriminate;
        injection Hn as <-; vm_compute; done.
  - exists hd, s'. split; [exact Hr|]. destruct (Hops 0%nat (use (Virt 1)) eq_refl) as (o' & Ho' & Hc).
    exists o'. split; [exact Ho'|exact Hc].
Defined.

Definition division : MState := blockOf [(1, divide (Virt 5))]%positive.

Lemma variable_timing_ends_witness :
  (hardenVariantTimingInstr target condTarget options false 7 1 ∅ 0 true division).1 = OutOfFuel /\
  (hardenVariantTimingInstr target condTarget options false 7 1 ∅ 0 false division).1 <> OutOfFuel.
Proof.
  destruct (variable_timing_ends target condTarget options false 7 1 ∅ 0 division) as [Hspecial Hall];
    [lia|vm_compute; lia|]. split; [apply Hspecial; split; [reflexivity|vm_compute; lia]|apply Hall; vm_compute; lia].
Defined.

(** With -vtInstr the pass never gets past a 64-bit division by a register of a class
    without REX. *)
Lemma division_loops_forever fuel : (harden vtInstr fuel division).1 = OutOfFuel.
Proof.
  set (w := Build_Walk ∅ ∅ ∅ ∅ ∅ ∅ false). set (a := Build_WalkAll w ∅ {[1%positive]} ∅).
  assert (visitVT target condTarget options false fuel 1 a division = (OutOfFuel, division)) as Hv.
  { unfold visitVT. assert (lift (markAsProtected 1) (wa_drop_vt 1 a) division = (Build_WalkAll w ∅ ∅ ∅, division)) as Hm
      by (vm_compute; reflexivity).
    unfold mbind, SM_bind at 1. rewrite Hm. unfold gets, rbind, mbind, SM_bind. cbn beta iota.
    change (length (mi_ops (instr 1 division))) with 4%nat. cbn [hardenVTOps].
    unfold getOperand, gets, rbind, mbind, SM_bind. cbn beta iota zeta.
    change (nth 0 (mi_ops (instr 1 division)) (imm 0)) with (use (Virt 5)). cbn [isReg isDef mo_kind getReg use negb isVirtual orb].
    rewrite bool_decide_false by (by intros [? ?]). cbn [wa_vtregs]. rewrite lookup_empty.
    unfold hardenVariantTimingInstr. rewrite vtLoop_turns by (vm_compute; (reflexivity || lia)). reflexivity. }
  unfold harden, hardenBlockAll, rbind, mbind, SM_bind, gets. cbn beta iota zeta.
  change (HardenLoads options) with true. cbn beta iota.
  set (sa := scanBlockAll _ _ _ _ _ _ _).
  assert (sa = Build_ScanAll emptyScan ∅ {[1%positive]} None) as -> by (vm_compute; reflexivity).
  cbn [fenceX87 sa_x87 sa_scan sa_cond sa_vt]. change ((mret tt : SM unit) division) with (tt, division). cbn beta iota.
  change (HardenStandAloneGEPs options) with true. cbn beta iota.
  change (hardenGEPs _ _ _ _ _) with ((∅ : gmap reg reg), division). cbn beta iota.
  rewrite decide_False by (simpl; set_solver). change (eraseAllInstrs _ division) with (tt, division). cbn beta iota.
  change (body division) with [1%positive]. cbn [walkBlockAll]. unfold rbind, mbind, SM_bind.
  assert (visitInstrAll (orderInstrs := elementsOrder _) target condTarget options vtInstr false false NoRegister fuel 1 a division = (OutOfFuel, division)) as Hi.
  { unfold visitInstrAll, rbind, mbind, SM_bind. change (HardenLoads options) with true. cbn beta iota.
    rewrite (decide_False (P := 1%positive ∈ w_addr _)) by (simpl; set_solver). change ((mret (a, true) : SM (WalkAll * bool)) division) with ((a, true), division).
    cbn beta iota. cbn [negb]. rewrite decide_False by (simpl; set_solver). change ((mret (a, true) : SM (WalkAll * bool)) division) with ((a, true), division).
    cbn beta iota. unfold visitRest, mbind, SM_bind. cbn [negb]. cbn beta. assert (lift (visitFixed false 1) a division = (a, division)) as ->
      by (vm_compute; reflexivity). rewrite decide_False, decide_True by (simpl; set_solver). exact Hv. }
  change (Build_WalkAll (Build_Walk _ _ _ _ _ _ _) _ _ _) with a. by rewrite Hi.
Qed.

(** An operand whose register an earlier address hardening lists counts as hardened, but
    keeps reading the register that is not. *)
Lemma listed_condition_unhardened :
  let s' := (harden sbhAll 10 (blockOf [(1, load (Virt 3) (Virt 1)); (2, compare (Virt 1) (Virt 2)); (3, jcc)]%positive)).2 in
  regsOf 1 s' = [Virt 3; Virt 30; NoRegister; NoRegister] /\ regsOf 2 s' = [Virt 1; Virt 31; EFLAGS].
Proof. split; vm_compute; reflexivity. Qed.

(** A division hardens its operand, but marks the old register: a second division by the
    same register reads it as it is. *)
Lemma second_division_unhardened :
  let s' := (harden vtInstr 10 (blockOf [(1, divide (Virt 1)); (2, divide (Virt 1))]%positive)).2 in
  regsOf 1 s' !! 0%nat = Some (Virt 30) /\ regsOf 2 s' !! 0%nat = Some (Virt 1).
Proof. split; vm_compute; reflexivity. Qed.

(** The count register of a repeated instruction is hardened only for a virtual operand,
    and these instructions have none. *)
Lemma repeated_unhardened :
  let rep := MIn "REP_STOSQ_64" None false false true false false false 0 0 None false false
    [MO (OReg RCX) true true false false; MO (OReg RCX) false true false false] in
  let s := blockOf [(1, rep)]%positive in
  body (harden vtInstr 10 s).2 = [1%positive] /\ instr 1 (harden vtInstr 10 s).2 = rep.
Proof. split; vm_compute; reflexivity. Qed.

(** A scalar comparison with memory: the loaded scalar goes into a general-register or. *)
Lemma scalar_in_general_or :
  let ucomisd := MIn "UCOMISDrm" None false true false false false false 0 0 (Some 1%nat) false false
    [use (Virt 6); use (Virt 1); imm 1; use NoRegister; imm 0; use NoRegister; liveFlags] in
  let s' := (hardenBranch target condTarget options sbhAll false 10 1 ∅ (blockOf [(1, ucomisd); (2, jcc)]%positive)).2 in
  exists x h, x ∈ body s' /\ opcode (instr x s') = "OR64rr"%string /\ head (mi_ops (instr x s')) = Some (def h) /\
    regClass s' !! h = Some (OtherRC 3).
Proof. exists 25%positive, (Virt 35). split_and!; [apply (bool_decide_unpack _)|..]; vm_compute; reflexivity. Qed.

(** An instruction that defines a register and reads memory right behind it: removing
    starts one operand too late, so that the address stays and the flags are replaced. *)
Lemma address_left_behind :
  let blsr := MIn "BLSR64rm" None false true false false false false 1 1 (Some 1%nat) false false
    [def (Virt 2); use (Virt 1); imm 1; use NoRegister; imm 0; use NoRegister; liveFlags] in
  let s' := (hardenBranch target condTarget options sbhAll false 10 1 ∅ (blockOf [(1, blsr); (2, jcc)]%positive)).2 in
  opcode (instr 1 s') = "BLSR64rr"%string /\ regsOf 1 s' = [Virt 2; Virt 30; Virt 32] /\
  regsOf 20 s' = [Virt 30; Virt 1; Virt 9; EFLAGS] /\ opcode (instr 20 s') = "OR64rr"%string /\
  regsOf 21 s' = [Virt 31; Virt 30; NoRegister; NoRegister] /\ opcode (instr 21 s') = "MOV64rm"%string.
Proof. split_and!; vm_compute; reflexivity. Qed.
End CondExample.
